(* ===== verification/_CoqProject ===== *)
-Q . S2P
Prelude.v
ErrorCodes.v
Ring.v
IoSetup.v
Operations.v
Awaitable.v
Task.v
Machine.v
Kernel.v
Scheduler.v
Heap.v
Safety.v
EventLoop.v
Follows.v
Wakeup.v
Interleave.v
Process.v
Chains.v
Refine.v
RefineLoop.v
Execution.v
Stepwise.v
Equiv.v
Shutdown.v
Jobs.v
Serving.v
Inbox.v
Spawn.v
Runtime.v
Threads.v
Workload.v
Waits.v
Dispatch.v
Scenarios.v
TestLoops.v
FileTests.v
RingTests.v
