(* ===== verification/Prelude.v ===== *)
(** * A verification of slim::common::io

    SlimCommonIo is a C++ library for asynchronous I/O on Linux io_uring with
    coroutines.  Its parts, and how they work together:

    - [IO] (src/io.cpp, include/slim/common/io.h.in) sets up a ring: one
      descriptor, two or three mappings, pointers into them;
    - the operations ([Accept] ... [Write], src/operations.cpp) fill in one
      submission entry each; their base class [Awaitable] (src/awaitable.cpp)
      reserves one slot, or two when a deadline is set, publishes the entries
      and suspends the coroutine; a thread-local flag reports a full queue;
    - [Task] (include/slim/common/io/task.h.in) is the coroutine type: it owns
      its frame and can be awaited, in which case control moves between frames
      by symmetric transfer;
    - [Scheduler] (src/scheduler.cpp, include/slim/common/io/scheduler.h.in)
      runs the event loop of one thread: [spawn] starts tasks, [post] hands a
      callable over from any thread through an inbox and an eventfd, [drain]
      submits, waits, and resumes the coroutines of the completions, [reap]
      destroys finished tasks, [shutdown] drives the rest to the end;
    - [Runtime] (src/runtime.cpp, include/slim/common/io/runtime.h.in) owns a
      dispatcher and a number of workers, each a ring, a scheduler and a
      thread, and hands posted jobs to the workers in turn;
    - [ErrorStatus] and [IOException] (include/slim/common/io/error_codes.h.in).

    ** Files

    - Prelude (this file): machine words, the state-and-exception monad in
      which the code is written, its weakest-precondition rules, list lemmas.
    - ErrorCodes: the enumeration, the string table, exceptions.
    - Ring: the two rings as the library sees them (head, tail, mask, index
      array, entries), the abstract queues [sq_pending] and [cq_ready] they
      represent, well-formedness [wf_io], and the lemmas that publishing,
      consuming and advancing refine queue operations, 32-bit wrap-around
      included.  64-bit values that carry addresses are the type [word64].
    - IoSetup: [IO_ctor] and [IO_dtor] against the descriptors and mappings of
      the process; [io_uring_setup] and [mmap] are parameters.
    - Operations: the ten operations, [prepare], and a decoder of entries into
      system calls as the specification.
    - Awaitable: [has_capacity], [commit_one], [await_suspend], [with_timeout],
      the thread-local flag.
    - Task: coroutine bodies and callables as trees over the calls they can
      make, promises, frames, [FinalAwaiter], creation, moves and destruction
      of [Task] objects.
    - Machine: the state of a scheduler thread and the execution of user code
      in it: [co_await] of operations and tasks, symmetric transfer, [spawn],
      [post], the dispatch closure of [Runtime::post].
    - Kernel: the interface [Kernel] for [io_uring_enter], what the library
      relies on as the class [KernelSpec] (a read of the non-blocking eventfd
      may complete with its counter at zero), and an executable kernel that
      satisfies it.
    - Scheduler: the member functions of [Scheduler], one definition each.
    - Heap, Safety, EventLoop: the ownership invariant between outstanding
      entries, awaitables and frames; user code keeps it; the event loop keeps
      it.
    - Follows: what running code can do to other schedulers (the class
      [Stable]); Wakeup: the step relation [reach] that interleaves one event
      loop with other threads and the kernel between turns; Interleave: the
      loop cut at its accesses to what others see, the relation [freach] in
      which they act at every cut, and the proof that the steps, left alone,
      are [drain] followed by [reap].
    - Process: the abstract specification of a scheduler, a [pool] of
      processes without frames, handles or rings; Chains, Refine, RefineLoop,
      Execution: the simulation between the code and the specification, from
      user code over the event loop to what other threads do; Stepwise: the
      turn of the specification cut where Interleave cuts the code, and the
      simulation step by step, whatever happens at the cuts; Equiv: processes
      and pools up to pointwise equality, and the equivalence of a nested
      [co_await] with the inlined body.
    - Shutdown: termination of [shutdown], by a well-founded order on the
      operations tasks still wait for, against the interface
      [ResponsiveKernel].
    - Jobs, Serving, Workload: accounting of posted jobs, for the turns and the
      steps of one loop, for threads that post to one scheduler, and for a
      runtime, the threads anywhere inside their turns.  A [book] says which
      counter of the user state the jobs add to and how much each may add, so
      that one proof gives the number of jobs, what became of each job, and the
      share of each worker.
    - Waits: the loop in which a program waits for its jobs, and what stopping
      does once it has seen them all done.
    - Spawn: the contract of [spawn] and what full queues do.
    - Inbox: exact behaviour of [post] and of [drain_inbox], for callables that
      do not post to the scheduler they run on.
    - Runtime: construction, [start], [stop] and [post], and what each does to
      the threads; Threads: the transition system of dispatcher, workers, their
      threads and the caller of [start] and [stop], every thread anywhere inside
      its turn, and posting threads between their push and their write (the
      relation [treach]); Dispatch: construction and round robin.
    - Scenarios, FileTests: programs of the repository's tests (tests2/), run
      in the model.  Scenarios holds the sections of hangs/main.cpp,
      hangs/tasks.cpp, connect_poll.cpp and run_multiple_tasks.cpp; FileTests
      the readers, writers, jobs and closing checks of multi_threaded.cpp and
      runtime_write.cpp; TestLoops their waiting loops, and the reading back
      of files.
    - RingTests: the sections of hangs/main.cpp on [IO] and [IOException],
      against the class [RingKernel].

    ** How the code is represented

    A function that changes state or throws is a term of [exec S exn A]: it
    maps a state to an outcome and a state.  The outcomes are a value, a C++
    exception, or [Stuck] with a reason, which is how undefined behaviour
    appears: following the address of a freed awaitable or frame, resuming a
    coroutine that is not suspended, reading outside a ring, dividing by zero.
    That a theorem excludes [Stuck] is the statement that this behaviour does
    not occur.  Frames and awaitables are numbered and numbers are never
    reused, so a dangling address is always noticed.

    User code is universally quantified: a coroutine body is any tree of
    computations on a user state, awaits, nested tasks, spawns and posts, with
    arbitrary continuations on the results.

    The loops of the model terminate by structural recursion or by fuel that
    is shown to be enough: the completion loop runs on the number of ready
    completions, a chain of symmetric transfers on the handle of its first
    frame (continuations are older than the frames that return to them), the
    destruction of a frame with its inner tasks on the number of frames ever
    created.  None of them runs out ([Stuck OutOfFuel] is excluded by the
    safety theorems).  [run] and [shutdown] do not terminate in general: the
    theorems are about the steps inside their turns, in the relations [freach]
    for one scheduler and [treach] for a runtime, of which executions by whole
    turns ([reach]) are a special case; [shutdown] takes fuel, and Shutdown shows
    when some amount of it, and every larger one, gives the same normal result.

    ** What the theorems show

    Theorems about executions are about those that meet the assumptions listed
    below, which the relations [freach] and [treach] have in their rules.

    - Memory safety: in every such state of one scheduler, and of a whole
      runtime, with other threads and the kernel acting at every cut inside a
      turn, the event loop stays clear of undefined behaviour, and
      outstanding entries and suspended coroutines correspond one to one.
    - Refinement: every such execution of a scheduler, at every interleaving, is
      one of its specification, and every step is one of its steps, so what a
      program observes does not depend on frames, handles or symmetric transfer;
      awaiting a task and inlining its body agree.
    - Termination and progress: [shutdown] returns, with nothing left over,
      when the remaining tasks stop asking and the kernel answers; every turn
      ends, and a thread that was asked to stop leaves its loop; posted jobs
      are neither lost nor run twice, each worker does its share, and a program
      that has seen its jobs done finds nothing left, and [stop] ends.
    - Wakeups: a loop never sleeps while its inbox holds work or a stop was
      requested, wherever in its turn it was when that happened.
    - Functional behaviour: completions are delivered to the right coroutine,
      [reap], [post], [drain_inbox], [spawn], the dispatcher, the operations,
      the deadline conversion, the ring set-up, with their error branches.
    - Ownership and protocol: [Task] never leaks or frees twice, rings are
      released on every path, no two threads work on one scheduler, [stop]
      leaves no task behind.
    - Behaviour that differs from what comments or the README say is stated as
      theorems too: a full queue when the eventfd read is armed, SQFull after
      user code has run, restart after [stop], worker ring depth, posted work
      at [stop], a ring with as many operations as slots at [shutdown], the
      size mapped for the completion ring.
    - Tests: for which answers of the kernel the requirements of the test
      programs hold.

    The memory-safety theorems assume what the comments of [spawn] take for
    granted: a spawned task needs at most one slot before it first suspends
    ([first_ok]: no deadline on its first await, no spawn before it), deadlines
    and coroutines that spawn do not occur together ([good]), the allocator can
    grow [tasks_], and before a turn either the eventfd read is armed or the
    queue has a free slot ([armable]).  The file Spawn shows what happens without
    them: an operation is lost, user code runs twice, or a freed address is
    followed.  Termination of [shutdown] assumes in addition that
    the tasks left neither spawn, use deadlines nor post to the scheduler being
    shut down, that its inbox is empty, and that fewer operations are
    outstanding than the ring has slots ([stoppable]); Scenarios shows that it
    hangs when the last condition fails.  The accounting theorems are about jobs
    that spawn one task which adds to its counter once, after its last
    operation, uses no deadline and neither spawns nor posts ([fit],
    [job_adds]), which is what the test programs post.
    Properties of the kernel are the classes
    [KernelSpec] and [ResponsiveKernel]; executable kernels are instances of
    both.

    ** What is not modelled

    Logging (compiled out by default), the memory orderings of the atomics
    (accesses to what threads share are steps of one interleaving), interleaving
    inside one callable or one resumption of a coroutine, which is one step with
    the calls of [spawn] and [post] it makes (to the scheduler it posts to, other
    threads' pushes and writes are separate steps), the moments between the
    creation of two threads in [start], [std::function]
    and the standard containers beyond their documented behaviour, and
    the result code of [io_uring_enter], which the code ignores.  [Task<T>] is
    modelled at a default-constructible [T].  Of the test programs, the
    creation of sockets and files, random data, progress output and checks of
    what an operation put into a buffer are left out, and so are the programs
    that repeat others. *)
From stdpp Require Import prelude list gmap.
From Stdlib Require Import ZArith Lia.

Declare Scope slim_scope.
Delimit Scope slim_scope with slim.
Open Scope slim_scope.
Open Scope Z_scope.

(** ** Machine integers

    An unsigned integer of [w] bits is a [Z] kept in [0, 2^w); every
    arithmetic operation of the source wraps, which is written out. *)

Definition two32 : Z := 4294967296.
Definition two64 : Z := 18446744073709551616.

Definition u32 (z : Z) : Z := z mod two32.
Definition u64 (z : Z) : Z := z mod two64.

Notation "a +u32 b" := (u32 (a + b)) (at level 50, left associativity) : slim_scope.
Notation "a -u32 b" := (u32 (a - b)) (at level 50, left associativity) : slim_scope.

Definition is_u32 (z : Z) : Prop := 0 <= z < two32.
Definition is_u64 (z : Z) : Prop := 0 <= z < two64.

#[export] Instance is_u32_decision z : Decision (is_u32 z).
Proof. unfold is_u32. apply _. Defined.

(** Linear arithmetic after unfolding the word constants. *)
Ltac word_lia :=
  unfold is_u32, is_u64, u32, u64, two32, two64 in *; lia.

Lemma u32_range z : is_u32 (u32 z).
Proof. unfold is_u32, u32. apply Z.mod_pos_bound. unfold two32. lia. Qed.

Lemma u32_id z : is_u32 z -> u32 z = z.
Proof. intros H. apply Z.mod_small. exact H. Qed.

Lemma u64_id z : is_u64 z -> u64 z = z.
Proof. intros H. apply Z.mod_small. exact H. Qed.

(** Advancing a free-running counter by [n] advances its distance to
    another counter by [n], as long as the distance stays in range. *)
Lemma u32_distance_add tail head n :
  0 <= n -> (tail -u32 head) + n < two32 ->
  (tail +u32 n) -u32 head = (tail -u32 head) + n.
Proof.
  intros Hn Hlt. pose proof (u32_range (tail - head)) as Hr.
  unfold u32 in *. rewrite Zminus_mod_idemp_l.
  replace (tail + n - head) with ((tail - head) + n) by lia.
  rewrite <- Zplus_mod_idemp_l. apply Z.mod_small. word_lia.
Qed.

(** ... and advancing the other counter shrinks it. *)
Lemma u32_distance_sub tail head n :
  0 <= n <= tail -u32 head ->
  tail -u32 (head +u32 n) = (tail -u32 head) - n.
Proof.
  intros Hn. pose proof (u32_range (tail - head)) as Hr.
  unfold u32 in *. rewrite Zminus_mod_idemp_r.
  replace (tail - (head + n)) with ((tail - head) - n) by lia.
  rewrite <- Zminus_mod_idemp_l. apply Z.mod_small. word_lia.
Qed.

Lemma u32_distance_0 tail head :
  is_u32 tail -> is_u32 head -> tail -u32 head = 0 -> head = tail.
Proof.
  intros Ht Hh H. unfold u32 in H.
  apply Z.mod_divide in H; [|unfold two32; lia].
  destruct H as [q Hq]. unfold is_u32, two32 in *. nia.
Qed.

(** ** Outcomes and the execution monad

    A call of the library either returns, throws a C++ exception, or is
    stuck: it runs into behaviour the language leaves undefined, blocks for
    ever in the kernel, or (in the model only) runs out of fuel. *)

Inductive stuck : Type :=
| UseAfterFree
| InvalidResume
| OutOfRange
| DivisionByZero
| KernelBlocks
| OutOfFuel.

#[export] Instance stuck_eq_dec : EqDecision stuck.
Proof. solve_decision. Defined.

Inductive outcome (E A : Type) : Type :=
| Normal (a : A)
| Throw (e : E)
| Stuck (r : stuck).
Arguments Normal {E A} a.
Arguments Throw {E A} e.
Arguments Stuck {E A} r.

(** State-passing with outcomes; the state survives a throw. *)
Definition exec (S E A : Type) : Type := S -> outcome E A * S.

Section Exec.
Context {S E : Type}.

#[global] Instance exec_ret : MRet (exec S E) := fun A a s => (Normal a, s).

#[global] Instance exec_bind : MBind (exec S E) := fun A B k m s =>
  match m s with
  | (Normal a, s') => k a s'
  | (Throw e, s') => (Throw e, s')
  | (Stuck r, s') => (Stuck r, s')
  end.

Definition throw {A} (e : E) : exec S E A := fun s => (Throw e, s).
Definition stuck_with {A} (r : stuck) : exec S E A := fun s => (Stuck r, s).
Definition gets {A} (f : S -> A) : exec S E A := fun s => (Normal (f s), s).
Definition modify (f : S -> S) : exec S E unit := fun s => (Normal tt, f s).

(** [try m]: the exception of [m], if any, as a value (a C++ [try/catch]). *)
Definition try {A} (m : exec S E A) : exec S E (A + E) := fun s =>
  match m s with
  | (Normal a, s') => (Normal (inl a), s')
  | (Throw e, s') => (Normal (inr e), s')
  | (Stuck r, s') => (Stuck r, s')
  end.

(** Look something up in the state; [r] is the undefined behaviour when it
    is not there. *)
Definition demand {A} (r : stuck) (f : S -> option A) : exec S E A := fun s =>
  match f s with Some a => (Normal a, s) | None => (Stuck r, s) end.

(** *** Weakest preconditions

    [wp m Q s]: running [m] in [s] ends in an outcome and a state that
    satisfy [Q]. *)
Definition wp {A} (m : exec S E A) (Q : outcome E A -> S -> Prop) (s : S) : Prop :=
  Q (fst (m s)) (snd (m s)).

Lemma wp_ret {A} (a : A) Q s : Q (Normal a) s -> wp (mret a) Q s.
Proof. done. Qed.

Lemma wp_bind {A B} (m : exec S E A) (k : A -> exec S E B) Q s :
  wp m (fun o s' => match o with
                    | Normal a => wp (k a) Q s'
                    | Throw e => Q (Throw e) s'
                    | Stuck r => Q (Stuck r) s'
                    end) s ->
  wp (mbind k m) Q s.
Proof. unfold wp, mbind, exec_bind. by destruct (m s) as [[]]. Qed.

Lemma wp_throw {A} e (Q : outcome E A -> S -> Prop) s : Q (Throw e) s -> wp (throw e) Q s.
Proof. done. Qed.

Lemma wp_gets {A} (f : S -> A) Q s : Q (Normal (f s)) s -> wp (gets f) Q s.
Proof. done. Qed.

Lemma wp_modify f Q s : Q (Normal tt) (f s) -> wp (modify f) Q s.
Proof. done. Qed.

Lemma wp_try {A} (m : exec S E A) Q s :
  wp m (fun o s' => match o with
                    | Normal a => Q (Normal (inl a)) s'
                    | Throw e => Q (Normal (inr e)) s'
                    | Stuck r => Q (Stuck r) s'
                    end) s ->
  wp (try m) Q s.
Proof. unfold wp, try. by destruct (m s) as [[]]. Qed.

Lemma wp_demand {A} r (f : S -> option A) a Q s :
  f s = Some a -> Q (Normal a) s -> wp (demand r f) Q s.
Proof. unfold wp, demand. by intros ->. Qed.

Lemma wp_mono {A} (m : exec S E A) (P Q : outcome E A -> S -> Prop) s :
  wp m P s -> (forall o s', P o s' -> Q o s') -> wp m Q s.
Proof. unfold wp. eauto. Qed.

Lemma wp_and {A} (m : exec S E A) (P Q : outcome E A -> S -> Prop) s :
  wp m P s -> wp m Q s -> wp m (fun o s' => P o s' /\ Q o s') s.
Proof. by split. Qed.
End Exec.

(** [go m s Q] style steps: peel the monadic structure of the goal. *)
Ltac wp_step :=
  lazymatch goal with
  | |- wp (mbind _ _) _ _ => apply wp_bind
  | |- wp (mret _) _ _ => apply wp_ret
  | |- wp (throw _) _ _ => apply wp_throw
  | |- wp (gets _) _ _ => apply wp_gets
  | |- wp (modify _) _ _ => apply wp_modify
  | |- wp (try _) _ _ => apply wp_try
  end; cbn beta iota.

Ltac wp_steps := repeat wp_step.

(** ** Shared lemmas on lists *)

Create HintDb slim.

(** Appending one more index to a comprehension over [seq 0 n]. *)
Lemma fmap_seq_snoc {A} (f : nat -> A) n : f <$> seq 0 (S n) = (f <$> seq 0 n) ++ [f n].
Proof. rewrite seq_S, fmap_app. done. Qed.

Lemma fmap_seq_ext {A} (f g : nat -> A) n :
  (forall i, (i < n)%nat -> f i = g i) -> f <$> seq 0 n = g <$> seq 0 n.
Proof.
  intros H. apply list_fmap_ext. intros i x Hx.
  apply lookup_seq in Hx as [-> Hi]. by apply H.
Qed.

Lemma fmap_seq_drop {A} (f : nat -> A) m n :
  drop m (f <$> seq 0 n) = (fun i => f (m + i)%nat) <$> seq 0 (n - m).
Proof.
  apply list_eq. intros i. rewrite lookup_drop, !list_lookup_fmap.
  destruct (decide (m + i < n)%nat) as [Hlt|Hge].
  - rewrite !lookup_seq_lt by lia. done.
  - rewrite !lookup_seq_ge by lia. done.
Qed.
