(* ===== verification/ErrorCodes.v ===== *)
(** * ErrorCodes: [ErrorStatus], its string table and [IOException]

    Models include/slim/common/io/error_codes.h.in.  The enumeration is an
    inductive type; [static_cast<uint32_t>] is [to_uint32]; the string table
    is a list indexed the way the C array is. *)
From stdpp Require Import prelude list strings.
From Stdlib Require Import ZArith Lia.
From S2P Require Import Prelude.

Inductive ErrorStatus : Type :=
| OK
| BadAllocation
| EventFdCreateFailed
| EventFdReadFailed
| EventFdWriteFailed
| IOInvalidEntries
| IOMmapCqFailed
| IOMmapSqesFailed
| IOMmapSqFailed
| IOSetupFailed
| SQFull
| RuntimeNotIdle.

#[export] Instance ErrorStatus_eq_dec : EqDecision ErrorStatus.
Proof. solve_decision. Defined.

(** The enumerators in declaration order. *)
Definition all_statuses : list ErrorStatus :=
  [OK; BadAllocation; EventFdCreateFailed; EventFdReadFailed; EventFdWriteFailed;
   IOInvalidEntries; IOMmapCqFailed; IOMmapSqesFailed; IOMmapSqFailed; IOSetupFailed;
   SQFull; RuntimeNotIdle].

(** [static_cast<uint32_t>(status)]: position in the enumeration. *)
Definition to_uint32 (s : ErrorStatus) : nat :=
  match s with
  | OK => 0 | BadAllocation => 1 | EventFdCreateFailed => 2 | EventFdReadFailed => 3
  | EventFdWriteFailed => 4 | IOInvalidEntries => 5 | IOMmapCqFailed => 6
  | IOMmapSqesFailed => 7 | IOMmapSqFailed => 8 | IOSetupFailed => 9
  | SQFull => 10 | RuntimeNotIdle => 11
  end%nat.

Definition error_status_str : list string :=
  ["OK";
   "Bad allocation";
   "eventfd create failed";
   "eventfd read failed";
   "eventfd write failed";
   "IO invalid entries";
   "IO mmap CQ ring failed";
   "IO mmap SQEs failed";
   "IO mmap SQ ring failed";
   "IO setup failed";
   "Submission queue full";
   "Runtime not idle"].

(** [to_string]: an array access, [None] where the C++ one reads past the
    end of the table. *)
Definition to_string (s : ErrorStatus) : option string :=
  error_status_str !! to_uint32 s.

(** C++ exceptions: the library's own, and anything else user code throws. *)
Inductive exn : Type :=
| IOException (status : ErrorStatus)
| OtherException (tag : Z).

#[export] Instance exn_eq_dec : EqDecision exn.
Proof. solve_decision. Defined.

(** [IOException::what()] of an exception built by its constructor. *)
Definition what (e : exn) : option string :=
  match e with
  | IOException s => to_string s
  | OtherException _ => None
  end.

Lemma all_statuses_complete s : s ∈ all_statuses.
Proof. destruct s; unfold all_statuses; set_solver. Qed.

Lemma to_uint32_lookup s : all_statuses !! to_uint32 s = Some s.
Proof. by destruct s. Qed.

Lemma error_status_str_NoDup : NoDup error_status_str.
Proof. apply (bool_decide_unpack _). vm_compute. done. Qed.

(** The string table is in bounds for every enumerator,
    it has exactly one entry per enumerator, and two statuses with the same
    message are the same status: [what()] identifies the error. *)
Theorem to_string_total_injective :
  length error_status_str = length all_statuses /\
  (forall s, is_Some (to_string s)) /\
  (forall s t, to_string s = to_string t -> s = t).
Proof.
  split; [done|]. split; [by intros []|].
  intros s t Heq. unfold to_string in Heq.
  pose proof (to_uint32_lookup s) as Hs. pose proof (to_uint32_lookup t) as Ht.
  destruct (error_status_str !! to_uint32 s) as [x|] eqn:Ex; [|by destruct s].
  symmetry in Heq.
  pose proof (NoDup_lookup _ _ _ _ error_status_str_NoDup Ex Heq) as Hidx.
  rewrite Hidx in Hs. congruence.
Qed.
