(* ===== verification/Ring.v ===== *)
(** * Ring: the shared io_uring memory behind [struct IO]

    Models include/slim/common/io.h.in (struct [IO], [IO::Sq], [IO::Cq]) and
    the parts of [io_uring_sqe] / [io_uring_cqe] the library fills or reads.
    A field that the C++ struct holds as a pointer into the mapped ring is
    represented by the value it points at.  The submission queue is shown to
    be a bounded FIFO queue of entries ([sq_pending]), the completion queue a
    FIFO of completions ([cq_ready]), across wrap-around of the free-running
    32-bit indices. *)
From stdpp Require Import prelude list.
From Stdlib Require Import ZArith Lia.
From S2P Require Import Prelude.

(** ** Addresses

    [reinterpret_cast<uint64_t>] of a pointer is kept symbolic, so distinct
    objects have distinct addresses and none is null. *)

(** Sub-objects of an awaitable whose address is handed to the kernel. *)
Inductive member : Type :=
| M_addr      (* addr_ of Accept and Connect *)
| M_addr_len  (* addr_len_ of Accept *)
| M_buf       (* buf_ of Stat *)
| M_timeout.  (* timeout_ts_.value() *)

Inductive word64 : Type :=
| Num (z : Z)                       (* a plain integer, [Num 0] is null *)
| AddrAwaitable (a : nat)           (* this of an Awaitable *)
| AddrMember (a : nat) (m : member) (* a member of an Awaitable *)
| AddrEventfdBuf                    (* &eventfd_buf_ of the ring's Scheduler *)
| AddrUser (p : Z).                 (* memory owned by user code *)

#[export] Instance member_eq_dec : EqDecision member.
Proof. solve_decision. Defined.
#[export] Instance word64_eq_dec : EqDecision word64.
Proof. solve_decision. Defined.

(** ** Entries

    Fields that share storage in the kernel's union are one field here:
    [off] is also [addr2]; [op_flags] is also [accept_flags], [open_flags],
    [msg_flags], [statx_flags], [poll32_events]. *)
Record io_uring_sqe : Type := mkSqe {
  opcode : Z;
  flags : Z;
  ioprio : Z;
  sqe_fd : Z;
  off : word64;
  addr : word64;
  len : Z;
  op_flags : Z;
  user_data : word64;
  buf_index : Z;
  personality : Z;
  splice_fd_in : Z
}.

#[export] Instance io_uring_sqe_eq_dec : EqDecision io_uring_sqe.
Proof. solve_decision. Defined.

(** [memset(sqe, 0, sizeof( *sqe))]. *)
Definition zero_sqe : io_uring_sqe :=
  mkSqe 0 0 0 0 (Num 0) (Num 0) 0 0 (Num 0) 0 0 0.

Record io_uring_cqe : Type := mkCqe {
  cqe_user_data : word64;
  res : Z;
  cqe_flags : Z
}.

#[export] Instance io_uring_cqe_eq_dec : EqDecision io_uring_cqe.
Proof. solve_decision. Defined.

Definition zero_cqe : io_uring_cqe := mkCqe (Num 0) 0 0.

(** ** The two rings *)

Record Sq : Type := mkSq {
  sq_head : Z;
  sq_tail : Z;
  sq_flags : Z;
  sq_mask : Z;
  sq_entries : Z;
  sq_dropped : Z;
  sq_array : list Z;
  sq_sqes : list io_uring_sqe
}.

Record Cq : Type := mkCq {
  cq_head : Z;
  cq_tail : Z;
  cq_mask : Z;
  cq_entries : Z;
  cq_cqes : list io_uring_cqe
}.

Record IO : Type := mkIO {
  io_fd : Z;
  sq : Sq;
  cq : Cq
}.

(** Field updates (the stores of the source). *)
Definition set_sq_tail (t : Z) (q : Sq) : Sq :=
  mkSq (sq_head q) t (sq_flags q) (sq_mask q) (sq_entries q) (sq_dropped q) (sq_array q) (sq_sqes q).
Definition set_sq_head (h : Z) (q : Sq) : Sq :=
  mkSq h (sq_tail q) (sq_flags q) (sq_mask q) (sq_entries q) (sq_dropped q) (sq_array q) (sq_sqes q).
Definition set_sq_array (i v : Z) (q : Sq) : Sq :=
  mkSq (sq_head q) (sq_tail q) (sq_flags q) (sq_mask q) (sq_entries q) (sq_dropped q)
    (<[Z.to_nat i := v]> (sq_array q)) (sq_sqes q).
Definition set_sqe (i : Z) (e : io_uring_sqe) (q : Sq) : Sq :=
  mkSq (sq_head q) (sq_tail q) (sq_flags q) (sq_mask q) (sq_entries q) (sq_dropped q)
    (sq_array q) (<[Z.to_nat i := e]> (sq_sqes q)).
Definition set_cq_head (h : Z) (q : Cq) : Cq :=
  mkCq h (cq_tail q) (cq_mask q) (cq_entries q) (cq_cqes q).
Definition with_sq (io : IO) (q : Sq) : IO := mkIO (io_fd io) q (cq io).
Definition with_cq (io : IO) (q : Cq) : IO := mkIO (io_fd io) (sq io) q.

(** ** Occupancy and the abstract queues *)

Definition sq_count (q : Sq) : Z := sq_tail q -u32 sq_head q.
Definition cq_count (q : Cq) : Z := cq_tail q -u32 cq_head q.

(** Slot of the [i]-th element after a free-running index [base]. *)
Definition slot (base mask : Z) (i : nat) : Z := Z.land (base +u32 Z.of_nat i) mask.

(** What the kernel reads for the [i]-th pending submission: through the
    index array, then the entry. *)
Definition sqe_at (q : Sq) (i : nat) : io_uring_sqe :=
  default zero_sqe
    (sq_sqes q !! Z.to_nat (default 0 (sq_array q !! Z.to_nat (slot (sq_head q) (sq_mask q) i)))).

Definition sq_pending (q : Sq) : list io_uring_sqe :=
  sqe_at q <$> seq 0 (Z.to_nat (sq_count q)).

Definition cqe_at (q : Cq) (i : nat) : io_uring_cqe :=
  default zero_cqe (cq_cqes q !! Z.to_nat (slot (cq_head q) (cq_mask q) i)).

Definition cq_ready (q : Cq) : list io_uring_cqe :=
  cqe_at q <$> seq 0 (Z.to_nat (cq_count q)).

(** ** Well-formedness

    What [io_uring_setup] establishes (a power-of-two ring whose mask is one
    less than its size) and the library must keep: never more pending
    entries than slots, and the index array maps every occupied slot to
    itself. *)
Record wf_sq (q : Sq) : Prop := {
  wf_sq_pow2 : exists k, 0 <= k <= 30 /\ sq_entries q = 2 ^ k;
  wf_sq_mask : sq_mask q = sq_entries q - 1;
  wf_sq_head : is_u32 (sq_head q);
  wf_sq_tail : is_u32 (sq_tail q);
  wf_sq_bound : sq_count q <= sq_entries q;
  wf_sq_array_len : Z.of_nat (length (sq_array q)) = sq_entries q;
  wf_sq_sqes_len : Z.of_nat (length (sq_sqes q)) = sq_entries q;
  wf_sq_array : forall i, Z.of_nat i < sq_count q ->
    sq_array q !! Z.to_nat (slot (sq_head q) (sq_mask q) i) =
      Some (slot (sq_head q) (sq_mask q) i)
}.

Record wf_cq (q : Cq) : Prop := {
  wf_cq_pow2 : exists k, 1 <= k <= 31 /\ cq_entries q = 2 ^ k;
  wf_cq_mask : cq_mask q = cq_entries q - 1;
  wf_cq_head : is_u32 (cq_head q);
  wf_cq_tail : is_u32 (cq_tail q);
  wf_cq_bound : cq_count q <= cq_entries q;
  wf_cq_len : Z.of_nat (length (cq_cqes q)) = cq_entries q
}.

Record wf_io (io : IO) : Prop := {
  wf_io_sq : wf_sq (sq io);
  wf_io_cq : wf_cq (cq io)
}.

(** ** Index arithmetic *)

Lemma land_mask k a : 0 <= k -> Z.land a (2 ^ k - 1) = a mod 2 ^ k.
Proof. intros Hk. rewrite <- Z.land_ones by lia. f_equal. rewrite Z.ones_equiv. lia. Qed.

Lemma slot_range base mask i k :
  0 <= k -> mask = 2 ^ k - 1 -> 0 <= slot base mask i < 2 ^ k.
Proof.
  intros Hk ->. unfold slot. rewrite land_mask by lia.
  apply Z.mod_pos_bound. lia.
Qed.

(** A power of two below 2^32 divides 2^32, so slots wrap consistently with
    the free-running counter. *)
Lemma u32_mod_pow2 k z : 0 <= k <= 32 -> (u32 z) mod 2 ^ k = z mod 2 ^ k.
Proof.
  intros Hk. unfold u32. replace two32 with (2 ^ k * 2 ^ (32 - k)).
  - rewrite Z.rem_mul_r by (apply Z.pow_nonzero || apply Z.pow_pos_nonneg; lia).
    rewrite (Z.mul_comm (2 ^ k)), Z_mod_plus_full, Z.mod_mod; [done|].
    apply Z.pow_nonzero; lia.
  - rewrite <- Z.pow_add_r by lia. replace (k + (32 - k)) with 32 by lia. done.
Qed.

Lemma slot_mod base mask i k :
  0 <= k <= 32 -> mask = 2 ^ k - 1 -> slot base mask i = (base + Z.of_nat i) mod 2 ^ k.
Proof. intros Hk ->. unfold slot. rewrite land_mask by lia. by apply u32_mod_pow2. Qed.

(** Slots of positions less than a full turn apart are different. *)
Lemma slot_inj base mask i j k :
  0 <= k <= 32 -> mask = 2 ^ k - 1 ->
  Z.of_nat i < 2 ^ k -> Z.of_nat j < 2 ^ k ->
  slot base mask i = slot base mask j -> i = j.
Proof.
  intros Hk Hm Hi Hj. rewrite !(slot_mod _ _ _ k) by done. intros Heq.
  set (n := 2 ^ k) in *. assert (0 < n) by (unfold n; lia).
  pose proof (Z.div_mod (base + Z.of_nat i) n ltac:(lia)) as H1.
  pose proof (Z.div_mod (base + Z.of_nat j) n ltac:(lia)) as H2.
  rewrite Heq in H1.
  assert (n * ((base + Z.of_nat i) / n - (base + Z.of_nat j) / n)
          = Z.of_nat i - Z.of_nat j) by lia.
  assert ((base + Z.of_nat i) / n - (base + Z.of_nat j) / n = 0) by nia. lia.
Qed.

(** Re-basing: position [n + i] after [base] is position [i] after
    [base + n]. *)
Lemma slot_rebase base mask n i :
  slot (base +u32 Z.of_nat n) mask i = slot base mask (n + i).
Proof.
  unfold slot. f_equal. unfold u32. rewrite Zplus_mod_idemp_l. f_equal. lia.
Qed.

(** The slot at the tail index is the first slot after the pending ones. *)
Lemma slot_tail q :
  is_u32 (sq_tail q) ->
  slot (sq_head q) (sq_mask q) (Z.to_nat (sq_count q)) = Z.land (sq_tail q) (sq_mask q).
Proof.
  intros Ht. unfold slot, sq_count. pose proof (u32_range (sq_tail q - sq_head q)) as Hr.
  rewrite Z2Nat.id by (unfold is_u32 in Hr; lia). f_equal.
  unfold u32. rewrite Zplus_mod_idemp_r. rewrite <- (u32_id _ Ht) at 2.
  unfold u32. f_equal. lia.
Qed.

Lemma sq_count_nonneg q : 0 <= sq_count q.
Proof. unfold sq_count. pose proof (u32_range (sq_tail q - sq_head q)) as H. apply H. Qed.

Lemma cq_count_nonneg q : 0 <= cq_count q.
Proof. unfold cq_count. pose proof (u32_range (cq_tail q - cq_head q)) as H. apply H. Qed.

Lemma length_sq_pending q : Z.of_nat (length (sq_pending q)) = sq_count q.
Proof.
  unfold sq_pending. rewrite length_fmap, length_seq.
  rewrite Z2Nat.id; [done|]. apply sq_count_nonneg.
Qed.

Lemma length_cq_ready q : Z.of_nat (length (cq_ready q)) = cq_count q.
Proof.
  unfold cq_ready. rewrite length_fmap, length_seq.
  rewrite Z2Nat.id; [done|]. apply cq_count_nonneg.
Qed.

(** ** The submission queue refines a bounded FIFO

    [publish e q] is the effect every producer of the library has on the
    ring: index array entry, submission entry, then the tail. *)
Definition tail_slot (q : Sq) : Z := Z.land (sq_tail q) (sq_mask q).

Definition publish (e : io_uring_sqe) (q : Sq) : Sq :=
  set_sq_tail (sq_tail q +u32 1)
    (set_sqe (tail_slot q) e (set_sq_array (tail_slot q) (tail_slot q) q)).

Lemma tail_slot_range q : wf_sq q -> 0 <= tail_slot q < sq_entries q.
Proof.
  intros [[k [Hk He]] Hm]. unfold tail_slot. rewrite Hm, He, land_mask by lia.
  apply Z.mod_pos_bound. lia.
Qed.

(** One more slot than is pending never collides with a pending one. *)
Lemma tail_slot_fresh q i :
  wf_sq q -> sq_count q < sq_entries q -> Z.of_nat i < sq_count q ->
  slot (sq_head q) (sq_mask q) i <> tail_slot q.
Proof.
  intros [[k [Hk He]] Hm Hh Ht Hb] Hroom Hi Heq.
  unfold tail_slot in Heq. rewrite <- slot_tail in Heq by done.
  pose proof (sq_count_nonneg q).
  apply (slot_inj _ _ _ _ k) in Heq; lia.
Qed.

Lemma publish_count e q :
  wf_sq q -> sq_count q < sq_entries q -> sq_count (publish e q) = sq_count q + 1.
Proof.
  intros [[k [Hk He]] Hm Hh Ht Hb] Hroom. unfold sq_count, publish; cbn.
  apply u32_distance_add; [lia|].
  assert (2 ^ k <= 2 ^ 30) by (apply Z.pow_le_mono_r; lia).
  change (2 ^ 30) with 1073741824 in *. unfold sq_count in *. word_lia.
Qed.

Lemma publish_array e q i :
  wf_sq q -> sq_count q < sq_entries q -> Z.of_nat i < sq_count q + 1 ->
  sq_array (publish e q) !! Z.to_nat (slot (sq_head q) (sq_mask q) i) =
    Some (slot (sq_head q) (sq_mask q) i).
Proof.
  intros Hwf Hroom Hi. pose proof (tail_slot_range q Hwf) as Hts.
  pose proof (wf_sq_array_len q Hwf) as Hlen. pose proof (sq_count_nonneg q).
  cbn. destruct (decide (Z.of_nat i = sq_count q)) as [Heq|Hne].
  - replace i with (Z.to_nat (sq_count q)) by lia.
    rewrite slot_tail by apply Hwf. fold (tail_slot q).
    apply list_lookup_insert_eq. lia.
  - rewrite list_lookup_insert_ne.
    + apply Hwf. lia.
    + intros Heq. apply (tail_slot_fresh q i Hwf Hroom); [lia|].
      destruct Hwf as [[k [Hk He]] Hm].
      pose proof (slot_range (sq_head q) (sq_mask q) i k ltac:(lia) ltac:(lia)). lia.
Qed.

(** Publishing on a ring with room keeps it well formed ... *)
Lemma publish_wf e q :
  wf_sq q -> sq_count q < sq_entries q -> wf_sq (publish e q).
Proof.
  intros Hwf Hroom. pose proof (publish_count e q Hwf Hroom) as Hc.
  pose proof (publish_array e q) as Ha.
  destruct Hwf as [Hp Hm Hh Ht Hb Hal Hsl Har]. split.
  - exact Hp.
  - exact Hm.
  - exact Hh.
  - apply u32_range.
  - rewrite Hc. cbn. lia.
  - cbn. rewrite length_insert. exact Hal.
  - cbn. rewrite length_insert. exact Hsl.
  - rewrite Hc. intros i Hi. apply Ha; [by split|done|done].
Qed.

(** ... and appends exactly the new entry to what the kernel will see. *)
Lemma publish_pending e q :
  wf_sq q -> sq_count q < sq_entries q ->
  sq_pending (publish e q) = sq_pending q ++ [e].
Proof.
  intros Hwf Hroom. unfold sq_pending. rewrite publish_count by done.
  pose proof (sq_count_nonneg q) as H0. pose proof (tail_slot_range q Hwf) as Hts.
  rewrite Z2Nat.inj_add, Nat.add_comm by lia. cbn [Z.to_nat Pos.to_nat Nat.add].
  change (Z.to_nat 1) with 1%nat. cbn [Nat.add].
  rewrite fmap_seq_snoc. f_equal.
  - apply fmap_seq_ext. intros i Hi. unfold sqe_at.
    change (sq_head (publish e q)) with (sq_head q).
    change (sq_mask (publish e q)) with (sq_mask q).
    rewrite publish_array, (wf_sq_array q Hwf) by (done || lia). cbn [default from_option id].
    cbn. rewrite list_lookup_insert_ne; [done|].
    pose proof (tail_slot_fresh q i Hwf Hroom ltac:(lia)) as Hne.
    destruct Hwf as [[k [Hk He]] Hm].
    pose proof (slot_range (sq_head q) (sq_mask q) i k ltac:(lia) ltac:(lia)). lia.
  - f_equal. unfold sqe_at.
    change (sq_head (publish e q)) with (sq_head q).
    change (sq_mask (publish e q)) with (sq_mask q).
    rewrite publish_array by (done || lia). cbn.
    rewrite slot_tail by apply Hwf. fold (tail_slot q).
    rewrite list_lookup_insert_eq; [done|].
    pose proof (wf_sq_sqes_len q Hwf). lia.
Qed.

(** Writing the entry just published replaces it. *)
Lemma publish_overwrite e e' q :
  set_sqe (tail_slot q) e' (publish e q) = publish e' q.
Proof. unfold publish, set_sqe, set_sq_tail, set_sq_array; cbn. by rewrite list_insert_insert_eq. Qed.

(** The consumer side: the kernel takes the first [n] pending entries by
    advancing the head. *)
Lemma consume_pending q n :
  wf_sq q -> Z.of_nat n <= sq_count q ->
  sq_pending (set_sq_head (sq_head q +u32 Z.of_nat n) q) = drop n (sq_pending q).
Proof.
  intros Hwf Hn. unfold sq_pending. rewrite fmap_seq_drop.
  unfold sq_count at 1; cbn.
  rewrite u32_distance_sub by (unfold sq_count in Hn; lia). fold (sq_count q).
  replace (Z.to_nat (sq_count q - Z.of_nat n)) with (Z.to_nat (sq_count q) - n)%nat by lia.
  apply fmap_seq_ext. intros i Hi. unfold sqe_at; cbn. by rewrite slot_rebase.
Qed.

Lemma consume_wf q n :
  wf_sq q -> Z.of_nat n <= sq_count q -> wf_sq (set_sq_head (sq_head q +u32 Z.of_nat n) q).
Proof.
  intros [Hp Hm Hh Ht Hb Hal Hsl Har] Hn.
  assert (Hc : sq_count (set_sq_head (sq_head q +u32 Z.of_nat n) q) = sq_count q - Z.of_nat n).
  { unfold sq_count; cbn. apply u32_distance_sub. unfold sq_count in Hn. lia. }
  split; cbn; try done.
  - apply u32_range.
  - rewrite Hc. lia.
  - rewrite Hc. intros i Hi. rewrite slot_rebase. apply Har. lia.
Qed.

(** The reader of the completion ring: storing [head + 1] drops the first
    completion. *)
Lemma cq_advance_count q :
  0 < cq_count q -> cq_count (set_cq_head (cq_head q +u32 1) q) = cq_count q - 1.
Proof. intros H. unfold cq_count; cbn. apply u32_distance_sub. unfold cq_count in H. lia. Qed.

Lemma cq_advance_ready q :
  0 < cq_count q ->
  cq_ready q = cqe_at q 0 :: cq_ready (set_cq_head (cq_head q +u32 1) q).
Proof.
  intros H. unfold cq_ready at 1.
  replace (Z.to_nat (cq_count q)) with (S (Z.to_nat (cq_count q - 1))) by lia.
  cbn [seq fmap list_fmap]. f_equal. unfold cq_ready. rewrite cq_advance_count by done.
  rewrite <- fmap_S_seq, <- list_fmap_compose. apply fmap_seq_ext. intros i _.
  unfold compose, cqe_at; cbn. change 1 with (Z.of_nat 1). by rewrite slot_rebase.
Qed.

Lemma cq_advance_wf q :
  wf_cq q -> 0 < cq_count q -> wf_cq (set_cq_head (cq_head q +u32 1) q).
Proof.
  intros [Hp Hm Hh Ht Hb Hl] H. split; cbn; try done.
  - apply u32_range.
  - rewrite cq_advance_count by done. lia.
Qed.

(** The entry the drain loop reads is in bounds. *)
Lemma cqe_at_lookup q i :
  wf_cq q -> is_Some (cq_cqes q !! Z.to_nat (slot (cq_head q) (cq_mask q) i)).
Proof.
  intros [[k [Hk He]] Hm Hh Ht Hb Hl]. apply lookup_lt_is_Some.
  pose proof (slot_range (cq_head q) (cq_mask q) i k ltac:(lia) ltac:(lia)). lia.
Qed.

(** ** A ring as the kernel hands it out

    Both queues empty, the indices at [base] (the kernel starts at 0; after
    long use they are anywhere). *)
Definition fresh_sq (k : nat) (base : Z) : Sq :=
  mkSq base base 0 (2 ^ Z.of_nat k - 1) (2 ^ Z.of_nat k) 0
    (Z.of_nat <$> seq 0 (2 ^ k)) (replicate (2 ^ k) zero_sqe).
Definition fresh_cq (k : nat) (base : Z) : Cq :=
  mkCq base base (2 ^ Z.of_nat k - 1) (2 ^ Z.of_nat k) (replicate (2 ^ k) zero_cqe).
Definition fresh_io (fd : Z) (k : nat) (base : Z) : IO :=
  mkIO fd (fresh_sq k base) (fresh_cq (S k) base).

Lemma fresh_io_wf fd k base : (k <= 30)%nat -> is_u32 base -> wf_io (fresh_io fd k base).
Proof.
  intros Hk Hb. split; cbn.
  - assert (Hc : sq_count (fresh_sq k base) = 0).
    { unfold sq_count; cbn. by rewrite Z.sub_diag. }
    split; cbn; try done.
    + exists (Z.of_nat k). split; [lia|done].
    + rewrite Hc. lia.
    + rewrite length_fmap, length_seq, Nat2Z.inj_pow. done.
    + rewrite length_replicate, Nat2Z.inj_pow. done.
    + rewrite Hc. lia.
  - split; cbn -[Z.pow Z.of_nat Nat.pow]; try done.
    + exists (Z.of_nat (S k)). split; [lia|done].
    + unfold cq_count; cbn -[Z.pow Z.of_nat]. rewrite Z.sub_diag.
      change (u32 0) with 0. apply Z.lt_le_incl, Z.pow_pos_nonneg; lia.
    + rewrite length_replicate, Nat2Z.inj_pow. done.
Qed.
