(* ===== verification/IoSetup.v ===== *)
(** * IoSetup: construction and destruction of [slim::common::IO]

    Models src/io.cpp.  The kernel side ([io_uring_setup], [mmap]) is a
    parameter of the section; what the process owns (open descriptors, live
    mappings) is explicit state, so that every error path can be shown to
    release exactly what it had acquired. *)
From stdpp Require Import prelude list.
From Stdlib Require Import ZArith Lia.
From S2P Require Import Prelude ErrorCodes.

(** ** Kernel ABI *)

Definition IORING_FEAT_SINGLE_MMAP : Z := 1.
Definition IORING_SETUP_CQSIZE : Z := 8.
Definition IORING_SETUP_CLAMP : Z := 16.
Definition IORING_OFF_SQ_RING : Z := 0.
Definition IORING_OFF_CQ_RING : Z := 134217728.
Definition IORING_OFF_SQES : Z := 268435456.
Definition sizeof_uint32 : Z := 4.
Definition sizeof_sqe : Z := 64.
Definition sizeof_cqe : Z := 16.

Record sq_offsets : Type := mkSqOff {
  so_head : Z; so_tail : Z; so_ring_mask : Z; so_ring_entries : Z;
  so_flags : Z; so_dropped : Z; so_array : Z
}.

Record cq_offsets : Type := mkCqOff {
  co_head : Z; co_tail : Z; co_ring_mask : Z; co_ring_entries : Z; co_cqes : Z
}.

Record io_uring_params : Type := mkParams {
  p_sq_entries : Z;
  p_cq_entries : Z;
  p_flags : Z;
  p_features : Z;
  p_sq_off : sq_offsets;
  p_cq_off : cq_offsets
}.

Definition zero_params : io_uring_params :=
  mkParams 0 0 0 0 (mkSqOff 0 0 0 0 0 0 0) (mkCqOff 0 0 0 0 0).

(** ** What the process owns *)

Record os : Type := mkOs {
  open_fds : list Z;
  mappings : list (Z * Z)    (* address, size *)
}.

(** Remove one occurrence. *)
Fixpoint release {A} `{EqDecision A} (x : A) (l : list A) : list A :=
  match l with
  | [] => []
  | y :: l' => if decide (x = y) then l' else y :: release x l'
  end.

Definition do_close (fd : Z) : exec os exn unit :=
  modify (fun o => mkOs (release fd (open_fds o)) (mappings o)).
Definition do_munmap (p size : Z) : exec os exn unit :=
  modify (fun o => mkOs (open_fds o) (release (p, size) (mappings o))).

(** ** The object: every field of [struct IO] that holds an address *)

Record IoObject : Type := mkIoObject {
  obj_fd : Z;
  obj_sq_map : Z; obj_sq_map_size : Z;
  obj_sqes_map : Z; obj_sqes_map_size : Z;
  obj_cq_map : Z; obj_cq_map_size : Z;
  ptr_sq_head : Z; ptr_sq_tail : Z; ptr_sq_mask : Z; ptr_sq_entries : Z;
  ptr_sq_flags : Z; ptr_sq_dropped : Z; ptr_sq_array : Z; ptr_sq_sqes : Z;
  ptr_cq_head : Z; ptr_cq_tail : Z; ptr_cq_mask : Z; ptr_cq_entries : Z; ptr_cq_cqes : Z
}.

(** The parameters the constructor passes to [io_uring_setup]. *)
Definition request (entries : Z) : io_uring_params :=
  mkParams 0 (u32 (entries * 2)) (Z.lor IORING_SETUP_CQSIZE IORING_SETUP_CLAMP) 0
    (p_sq_off zero_params) (p_cq_off zero_params).

Definition sq_ring_size (p : io_uring_params) : Z :=
  u64 (so_array (p_sq_off p) + u64 (p_sq_entries p * sizeof_uint32)).
Definition sqes_size (p : io_uring_params) : Z := u64 (p_sq_entries p * sizeof_sqe).
Definition cq_ring_size (p : io_uring_params) : Z :=
  u64 (co_cqes (p_cq_off p) + u64 (p_cq_entries p * sizeof_cqe)).

(** Lines 63-80: turn the returned offsets into pointers. *)
Definition wire (fd : Z) (p : io_uring_params) (sqmap sqsize sqesmap sqessize cqmap cqsize : Z) : IoObject :=
  let so := p_sq_off p in
  let co := p_cq_off p in
  mkIoObject fd sqmap sqsize sqesmap sqessize cqmap cqsize
    (sqmap + so_head so) (sqmap + so_tail so) (sqmap + so_ring_mask so)
    (sqmap + so_ring_entries so) (sqmap + so_flags so) (sqmap + so_dropped so)
    (sqmap + so_array so) sqesmap
    (cqmap + co_head co) (cqmap + co_tail co) (cqmap + co_ring_mask co)
    (cqmap + co_ring_entries co) (cqmap + co_cqes co).

Section IoSetup.
(** [sys_setup entries params]: the descriptor (negative on failure) and the
    parameters as the kernel filled them in.  [sys_mmap size fd offset]: an
    address, or [None] for [MAP_FAILED]. *)
Context (sys_setup : Z -> io_uring_params -> Z * io_uring_params).
Context (sys_mmap : Z -> Z -> Z -> option Z).

Definition do_setup (entries : Z) (p : io_uring_params) : exec os exn (Z * io_uring_params) := fun o =>
  let r := sys_setup entries p in
  (Normal r, if fst r <? 0 then o else mkOs (fst r :: open_fds o) (mappings o)).

Definition do_mmap (size fd offset : Z) : exec os exn (option Z) := fun o =>
  match sys_mmap size fd offset with
  | Some p => (Normal (Some p), mkOs (open_fds o) ((p, size) :: mappings o))
  | None => (Normal None, o)
  end.

(** [IO::IO(uint32_t entries)]. *)
Definition IO_ctor (entries : Z) : exec os exn IoObject :=
  if entries =? 0 then throw (IOException IOInvalidEntries) else
  '(fd, p) ← do_setup entries (request entries);
  if fd <? 0 then throw (IOException IOSetupFailed) else
  (* 1. the SQ ring *)
  let map_size := sq_ring_size p in
  sq_map ← do_mmap map_size fd IORING_OFF_SQ_RING;
  match sq_map with
  | None => do_close fd;; throw (IOException IOMmapSqFailed)
  | Some sqmap =>
    (* 2. the SQEs array *)
    let sqes_map_size := sqes_size p in
    sqes_map ← do_mmap sqes_map_size fd IORING_OFF_SQES;
    match sqes_map with
    | None => do_munmap sqmap map_size;; do_close fd;; throw (IOException IOMmapSqesFailed)
    | Some sqesmap =>
      (* 3. the CQ ring, shared with the SQ ring when the kernel offers it *)
      if negb (Z.land (p_features p) IORING_FEAT_SINGLE_MMAP =? 0) then
        mret (wire fd p sqmap map_size sqesmap sqes_map_size sqmap 0)
      else
        let cq_map_size := cq_ring_size p in
        cq_map ← do_mmap cq_map_size fd IORING_OFF_CQ_RING;
        match cq_map with
        | None => do_munmap sqesmap sqes_map_size;; do_munmap sqmap map_size;;
                  do_close fd;; throw (IOException IOMmapCqFailed)
        | Some cqmap => mret (wire fd p sqmap map_size sqesmap sqes_map_size cqmap cq_map_size)
        end
    end
  end.

(** [IO::~IO()]; a null pointer is address 0. *)
Definition IO_dtor (io : IoObject) : exec os exn unit :=
  (if negb (obj_cq_map io =? 0) && (0 <? obj_cq_map_size io)
   then do_munmap (obj_cq_map io) (obj_cq_map_size io) else mret tt);;
  (if negb (obj_sqes_map io =? 0) then do_munmap (obj_sqes_map io) (obj_sqes_map_size io) else mret tt);;
  (if negb (obj_sq_map io =? 0) then do_munmap (obj_sq_map io) (obj_sq_map_size io) else mret tt);;
  (if 0 <=? obj_fd io then do_close (obj_fd io) else mret tt).

(** ** What the kernel documents *)

(** A successful setup reports non-empty rings and 32-bit fields
    (io_uring_setup(2)). *)
Record params_ok (p : io_uring_params) : Prop := {
  ok_sq_entries : 0 < p_sq_entries p < two32;
  ok_cq_entries : 0 < p_cq_entries p < two32;
  ok_array : is_u32 (so_array (p_sq_off p));
  ok_cqes : is_u32 (co_cqes (p_cq_off p))
}.

Hypothesis setup_params : forall entries p,
  0 <= fst (sys_setup entries p) -> params_ok (snd (sys_setup entries p)).

(** [mmap(nullptr, ...)] never returns the null page (mmap(2)). *)
Hypothesis mmap_nonnull : forall size fd off p, sys_mmap size fd off = Some p -> p <> 0.

Lemma release_head {A} `{EqDecision A} (x : A) l : release x (x :: l) = l.
Proof. cbn. by rewrite decide_True. Qed.

(** The size computations of the constructor never wrap: they are carried
    out in 64 bits on 32-bit inputs. *)
Lemma ring_sizes_exact p :
  params_ok p ->
  sq_ring_size p = so_array (p_sq_off p) + p_sq_entries p * 4 /\
  sqes_size p = p_sq_entries p * 64 /\
  cq_ring_size p = co_cqes (p_cq_off p) + p_cq_entries p * 16 /\
  0 < sq_ring_size p /\ 0 < sqes_size p /\ 0 < cq_ring_size p.
Proof.
  intros [Hs Hc Ha Hq]. unfold sq_ring_size, sqes_size, cq_ring_size,
    sizeof_uint32, sizeof_sqe, sizeof_cqe.
  rewrite !(u64_id (_ * _)) by word_lia. rewrite !u64_id by word_lia.
  unfold is_u32 in *. lia.
Qed.

(** The step of the constructor a status stands for. *)
Definition failed_step (entries : Z) (s : ErrorStatus) : Prop :=
  let '(fd, p) := sys_setup entries (request entries) in
  let sq_mmap := sys_mmap (sq_ring_size p) fd IORING_OFF_SQ_RING in
  let sqes_mmap := sys_mmap (sqes_size p) fd IORING_OFF_SQES in
  match s with
  | IOInvalidEntries => entries = 0
  | IOSetupFailed => entries <> 0 /\ fd < 0
  | IOMmapSqFailed => entries <> 0 /\ 0 <= fd /\ sq_mmap = None
  | IOMmapSqesFailed => entries <> 0 /\ 0 <= fd /\ is_Some sq_mmap /\ sqes_mmap = None
  | IOMmapCqFailed =>
      entries <> 0 /\ 0 <= fd /\ is_Some sq_mmap /\ is_Some sqes_mmap /\
      Z.land (p_features p) IORING_FEAT_SINGLE_MMAP = 0 /\
      sys_mmap (cq_ring_size p) fd IORING_OFF_CQ_RING = None
  | _ => False
  end.

(** What a constructed object owns. *)
Definition owns (io : IoObject) (o o' : os) : Prop :=
  open_fds o' = obj_fd io :: open_fds o /\
  mappings o' = (if 0 <? obj_cq_map_size io then [(obj_cq_map io, obj_cq_map_size io)] else [])
    ++ [(obj_sqes_map io, obj_sqes_map_size io); (obj_sq_map io, obj_sq_map_size io)]
    ++ mappings o.

(** Everything a successful construction establishes. *)
Record constructed (entries : Z) (io : IoObject) : Prop := {
  con_entries : entries <> 0;
  con_fd : 0 <= obj_fd io;
  con_sq : sys_mmap (obj_sq_map_size io) (obj_fd io) IORING_OFF_SQ_RING = Some (obj_sq_map io);
  con_sqes : sys_mmap (obj_sqes_map_size io) (obj_fd io) IORING_OFF_SQES = Some (obj_sqes_map io);
  con_cq : (obj_cq_map_size io = 0 /\ obj_cq_map io = obj_sq_map io) \/
           (0 < obj_cq_map_size io /\
            sys_mmap (obj_cq_map_size io) (obj_fd io) IORING_OFF_CQ_RING = Some (obj_cq_map io))
}.

Lemma os_eta o : mkOs (open_fds o) (mappings o) = o.
Proof. by destruct o. Qed.

Lemma wire_single entries fd p z z0 o :
  entries <> 0 -> 0 <= fd ->
  sys_mmap (sq_ring_size p) fd IORING_OFF_SQ_RING = Some z ->
  sys_mmap (sqes_size p) fd IORING_OFF_SQES = Some z0 ->
  let io := wire fd p z (sq_ring_size p) z0 (sqes_size p) z 0 in
  constructed entries io /\
  owns io o (mkOs (fd :: open_fds o) ((z0, sqes_size p) :: (z, sq_ring_size p) :: mappings o)).
Proof. intros He Hfd H1 H2. split; [split; cbn; auto|done]. Qed.

Lemma wire_separate entries fd p z z0 z1 o :
  entries <> 0 -> 0 <= fd ->
  sys_mmap (sq_ring_size p) fd IORING_OFF_SQ_RING = Some z ->
  sys_mmap (sqes_size p) fd IORING_OFF_SQES = Some z0 ->
  sys_mmap (cq_ring_size p) fd IORING_OFF_CQ_RING = Some z1 ->
  0 < cq_ring_size p ->
  let io := wire fd p z (sq_ring_size p) z0 (sqes_size p) z1 (cq_ring_size p) in
  constructed entries io /\
  owns io o (mkOs (fd :: open_fds o)
    ((z1, cq_ring_size p) :: (z0, sqes_size p) :: (z, sq_ring_size p) :: mappings o)).
Proof.
  intros He Hfd H1 H2 H3 Hpos. split; [split; cbn; auto|].
  split; cbn; [done|]. by rewrite (proj2 (Z.ltb_lt _ _) Hpos).
Qed.

(** Case analysis of the whole constructor, branch by branch. *)
Ltac ctor_unfold :=
  unfold IO_ctor, throw, do_setup, do_mmap, do_munmap, do_close, modify,
    mbind, mret, exec_bind, exec_ret.
Ltac ctor_cases :=
  repeat (cbn [fst snd open_fds mappings];
          match goal with
          | |- context [sys_mmap ?a ?b ?c] =>
              let E := fresh "Emap" in destruct (sys_mmap a b c) eqn:E
          | |- context [if ?b then _ else _] =>
              let E := fresh "Eb" in destruct b eqn:E
          end).

Lemma IO_ctor_cases entries o :
  match IO_ctor entries o with
  | (Normal io, o') => constructed entries io /\ owns io o o'
  | (Throw e, o') => o' = o /\ exists s, e = IOException s /\ failed_step entries s
  | (Stuck _, _) => False
  end.
Proof using setup_params.
  unfold failed_step. pose proof (setup_params entries (request entries)) as Hp.
  ctor_unfold. destruct (sys_setup entries (request entries)) as [fd p] eqn:Eset.
  cbn [fst snd] in Hp. ctor_cases; cbn [open_fds mappings]; rewrite ?release_head, ?os_eta.
  all: rewrite ?negb_true_iff, ?negb_false_iff, ?Z.eqb_eq, ?Z.eqb_neq, ?Z.ltb_lt, ?Z.ltb_ge in *.
  all: try (split; [done|]; eexists; split; [reflexivity|]; repeat split; eauto; fail).
  all: try (by apply wire_single).
  all: apply wire_separate; auto; apply (ring_sizes_exact p); auto.
Qed.

Lemma IO_dtor_releases entries io o o' :
  constructed entries io -> owns io o o' -> IO_dtor io o' = (Normal tt, o).
Proof using mmap_nonnull.
  intros [He Hfd Hsq Hsqes Hcq] [Hofd Hmap]. destruct o' as [fds maps]; cbn in Hofd, Hmap. subst.
  apply mmap_nonnull in Hsq as Hsqn. apply mmap_nonnull in Hsqes as Hsqesn.
  apply Z.eqb_neq in Hsqn, Hsqesn. apply Z.leb_le in Hfd.
  assert (Hlast : (negb (obj_cq_map io =? 0) && (0 <? obj_cq_map_size io)) = (0 <? obj_cq_map_size io)).
  { destruct Hcq as [[-> _]|[Hpos Hm]]; [by rewrite andb_comm|].
    apply mmap_nonnull, Z.eqb_neq in Hm. by rewrite Hm. }
  unfold IO_dtor. rewrite Hlast, Hsqn, Hsqesn, Hfd.
  unfold do_munmap, do_close, modify, mbind, exec_bind, mret, exec_ret.
  destruct (0 <? obj_cq_map_size io); cbn [negb open_fds mappings app];
    rewrite !release_head; cbn [open_fds mappings]; by rewrite os_eta.
Qed.

(** C21: resources are balanced over the life of an [IO].  Whatever the kernel
    answers, [IO::IO] either throws the [IOException] that names the step
    that failed and leaves the process owning exactly what it owned before
    the call, or it returns an object that owns its descriptor and its two or
    three mappings and nothing else, and [IO::~IO] then gives back exactly
    those. *)
Theorem IO_lifecycle_balanced entries o :
  match IO_ctor entries o with
  | (Normal io, o') =>
      constructed entries io /\ owns io o o' /\ IO_dtor io o' = (Normal tt, o)
  | (Throw e, o') => o' = o /\ exists s, e = IOException s /\ failed_step entries s
  | (Stuck _, _) => False
  end.
Proof using setup_params mmap_nonnull.
  pose proof (IO_ctor_cases entries o) as H.
  destruct (IO_ctor entries o) as [[io|e|r] o']; [|done|done].
  destruct H as [Hc Ho]. eauto using IO_dtor_releases.
Qed.

(** ** Which pointers of a constructed [IO] lie in a mapping it owns *)

(** [n] bytes at [p] are inside the region [r] (address and size). *)
Definition inside (r : Z * Z) (x : Z * Z) : Prop := fst r <= fst x /\ fst x + snd x <= fst r + snd r.

(** io_uring_setup(2): the fields of each ring are at the given offsets of a
    region of the given size ([sq_ring_size] and [cq_ring_size] are the sizes
    of the manual page). *)
Record layout_ok (p : io_uring_params) : Prop := {
  lay_sq : Forall (fun x => 0 <= x /\ x + 4 <= sq_ring_size p)
    [so_head (p_sq_off p); so_tail (p_sq_off p); so_ring_mask (p_sq_off p);
     so_ring_entries (p_sq_off p); so_flags (p_sq_off p); so_dropped (p_sq_off p)];
  lay_cq : Forall (fun x => 0 <= x /\ x + 4 <= cq_ring_size p)
    [co_head (p_cq_off p); co_tail (p_cq_off p); co_ring_mask (p_cq_off p);
     co_ring_entries (p_cq_off p)]
}.

(** The pointers [IO::IO] wires, with the number of bytes the library reads
    or writes through each of them. *)
Definition sq_accesses (p : io_uring_params) (io : IoObject) : list (Z * Z) :=
  [(ptr_sq_head io, 4); (ptr_sq_tail io, 4); (ptr_sq_mask io, 4); (ptr_sq_entries io, 4);
   (ptr_sq_flags io, 4); (ptr_sq_dropped io, 4); (ptr_sq_array io, p_sq_entries p * 4)].
Definition cq_accesses (p : io_uring_params) (io : IoObject) : list (Z * Z) :=
  [(ptr_cq_head io, 4); (ptr_cq_tail io, 4); (ptr_cq_mask io, 4); (ptr_cq_entries io, 4);
   (ptr_cq_cqes io, p_cq_entries p * 16)].

(** The mapping the completion ring is in: its own, or the submission ring's. *)
Definition cq_region (io : IoObject) : Z * Z :=
  (obj_cq_map io, if obj_cq_map_size io =? 0 then obj_sq_map_size io else obj_cq_map_size io).

Definition single_mmap (p : io_uring_params) : bool := negb (Z.land (p_features p) IORING_FEAT_SINGLE_MMAP =? 0).

Lemma wire_inside fd p z z0 cqmap cqsize :
  params_ok p -> layout_ok p ->
  (single_mmap p = true /\ cqsize = 0) \/ (single_mmap p = false /\ cqsize = cq_ring_size p) ->
  let io := wire fd p z (sq_ring_size p) z0 (sqes_size p) cqmap cqsize in
  Forall (inside (z, sq_ring_size p)) (sq_accesses p io) /\
  inside (z0, sqes_size p) (ptr_sq_sqes io, p_sq_entries p * 64) /\
  (Forall (inside (cq_region io)) (cq_accesses p io) <-> (single_mmap p = true -> cq_ring_size p <= sq_ring_size p)).
Proof.
  intros Hp [Hsq Hcq] Hcase io. pose proof (ring_sizes_exact p Hp) as (E1 & E2 & E3 & H1 & H2 & H3).
  repeat rewrite Forall_cons in Hsq. repeat rewrite Forall_cons in Hcq. destruct_and!.
  assert (Hreg : cq_region io = (cqmap, if single_mmap p then sq_ring_size p else cq_ring_size p)).
  { unfold cq_region, io. cbn. destruct Hcase as [[-> ->]|[-> ->]]; [done|]. by rewrite (proj2 (Z.eqb_neq _ _)) by lia. }
  destruct Hp as [Hs Hc Ha Hq]. unfold is_u32 in *. rewrite Hreg. split_and!.
  - repeat constructor; cbn; lia.
  - split; cbn; lia.
  - split.
    + intros Hall Hsingle. rewrite Hsingle in Hall. unfold cq_accesses in Hall. repeat rewrite Forall_cons in Hall.
      destruct Hall as (_ & _ & _ & _ & [_ Hend] & _). cbn [fst snd io wire ptr_cq_cqes] in Hend. lia.
    + intros Hfit. assert (cq_ring_size p <= if single_mmap p then sq_ring_size p else cq_ring_size p)
        by (destruct (single_mmap p); [by apply Hfit|lia]).
      repeat constructor; cbn; lia.
Qed.

(** C26: what the pointers of a constructed object can reach.  If the fields of
    the rings lie in regions of the documented sizes, then after a successful
    construction the control words and the index array of the submission ring,
    and the submission entries, lie in mappings the object owns, over the whole
    extent the library accesses.  The control words and the entries of the
    completion ring do so exactly when the kernel does not offer the single
    mapping or its completion ring is no longer than its submission ring: with
    a single mapping the constructor maps the size of the submission ring only,
    where the larger of both is needed. *)
Theorem IO_pointers_in_bounds entries o io o' :
  let p := snd (sys_setup entries (request entries)) in
  layout_ok p -> IO_ctor entries o = (Normal io, o') ->
  (obj_sq_map io, obj_sq_map_size io) ∈ mappings o' /\ (obj_sqes_map io, obj_sqes_map_size io) ∈ mappings o' /\
  cq_region io ∈ mappings o' /\
  Forall (inside (obj_sq_map io, obj_sq_map_size io)) (sq_accesses p io) /\
  inside (obj_sqes_map io, obj_sqes_map_size io) (ptr_sq_sqes io, p_sq_entries p * 64) /\
  (Forall (inside (cq_region io)) (cq_accesses p io) <->
   (single_mmap p = true -> cq_ring_size p <= sq_ring_size p)).
Proof using setup_params.
  clear mmap_nonnull. intros p Hlay. pose proof (setup_params entries (request entries)) as Hp. subst p.
  ctor_unfold. destruct (sys_setup entries (request entries)) as [fd p] eqn:Eset.
  cbn [fst snd] in Hp, Hlay |- *. ctor_cases; intros H; simplify_eq.
  all: rewrite ?Z.eqb_neq, ?Z.ltb_lt, ?Z.ltb_ge in *.
  all: specialize (Hp ltac:(lia)); pose proof (ring_sizes_exact p Hp) as (_ & _ & _ & _ & _ & Hpos).
  all: split; [cbn; set_solver|]; split; [cbn; set_solver|]; split; [|apply wire_inside; auto].
  all: unfold cq_region; cbn; rewrite ?(proj2 (Z.eqb_neq (cq_ring_size p) 0)) by lia; set_solver.
Qed.

(** A constructed object is the result of [wire] on what the kernel gave. *)
Lemma IO_ctor_wired entries o io o' :
  IO_ctor entries o = (Normal io, o') ->
  let r := sys_setup entries (request entries) in
  io = wire (fst r) (snd r) (obj_sq_map io) (sq_ring_size (snd r)) (obj_sqes_map io) (sqes_size (snd r))
         (obj_cq_map io) (obj_cq_map_size io).
Proof.
  clear setup_params mmap_nonnull. ctor_unfold. destruct (sys_setup entries (request entries)) as [fd p].
  ctor_cases; intros H; by simplify_eq.
Qed.
End IoSetup.

(** ** The completion ring is asked to be twice the submission ring *)

(** The constructor asks for a completion ring of twice the submission
    entries exactly when the doubling fits 32 bits; from 2^31 entries on the
    product wraps and the request asks for fewer completion entries than
    submission entries. *)
Theorem request_doubles_cq entries :
  0 < entries < two32 ->
  (p_cq_entries (request entries) = 2 * entries <-> entries < 2 ^ 31) /\
  (2 ^ 31 <= entries -> p_cq_entries (request entries) = 2 * entries - two32 /\
                        p_cq_entries (request entries) < entries).
Proof.
  intros H. cbn [request p_cq_entries].
  assert (Hsmall : entries < 2 ^ 31 -> u32 (entries * 2) = 2 * entries).
  { intros Hlt. rewrite u32_id by word_lia. lia. }
  assert (Hbig : 2 ^ 31 <= entries -> u32 (entries * 2) = 2 * entries - two32).
  { intros Hge. unfold u32. replace (entries * 2) with ((entries * 2 - two32) + 1 * two32) by lia.
    rewrite Z_mod_plus_full, Z.mod_small by word_lia. lia. }
  split; [split; [|done]|].
  - intros E. destruct (decide (entries < 2 ^ 31)); [done|]. rewrite Hbig in E by lia. word_lia.
  - intros Hge. rewrite Hbig by done. word_lia.
Qed.

(** ** Witnesses: kernels that grant every request *)

Definition demo_params (features : Z) : io_uring_params :=
  mkParams 4 8 24 features (mkSqOff 0 4 16 24 36 32 320) (mkCqOff 8 12 20 28 64).
Definition demo_setup (features entries : Z) (p : io_uring_params) : Z * io_uring_params :=
  (3, demo_params features).
Definition demo_mmap (size fd off : Z) : option Z := Some (4096 + Z.abs off).

Lemma demo_params_ok f : params_ok (demo_params f).
Proof. split; unfold is_u32, two32; cbn; lia. Qed.

Lemma demo_layout_ok f : layout_ok (demo_params f).
Proof. split; repeat constructor; vm_compute; done. Qed.

Lemma demo_mmap_nonnull size fd off p : demo_mmap size fd off = Some p -> p <> 0.
Proof. unfold demo_mmap. intros [= <-]. lia. Qed.

Lemma IO_lifecycle_balanced_witness :
  match IO_ctor (demo_setup 0) demo_mmap 4 (mkOs [] []) with
  | (Normal io, o') => length (mappings o') = 3%nat /\ IO_dtor io o' = (Normal tt, mkOs [] [])
  | _ => False
  end.
Proof.
  pose proof (IO_lifecycle_balanced (demo_setup 0) demo_mmap
    (fun _ _ _ => demo_params_ok 0) demo_mmap_nonnull 4 (mkOs [] [])) as H.
  vm_compute in H |- *. destruct H as (_ & _ & H). split; [reflexivity|exact H].
Defined.

Lemma IO_pointers_in_bounds_witness :
  match IO_ctor (demo_setup 1) demo_mmap 4 (mkOs [] []) with
  | (Normal io, o') => Forall (inside (cq_region io)) (cq_accesses (demo_params 1) io) /\ cq_region io ∈ mappings o'
  | _ => False
  end.
Proof.
  destruct (IO_pointers_in_bounds (demo_setup 1) demo_mmap
    (fun _ _ _ => demo_params_ok 1) 4 (mkOs [] []) _ _ (demo_layout_ok 1) eq_refl) as (_ & _ & Hr & _ & _ & Hiff).
  split; [|exact Hr]. apply Hiff. intros _. vm_compute. discriminate.
Defined.

(** A kernel of the documented kind that places the index array first: with a
    single mapping the completion entries are out of reach. *)
Definition array_first_params : io_uring_params :=
  mkParams 4 8 24 1 (mkSqOff 0 4 16 24 36 32 64) (mkCqOff 8 12 20 28 128).

Example array_first_out_of_bounds :
  layout_ok array_first_params /\
  match IO_ctor (fun _ _ => (3, array_first_params)) demo_mmap 4 (mkOs [] []) with
  | (Normal io, _) => ~ Forall (inside (cq_region io)) (cq_accesses array_first_params io)
  | _ => False
  end.
Proof.
  split; [split; repeat constructor; vm_compute; done|]. cbn. intros H. unfold cq_accesses in H.
  repeat rewrite Forall_cons in H. destruct H as (_ & _ & _ & _ & [_ H] & _). vm_compute in H. by apply H.
Qed.

Lemma request_doubles_cq_witness :
  p_cq_entries (request 256) = 512 /\ p_cq_entries (request (2 ^ 31)) = 0.
Proof.
  split.
  - apply (request_doubles_cq 256 ltac:(unfold two32; lia)). lia.
  - apply (request_doubles_cq (2 ^ 31) ltac:(unfold two32; lia)). lia.
Defined.
