(* ===== verification/Operations.v ===== *)
(** * Operations: the ten concrete awaitables

    Models src/operations.cpp and include/slim/common/io/operations.h.in:
    the data members and constructor of each operation and its [prepare],
    which fills the submission entry.  [self] is the identity of the object
    ([this]); member addresses handed to the kernel are symbolic. *)
From stdpp Require Import prelude list.
From Stdlib Require Import ZArith Lia.
From S2P Require Import Prelude Ring.

(** ** Constants of <linux/io_uring.h>, <sys/socket.h>, <fcntl.h> *)

Definition IORING_OP_POLL_ADD : Z := 6.
Definition IORING_OP_ACCEPT : Z := 13.
Definition IORING_OP_LINK_TIMEOUT : Z := 15.
Definition IORING_OP_CONNECT : Z := 16.
Definition IORING_OP_OPENAT : Z := 18.
Definition IORING_OP_CLOSE : Z := 19.
Definition IORING_OP_STATX : Z := 21.
Definition IORING_OP_READ : Z := 22.
Definition IORING_OP_WRITE : Z := 23.
Definition IORING_OP_SEND : Z := 26.
Definition IORING_OP_RECV : Z := 27.
Definition SOCK_NONBLOCK : Z := 2048.
Definition SOCK_CLOEXEC : Z := 524288.
Definition AT_FDCWD : Z := -100.
Definition STATX_BASIC_STATS : Z := 2047.
Definition sizeof_sockaddr_storage : nat := 128.

(** ** Data *)

(** [std::string_view] and [std::span<uint32_t>]: a pointer and a count. *)
Record view : Type := mkView { view_data : Z; view_size : Z }.

#[export] Instance view_eq_dec : EqDecision view.
Proof. solve_decision. Defined.

Inductive operation : Type :=
| Accept (server_fd_ : Z)
| Close (fd_ : Z)
| Connect (fd_ : Z) (addr_ : list Z) (addr_len_ : Z)
| Open (dfd_ : Z) (path_ : view) (flags_ mode_ : Z)
| Poll (fd_ poll_mask_ : Z)
| Read (fd_ : Z) (buf_ : view) (offset_ : Z)
| Recv (fd_ buf_ len_ flags_ : Z)
| Send (fd_ buf_ len_ flags_ : Z)
| Stat (dfd_ : Z) (path_ : view) (flags_ mask_ : Z)
| Write (fd_ : Z) (buf_ : view) (offset_ : Z).

(** *** Constructors

    The constructors store their arguments; [Connect] also copies the
    caller's address into its own storage. *)

(** [memcpy(dst, src, n)]: [None] when it would run past either object. *)
Definition memcpy (dst src : list Z) (n : nat) : option (list Z) :=
  if decide (n <= length dst /\ n <= length src)%nat
  then Some (take n src ++ drop n dst) else None.

Definition Accept_ctor (server_fd : Z) : operation := Accept server_fd.
Definition Close_ctor (fd : Z) : operation := Close fd.
Definition Connect_ctor (fd : Z) (addr : list Z) (addr_len : nat) : option operation :=
  let addr_ := replicate sizeof_sockaddr_storage 0 in
  addr_ ← memcpy addr_ addr addr_len;
  Some (Connect fd addr_ (Z.of_nat addr_len)).
Definition Open_ctor (path : view) (flags mode dfd : Z) : operation := Open dfd path flags mode.
Definition Poll_ctor (fd poll_mask : Z) : operation := Poll fd poll_mask.
Definition Read_ctor (fd : Z) (buf : view) (offset : Z) : operation := Read fd buf offset.
Definition Recv_ctor (fd buf len flags : Z) : operation := Recv fd buf len flags.
Definition Send_ctor (fd buf len flags : Z) : operation := Send fd buf len flags.
Definition Stat_ctor (path : view) (flags mask dfd : Z) : operation := Stat dfd path flags mask.
Definition Write_ctor (fd : Z) (buf : view) (offset : Z) : operation := Write fd buf offset.

(** ** Stores into a submission entry *)

Definition set_opcode (v : Z) (e : io_uring_sqe) : io_uring_sqe :=
  mkSqe v (flags e) (ioprio e) (sqe_fd e) (off e) (addr e) (len e) (op_flags e) (user_data e)
    (buf_index e) (personality e) (splice_fd_in e).
Definition set_flags (v : Z) (e : io_uring_sqe) : io_uring_sqe :=
  mkSqe (opcode e) v (ioprio e) (sqe_fd e) (off e) (addr e) (len e) (op_flags e) (user_data e)
    (buf_index e) (personality e) (splice_fd_in e).
Definition set_fd (v : Z) (e : io_uring_sqe) : io_uring_sqe :=
  mkSqe (opcode e) (flags e) (ioprio e) v (off e) (addr e) (len e) (op_flags e) (user_data e)
    (buf_index e) (personality e) (splice_fd_in e).
Definition set_off (v : word64) (e : io_uring_sqe) : io_uring_sqe :=
  mkSqe (opcode e) (flags e) (ioprio e) (sqe_fd e) v (addr e) (len e) (op_flags e) (user_data e)
    (buf_index e) (personality e) (splice_fd_in e).
Definition set_addr (v : word64) (e : io_uring_sqe) : io_uring_sqe :=
  mkSqe (opcode e) (flags e) (ioprio e) (sqe_fd e) (off e) v (len e) (op_flags e) (user_data e)
    (buf_index e) (personality e) (splice_fd_in e).
Definition set_len (v : Z) (e : io_uring_sqe) : io_uring_sqe :=
  mkSqe (opcode e) (flags e) (ioprio e) (sqe_fd e) (off e) (addr e) v (op_flags e) (user_data e)
    (buf_index e) (personality e) (splice_fd_in e).
Definition set_op_flags (v : Z) (e : io_uring_sqe) : io_uring_sqe :=
  mkSqe (opcode e) (flags e) (ioprio e) (sqe_fd e) (off e) (addr e) (len e) v (user_data e)
    (buf_index e) (personality e) (splice_fd_in e).
Definition set_user_data (v : word64) (e : io_uring_sqe) : io_uring_sqe :=
  mkSqe (opcode e) (flags e) (ioprio e) (sqe_fd e) (off e) (addr e) (len e) (op_flags e) v
    (buf_index e) (personality e) (splice_fd_in e).

(** [memset(sqe, 0, sizeof( *sqe))]: every field is zero, whatever it was. *)
Definition memset_sqe (e : io_uring_sqe) : io_uring_sqe := zero_sqe.

(** ** [prepare] of each operation *)

Definition Accept_prepare (self : nat) (server_fd : Z) (sqe : io_uring_sqe) : io_uring_sqe :=
  let sqe := memset_sqe sqe in
  let sqe := set_opcode IORING_OP_ACCEPT sqe in
  let sqe := set_fd server_fd sqe in
  let sqe := set_addr (AddrMember self M_addr) sqe in
  let sqe := set_off (AddrMember self M_addr_len) sqe in
  set_op_flags (Z.lor SOCK_NONBLOCK SOCK_CLOEXEC) sqe.

Definition Close_prepare (fd : Z) (sqe : io_uring_sqe) : io_uring_sqe :=
  let sqe := memset_sqe sqe in
  let sqe := set_opcode IORING_OP_CLOSE sqe in
  set_fd fd sqe.

Definition Connect_prepare (self : nat) (fd addr_len : Z) (sqe : io_uring_sqe) : io_uring_sqe :=
  let sqe := memset_sqe sqe in
  let sqe := set_opcode IORING_OP_CONNECT sqe in
  let sqe := set_fd fd sqe in
  let sqe := set_addr (AddrMember self M_addr) sqe in
  set_off (Num addr_len) sqe.

Definition Open_prepare (dfd : Z) (path : view) (flags mode : Z) (sqe : io_uring_sqe) : io_uring_sqe :=
  let sqe := memset_sqe sqe in
  let sqe := set_opcode IORING_OP_OPENAT sqe in
  let sqe := set_fd dfd sqe in
  let sqe := set_addr (AddrUser (view_data path)) sqe in
  let sqe := set_op_flags (u32 flags) sqe in
  set_len mode sqe.

Definition Poll_prepare (fd poll_mask : Z) (sqe : io_uring_sqe) : io_uring_sqe :=
  let sqe := memset_sqe sqe in
  let sqe := set_opcode IORING_OP_POLL_ADD sqe in
  let sqe := set_fd fd sqe in
  set_op_flags poll_mask sqe.

Definition Read_prepare (fd : Z) (buf : view) (offset : Z) (sqe : io_uring_sqe) : io_uring_sqe :=
  let sqe := memset_sqe sqe in
  let sqe := set_opcode IORING_OP_READ sqe in
  let sqe := set_fd fd sqe in
  let sqe := set_addr (AddrUser (view_data buf)) sqe in
  let sqe := set_len (u32 (u64 (view_size buf * 4))) sqe in
  set_off (Num offset) sqe.

Definition Recv_prepare (fd buf len flags : Z) (sqe : io_uring_sqe) : io_uring_sqe :=
  let sqe := memset_sqe sqe in
  let sqe := set_opcode IORING_OP_RECV sqe in
  let sqe := set_fd fd sqe in
  let sqe := set_addr (AddrUser buf) sqe in
  let sqe := set_len (u32 len) sqe in
  set_op_flags (u32 flags) sqe.

Definition Send_prepare (fd buf len flags : Z) (sqe : io_uring_sqe) : io_uring_sqe :=
  let sqe := memset_sqe sqe in
  let sqe := set_opcode IORING_OP_SEND sqe in
  let sqe := set_fd fd sqe in
  let sqe := set_addr (AddrUser buf) sqe in
  let sqe := set_len (u32 len) sqe in
  set_op_flags (u32 flags) sqe.

Definition Stat_prepare (self : nat) (dfd : Z) (path : view) (flags mask : Z) (sqe : io_uring_sqe) : io_uring_sqe :=
  let sqe := memset_sqe sqe in
  let sqe := set_opcode IORING_OP_STATX sqe in
  let sqe := set_fd dfd sqe in
  let sqe := set_addr (AddrUser (view_data path)) sqe in
  let sqe := set_off (AddrMember self M_buf) sqe in
  let sqe := set_op_flags (u32 flags) sqe in
  set_len mask sqe.

Definition Write_prepare (fd : Z) (buf : view) (offset : Z) (sqe : io_uring_sqe) : io_uring_sqe :=
  let sqe := memset_sqe sqe in
  let sqe := set_opcode IORING_OP_WRITE sqe in
  let sqe := set_fd fd sqe in
  let sqe := set_addr (AddrUser (view_data buf)) sqe in
  let sqe := set_len (u32 (u64 (view_size buf * 4))) sqe in
  set_off (Num offset) sqe.

(** The virtual call. *)
Definition prepare (self : nat) (op : operation) (sqe : io_uring_sqe) : io_uring_sqe :=
  match op with
  | Accept fd => Accept_prepare self fd sqe
  | Close fd => Close_prepare fd sqe
  | Connect fd _ addr_len => Connect_prepare self fd addr_len sqe
  | Open dfd path fl mode => Open_prepare dfd path fl mode sqe
  | Poll fd mask => Poll_prepare fd mask sqe
  | Read fd buf o => Read_prepare fd buf o sqe
  | Recv fd buf n fl => Recv_prepare fd buf n fl sqe
  | Send fd buf n fl => Send_prepare fd buf n fl sqe
  | Stat dfd path fl mask => Stat_prepare self dfd path fl mask sqe
  | Write fd buf o => Write_prepare fd buf o sqe
  end.

(** ** Specification: the system call an entry stands for

    [decode] reads a submission entry the way io_uring_enter(2) documents it
    for each opcode; [intended] is the call the user of the operation asked
    for. *)
Inductive syscall : Type :=
| Sys_accept4 (fd : Z) (addr addr_len : word64) (flags : Z)
| Sys_close (fd : Z)
| Sys_connect (fd : Z) (addr addr_len : word64)
| Sys_openat (dfd : Z) (path : word64) (flags mode : Z)
| Sys_poll (fd events : Z)
| Sys_pread (fd : Z) (buf : word64) (count : Z) (offset : word64)
| Sys_recv (fd : Z) (buf : word64) (count flags : Z)
| Sys_send (fd : Z) (buf : word64) (count flags : Z)
| Sys_statx (dfd : Z) (path : word64) (flags mask : Z) (buf : word64)
| Sys_pwrite (fd : Z) (buf : word64) (count : Z) (offset : word64).

Definition decode (e : io_uring_sqe) : option syscall :=
  let op := opcode e in
  if op =? IORING_OP_ACCEPT then Some (Sys_accept4 (sqe_fd e) (addr e) (off e) (op_flags e))
  else if op =? IORING_OP_CLOSE then Some (Sys_close (sqe_fd e))
  else if op =? IORING_OP_CONNECT then Some (Sys_connect (sqe_fd e) (addr e) (off e))
  else if op =? IORING_OP_OPENAT then Some (Sys_openat (sqe_fd e) (addr e) (op_flags e) (len e))
  else if op =? IORING_OP_POLL_ADD then Some (Sys_poll (sqe_fd e) (op_flags e))
  else if op =? IORING_OP_READ then Some (Sys_pread (sqe_fd e) (addr e) (len e) (off e))
  else if op =? IORING_OP_RECV then Some (Sys_recv (sqe_fd e) (addr e) (len e) (op_flags e))
  else if op =? IORING_OP_SEND then Some (Sys_send (sqe_fd e) (addr e) (len e) (op_flags e))
  else if op =? IORING_OP_STATX then Some (Sys_statx (sqe_fd e) (addr e) (op_flags e) (len e) (off e))
  else if op =? IORING_OP_WRITE then Some (Sys_pwrite (sqe_fd e) (addr e) (len e) (off e))
  else None.

Definition intended (self : nat) (op : operation) : syscall :=
  match op with
  | Accept fd => Sys_accept4 fd (AddrMember self M_addr) (AddrMember self M_addr_len)
                   (SOCK_NONBLOCK + SOCK_CLOEXEC)
  | Close fd => Sys_close fd
  | Connect fd _ n => Sys_connect fd (AddrMember self M_addr) (Num n)
  | Open dfd path fl mode => Sys_openat dfd (AddrUser (view_data path)) fl mode
  | Poll fd mask => Sys_poll fd mask
  | Read fd buf o => Sys_pread fd (AddrUser (view_data buf)) (4 * view_size buf) (Num o)
  | Recv fd buf n fl => Sys_recv fd (AddrUser buf) n fl
  | Send fd buf n fl => Sys_send fd (AddrUser buf) n fl
  | Stat dfd path fl mask => Sys_statx dfd (AddrUser (view_data path)) fl mask (AddrMember self M_buf)
  | Write fd buf o => Sys_pwrite fd (AddrUser (view_data buf)) (4 * view_size buf) (Num o)
  end.

(** The lengths and flag words an entry has room for. *)
Definition fits (op : operation) : Prop :=
  match op with
  | Open _ _ fl _ => is_u32 fl
  | Stat _ _ fl _ => is_u32 fl
  | Read _ buf _ | Write _ buf _ => 0 <= view_size buf < 2 ^ 30
  | Recv _ _ n fl | Send _ _ n fl => is_u32 n /\ is_u32 fl
  | _ => True
  end.

#[export] Instance fits_dec op : Decision (fits op).
Proof. destruct op; unfold fits, is_u32; apply _. Defined.

Lemma rw_len_exact n : 0 <= n < 2 ^ 30 -> u32 (u64 (n * 4)) = 4 * n.
Proof. intros H. rewrite u64_id, u32_id by word_lia. lia. Qed.

(** C20: an entry filled by [prepare] carries exactly the requested call.  For
    every operation whose lengths and flags fit 32 bits, whatever the slot
    held before (an earlier linked operation, a timeout, an eventfd read),
    decoding the entry gives back the intended system call, and the entry
    carries no leftover flags, priority or user data. *)
Theorem prepare_decodes self op stale :
  fits op ->
  let e := prepare self op stale in
  decode e = Some (intended self op) /\
  flags e = 0 /\ ioprio e = 0 /\ user_data e = Num 0 /\
  buf_index e = 0 /\ personality e = 0 /\ splice_fd_in e = 0.
Proof.
  intros Hfit. destruct op; cbn -[u32 u64]; (split; [|repeat split]); unfold fits in Hfit.
  all: rewrite ?rw_len_exact, ?u32_id by tauto; reflexivity.
Qed.

(** C38: the byte count of [Read] and [Write] is exact precisely for spans of
    fewer than 2^30 words; a longer span is submitted with its length reduced
    modulo 2^32, so the kernel is asked for less than the span. *)
Theorem rw_length_exact_iff self fd buf offset stale :
  0 <= view_size buf < two64 / 4 ->
  (len (prepare self (Read fd buf offset) stale) = 4 * view_size buf <-> view_size buf < 2 ^ 30) /\
  len (prepare self (Read fd buf offset) stale) = len (prepare self (Write fd buf offset) stale) /\
  (2 ^ 30 <= view_size buf -> len (prepare self (Write fd buf offset) stale) < 4 * view_size buf).
Proof.
  intros H. cbn -[u32 u64]. assert (is_u64 (view_size buf * 4)) as Hu.
  { unfold is_u64, two64 in *. change (18446744073709551616 / 4) with 4611686018427387904 in H. lia. }
  rewrite (u64_id _ Hu). pose proof (u32_range (view_size buf * 4)) as Hr.
  unfold is_u32, two32 in Hr.
  split; [split|split; [done|lia]].
  - lia.
  - intros Hlt. rewrite u32_id by word_lia. lia.
Qed.

(** [Connect] owns its address.  For any address that fits a
    [sockaddr_storage] the constructor keeps a private copy whose first
    [addr_len] bytes are the caller's; a longer [addr_len] makes the
    constructor's [memcpy] run past the 128-byte member. *)
Theorem Connect_copies_address fd addr n :
  (n <= length addr)%nat ->
  ((n <= sizeof_sockaddr_storage)%nat ->
     exists storage, Connect_ctor fd addr n = Some (Connect fd storage (Z.of_nat n)) /\
                     length storage = sizeof_sockaddr_storage /\ take n storage = take n addr) /\
  ((sizeof_sockaddr_storage < n)%nat -> Connect_ctor fd addr n = None).
Proof.
  intros Hn. unfold Connect_ctor, memcpy. rewrite length_replicate. split.
  - intros Hle. rewrite decide_True by done. eexists. split; [reflexivity|].
    rewrite length_app, length_take, length_drop, length_replicate. split; [lia|].
    rewrite take_app_le by (rewrite length_take; lia). rewrite take_take. f_equal. lia.
  - intros Hlt. rewrite decide_False by lia. done.
Qed.

Lemma prepare_decodes_witness :
  decode (prepare 7 (Read 5 (mkView 4096 3) 0) (mkSqe 15 4 0 9 (Num 1) (Num 2) 1 3 (Num 8) 1 1 1)) =
    Some (Sys_pread 5 (AddrUser 4096) 12 (Num 0)).
Proof.
  apply (prepare_decodes 7 (Read 5 (mkView 4096 3) 0)). cbn. lia.
Defined.

Lemma rw_length_exact_iff_witness :
  len (prepare 0 (Write 1 (mkView 0 (2 ^ 30)) 0) zero_sqe) < 4 * 2 ^ 30.
Proof.
  apply (rw_length_exact_iff 0 1 (mkView 0 (2 ^ 30)) 0 zero_sqe); cbn; [|lia].
  change (two64 / 4) with 4611686018427387904. lia.
Defined.

Lemma Connect_copies_address_witness :
  exists storage, Connect_ctor 3 [2; 0; 31; 144] 4 = Some (Connect 3 storage 4) /\
                  take 4 storage = [2; 0; 31; 144].
Proof.
  destruct (Connect_copies_address 3 [2; 0; 31; 144] 4 (le_n 4)) as [H _].
  destruct (H ltac:(unfold sizeof_sockaddr_storage; lia)) as (s & H1 & _ & H2).
  exists s. split; [exact H1|exact H2].
Defined.
