(* ===== verification/Awaitable.v ===== *)
(** * Awaitable: the awaiter protocol and SQE staging

    Models src/awaitable.cpp and include/slim/common/io/awaitable.h.in.  An
    [Awaitable] is a record; the ring it stages into and the thread-local
    [tl_sq_full] flag are passed explicitly. *)
From stdpp Require Import prelude list.
From Stdlib Require Import ZArith Lia.
From S2P Require Import Prelude ErrorCodes Ring Operations.

Definition IOSQE_IO_LINK : Z := 4.

Record timespec : Type := mkTimespec { tv_sec : Z; tv_nsec : Z }.

#[export] Instance timespec_eq_dec : EqDecision timespec.
Proof. solve_decision. Defined.

Record Awaitable : Type := mkAwaitable {
  result : Z;
  handle : option nat;                (* std::coroutine_handle<>, a frame *)
  timeout_ts_ : option timespec;
  aw_op : operation                   (* the concrete subclass *)
}.

(** [std::optional::has_value]. *)
Definition has_value {A} (o : option A) : bool :=
  match o with Some _ => true | None => false end.

(** A freshly constructed awaitable. *)
Definition Awaitable_ctor (op : operation) : Awaitable := mkAwaitable 0 None None op.

Definition set_result (r : Z) (a : Awaitable) : Awaitable :=
  mkAwaitable r (handle a) (timeout_ts_ a) (aw_op a).
Definition set_handle (h : nat) (a : Awaitable) : Awaitable :=
  mkAwaitable (result a) (Some h) (timeout_ts_ a) (aw_op a).

(** [with_timeout]: [duration_cast] truncates towards zero. *)
Definition with_timeout (timeout : Z) (a : Awaitable) : Awaitable :=
  let secs := Z.quot timeout 1000 in
  let nsecs := (timeout - secs * 1000) * 1000000 in
  mkAwaitable (result a) (handle a) (Some (mkTimespec secs nsecs)) (aw_op a).

(** [take_pending_sq_error]: the pending error, and the cleared flag. *)
Definition take_pending_sq_error (tl_sq_full : bool) : option exn * bool :=
  if negb tl_sq_full then (None, tl_sq_full) else (Some (IOException SQFull), false).

Definition await_ready : bool := false.
Definition await_resume (a : Awaitable) : Z := result a.

Definition has_capacity (io : IO) (count : Z) : bool :=
  let head := sq_head (sq io) in
  let tail := sq_tail (sq io) in
  (tail -u32 head) +u32 count <=? sq_entries (sq io).

(** [commit_one]: publish the tail slot; the returned index stands for the
    address of the entry. *)
Definition commit_one (io : IO) : IO * Z :=
  let tail := sq_tail (sq io) in
  let idx := Z.land tail (sq_mask (sq io)) in
  let q := set_sq_array idx idx (sq io) in
  let q := set_sq_tail (tail +u32 1) q in
  (with_sq io q, idx).

(** The count [submit] passes to [io_uring_enter]. *)
Definition submit_pending (io : IO) : Z := sq_tail (sq io) -u32 sq_head (sq io).

(** A store through an entry pointer. *)
Definition update_sqe (idx : Z) (f : io_uring_sqe -> io_uring_sqe) (io : IO) : IO :=
  with_sq io (set_sqe idx (f (default zero_sqe (sq_sqes (sq io) !! Z.to_nat idx))) (sq io)).

(** [await_suspend]: whether the coroutine stays suspended, and the
    awaitable, ring and flag afterwards. *)
Definition await_suspend (self : nat) (a : Awaitable) (h : nat) (io : IO) (tl_sq_full : bool)
    : bool * Awaitable * IO * bool :=
  let needed := if has_value (timeout_ts_ a) then 2 else 1 in
  if negb (has_capacity io needed) then (false, a, io, true)
  else
    let '(io, primary_sqe) := commit_one io in
    let io := update_sqe primary_sqe (prepare self (aw_op a)) io in
    let io := update_sqe primary_sqe (set_user_data (AddrAwaitable self)) io in
    let io :=
      if has_value (timeout_ts_ a) then
        let io := update_sqe primary_sqe (fun e => set_flags (Z.lor (flags e) IOSQE_IO_LINK) e) io in
        let '(io, timeout_sqe) := commit_one io in
        let io := update_sqe timeout_sqe memset_sqe io in
        let io := update_sqe timeout_sqe (set_opcode IORING_OP_LINK_TIMEOUT) io in
        let io := update_sqe timeout_sqe (set_addr (AddrMember self M_timeout)) io in
        update_sqe timeout_sqe (set_len 1) io
      else io in
    (true, set_handle h a, io, tl_sq_full).

(** ** Specification *)

(** Ring slots an operation needs. *)
Definition slots_needed (a : Awaitable) : Z := if has_value (timeout_ts_ a) then 2 else 1.

(** The entries a suspended operation adds to the submission queue. *)
Definition primary_entry (self : nat) (a : Awaitable) : io_uring_sqe :=
  let e := set_user_data (AddrAwaitable self) (prepare self (aw_op a) zero_sqe) in
  if has_value (timeout_ts_ a) then set_flags (Z.lor (flags e) IOSQE_IO_LINK) e else e.

Definition timeout_entry (self : nat) : io_uring_sqe :=
  set_len 1 (set_addr (AddrMember self M_timeout) (set_opcode IORING_OP_LINK_TIMEOUT zero_sqe)).

Definition staged (self : nat) (a : Awaitable) : list io_uring_sqe :=
  primary_entry self a :: (if has_value (timeout_ts_ a) then [timeout_entry self] else []).

(** Every linked entry is directly followed by a link-timeout entry. *)
Fixpoint links_paired (l : list io_uring_sqe) : Prop :=
  match l with
  | [] => True
  | e :: l' =>
      (Z.testbit (flags e) 2 = true ->
         match l' with e' :: _ => opcode e' = IORING_OP_LINK_TIMEOUT | [] => False end) /\
      links_paired l'
  end.

(** ** Capacity *)

Lemma wf_entries_bound q : wf_sq q -> 1 <= sq_entries q <= 1073741824.
Proof.
  intros [[k [Hk ->]]]. split; [lia|].
  change 1073741824 with (2 ^ 30). apply Z.pow_le_mono_r; lia.
Qed.

Lemma has_capacity_iff io count :
  wf_io io -> 0 <= count <= 2 ^ 31 ->
  has_capacity io count = true <-> sq_count (sq io) + count <= sq_entries (sq io).
Proof.
  intros [Hsq _] Hc. unfold has_capacity. fold (sq_count (sq io)).
  pose proof (wf_entries_bound _ Hsq). pose proof (wf_sq_bound _ Hsq).
  pose proof (sq_count_nonneg (sq io)).
  rewrite u32_id by word_lia. apply Z.leb_le.
Qed.

Lemma prepare_forgets self op e e' : prepare self op e = prepare self op e'.
Proof. by destruct op. Qed.

Lemma prepare_flags self op e : flags (prepare self op e) = 0.
Proof. by destruct op. Qed.

(** ** Staging is publishing *)

(** [update_sqe] at the slot just committed acts on the published entry. *)
Lemma update_published fd q c e f :
  wf_sq q ->
  update_sqe (tail_slot q) f (mkIO fd (publish e q) c) = mkIO fd (publish (f e) q) c.
Proof.
  intros Hwf. unfold update_sqe, with_sq; cbn [sq io_fd cq]. f_equal.
  rewrite <- (publish_overwrite e (f e)). f_equal. f_equal. cbn.
  rewrite list_lookup_insert_eq; [done|].
  pose proof (tail_slot_range _ Hwf). pose proof (wf_sq_sqes_len _ Hwf). lia.
Qed.

(** Committing and then writing the slot publishes what was written. *)
Lemma commit_update fd q c f :
  exists old,
    update_sqe (tail_slot q) f (fst (commit_one (mkIO fd q c))) = mkIO fd (publish (f old) q) c.
Proof. eexists. reflexivity. Qed.

Lemma commit_one_pair fd q c :
  commit_one (mkIO fd q c) = (fst (commit_one (mkIO fd q c)), tail_slot q).
Proof. done. Qed.

(** [await_suspend] on the branch where all slots are free. *)
Lemma await_suspend_room self a h io tl :
  wf_io io -> sq_count (sq io) + slots_needed a <= sq_entries (sq io) ->
  exists q,
    await_suspend self a h io tl = (true, set_handle h a, with_sq io q, tl) /\
    wf_sq q /\ sq_pending q = sq_pending (sq io) ++ staged self a /\
    sq_entries q = sq_entries (sq io).
Proof.
  intros Hwf Hroom.
  assert (Hcap : has_capacity io (slots_needed a) = true).
  { apply has_capacity_iff; [done| |done]. unfold slots_needed. destruct (has_value _); lia. }
  destruct io as [fd q c]. apply wf_io_sq in Hwf. cbn [sq] in *.
  unfold await_suspend. fold (slots_needed a). rewrite Hcap. cbn [negb]. rewrite commit_one_pair.
  destruct (commit_update fd q c (prepare self (aw_op a))) as [old ->].
  rewrite update_published, (prepare_forgets _ _ _ zero_sqe) by done.
  set (e0 := set_user_data _ _). unfold slots_needed in Hroom. unfold staged, primary_entry. fold e0.
  destruct (has_value (timeout_ts_ a)).
  - rewrite update_published by done. set (e1 := set_flags _ _).
    assert (Hq1 : wf_sq (publish e1 q)) by (apply publish_wf; [done|lia]).
    rewrite commit_one_pair.
    destruct (commit_update fd (publish e1 q) c memset_sqe) as [old' ->].
    rewrite !update_published by done.
    assert (Hc1 : sq_count (publish e1 q) < sq_entries (publish e1 q)).
    { rewrite publish_count by (done || lia). cbn. lia. }
    eexists. split; [reflexivity|]. split; [by apply publish_wf|]. split; [|done].
    rewrite !publish_pending by (done || lia). by rewrite <- app_assoc.
  - eexists. split; [reflexivity|]. split; [apply publish_wf; [done|lia]|].
    split; [|done]. by rewrite publish_pending by (done || lia).
Qed.

(** ... and on the branch where they are not. *)
Lemma await_suspend_full self a h io tl :
  wf_io io -> sq_entries (sq io) < sq_count (sq io) + slots_needed a ->
  await_suspend self a h io tl = (false, a, io, true).
Proof.
  intros Hwf Hfull. unfold await_suspend. fold (slots_needed a).
  destruct (has_capacity io (slots_needed a)) eqn:Hcap; [|done].
  apply has_capacity_iff in Hcap; [lia|done|]. unfold slots_needed. destruct (has_value _); lia.
Qed.

Lemma links_paired_app l1 l2 :
  links_paired l1 -> links_paired l2 -> links_paired (l1 ++ l2).
Proof.
  induction l1 as [|e l1 IH]; [done|]. cbn. intros [He Hl1] Hl2. split; [|by apply IH].
  intros Hb. specialize (He Hb). destruct l1; [done|exact He].
Qed.

Lemma staged_links self a : links_paired (staged self a).
Proof.
  unfold staged, primary_entry. destruct (has_value (timeout_ts_ a)); cbn [links_paired app].
  - repeat split; cbn; done.
  - split; [|done]. cbn. by rewrite prepare_flags.
Qed.

(** [has_capacity] is exact.  On every well-formed ring, including one
    whose free-running indices have wrapped past 2^32, the 32-bit test answers
    whether [count] more entries fit without overwriting a pending one. *)
Theorem has_capacity_exact io count :
  wf_io io -> 0 <= count <= 2 ^ 31 ->
  has_capacity io count = true <->
  (length (sq_pending (sq io)) + Z.to_nat count <= length (sq_sqes (sq io)))%nat.
Proof.
  intros Hwf Hc. rewrite has_capacity_iff by done.
  pose proof (length_sq_pending (sq io)). pose proof (wf_sq_sqes_len _ (wf_io_sq _ Hwf)). lia.
Qed.

(** C19: reservation is all or nothing.  On a well-formed ring [await_suspend]
    either suspends, having appended to the submission queue exactly the
    operation's entry (tagged with the awaitable's address) and, when a
    deadline was set, directly behind it the companion timeout entry with null
    user data; or, when not all the slots are free, leaves the ring, its
    entries and the awaitable untouched, raises the thread-local flag and does
    not suspend.  In both cases the ring stays well formed, and no linked
    entry is ever left without its timeout companion. *)
Theorem await_suspend_atomic self a h io tl :
  wf_io io -> links_paired (sq_pending (sq io)) ->
  let '(suspended, a', io', tl') := await_suspend self a h io tl in
  wf_io io' /\ links_paired (sq_pending (sq io')) /\ cq io' = cq io /\
  (if suspended
   then sq_pending (sq io') = sq_pending (sq io) ++ staged self a /\
        handle a' = Some h /\ result a' = result a /\ tl' = tl
   else io' = io /\ a' = a /\ tl' = true) /\
  (suspended = true <-> sq_count (sq io) + slots_needed a <= sq_entries (sq io)).
Proof.
  intros Hwf Hlinks.
  destruct (decide (sq_count (sq io) + slots_needed a <= sq_entries (sq io))) as [Hroom|Hfull].
  - destruct (await_suspend_room self a h io tl Hwf Hroom) as (q & -> & Hq & Hpend & _).
    cbn [with_sq sq cq]. rewrite Hpend.
    split; [split; [done|apply Hwf]|]. split; [|done].
    apply links_paired_app; [done|apply staged_links].
  - rewrite await_suspend_full by (done || lia). repeat split; try done; try apply Hwf.
    all: intros; try done; lia.
Qed.

(** A non-negative deadline is converted without loss: the nanosecond part
    is normalised and seconds and nanoseconds add up to the milliseconds
    asked for; a negative one yields a timespec with a non-positive nanosecond
    part. *)
Theorem with_timeout_exact ms a :
  exists ts, timeout_ts_ (with_timeout ms a) = Some ts /\
    tv_sec ts * 1000000000 + tv_nsec ts = ms * 1000000 /\
    (0 <= ms -> 0 <= tv_sec ts /\ 0 <= tv_nsec ts < 1000000000) /\
    (ms < 0 -> -1000000000 < tv_nsec ts <= 0).
Proof.
  eexists. split; [reflexivity|]. cbn.
  pose proof (Z.quot_rem' ms 1000) as Hqr.
  split; [lia|]. split; intros H.
  - pose proof (Z.rem_bound_pos ms 1000 H ltac:(lia)).
    pose proof (Z.quot_pos ms 1000 H ltac:(lia)). lia.
  - pose proof (Z.rem_bound_pos (- ms) 1000 ltac:(lia) ltac:(lia)) as Hr.
    rewrite Z.rem_opp_l' in Hr. lia.
Qed.

(** ** Witnesses, on a ring whose indices are about to wrap *)

Lemma wrapping_ring_wf : wf_io (fresh_io 3 1 (two32 - 1)).
Proof. apply fresh_io_wf; [lia|]. unfold is_u32, two32. lia. Qed.

Lemma has_capacity_exact_witness :
  has_capacity (fresh_io 3 1 (two32 - 1)) 2 = true /\
  ~ has_capacity (fresh_io 3 1 (two32 - 1)) 3 = true.
Proof.
  split.
  - apply (has_capacity_exact _ 2 wrapping_ring_wf ltac:(lia)). vm_compute. lia.
  - intros H. apply (has_capacity_exact _ 3 wrapping_ring_wf ltac:(lia)) in H.
    vm_compute in H. lia.
Defined.

(** A timed operation on a two-slot ring takes both slots; a second one is
    refused. *)
Lemma await_suspend_atomic_witness :
  let io := fresh_io 3 1 (two32 - 1) in
  let a := with_timeout 1500 (Awaitable_ctor (Close 9)) in
  let '(s1, _, io1, tl1) := await_suspend 1 a 0 io false in
  let '(s2, _, io2, tl2) := await_suspend 2 a 0 io1 false in
  s1 = true /\ length (sq_pending (sq io1)) = 2%nat /\ tl1 = false /\
  s2 = false /\ io2 = io1 /\ tl2 = true.
Proof.
  pose proof (await_suspend_atomic 1 (with_timeout 1500 (Awaitable_ctor (Close 9))) 0
    (fresh_io 3 1 (two32 - 1)) false wrapping_ring_wf I) as H.
  destruct (await_suspend 1 _ 0 (fresh_io 3 1 (two32 - 1)) false) as [[[s1 a1] io1] tl1] eqn:E1.
  destruct H as (Hwf & Hl & _).
  pose proof (await_suspend_atomic 2 (with_timeout 1500 (Awaitable_ctor (Close 9))) 0
    io1 false Hwf Hl) as H2. cbv zeta. rewrite E1.
  vm_compute in E1. injection E1 as <- <- <- <-.
  destruct (await_suspend 2 _ 0 _ false) as [[[s2 a2] io2] tl2] eqn:E2.
  vm_compute in E2. injection E2 as <- <- <- <-.
  repeat split; reflexivity.
Defined.
