(* ===== verification/Task.v ===== *)
(** * Task: coroutine frames, promises and [Task<T>]

    Models include/slim/common/io/task.h.in.  A coroutine frame is identified
    by its handle (a number, never reused); it holds a [Promise] and the point
    at which it is suspended.  User code, the coroutine bodies and the
    callables handed to [post], is an arbitrary tree over the calls it can
    make into the library and over its own effects on a user state [U]. *)
From stdpp Require Import prelude list gmap sorting.
From Stdlib Require Import ZArith Lia.
From S2P Require Import Prelude ErrorCodes Ring Operations Awaitable.

(** ** User code *)

Section UserCode.
Context (U : Type).

(** A coroutine body, up to its next interaction.
    - [CoReturn v]: [co_return v];  [CoThrow e]: an exception leaves the body;
    - [CoDo g k]: user computation on the user's state;
    - [CoAwait op t k]: construct the operation, [with_timeout] if [t] is
      given, [co_await] it, continue with its [int];
    - [CoAwaitTask t k]: [co_await] a nested task; [k] receives its value or
      the exception it rethrows;
    - [CoSpawn t k]: call [spawn] with a new task; [k] sees what it throws;
    - [CoPost dst f k]: call [post] of scheduler [dst]. *)
Inductive coro : Type :=
| CoReturn (v : Z)
| CoThrow (e : exn)
| CoDo (g : U -> U * Z) (k : Z -> coro)
| CoAwait (op : operation) (timeout : option Z) (k : Z -> coro)
| CoAwaitTask (t : coro) (k : Z + exn -> coro)
| CoSpawn (t : coro) (k : option exn -> coro)
| CoPost (dst : nat) (f : callable) (k : option exn -> coro)
(** The body of a [std::function<void()>]: it cannot suspend.
    [FnDispatch job] is the closure [Runtime::post] builds. *)
with callable : Type :=
| FnReturn
| FnThrow (e : exn)
| FnDo (g : U -> U * Z) (k : Z -> callable)
| FnSpawn (t : coro) (k : option exn -> callable)
| FnPost (dst : nat) (f : callable) (k : option exn -> callable)
| FnDispatch (job : nat -> callable).
End UserCode.

Arguments CoReturn {U} v.
Arguments CoThrow {U} e.
Arguments CoDo {U} g k.
Arguments CoAwait {U} op timeout k.
Arguments CoAwaitTask {U} t k.
Arguments CoSpawn {U} t k.
Arguments CoPost {U} dst f k.
Arguments FnReturn {U}.
Arguments FnThrow {U} e.
Arguments FnDo {U} g k.
Arguments FnSpawn {U} t k.
Arguments FnPost {U} dst f k.
Arguments FnDispatch {U} job.

(** ** Promise and frame *)

Record Promise : Type := mkPromise {
  value : option Z;
  exception : option exn;
  continuation : option nat
}.

Definition empty_promise : Promise := mkPromise None None None.

(** Where a frame is suspended.  A suspended frame owns the awaitable or the
    inner task it waits for. *)
Inductive suspension (U : Type) : Type :=
| AtInitial (body : coro U)
| AtOp (a : nat) (k : Z -> coro U)
| AtTask (child : nat) (k : Z + exn -> coro U)
| Running
| AtFinal.
Arguments AtInitial {U} body.
Arguments AtOp {U} a k.
Arguments AtTask {U} child k.
Arguments Running {U}.
Arguments AtFinal {U}.

Record frame (U : Type) : Type := mkFrame {
  promise : Promise;
  susp : suspension U
}.
Arguments mkFrame {U} promise susp.
Arguments promise {U} f.
Arguments susp {U} f.

Section Task.
Context {U : Type}.

(** Calling a coroutine: [get_return_object] and [initial_suspend], which
    always suspends. *)
Definition new_frame (body : coro U) : frame U := mkFrame empty_promise (AtInitial body).

Definition set_susp (s : suspension U) (f : frame U) : frame U := mkFrame (promise f) s.

(** [Promise::return_value] and [Promise::unhandled_exception]. *)
Definition return_value (v : Z) (f : frame U) : frame U :=
  mkFrame (mkPromise (Some v) (exception (promise f)) (continuation (promise f))) (susp f).
Definition unhandled_exception (e : exn) (f : frame U) : frame U :=
  mkFrame (mkPromise (value (promise f)) (Some e) (continuation (promise f))) (susp f).

(** [FinalAwaiter::await_suspend]: the coroutine control transfers to,
    [None] standing for [std::noop_coroutine()]. *)
Definition FinalAwaiter_await_suspend (f : frame U) : option nat :=
  match continuation (promise f) with
  | Some c => Some c
  | None => None
  end.

(** [handle_.done()]. *)
Definition handle_done (f : frame U) : bool :=
  match susp f with AtFinal => true | _ => false end.

(** [Task::result]: rethrow the stored exception, else the value, else a
    default-constructed [T]. *)
Definition Task_result (f : frame U) : Z + exn :=
  match exception (promise f) with
  | Some e => inr e
  | None => match value (promise f) with Some v => inl v | None => inl 0 end
  end.

(** [Task<void>::result]. *)
Definition Task_void_result (f : frame U) : option exn := exception (promise f).

(** [Task::await_suspend]: record who waits; the returned handle is the task's
    own, so control transfers into it. *)
Definition Task_await_suspend (awaiting : nat) (f : frame U) : frame U :=
  mkFrame (mkPromise (value (promise f)) (exception (promise f)) (Some awaiting)) (susp f).

Definition Task_await_ready : bool := false.

(** [Task::await_resume]. *)
Definition Task_await_resume (f : frame U) : Z + exn := Task_result f.

(** [Task::done]: a null handle counts as done; a destroyed frame is a use
    after free, [None]. *)
Definition Task_done (frames : gmap nat (frame U)) (handle_ : option nat) : option bool :=
  match handle_ with
  | None => Some true
  | Some h => handle_done <$> frames !! h
  end.
End Task.

(** ** Ownership: creation, move construction, move assignment, destruction

    [vars] are the [Task] variables, each holding a handle or null; [destroyed]
    lists the frames on which [handle_.destroy()] was called, once per call;
    [allocated] is the number of frames created so far, which are their
    handles. *)
Record task_store : Type := mkTasks { vars : list (option nat); destroyed : list nat; allocated : nat }.

Definition no_tasks : task_store := mkTasks [] [] 0.

(** Calling a coroutine: [get_return_object] hands the handle of the new frame
    to [explicit Task(handle)]. *)
Definition Task_ctor (s : task_store) : task_store :=
  mkTasks (vars s ++ [Some (allocated s)]) (destroyed s) (S (allocated s)).

(** A move constructor: the new variable takes the handle, the source becomes null. *)
Definition Task_move_ctor (other : nat) (s : task_store) : task_store :=
  match vars s !! other with
  | Some h => mkTasks (<[other := None]> (vars s) ++ [h]) (destroyed s) (allocated s)
  | None => s
  end.

(** [handle_.destroy()] guarded by [if (handle_)]. *)
Definition destroy_handle (h : option nat) (d : list nat) : list nat :=
  match h with Some x => x :: d | None => d end.

(** [operator=(Task&&)], with the self-assignment guard. *)
Definition Task_move_assign (this other : nat) (s : task_store) : task_store :=
  if decide (this = other) then s
  else match vars s !! this, vars s !! other with
       | Some mine, Some theirs =>
           let d := destroy_handle mine (destroyed s) in
           mkTasks (<[other := None]> (<[this := theirs]> (vars s))) d (allocated s)
       | _, _ => s
       end.

(** [~Task()]: the variable is gone; a null placeholder keeps the numbering. *)
Definition Task_dtor (this : nat) (s : task_store) : task_store :=
  match vars s !! this with
  | Some mine => mkTasks (<[this := None]> (vars s)) (destroy_handle mine (destroyed s)) (allocated s)
  | None => s
  end.

Inductive task_action : Type :=
| Create
| MoveCtor (other : nat)
| MoveAssign (this other : nat)
| Dtor (this : nat).

#[export] Instance task_action_eq_dec : EqDecision task_action.
Proof. solve_decision. Defined.

Definition task_step (a : task_action) (s : task_store) : task_store :=
  match a with
  | Create => Task_ctor s
  | MoveCtor o => Task_move_ctor o s
  | MoveAssign t o => Task_move_assign t o s
  | Dtor t => Task_dtor t s
  end.

Definition task_steps (acts : list task_action) (s : task_store) : task_store :=
  foldl (fun s a => task_step a s) s acts.

(** The frames somebody still owns. *)
Definition owned (s : task_store) : list nat := omap id (vars s).

Lemma omap_id_insert (l : list (option nat)) i x y :
  l !! i = Some x ->
  omap id (<[i := y]> l) ++ option_list x ≡ₚ omap id l ++ option_list y.
Proof.
  intros H. rewrite <- (take_drop_middle l i x H) at 2.
  rewrite insert_take_drop by (by eapply lookup_lt_Some).
  rewrite !omap_app. cbn. destruct x, y; cbn; rewrite ?app_nil_r; solve_Permutation.
Qed.

Lemma destroy_handle_perm x d : destroy_handle x d ≡ₚ option_list x ++ d.
Proof. by destruct x. Qed.

(** Every frame ever created is owned once or was destroyed once. *)
Definition linear (s : task_store) : Prop := owned s ++ destroyed s ≡ₚ seq 0 (allocated s).

(** What is owned or destroyed changes by creation only. *)
Lemma Task_step_perm a s :
  a <> Create ->
  owned (task_step a s) ++ destroyed (task_step a s) ≡ₚ owned s ++ destroyed s /\ allocated (task_step a s) = allocated s.
Proof.
  intros Ha. destruct a as [|o|t o|t]; [done|..]; cbn; unfold owned.
  - unfold Task_move_ctor. destruct (vars s !! o) as [h|] eqn:E; [|done]. cbn. split; [|done].
    rewrite omap_app. pose proof (omap_id_insert _ _ _ None E) as H. cbn in H.
    rewrite app_nil_r in H. rewrite <- H. by destruct h.
  - unfold Task_move_assign. case_decide as Hne; [done|].
    destruct (vars s !! t) as [mine|] eqn:E1; [|done].
    destruct (vars s !! o) as [theirs|] eqn:E2; [|done]. cbn. split; [|done].
    rewrite destroy_handle_perm.
    assert (E2' : <[t := theirs]> (vars s) !! o = Some theirs) by (by rewrite list_lookup_insert_ne).
    pose proof (omap_id_insert _ _ _ None E2') as H2. cbn in H2. rewrite app_nil_r in H2.
    pose proof (omap_id_insert _ _ _ theirs E1) as H1. rewrite <- H2 in H1.
    rewrite !app_assoc. apply Permutation_app_tail.
    apply (Permutation_app_inv_r (option_list theirs)).
    rewrite <- app_assoc, (Permutation_app_comm (option_list mine)), app_assoc. exact H1.
  - unfold Task_dtor. destruct (vars s !! t) as [mine|] eqn:E; [|done]. cbn. split; [|done].
    rewrite destroy_handle_perm, app_assoc. apply Permutation_app_tail.
    pose proof (omap_id_insert _ _ _ None E) as H. cbn in H. by rewrite app_nil_r in H.
Qed.

Lemma Task_step_linear a s : linear s -> linear (task_step a s).
Proof.
  unfold linear. intros Hs. destruct (decide (a = Create)) as [->|Ha].
  2: { destruct (Task_step_perm a s Ha) as [Hp ->]. by rewrite Hp. }
  cbn [task_step]. unfold owned, Task_ctor. cbn [vars destroyed allocated]. rewrite omap_app, seq_S, <- Hs.
  unfold owned. cbn. solve_Permutation.
Qed.

Lemma task_steps_linear acts s : linear s -> linear (task_steps acts s).
Proof. revert s. induction acts as [|a acts IH]; intros s Hs; [done|]. by apply IH, Task_step_linear. Qed.

Lemma task_steps_allocated acts s :
  allocated (task_steps acts s) = (allocated s + length (filter (eq Create) acts))%nat.
Proof.
  revert s. induction acts as [|a acts IH]; intros s; [cbn; lia|]. change (task_steps (a :: acts) s) with (task_steps acts (task_step a s)).
  rewrite IH, filter_cons. case_decide as Ha; [subst a; cbn; lia|].
  by rewrite (proj2 (Task_step_perm a s (fun E => Ha (eq_sym E)))).
Qed.

(** The scopes end: every variable is destroyed. *)
Definition end_scopes (s : task_store) : task_store := task_steps (Dtor <$> seq 0 (length (vars s))) s.

Lemma end_scopes_vars n s :
  (n <= length (vars s))%nat ->
  let s' := task_steps (Dtor <$> seq 0 n) s in
  vars s' = replicate n None ++ drop n (vars s) /\ allocated s' = allocated s.
Proof.
  intros Hn. induction n as [|n IH]; [done|]. cbv zeta in *. destruct IH as [Hv Ha]; [lia|].
  unfold task_steps in *. rewrite seq_S, fmap_app, foldl_app. cbn [fmap list_fmap foldl task_step].
  set (s1 := foldl _ s (Dtor <$> seq 0 n)) in *. unfold Task_dtor.
  destruct (lookup_lt_is_Some_2 (vars s) n) as [h Hh]; [lia|].
  assert (E : vars s1 !! n = Some h).
  { rewrite Hv, lookup_app_r, length_replicate, Nat.sub_diag, lookup_drop by (rewrite length_replicate; lia).
    by rewrite Nat.add_0_r. }
  change (0 + n)%nat with n. rewrite E. cbn [vars allocated]. split; [|done]. rewrite Hv, (drop_S _ _ _ Hh).
  rewrite insert_app_r_alt, length_replicate, Nat.sub_diag by (rewrite length_replicate; lia).
  by rewrite replicate_S_end, <- app_assoc.
Qed.

(** C22: [Task] owns its frame linearly.  Starting with no task, through any
    sequence of creations, move constructions, move assignments
    (self-assignment included) and destructions: one frame exists per creation,
    and each of them is either owned by exactly one variable and was never
    destroyed, or is owned by none and was destroyed exactly once.  When the
    scopes of all variables have ended, every frame has been destroyed exactly
    once. *)
Theorem Task_ownership_linear acts :
  let s := task_steps acts no_tasks in
  NoDup (owned s) /\ NoDup (destroyed s) /\
  (forall h, h ∈ owned s \/ h ∈ destroyed s <-> (h < allocated s)%nat) /\
  (forall h, h ∈ owned s -> h ∉ destroyed s) /\
  allocated s = length (filter (eq Create) acts) /\
  owned (end_scopes s) = [] /\ destroyed (end_scopes s) ≡ₚ seq 0 (allocated s).
Proof.
  intros s. assert (Hs : linear s) by (apply task_steps_linear; constructor). unfold linear in Hs.
  assert (Hnd : NoDup (owned s ++ destroyed s)) by (rewrite Hs; apply NoDup_seq).
  apply NoDup_app in Hnd as (H1 & H2 & H3).
  destruct (end_scopes_vars (length (vars s)) s) as [Hv Ha]; [done|]. cbv zeta in Hv, Ha. fold (end_scopes s) in Hv, Ha.
  assert (Ho : owned (end_scopes s) = []).
  { unfold owned. rewrite Hv, drop_all, app_nil_r. clear. by induction (length (vars s)). }
  split_and!; try done.
  - intros h. rewrite <- elem_of_app, Hs, elem_of_seq. lia.
  - apply task_steps_allocated.
  - rewrite <- Ha. pose proof (task_steps_linear (Dtor <$> seq 0 (length (vars s))) s Hs) as Hl. unfold linear in Hl.
    fold (end_scopes s) in Hl. by rewrite Ho in Hl.
Qed.

(** A sequence with a self-assignment and an assignment that destroys. *)
Example task_steps_demo :
  task_steps [Create; Create; MoveCtor 0; MoveAssign 2 2; MoveAssign 1 2; Dtor 1; Dtor 0] no_tasks =
    mkTasks [None; None; None] [0; 1]%nat 2.
Proof. reflexivity. Qed.
