(* ===== verification/Machine.v ===== *)
(** * Machine: running coroutines against a scheduler

    The state one scheduler thread works on, and the execution of user code in
    it: resumption, symmetric transfer, [co_await] of operations and of tasks,
    [Scheduler::spawn] (include/slim/common/io/scheduler.h.in, a template) and
    [Scheduler::post] (src/scheduler.cpp), which user code calls back into. *)
From stdpp Require Import prelude list gmap.
From Stdlib Require Import ZArith Lia.
From S2P Require Import Prelude ErrorCodes Ring Operations Awaitable Task.

(** ** State *)

(** What other threads may touch: the inbox (under its mutex) and the counter
    of the eventfd. *)
Record mailbox (U : Type) : Type := mkBox {
  inbox_ : list (callable U);
  efd_counter : Z
}.
Arguments mkBox {U} inbox_ efd_counter.
Arguments inbox_ {U} m.
Arguments efd_counter {U} m.

(** What only the scheduler's own thread touches.  [frames] and [awts] are the
    coroutine frames and the awaitables alive on this thread, numbered in
    allocation order; [can_grow n] says whether the allocator can hold
    [n + 1] tasks. *)
Record sched (U : Type) : Type := mkSched {
  s_id : nat;
  s_io : IO;
  eventfd_ : Z;
  eventfd_armed_ : bool;
  shutting_down_ : bool;
  tasks_ : list nat;
  frames : gmap nat (frame U);
  next_frame : nat;
  awts : gmap nat Awaitable;
  next_awt : nat;
  tl_sq_full : bool;
  can_grow : nat -> bool
}.
Arguments mkSched {U}.
Arguments s_id {U} s.
Arguments s_io {U} s.
Arguments eventfd_ {U} s.
Arguments eventfd_armed_ {U} s.
Arguments shutting_down_ {U} s.
Arguments tasks_ {U} s.
Arguments frames {U} s.
Arguments next_frame {U} s.
Arguments awts {U} s.
Arguments next_awt {U} s.
Arguments tl_sq_full {U} s.
Arguments can_grow {U} s.

(** Mailboxes of all schedulers by id, the user's state, and the fields of
    [Runtime] that the dispatch closure reads ([next_worker_], the number of
    workers; worker [i] is scheduler [S i], the dispatcher is 0). *)
Record shared (U : Type) : Type := mkShared {
  boxes : gmap nat (mailbox U);
  user : U;
  next_worker_ : Z;
  workers : nat
}.
Arguments mkShared {U}.
Arguments boxes {U} s.
Arguments user {U} s.
Arguments next_worker_ {U} s.
Arguments workers {U} s.

Record world (U K : Type) : Type := mkWorld {
  me : sched U;
  sh : shared U;
  kern : K
}.
Arguments mkWorld {U K}.
Arguments me {U K} w.
Arguments sh {U K} w.
Arguments kern {U K} w.

Section Setters.
Context {U : Type}.
Implicit Types s : sched U.

Definition set_io (x : IO) s : sched U :=
  mkSched (s_id s) x (eventfd_ s) (eventfd_armed_ s) (shutting_down_ s) (tasks_ s) (frames s) (next_frame s)
    (awts s) (next_awt s) (tl_sq_full s) (can_grow s).
Definition set_armed (x : bool) s : sched U :=
  mkSched (s_id s) (s_io s) (eventfd_ s) x (shutting_down_ s) (tasks_ s) (frames s) (next_frame s)
    (awts s) (next_awt s) (tl_sq_full s) (can_grow s).
Definition set_shutting_down (x : bool) s : sched U :=
  mkSched (s_id s) (s_io s) (eventfd_ s) (eventfd_armed_ s) x (tasks_ s) (frames s) (next_frame s)
    (awts s) (next_awt s) (tl_sq_full s) (can_grow s).
Definition set_tasks (x : list nat) s : sched U :=
  mkSched (s_id s) (s_io s) (eventfd_ s) (eventfd_armed_ s) (shutting_down_ s) x (frames s) (next_frame s)
    (awts s) (next_awt s) (tl_sq_full s) (can_grow s).
Definition set_frames (x : gmap nat (frame U)) s : sched U :=
  mkSched (s_id s) (s_io s) (eventfd_ s) (eventfd_armed_ s) (shutting_down_ s) (tasks_ s) x (next_frame s)
    (awts s) (next_awt s) (tl_sq_full s) (can_grow s).
Definition set_next_frame (x : nat) s : sched U :=
  mkSched (s_id s) (s_io s) (eventfd_ s) (eventfd_armed_ s) (shutting_down_ s) (tasks_ s) (frames s) x
    (awts s) (next_awt s) (tl_sq_full s) (can_grow s).
Definition set_awts (x : gmap nat Awaitable) s : sched U :=
  mkSched (s_id s) (s_io s) (eventfd_ s) (eventfd_armed_ s) (shutting_down_ s) (tasks_ s) (frames s) (next_frame s)
    x (next_awt s) (tl_sq_full s) (can_grow s).
Definition set_next_awt (x : nat) s : sched U :=
  mkSched (s_id s) (s_io s) (eventfd_ s) (eventfd_armed_ s) (shutting_down_ s) (tasks_ s) (frames s) (next_frame s)
    (awts s) x (tl_sq_full s) (can_grow s).
Definition set_tl (x : bool) s : sched U :=
  mkSched (s_id s) (s_io s) (eventfd_ s) (eventfd_armed_ s) (shutting_down_ s) (tasks_ s) (frames s) (next_frame s)
    (awts s) (next_awt s) x (can_grow s).
End Setters.

Definition with_boxes {U} (b : gmap nat (mailbox U)) (s : shared U) : shared U :=
  mkShared b (user s) (next_worker_ s) (workers s).
Definition with_user {U} (u : U) (s : shared U) : shared U :=
  mkShared (boxes s) u (next_worker_ s) (workers s).
Definition with_next_worker {U} (n : Z) (s : shared U) : shared U :=
  mkShared (boxes s) (user s) n (workers s).

(** ** Primitive actions *)

(** The largest value an eventfd counter can hold is 2^64 - 2 (eventfd(2)). *)
Definition EFD_MAX : Z := two64 - 2.

Inductive step : Type :=
| Suspended
| Finished (next : option nat).   (* [final_suspend] transfers to [next] *)

Section Machine.
Context {U K : Type}.
#[local] Abbreviation M := (exec (world U K) exn).

Definition on_me (f : sched U -> sched U) : M unit :=
  modify (fun w => mkWorld (f (me w)) (sh w) (kern w)).
Definition on_shared (f : shared U -> shared U) : M unit :=
  modify (fun w => mkWorld (me w) (f (sh w)) (kern w)).

Definition get_frame (h : nat) : M (frame U) := demand UseAfterFree (fun w => frames (me w) !! h).
Definition put_frame (h : nat) (f : frame U) : M unit :=
  on_me (fun s => set_frames (<[h := f]> (frames s)) s).
Definition upd_frame (h : nat) (g : frame U -> frame U) : M unit :=
  f ← get_frame h; put_frame h (g f).
Definition del_frame (h : nat) : M unit :=
  on_me (fun s => set_frames (delete h (frames s)) s).

Definition get_awt (a : nat) : M Awaitable := demand UseAfterFree (fun w => awts (me w) !! a).
Definition put_awt (a : nat) (x : Awaitable) : M unit :=
  on_me (fun s => set_awts (<[a := x]> (awts s)) s).
Definition del_awt (a : nat) : M unit := on_me (fun s => set_awts (delete a (awts s)) s).

(** User computation on the user's state. *)
Definition do_user (g : U -> U * Z) : M Z := fun w =>
  let '(u, z) := g (user (sh w)) in
  (Normal z, mkWorld (me w) (with_user u (sh w)) (kern w)).

(** *** The eventfd and [Scheduler::post] *)

(** [::write(eventfd_, &val, sizeof(val))] on the non-blocking eventfd of
    scheduler [dst]: [false] when the counter would overflow. *)
Definition eventfd_write (dst : nat) (val : Z) : M bool :=
  box ← demand UseAfterFree (fun w => boxes (sh w) !! dst);
  if EFD_MAX <? efd_counter box + val then mret false
  else
    on_shared (fun s => with_boxes (<[dst := mkBox (inbox_ box) (efd_counter box + val)]> (boxes s)) s);;
    mret true.

(** The critical section of [post]. *)
Definition inbox_push (dst : nat) (task : callable U) : M unit :=
  box ← demand UseAfterFree (fun w => boxes (sh w) !! dst);
  on_shared (fun s => with_boxes (<[dst := mkBox (inbox_ box ++ [task]) (efd_counter box)]> (boxes s)) s).

Definition post (dst : nat) (task : callable U) : M unit :=
  inbox_push dst task;;
  ok ← eventfd_write dst 1;
  if negb ok then throw (IOException EventFdWriteFailed) else mret tt.

(** *** Coroutine frames *)

(** Calling a coroutine allocates its frame, suspended at the start. *)
Definition new_task (body : coro U) : M nat := fun w =>
  let h := next_frame (me w) in
  (Normal h, mkWorld (set_next_frame (S h) (set_frames (<[h := new_frame body]> (frames (me w))) (me w)))
               (sh w) (kern w)).

(** Constructing an operation in the frame, [with_timeout] included. *)
Definition new_awaitable (op : operation) (timeout : option Z) : M nat := fun w =>
  let a := next_awt (me w) in
  let x := match timeout with
           | Some ms => with_timeout ms (Awaitable_ctor op)
           | None => Awaitable_ctor op
           end in
  (Normal a, mkWorld (set_next_awt (S a) (set_awts (<[a := x]> (awts (me w))) (me w))) (sh w) (kern w)).

(** [co_await] of an awaitable, up to the decision whether to suspend. *)
Definition co_await_op (h a : nat) (k : Z -> coro U) : M bool :=
  upd_frame h (set_susp (AtOp a k));;
  x ← get_awt a;
  s ← gets me;
  let '(suspended, x', io', tl') := await_suspend a x h (s_io s) (tl_sq_full s) in
  on_me (fun s => set_tl tl' (set_io io' s));;
  put_awt a x';;
  if suspended then mret true
  else upd_frame h (set_susp Running);; mret false.

(** [await_resume], after which the operation goes out of scope. *)
Definition finish_awaitable (a : nat) : M Z :=
  x ← get_awt a;
  del_awt a;;
  mret (await_resume x).

(** [co_await FinalAwaiter]. *)
Definition final_suspend (h : nat) : M step :=
  f ← get_frame h;
  put_frame h (set_susp AtFinal f);;
  mret (Finished (FinalAwaiter_await_suspend f)).

(** Control is back in [h], which awaited the inner task [h']: its result, and
    the temporary [Task] is destroyed. *)
Definition leave_task (h h' : nat) : M (Z + exn) :=
  f ← get_frame h';
  del_frame h';;
  upd_frame h (set_susp Running);;
  mret (Task_await_resume f).

(** [handle.destroy()] of a frame destroys the objects alive in it: the
    awaitable it waits on, or the inner task with everything in it.  Inner
    frames are younger, so the number of frames ever created bounds the
    chain. *)
Fixpoint destroy_chain (fuel : nat) (h : nat) : M unit :=
  match fuel with
  | O => stuck_with OutOfFuel
  | S n =>
      f ← get_frame h;
      del_frame h;;
      match susp f with
      | AtOp a _ => del_awt a
      | AtTask child _ => destroy_chain n child
      | _ => mret tt
      end
  end.

Definition destroy_task (h : nat) : M unit :=
  n ← gets (fun w => next_frame (me w));
  destroy_chain n h.

(** *** [Scheduler::spawn]

    [resume] is [handle.resume()] of the new task. *)
Definition take_pending : M (option exn) := fun w =>
  let '(e, tl) := take_pending_sq_error (tl_sq_full (me w)) in
  (Normal e, mkWorld (set_tl tl (me w)) (sh w) (kern w)).

Definition spawn (h : nat) (resume : M unit) : M unit :=
  io ← gets (fun w => s_io (me w));
  let head := sq_head (sq io) in
  let tail := sq_tail (sq io) in
  if sq_entries (sq io) <=? tail -u32 head then throw (IOException SQFull)
  else
    resume;;
    err ← take_pending;
    match err with
    | Some e => throw e
    | None =>
        s ← gets me;
        if can_grow s (length (tasks_ s))
        then on_me (fun s => set_tasks (tasks_ s ++ [h]) s)
        else throw (IOException BadAllocation)
    end.

(** First resumption of a new task: it runs [go] and must come back. *)
Definition first_resume (h : nat) (go : M step) : M unit :=
  upd_frame h (set_susp Running);;
  s ← go;
  match s with
  | Suspended | Finished None => mret tt
  | Finished (Some _) => stuck_with InvalidResume
  end.

(** [scheduler.spawn(coro())] in user code: the temporary [Task] is destroyed
    when [spawn] throws. *)
Definition spawn_temporary (body : coro U) (go : nat -> M step) : M (option exn) :=
  h ← new_task body;
  r ← try (spawn h (first_resume h (go h)));
  match r with
  | inl _ => mret None
  | inr e => destroy_task h;; mret (Some e)
  end.

(** *** Running a coroutine body

    [run b h] executes [b] in frame [h] until the thread of control that
    entered it suspends or [h] reaches its final suspend point. *)
Fixpoint run (b : coro U) (h : nat) {struct b} : M step :=
  match b with
  | CoReturn v => upd_frame h (return_value v);; final_suspend h
  | CoThrow e => upd_frame h (unhandled_exception e);; final_suspend h
  | CoDo g k => z ← do_user g; run (k z) h
  | CoAwait op timeout k =>
      a ← new_awaitable op timeout;
      suspended ← co_await_op h a k;
      if suspended : bool then mret Suspended
      else r ← finish_awaitable a; run (k r) h
  | CoAwaitTask t k =>
      h' ← new_task t;
      upd_frame h (set_susp (AtTask h' k));;
      upd_frame h' (Task_await_suspend h);;
      upd_frame h' (set_susp Running);;
      s ← run t h';
      match s with
      | Suspended => mret Suspended
      | Finished (Some c) =>
          if decide (c = h) then r ← leave_task h h'; run (k r) h
          else stuck_with InvalidResume
      | Finished None => stuck_with InvalidResume
      end
  | CoSpawn t k =>
      e ← spawn_temporary t (fun h' => run t h');
      run (k e) h
  | CoPost dst f k =>
      r ← try (post dst f);
      run (k (match r with inl _ => None | inr e => Some e end)) h
  end.

(** Symmetric transfer up the chain of continuations.  A continuation is
    older than the frame that transfers to it, so the handle of the first one
    bounds the length of the chain. *)
Fixpoint transfer (fuel : nat) (s : step) : M unit :=
  match s with
  | Suspended | Finished None => mret tt
  | Finished (Some c) =>
      match fuel with
      | O => stuck_with OutOfFuel
      | S n =>
          f ← get_frame c;
          match susp f with
          | AtTask child k =>
              r ← leave_task c child;
              s' ← run (k r) c;
              transfer n s'
          | _ => stuck_with InvalidResume
          end
      end
  end.

(** [handle.resume()]. *)
Definition resume_handle (h : nat) : M unit :=
  f ← get_frame h;
  match susp f with
  | AtInitial body =>
      put_frame h (set_susp Running f);;
      s ← run body h;
      transfer h s
  | AtOp a k =>
      put_frame h (set_susp Running f);;
      r ← finish_awaitable a;
      s ← run (k r) h;
      transfer h s
  | _ => stuck_with InvalidResume
  end.

(** [Task::resume]. *)
Definition Task_resume (handle_ : option nat) : M bool :=
  match handle_ with
  | None => mret false
  | Some h =>
      f ← get_frame h;
      if handle_done f then mret false
      else resume_handle h;; f' ← get_frame h; mret (negb (handle_done f'))
  end.

(** *** Callables

    [FnDispatch job] is the closure of [Runtime::post]. *)
Fixpoint invoke (f : callable U) : M unit :=
  match f with
  | FnReturn => mret tt
  | FnThrow e => throw e
  | FnDo g k => z ← do_user g; invoke (k z)
  | FnSpawn t k =>
      e ← spawn_temporary t (fun h' => run t h');
      invoke (k e)
  | FnPost dst f k =>
      r ← try (post dst f);
      invoke (k (match r with inl _ => None | inr e => Some e end))
  | FnDispatch job =>
      s ← gets sh;
      on_shared (with_next_worker (u64 (next_worker_ s + 1)));;
      match workers s with
      | O => stuck_with DivisionByZero
      | _ =>
          let idx := Z.to_nat (next_worker_ s mod Z.of_nat (workers s)) in
          post (S idx) (job idx)
      end
  end.
End Machine.
