(* ===== verification/Kernel.v ===== *)
(** * Kernel: what the library relies on from io_uring

    [io_uring_enter] is code outside the repository.  The scheduler is written
    against the class [Kernel]; what io_uring_enter(2) and eventfd(2) promise
    is the class [KernelSpec].  A small executable kernel shows that the
    promises can be kept together; it is used to run examples. *)
From stdpp Require Import prelude list.
From Stdlib Require Import ZArith Lia.
From S2P Require Import Prelude Ring Operations.

Definition IORING_ENTER_GETEVENTS : Z := 1.

(** [k_enter k to_submit min_complete flags io counter]: one call of
    [io_uring_enter] on the ring [io], with the scheduler's eventfd at
    [counter]; [None] when the call never returns.  [k_inflight] are the
    entries taken from the ring and not completed yet. *)
Class Kernel (K : Type) : Type := {
  k_enter : K -> Z -> Z -> Z -> IO -> Z -> option (K * IO * Z);
  k_inflight : K -> list io_uring_sqe
}.

(** The number of eventfd reads among some completions. *)
Definition efd_reads (l : list io_uring_cqe) : nat :=
  length (filter (fun c => cqe_user_data c = AddrEventfdBuf) l).

(** The effect of one call: the kernel consumes a prefix of at most
    [to_submit] pending entries, appends completions to the completion queue,
    answers every consumed entry exactly once with the user data it was
    submitted with, and leaves the eventfd at zero when it completes a read of
    it.  The eventfd is created non-blocking, so a read may also complete while
    the counter is zero, with EAGAIN (eventfd(2)), which leaves it at zero too.
    The geometry of the rings does not change. *)
Definition enter_effect (to_submit : Z) (io : IO) (counter : Z) (fl : list io_uring_sqe)
    (io' : IO) (counter' : Z) (fl' : list io_uring_sqe) : Prop :=
  exists (n : nat) (done : list io_uring_cqe),
    Z.of_nat n <= to_submit /\ (n <= length (sq_pending (sq io)))%nat /\
    wf_io io' /\ io_fd io' = io_fd io /\ sq_entries (sq io') = sq_entries (sq io) /\
    sq_pending (sq io') = drop n (sq_pending (sq io)) /\
    (cq_head (cq io') = cq_head (cq io) /\ cq_mask (cq io') = cq_mask (cq io)) /\
    cq_ready (cq io') = cq_ready (cq io) ++ done /\
    (user_data <$> fl) ++ (user_data <$> take n (sq_pending (sq io))) ≡ₚ
      (cqe_user_data <$> done) ++ (user_data <$> fl') /\
    ((efd_reads done = 0%nat /\ counter' = counter) \/
     (efd_reads done = 1%nat /\ counter' = 0)).

Lemma efd_reads_elem l : efd_reads l <> 0%nat -> AddrEventfdBuf ∈ (cqe_user_data <$> l).
Proof.
  unfold efd_reads. intros Hl. destruct (filter _ l) as [|c l'] eqn:E; [done|].
  assert (Hin : c ∈ filter (fun c => cqe_user_data c = AddrEventfdBuf) l) by (rewrite E; by apply elem_of_cons; left).
  apply list_elem_of_filter in Hin as [<- Hin]. by apply list_elem_of_fmap_2.
Qed.

Class KernelSpec (K : Type) `{Kernel K} : Prop := {
  enter_spec : forall k n m f io c k' io' c',
    wf_io io -> 0 <= n -> 0 <= c -> k_enter k n m f io c = Some (k', io', c') ->
    enter_effect n io c (k_inflight k) io' c' (k_inflight k');
  (** a call that asks for no completion does not block *)
  enter_nonblocking : forall k n f io c,
    wf_io io -> 0 <= n -> 0 <= c -> is_Some (k_enter k n 0 f io c);
  (** nor does one while a completion is ready, or while an eventfd read is
      outstanding, the whole queue is submitted and the counter is positive *)
  enter_wakes : forall k f io c,
    wf_io io -> 0 <= c ->
    (cq_ready (cq io) <> [] \/
     0 < c /\ AddrEventfdBuf ∈ (user_data <$> k_inflight k) ++ (user_data <$> sq_pending (sq io))) ->
    is_Some (k_enter k (sq_count (sq io)) 1 f io c)
}.

(** ** An executable kernel *)

(** Append a completion; the caller checks that there is room. *)
Definition cq_push (c : io_uring_cqe) (q : Cq) : Cq :=
  mkCq (cq_head q) (cq_tail q +u32 1) (cq_mask q) (cq_entries q)
    (<[Z.to_nat (Z.land (cq_tail q) (cq_mask q)) := c]> (cq_cqes q)).

Section SimpleKernel.
(** The result of an entry other than the eventfd read, [None] while it has
    not completed. *)
Context (complete : io_uring_sqe -> option Z).

(** Offer every in-flight entry the chance to complete, in order. *)
Fixpoint complete_all (l : list io_uring_sqe) (q : Cq) (counter : Z)
    : list io_uring_sqe * Cq * Z :=
  match l with
  | [] => ([], q, counter)
  | e :: l' =>
      let keep := let '(r, q', c') := complete_all l' q counter in (e :: r, q', c') in
      if cq_count q <? cq_entries q then
        if decide (user_data e = AddrEventfdBuf) then
          if 0 <? counter then complete_all l' (cq_push (mkCqe (user_data e) 8 0) q) 0 else keep
        else match complete e with
             | Some r => complete_all l' (cq_push (mkCqe (user_data e) r 0) q) counter
             | None => keep
             end
      else keep
  end.

Definition simple_enter (k : list io_uring_sqe) (to_submit min_complete flags : Z) (io : IO) (counter : Z)
    : option (list io_uring_sqe * IO * Z) :=
  let n := Nat.min (Z.to_nat to_submit) (length (sq_pending (sq io))) in
  let taken := take n (sq_pending (sq io)) in
  let sq' := set_sq_head (sq_head (sq io) +u32 Z.of_nat n) (sq io) in
  let '(rest, cq', counter') := complete_all (k ++ taken) (cq io) counter in
  if (0 <? min_complete) && (cq_count cq' =? 0) then None
  else Some (rest, mkIO (io_fd io) sq' cq', counter').

Definition simple_kernel : Kernel (list io_uring_sqe) :=
  {| k_enter := simple_enter; k_inflight := id |}.

Lemma cq_push_spec c q :
  wf_cq q -> cq_count q < cq_entries q ->
  wf_cq (cq_push c q) /\ cq_ready (cq_push c q) = cq_ready q ++ [c] /\
  cq_count (cq_push c q) = cq_count q + 1.
Proof.
  intros Hwf Hroom. pose proof Hwf as [[k [Hk He]] Hm Hh Ht Hb Hl].
  pose proof (cq_count_nonneg q) as H0.
  assert (Hc : cq_count (cq_push c q) = cq_count q + 1).
  { unfold cq_count, cq_push; cbn. apply u32_distance_add; [lia|].
    assert (2 ^ k <= 2 ^ 31) by (apply Z.pow_le_mono_r; lia).
    change (2 ^ 31) with 2147483648 in *. unfold cq_count in *. word_lia. }
  assert (Hslot : slot (cq_head q) (cq_mask q) (Z.to_nat (cq_count q)) =
                  Z.land (cq_tail q) (cq_mask q)).
  { unfold slot. rewrite Z2Nat.id by done. f_equal. unfold cq_count, u32.
    rewrite Zplus_mod_idemp_r. rewrite <- (u32_id _ Ht) at 2. unfold u32. f_equal. lia. }
  split; [|split; [|done]].
  - split; cbn; [eauto|done|done|apply u32_range|lia|by rewrite length_insert].
  - unfold cq_ready. rewrite Hc, Z2Nat.inj_add by lia. change (Z.to_nat 1) with 1%nat.
    rewrite Nat.add_1_r, fmap_seq_snoc. f_equal.
    + apply fmap_seq_ext. intros i Hi. unfold cqe_at; cbn.
      rewrite list_lookup_insert_ne; [done|]. rewrite <- Hslot. intros Heq.
      pose proof (slot_range (cq_head q) (cq_mask q) i k ltac:(lia) ltac:(lia)).
      pose proof (slot_range (cq_head q) (cq_mask q) (Z.to_nat (cq_count q)) k ltac:(lia) ltac:(lia)).
      assert (slot (cq_head q) (cq_mask q) (Z.to_nat (cq_count q)) = slot (cq_head q) (cq_mask q) i) as E by lia.
      apply (slot_inj _ _ _ _ k) in E; lia.
    + f_equal. unfold cqe_at; cbn. rewrite <- Hslot, list_lookup_insert_eq; [done|].
      pose proof (slot_range (cq_head q) (cq_mask q) (Z.to_nat (cq_count q)) k ltac:(lia) ltac:(lia)). lia.
Qed.

Lemma efd_reads_cons c l :
  efd_reads (c :: l) = ((if decide (cqe_user_data c = AddrEventfdBuf) then 1 else 0) + efd_reads l)%nat.
Proof. unfold efd_reads. rewrite filter_cons. by case_decide. Qed.

(** What the completion pass does to the queue [q], starting at [counter]. *)
Definition pass_effect (l : list io_uring_sqe) (q : Cq) (counter : Z)
    (r : list io_uring_sqe * Cq * Z) : Prop :=
  let '(rest, q', counter') := r in
  exists done,
    wf_cq q' /\ (cq_head q' = cq_head q /\ cq_mask q' = cq_mask q) /\ cq_ready q' = cq_ready q ++ done /\
    user_data <$> l ≡ₚ (cqe_user_data <$> done) ++ (user_data <$> rest) /\
    ((efd_reads done = 0%nat /\ counter' = counter) \/
     (efd_reads done = 1%nat /\ 0 < counter /\ counter' = 0)) /\
    (0 < counter -> AddrEventfdBuf ∈ user_data <$> l -> cq_ready q' <> []).

Lemma pass_keep e l q counter r :
  (0 < counter -> user_data e = AddrEventfdBuf -> 0 < cq_count q) ->
  pass_effect l q counter r ->
  pass_effect (e :: l) q counter (let '(rest, q', c') := r in (e :: rest, q', c')).
Proof.
  intros Hwake. destruct r as [[rest q'] c']. intros (done & Hwf & [Hh Hm] & Hr & Hp & Hc & Hw).
  exists done. split_and!; try done.
  - cbn. rewrite Hp. by rewrite Permutation_middle.
  - intros Hpos Hin. cbn in Hin. apply elem_of_cons in Hin as [Heq|Hin]; [|by apply Hw].
    specialize (Hwake Hpos (eq_sym Heq)). rewrite Hr. intros Hnil.
    apply app_eq_nil in Hnil as [Hnil _]. pose proof (length_cq_ready q) as Hlen.
    rewrite Hnil in Hlen. cbn in Hlen. lia.
Qed.

Lemma pass_push e res l q counter counter' r :
  wf_cq q -> cq_count q < cq_entries q ->
  (user_data e = AddrEventfdBuf /\ 0 < counter /\ counter' = 0) \/
  (user_data e <> AddrEventfdBuf /\ counter' = counter) ->
  pass_effect l (cq_push (mkCqe (user_data e) res 0) q) counter' r ->
  pass_effect (e :: l) q counter r.
Proof.
  intros Hq Hroom Hcase. destruct r as [[rest q'] c''].
  destruct (cq_push_spec (mkCqe (user_data e) res 0) q Hq Hroom) as (_ & Hready & _).
  intros (done & Hwf & [Hh Hm] & Hr & Hp & Hc & Hw). rewrite Hready, <- app_assoc in Hr.
  exists (mkCqe (user_data e) res 0 :: done). split_and!; try done.
  - cbn. by rewrite Hp.
  - rewrite efd_reads_cons. cbn [cqe_user_data].
    destruct Hcase as [(He & Hpos & ->)|(He & ->)].
    + rewrite decide_True by done. right. destruct Hc as [[-> ->]|[_ [? _]]]; [done|lia].
    + by rewrite decide_False.
  - intros _ _. rewrite Hr. by destruct (cq_ready q).
Qed.

Lemma complete_all_spec l q counter :
  wf_cq q -> 0 <= counter -> pass_effect l q counter (complete_all l q counter).
Proof.
  revert q counter. induction l as [|e l IH]; intros q counter Hq Hc; cbn [complete_all].
  { exists []. rewrite app_nil_r. split_and!; try done. by left. intros _ H%elem_of_nil. done. }
  pose proof (wf_cq_pow2 _ Hq) as [k [Hk Hent]].
  assert (0 < cq_entries q) by (rewrite Hent; apply Z.pow_pos_nonneg; lia).
  destruct (cq_count q <? cq_entries q) eqn:Hroom.
  - apply Z.ltb_lt in Hroom.
    pose proof (fun c => proj1 (cq_push_spec c q Hq Hroom)) as Hpush.
    case_decide as He.
    + destruct (0 <? counter) eqn:Hpos.
      * apply Z.ltb_lt in Hpos. eapply pass_push; eauto. apply IH; [apply Hpush|lia].
      * apply Z.ltb_ge in Hpos. apply pass_keep; [lia|by apply IH].
    + destruct (complete e) as [res|].
      * eapply pass_push; eauto.
      * apply pass_keep; [done|by apply IH].
  - apply Z.ltb_ge in Hroom. apply pass_keep; [lia|by apply IH].
Qed.

Lemma simple_enter_effect k n m f io c k' io' c' :
  wf_io io -> 0 <= n -> 0 <= c -> simple_enter k n m f io c = Some (k', io', c') ->
  enter_effect n io c k io' c' k'.
Proof.
  intros [Hsq Hcq] Hn Hc. unfold simple_enter.
  set (j := Nat.min (Z.to_nat n) (length (sq_pending (sq io)))).
  pose proof (complete_all_spec (k ++ take j (sq_pending (sq io))) (cq io) c Hcq Hc) as Hp.
  destruct (complete_all _ _ _) as [[rest q'] c'']. case_match; intros [= <- <- <-].
  destruct Hp as (done & Hwf & [Hh Hm] & Hr & Hperm & Hefd & _).
  pose proof (length_sq_pending (sq io)) as Hlen.
  assert (Hj : Z.of_nat j <= sq_count (sq io)) by lia.
  exists j, done. cbn [sq cq io_fd]. rewrite fmap_app in Hperm.
  split_and!; try done; try lia.
  - split; [by apply consume_wf|done].
  - by apply consume_pending.
Qed.

Lemma simple_kernel_spec : @KernelSpec _ simple_kernel.
Proof.
  split.
  - intros *. apply simple_enter_effect.
  - intros k n f io c Hio Hn Hc. cbn. unfold simple_enter.
    destruct (complete_all _ _ _) as [[rest q'] c']. cbn. eauto.
  - intros k f io c [Hsq Hcq] Hc Hwake. cbn. unfold simple_enter.
    pose proof (length_sq_pending (sq io)) as Hlen.
    rewrite Nat.min_r, firstn_all by lia.
    pose proof (complete_all_spec (k ++ sq_pending (sq io)) (cq io) c Hcq Hc) as Hp.
    destruct (complete_all _ _ _) as [[rest q'] c']. destruct Hp as (done & _ & _ & Hr & _ & _ & Hw).
    assert (Hne : cq_ready q' <> []).
    { destruct Hwake as [Hne|[Hpos Hin]].
      - rewrite Hr. by destruct (cq_ready (cq io)).
      - apply Hw; [done|]. rewrite fmap_app. exact Hin. }
    pose proof (length_cq_ready q') as Hlen'. destruct (cq_ready q'); [done|].
    rewrite (proj2 (Z.eqb_neq _ _)) by (cbn in Hlen'; lia). rewrite andb_false_r. eauto.
Qed.
End SimpleKernel.
