(* ===== verification/Scheduler.v ===== *)
(** * Scheduler: the event loop

    Models src/scheduler.cpp and include/slim/common/io/scheduler.h.in
    ([spawn] and [post] are in Machine, because user code calls them).  The
    kernel is the class parameter of Kernel; one definition per member
    function, composed as in the source. *)
From stdpp Require Import prelude list gmap.
From Stdlib Require Import ZArith Lia.
From S2P Require Import Prelude ErrorCodes Ring Operations Awaitable Task Machine Kernel.

Definition sizeof_eventfd_buf : Z := 8.

Definition EFD_NONBLOCK : Z := 2048.
Definition EFD_CLOEXEC : Z := 524288.
Definition EFD_FLAGS : Z := Z.lor EFD_NONBLOCK EFD_CLOEXEC.

(** [Scheduler::Scheduler]: [sys_eventfd initval flags] is what [::eventfd]
    returns, a descriptor or a negative number.  The flag EFD_NONBLOCK is why
    [eventfd_write] fails instead of blocking on a saturated counter, and why a
    read of the eventfd may complete while its counter is zero (Kernel). *)
Definition Scheduler_ctor {U} (id : nat) (io : IO) (sys_eventfd : Z -> Z -> Z) (grow : nat -> bool)
    : outcome exn (sched U * mailbox U) :=
  let efd := sys_eventfd 0 EFD_FLAGS in
  if efd <? 0 then Throw (IOException EventFdCreateFailed)
  else Normal (mkSched id io efd false false [] ∅ 0 ∅ 0 false grow, mkBox [] 0).

Section Scheduler.
Context {U K : Type} `{Kernel K}.
#[local] Abbreviation M := (exec (world U K) exn).

(** [inbox_.push(std::move(task))] and the poke of the eventfd, whose result
    is ignored. *)
Definition requeue (task : callable U) : M unit :=
  id ← gets (fun w => s_id (me w));
  inbox_push id task;;
  eventfd_write id 1;;
  mret tt.

(** One turn of the [while (!local.empty())] loop. *)
Definition drain_one (task : callable U) : M unit :=
  r ← try (invoke task);
  match r with
  | inl _ => mret tt
  | inr (IOException status) =>
      if decide (status = SQFull) then requeue task else mret tt
  | inr e => throw e
  end.

Fixpoint drain_local (local : list (callable U)) : M unit :=
  match local with
  | [] => mret tt
  | task :: rest => drain_one task;; drain_local rest
  end.

(** The swap under the lock. *)
Definition take_inbox : M (list (callable U)) :=
  id ← gets (fun w => s_id (me w));
  box ← demand UseAfterFree (fun w => boxes (sh w) !! id);
  on_shared (fun s => with_boxes (<[id := mkBox [] (efd_counter box)]> (boxes s)) s);;
  mret (inbox_ box).

Definition drain_inbox : M unit :=
  local ← take_inbox;
  drain_local local.

(** The entry that reads the eventfd into [eventfd_buf_]. *)
Definition eventfd_read_sqe (efd : Z) (sqe : io_uring_sqe) : io_uring_sqe :=
  let sqe := memset_sqe sqe in
  let sqe := set_opcode IORING_OP_READ sqe in
  let sqe := set_fd efd sqe in
  let sqe := set_addr AddrEventfdBuf sqe in
  let sqe := set_len sizeof_eventfd_buf sqe in
  let sqe := set_off (Num 0) sqe in
  set_user_data AddrEventfdBuf sqe.

(** [arm_eventfd_read]: no capacity check. *)
Definition arm_io (efd : Z) (io : IO) : IO :=
  let tail := sq_tail (sq io) in
  let idx := Z.land tail (sq_mask (sq io)) in
  let q := set_sq_array idx idx (sq io) in
  let q := set_sqe idx (eventfd_read_sqe efd (default zero_sqe (sq_sqes q !! Z.to_nat idx))) q in
  with_sq io (set_sq_tail (tail +u32 1) q).

Definition arm_eventfd_read : M unit :=
  on_me (fun s => set_armed true (set_io (arm_io (eventfd_ s) (s_io s)) s)).

(** [syscall(SYS_io_uring_enter, ...)], its result ignored. *)
Definition enter (to_submit min_complete flags : Z) : M unit := fun w =>
  match boxes (sh w) !! s_id (me w) with
  | None => (Stuck UseAfterFree, w)
  | Some box =>
      match k_enter (kern w) to_submit min_complete flags (s_io (me w)) (efd_counter box) with
      | None => (Stuck KernelBlocks, w)
      | Some (k', io', c') =>
          (Normal tt, mkWorld (set_io io' (me w))
             (with_boxes (<[s_id (me w) := mkBox (inbox_ box) c']> (boxes (sh w))) (sh w)) k')
      end
  end.

(** [Awaitable::submit], which nothing calls: [drain] submits for everybody. *)
Definition submit : M unit :=
  io ← gets (fun w => s_io (me w));
  enter (submit_pending io) 0 0.

(** The [else] branch of the completion loop: [user_data] is cast to an
    [Awaitable*], which is dereferenced unless null. *)
Definition resume_awaitable (p : word64) (r : Z) : M unit :=
  match p with
  | Num 0 => mret tt
  | AddrAwaitable a =>
      awt ← get_awt a;
      put_awt a (set_result r awt);;
      match handle awt with
      | Some h => resume_handle h
      | None => stuck_with InvalidResume
      end;;
      take_pending;;
      mret tt
  | _ => stuck_with UseAfterFree
  end.

Definition handle_cqe (cqe : io_uring_cqe) : M unit :=
  if decide (cqe_user_data cqe = AddrEventfdBuf) then
    on_me (set_armed false);;
    drain_inbox
  else resume_awaitable (cqe_user_data cqe) (res cqe).

(** [while (current != tail)]. *)
Fixpoint drain_loop (fuel : nat) (current tail mask : Z) : M unit :=
  if current =? tail then mret tt
  else match fuel with
       | O => stuck_with OutOfFuel
       | S n =>
           cqe ← demand OutOfRange (fun w => cq_cqes (cq (s_io (me w))) !! Z.to_nat (Z.land current mask));
           handle_cqe cqe;;
           let current := current +u32 1 in
           on_me (fun s => set_io (with_cq (s_io s) (set_cq_head current (cq (s_io s)))) s);;
           drain_loop n current tail mask
       end.

(** The part of [drain] after the system call. *)
Definition drain_completions : M unit :=
  io ← gets (fun w => s_io (me w));
  let head := cq_head (cq io) in
  let tail := cq_tail (cq io) in
  drain_loop (Z.to_nat (tail -u32 head)) head tail (cq_mask (cq io)).

Definition drain : M unit :=
  armed ← gets (fun w => eventfd_armed_ (me w));
  (if negb armed then arm_eventfd_read else mret tt);;
  s ← gets me;
  let sq_head := sq_head (sq (s_io s)) in
  let sq_tail := sq_tail (sq (s_io s)) in
  let sq_pending := sq_tail -u32 sq_head in
  let min_complete := if shutting_down_ s then 0 else 1 in
  enter sq_pending min_complete IORING_ENTER_GETEVENTS;;
  drain_completions.

(** [std::remove_if] with [t.done()]: the kept and the removed tasks. *)
Fixpoint partition_done (ts : list nat) : M (list nat * list nat) :=
  match ts with
  | [] => mret ([], [])
  | h :: rest =>
      f ← get_frame h;
      '(kept, gone) ← partition_done rest;
      if handle_done f then mret (kept, h :: gone) else mret (h :: kept, gone)
  end.

Fixpoint destroy_all (ts : list nat) : M unit :=
  match ts with
  | [] => mret tt
  | h :: rest => destroy_task h;; destroy_all rest
  end.

Definition reap : M unit :=
  ts ← gets (fun w => tasks_ (me w));
  '(kept, gone) ← partition_done ts;
  on_me (set_tasks kept);;
  destroy_all gone.

(** The body of the [std::stop_callback] of [run]. *)
Definition wake_on_stop : M unit :=
  id ← gets (fun w => s_id (me w));
  eventfd_write id 1;;
  mret tt.

(** [Scheduler::run]: [stop i] is what the [i]-th test of the token sees;
    [fuel] bounds the number of turns. *)
Fixpoint run_loop (fuel : nat) (stop : nat -> bool) (i : nat) : M unit :=
  if stop i then mret tt
  else match fuel with
       | O => stuck_with OutOfFuel
       | S n => drain;; reap;; run_loop n stop (S i)
       end.

(** The loop of [shutdown]. *)
Fixpoint shutdown_loop (fuel : nat) : M unit :=
  ts ← gets (fun w => tasks_ (me w));
  match ts with
  | [] => mret tt
  | _ => match fuel with
         | O => stuck_with OutOfFuel
         | S n => drain;; reap;; shutdown_loop n
         end
  end.

Definition shutdown (fuel : nat) : M unit :=
  on_me (set_shutting_down true);;
  shutdown_loop fuel.

(** [~Scheduler]; the descriptors it closes. *)
Definition Scheduler_dtor (fuel : nat) : M (list Z) :=
  ts ← gets (fun w => tasks_ (me w));
  match ts with [] => mret tt | _ => shutdown fuel end;;
  efd ← gets (fun w => eventfd_ (me w));
  mret (if 0 <=? efd then [efd] else []).
End Scheduler.
