(* ===== verification/Heap.v ===== *)
(** * Heap: the ownership invariant between frames, awaitables and the ring

    Every completion the kernel will ever deliver carries the address of an
    awaitable.  This file states when such an address is safe to follow: the
    outstanding user data, the awaitables alive and the suspended frames
    correspond one to one, and the frames form chains through their
    continuations.  One lemma per transition of the coroutine machine. *)
From stdpp Require Import prelude list gmap.
From Stdlib Require Import ZArith Lia.
From S2P Require Import Prelude ErrorCodes Ring Operations Awaitable Task.

(** The awaitables named by some user data. *)
Definition as_awaitable (p : word64) : option nat :=
  match p with AddrAwaitable a => Some a | _ => None end.

Section Heap.
Context {U : Type}.
Implicit Types (F : gmap nat (frame U)) (A : gmap nat Awaitable) (out : list word64).

(** Frame [h] is suspended on awaitable [a] (on task [c]). *)
Definition waits_op F (h a : nat) : Prop := exists f k, F !! h = Some f /\ susp f = AtOp a k.
Definition waits_task F (h c : nat) : Prop := exists f k, F !! h = Some f /\ susp f = AtTask c k.
Definition continues F (c h : nat) : Prop :=
  exists f, F !! c = Some f /\ continuation (promise f) = Some h.

Record heap_ok out F (nf : nat) A (na : nat) (ts : list nat) : Prop := {
  (** user data is null, the eventfd sentinel, or an awaitable *)
  hk_kinds : forall p, p ∈ out -> p = Num 0 \/ p = AddrEventfdBuf \/ exists a, p = AddrAwaitable a;
  (** no awaitable is outstanding twice *)
  hk_once : NoDup (omap as_awaitable out);
  (** exactly the awaitables some frame is suspended on are outstanding *)
  hk_live : forall a, AddrAwaitable a ∈ out <-> exists h, waits_op F h a;
  (** and each of them is alive and knows its frame *)
  hk_handle : forall h a, waits_op F h a -> exists x, A !! a = Some x /\ handle x = Some h;
  hk_awt_old : forall a, is_Some (A !! a) -> (a < na)%nat;
  hk_frame_old : forall h, is_Some (F !! h) -> (h < nf)%nat;
  (** waiting on a task and being its continuation are the same thing *)
  hk_chain : forall h c, waits_task F h c <-> continues F c h;
  hk_order : forall h c, continues F c h -> (h < c)%nat;
  (** the scheduler's tasks are live top-level frames *)
  hk_tasks : NoDup ts;
  hk_task_frames : forall h, h ∈ ts -> is_Some (F !! h) /\ forall c, ~ continues F h c
}.

(** ** Case analysis on lookups *)

Lemma waits_op_insert F h f j a :
  waits_op (<[h := f]> F) j a <->
  (j = h /\ exists k, susp f = AtOp a k) \/ (j <> h /\ waits_op F j a).
Proof.
  unfold waits_op. rewrite lookup_insert. case_decide; naive_solver.
Qed.

Lemma waits_task_insert F h f j c :
  waits_task (<[h := f]> F) j c <->
  (j = h /\ exists k, susp f = AtTask c k) \/ (j <> h /\ waits_task F j c).
Proof.
  unfold waits_task. rewrite lookup_insert. case_decide; naive_solver.
Qed.

Lemma continues_insert F h f c j :
  continues (<[h := f]> F) c j <->
  (c = h /\ continuation (promise f) = Some j) \/ (c <> h /\ continues F c j).
Proof.
  unfold continues. rewrite lookup_insert. case_decide; naive_solver.
Qed.

Lemma waits_op_delete F h j a : waits_op (delete h F) j a <-> j <> h /\ waits_op F j a.
Proof. unfold waits_op. rewrite lookup_delete. case_decide; naive_solver. Qed.
Lemma waits_task_delete F h j c : waits_task (delete h F) j c <-> j <> h /\ waits_task F j c.
Proof. unfold waits_task. rewrite lookup_delete. case_decide; naive_solver. Qed.
Lemma continues_delete F h c j : continues (delete h F) c j <-> c <> h /\ continues F c j.
Proof. unfold continues. rewrite lookup_delete. case_decide; naive_solver. Qed.

Lemma is_Some_insert {V} (m : gmap nat V) i x j :
  is_Some (<[i := x]> m !! j) <-> j = i \/ is_Some (m !! j).
Proof. rewrite lookup_insert. case_decide; naive_solver. Qed.
Lemma is_Some_delete {V} (m : gmap nat V) i j :
  is_Some (delete i m !! j) <-> j <> i /\ is_Some (m !! j).
Proof. rewrite lookup_delete. case_decide; [|naive_solver]. split; [intros []|]; naive_solver. Qed.

(** ** Transitions *)

(** A frame may change its promise's value or exception, or move between
    points that involve no awaitable and no task. *)
Definition quiet (s : suspension U) : Prop :=
  match s with AtOp _ _ | AtTask _ _ => False | _ => True end.

(** Two heaps whose frames wait and continue alike. *)
Record same_shape F F' : Prop := {
  ss_op : forall j a, waits_op F' j a <-> waits_op F j a;
  ss_task : forall j c, waits_task F' j c <-> waits_task F j c;
  ss_cont : forall c j, continues F' c j <-> continues F c j
}.

Lemma heap_same_shape out F F' nf nf' A na ts :
  same_shape F F' -> (forall j, is_Some (F' !! j) -> (j < nf')%nat) ->
  (forall j, j ∈ ts -> is_Some (F !! j) -> is_Some (F' !! j)) ->
  heap_ok out F nf A na ts -> heap_ok out F' nf' A na ts.
Proof.
  intros [Ho Ht Hc] Hold Hts []. split; try done.
  - intros a. rewrite hk_live0. by setoid_rewrite Ho.
  - intros j a Hj. apply hk_handle0. by apply Ho.
  - intros j c. rewrite Ht, Hc. apply hk_chain0.
  - intros j c Hj. apply hk_order0. by apply Hc.
  - intros j Hj. destruct (hk_task_frames0 j Hj) as [Hs Hn]. split; [by apply Hts|].
    intros c. rewrite Hc. apply Hn.
Qed.

(** A quiet frame waits for nothing. *)
Lemma quiet_waits F h f j a :
  F !! h = Some f -> quiet (susp f) ->
  (waits_op F j a -> j <> h) /\ (waits_task F j a -> j <> h).
Proof.
  intros Hf Hq. split; intros (g & k & Hg & Hs) ->; simplify_eq; by rewrite Hs in Hq.
Qed.

Lemma same_shape_quiet F h f f' :
  F !! h = Some f -> quiet (susp f) -> quiet (susp f') ->
  continuation (promise f') = continuation (promise f) -> same_shape F (<[h := f']> F).
Proof.
  intros Hf Hq Hq' Hc. split; intros j a.
  - rewrite waits_op_insert. pose proof (quiet_waits F h f j a Hf Hq) as [Hn _]. split; [|tauto].
    intros [[-> [k E]]|[]]; [by rewrite E in Hq'|done].
  - rewrite waits_task_insert. pose proof (quiet_waits F h f j a Hf Hq) as [_ Hn]. split; [|tauto].
    intros [[-> [k E]]|[]]; [by rewrite E in Hq'|done].
  - rewrite continues_insert, Hc. unfold continues. destruct (decide (j = h)) as [->|]; naive_solver.
Qed.

Lemma same_shape_new F h f :
  F !! h = None -> quiet (susp f) -> continuation (promise f) = None -> same_shape F (<[h := f]> F).
Proof.
  intros Hf Hq Hc. split; intros j a.
  - rewrite waits_op_insert. unfold waits_op. split; [|destruct (decide (j = h)); naive_solver].
    intros [[-> [k E]]|[]]; [by rewrite E in Hq|done].
  - rewrite waits_task_insert. unfold waits_task. split; [|destruct (decide (j = h)); naive_solver].
    intros [[-> [k E]]|[]]; [by rewrite E in Hq|done].
  - rewrite continues_insert, Hc. unfold continues. destruct (decide (j = h)) as [->|]; naive_solver.
Qed.

(** A frame on which nothing waits and that waits for nothing can go. *)
Lemma same_shape_delete F h f :
  F !! h = Some f -> quiet (susp f) -> continuation (promise f) = None -> same_shape F (delete h F).
Proof.
  intros Hf Hq Hc. split; intros j a.
  - rewrite waits_op_delete. pose proof (quiet_waits F h f j a Hf Hq) as [Hn _]. tauto.
  - rewrite waits_task_delete. pose proof (quiet_waits F h f j a Hf Hq) as [_ Hn]. tauto.
  - rewrite continues_delete. unfold continues. split; [naive_solver|].
    intros (g & Hg & E). split; [|eauto]. intros ->. congruence.
Qed.

Lemma heap_quiet out F nf A na ts h f f' :
  heap_ok out F nf A na ts -> F !! h = Some f -> quiet (susp f) -> quiet (susp f') ->
  continuation (promise f') = continuation (promise f) ->
  heap_ok out (<[h := f']> F) nf A na ts.
Proof.
  intros Hk Hf Hq Hq' Hc. eapply heap_same_shape; [by eapply same_shape_quiet| | |exact Hk].
  - intros j Hj. apply (hk_frame_old _ _ _ _ _ _ Hk). apply is_Some_insert in Hj as [->|]; eauto.
  - intros j _ Hj. apply is_Some_insert. by right.
Qed.

Lemma heap_perm out out' F nf A na ts :
  out ≡ₚ out' -> heap_ok out F nf A na ts -> heap_ok out' F nf A na ts.
Proof.
  intros Hp []. split; try done.
  - intros p Hin. apply hk_kinds0. by rewrite Hp.
  - eapply NoDup_Permutation_proper; [|exact hk_once0]. by rewrite Hp.
  - intros a. rewrite <- Hp. apply hk_live0.
Qed.

(** Entries that name no awaitable come and go freely. *)
Lemma heap_out_add out p F nf A na ts :
  p = Num 0 \/ p = AddrEventfdBuf ->
  heap_ok out F nf A na ts <-> heap_ok (p :: out) F nf A na ts.
Proof.
  intros Hp.
  assert (Hom : omap as_awaitable (p :: out) = omap as_awaitable out) by (by destruct Hp; subst).
  assert (Hin : forall a, AddrAwaitable a ∈ p :: out <-> AddrAwaitable a ∈ out).
  { intros a. rewrite elem_of_cons. destruct Hp; subst; naive_solver. }
  split; intros []; split; try done.
  - intros q Hq. apply elem_of_cons in Hq as [->|Hq]; [|by apply hk_kinds0].
    destruct Hp; auto.
  - by rewrite Hom.
  - intros a. rewrite Hin. apply hk_live0.
  - intros q Hq. apply hk_kinds0. by apply elem_of_cons; right.
  - by rewrite <- Hom.
  - intros a. rewrite <- Hin. apply hk_live0.
Qed.

Lemma heap_counters out F nf nf' A na na' ts :
  (nf <= nf')%nat -> (na <= na')%nat -> heap_ok out F nf A na ts -> heap_ok out F nf' A na' ts.
Proof.
  intros Hf Ha []. split; try done.
  - intros a H%hk_awt_old0. lia.
  - intros h H%hk_frame_old0. lia.
Qed.

Lemma heap_fresh_frame out F nf A na ts : heap_ok out F nf A na ts -> F !! nf = None.
Proof.
  intros []. destruct (F !! nf) eqn:E; [|done].
  assert (nf < nf)%nat by (apply hk_frame_old0; by rewrite E). lia.
Qed.

Lemma heap_fresh_awt out F nf A na ts : heap_ok out F nf A na ts -> A !! na = None.
Proof.
  intros []. destruct (A !! na) eqn:E; [|done].
  assert (na < na)%nat by (apply hk_awt_old0; by rewrite E). lia.
Qed.

(** Calling a coroutine. *)
Lemma heap_new_task out F nf A na ts b :
  heap_ok out F nf A na ts -> heap_ok out (<[nf := new_frame b]> F) (S nf) A na ts.
Proof.
  intros Hk. pose proof (heap_fresh_frame _ _ _ _ _ _ Hk) as Hnone.
  eapply heap_same_shape; [by apply same_shape_new| | |exact Hk].
  - intros j Hj. apply is_Some_insert in Hj as [->|Hj]; [lia|].
    apply (hk_frame_old _ _ _ _ _ _ Hk) in Hj. lia.
  - intros j _ Hj. apply is_Some_insert. by right.
Qed.

(** Destroying a frame that is not a scheduled task. *)
Lemma heap_delete out F nf A na ts h f :
  heap_ok out F nf A na ts -> F !! h = Some f -> quiet (susp f) ->
  continuation (promise f) = None -> h ∉ ts -> heap_ok out (delete h F) nf A na ts.
Proof.
  intros Hk Hf Hq Hc Hts. eapply heap_same_shape; [by eapply same_shape_delete| | |exact Hk].
  - intros j Hj. apply is_Some_delete in Hj as [_ Hj]. by apply (hk_frame_old _ _ _ _ _ _ Hk).
  - intros j Hin Hj. apply is_Some_delete. split; [|done]. by intros ->.
Qed.

(** The task list. *)
Lemma heap_push_task out F nf A na ts h f :
  heap_ok out F nf A na ts -> F !! h = Some f -> continuation (promise f) = None -> h ∉ ts ->
  heap_ok out F nf A na (ts ++ [h]).
Proof.
  intros [] Hf Hc Hts. split; try done.
  - apply NoDup_app. split_and!; [done| |apply NoDup_singleton].
    intros x Hx Hx'%list_elem_of_singleton. by subst.
  - intros j Hj. apply elem_of_app in Hj as [Hj|Hj%list_elem_of_singleton]; [by apply hk_task_frames0|].
    subst. split; [by eexists|]. intros c (g & Hg & E). congruence.
Qed.

Lemma heap_fewer_tasks out F nf A na ts ts' :
  heap_ok out F nf A na ts -> NoDup ts' -> ts' ⊆ ts -> heap_ok out F nf A na ts'.
Proof. intros [] Hnd Hsub. split; try done. intros j Hj. by apply hk_task_frames0, Hsub. Qed.

(** Rewriting one frame without touching the chain of tasks: what is left to
    show is about operations only. *)
Definition no_task (s : suspension U) : Prop :=
  match s with AtTask _ _ => False | _ => True end.

Lemma chain_insert F h f f' :
  F !! h = Some f -> no_task (susp f) -> no_task (susp f') ->
  continuation (promise f') = continuation (promise f) ->
  (forall j c, waits_task (<[h := f']> F) j c <-> waits_task F j c) /\
  (forall c j, continues (<[h := f']> F) c j <-> continues F c j).
Proof.
  intros Hf Hn Hn' Hc. split; intros j c.
  - rewrite waits_task_insert. split.
    + intros [[-> [k E]]|[_ H]]; [by rewrite E in Hn'|done].
    + intros H. right. split; [|done]. intros ->. destruct H as (g & k & Hg & E).
      simplify_eq. by rewrite E in Hn.
  - rewrite continues_insert, Hc. unfold continues. destruct (decide (j = h)) as [->|]; naive_solver.
Qed.

Lemma heap_change_ops out out' F h f f' nf A A' na na' ts :
  heap_ok out F nf A na ts -> F !! h = Some f -> no_task (susp f) -> no_task (susp f') ->
  continuation (promise f') = continuation (promise f) ->
  let F' := <[h := f']> F in
  (forall p, p ∈ out' -> p = Num 0 \/ p = AddrEventfdBuf \/ exists a, p = AddrAwaitable a) ->
  NoDup (omap as_awaitable out') ->
  (forall a, AddrAwaitable a ∈ out' <-> exists j, waits_op F' j a) ->
  (forall j a, waits_op F' j a -> exists x, A' !! a = Some x /\ handle x = Some j) ->
  (forall a, is_Some (A' !! a) -> (a < na')%nat) ->
  heap_ok out' F' nf A' na' ts.
Proof.
  intros [] Hf Hn Hn' Hc F' H1 H2 H3 H4 H5.
  destruct (chain_insert F h f f' Hf Hn Hn' Hc) as [Ht Hcont]. split; try done.
  - intros j Hj. apply hk_frame_old0. apply is_Some_insert in Hj as [->|]; eauto.
  - intros j c. unfold F'. rewrite Ht, Hcont. apply hk_chain0.
  - intros j c Hj. apply hk_order0. by apply Hcont.
  - intros j Hj. destruct (hk_task_frames0 j Hj) as [Hs Hno]. split.
    + apply is_Some_insert. by right.
    + intros c. unfold F'. rewrite Hcont. apply Hno.
Qed.

Lemma quiet_no_task s : quiet s -> no_task s.
Proof. by destruct s. Qed.

Lemma as_awaitable_elem a out : a ∈ omap as_awaitable out <-> AddrAwaitable a ∈ out.
Proof.
  rewrite list_elem_of_omap. split; [|by eexists].
  intros (p & Hp & E). destruct p; cbn in E; by simplify_eq.
Qed.

(** A running frame suspends on a fresh awaitable whose entry is staged. *)
Lemma heap_suspend_op out F nf A na ts h f k x :
  heap_ok out F nf A na ts -> F !! h = Some f -> quiet (susp f) -> handle x = Some h ->
  heap_ok (AddrAwaitable na :: out) (<[h := set_susp (AtOp na k) f]> F) nf (<[na := x]> A) (S na) ts.
Proof.
  intros Hk Hf Hq Hx. pose proof (heap_fresh_awt _ _ _ _ _ _ Hk) as Hnone.
  assert (Hold : forall j, ~ waits_op F j na).
  { intros j Hj. destruct (hk_handle _ _ _ _ _ _ Hk j na Hj) as (y & Hy & _). congruence. }
  assert (Ho : forall j a, waits_op (<[h := set_susp (AtOp na k) f]> F) j a <->
                           (j = h /\ a = na) \/ waits_op F j a).
  { intros j a. rewrite waits_op_insert. cbn. pose proof (quiet_waits F h f j a Hf Hq) as [Hn _].
    naive_solver. }
  eapply heap_change_ops; eauto using quiet_no_task; try done.
  - intros p Hp. apply elem_of_cons in Hp as [->|Hp]; [eauto|by apply (hk_kinds _ _ _ _ _ _ Hk)].
  - cbn. apply NoDup_cons. split; [|apply (hk_once _ _ _ _ _ _ Hk)].
    rewrite as_awaitable_elem, (hk_live _ _ _ _ _ _ Hk). by intros [j Hj%Hold].
  - intros a. rewrite elem_of_cons, (hk_live _ _ _ _ _ _ Hk). setoid_rewrite Ho. naive_solver.
  - intros j a [[-> ->]|Hj]%Ho; [exists x; by rewrite lookup_insert_eq|].
    rewrite lookup_insert_ne; [by apply (hk_handle _ _ _ _ _ _ Hk)|]. intros <-. by apply (Hold j).
  - intros a [->|Ha]%is_Some_insert; [lia|]. apply (hk_awt_old _ _ _ _ _ _ Hk) in Ha. lia.
Qed.

(** Control comes back to a frame suspended on [a]: the awaitable is no longer
    outstanding and goes out of scope. *)
Lemma heap_resume_op out F nf A na ts h f a k :
  heap_ok (AddrAwaitable a :: out) F nf A na ts -> F !! h = Some f -> susp f = AtOp a k ->
  heap_ok out (<[h := set_susp Running f]> F) nf (delete a A) na ts.
Proof.
  intros Hk Hf Hs.
  assert (Hu : forall j b, waits_op F j b -> (j = h <-> b = a)).
  { intros j b Hj. split.
    - intros ->. destruct Hj as (g & k' & Hg & E). simplify_eq. congruence.
    - intros ->. destruct (hk_handle _ _ _ _ _ _ Hk j a Hj) as (x & Hx & Ex).
      destruct (hk_handle _ _ _ _ _ _ Hk h a) as (y & Hy & Ey); [by exists f, k|]. congruence. }
  assert (Hnotin : AddrAwaitable a ∉ out).
  { intros Hin. pose proof (hk_once _ _ _ _ _ _ Hk) as Hnd. cbn in Hnd.
    apply NoDup_cons in Hnd as [Hnd _]. by rewrite as_awaitable_elem in Hnd. }
  assert (Ho : forall j b, waits_op (<[h := set_susp Running f]> F) j b <-> b <> a /\ waits_op F j b).
  { intros j b. rewrite waits_op_insert. cbn. split.
    - intros [[_ [? ?]]|[Hne H]]; [done|]. specialize (Hu j b H). tauto.
    - intros [Hne H]. right. specialize (Hu j b H). tauto. }
  eapply heap_change_ops; eauto; try done; [by rewrite Hs|..].
  - intros p Hp. apply (hk_kinds _ _ _ _ _ _ Hk). by apply elem_of_cons; right.
  - pose proof (hk_once _ _ _ _ _ _ Hk) as Hnd. cbn in Hnd. by apply NoDup_cons in Hnd as [_ Hnd].
  - intros b. setoid_rewrite Ho. pose proof (hk_live _ _ _ _ _ _ Hk b) as Hl.
    rewrite elem_of_cons in Hl. destruct (decide (b = a)) as [->|Hne].
    + split; [done|]. by intros (? & ? & _).
    + assert (AddrAwaitable b <> AddrAwaitable a) by congruence. clear Ho Hu Hk. naive_solver.
  - intros j b [Hne Hj]%Ho. rewrite lookup_delete_ne by done. by apply (hk_handle _ _ _ _ _ _ Hk).
  - intros b [_ Hb]%is_Some_delete. by apply (hk_awt_old _ _ _ _ _ _ Hk).
Qed.

(** A running frame [h] starts an inner task in the fresh frame [nf]. *)
Lemma heap_enter_task out F nf A na ts h f k :
  heap_ok out F nf A na ts -> F !! h = Some f -> quiet (susp f) ->
  heap_ok out (<[nf := mkFrame (mkPromise None None (Some h)) Running]>
                 (<[h := set_susp (AtTask nf k) f]> F)) (S nf) A na ts.
Proof.
  intros Hk Hf Hq. pose proof (heap_fresh_frame _ _ _ _ _ _ Hk) as Hnone.
  assert (Hlt : (h < nf)%nat) by (apply (hk_frame_old _ _ _ _ _ _ Hk); eauto).
  set (F' := <[nf := _]> _).
  assert (Ho : forall j a, waits_op F' j a <-> waits_op F j a).
  { intros j a. unfold F'. rewrite !waits_op_insert. cbn.
    pose proof (quiet_waits F h f j a Hf Hq) as [Hn _].
    assert (waits_op F j a -> j <> nf) by (intros (? & ? & ? & ?) ->; congruence). naive_solver. }
  assert (Ht : forall j c, waits_task F' j c <-> (j = h /\ c = nf) \/ waits_task F j c).
  { intros j c. unfold F'. rewrite !waits_task_insert. cbn.
    pose proof (quiet_waits F h f j c Hf Hq) as [_ Hn].
    assert (waits_task F j c -> j <> nf) by (intros (? & ? & ? & ?) ->; congruence).
    assert (h <> nf) by lia. naive_solver. }
  assert (Hc : forall c j, continues F' c j <-> (j = h /\ c = nf) \/ continues F c j).
  { intros c j. unfold F'. rewrite !continues_insert. cbn.
    assert (continues F c j -> c <> nf) by (intros (? & ? & ?) ->; congruence).
    assert (h <> nf) by lia. unfold continues. destruct (decide (c = h)) as [->|]; naive_solver. }
  destruct Hk. split; try done.
  - intros a. rewrite hk_live0. by setoid_rewrite Ho.
  - intros j a Hj. apply hk_handle0. by apply Ho.
  - intros j Hj. unfold F' in Hj. rewrite !is_Some_insert in Hj.
    destruct Hj as [->|[->|Hj%hk_frame_old0]]; lia.
  - intros j c. rewrite Ht, Hc, hk_chain0. done.
  - intros j c [[-> ->]|Hj]%Hc; [done|by apply hk_order0].
  - intros j Hj. destruct (hk_task_frames0 j Hj) as [Hs Hn]. split.
    + unfold F'. rewrite !is_Some_insert. tauto.
    + intros c [[-> ->]|Hcont]%Hc; [|by apply (Hn c)]. rewrite Hnone in Hs. by destruct Hs.
Qed.

(** The inner task [c] is finished: its frame goes and [h] runs again. *)
Lemma heap_leave_task out F nf A na ts h f c fc k :
  heap_ok out F nf A na ts -> F !! h = Some f -> susp f = AtTask c k ->
  F !! c = Some fc -> quiet (susp fc) ->
  heap_ok out (<[h := set_susp Running f]> (delete c F)) nf A na ts /\ h <> c /\ c ∉ ts.
Proof.
  intros Hk Hf Hs Hfc Hq.
  assert (Hch : continues F c h) by (apply (hk_chain _ _ _ _ _ _ Hk); by exists f, k).
  assert (Hne : h <> c) by (apply (hk_order _ _ _ _ _ _ Hk) in Hch; lia).
  assert (Hcts : c ∉ ts).
  { intros Hin. destruct (hk_task_frames _ _ _ _ _ _ Hk c Hin) as [_ Hn]. by apply (Hn h). }
  set (F' := <[h := _]> _).
  assert (Hunique : forall j d, (waits_task F j d \/ continues F d j) -> (j = h <-> d = c)).
  { intros j d Hj. assert (Hw : waits_task F j d) by (destruct Hj; [done|by apply (hk_chain _ _ _ _ _ _ Hk)]).
    assert (Hcont : continues F d j) by (by apply (hk_chain _ _ _ _ _ _ Hk)). split.
    - intros ->. destruct Hw as (g & k' & Hg & E). simplify_eq. congruence.
    - intros ->. destruct Hcont as (g & Hg & E). destruct Hch as (g' & Hg' & E'). congruence. }
  assert (Ho : forall j a, waits_op F' j a <-> waits_op F j a).
  { intros j a. unfold F'. rewrite waits_op_insert, waits_op_delete. cbn.
    pose proof (quiet_waits F c fc j a Hfc Hq) as [Hn _].
    assert (waits_op F j a -> j <> h) by (intros (? & ? & ? & ?) ->; congruence). naive_solver. }
  assert (Ht : forall j d, waits_task F' j d <-> j <> h /\ waits_task F j d).
  { intros j d. unfold F'. rewrite waits_task_insert, waits_task_delete. cbn.
    pose proof (quiet_waits F c fc j d Hfc Hq) as [_ Hn]. naive_solver. }
  assert (Hc : forall d j, continues F' d j <-> d <> c /\ continues F d j).
  { intros d j. unfold F'. rewrite continues_insert, continues_delete. cbn. unfold continues.
    destruct (decide (d = h)) as [->|]; naive_solver. }
  split; [|done]. destruct Hk. split; try done.
  - intros a. rewrite hk_live0. by setoid_rewrite Ho.
  - intros j a Hj. apply hk_handle0. by apply Ho.
  - intros j Hj. unfold F' in Hj. rewrite is_Some_insert, is_Some_delete in Hj.
    apply hk_frame_old0. destruct Hj as [->|[_ ?]]; eauto.
  - intros j d. rewrite Ht, Hc, <- hk_chain0. split; intros [Hx Hy]; split; try done;
      specialize (Hunique j d (or_introl Hy)); tauto.
  - intros j d [_ Hj]%Hc. by apply hk_order0.
  - intros j Hj. destruct (hk_task_frames0 j Hj) as [Hs' Hn]. split.
    + unfold F'. rewrite is_Some_insert, is_Some_delete. right. split; [|done]. by intros ->.
    + intros d [_ Hd]%Hc. by apply (Hn d).
Qed.
End Heap.
