(* ===== verification/Safety.v ===== *)
(** * Safety: user code running on a scheduler keeps the ownership invariant

    States the invariant of a scheduler thread ([ok]) and shows that running
    coroutines and callables keeps it and never gets stuck, for programs in
    which every spawned task reaches its first suspension through an operation
    without a deadline ([first_ok], [good]).  The hypotheses mirror what the
    comments of [spawn] and [drain_inbox] take for granted. *)
From stdpp Require Import prelude list gmap.
From Stdlib Require Import ZArith Lia.
From S2P Require Import Prelude ErrorCodes Ring Operations Awaitable Task Machine Heap.

(** Actions that touch neither the ring nor the thread-local flag. *)
Create HintDb keeps.

Section Safety.
Context {U K : Type}.
#[local] Abbreviation M := (exec (world U K) exn).
#[local] Abbreviation W := (world U K).

(** Schedulers that exist, the number of workers, and whether operations with
    a deadline may occur. *)
Context (known : nat -> Prop) (nw : nat) (timed : bool).

(** ** Programs *)

(** Up to its first suspension the body asks for at most one ring slot. *)
Fixpoint first_ok (b : coro U) : Prop :=
  match b with
  | CoReturn _ | CoThrow _ => True
  | CoDo _ k => forall z, first_ok (k z)
  | CoAwait _ timeout _ => timeout = None
  | CoAwaitTask t k => first_ok t /\ forall r, first_ok (k r)
  | CoSpawn _ _ => False
  | CoPost _ _ k => forall e, first_ok (k e)
  end.

(** Posts go to existing schedulers, spawned tasks are [first_ok], and
    coroutines that use deadlines do not spawn. *)
Fixpoint good (b : coro U) : Prop :=
  match b with
  | CoReturn _ | CoThrow _ => True
  | CoDo _ k => forall z, good (k z)
  | CoAwait _ timeout k => (timeout = None \/ timed = true) /\ forall z, good (k z)
  | CoAwaitTask t k => good t /\ forall r, good (k r)
  | CoSpawn t k => timed = false /\ first_ok t /\ good t /\ forall e, good (k e)
  | CoPost dst f k => known dst /\ good_fn f /\ forall e, good (k e)
  end
with good_fn (f : callable U) : Prop :=
  match f with
  | FnReturn | FnThrow _ => True
  | FnDo _ k => forall z, good_fn (k z)
  | FnSpawn t k => first_ok t /\ good t /\ forall e, good_fn (k e)
  | FnPost dst f k => known dst /\ good_fn f /\ forall e, good_fn (k e)
  | FnDispatch job => nw <> 0%nat /\ (forall i, (i < nw)%nat -> known (S i)) /\ forall i, good_fn (job i)
  end.

Definition good_susp (s : suspension U) : Prop :=
  match s with
  | AtInitial b => good b
  | AtOp _ k => forall z, good (k z)
  | AtTask _ k => forall r, good (k r)
  | Running | AtFinal => True
  end.

(** ** The invariant *)

Definition efd_count (l : list word64) : nat := length (filter (fun p => p = AddrEventfdBuf) l).

(** What is outstanding: [base] at the kernel and in the completion queue, the
    rest staged in the submission queue. *)
Definition outstanding (base : list word64) (s : sched U) : list word64 :=
  base ++ (user_data <$> sq_pending (sq (s_io s))).

Record sched_ok (base : list word64) (s : sched U) : Prop := {
  sk_io : wf_io (s_io s);
  sk_heap : heap_ok (outstanding base s) (frames s) (next_frame s) (awts s) (next_awt s) (tasks_ s);
  sk_good : forall h f, frames s !! h = Some f -> good_susp (susp f);
  sk_grow : forall n, can_grow s n = true;
  sk_self : known (s_id s);
  sk_efd : efd_count (outstanding base s) = if eventfd_armed_ s then 1%nat else 0%nat
}.

Record shared_ok (s : shared U) : Prop := {
  so_known : forall d, known d -> is_Some (boxes s !! d);
  so_good : forall d box, boxes s !! d = Some box ->
    Forall good_fn (inbox_ box) /\ 0 <= efd_counter box <= EFD_MAX;
  so_workers : workers s = nw;
  so_next : 0 <= next_worker_ s
}.

Definition ok (base : list word64) (w : W) : Prop := sched_ok base (me w) /\ shared_ok (sh w).

(** Without deadlines, a pending [tl_sq_full] means the queue is full. *)
Definition flag_ok (w : W) : Prop :=
  timed = false -> tl_sq_full (me w) = true -> sq_entries (sq (s_io (me w))) <= sq_count (sq (s_io (me w))).

(** What user code leaves alone: every frame older than the ones it creates,
    except those in [mine]; the completion queue; the scheduler's flags; and
    the scheduled tasks, to which only new frames are added. *)
Record advances (mine : nat -> Prop) (s s' : sched U) : Prop := {
  ad_next : (next_frame s <= next_frame s')%nat;
  ad_frames : forall j, (j < next_frame s)%nat -> ~ mine j -> frames s' !! j = frames s !! j;
  ad_cont : forall h f, mine h -> frames s !! h = Some f ->
    exists f', frames s' !! h = Some f' /\ continuation (promise f') = continuation (promise f);
  ad_tasks : exists l, tasks_ s' = tasks_ s ++ l /\ forall j, j ∈ l -> (next_frame s <= j)%nat;
  ad_cq : cq (s_io s') = cq (s_io s) /\ sq_entries (sq (s_io s')) = sq_entries (sq (s_io s));
  ad_fields : s_id s' = s_id s /\ eventfd_ s' = eventfd_ s /\
              eventfd_armed_ s' = eventfd_armed_ s /\ shutting_down_ s' = shutting_down_ s
}.

Lemma advances_trans mine s1 s2 s3 : advances mine s1 s2 -> advances mine s2 s3 -> advances mine s1 s3.
Proof.
  intros [N1 F1 C1 (l1 & T1 & L1) [Q1 R1] (A1 & B1 & D1 & E1)]
         [N2 F2 C2 (l2 & T2 & L2) [Q2 R2] (A2 & B2 & D2 & E2)]. split.
  - lia.
  - intros j Hj Hne. rewrite F2 by (done || lia). by apply F1.
  - intros h f Hm Hf. destruct (C1 h f Hm Hf) as (f1 & Hf1 & E).
    destruct (C2 h f1 Hm Hf1) as (f2 & Hf2 & E'). exists f2. split; [done|]. congruence.
  - exists (l1 ++ l2). split; [by rewrite T2, T1, app_assoc|].
    intros j [Hj%L1|Hj%L2]%elem_of_app; lia.
  - split; congruence.
  - split_and!; congruence.
Qed.

(** Fewer frames touched is also more. *)
Lemma advances_weaken mine s s' :
  advances (fun _ => False) s s' -> (forall h, mine h -> (h < next_frame s)%nat) -> advances mine s s'.
Proof.
  intros [N F C T Q A] Hm. split; try done.
  - intros j Hj _. apply F; tauto.
  - intros h f Hh Hf. exists f. rewrite (F h (Hm h Hh)) by tauto. done.
Qed.

(** ** Weakest preconditions of the primitives *)

Definition upd (g : sched U -> sched U) (w : W) : W := mkWorld (g (me w)) (sh w) (kern w).

Lemma wp_get_frame h (Q : outcome exn (frame U) -> W -> Prop) w f :
  frames (me w) !! h = Some f -> Q (Normal f) w -> wp (get_frame h) Q w.
Proof. intros Hx HQ. by eapply (wp_demand UseAfterFree); [exact Hx|]. Qed.

Lemma wp_put_frame h f (Q : outcome exn unit -> W -> Prop) w :
  Q (Normal tt) (upd (fun s => set_frames (<[h := f]> (frames s)) s) w) -> wp (put_frame h f) Q w.
Proof. done. Qed.

Lemma wp_upd_frame h g (Q : outcome exn unit -> W -> Prop) w f :
  frames (me w) !! h = Some f ->
  Q (Normal tt) (upd (fun s => set_frames (<[h := g f]> (frames s)) s) w) -> wp (upd_frame h g) Q w.
Proof. intros Hf HQ. unfold upd_frame. apply wp_bind. by eapply wp_get_frame. Qed.

(** ** Awaiting an operation *)

(** The awaitable [CoAwait op timeout] constructs. *)
Definition made (op : operation) (timeout : option Z) : Awaitable :=
  match timeout with
  | Some ms => with_timeout ms (Awaitable_ctor op)
  | None => Awaitable_ctor op
  end.

Lemma slots_made op timeout : slots_needed (made op timeout) = if has_value timeout then 2 else 1.
Proof. by destruct timeout. Qed.

(** [co_await] with room in the queue: the frame is suspended on a fresh
    awaitable and its entries are staged. *)
Lemma await_room op timeout k h f w :
  frames (me w) !! h = Some f -> wf_io (s_io (me w)) ->
  sq_count (sq (s_io (me w))) + slots_needed (made op timeout) <= sq_entries (sq (s_io (me w))) ->
  exists q,
    let a := next_awt (me w) in
    (a ← new_awaitable op timeout; co_await_op h a k) w =
      (Normal true,
       upd (fun s => set_awts (<[a := set_handle h (made op timeout)]> (awts s))
              (set_next_awt (S a) (set_frames (<[h := set_susp (AtOp a k) f]> (frames s))
                 (set_io (with_sq (s_io s) q) s)))) w) /\
    wf_sq q /\ sq_entries q = sq_entries (sq (s_io (me w))) /\
    sq_pending q = sq_pending (sq (s_io (me w))) ++ staged a (made op timeout).
Proof.
  intros Hf Hwf Hroom.
  destruct (await_suspend_room (next_awt (me w)) (made op timeout) h (s_io (me w)) (tl_sq_full (me w))
              Hwf Hroom) as (q & Hs & Hq & Hp & He).
  exists q. cbv zeta. split; [|done].
  unfold co_await_op, upd_frame, get_frame, get_awt, put_awt, put_frame, on_me, gets, modify, demand,
    new_awaitable, mbind, exec_bind, mret, exec_ret. cbn. rewrite Hf. cbn.
  rewrite lookup_insert_eq. fold (made op timeout). cbn. rewrite Hs. cbn. unfold upd. cbn.
  rewrite insert_insert_eq. done.
Qed.

(** ... and without room: nothing changes but the flag and a used-up address. *)
Lemma await_full op timeout k h f w :
  frames (me w) !! h = Some f -> susp f = Running -> wf_io (s_io (me w)) ->
  awts (me w) !! next_awt (me w) = None ->
  sq_entries (sq (s_io (me w))) < sq_count (sq (s_io (me w))) + slots_needed (made op timeout) ->
  let a := next_awt (me w) in
  let w' := upd (fun s => set_tl true (set_next_awt (S a) s)) w in
  let w1 := upd (fun s => set_awts (<[a := made op timeout]> (awts s)) s) w' in
  (a ← new_awaitable op timeout; co_await_op h a k) w = (Normal false, w1) /\
  finish_awaitable a w1 = (Normal 0, w').
Proof.
  intros Hf Hs Hwf Hnone Hfull.
  pose proof (await_suspend_full (next_awt (me w)) (made op timeout) h (s_io (me w)) (tl_sq_full (me w))
                Hwf Hfull) as Hsus.
  cbv zeta. split.
  - unfold co_await_op, upd_frame, get_frame, get_awt, put_awt, put_frame, on_me, gets, modify, demand,
      new_awaitable, mbind, exec_bind, mret, exec_ret. cbn. rewrite Hf. cbn.
    rewrite lookup_insert_eq. fold (made op timeout). cbn. rewrite Hsus. cbn.
    rewrite lookup_insert_eq. cbn. rewrite !insert_insert_eq.
    assert (Hid : set_susp Running (set_susp (AtOp (next_awt (me w)) k) f) = f)
      by (destruct f; cbn in *; by subst).
    rewrite Hid, insert_id by done. unfold upd. by destruct w as [[] ? ?].
  - unfold finish_awaitable, get_awt, del_awt, on_me, demand, modify, mbind, exec_bind, mret, exec_ret.
    cbn. rewrite lookup_insert_eq. cbn. rewrite delete_insert_id by done.
    unfold upd, await_resume. by destruct w as [[] ? ?], timeout.
Qed.

(** The two lemmas in the shape [run] has. *)
Lemma wp_await {B} (R : nat -> bool -> M B) op timeout k h f w (Q : outcome exn B -> W -> Prop) :
  let a := next_awt (me w) in
  frames (me w) !! h = Some f -> susp f = Running -> wf_io (s_io (me w)) ->
  awts (me w) !! a = None ->
  (forall q, wf_sq q -> sq_entries q = sq_entries (sq (s_io (me w))) ->
     sq_pending q = sq_pending (sq (s_io (me w))) ++ staged a (made op timeout) ->
     wp (R a true) Q
       (upd (fun s => set_awts (<[a := set_handle h (made op timeout)]> (awts s))
              (set_next_awt (S a) (set_frames (<[h := set_susp (AtOp a k) f]> (frames s))
                 (set_io (with_sq (s_io s) q) s)))) w)) ->
  (sq_entries (sq (s_io (me w))) < sq_count (sq (s_io (me w))) + slots_needed (made op timeout) ->
   let w' := upd (fun s => set_tl true (set_next_awt (S a) s)) w in
   let w1 := upd (fun s => set_awts (<[a := made op timeout]> (awts s)) s) w' in
   finish_awaitable a w1 = (Normal 0, w') ->
   wp (R a false) Q w1) ->
  wp (a ← new_awaitable op timeout; suspended ← co_await_op h a k; R a suspended) Q w.
Proof.
  intros a Hf Hs Hwf Hnone Hroom Hfull. unfold wp.
  assert (Hb : forall r w1, (a ← new_awaitable op timeout; co_await_op h a k) w = (Normal r, w1) ->
    (a ← new_awaitable op timeout; suspended ← co_await_op h a k; R a suspended) w = R a r w1).
  { intros r w1 E. unfold mbind, exec_bind, new_awaitable in E |- *. cbn in E |- *. by rewrite E. }
  destruct (decide (sq_count (sq (s_io (me w))) + slots_needed (made op timeout)
                    <= sq_entries (sq (s_io (me w))))) as [Hle|Hgt].
  - destruct (await_room op timeout k h f w Hf Hwf Hle) as (q & E & Hq & He & Hp).
    rewrite (Hb _ _ E). by apply Hroom.
  - destruct (await_full op timeout k h f w Hf Hs Hwf Hnone ltac:(lia)) as [E Hfin].
    rewrite (Hb _ _ E). apply Hfull; [lia|exact Hfin].
Qed.

(** ** The first segment of a spawned task never finds the queue full *)

(** Actions that touch neither the ring nor the flag. *)
Definition keeps {A} (m : M A) : Prop := forall w,
  s_io (me (snd (m w))) = s_io (me w) /\ tl_sq_full (me (snd (m w))) = tl_sq_full (me w).

Lemma keeps_bind {A B} (m : M A) (k : A -> M B) :
  keeps m -> (forall a, keeps (k a)) -> keeps (m ≫= k).
Proof.
  intros Hm Hk w. specialize (Hm w). unfold mbind, exec_bind.
  destruct (m w) as [[a|e|r] w']; cbn in *; [|done|done].
  specialize (Hk a w'). destruct Hm, Hk. split; congruence.
Qed.

Lemma keeps_demand {A} r (g : W -> option A) : keeps (demand r g).
Proof. intros w. unfold demand. by destruct (g w). Qed.

Lemma keeps_try {A} (m : M A) : keeps m -> keeps (try m).
Proof. intros Hm w. specialize (Hm w). unfold try. by destruct (m w) as [[]]. Qed.

Lemma keeps_if {A} (b : bool) (m1 m2 : M A) : keeps m1 -> keeps m2 -> keeps (if b then m1 else m2).
Proof. by destruct b. Qed.

Hint Resolve keeps_bind keeps_demand keeps_try keeps_if : keeps.
Hint Extern 1 (keeps _) => (intros ?; done) : keeps.

Lemma keeps_upd_frame h g : keeps (upd_frame h g).
Proof. unfold upd_frame, get_frame, put_frame. eauto with keeps. Qed.
Lemma keeps_do_user g : keeps (do_user g).
Proof. intros w. unfold do_user. by destruct (g _). Qed.
Lemma keeps_post dst f : keeps (post dst f).
Proof. unfold post, inbox_push, eventfd_write. eauto 12 with keeps. Qed.
Lemma keeps_final_suspend h : keeps (final_suspend h).
Proof. unfold final_suspend, get_frame, put_frame. eauto with keeps. Qed.
Lemma keeps_leave_task h h' : keeps (leave_task h h').
Proof. unfold leave_task, get_frame, del_frame. eauto using keeps_upd_frame with keeps. Qed.
Lemma keeps_new_task b : keeps (new_task b).
Proof. by intros w. Qed.

Lemma wp_keeps {A} (m : M A) (Q : outcome exn A -> W -> Prop) w :
  keeps m ->
  (forall o w', s_io (me w') = s_io (me w) -> tl_sq_full (me w') = tl_sq_full (me w) -> Q o w') ->
  wp m Q w.
Proof. intros Hm HQ. destruct (Hm w). by apply HQ. Qed.

(** Peel one action that keeps the ring and the flag. *)
Ltac keep_step lem :=
  apply wp_bind; apply wp_keeps; [apply lem|];
  let o := fresh "o" in let w' := fresh "w" in
  let Hio := fresh "Hio" in let Htl := fresh "Htl" in
  intros o w' Hio Htl; destruct o; [|split; [congruence|done]|split; [congruence|done]].

Lemma run_first_ok b : first_ok b -> forall h (w : W),
  wf_io (s_io (me w)) -> sq_count (sq (s_io (me w))) < sq_entries (sq (s_io (me w))) ->
  tl_sq_full (me w) = false ->
  wp (run b h) (fun o w' => tl_sq_full (me w') = false /\
                            forall n, o = Normal (Finished n) -> s_io (me w') = s_io (me w)) w.
Proof.
  induction b as [v|e|g k IH|op to k IH|t IHt k IH|t IHt k IH|dst f k IH]; cbn [first_ok];
    intros Hok h w Hwf Hroom Htl0; cbn [run].
  - keep_step (keeps_upd_frame h (return_value v)). apply wp_keeps; [apply keeps_final_suspend|].
    intros o w1 Hio1 Htl1. split; congruence.
  - keep_step (keeps_upd_frame h (unhandled_exception e)). apply wp_keeps; [apply keeps_final_suspend|].
    intros o w1 Hio1 Htl1. split; congruence.
  - keep_step (keeps_do_user g). rewrite <- Hio in *. apply IH; congruence || done.
  - subst to. destruct (frames (me w) !! h) as [f|] eqn:Hf.
    + destruct (await_room op None k h f w Hf Hwf) as (q & E & _); [cbn; lia|].
      unfold wp. unfold mbind, exec_bind, new_awaitable in E |- *. cbn in E |- *. rewrite E. by split.
    + unfold wp, mbind, exec_bind, new_awaitable, co_await_op, upd_frame, get_frame, demand. cbn.
      unfold mbind, exec_bind. cbn. rewrite Hf. by split.
  - destruct Hok as [Hokt Hokk].
    keep_step (keeps_new_task t). keep_step (keeps_upd_frame h (set_susp (AtTask a k))).
    keep_step (keeps_upd_frame a (Task_await_suspend h)). keep_step (keeps_upd_frame a (set_susp Running)).
    apply wp_bind. eapply wp_mono; [apply IHt; congruence || done|].
    intros o w4 [Htl4 Hio4]. destruct o as [st|e|r]; [|by split|by split].
    destruct st as [|[c|]]; [by split| |by split]. specialize (Hio4 _ eq_refl).
    case_decide; [|by split]. subst c.
    keep_step (keeps_leave_task h a). eapply wp_mono; [apply IH; congruence || done|].
    intros o w6 [Htl6 Hio6]. split; [done|]. intros n E. rewrite (Hio6 n E). congruence.
  - done.
  - keep_step (keeps_try _ (keeps_post dst f)). eapply wp_mono; [apply IH; congruence || done|].
    intros o w1 [Htl1 Hio1]. split; [done|]. intros n E. rewrite (Hio1 n E). congruence.
Qed.

(** ** Posting and user computation *)

Lemma shared_ok_box d box s :
  shared_ok s -> Forall good_fn (inbox_ box) -> 0 <= efd_counter box <= EFD_MAX ->
  shared_ok (with_boxes (<[d := box]> (boxes s)) s).
Proof.
  intros [Hk Hg Hw Hn] Hb Hc. split; cbn; try done.
  - intros e He%Hk. apply is_Some_insert. by right.
  - intros e b. rewrite lookup_insert. case_decide; [|apply Hg]. intros [= <-]. done.
Qed.

(** [post] only touches the shared state, and keeps it good. *)
Lemma post_safe dst f (w : W) :
  shared_ok (sh w) -> known dst -> good_fn f ->
  exists o s', post dst f w = (o, mkWorld (me w) s' (kern w)) /\ shared_ok s' /\
               (o = Normal tt \/ o = Throw (IOException EventFdWriteFailed)).
Proof.
  intros Hs Hd Hf. destruct (so_known _ Hs dst Hd) as [box Hbox].
  destruct (so_good _ Hs dst box Hbox) as [Hg Hc].
  unfold post, inbox_push, eventfd_write, mbind, exec_bind, demand, on_shared, modify, throw, mret, exec_ret.
  rewrite Hbox. cbn. rewrite lookup_insert_eq. cbn.
  destruct (EFD_MAX <? efd_counter box + 1) eqn:E; cbn; eexists _, _; (split; [reflexivity|]).
  - split; [|by right]. apply shared_ok_box; [done| |done]. apply Forall_app. split; [done|by constructor].
  - split; [|by left]. apply Z.ltb_ge in E. rewrite insert_insert_eq.
    refine (shared_ok_box dst (mkBox _ _) (sh w) Hs _ _); cbn; [|lia].
    apply Forall_app. split; [done|by constructor].
Qed.

Lemma do_user_safe g (w : W) :
  shared_ok (sh w) ->
  exists z s', do_user g w = (Normal z, mkWorld (me w) s' (kern w)) /\ shared_ok s'.
Proof.
  intros []. unfold do_user. destruct (g (user (sh w))) as [u z]. eexists _, _. split; [reflexivity|].
  by split.
Qed.

(** ** Transitions of the whole invariant *)

(** The world with the scheduler's frames replaced. *)
Definition with_frames (F : gmap nat (frame U)) (w : W) : W := upd (set_frames F) w.

(** Rewriting one quiet frame. *)
Lemma ok_quiet base w h f f' :
  ok base w -> frames (me w) !! h = Some f -> quiet (susp f) -> quiet (susp f') ->
  good_susp (susp f') -> continuation (promise f') = continuation (promise f) ->
  let w' := with_frames (<[h := f']> (frames (me w))) w in
  ok base w' /\ advances (eq h) (me w) (me w').
Proof.
  intros [[Hio Hheap Hgood Hgrow Hself Hefd] Hsh] Hf Hq Hq' Hg Hc. split.
  - split; [|done]. split; cbn; try done; [by eapply heap_quiet|].
    intros j g. rewrite lookup_insert. case_decide; [by intros [= <-]|apply Hgood].
  - split; cbn; try done.
    + intros j _ Hne. by rewrite lookup_insert_ne.
    + intros j g <- Hg'. simplify_eq. exists f'. by rewrite lookup_insert_eq.
    + exists []. rewrite app_nil_r. split; [done|]. by intros j ?%elem_of_nil.
Qed.

Lemma efd_count_app l1 l2 : efd_count (l1 ++ l2) = (efd_count l1 + efd_count l2)%nat.
Proof. unfold efd_count. by rewrite filter_app, length_app. Qed.

(** The user data of what an operation stages. *)
Lemma staged_user_data a x :
  exists l, user_data <$> staged a x = AddrAwaitable a :: l /\ Forall (eq (Num 0)) l.
Proof.
  unfold staged. assert (user_data (primary_entry a x) = AddrAwaitable a) as E.
  { unfold primary_entry. by destruct (has_value _). }
  destruct (has_value (timeout_ts_ x)); cbn; rewrite E; eexists; (split; [reflexivity|]).
  - repeat constructor.
  - constructor.
Qed.

Lemma heap_out_nulls l out F nf A na ts :
  Forall (eq (Num 0)) l -> heap_ok (U:=U) out F nf A na ts -> heap_ok (out ++ l) F nf A na ts.
Proof.
  intros Hl. induction Hl as [|p l <- Hl IH] in out |- *; intros H; [by rewrite app_nil_r|].
  rewrite (cons_middle (Num 0) out l), app_assoc. apply IH.
  apply (heap_perm (Num 0 :: out)); [by rewrite Permutation_cons_append|].
  apply heap_out_add; [by left|done].
Qed.

(** A running frame suspends on an operation. *)
Lemma ok_suspend_op base w h f k x q :
  ok base w -> frames (me w) !! h = Some f -> susp f = Running -> (forall z, good (k z)) ->
  let a := next_awt (me w) in
  wf_sq q -> sq_entries q = sq_entries (sq (s_io (me w))) ->
  sq_pending q = sq_pending (sq (s_io (me w))) ++ staged a x ->
  let w' := upd (fun s => set_awts (<[a := set_handle h x]> (awts s))
              (set_next_awt (S a) (set_frames (<[h := set_susp (AtOp a k) f]> (frames s))
                 (set_io (with_sq (s_io s) q) s)))) w in
  ok base w' /\ advances (eq h) (me w) (me w').
Proof.
  intros [[Hio Hheap Hgood Hgrow Hself Hefd] Hsh] Hf Hs Hk a Hq He Hp w'.
  destruct (staged_user_data a x) as (l & Hud & Hnull).
  assert (Hout : outstanding base (me w') = outstanding base (me w) ++ AddrAwaitable a :: l).
  { unfold outstanding; cbn. rewrite Hp, fmap_app, Hud. by rewrite app_assoc. }
  split.
  - split; [|done]. split.
    + cbn. split; [done|apply Hio].
    + rewrite Hout, cons_middle, app_assoc. cbn. apply heap_out_nulls; [done|].
      apply (heap_perm (AddrAwaitable a :: outstanding base (me w))); [by rewrite Permutation_cons_append|].
      apply heap_suspend_op; try done. by rewrite Hs.
    + cbn. intros j g. rewrite lookup_insert. case_decide; [intros [= <-]; exact Hk|apply Hgood].
    + exact Hgrow.
    + exact Hself.
    + rewrite Hout, efd_count_app. cbn [me w' upd eventfd_armed_ set_awts set_next_awt set_frames set_io].
      rewrite Hefd. unfold efd_count. rewrite filter_cons_False by done.
      assert (filter (fun p => p = AddrEventfdBuf) l = []) as ->.
      { clear -Hnull. induction Hnull as [|p l <- _ IH]; [done|]. by rewrite filter_cons_False. }
      cbn. lia.
  - split; cbn; try done.
    + intros j _ Hne. by rewrite lookup_insert_ne.
    + intros j g <- Hg'. simplify_eq. exists (set_susp (AtOp a k) f). by rewrite lookup_insert_eq.
    + exists []. rewrite app_nil_r. split; [done|]. by intros j ?%elem_of_nil.
Qed.

(** Entering an inner task, in the shape [run] has. *)
Lemma wp_enter_task {B} (R : nat -> M B) t h k f w (Q : outcome exn B -> W -> Prop) :
  let h' := next_frame (me w) in
  frames (me w) !! h = Some f -> h <> h' ->
  wp (R h') Q
    (upd (fun s => set_next_frame (S h')
            (set_frames (<[h' := mkFrame (mkPromise None None (Some h)) Running]>
                           (<[h := set_susp (AtTask h' k) f]> (frames s))) s)) w) ->
  wp (h' ← new_task t;
      upd_frame h (set_susp (AtTask h' k));;
      upd_frame h' (Task_await_suspend h);;
      upd_frame h' (set_susp Running);;
      R h') Q w.
Proof.
  intros h' Hf Hne HR. apply wp_bind. unfold new_task, wp at 1. cbn.
  apply wp_bind. eapply wp_upd_frame; [cbn; by rewrite lookup_insert_ne|].
  apply wp_bind. eapply wp_upd_frame; [cbn; rewrite lookup_insert_ne by done; apply lookup_insert_eq|].
  apply wp_bind. eapply wp_upd_frame; [cbn; apply lookup_insert_eq|].
  match goal with |- wp _ _ ?w1 => replace w1 with
    (upd (fun s => set_next_frame (S h')
            (set_frames (<[h' := mkFrame (mkPromise None None (Some h)) Running]>
                           (<[h := set_susp (AtTask h' k) f]> (frames s))) s)) w); [done|] end.
  unfold upd, set_frames, set_next_frame; cbn. do 2 f_equal.
  apply map_eq. intros j. rewrite !lookup_insert. by repeat case_decide.
Qed.

Lemma ok_enter_task base w h f k :
  ok base w -> frames (me w) !! h = Some f -> susp f = Running -> (forall r, good (k r)) ->
  let h' := next_frame (me w) in
  let w' := upd (fun s => set_next_frame (S h')
              (set_frames (<[h' := mkFrame (mkPromise None None (Some h)) Running]>
                             (<[h := set_susp (AtTask h' k) f]> (frames s))) s)) w in
  ok base w' /\ advances (eq h) (me w) (me w') /\ (h < h')%nat.
Proof.
  intros [[Hio Hheap Hgood Hgrow Hself Hefd] Hsh] Hf Hs Hk h' w'.
  assert (Hlt : (h < h')%nat) by (apply (hk_frame_old _ _ _ _ _ _ Hheap); eauto).
  split; [|split; [|done]].
  - split; [|done]. split; cbn; try done.
    + apply heap_enter_task; [exact Hheap|done|by rewrite Hs].
    + intros j g. rewrite !lookup_insert. repeat case_decide; try (intros [= <-]); try done. apply Hgood.
  - split; cbn; try done; [lia| | |].
    + intros j Hj Hne. by rewrite !lookup_insert_ne by (done || lia).
    + intros j g <- Hg'. simplify_eq. exists (set_susp (AtTask h' k) f).
      by rewrite lookup_insert_ne, lookup_insert_eq by lia.
    + exists []. rewrite app_nil_r. split; [done|]. by intros j ?%elem_of_nil.
Qed.

(** Coming back from a finished inner task. *)
Lemma leave_task_safe base w h f c fc k :
  ok base w -> frames (me w) !! h = Some f -> susp f = AtTask c k ->
  frames (me w) !! c = Some fc -> susp fc = AtFinal ->
  let w' := with_frames (<[h := set_susp Running f]> (delete c (frames (me w)))) w in
  leave_task h c w = (Normal (Task_await_resume fc), w') /\ ok base w' /\
  (forall r, good (k r)) /\ h <> c /\ c ∉ tasks_ (me w).
Proof.
  intros [[Hio Hheap Hgood Hgrow Hself Hefd] Hsh] Hf Hs Hfc Hsc w'.
  destruct (heap_leave_task _ _ _ _ _ _ h f c fc k Hheap Hf Hs Hfc ltac:(by rewrite Hsc)) as (Hh & Hne & Hts).
  split_and!; try done.
  - unfold leave_task, get_frame, del_frame, upd_frame, put_frame, on_me, demand, modify,
      mbind, exec_bind, mret, exec_ret, get_frame, demand. rewrite Hfc. cbn.
    rewrite lookup_delete_ne, Hf by done. done.
  - split; [|done]. split; cbn; try done.
    intros j g. rewrite lookup_insert, lookup_delete. repeat case_decide; try (intros [= <-]); try done.
    apply Hgood.
  - specialize (Hgood h f Hf). by rewrite Hs in Hgood.
Qed.

(** Using up an awaitable's address and raising the flag. *)
Lemma ok_bump base w tl n :
  ok base w -> (next_awt (me w) <= n)%nat -> ok base (upd (fun s => set_tl tl (set_next_awt n s)) w).
Proof.
  intros [[Hio Hheap Hgood Hgrow Hself Hefd] Hsh] Hn. split; [|done]. split; try done.
  cbn. eapply heap_counters; [reflexivity|exact Hn|exact Hheap].
Qed.

(** ** Running a body *)

(** Running in [h] ends with [h] suspended on something or at its final
    suspend point, about to transfer to its continuation. *)
Definition run_post (base : list word64) (h : nat) (w : W) (o : outcome exn step) (w' : W) : Prop :=
  match o with
  | Normal st =>
      ok base w' /\ flag_ok w' /\ advances (eq h) (me w) (me w') /\ kern w' = kern w /\
      exists f, frames (me w') !! h = Some f /\
        match st with
        | Suspended => ~ quiet (susp f)
        | Finished n => susp f = AtFinal /\ n = continuation (promise f)
        end
  | _ => False
  end.

Definition run_safe_for (b : coro U) : Prop := forall base h (w : W) f,
  ok base w -> flag_ok w -> frames (me w) !! h = Some f -> susp f = Running ->
  wp (run b h) (run_post base h w) w.

(** Prefixing a run with something that advances the scheduler. *)
Lemma run_post_trans base h w w1 o w' :
  advances (eq h) (me w) (me w1) -> kern w1 = kern w ->
  run_post base h w1 o w' -> run_post base h w o w'.
Proof.
  intros Ha Hk. destruct o as [st| |]; [|done|done]. intros (Hok & Hfl & Ha' & Hk' & Hf).
  split_and!; try done; [by eapply advances_trans|congruence].
Qed.

(** *** Spawning *)

(** Outside [run] the flag is down unless the queue is full. *)
Definition calm (w : W) : Prop :=
  tl_sq_full (me w) = true -> sq_entries (sq (s_io (me w))) <= sq_count (sq (s_io (me w))).

Definition spawn_post (base : list word64) (w : W) (o : outcome exn (option exn)) (w' : W) : Prop :=
  match o with
  | Normal _ =>
      ok base w' /\ calm w' /\ (tl_sq_full (me w) = false -> tl_sq_full (me w') = false) /\
      advances (fun _ => False) (me w) (me w') /\ kern w' = kern w
  | _ => False
  end.

(** The world after [new_task]. *)
Definition with_task (t : coro U) (w : W) : W :=
  upd (fun s => set_next_frame (S (next_frame s))
         (set_frames (<[next_frame s := new_frame t]> (frames s)) s)) w.

Lemma ok_new_task base w t :
  ok base w -> good t -> ok base (with_task t w) /\ frames (me w) !! next_frame (me w) = None.
Proof.
  intros [[Hio Hheap Hgood Hgrow Hself Hefd] Hsh] Ht. split; [|by eapply heap_fresh_frame].
  split; [|done]. split; cbn; try done; [by apply heap_new_task|].
  intros j g. rewrite lookup_insert. case_decide; [by intros [= <-]|apply Hgood].
Qed.

(** A task refused before it ran leaves nothing behind. *)
Lemma destroy_fresh t (w : W) :
  frames (me w) !! next_frame (me w) = None ->
  destroy_task (next_frame (me w)) (with_task t w) =
    (Normal tt, upd (set_next_frame (S (next_frame (me w)))) w).
Proof.
  intros Hnone. unfold destroy_task, gets, mbind, exec_bind. cbn.
  unfold get_frame, demand, del_frame, on_me, modify, mbind, exec_bind. cbn.
  rewrite lookup_insert_eq. cbn. rewrite delete_insert_id by done.
  unfold upd, set_next_frame. by destruct w as [[] ? ?].
Qed.

(** The first resumption of a spawned task: it never raises the flag, and the
    new frame ends suspended or finished with nobody waiting for it. *)
Lemma first_resume_safe base t (w : W) :
  run_safe_for t -> first_ok t -> good t -> ok base w -> tl_sq_full (me w) = false ->
  sq_count (sq (s_io (me w))) < sq_entries (sq (s_io (me w))) ->
  let h := next_frame (me w) in
  wp (first_resume h (run t h))
    (fun o w' => o = Normal tt /\ ok base w' /\ tl_sq_full (me w') = false /\ kern w' = kern w /\
       advances (eq h) (me (with_task t w)) (me w') /\
       exists f, frames (me w') !! h = Some f /\ continuation (promise f) = None)
    (with_task t w).
Proof.
  intros Hrun Hfirst Hgt Hok Htl Hroom h.
  destruct (ok_new_task base w t Hok Hgt) as [Hok1 Hnone].
  assert (Hf1 : frames (me (with_task t w)) !! h = Some (new_frame t)) by (cbn; apply lookup_insert_eq).
  destruct (ok_quiet base (with_task t w) h _ (set_susp Running (new_frame t)) Hok1 Hf1) as [Hok2 Ha2];
    try done.
  unfold first_resume. apply wp_bind. eapply wp_upd_frame; [exact Hf1|].
  set (w2 := upd _ _). change (with_frames _ _) with w2 in Hok2, Ha2.
  assert (Hf2 : frames (me w2) !! h = Some (set_susp Running (new_frame t))) by (cbn; apply lookup_insert_eq).
  apply wp_bind.
  assert (Hw : wp (run t h) (fun o w' => run_post base h w2 o w' /\ tl_sq_full (me w') = false) w2).
  { split; [|apply (run_first_ok t Hfirst h w2); [apply Hok2|exact Hroom|exact Htl]].
    apply (Hrun base h w2 (set_susp Running (new_frame t)) Hok2); [|exact Hf2|done].
    intros _ E. cbn in E. congruence. }
  eapply wp_mono; [exact Hw|]. intros o w3 [Hpost Htl3].
  destruct o as [st| |]; [|done|done]. destruct Hpost as (Hok3 & _ & Ha3 & Hk3 & f & Hf & Hst).
  destruct (ad_cont _ _ _ Ha3 h _ eq_refl Hf2) as (f' & Hf' & Hc). rewrite Hf in Hf'. simplify_eq.
  cbn in Hc. destruct st as [|n]; [|destruct Hst as [_ ->]; rewrite Hc].
  all: apply wp_ret; split_and!; try done; [by eapply advances_trans|eauto].
Qed.

Lemma advances_new_task t (w w' : W) :
  advances (eq (next_frame (me w))) (me (with_task t w)) (me w') -> advances (fun _ => False) (me w) (me w').
Proof.
  intros [N F C (l & T & L) Q A]. cbn in *. split; cbn; try done.
  - lia.
  - intros j Hj _. rewrite F by lia. rewrite lookup_insert_ne by lia. done.
  - exists l. split; [done|]. intros j Hj%L. lia.
Qed.

Lemma spawn_temporary_safe base t (w : W) :
  run_safe_for t -> first_ok t -> good t -> ok base w -> calm w ->
  wp (spawn_temporary t (fun h' => run t h')) (spawn_post base w) w.
Proof.
  intros Hrun Hfirst Hgt Hok Hcalm. destruct (ok_new_task base w t Hok Hgt) as [Hok1 Hnone].
  unfold spawn_temporary. apply wp_bind. unfold new_task at 1, wp at 1. cbn [fst snd].
  change (mkWorld _ (sh w) (kern w)) with (with_task t w). set (h := next_frame (me w)).
  apply wp_bind, wp_try. unfold spawn. apply wp_bind, wp_gets.
  change (s_io (me (with_task t w))) with (s_io (me w)). cbv zeta. fold (sq_count (sq (s_io (me w)))).
  destruct (sq_entries (sq (s_io (me w))) <=? sq_count (sq (s_io (me w)))) eqn:Hcap.
  - apply Z.leb_le in Hcap. apply wp_throw, wp_bind. unfold wp at 1, h.
    rewrite destroy_fresh by done. cbn [fst snd]. apply wp_ret.
    destruct Hok as [[Hio Hheap Hgood Hgrow Hself Hefd] Hsh]. split_and!; try done.
    + split; [|done]. split; try done. cbn. eapply heap_counters; [| |exact Hheap]; lia.
    + split; cbn; try done; [lia|]. exists []. rewrite app_nil_r. split; [done|]. by intros j ?%elem_of_nil.
  - apply Z.leb_gt in Hcap. assert (Htl : tl_sq_full (me w) = false).
    { destruct (tl_sq_full (me w)) eqn:E; [|done]. specialize (Hcalm E). lia. }
    apply wp_bind. eapply wp_mono; [by apply (first_resume_safe base t w)|].
    intros o w3 (-> & Hok3 & Htl3 & Hk3 & Ha3 & f & Hf & Hc). fold h in Hf, Ha3.
    apply wp_bind. unfold take_pending at 1, wp at 1, take_pending_sq_error. rewrite Htl3. cbn [fst snd negb].
    replace (mkWorld (set_tl false (me w3)) (sh w3) (kern w3)) with w3
      by (destruct w3 as [[] ? ?]; cbn in Htl3; by subst).
    apply wp_bind, wp_gets. destruct Hok3 as [[Hio Hheap Hgood Hgrow Hself Hefd] Hsh].
    rewrite Hgrow. apply wp_modify, wp_ret.
    assert (Hnin : h ∉ tasks_ (me w3)).
    { destruct (ad_tasks _ _ _ Ha3) as (l & -> & Hl). intros [Hin|Hin%Hl]%elem_of_app.
      - destruct (hk_task_frames _ _ _ _ _ _ (sk_heap _ _ (proj1 Hok)) h Hin) as [[? E] _].
        unfold h in E. congruence.
      - cbn in Hin. unfold h in Hin. lia. }
    split_and!; try done.
    + split; [|done]. split; try done. cbn. by eapply heap_push_task.
    + intros E. cbn in E. congruence.
    + apply advances_new_task in Ha3.
      destruct Ha3 as [N F C (l & T & L) Q A]. split; cbn; try done.
      exists (l ++ [h]). rewrite T, app_assoc. split; [done|].
      intros j [Hj%L|Hj%list_elem_of_singleton]%elem_of_app; [done|]. subst j. unfold h. lia.
Qed.

(** *** The body *)

(** Reaching the final suspend point. *)
Lemma finish_safe base h (w : W) f g :
  ok base w -> flag_ok w -> frames (me w) !! h = Some f -> susp f = Running ->
  susp (g f) = Running -> continuation (promise (g f)) = continuation (promise f) ->
  wp (upd_frame h g;; final_suspend h) (run_post base h w) w.
Proof.
  intros Hok Hfl Hf Hs Hgs Hgc. apply wp_bind. eapply wp_upd_frame; [exact Hf|].
  unfold final_suspend. apply wp_bind. eapply wp_get_frame; [cbn; apply lookup_insert_eq|].
  apply wp_bind, wp_put_frame, wp_ret.
  destruct (ok_quiet base w h f (set_susp AtFinal (g f)) Hok Hf) as [Hok' Ha']; try done; [by rewrite Hs|].
  set (w' := upd _ _).
  assert (w' = with_frames (<[h := set_susp AtFinal (g f)]> (frames (me w))) w) as ->.
  { unfold w', with_frames, upd; cbn. by rewrite insert_insert_eq. }
  split_and!; try done. exists (set_susp AtFinal (g f)). cbn. rewrite lookup_insert_eq.
  split_and!; try done. unfold FinalAwaiter_await_suspend. by destruct (continuation _).
Qed.

(** Awaiting an inner task, given that the inner and the outer part are safe. *)
Lemma await_task_safe base h (w : W) f t k :
  run_safe_for t -> (forall r, run_safe_for (k r)) -> (forall r, good (k r)) ->
  ok base w -> flag_ok w -> frames (me w) !! h = Some f -> susp f = Running ->
  wp (run (CoAwaitTask t k) h) (run_post base h w) w.
Proof.
  intros Ht Hk Hgk Hok Hfl Hf Hs.
  destruct (ok_enter_task base w h f k Hok Hf Hs Hgk) as (Hok1 & Ha1 & Hlt).
  cbn [run]. eapply wp_enter_task; [exact Hf|lia|]. set (h' := next_frame (me w)) in *. set (w1 := upd _ w) in *.
  assert (Hf1 : frames (me w1) !! h = Some (set_susp (AtTask h' k) f)).
  { cbn. rewrite lookup_insert_ne by lia. apply lookup_insert_eq. }
  assert (Hf1' : frames (me w1) !! h' = Some (mkFrame (mkPromise None None (Some h)) Running))
    by (cbn; apply lookup_insert_eq).
  apply wp_bind. eapply wp_mono; [by apply (Ht base h' w1 _ Hok1 Hfl Hf1')|].
  intros o w2 Hpost. destruct o as [st| |]; [|done|done].
  destruct Hpost as (Hok2 & Hfl2 & Ha2 & Hk2 & fc & Hfc & Hst).
  assert (Hf2 : frames (me w2) !! h = Some (set_susp (AtTask h' k) f)).
  { rewrite (ad_frames _ _ _ Ha2); [done|cbn; lia|lia]. }
  assert (Ha : advances (eq h) (me w) (me w2)).
  { destruct Ha1 as [N F C (l & T & L) [Q1 Q2] (A & B & D & E)], Ha2 as [N' F' C' (l' & T' & L') [Q1' Q2'] (A' & B' & D' & E')].
    split.
    - lia.
    - intros j Hj Hne. rewrite F' by (cbn in *; lia). by apply F.
    - intros j g <- Hg. simplify_eq. exists (set_susp (AtTask h' k) f). done.
    - exists (l ++ l'). rewrite T', T, app_assoc. split; [done|].
      intros j [Hj%L|Hj%L']%elem_of_app; cbn in *; lia.
    - split; congruence.
    - split_and!; congruence. }
  destruct st as [|n].
  - apply wp_ret. split_and!; try done. eexists. split; [exact Hf2|]. cbn. tauto.
  - destruct Hst as [Hfin ->].
    destruct (ad_cont _ _ _ Ha2 h' _ eq_refl Hf1') as (fc' & Hfc' & Hc). rewrite Hfc in Hfc'. simplify_eq.
    rewrite Hc. cbn. rewrite decide_True by done.
    destruct (leave_task_safe base w2 h _ h' fc' k Hok2 Hf2 eq_refl Hfc Hfin) as (E & Hok3 & _ & Hne & Hts).
    apply wp_bind. unfold wp at 1. rewrite E. cbn [fst snd].
    set (w3 := with_frames _ w2) in *.
    apply (wp_mono _ (run_post base h w3)).
    { apply (Hk _ base h w3 (set_susp Running (set_susp (AtTask h' k) f)) Hok3); [exact Hfl2| |done].
      cbn. apply lookup_insert_eq. }
    intros o w4. apply run_post_trans; [|exact Hk2].
    destruct Ha as [N F C T Q A]. split; cbn; try done.
    + intros j Hj Hnj. rewrite lookup_insert_ne, lookup_delete_ne by lia. by apply F.
    + intros j g <- Hg. simplify_eq. eexists. rewrite lookup_insert_eq. done.
Qed.

(** A good body never gets stuck and keeps the invariant. *)
Lemma run_safe b : good b -> run_safe_for b.
Proof.
  induction b as [v|e|g k IH|op to k IH|t IHt k IH|t IHt k IH|dst fn k IH]; cbn [good];
    intros Hg base h w f Hok Hfl Hf Hs.
  - by eapply finish_safe.
  - by eapply finish_safe.
  - cbn [run]. apply wp_bind. destruct (do_user_safe g w (proj2 Hok)) as (z & s' & E & Hs').
    unfold wp at 1. rewrite E. cbn [fst snd].
    apply (IH z (Hg z) base h (mkWorld (me w) s' (kern w)) f); try done. split; [apply Hok|done].
  - destruct Hg as [Hto Hg]. cbn [run].
    eapply wp_await; [exact Hf|exact Hs|apply Hok| | |].
    + eapply heap_fresh_awt, (sk_heap _ _ (proj1 Hok)).
    + intros q Hq He Hp. apply wp_ret.
      destruct (ok_suspend_op base w h f k (made op to) q Hok Hf Hs Hg Hq He Hp) as [Hok' Ha'].
      split_and!; try done.
      * intros Htm Htl. cbn in Htl |- *. specialize (Hfl Htm Htl). rewrite He.
        pose proof (length_sq_pending q) as Hl. rewrite Hp, length_app in Hl.
        pose proof (length_sq_pending (sq (s_io (me w)))). lia.
      * eexists. cbn. rewrite lookup_insert_eq. split; [done|]. cbn. tauto.
    + intros Hfull w' w1 E. apply wp_bind. unfold wp at 1. rewrite E. cbn [fst snd].
      apply (wp_mono _ (run_post base h w')).
      * apply (IH 0 (Hg 0) base h w' f); [by apply ok_bump; [|lia]| |done|done].
        intros Htm _. cbn. destruct Hto as [->|Htm']; [|congruence]. cbn in Hfull. lia.
      * intros o w2. apply run_post_trans; [|done]. split; cbn; eauto.
        exists []. rewrite app_nil_r. split; [done|]. by intros j ?%elem_of_nil.
  - destruct Hg as [Hgt Hgk]. eapply await_task_safe; eauto.
  - destruct Hg as (Htm & Hfirst & Hgt & Hgk). cbn [run]. apply wp_bind.
    eapply wp_mono; [apply (spawn_temporary_safe base t w (IHt Hgt) Hfirst Hgt Hok (Hfl Htm))|].
    intros o w1. destruct o as [e| |]; [|done|done]. intros (Hok1 & Hc1 & _ & Ha1 & Hk1).
    assert (Hlt : (h < next_frame (me w))%nat)
      by (apply (hk_frame_old _ _ _ _ _ _ (sk_heap _ _ (proj1 Hok))); eauto).
    apply (wp_mono _ (run_post base h w1)).
    + apply (IH e (Hgk e) base h w1 f); [done|by intros _| |done]. rewrite (ad_frames _ _ _ Ha1); [done|done|tauto].
    + intros o w2. apply run_post_trans; [|done]. apply advances_weaken; [done|]. by intros ? <-.
  - destruct Hg as (Hd & Hgf & Hgk). cbn [run]. apply wp_bind, wp_try.
    destruct (post_safe dst fn w (proj2 Hok) Hd Hgf) as (o & s' & E & Hs' & Ho).
    unfold wp at 1. rewrite E. cbn [fst snd]. destruct Ho as [-> | ->].
    all: apply (IH _ (Hgk _) base h (mkWorld (me w) s' (kern w)) f); try done; split; [apply Hok|done].
Qed.

(** ** Resuming *)

(** What a whole resumption leaves alone. *)
Definition stays (s s' : sched U) : Prop :=
  cq (s_io s') = cq (s_io s) /\ s_id s' = s_id s /\ eventfd_ s' = eventfd_ s /\
  eventfd_armed_ s' = eventfd_armed_ s /\ shutting_down_ s' = shutting_down_ s.

Lemma stays_trans s1 s2 s3 : stays s1 s2 -> stays s2 s3 -> stays s1 s3.
Proof. intros (?&?&?&?&?) (?&?&?&?&?). split_and!; congruence. Qed.

Lemma advances_stays mine s s' : advances mine s s' -> stays s s'.
Proof. intros [_ _ _ _ [? _] ?]. by split. Qed.

(** The common shape of the postconditions below. *)
Definition keeps_ok (base : list word64) (w w' : W) : Prop :=
  ok base w' /\ stays (me w) (me w') /\ kern w' = kern w.

Lemma keeps_ok_trans base w1 w2 w3 : keeps_ok base w1 w2 -> keeps_ok base w2 w3 -> keeps_ok base w1 w3.
Proof.
  intros (_ & S1 & K1) (O2 & S2 & K2). split_and!; [done|by eapply stays_trans|congruence].
Qed.

(** Symmetric transfer ends: continuations are older than the frames that
    transfer to them, and each finds its owner waiting. *)
Lemma transfer_safe base n : forall st h f (w : W),
  ok base w -> flag_ok w -> (h <= n)%nat -> frames (me w) !! h = Some f ->
  match st with
  | Suspended => True
  | Finished next => susp f = AtFinal /\ next = continuation (promise f)
  end ->
  wp (transfer n st) (fun o w' => o = Normal tt /\ keeps_ok base w w') w.
Proof.
  induction n as [|n IH]; intros st h f w Hok Hfl Hn Hf Hst.
  all: destruct st as [|[c|]]; [done| |done]; destruct Hst as [Hfin Hc].
  all: assert (Hcont : continues (frames (me w)) h c) by (by exists f).
  all: pose proof (hk_order _ _ _ _ _ _ (sk_heap _ _ (proj1 Hok)) c h Hcont).
  1: lia.
  cbn [transfer].
  destruct (proj2 (hk_chain _ _ _ _ _ _ (sk_heap _ _ (proj1 Hok)) c h) Hcont) as (fc & k & Hfc & Hsc).
  apply wp_bind. eapply wp_get_frame; [exact Hfc|]. rewrite Hsc.
  destruct (leave_task_safe base w c fc h f k Hok Hfc Hsc Hf Hfin) as (E & Hok1 & Hgk & Hne & _).
  apply wp_bind. unfold wp at 1. rewrite E. cbn [fst snd]. set (w1 := with_frames _ w) in *.
  apply wp_bind. eapply wp_mono.
  { apply (run_safe _ (Hgk (Task_await_resume f)) base c w1 (set_susp Running fc) Hok1); [exact Hfl| |done].
    cbn. apply lookup_insert_eq. }
  intros o w2. destruct o as [st| |]; [|done|done]. intros (Hok2 & Hfl2 & Ha2 & Hk2 & f2 & Hf2 & Hst2).
  eapply wp_mono; [apply (IH st c f2 w2 Hok2 Hfl2 ltac:(lia) Hf2)|].
  - by destruct st.
  - intros o w3 [-> H3]. split; [done|]. eapply keeps_ok_trans; [|exact H3].
    split_and!; [done| |done]. by apply advances_stays in Ha2.
Qed.

Lemma ok_perm base base' w : base ≡ₚ base' -> ok base w -> ok base' w.
Proof.
  intros Hp [[Hio Hheap Hgood Hgrow Hself Hefd] Hsh]. split; [|done]. split; try done.
  - eapply heap_perm; [|exact Hheap]. unfold outstanding. by rewrite Hp.
  - rewrite <- Hefd. unfold efd_count, outstanding. by rewrite Hp.
Qed.

(** A completion for awaitable [a] arrives: the invariant without it holds for
    the world in which its frame runs again. *)
Lemma ok_resume base w a :
  ok (AddrAwaitable a :: base) w ->
  exists x h f k,
    awts (me w) !! a = Some x /\ handle x = Some h /\
    frames (me w) !! h = Some f /\ susp f = AtOp a k /\ (forall z, good (k z)) /\
    ok base (upd (fun s => set_awts (delete a (awts s))
                    (set_frames (<[h := set_susp Running f]> (frames s)) s)) w).
Proof.
  intros [[Hio Hheap Hgood Hgrow Hself Hefd] Hsh].
  assert (Hin : AddrAwaitable a ∈ outstanding (AddrAwaitable a :: base) (me w))
    by (cbn; by apply elem_of_cons; left).
  apply (hk_live _ _ _ _ _ _ Hheap) in Hin as [h Hw].
  destruct (hk_handle _ _ _ _ _ _ Hheap h a Hw) as (x & Hx & Hh).
  destruct Hw as (f & k & Hf & Hs). exists x, h, f, k. split_and!; try done.
  - specialize (Hgood h f Hf). by rewrite Hs in Hgood.
  - split; [|done]. split; cbn; try done.
    + by eapply heap_resume_op.
    + intros j g. rewrite lookup_insert. case_decide; [by intros [= <-]|apply Hgood].
Qed.

(** ** Callables *)

Definition invoke_post (base : list word64) (w : W) (o : outcome exn unit) (w' : W) : Prop :=
  (o = Normal tt \/ exists e, o = Throw e) /\ keeps_ok base w w' /\ tl_sq_full (me w') = false.

Lemma stays_refl s : stays s s.
Proof. by split_and!. Qed.

Lemma keeps_ok_shared base (w : W) s' :
  ok base w -> shared_ok s' -> keeps_ok base w (mkWorld (me w) s' (kern w)).
Proof. intros [Hs _] Hs'. split_and!; [by split|apply stays_refl|done]. Qed.

Lemma invoke_post_trans base w w1 o w' :
  keeps_ok base w w1 -> invoke_post base w1 o w' -> invoke_post base w o w'.
Proof. intros Hk (Ho & Hk' & Htl). split_and!; try done. by eapply keeps_ok_trans. Qed.

Lemma post_invoke base dst f (w : W) :
  ok base w -> tl_sq_full (me w) = false -> known dst -> good_fn f ->
  wp (post dst f) (invoke_post base w) w.
Proof.
  intros Hok Htl Hd Hf. destruct (post_safe dst f w (proj2 Hok) Hd Hf) as (o & s' & E & Hs' & Ho).
  unfold wp. rewrite E. cbn. split_and!; [destruct Ho; eauto|by apply keeps_ok_shared|done].
Qed.

(** The dispatch closure of [Runtime::post] picks an existing worker. *)
Lemma dispatch_safe base job (w : W) :
  good_fn (FnDispatch job) -> ok base w -> tl_sq_full (me w) = false ->
  wp (invoke (FnDispatch job)) (invoke_post base w) w.
Proof.
  intros (Hnw & Hkn & Hjob) Hok Htl. cbn [invoke]. apply wp_bind, wp_gets, wp_bind, wp_modify.
  destruct Hok as [Hme Hsh]. rewrite (so_workers _ Hsh). destruct nw as [|m] eqn:Hm; [done|]. rewrite <- Hm in *.
  set (idx := Z.to_nat _). set (w1 := mkWorld _ _ _).
  assert (Hw1 : ok base w1).
  { split; [done|]. destruct Hsh as [H1 H2 H3 H4]. split; try done. cbn.
    unfold u64. apply Z.mod_pos_bound. unfold two64. lia. }
  assert (Hidx : (idx < nw)%nat).
  { unfold idx. pose proof (Z.mod_pos_bound (next_worker_ (sh w)) (Z.of_nat nw) ltac:(lia)). lia. }
  apply (wp_mono _ (invoke_post base w1)); [by apply post_invoke; eauto|].
  intros o w'. apply invoke_post_trans. split_and!; [done|apply stays_refl|done].
Qed.

Lemma invoke_safe f : good_fn f -> forall base (w : W),
  ok base w -> tl_sq_full (me w) = false -> wp (invoke f) (invoke_post base w) w.
Proof.
  induction f as [|e|g k IH|t k IH|dst f _ k IH|job IH]; intros Hg base w Hok Htl; cbn [invoke].
  - split_and!; [eauto| |done]. split_and!; [done|apply stays_refl|done].
  - split_and!; [eauto| |done]. split_and!; [done|apply stays_refl|done].
  - apply wp_bind. destruct (do_user_safe g w (proj2 Hok)) as (z & s' & E & Hs').
    unfold wp at 1. rewrite E. cbn [fst snd].
    eapply wp_mono; [apply (IH z (Hg z) base (mkWorld (me w) s' (kern w))); [split; [apply Hok|done]|done]|].
    intros o w'. apply invoke_post_trans. by apply keeps_ok_shared.
  - destruct Hg as (Hfirst & Hgt & Hgk). apply wp_bind.
    eapply wp_mono; [apply (spawn_temporary_safe base t w (run_safe t Hgt) Hfirst Hgt Hok)|].
    { intros E. congruence. }
    intros o w1. destruct o as [e| |]; [|done|done]. intros (Hok1 & _ & Htl1 & Ha1 & Hk1).
    eapply wp_mono; [apply (IH e (Hgk e) base w1 Hok1); by apply Htl1|].
    intros o w'. apply invoke_post_trans. split_and!; [done|by eapply advances_stays|done].
  - destruct Hg as (Hd & Hgf & Hgk). apply wp_bind, wp_try.
    eapply wp_mono; [by apply (post_invoke base dst f w)|].
    intros o w1 (Ho & Hk1 & Htl1). destruct Ho as [-> | [e ->]].
    all: eapply wp_mono; [apply (IH _ (Hgk _) base w1); [apply Hk1|done]|].
    all: intros o w'; by apply invoke_post_trans.
  - by apply dispatch_safe.
Qed.
End Safety.
