(* ===== verification/EventLoop.v ===== *)
(** * EventLoop: the turns of [Scheduler::run] keep the invariant

    Lifts the invariant of Safety from user code to the event loop of
    src/scheduler.cpp: completions are followed only to awaitables that are
    alive, the completion loop stays inside the ring and ends, and a turn of
    the loop leaves the scheduler in the state the next turn needs.  What the
    kernel does is only known through [KernelSpec]. *)
From stdpp Require Import prelude list gmap.
From Stdlib Require Import ZArith Lia.
From S2P Require Import Prelude ErrorCodes Ring Operations Awaitable Task Machine Kernel Scheduler Heap Safety.

Section EventLoop.
Context {U K : Type} `{HK : Kernel K}.
#[local] Abbreviation M := (exec (world U K) exn).
#[local] Abbreviation W := (world U K).
Context (known : nat -> Prop) (nw : nat) (timed : bool).
#[local] Abbreviation good := (good (U:=U) known nw timed).
#[local] Abbreviation good_fn := (good_fn (U:=U) known nw timed).
#[local] Abbreviation ok := (ok (U:=U) (K:=K) known nw timed).
#[local] Abbreviation shared_ok := (shared_ok (U:=U) known nw timed).
#[local] Abbreviation keeps_ok := (keeps_ok (U:=U) (K:=K) known nw timed).
#[local] Abbreviation flag_ok := (flag_ok (U:=U) (K:=K) timed).

(** ** Delivering a completion *)

(** The world in which frame [h], suspended on awaitable [a], runs again. *)
Definition resumed (a h : nat) (f : frame U) (w : W) : W :=
  upd (fun s => set_awts (delete a (awts s)) (set_frames (<[h := set_susp Running f]> (frames s)) s)) w.

(** A completion resumes the coroutine that waits for it, at the point where
    it waits, with the completion's [res] as the value of [co_await]. *)
Lemma resume_awaitable_eq a x h f k r (w : W) :
  awts (me w) !! a = Some x -> handle x = Some h ->
  frames (me w) !! h = Some f -> susp f = AtOp a k ->
  resume_awaitable (AddrAwaitable a) r w =
    ((s ← run (k r) h; transfer h s);; take_pending;; mret tt) (resumed a h f w).
Proof.
  intros Hx Hh Hf Hs. unfold resume_awaitable, resume_handle, get_awt, get_frame, put_awt, put_frame,
    finish_awaitable, del_awt, get_awt, on_me, demand, modify, mbind, exec_bind, mret, exec_ret.
  rewrite Hx. cbn. rewrite Hh. cbn. rewrite Hf. cbn. rewrite Hs. cbn. rewrite lookup_insert_eq. cbn.
  rewrite delete_insert_eq. reflexivity.
Qed.

Lemma flag_down (w : W) : tl_sq_full (me w) = false -> flag_ok w.
Proof. intros H _. congruence. Qed.

Lemma ok_tl base (w : W) b : ok base w -> ok base (upd (set_tl b) w).
Proof. intros [[] ?]. by split. Qed.

Lemma resume_awaitable_safe base a r (w : W) :
  ok (AddrAwaitable a :: base) w -> tl_sq_full (me w) = false ->
  wp (resume_awaitable (AddrAwaitable a) r)
     (fun o w' => o = Normal tt /\ keeps_ok base w w' /\ tl_sq_full (me w') = false) w.
Proof.
  intros Hok Htl. destruct (ok_resume known nw timed base w a Hok) as (x & h & f & k & Hx & Hh & Hf & Hs & Hk & Hok').
  unfold wp. rewrite (resume_awaitable_eq a x h f k r w Hx Hh Hf Hs).
  change (wp ((s ← run (k r) h; transfer h s);; take_pending;; mret tt)
    (fun o w' => o = Normal tt /\ keeps_ok base w w' /\ tl_sq_full (me w') = false) (resumed a h f w)).
  fold (resumed a h f w) in Hok'. apply wp_bind, wp_bind.
  eapply wp_mono.
  { apply (run_safe known nw timed _ (Hk r) base h _ (set_susp Running f) Hok'); [by apply flag_down| |done].
    cbn. apply lookup_insert_eq. }
  intros o w1. destruct o as [st| |]; [|done|done]. intros (Hok1 & Hfl1 & Ha1 & Hk1 & f1 & Hf1 & Hst).
  eapply wp_mono; [apply (transfer_safe known nw timed base h st h f1 w1 Hok1 Hfl1 (le_n h) Hf1); by destruct st|].
  intros o w2 [-> (Hok2 & Hst2 & Hk2)]. apply wp_bind. unfold take_pending, take_pending_sq_error, wp at 1.
  destruct (tl_sq_full (me w2)) eqn:E; cbn.
  all: split; [done|]; split; [|done]; split_and!; [by apply (ok_tl base w2)| |cbn; by rewrite Hk2, Hk1].
  all: eapply stays_trans; [|exact Hst2]; by apply advances_stays in Ha1.
Qed.

(** ** Draining the inbox *)

(** Requeueing is posting to oneself without looking at the result. *)
Lemma requeue_post f (w : W) :
  is_Some (boxes (sh w) !! s_id (me w)) ->
  requeue f w = (Normal tt, snd (post (s_id (me w)) f w)).
Proof.
  intros [box Hbox]. unfold requeue, post, inbox_push, eventfd_write, gets, mbind, exec_bind, demand,
    on_shared, modify, throw, mret, exec_ret. rewrite Hbox. cbn. rewrite lookup_insert_eq. cbn.
  by destruct (EFD_MAX <? efd_counter box + 1).
Qed.

(** What one item, or the whole inbox, may leave behind: the invariant, or an
    exception that is not the library's own. *)
Definition item_post (base : list word64) (w : W) (o : outcome exn unit) (w' : W) : Prop :=
  match o with
  | Normal _ => keeps_ok base w w' /\ tl_sq_full (me w') = false
  | Throw (OtherException _) => True
  | _ => False
  end.

Lemma drain_one_safe base f (w : W) :
  good_fn f -> ok base w -> tl_sq_full (me w) = false ->
  wp (drain_one f) (item_post base w) w.
Proof.
  intros Hg Hok Htl. unfold drain_one. apply wp_bind, wp_try.
  eapply wp_mono; [by apply (invoke_safe known nw timed f Hg base w)|].
  intros o w1 (Ho & Hk1 & Htl1). destruct Ho as [-> | [e ->]]; [done|].
  destruct e as [st|]; [|done]. case_decide; [|done].
  pose proof Hk1 as [[Hs1 Hsh1] _]. pose proof (sk_self _ _ _ _ _ Hs1) as Hself.
  unfold wp. rewrite requeue_post by (by apply (so_known _ _ _ _ Hsh1)).
  destruct (post_safe known nw timed _ f w1 Hsh1 Hself Hg) as (o & s' & E & Hs' & _). rewrite E. cbn.
  split; [|done]. eapply keeps_ok_trans; [exact Hk1|]. by apply keeps_ok_shared.
Qed.

Lemma drain_local_safe base l : Forall good_fn l -> forall (w : W),
  ok base w -> tl_sq_full (me w) = false -> wp (drain_local l) (item_post base w) w.
Proof.
  intros Hl. induction Hl as [|f l Hf _ IH]; intros w Hok Htl; cbn [drain_local].
  { split; [|done]. split_and!; [done|apply stays_refl|done]. }
  apply wp_bind. eapply wp_mono; [by apply (drain_one_safe base f w)|].
  intros o w1. destruct o as [[]|[]|]; try done. intros [Hk1 Htl1].
  eapply wp_mono; [apply IH; [apply Hk1|done]|].
  intros o w2. destruct o as [[]|[]|]; try done. intros [Hk2 Htl2].
  split; [by eapply keeps_ok_trans|done].
Qed.

(** Taking the whole inbox. *)
Lemma take_inbox_eq (w : W) box :
  boxes (sh w) !! s_id (me w) = Some box ->
  take_inbox w = (Normal (inbox_ box),
    mkWorld (me w) (with_boxes (<[s_id (me w) := mkBox [] (efd_counter box)]> (boxes (sh w))) (sh w)) (kern w)).
Proof.
  intros Hbox. unfold take_inbox, gets, demand, on_shared, modify, mbind, exec_bind. rewrite Hbox. done.
Qed.

Lemma drain_inbox_safe base (w : W) :
  ok base w -> tl_sq_full (me w) = false -> wp drain_inbox (item_post base w) w.
Proof.
  intros Hok Htl. pose proof Hok as [Hs Hsh].
  destruct (so_known _ _ _ _ Hsh _ (sk_self _ _ _ _ _ Hs)) as [box Hbox].
  destruct (so_good _ _ _ _ Hsh _ _ Hbox) as [Hg Hc].
  unfold drain_inbox. apply wp_bind. unfold wp at 1. rewrite (take_inbox_eq w box Hbox). cbn [fst snd].
  set (w1 := mkWorld _ _ _).
  assert (Hk1 : keeps_ok base w w1) by (by apply keeps_ok_shared; [|apply shared_ok_box]).
  eapply wp_mono; [apply drain_local_safe; [done|apply Hk1|done]|done].
Qed.

(** ** The completion loop *)

(** What a completion may change besides user state: the armed flag. *)
Definition settles (s s' : sched U) : Prop :=
  cq (s_io s') = cq (s_io s) /\ s_id s' = s_id s /\ eventfd_ s' = eventfd_ s /\
  shutting_down_ s' = shutting_down_ s.

Lemma stays_settles s s' : stays s s' -> settles s s'.
Proof. by intros (?&?&?&?&?). Qed.

Definition cqe_post (base : list word64) (w : W) (o : outcome exn unit) (w' : W) : Prop :=
  match o with
  | Normal _ => ok base w' /\ tl_sq_full (me w') = false /\ settles (me w) (me w') /\ kern w' = kern w
  | Throw (OtherException _) => True
  | _ => False
  end.

Lemma efd_count_cons p l :
  efd_count (p :: l) = ((if decide (p = AddrEventfdBuf) then 1 else 0) + efd_count l)%nat.
Proof. unfold efd_count. rewrite filter_cons. by case_decide. Qed.

(** An eventfd completion clears the flag, and the read is no longer
    outstanding. *)
Lemma ok_efd_cqe base (w : W) :
  ok (AddrEventfdBuf :: base) w -> ok base (upd (set_armed false) w).
Proof.
  intros [[Hio Hheap Hgood Hgrow Hself Hefd] Hsh]. split; [|done]. split; try done.
  - cbn. apply (heap_out_add _ AddrEventfdBuf); [by right|exact Hheap].
  - cbn [me upd set_armed eventfd_armed_]. change (outstanding base (set_armed false (me w)))
      with (outstanding base (me w)).
    change (outstanding (AddrEventfdBuf :: base) (me w)) with (AddrEventfdBuf :: outstanding base (me w)) in Hefd.
    rewrite efd_count_cons, decide_True in Hefd by done. destruct (eventfd_armed_ (me w)); lia.
Qed.

Lemma ok_null_cqe base (w : W) : ok (Num 0 :: base) w -> ok base w.
Proof.
  intros [[Hio Hheap Hgood Hgrow Hself Hefd] Hsh]. split; [|done]. split; try done.
  apply (heap_out_add _ (Num 0)); [by left|exact Hheap].
Qed.

Lemma handle_cqe_safe base c (w : W) :
  ok (cqe_user_data c :: base) w -> tl_sq_full (me w) = false ->
  wp (handle_cqe c) (cqe_post base w) w.
Proof.
  intros Hok Htl. unfold handle_cqe. case_decide as He.
  - rewrite He in Hok. apply ok_efd_cqe in Hok. apply wp_bind, wp_modify.
    change (mkWorld _ (sh w) (kern w)) with (upd (set_armed false) w).
    eapply wp_mono; [by apply (drain_inbox_safe base)|].
    intros o w'. destruct o as [[]|[]|]; try done. intros [(Hok' & Hst & Hk) Htl'].
    split_and!; try done. by apply stays_settles in Hst.
  - assert (Hkind : cqe_user_data c = Num 0 \/ exists a, cqe_user_data c = AddrAwaitable a).
    { destruct (hk_kinds _ _ _ _ _ _ (sk_heap _ _ _ _ _ (proj1 Hok)) (cqe_user_data c)) as [?|[?|?]]; auto; [|done].
      cbn. by apply elem_of_cons; left. }
    destruct Hkind as [E|[a E]]; rewrite E in Hok |- *.
    + apply wp_ret. split_and!; try done. by apply ok_null_cqe.
    + eapply wp_mono; [by apply (resume_awaitable_safe base a (res c) w)|].
      intros o w' (-> & (Hok' & Hst & Hk) & Htl'). split_and!; try done. by apply stays_settles.
Qed.

(** User data of what the kernel holds or has answered. *)
Definition at_kernel (k : K) (q : Cq) : list word64 :=
  (user_data <$> k_inflight k) ++ (cqe_user_data <$> cq_ready q).

(** The invariant between two turns of the loop. *)
Definition inv (w : W) : Prop :=
  ok (at_kernel (kern w) (cq (s_io (me w)))) w /\ tl_sq_full (me w) = false.

Definition advance_cq (s : sched U) : sched U :=
  set_io (with_cq (s_io s) (set_cq_head (cq_head (cq (s_io s)) +u32 1) (cq (s_io s)))) s.

Lemma ok_advance base (w : W) :
  ok base w -> 0 < cq_count (cq (s_io (me w))) -> ok base (upd advance_cq w).
Proof.
  intros [[Hio Hheap Hgood Hgrow Hself Hefd] Hsh] Hpos. split; [|done]. split; try done.
  split; [apply Hio|]. apply cq_advance_wf; [apply Hio|done].
Qed.

(** One turn of the completion loop. *)
Definition turn_post (w : W) (o : outcome exn unit) (w' : W) : Prop :=
  match o with
  | Normal _ => inv w' /\ s_id (me w') = s_id (me w) /\ eventfd_ (me w') = eventfd_ (me w) /\
                shutting_down_ (me w') = shutting_down_ (me w)
  | Throw (OtherException _) => True
  | _ => False
  end.

Lemma turn_post_trans w w1 o w2 :
  turn_post w (Normal tt) w1 -> turn_post w1 o w2 -> turn_post w o w2.
Proof.
  intros (_ & A & B & C). unfold turn_post. destruct o as [[]|[]|]; try done.
  intros (Hi & A' & B' & C'). split_and!; [done|congruence..].
Qed.

Lemma cqe_turn_safe c (w : W) :
  inv w -> 0 < cq_count (cq (s_io (me w))) -> c = cqe_at (cq (s_io (me w))) 0 ->
  wp (handle_cqe c)
     (fun o w' => match o with
                  | Normal _ => turn_post w (Normal tt) (upd advance_cq w') /\ settles (me w) (me w') /\ kern w' = kern w
                  | Throw (OtherException _) => True
                  | _ => False
                  end) w.
Proof.
  intros [Hok Htl] Hpos ->. set (q := cq (s_io (me w))) in *.
  set (base := at_kernel (kern w) (set_cq_head (cq_head q +u32 1) q)).
  assert (Hperm : at_kernel (kern w) q ≡ₚ cqe_user_data (cqe_at q 0) :: base).
  { unfold base, at_kernel. rewrite (cq_advance_ready q Hpos) at 1. cbn. by rewrite <- Permutation_middle. }
  apply (ok_perm known nw timed _ _ w Hperm) in Hok.
  eapply wp_mono; [by apply (handle_cqe_safe base)|].
  intros o w'. destruct o as [[]|[]|]; try done. intros (Hok' & Htl' & (Hq & Hid & He & Hsd) & Hkern).
  split; [|done]. split_and!; try done. split; [|done].
  assert (at_kernel (kern (upd advance_cq w')) (cq (s_io (me (upd advance_cq w')))) = base) as ->.
  { unfold base; cbn. by rewrite Hkern, Hq. }
  apply ok_advance; [done|]. by rewrite Hq.
Qed.

(** The loop visits the ready completions in order and ends: the fuel is
    exactly the number of completions, and every slot it reads exists.  [P] is
    anything else the handling of one completion keeps. *)
Definition cqe_keeps (P : W -> Prop) : Prop := forall w w',
  inv w -> P w -> 0 < cq_count (cq (s_io (me w))) ->
  handle_cqe (cqe_at (cq (s_io (me w))) 0) w = (Normal tt, w') ->
  settles (me w) (me w') -> kern w' = kern w -> P (upd advance_cq w').

(** An exception comes from a completion handled in a state [P] allows. *)
Definition blames (P : W -> Prop) (e : exn) : Prop := exists w w',
  inv w /\ P w /\ 0 < cq_count (cq (s_io (me w))) /\ handle_cqe (cqe_at (cq (s_io (me w))) 0) w = (Throw e, w').

Lemma cq_ready_empty q : cq_head q = cq_tail q -> cq_ready q = [].
Proof.
  intros E. apply nil_length_inv. pose proof (length_cq_ready q) as Hl. unfold cq_count in Hl.
  rewrite E, Z.sub_diag in Hl. change (u32 0) with 0 in Hl. lia.
Qed.

Lemma drain_loop_safe (P : W -> Prop) n : cqe_keeps P -> forall (w : W),
  inv w -> P w -> n = Z.to_nat (cq_count (cq (s_io (me w)))) ->
  wp (drain_loop n (cq_head (cq (s_io (me w)))) (cq_tail (cq (s_io (me w)))) (cq_mask (cq (s_io (me w)))))
     (fun o w' => turn_post w o w' /\ (o = Normal tt -> P w' /\ cq_ready (cq (s_io (me w'))) = []) /\
                  (forall e, o = Throw e -> blames P e)) w.
Proof.
  intros HP. induction n as [|n IH]; intros w Hinv Hp Hn; pose proof (cq_count_nonneg (cq (s_io (me w)))) as Hnn.
  all: pose proof (wf_io_cq _ (sk_io _ _ _ _ _ (proj1 (proj1 Hinv)))) as Hwf.
  all: cbn [drain_loop]; destruct (_ =? _) eqn:E;
    [split_and!; try done; intros _; split; [done|]; apply Z.eqb_eq in E; by apply cq_ready_empty|].
  - apply Z.eqb_neq in E. destruct E. apply u32_distance_0; [apply Hwf|apply Hwf|].
    unfold cq_count in Hn, Hnn. lia.
  - set (q := cq (s_io (me w))) in *. assert (Hpos : 0 < cq_count q) by lia.
    destruct (cqe_at_lookup q 0 Hwf) as [c Hc].
    assert (Hslot : slot (cq_head q) (cq_mask q) 0 = Z.land (cq_head q) (cq_mask q)).
    { unfold slot. rewrite Z.add_0_r, u32_id by apply Hwf. done. }
    assert (c = cqe_at q 0) as Hce by (unfold cqe_at; by rewrite Hc). rewrite Hslot in Hc.
    apply wp_bind. eapply wp_demand; [exact Hc|]. apply wp_bind.
    pose proof (cqe_turn_safe c w Hinv Hpos Hce) as Ht. unfold wp in Ht |- *.
    destruct (handle_cqe c w) as [o w1] eqn:Hrun. cbn [fst snd] in Ht |- *.
    destruct o as [[]|[]|]; [|done| |done].
    2: { split_and!; try done. intros e [= <-]. rewrite Hce in Hrun. by exists w, w1. }
    destruct Ht as (Ht & Hs1 & Hkern1). pose proof Ht as (Hinv1 & _).
    assert (Hp1 : P (upd advance_cq w1)) by (rewrite Hce in Hrun; by apply (HP w w1)).
    destruct Hs1 as (Hq1 & _). apply wp_bind, wp_modify. set (w2 := mkWorld _ _ _).
    assert (w2 = upd advance_cq w1) as -> by (unfold w2, upd, advance_cq; cbn; by rewrite Hq1).
    apply (wp_mono _ (fun o w' => turn_post (upd advance_cq w1) o w' /\
                                  (o = Normal tt -> P w' /\ cq_ready (cq (s_io (me w'))) = []) /\
                                  (forall e, o = Throw e -> blames P e)));
      [|intros o w3 [H3 H3']; split; [by apply (turn_post_trans _ (upd advance_cq w1))|exact H3']].
    replace (cq_head q +u32 1) with (cq_head (cq (s_io (me (upd advance_cq w1))))) by (cbn; by rewrite Hq1).
    replace (cq_tail q) with (cq_tail (cq (s_io (me (upd advance_cq w1))))) by (cbn; by rewrite Hq1).
    replace (cq_mask q) with (cq_mask (cq (s_io (me (upd advance_cq w1))))) by (cbn; by rewrite Hq1).
    apply IH; [done|done|]. cbn. rewrite Hq1. fold q. rewrite cq_advance_count by done. lia.
Qed.

(** ** Arming, entering the kernel, draining *)

Definition efd_entry (efd : Z) : io_uring_sqe := eventfd_read_sqe efd zero_sqe.

Lemma arm_io_publish efd io : arm_io efd io = with_sq io (publish (efd_entry efd) (sq io)).
Proof. done. Qed.

Definition armed_world (w : W) : W :=
  upd (fun s => set_armed true (set_io (arm_io (eventfd_ s) (s_io s)) s)) w.

(** Room for the eventfd read, or no need for it. *)
Definition armable (w : W) : Prop :=
  eventfd_armed_ (me w) = true \/ sq_count (sq (s_io (me w))) < sq_entries (sq (s_io (me w))).

Lemma arm_safe (w : W) :
  inv w -> eventfd_armed_ (me w) = false ->
  sq_count (sq (s_io (me w))) < sq_entries (sq (s_io (me w))) -> inv (armed_world w).
Proof.
  intros [[[Hio Hheap Hgood Hgrow Hself Hefd] Hsh] Htl] Harm Hroom. split; [|done].
  set (base := at_kernel _ _) in *.
  assert (Hout : outstanding base (me (armed_world w)) = outstanding base (me w) ++ [AddrEventfdBuf]).
  { unfold outstanding. change (sq (s_io (me (armed_world w)))) with (publish (efd_entry (eventfd_ (me w))) (sq (s_io (me w)))).
    rewrite publish_pending by (apply Hio || done). rewrite fmap_app, app_assoc. done. }
  split; [|done]. split; try done.
  - split; [apply publish_wf; [apply Hio|done]|apply Hio].
  - change (at_kernel _ _) with base. rewrite Hout. cbn.
    apply (heap_perm (AddrEventfdBuf :: outstanding base (me w))); [by rewrite Permutation_cons_append|].
    apply heap_out_add; [by right|exact Hheap].
  - change (at_kernel _ _) with base. rewrite Hout, efd_count_app, Hefd, Harm. done.
Qed.

(** Progress of the kernel moves user data between the queues and its own
    books; nothing is lost or invented. *)
Definition progressed (k' : K) (io' : IO) (box : mailbox U) (c' : Z) (w : W) : W :=
  mkWorld (set_io io' (me w))
    (with_boxes (<[s_id (me w) := mkBox (inbox_ box) c']> (boxes (sh w))) (sh w)) k'.

(** What the kernel holds or has answered, except for the first [s] answers,
    which the loop has taken up. *)
Definition pending_at (s : nat) (k : K) (q : Cq) : list word64 :=
  (user_data <$> k_inflight k) ++ (cqe_user_data <$> drop s (cq_ready q)).

Lemma effect_ok s n (w : W) box k' io' c' :
  ok (pending_at s (kern w) (cq (s_io (me w)))) w -> (s <= length (cq_ready (cq (s_io (me w)))))%nat ->
  boxes (sh w) !! s_id (me w) = Some box ->
  enter_effect n (s_io (me w)) (efd_counter box) (k_inflight (kern w)) io' c' (k_inflight k') ->
  ok (pending_at s k' (cq io')) (progressed k' io' box c' w).
Proof.
  intros [[Hio Hheap Hgood Hgrow Hself Hefd] Hsh] Hlen Hbox.
  destruct (so_good _ _ _ _ Hsh _ _ Hbox) as [Hg Hc].
  intros (j & cs & Hj & Hl & Hio' & _ & Hent & Hsp & Hh & Hr & Hperm & Hefd').
  assert (Hout : outstanding (pending_at s (kern w) (cq (s_io (me w)))) (me w) ≡ₚ
                 outstanding (pending_at s k' (cq io')) (set_io io' (me w))).
  { unfold outstanding, pending_at; cbn. rewrite Hsp, Hr, drop_app_le, fmap_app by done.
    rewrite <- (take_drop j (sq_pending (sq (s_io (me w))))) at 1. rewrite fmap_app.
    transitivity ((cqe_user_data <$> drop s (cq_ready (cq (s_io (me w))))) ++
      ((user_data <$> k_inflight (kern w)) ++ (user_data <$> take j (sq_pending (sq (s_io (me w)))))) ++
      (user_data <$> drop j (sq_pending (sq (s_io (me w)))))); [by solve_Permutation|].
    rewrite Hperm. by solve_Permutation. }
  split; cbn [me sh kern progressed].
  - split; try done.
    + eapply heap_perm; [exact Hout|exact Hheap].
    + change (eventfd_armed_ (set_io io' (me w))) with (eventfd_armed_ (me w)). rewrite <- Hefd.
      unfold efd_count. by rewrite Hout.
  - refine (shared_ok_box known nw timed _ (mkBox _ _) _ Hsh _ _); [done|]. cbn.
    unfold EFD_MAX, two64 in *. lia.
Qed.

Lemma effect_safe n (w : W) box k' io' c' :
  inv w -> boxes (sh w) !! s_id (me w) = Some box ->
  enter_effect n (s_io (me w)) (efd_counter box) (k_inflight (kern w)) io' c' (k_inflight k') ->
  turn_post w (Normal tt) (progressed k' io' box c' w).
Proof.
  intros [Hok Htl] Hbox He. split_and!; try done. split; [|done].
  apply (effect_ok 0 n w box k' io' c'); [exact Hok|lia|done|done].
Qed.

Context {HKS : KernelSpec K}.

(** The system call itself: it returns with the kernel's progress, or blocks
    when a completion is asked for. *)
Lemma enter_cases m f (w : W) :
  inv w -> exists box, boxes (sh w) !! s_id (me w) = Some box /\
  let r := enter (sq_count (sq (s_io (me w)))) m f w in
  (r = (Stuck KernelBlocks, w) /\ m <> 0 /\
   k_enter (kern w) (sq_count (sq (s_io (me w)))) m f (s_io (me w)) (efd_counter box) = None) \/
  (exists k' io' c', r = (Normal tt, progressed k' io' box c' w) /\
     k_enter (kern w) (sq_count (sq (s_io (me w)))) m f (s_io (me w)) (efd_counter box) = Some (k', io', c') /\
     enter_effect (sq_count (sq (s_io (me w)))) (s_io (me w)) (efd_counter box) (k_inflight (kern w))
       io' c' (k_inflight k')).
Proof.
  intros [[[Hio Hheap Hgood Hgrow Hself Hefd] Hsh] Htl].
  destruct (so_known _ _ _ _ Hsh _ Hself) as [box Hbox]. exists box. split; [done|].
  destruct (so_good _ _ _ _ Hsh _ _ Hbox) as [Hg Hc]. unfold enter. rewrite Hbox. cbv zeta.
  pose proof (sq_count_nonneg (sq (s_io (me w)))) as Hnn.
  destruct (k_enter _ _ _ _ _ _) as [[[k' io'] c']|] eqn:E.
  - right. exists k', io', c'. split; [done|]. split; [done|]. eapply enter_spec; [done|lia|lia|exact E].
  - left. split_and!; try done. intros ->.
    destruct (enter_nonblocking (kern w) _ f (s_io (me w)) (efd_counter box) Hio Hnn) as [? E']; [lia|congruence].
Qed.

(** [submit] may be called at any time: it returns, and keeps the invariant. *)
Lemma submit_safe (w : W) : inv w -> exists w', submit w = (Normal tt, w') /\ turn_post w (Normal tt) w'.
Proof.
  intros Hi. destruct (enter_cases 0 0 w Hi) as (box & Hb & [(_ & ? & _)|(k' & io' & c' & E & _ & He)]); [done|].
  exists (progressed k' io' box c' w). split; [exact E|by eapply effect_safe].
Qed.

(** A turn of [drain] ends in the invariant, or blocks in the kernel, or lets
    an exception of user code through: it never follows a dangling pointer,
    leaves the rings, resumes a coroutine that is not suspended, or throws one
    of the library's own exceptions. *)
Definition drain_post (w : W) (o : outcome exn unit) (w' : W) : Prop :=
  match o with
  | Stuck r => r = KernelBlocks /\ shutting_down_ (me w) = false
  | _ => turn_post w o w'
  end.

(** [P0] holds before the system call, [P] after it. *)
Lemma drain_keeps (P0 P : W -> Prop) (w : W) :
  cqe_keeps P ->
  (forall w box k' io' c', P0 w -> boxes (sh w) !! s_id (me w) = Some box ->
     k_enter (kern w) (sq_count (sq (s_io (me w)))) (if shutting_down_ (me w) then 0 else 1)
       IORING_ENTER_GETEVENTS (s_io (me w)) (efd_counter box) = Some (k', io', c') ->
     enter_effect (sq_count (sq (s_io (me w)))) (s_io (me w)) (efd_counter box) (k_inflight (kern w))
       io' c' (k_inflight k') -> P (progressed k' io' box c' w)) ->
  inv w -> armable w -> P0 (if eventfd_armed_ (me w) then w else armed_world w) ->
  wp drain (fun o w' => drain_post w o w' /\ (o = Normal tt -> P w' /\ cq_ready (cq (s_io (me w'))) = []) /\
                        (forall e, o = Throw e -> blames P e)) w.
Proof.
  intros HP Heff Hinv Harm Hp. unfold drain. apply wp_bind, wp_gets, wp_bind.
  set (w1 := if eventfd_armed_ (me w) then w else armed_world w) in *.
  assert (H1 : turn_post w (Normal tt) w1).
  { unfold w1. destruct (eventfd_armed_ (me w)) eqn:E; [done|]. split; [|done].
    destruct Harm as [|Hroom]; [congruence|]. by apply arm_safe. }
  apply (wp_mono _ (fun o w' => o = Normal tt /\ w' = w1)).
  { unfold w1. by destruct (eventfd_armed_ (me w)). }
  intros o w' [-> ->]. apply wp_bind, wp_gets. cbv zeta. fold (sq_count (sq (s_io (me w1)))).
  apply wp_bind. set (m := if shutting_down_ (me w1) then 0 else 1).
  destruct (enter_cases m IORING_ENTER_GETEVENTS w1 (proj1 H1)) as (box & Hbox & [(E & Hm & _)|(k' & io' & c' & E & Hent & He)]).
  all: unfold wp at 1; rewrite E; cbn [fst snd].
  - split; [|by split]. split; [done|]. destruct H1 as (_ & _ & _ & Hsd). unfold m in Hm. rewrite Hsd in Hm.
    by destruct (shutting_down_ (me w)).
  - assert (H2 : turn_post w1 (Normal tt) (progressed k' io' box c' w1))
      by (eapply effect_safe; [apply H1|done|exact He]).
    unfold drain_completions. apply wp_bind, wp_gets. cbv zeta.
    eapply wp_mono; [apply (drain_loop_safe P); [done|apply H2|by eapply Heff|done]|].
    intros o w3 [H3 Hp3]. apply (turn_post_trans _ _ _ _ H2) in H3. apply (turn_post_trans _ _ _ _ H1) in H3.
    split; [by destruct o|done].
Qed.

Lemma drain_safe (w : W) : inv w -> armable w -> wp drain (drain_post w) w.
Proof.
  intros Hinv Harm. eapply wp_mono; [by apply (drain_keeps (fun _ => True) (fun _ => True))|]. by intros o w' [? _].
Qed.

(** ** Reaping *)

(** [t.done()] of a task whose frame is alive. *)
Definition is_done (F : gmap nat (frame U)) (h : nat) : bool :=
  match F !! h with Some f => handle_done f | None => false end.

Definition kept (F : gmap nat (frame U)) (ts : list nat) : list nat := filter (fun h => is_done F h = false) ts.
Definition gone (F : gmap nat (frame U)) (ts : list nat) : list nat := filter (fun h => is_done F h = true) ts.

Definition without (F : gmap nat (frame U)) (ts : list nat) : gmap nat (frame U) := foldl (fun F h => delete h F) F ts.

Lemma partition_done_eq ts (w : W) :
  (forall h, h ∈ ts -> is_Some (frames (me w) !! h)) ->
  partition_done ts w = (Normal (kept (frames (me w)) ts, gone (frames (me w)) ts), w).
Proof.
  induction ts as [|h ts IH]; intros Hlive; [done|]. cbn [partition_done].
  destruct (Hlive h ltac:(by apply elem_of_cons; left)) as [f Hf].
  unfold mbind, exec_bind, get_frame, demand in IH |- *. rewrite Hf.
  rewrite IH by (intros j Hj; apply Hlive; by apply elem_of_cons; right).
  assert (Hd : is_done (frames (me w)) h = handle_done f) by (unfold is_done; by rewrite Hf).
  unfold kept, gone. rewrite !filter_cons, Hd. by destruct (handle_done f).
Qed.

Lemma destroy_all_eq ts : forall (w : W), NoDup ts ->
  (forall h, h ∈ ts -> is_done (frames (me w)) h = true) ->
  (forall h, is_Some (frames (me w) !! h) -> (h < next_frame (me w))%nat) ->
  destroy_all ts w = (Normal tt, upd (set_frames (without (frames (me w)) ts)) w).
Proof.
  induction ts as [|h ts IH]; intros w Hnd Hdone Hold.
  { cbn. unfold upd, set_frames. by destruct w as [[] ? ?]. }
  apply NoDup_cons in Hnd as [Hnin Hnd]. cbn [destroy_all].
  pose proof (Hdone h ltac:(by apply elem_of_cons; left)) as Hh. unfold is_done in Hh.
  destruct (frames (me w) !! h) as [f|] eqn:Hf; [|done].
  pose proof (Hold h ltac:(eauto)) as Hlt.
  assert (E : destroy_task h w = (Normal tt, upd (set_frames (delete h (frames (me w)))) w)).
  { unfold destroy_task, gets, mbind, exec_bind. destruct (next_frame (me w)) as [|n]; [lia|].
    cbn [destroy_chain]. unfold get_frame, del_frame, on_me, demand, modify, mbind, exec_bind. rewrite Hf.
    unfold handle_done in Hh. by destruct (susp f). }
  unfold mbind, exec_bind. rewrite E, IH; [done|done| |].
  - intros j Hj. cbn. unfold is_done. rewrite lookup_delete_ne by (intros ->; done).
    by apply Hdone, elem_of_cons; right.
  - cbn. intros j [_ Hj]%is_Some_delete. by apply Hold.
Qed.

(** [reap] exactly: the finished tasks leave [tasks_], the others keep their
    order, and the frames of the finished ones are destroyed. *)
Definition reaped (w : W) : W :=
  upd (fun s => set_frames (without (frames s) (gone (frames s) (tasks_ s)))
                  (set_tasks (kept (frames s) (tasks_ s)) s)) w.

Lemma reap_eq base (w : W) : ok base w -> reap w = (Normal tt, reaped w).
Proof.
  intros [[Hio Hheap _ _ _ _] _]. unfold reap, mbind, exec_bind, gets.
  rewrite partition_done_eq by (intros h Hh; apply (hk_task_frames _ _ _ _ _ _ Hheap h Hh)).
  cbn -[destroy_all]. rewrite destroy_all_eq; cbn.
  - done.
  - apply NoDup_filter, Hheap.
  - intros h [Hd _]%list_elem_of_filter. done.
  - apply Hheap.
Qed.

Lemma lookup_without ts F j : without F ts !! j = if decide (j ∈ ts) then None else F !! j.
Proof.
  revert F. induction ts as [|h ts IH]; intros F; cbn.
  { by rewrite decide_False by apply not_elem_of_nil. }
  rewrite IH, lookup_delete. case_decide as H1; [by rewrite decide_True by (apply elem_of_cons; by right)|].
  case_decide as H2; [by rewrite decide_True by (apply elem_of_cons; by left)|].
  rewrite decide_False; [done|]. rewrite elem_of_cons. intros [->|]; done.
Qed.

(** Destroying finished top-level frames one by one. *)
Lemma heap_without out nf A na ts kp : forall F,
  heap_ok out F nf A na kp -> NoDup ts ->
  (forall h, h ∈ ts -> (h ∉ kp) /\ is_done F h = true /\ forall c, ~ continues F h c) ->
  heap_ok out (without F ts) nf A na kp.
Proof.
  induction ts as [|h ts IH]; intros F Hk Hnd Hts; [done|]. apply NoDup_cons in Hnd as [Hnin Hnd].
  destruct (Hts h ltac:(by apply elem_of_cons; left)) as (Hkp & Hd & Hc). unfold is_done in Hd.
  destruct (F !! h) as [f|] eqn:Hf; [|done]. cbn. apply IH; [|done|].
  - eapply heap_delete; [exact Hk|exact Hf| | |done].
    + unfold handle_done in Hd. by destruct (susp f).
    + destruct (continuation (promise f)) as [c|] eqn:E; [|done]. destruct (Hc c). by exists f.
  - intros j Hj. destruct (Hts j ltac:(by apply elem_of_cons; right)) as (Hkj & Hdj & Hcj).
    assert (j <> h) by (intros ->; done). split_and!; [done| |].
    + unfold is_done. by rewrite lookup_delete_ne.
    + intros c [_ Hcc]%continues_delete. by apply (Hcj c).
Qed.

Lemma reap_safe (w : W) : inv w -> turn_post w (Normal tt) (reaped w).
Proof.
  intros [[[Hio Hheap Hgood Hgrow Hself Hefd] Hsh] Htl]. split_and!; try done. split; [|done].
  split; [|done]. split; try done.
  - cbn. apply heap_without.
    + eapply heap_fewer_tasks; [exact Hheap|apply NoDup_filter, Hheap|].
      intros h [_ Hh]%list_elem_of_filter. done.
    + apply NoDup_filter, Hheap.
    + intros h [Hd Hh]%list_elem_of_filter. split_and!; [|done|].
      * intros [Hd' _]%list_elem_of_filter. congruence.
      * apply (hk_task_frames _ _ _ _ _ _ Hheap h Hh).
  - cbn. intros h f. rewrite lookup_without. case_decide; [done|]. apply Hgood.
Qed.

(** A turn, outcome by outcome. *)
Lemma turn_outcomes (w : W) :
  inv w -> armable w ->
  (forall r w', drain w = (Stuck r, w') -> r = KernelBlocks /\ shutting_down_ (me w) = false) /\
  (forall e w', drain w = (Throw e, w') -> exists tag, e = OtherException tag) /\
  (forall w1, drain w = (Normal tt, w1) -> exists w2, reap w1 = (Normal tt, w2)).
Proof.
  intros Hi Ha. pose proof (drain_safe w Hi Ha) as Hd. unfold wp in Hd. split_and!.
  - intros r w' E. rewrite E in Hd. exact Hd.
  - intros e w' E. rewrite E in Hd. destruct e; [done|]. eauto.
  - intros w1 E. rewrite E in Hd. destruct Hd as [[Hok _] _]. eexists. by eapply reap_eq.
Qed.
End EventLoop.
