(* ===== verification/Follows.v ===== *)
(** * Follows: what a running scheduler can do to the rest of the world

    Code that runs on one scheduler's thread reaches the others only through
    [post].  [Stable] is the interface: a relation between worlds that user
    code cannot leave; the lemmas show, once for all such relations, that
    coroutines, callables and the parts of the event loop stay inside it.
    The instances say that mailboxes only grow. *)
From stdpp Require Import prelude list gmap.
From Stdlib Require Import ZArith Lia.
From S2P Require Import Prelude ErrorCodes Ring Operations Awaitable Task Machine Kernel Scheduler Heap Safety EventLoop.

(** Actions that stay inside a relation between worlds. *)
Create HintDb follows.

(** ** What user code can do to the rest of the world

    A relation that user code running on a scheduler cannot leave: it may do
    anything to the scheduler's own state but its identity, compute on the
    user's state, advance the round-robin counter, and post. *)
Class Stable {U K : Type} (R : relation (world U K)) : Prop := {
  stable_preorder :: PreOrder R;
  stable_me : forall w s', s_id s' = s_id (me w) -> R w (mkWorld s' (sh w) (kern w));
  stable_user : forall w u, R w (mkWorld (me w) (with_user u (sh w)) (kern w));
  stable_next : forall w n, R w (mkWorld (me w) (with_next_worker n (sh w)) (kern w));
  stable_post : forall w dst f, R w (snd (post dst f w))
}.

Section Follows.
Context {U K : Type} (R : relation (world U K)) `{!Stable R}.
#[local] Abbreviation M := (exec (world U K) exn).

Definition follows {A} (m : M A) : Prop := forall w, R w (snd (m w)).

Lemma follows_bind {A B} (m : M A) (k : A -> M B) :
  follows m -> (forall a, follows (k a)) -> follows (m ≫= k).
Proof.
  intros Hm Hk w. specialize (Hm w). unfold mbind, exec_bind.
  destruct (m w) as [[a|e|r] w']; cbn in *; [|done|done]. etrans; [exact Hm|]. apply (Hk a w').
Qed.

Lemma follows_demand {A} r (g : world U K -> option A) : follows (demand r g).
Proof. intros w. unfold demand. by destruct (g w). Qed.

Lemma follows_gets {A} (g : world U K -> A) : follows (gets g).
Proof. intros w. reflexivity. Qed.

Lemma follows_ret {A} (a : A) : follows (mret a).
Proof. intros w. reflexivity. Qed.

Lemma follows_throw {A} e : follows (A:=A) (throw e).
Proof. intros w. reflexivity. Qed.

Lemma follows_stuck {A} r : follows (A:=A) (stuck_with r).
Proof. intros w. reflexivity. Qed.

Lemma follows_on_me f : (forall s, s_id (f s) = s_id s) -> follows (on_me f).
Proof. intros Hf w. apply stable_me, Hf. Qed.

Lemma follows_try {A} (m : M A) : follows m -> follows (try m).
Proof. intros Hm w. specialize (Hm w). unfold try. by destruct (m w) as [[]]. Qed.

Lemma follows_if {A} (b : bool) (m1 m2 : M A) : follows m1 -> follows m2 -> follows (if b then m1 else m2).
Proof. by destruct b. Qed.

Hint Resolve follows_bind follows_demand follows_gets follows_ret follows_throw follows_stuck
  follows_on_me follows_try follows_if : follows.
Hint Extern 1 (s_id _ = s_id _) => reflexivity : follows.

Lemma follows_new_task b : follows (new_task b).
Proof. intros w. by apply stable_me. Qed.
Lemma follows_new_awaitable op t : follows (new_awaitable op t).
Proof. intros w. by apply stable_me. Qed.
Lemma follows_take_pending : follows take_pending.
Proof. intros w. unfold take_pending. destruct (take_pending_sq_error _). by apply stable_me. Qed.
Lemma follows_post dst f : follows (post dst f).
Proof. intros w. apply stable_post. Qed.
Lemma follows_do_user g : follows (do_user g).
Proof. intros w. unfold do_user. destruct (g _). apply stable_user. Qed.
Lemma follows_upd_frame h g : follows (upd_frame h g).
Proof. unfold upd_frame, get_frame, put_frame. eauto with follows. Qed.
Lemma follows_final_suspend h : follows (final_suspend h).
Proof. unfold final_suspend, get_frame, put_frame. eauto with follows. Qed.
Lemma follows_leave_task h h' : follows (leave_task h h').
Proof. unfold leave_task, get_frame, del_frame. eauto using follows_upd_frame with follows. Qed.
Lemma follows_finish_awaitable a : follows (finish_awaitable a).
Proof. unfold finish_awaitable, get_awt, del_awt. eauto with follows. Qed.
Lemma follows_co_await_op h a k : follows (co_await_op h a k).
Proof.
  unfold co_await_op, get_awt, put_awt. apply follows_bind; [apply follows_upd_frame|intros _].
  apply follows_bind; [eauto with follows|intros x]. apply follows_bind; [eauto with follows|intros s].
  destruct (await_suspend _ _ _ _ _) as [[[b x'] io'] tl'].
  eauto 10 using follows_upd_frame with follows.
Qed.

Lemma follows_destroy_chain n h : follows (destroy_chain n h).
Proof.
  revert h. induction n as [|n IH]; intros h; cbn [destroy_chain]; [eauto with follows|].
  unfold get_frame, del_frame. apply follows_bind; [eauto with follows|intros f].
  apply follows_bind; [eauto with follows|intros _]. unfold del_awt. destruct (susp f); eauto with follows.
Qed.

Lemma follows_spawn_temporary b go : (forall h, follows (go h)) -> follows (spawn_temporary b go).
Proof.
  intros Hgo. unfold spawn_temporary. apply follows_bind; [apply follows_new_task|intros h].
  apply follows_bind.
  - apply follows_try. unfold spawn. apply follows_bind; [eauto with follows|intros io]. cbv zeta.
    apply follows_if; [eauto with follows|]. apply follows_bind.
    + unfold first_resume. apply follows_bind; [apply follows_upd_frame|intros _].
      apply follows_bind; [apply Hgo|]. intros [|[]]; eauto with follows.
    + intros _. apply follows_bind; [apply follows_take_pending|].
      intros [e|]; eauto with follows.
  - intros [?|e]; [eauto with follows|]. apply follows_bind; [|eauto with follows].
    unfold destroy_task. apply follows_bind; [eauto with follows|]. intros n. apply follows_destroy_chain.
Qed.

Lemma follows_run b : forall h, follows (run b h).
Proof.
  induction b as [v|e|g k IH|op to k IH|t IHt k IH|t IHt k IH|dst f k IH]; intros h; cbn [run].
  - eauto using follows_upd_frame, follows_final_suspend with follows.
  - eauto using follows_upd_frame, follows_final_suspend with follows.
  - eauto using follows_do_user with follows.
  - apply follows_bind; [apply follows_new_awaitable|intros a]. apply follows_bind; [apply follows_co_await_op|].
    intros [|]; eauto using follows_finish_awaitable with follows.
  - apply follows_bind; [apply follows_new_task|intros h'].
    do 3 (apply follows_bind; [apply follows_upd_frame|intros _]).
    apply follows_bind; [apply IHt|]. intros [|[c|]]; [eauto with follows| |eauto with follows].
    case_decide; eauto using follows_leave_task with follows.
  - apply follows_bind; [apply follows_spawn_temporary; eauto|eauto].
  - apply follows_bind; [apply follows_try, follows_post|eauto].
Qed.

Lemma follows_transfer n : forall s, follows (transfer n s).
Proof.
  induction n as [|n IH]; intros [|[c|]]; cbn [transfer]; eauto with follows.
  apply follows_bind; [unfold get_frame; eauto with follows|]. intros f.
  destruct (susp f); eauto using follows_leave_task, follows_run with follows.
Qed.

Lemma follows_resume_handle h : follows (resume_handle h).
Proof.
  unfold resume_handle, get_frame, put_frame. apply follows_bind; [eauto with follows|]. intros f.
  destruct (susp f); eauto using follows_finish_awaitable, follows_run, follows_transfer with follows.
Qed.

Lemma follows_invoke f : follows (invoke f).
Proof.
  induction f as [|e|g k IH|t k IH|dst f _ k IH|job IH]; cbn [invoke]; eauto with follows.
  - eauto using follows_do_user with follows.
  - apply follows_bind; [apply follows_spawn_temporary; intros h; apply follows_run|eauto].
  - apply follows_bind; [apply follows_try, follows_post|eauto].
  - apply follows_bind; [eauto with follows|intros s].
    apply follows_bind; [intros w; apply stable_next|intros _].
    destruct (workers s); [eauto with follows|]. apply follows_post.
Qed.

Lemma follows_resume_awaitable p r : follows (resume_awaitable p r).
Proof.
  unfold resume_awaitable, get_awt, put_awt. destruct p as [[]| | | |]; eauto with follows.
  apply follows_bind; [eauto with follows|intros x]. apply follows_bind; [eauto with follows|intros _].
  apply follows_bind; [destruct (handle x); eauto using follows_resume_handle with follows|intros _].
  apply follows_bind; [apply follows_take_pending|eauto with follows].
Qed.

Lemma follows_drain_local l : follows (drain_local (K:=K) l).
Proof.
  induction l as [|f l IH]; cbn [drain_local]; [eauto with follows|].
  apply follows_bind; [|eauto]. unfold drain_one. apply follows_bind; [apply follows_try, follows_invoke|].
  intros [?|[st|]]; [eauto with follows| |eauto with follows]. case_decide; [|eauto with follows].
  intros w. destruct (boxes (sh w) !! s_id (me w)) as [box|] eqn:Hbox.
  - rewrite requeue_post by eauto. apply follows_post.
  - unfold requeue, inbox_push, gets, demand, mbind, exec_bind. by rewrite Hbox.
Qed.

(** The loop, when the relation also allows the scheduler to work
    on its own mailbox. *)
Context `{Kernel K}.
Hypothesis own_mailbox : forall (w : world U K) b k',
  R w (mkWorld (me w) (with_boxes (<[s_id (me w) := b]> (boxes (sh w))) (sh w)) k').

Lemma follows_take_inbox : follows take_inbox.
Proof.
  intros w. unfold take_inbox, gets, demand, mbind, exec_bind. destruct (boxes (sh w) !! s_id (me w)) as [box|]; [|reflexivity].
  apply own_mailbox.
Qed.

Lemma follows_enter n m f : follows (enter n m f).
Proof.
  intros w. unfold enter. destruct (boxes (sh w) !! s_id (me w)) as [box|]; [|reflexivity].
  destruct (k_enter _ _ _ _ _ _) as [[[k' io'] c']|]; [|reflexivity]. cbn.
  etrans; [apply (own_mailbox w (mkBox (inbox_ box) c') k')|]. by apply (stable_me (mkWorld (me w) _ k')).
Qed.

Lemma follows_reap : follows reap.
Proof.
  unfold reap. apply follows_bind; [eauto with follows|intros ts].
  apply follows_bind; [|intros [kp gn]; apply follows_bind; [eauto with follows|intros _]].
  - induction ts as [|h ts IH]; cbn [partition_done]; [eauto with follows|].
    unfold get_frame. apply follows_bind; [eauto with follows|intros f].
    apply follows_bind; [exact IH|]. intros [? ?]. eauto with follows.
  - induction gn as [|h gn IH]; cbn [destroy_all]; [eauto with follows|].
    apply follows_bind; [|intros _; exact IH]. unfold destroy_task.
    apply follows_bind; [eauto with follows|]. intros n. apply follows_destroy_chain.
Qed.
End Follows.

(** ** Mailboxes grow *)

Section Grows.
Context {U K : Type}.

(** Items are only appended, the counter never goes down, and a mailbox that
    got an item has a positive counter. *)
Definition box_grows (b b' : mailbox U) : Prop :=
  exists l, inbox_ b' = inbox_ b ++ l /\ efd_counter b <= efd_counter b' /\ (l <> [] -> 0 < efd_counter b').

(** [grows P w w']: so do the mailboxes in [P], and the scheduler is the same. *)
Definition grows (P : world U K -> nat -> Prop) (w w' : world U K) : Prop :=
  s_id (me w') = s_id (me w) /\
  forall d b, P w d -> boxes (sh w) !! d = Some b -> 0 <= efd_counter b ->
  exists b', boxes (sh w') !! d = Some b' /\ box_grows b b'.

Definition anyone (w : world U K) (d : nat) : Prop := True.
Definition others (w : world U K) (d : nat) : Prop := d <> s_id (me w).

Lemma box_grows_refl b : box_grows b b.
Proof. exists []. by rewrite app_nil_r. Qed.

Lemma grows_stable P :
  (forall w w' d, s_id (me w') = s_id (me w) -> P w d -> P w' d) -> Stable (grows P).
Proof.
  intros HP.
  assert (Hsame : forall w w', s_id (me w') = s_id (me w) -> boxes (sh w') = boxes (sh w) -> grows P w w').
  { intros w w' Hid Hb. split; [done|]. intros d b _ Hd _. exists b. rewrite Hb. split; [done|apply box_grows_refl]. }
  split; [split|..].
  - intros w. by apply Hsame.
  - intros w1 w2 w3 [I1 H1] [I2 H2]. split; [congruence|]. intros d b Hd Hb Hc.
    destruct (H1 d b Hd Hb Hc) as (b1 & Hb1 & l1 & E1 & C1 & P1).
    destruct (H2 d b1 (HP _ _ _ I1 Hd) Hb1 ltac:(lia)) as (b2 & Hb2 & l2 & E2 & C2 & P2).
    exists b2. split; [done|]. exists (l1 ++ l2). split_and!; [by rewrite E2, E1, app_assoc|lia|].
    destruct l2; [|intros _; by apply P2]. rewrite app_nil_r. intros Hl%P1. lia.
  - intros w s' Hid. by apply Hsame.
  - intros w u. by apply Hsame.
  - intros w n. by apply Hsame.
  - intros w dst f. unfold post, inbox_push, eventfd_write, mbind, exec_bind, demand, on_shared, modify, throw, mret, exec_ret.
    destruct (boxes (sh w) !! dst) as [box|] eqn:Hbox; [|by apply Hsame]. cbn. rewrite lookup_insert_eq. cbn.
    destruct (EFD_MAX <? efd_counter box + 1) eqn:E; (split; [done|]); cbn; intros d b _ Hb Hc.
    all: rewrite ?insert_insert_eq, lookup_insert; case_decide; [|exists b; split; [done|apply box_grows_refl]].
    all: subst d; simplify_eq; eexists; (split; [done|]); exists [f]; cbn; (split; [done|]).
    + apply Z.ltb_lt in E. unfold EFD_MAX, two64 in E. lia.
    + lia.
Qed.

#[global] Instance grows_anyone : Stable (grows anyone).
Proof. by apply grows_stable. Qed.

#[global] Instance grows_others : Stable (grows others).
Proof. apply grows_stable. unfold others. intros w w' d ->. done. Qed.

(** Work on the own mailbox leaves the others alone. *)
Lemma own_mailbox_others (w : world U K) b k' :
  grows others w (mkWorld (me w) (with_boxes (<[s_id (me w) := b]> (boxes (sh w))) (sh w)) k').
Proof.
  split; [done|]. cbn. intros d b' Hd Hb _. exists b'. rewrite lookup_insert_ne by done.
  split; [done|apply box_grows_refl].
Qed.
End Grows.

