(* ===== verification/Wakeup.v ===== *)
(** * Wakeup: interleavings of the event loop with other threads

    A scheduler thread turns its loop while other threads push into its inbox
    and write its eventfd, the kernel completes operations, and other
    schedulers work on theirs.  [reach] is the set of states such an execution
    can get to, as a step relation; the theorems are invariants by induction
    on it: no completion is ever followed to freed memory, and the thread
    never sleeps in the kernel while its inbox holds work. *)
From stdpp Require Import prelude list gmap.
From Stdlib Require Import ZArith Lia.
From S2P Require Import Prelude ErrorCodes Ring Operations Awaitable Task Machine Kernel Scheduler Heap Safety EventLoop Follows.

(** The counter after a write of 1 to the eventfd, which may be saturated. *)
Definition poked (c : Z) : Z := if EFD_MAX <? c + 1 then c else c + 1.

Lemma poked_range c : 0 <= c <= EFD_MAX -> 0 < poked c <= EFD_MAX.
Proof.
  intros Hc. unfold poked. destruct (EFD_MAX <? c + 1) eqn:E; [apply Z.ltb_lt in E|apply Z.ltb_ge in E];
    unfold EFD_MAX, two64 in *; lia.
Qed.

(** ** Executions *)

Section Reach.
Context {U K : Type} `{HKS : KernelSpec K}.
#[local] Abbreviation M := (exec (world U K) exn).
#[local] Abbreviation W := (world U K).
Context (known : nat -> Prop) (nw : nat) (timed : bool).
#[local] Abbreviation good_fn := (good_fn (U:=U) known nw timed).
#[local] Abbreviation good := (good (U:=U) known nw timed).
#[local] Abbreviation inv := (inv (U:=U) (K:=K) known nw timed).
#[local] Abbreviation ok := (ok (U:=U) (K:=K) known nw timed).
#[local] Abbreviation shared_ok := (shared_ok (U:=U) known nw timed).
#[local] Abbreviation turn_post := (turn_post (U:=U) (K:=K) known nw timed).

Definition own_box (w : W) : option (mailbox U) := boxes (sh w) !! s_id (me w).

(** A scheduler as its constructor leaves it, on fresh rings. *)
Definition started (w : W) : Prop :=
  exists id io efd grow box,
    Scheduler_ctor id io efd grow = Normal (me w, box) /\ own_box w = Some box /\
    wf_io io /\ sq_pending (sq io) = [] /\ cq_ready (cq io) = [] /\ k_inflight (kern w) = [] /\
    known id /\ (forall n, grow n = true) /\ shared_ok (sh w).

(** What another thread does to the shared state in one step. *)
Definition set_box (d : nat) (b : mailbox U) (w : W) : W :=
  mkWorld (me w) (with_boxes (<[d := b]> (boxes (sh w))) (sh w)) (kern w).

(** [reach p w]: the scheduler thread can be in state [w], between two turns,
    while [p] other threads are inside [post] between the push and the write
    of the eventfd. *)
Inductive reach : nat -> W -> Prop :=
| reach_start w : started w -> reach 0 w
| reach_turn p w w1 w2 :       (* a turn of the loop of [run] or [shutdown] *)
    reach p w -> armable w -> drain w = (Normal tt, w1) -> reap w1 = (Normal tt, w2) -> reach p w2
| reach_spawn p w t e w1 :     (* the owner spawns a task *)
    reach p w -> first_ok t -> good t ->
    spawn_temporary t (fun h => run t h) w = (Normal e, w1) -> reach p w1
| reach_closing p w :          (* [shutdown] sets the flag *)
    reach p w -> reach p (upd (set_shutting_down true) w)
| reach_push p w box f :       (* another thread enters [post] ... *)
    reach p w -> own_box w = Some box -> good_fn f ->
    reach (S p) (set_box (s_id (me w)) (mkBox (inbox_ box ++ [f]) (efd_counter box)) w)
| reach_write p w box c :      (* ... and writes the eventfd, which may be saturated *)
    reach (S p) w -> own_box w = Some box ->
    c = poked (efd_counter box) ->
    reach p (set_box (s_id (me w)) (mkBox (inbox_ box) c) w)
| reach_wake p w box c :       (* the stop callback of [run] writes the eventfd *)
    reach p w -> own_box w = Some box ->
    c = poked (efd_counter box) ->
    reach p (set_box (s_id (me w)) (mkBox (inbox_ box) c) w)
| reach_others p w s' b b' :   (* other schedulers and user threads, whole turns at a time *)
    reach p w -> shared_ok s' -> own_box w = Some b -> boxes s' !! s_id (me w) = Some b' -> box_grows b b' ->
    reach p (mkWorld (me w) s' (kern w))
| reach_kernel p w box k' io' c' : (* the kernel completes operations on its own *)
    reach p w -> own_box w = Some box ->
    enter_effect 0 (s_io (me w)) (efd_counter box) (k_inflight (kern w)) io' c' (k_inflight k') ->
    reach p (progressed k' io' box c' w).

(** Work in the inbox has been announced: the counter is positive, the read
    has completed and waits among the completions after the first [s], or [due]
    holds, which is when a writer has still to write. *)
Definition noticed_at (s : nat) (due : Prop) (w : W) : Prop :=
  forall box, own_box w = Some box -> inbox_ box <> [] ->
  0 < efd_counter box \/ AddrEventfdBuf ∈ (cqe_user_data <$> drop s (cq_ready (cq (s_io (me w))))) \/ due.

(** Between two turns, with [p] threads inside [post]. *)
Definition noticed (p : nat) (w : W) : Prop := noticed_at 0 (0 < p)%nat w.

(** The poke of a scheduler's own eventfd, by the loop or by the stop callback. *)
Lemma wake_on_stop_eq w box :
  own_box w = Some box ->
  wake_on_stop w = (Normal tt, set_box (s_id (me w)) (mkBox (inbox_ box) (poked (efd_counter box))) w).
Proof.
  unfold own_box, wake_on_stop, eventfd_write, gets, demand, on_shared, modify, mbind, exec_bind, mret, exec_ret, set_box, poked.
  intros Hb. rewrite Hb. destruct (EFD_MAX <? efd_counter box + 1) eqn:E; [|done]. cbn.
  rewrite insert_id by (rewrite Hb; by destruct box). by destruct w as [? [] ?].
Qed.

(** *** The pieces of a turn *)

Lemma noticed_box s due w s' b b' :
  noticed_at s due w -> own_box w = Some b -> boxes s' !! s_id (me w) = Some b' -> box_grows b b' ->
  noticed_at s due (mkWorld (me w) s' (kern w)).
Proof.
  intros Hn Hb Hb' (l & El & Cl & Pl) b1 Hb1 Hne. unfold own_box in *. cbn in Hb1. simplify_eq. cbn.
  destruct (decide (l = [])) as [->|Hl]; [|left; auto].
  rewrite app_nil_r in El. rewrite El in Hne.
  destruct (Hn b Hb Hne) as [?|[?|?]]; [left; lia|auto|auto].
Qed.

Lemma noticed_grows s due w w' box :
  noticed_at s due w -> own_box w = Some box -> 0 <= efd_counter box ->
  cq_ready (cq (s_io (me w'))) = cq_ready (cq (s_io (me w))) ->
  grows anyone w w' -> noticed_at s due w'.
Proof.
  intros Hn Hb Hc Hcq [Hid Hg]. destruct (Hg _ _ I Hb Hc) as (b1 & Hb1 & Hgr).
  pose proof (noticed_box s due w (sh w') box b1 Hn Hb Hb1 Hgr) as Hn'.
  intros b' Hb' Hne. unfold own_box in Hb'. rewrite Hid in Hb'. rewrite Hcq. by apply (Hn' b').
Qed.

Lemma noticed_effect s due n w box k' io' c' :
  noticed_at s due w -> own_box w = Some box -> (s <= length (cq_ready (cq (s_io (me w)))))%nat ->
  enter_effect n (s_io (me w)) (efd_counter box) (k_inflight (kern w)) io' c' (k_inflight k') ->
  noticed_at s due (progressed k' io' box c' w).
Proof.
  intros Hn Hb Hlen (j & cs & _ & _ & _ & _ & _ & _ & _ & Hr & _ & Hefd) b' Hb' Hne.
  unfold own_box in Hb'. cbn in Hb'. rewrite lookup_insert_eq in Hb'. simplify_eq. cbn in *.
  rewrite Hr, drop_app_le, fmap_app by done.
  destruct Hefd as [[_ ->]|(Hcs & ->)].
  - destruct (Hn box Hb Hne) as [?|[?|?]]; auto. right. left. by apply elem_of_app; left.
  - right. left. apply elem_of_app. right. apply efd_reads_elem. lia.
Qed.

Lemma noticed_set_box s due w b :
  (inbox_ b <> [] -> 0 < efd_counter b \/ AddrEventfdBuf ∈ (cqe_user_data <$> drop s (cq_ready (cq (s_io (me w))))) \/ due) ->
  noticed_at s due (set_box (s_id (me w)) b w).
Proof. intros Hx b' Hb' Hne. unfold own_box in Hb'. cbn in Hb'. rewrite lookup_insert_eq in Hb'. simplify_eq. auto. Qed.

Lemma own_box_ok w base : ok base w -> exists box, own_box w = Some box /\ 0 <= efd_counter box /\ Forall good_fn (inbox_ box).
Proof.
  intros [Hs Hsh]. destruct (so_known _ _ _ _ Hsh _ (sk_self _ _ _ _ _ Hs)) as [box Hbox].
  exists box. split; [done|]. by destruct (so_good _ _ _ _ Hsh _ _ Hbox) as [? [? _]].
Qed.

(** Handling a completion keeps what is announced announced: the eventfd
    completion is consumed together with the inbox it announces. *)
Lemma noticed_cqe p : cqe_keeps known nw timed (noticed p).
Proof.
  intros w w' [Hok Htl] Hn Hpos Hrun (Hq & Hid & _ & _) _.
  destruct (own_box_ok w _ Hok) as (box & Hbox & Hc & _). unfold handle_cqe in Hrun. case_decide as He.
  - change (drain_inbox (upd (set_armed false) w) = (Normal tt, w')) in Hrun.
    unfold drain_inbox, mbind, exec_bind in Hrun.
    rewrite (take_inbox_eq (upd (set_armed false) w) box Hbox) in Hrun.
    match type of Hrun with drain_local ?l ?w0 = _ => pose proof (follows_drain_local (grows anyone) l w0) as [_ Hg] end.
    rewrite Hrun in Hg. intros b' Hb' Hne. unfold own_box in Hb'. cbn in Hb'. rewrite Hid in Hb'.
    destruct (Hg (s_id (me w)) (mkBox [] (efd_counter box)) I) as (b1 & Hb1 & l & El & _ & Pl).
    { cbn. apply lookup_insert_eq. } { done. }
    cbn in Hb1, El. simplify_eq. left. by apply Pl.
  - pose proof (follows_resume_awaitable (grows anyone) (cqe_user_data (cqe_at (cq (s_io (me w))) 0))
                  (res (cqe_at (cq (s_io (me w))) 0)) w) as Hg. rewrite Hrun in Hg. cbn [snd] in Hg.
    apply (noticed_grows 0 _ w w' box Hn Hbox Hc) in Hg; [|by rewrite Hq].
    intros b' Hb' Hne. destruct (Hg b' Hb' Hne) as [?|[Hin|?]]; auto. right. left. cbn.
    rewrite Hq in Hin |- *. rewrite (cq_advance_ready _ Hpos) in Hin. cbn in Hin.
    by apply elem_of_cons in Hin as [|].
Qed.

Lemma noticed_arm p w : noticed p w -> noticed p (if eventfd_armed_ (me w) then w else armed_world w).
Proof. by destruct (eventfd_armed_ (me w)). Qed.

(** *** The invariant of executions *)

Lemma started_inv w : started w -> inv w /\ noticed 0 w.
Proof.
  intros (id & io & efd & grow & box & Hct & Hbox & Hio & Hsq & Hcq & Hk & Hid & Hgr & Hsh).
  unfold Scheduler_ctor in Hct. case_match; [done|]. injection Hct as Hme Hb. subst box.
  split; [|intros b Hb Hne; unfold own_box in *; by simplify_eq].
  unfold EventLoop.inv. rewrite <- Hme. split; [|done]. split; [|done].
  rewrite <- Hme. unfold at_kernel. cbn. rewrite Hk, Hcq. cbn.
  split; cbn; try done; unfold outstanding; cbn; rewrite Hsq; cbn; [|done].
  split; try done.
  - by intros p ?%elem_of_nil.
  - constructor.
  - intros a. split; [by intros ?%elem_of_nil|]. by intros (h & f & k & Hf & _).
  - by intros h a (f & k & Hf & _).
  - intros a [? Hx]. by rewrite lookup_empty in Hx.
  - intros a [? Hx]. by rewrite lookup_empty in Hx.
  - intros h c. split; [by intros (f & k & Hf & _)|by intros (f & Hf & _)].
  - by intros h c (f & Hf & _).
  - constructor.
  - by intros h ?%elem_of_nil.
Qed.

Lemma inv_shared w s' : inv w -> shared_ok s' -> inv (mkWorld (me w) s' (kern w)).
Proof. intros [[Hs _] Htl] Hs'. split; [|done]. by split. Qed.

Lemma inv_set_box w b :
  inv w -> Forall good_fn (inbox_ b) -> 0 <= efd_counter b <= EFD_MAX -> inv (set_box (s_id (me w)) b w).
Proof. intros Hi Hg Hc. apply inv_shared; [done|]. by apply shared_ok_box; [apply Hi|..]. Qed.

(** The eventfd write of another thread. *)
Lemma write_keeps p q w box :
  inv w -> noticed p w -> own_box w = Some box ->
  let w' := set_box (s_id (me w)) (mkBox (inbox_ box) (poked (efd_counter box))) w in
  inv w' /\ noticed q w'.
Proof.
  intros Hi Hn Hb w'. destruct (so_good _ _ _ _ (proj2 (proj1 Hi)) _ _ Hb) as [Hg Hc].
  pose proof (poked_range _ Hc) as Hpos.
  split; [apply inv_set_box; cbn; [done|done|lia]|]. apply noticed_set_box. cbn. intros _. left. lia.
Qed.

Lemma turn_keeps p w w1 w2 :
  inv w -> noticed p w -> armable w -> drain w = (Normal tt, w1) -> reap w1 = (Normal tt, w2) ->
  inv w2 /\ noticed p w2.
Proof.
  intros Hi Hn Ha Hd Hr.
  pose proof (drain_keeps known nw timed (noticed p) (noticed p) w (noticed_cqe p)) as Hk. unfold wp in Hk.
  rewrite Hd in Hk. cbn [fst snd] in Hk.
  destruct Hk as ((Hi1 & _) & Hn1 & _); [|done|done|by apply noticed_arm|].
  { intros w' box k' io' c' Hw' Hbox _. apply noticed_effect; [done|done|lia]. }
  destruct (Hn1 eq_refl) as [Hn2 _]. rewrite (reap_eq known nw timed _ w1 (proj1 Hi1)) in Hr. injection Hr as <-.
  split; [by apply (reap_safe known nw timed w1)|]. exact Hn2.
Qed.

Lemma spawn_keeps p w t e w1 :
  inv w -> noticed p w -> first_ok t -> good t ->
  spawn_temporary t (fun h => run t h) w = (Normal e, w1) -> inv w1 /\ noticed p w1.
Proof.
  intros [Hok Htl] Hn Hf Hg Hs.
  destruct (own_box_ok w _ Hok) as (box & Hbox & Hc & _).
  pose proof (spawn_temporary_safe known nw timed _ t w (run_safe known nw timed t Hg) Hf Hg Hok) as Hw.
  pose proof (follows_spawn_temporary (grows anyone) t (fun h => run t h) (fun h => follows_run _ t h) w) as Hgr.
  unfold wp in Hw. rewrite Hs in Hw, Hgr. cbn [fst snd] in Hw, Hgr.
  destruct Hw as (Hok1 & _ & Htl1 & Ha & Hkern); [intros E; congruence|].
  destruct (ad_cq _ _ _ Ha) as [Hcq _]. destruct (ad_fields _ _ _ Ha) as (Hid & _).
  split.
  - split; [by rewrite Hkern, Hcq|by apply Htl1].
  - eapply noticed_grows; eauto. by rewrite Hcq.
Qed.

Lemma reach_inv p w : reach p w -> inv w /\ noticed p w.
Proof.
  induction 1 as [w Hst|p w w1 w2 _ [Hi Hn] Ha Hd Hr|p w t e w1 _ [Hi Hn] Hf Hg Hs|p w _ [Hi Hn]
    |p w box f _ [Hi Hn] Hb Hg|p w box c _ [Hi Hn] Hb ->|p w box c _ [Hi Hn] Hb ->
    |p w s' b b' _ [Hi Hn] Hs' Hb Hb' Hg|p w box k' io' c' _ [Hi Hn] Hb He].
  - by apply started_inv.
  - by eapply turn_keeps.
  - by eapply spawn_keeps.
  - split; [|done]. destruct Hi as [[[] ?] ?]. by split; [split|].
  - destruct (so_good _ _ _ _ (proj2 (proj1 Hi)) _ _ Hb) as [Hgb Hc]. split.
    + apply inv_set_box; cbn; [done| |done]. apply Forall_app. split; [done|by constructor].
    + apply noticed_set_box. intros _. right. right. lia.
  - by eapply write_keeps.
  - by eapply write_keeps.
  - split; [by apply inv_shared|]. destruct (so_good _ _ _ _ (proj2 (proj1 Hi)) _ _ Hb) as [_ Hc].
    by apply (noticed_box 0 _ w s' b b').
  - split; [by eapply (effect_safe known nw timed 0 w box)|eapply noticed_effect; [done|done|lia|done]].
Qed.

(** *** Waking up *)

(** With the eventfd read armed, and a positive counter or the read already
    completed, the system call of [drain] returns. *)
Lemma enter_returns w box :
  inv w -> eventfd_armed_ (me w) = true -> own_box w = Some box ->
  0 < efd_counter box \/ AddrEventfdBuf ∈ (cqe_user_data <$> cq_ready (cq (s_io (me w)))) ->
  exists k' io' c',
    enter (sq_count (sq (s_io (me w)))) (if shutting_down_ (me w) then 0 else 1) IORING_ENTER_GETEVENTS w =
      (Normal tt, progressed k' io' box c' w) /\ inv (progressed k' io' box c' w).
Proof.
  intros Hi Harmed Hb Hwake.
  destruct (enter_cases known nw timed (if shutting_down_ (me w) then 0 else 1) IORING_ENTER_GETEVENTS w Hi)
    as (box1 & Hbox1 & Hcase). assert (box1 = box) as -> by (unfold own_box in *; congruence).
  destruct Hcase as [(E & Hm & Hnone)|(k' & io' & c' & E & _ & He)].
  - destruct (shutting_down_ (me w)); [done|].
    destruct (enter_wakes (kern w) IORING_ENTER_GETEVENTS (s_io (me w)) (efd_counter box)) as [? E'];
      [apply Hi| | |congruence].
    { destruct (so_good _ _ _ _ (proj2 (proj1 Hi)) _ _ Hb). lia. }
    destruct (decide (cq_ready (cq (s_io (me w))) = [])) as [Hnil|]; [right|by left].
    rewrite Hnil in Hwake. split; [destruct Hwake as [|Hx]; [done|by apply elem_of_nil in Hx]|].
    pose proof (sk_efd _ _ _ _ _ (proj1 (proj1 Hi))) as Hefd. rewrite Harmed in Hefd.
    unfold outstanding, at_kernel in Hefd. rewrite Hnil in Hefd. cbn in Hefd. rewrite app_nil_r in Hefd.
    unfold efd_count in Hefd. set (l := _ ++ _) in Hefd |- *.
    destruct (filter (fun p => p = AddrEventfdBuf) l) as [|x l'] eqn:El; [done|].
    assert (Hx : x ∈ filter (fun p => p = AddrEventfdBuf) l) by (rewrite El; by apply elem_of_cons; left).
    by apply list_elem_of_filter in Hx as [-> Hx].
  - exists k', io', c'. split; [done|]. by eapply (effect_safe known nw timed).
Qed.

Lemma drain_returns w box :
  inv w -> armable w -> own_box w = Some box ->
  0 < efd_counter box \/ AddrEventfdBuf ∈ (cqe_user_data <$> cq_ready (cq (s_io (me w)))) ->
  forall r w', drain w <> (Stuck r, w').
Proof.
  intros Hi Ha Hb Hwake r w' Hd. unfold drain, mbind, exec_bind in Hd. cbn in Hd.
  set (w1 := if eventfd_armed_ (me w) then w else armed_world w).
  assert (Hi1 : inv w1 /\ eventfd_armed_ (me w1) = true).
  { unfold w1. destruct (eventfd_armed_ (me w)) eqn:E; [done|]. split; [|done].
    destruct Ha as [|Hroom]; [congruence|]. by apply (arm_safe known nw timed). }
  destruct Hi1 as [Hi1 Harmed].
  assert (E1 : (if negb (eventfd_armed_ (me w)) then arm_eventfd_read else mret tt) w = (Normal tt, w1)).
  { unfold w1. by destruct (eventfd_armed_ (me w)). }
  rewrite E1 in Hd. cbn in Hd. fold (sq_count (sq (s_io (me w1)))) in Hd.
  assert (Hsame : own_box w1 = own_box w /\ cq (s_io (me w1)) = cq (s_io (me w))).
  { unfold w1. by destruct (eventfd_armed_ (me w)). }
  destruct Hsame as [Hbs Hcq].
  destruct (enter_returns w1 box Hi1 Harmed) as (k' & io' & c' & E & Hi2); [congruence|by rewrite Hcq|].
  rewrite E in Hd.
  pose proof (drain_loop_safe known nw timed (fun _ => True) _ (fun _ _ _ _ _ _ _ _ => I) _ Hi2 I eq_refl) as Hl.
  unfold wp in Hl. unfold drain_completions, mbind, exec_bind in Hd. cbn in Hd, Hl.
  unfold cq_count in Hl. rewrite Hd in Hl. by destruct Hl as [[] _].
Qed.

(** *** Reading the invariant *)

Lemma ok_outstanding base w :
  ok base w ->
  let out := outstanding base (me w) in
  (forall a, AddrAwaitable a ∈ out -> exists x h f k,
     awts (me w) !! a = Some x /\ handle x = Some h /\
     frames (me w) !! h = Some f /\ susp f = AtOp a k) /\
  NoDup (omap as_awaitable out) /\
  (forall h f a k, frames (me w) !! h = Some f -> susp f = AtOp a k -> AddrAwaitable a ∈ out) /\
  efd_count out = (if eventfd_armed_ (me w) then 1%nat else 0%nat).
Proof.
  intros [Hs _]. pose proof (sk_heap _ _ _ _ _ Hs) as Hh. cbv zeta. split_and!.
  - intros a Ha. apply (hk_live _ _ _ _ _ _ Hh) in Ha as [h Hw].
    destruct (hk_handle _ _ _ _ _ _ Hh h a Hw) as (x & Hx & Hxh). destruct Hw as (f & k & Hf & Hk).
    by exists x, h, f, k.
  - apply Hh.
  - intros h f a k Hf Hk. apply (hk_live _ _ _ _ _ _ Hh). exists h, f, k. done.
  - apply Hs.
Qed.

Lemma ok_delivered base w c a :
  ok base w -> AddrAwaitable a ∈ base -> cqe_user_data c = AddrAwaitable a ->
  exists h f k, frames (me w) !! h = Some f /\ susp f = AtOp a k /\
    handle_cqe c w = ((s ← run (k (res c)) h; transfer h s);; take_pending;; mret tt) (resumed a h f w).
Proof.
  intros Hok Hin Ha. destruct (ok_outstanding base w Hok) as (Hlive & _).
  destruct (Hlive a) as (x & h & f & k & Hx & Hxh & Hf & Hk); [apply elem_of_app; by left|].
  exists h, f, k. split_and!; [done|done|]. unfold handle_cqe. rewrite Ha, decide_False by done.
  by apply (resume_awaitable_eq a x h f k).
Qed.

Lemma ok_typed base w :
  ok base w ->
  wf_io (s_io (me w)) /\
  0 <= sq_count (sq (s_io (me w))) <= sq_entries (sq (s_io (me w))) /\
  0 <= cq_count (cq (s_io (me w))) <= cq_entries (cq (s_io (me w))) /\
  (exists box, own_box w = Some box /\ 0 <= efd_counter box <= EFD_MAX) /\
  (forall h, is_Some (frames (me w) !! h) -> (h < next_frame (me w))%nat) /\
  (forall a, is_Some (awts (me w) !! a) -> (a < next_awt (me w))%nat) /\
  NoDup (tasks_ (me w)) /\ forall h, h ∈ tasks_ (me w) -> is_Some (frames (me w) !! h).
Proof.
  intros [Hs Hsh]. pose proof (sk_heap _ _ _ _ _ Hs) as Hh.
  pose proof (sk_io _ _ _ _ _ Hs) as Hio. pose proof Hio as [Hsq Hcq].
  split_and!; [done|apply sq_count_nonneg|apply (wf_sq_bound _ Hsq)|apply cq_count_nonneg|apply (wf_cq_bound _ Hcq)| | | | |].
  - destruct (so_known _ _ _ _ Hsh _ (sk_self _ _ _ _ _ Hs)) as [box Hb]. exists box. split; [done|].
    by apply (so_good _ _ _ _ Hsh (s_id (me w))).
  - apply (hk_frame_old _ _ _ _ _ _ Hh).
  - apply (hk_awt_old _ _ _ _ _ _ Hh).
  - apply (hk_tasks _ _ _ _ _ _ Hh).
  - intros h Hin. by apply (hk_task_frames _ _ _ _ _ _ Hh).
Qed.

(** *** Theorems *)

(** memory safety of the event loop.  In every state an execution can
    reach, provided the eventfd read is armed or the submission queue has a
    free slot for it, a turn of [drain] never dereferences a freed awaitable
    or coroutine frame, never resumes a coroutine that is not suspended, never
    reads outside the completion ring and always finishes its completion loop:
    the only way not to return is to block in [io_uring_enter], outside
    shutdown.  It lets no exception of the library escape, and the [reap] that
    follows always succeeds. *)
Theorem event_loop_memory_safe p w :
  reach p w -> armable w ->
  (forall r w', drain w = (Stuck r, w') -> r = KernelBlocks /\ shutting_down_ (me w) = false) /\
  (forall e w', drain w = (Throw e, w') -> exists tag, e = OtherException tag) /\
  (forall w1, drain w = (Normal tt, w1) -> exists w2, reap w1 = (Normal tt, w2)).
Proof.
  intros Hr Ha. apply (turn_outcomes known nw timed); [|done]. apply (reach_inv p w Hr).
Qed.

(** no wakeup is lost.  Whenever the scheduler's inbox holds work and no
    other thread is still between the push and the eventfd write of its
    [post], [drain] does not go to sleep: it returns, or lets an exception of
    the user's callable through.  This covers work posted while the previous
    turn ran, items requeued after SQFull, and a saturated eventfd. *)
Theorem no_lost_wakeup w box :
  reach 0 w -> own_box w = Some box -> inbox_ box <> [] -> armable w ->
  exists w', drain w = (Normal tt, w') \/ exists tag, drain w = (Throw (OtherException tag), w').
Proof.
  intros Hr Hb Hne Ha. destruct (reach_inv 0 w Hr) as [Hi Hn].
  assert (Hs : forall r w', drain w <> (Stuck r, w')).
  { eapply drain_returns; try done. destruct (Hn box Hb Hne) as [?|[?|?]]; [auto|auto|lia]. }
  pose proof (drain_safe known nw timed w Hi Ha) as Hd. unfold wp in Hd.
  destruct (drain w) as [[[]|[]|r] w'] eqn:E; cbn in Hd; eauto; [done|]. by destruct (Hs r w').
Qed.

(** a stop request reaches a sleeping loop.  After the stop callback of
    [run] has written the eventfd, the next [drain] does not block, whatever
    the state of the inbox and however full the eventfd counter was. *)
Theorem stop_request_wakes p w :
  reach p w -> armable w ->
  exists w0, wake_on_stop w = (Normal tt, w0) /\ forall r w', drain w0 <> (Stuck r, w').
Proof.
  intros Hr Ha. destruct (reach_inv p w Hr) as [Hi Hn].
  destruct (own_box_ok w _ (proj1 Hi)) as (box & Hb & Hc & _).
  destruct (write_keeps p p w box Hi Hn Hb) as [Hi' _].
  destruct (so_good _ _ _ _ (proj2 (proj1 Hi)) _ _ Hb) as [_ Hr'].
  eexists. split; [by apply wake_on_stop_eq|]. eapply drain_returns; [done|done|apply lookup_insert_eq|].
  left. by apply poked_range.
Qed.

(** [reap] removes exactly the finished tasks.  The tasks whose coroutine
    is at its final suspend point leave [tasks_] and their frames are
    destroyed; the others keep their order and their frames; no other frame,
    no awaitable, no ring and no mailbox is touched, and no exception is
    thrown. *)
Theorem reap_exact p w :
  reach p w ->
  exists w', reap w = (Normal tt, w') /\ sh w' = sh w /\ kern w' = kern w /\
    s_io (me w') = s_io (me w) /\ awts (me w') = awts (me w) /\
    tasks_ (me w') = filter (fun h => is_done (frames (me w)) h = false) (tasks_ (me w)) /\
    forall h, frames (me w') !! h =
      if decide (h ∈ tasks_ (me w) /\ is_done (frames (me w)) h = true) then None else frames (me w) !! h.
Proof.
  intros Hr. destruct (reach_inv p w Hr) as [[Hok _] _]. exists (reaped w).
  split; [by apply (reap_eq known nw timed _ w Hok)|]. split_and!; try done. intros h. cbn. rewrite lookup_without.
  unfold gone. case_decide as H1; rewrite list_elem_of_filter in H1; case_decide as H2; tauto.
Qed.

End Reach.

(** ** A concrete execution

    Scheduler 0 on rings of eight entries with a kernel that completes
    everything at once; another thread posts a callable that spawns a task
    reading from descriptor 3. *)

Definition always_completes (e : io_uring_sqe) : option Z := Some (len e).
#[local] Instance demo_kernel : Kernel (list io_uring_sqe) := simple_kernel always_completes.
#[local] Instance demo_kernel_spec : KernelSpec (list io_uring_sqe) := simple_kernel_spec always_completes.

Definition demo_known (d : nat) : Prop := d = 0%nat.
Definition demo_task : coro nat := CoAwait (Read_ctor 3 (mkView 4096 16) 0) None (fun n => CoDo (fun u => (S u, n)) CoReturn).
Definition demo_job : callable nat := FnSpawn demo_task (fun _ => FnReturn).

Definition demo_world : world nat (list io_uring_sqe) :=
  mkWorld (mkSched 0 (fresh_io 5 3 0) 6 false false [] ∅ 0 ∅ 0 false (fun _ => true))
    (mkShared {[ 0%nat := mkBox [] 0 ]} 0%nat 0 0) [].

Lemma demo_started : started demo_known 0 false demo_world.
Proof.
  exists 0%nat, (fresh_io 5 3 0), (fun _ _ => 6), (fun _ => true), (mkBox [] 0). split_and!; try done.
  - apply fresh_io_wf; [lia|done].
  - split; try done.
    + intros d ->. eexists. apply lookup_insert_eq.
    + intros d box. cbn [demo_world sh boxes]. rewrite lookup_singleton_Some. intros [_ <-]. done.
Qed.

Definition demo_posted : world nat (list io_uring_sqe) :=
  set_box 0 (mkBox [demo_job] 1) (set_box 0 (mkBox [demo_job] 0) demo_world).

Lemma demo_reach : reach demo_known 0 false 0 demo_posted.
Proof.
  apply (reach_write demo_known 0 false 0 (set_box 0 (mkBox [demo_job] 0) demo_world) (mkBox [demo_job] 0) 1);
    [|done|done].
  apply (reach_push demo_known 0 false 0 demo_world (mkBox [] 0) demo_job); [|reflexivity|cbn; naive_solver].
  apply reach_start, demo_started.
Qed.

Lemma event_loop_memory_safe_witness :
  exists w', drain demo_posted = (Normal tt, w') /\ exists w2, reap w' = (Normal tt, w2).
Proof.
  eexists. split; [vm_compute; reflexivity|].
  apply (event_loop_memory_safe demo_known 0 false 0 demo_posted demo_reach); [by right|].
  vm_compute. reflexivity.
Defined.

Lemma no_lost_wakeup_witness :
  own_box demo_posted = Some (mkBox [demo_job] 1) /\
  exists w', drain demo_posted = (Normal tt, w') \/ exists tag, drain demo_posted = (Throw (OtherException tag), w').
Proof.
  split; [reflexivity|].
  apply (no_lost_wakeup demo_known 0 false demo_posted (mkBox [demo_job] 1) demo_reach); [reflexivity|done|by right].
Defined.

Lemma stop_request_wakes_witness :
  exists w0, wake_on_stop demo_world = (Normal tt, w0) /\ forall r w', drain w0 <> (Stuck r, w').
Proof.
  apply (stop_request_wakes demo_known 0 false 0 demo_world); [apply reach_start, demo_started|by right].
Defined.

(** The same execution one turn later: the task waits for its read. *)
Definition demo_waiting : world nat (list io_uring_sqe) := snd (drain demo_posted).

(** The read is answered by the kernel while the thread is between turns. *)
Definition demo_idle : world nat (list io_uring_sqe) := snd (reap demo_waiting).
Definition demo_cqe : io_uring_cqe := mkCqe (AddrAwaitable 0) 64 0.

Lemma demo_idle_reach : reach demo_known 0 false 0 demo_idle.
Proof.
  apply (reach_turn demo_known 0 false 0 demo_posted demo_waiting); [apply demo_reach|by right| |].
  - vm_compute. reflexivity.
  - vm_compute. reflexivity.
Qed.

Lemma reap_exact_witness : exists w', reap demo_idle = (Normal tt, w') /\ tasks_ (me w') = tasks_ (me demo_idle).
Proof.
  destruct (reap_exact demo_known 0 false 0 demo_idle demo_idle_reach) as (w' & E & _ & _ & _ & _ & Ht & _).
  exists w'. split; [exact E|]. rewrite Ht. vm_compute. reflexivity.
Defined.

(** The same job with a kernel that keeps reads in flight until it completes
    them on its own, between two turns. *)
Module Lazy.
Definition never_completes (e : io_uring_sqe) : option Z := None.
#[local] Instance lazy_kernel : Kernel (list io_uring_sqe) := simple_kernel never_completes.
#[local] Instance lazy_kernel_spec : KernelSpec (list io_uring_sqe) := simple_kernel_spec never_completes.

Definition staged_world : world nat (list io_uring_sqe) := snd (reap (snd (drain demo_posted))).
Definition woken_world : world nat (list io_uring_sqe) := snd (wake_on_stop staged_world).
Definition inflight_world : world nat (list io_uring_sqe) := snd (reap (snd (drain woken_world))).

Lemma demo_reach_lazy : reach demo_known 0 false 0 demo_posted.
Proof.
  apply (reach_write demo_known 0 false 0 (set_box 0 (mkBox [demo_job] 0) demo_world) (mkBox [demo_job] 0) 1);
    [|done|done].
  apply (reach_push demo_known 0 false 0 demo_world (mkBox [] 0) demo_job); [|reflexivity|cbn; naive_solver].
  apply reach_start. exact demo_started.
Qed.

Lemma inflight_reach : reach demo_known 0 false 0 inflight_world.
Proof.
  apply (reach_turn demo_known 0 false 0 woken_world (snd (drain woken_world)));
    [|by right|vm_compute; reflexivity|vm_compute; reflexivity].
  apply (reach_wake demo_known 0 false 0 staged_world (mkBox [] 0) 1); [|vm_compute; reflexivity|reflexivity].
  apply (reach_turn demo_known 0 false 0 demo_posted (snd (drain demo_posted)));
    [apply demo_reach_lazy|by right|vm_compute; reflexivity|vm_compute; reflexivity].
Qed.

(** The read completes with 64. *)
Definition answered_io : IO :=
  with_cq (s_io (me inflight_world)) (cq_push demo_cqe (cq (s_io (me inflight_world)))).
Definition answered_world : world nat (list io_uring_sqe) :=
  progressed [] answered_io (mkBox [] 0) 0 inflight_world.

Lemma answered_reach : reach demo_known 0 false 0 answered_world.
Proof.
  pose proof inflight_reach as Hr. destruct (reach_inv _ _ _ _ _ Hr) as [[[Hs _] _] _].
  pose proof (sk_io _ _ _ _ _ Hs) as [Hsq Hcq].
  assert (Hwio : forall io q, wf_sq (sq io) -> wf_cq q -> wf_io (with_cq io q)) by (intros io q ??; by split).
  assert (Hcqw : forall io q, cq (with_cq io q) = q) by done.
  destruct (cq_push_spec demo_cqe _ Hcq) as (Hwf & Hrd & _); [vm_compute; reflexivity|].
  apply (reach_kernel demo_known 0 false 0 inflight_world (mkBox [] 0) [] answered_io 0 Hr); [vm_compute; reflexivity|].
  exists 0%nat, [demo_cqe]. split; [done|]. split; [lia|].
  split; [unfold answered_io; by apply Hwio|].
  split; [vm_compute; reflexivity|]. split; [vm_compute; reflexivity|]. split; [vm_compute; reflexivity|].
  split; [split; vm_compute; reflexivity|]. split; [unfold answered_io; by rewrite Hcqw|]. split; [vm_compute; reflexivity|].
  left. split; vm_compute; reflexivity.
Qed.

End Lazy.
