(* ===== verification/Interleave.v ===== *)
(** * Interleave: the event loop one shared access at a time

    Wakeup lets other threads act between two turns of the loop.  In the
    program they act at any moment: while the thread sits in [io_uring_enter],
    between the swap of the inbox and the callables it took out, between the
    push of a requeued item and the poke of the eventfd, between two
    completions.  Here [Scheduler::drain] and [Scheduler::reap] are cut at
    their own accesses to what others see, and other threads and the kernel may
    act at every cut; a thread that posts to this scheduler pushes and writes in
    two steps.  One callable, and one resumption of a coroutine, is one step
    with the calls of [spawn] and [post] it makes. *)
From stdpp Require Import prelude list gmap.
From Stdlib Require Import ZArith Lia Zwf Relation_Operators Wellfounded.
From S2P Require Import Prelude ErrorCodes Ring Operations Awaitable Task Machine Kernel Scheduler Heap Safety EventLoop Follows Wakeup.

(** The locals of the completion loop. *)
Record cursor : Type := mkCursor { current : Z; tail : Z; mask : Z }.

(** Where the loop thread is. *)
Inductive pc (U : Type) : Type :=
| AtTop                                                          (* between two turns *)
| AtEnter                                                        (* about to call io_uring_enter *)
| AtLoad                                                         (* about to load cq.head and cq.tail *)
| AtCqe (c : cursor)                                             (* while (current != tail) *)
| AtInbox (local : list (callable U)) (c : cursor)               (* while (!local.empty()) *)
| AtRequeue (task : callable U) (local : list (callable U)) (c : cursor)
| AtPoke (local : list (callable U)) (c : cursor)
| AtReap.
Arguments AtTop {U}.
Arguments AtEnter {U}.
Arguments AtLoad {U}.
Arguments AtCqe {U} c.
Arguments AtInbox {U} local c.
Arguments AtRequeue {U} task local c.
Arguments AtPoke {U} local c.
Arguments AtReap {U}.

Section Step.
Context {U K : Type} `{HK : Kernel K}.
#[local] Abbreviation M := (exec (world U K) exn).

(** [++current; io_.cq.head->store(current)]. *)
Definition next_cqe (c : cursor) : M (pc U) :=
  let current := current c +u32 1 in
  on_me (fun s => set_io (with_cq (s_io s) (set_cq_head current (cq (s_io s)))) s);;
  mret (AtCqe (mkCursor current (tail c) (mask c))).

Definition loop_step (p : pc U) : M (pc U) :=
  match p with
  | AtTop =>
      armed ← gets (fun w => eventfd_armed_ (me w));
      (if negb armed then arm_eventfd_read else mret tt);;
      mret AtEnter
  | AtEnter =>
      s ← gets me;
      enter (sq_tail (sq (s_io s)) -u32 sq_head (sq (s_io s))) (if shutting_down_ s then 0 else 1) IORING_ENTER_GETEVENTS;;
      mret AtLoad
  | AtLoad =>
      q ← gets (fun w => cq (s_io (me w)));
      mret (AtCqe (mkCursor (cq_head q) (cq_tail q) (cq_mask q)))
  | AtCqe c =>
      if current c =? tail c then mret AtReap
      else
        cqe ← demand OutOfRange (fun w => cq_cqes (cq (s_io (me w))) !! Z.to_nat (Z.land (current c) (mask c)));
        if decide (cqe_user_data cqe = AddrEventfdBuf) then
          on_me (set_armed false);;
          local ← take_inbox;
          mret (AtInbox local c)
        else
          resume_awaitable (cqe_user_data cqe) (res cqe);;
          next_cqe c
  | AtInbox [] c => next_cqe c
  | AtInbox (task :: local) c =>
      r ← try (invoke task);
      match r with
      | inl _ => mret (AtInbox local c)
      | inr (IOException status) =>
          if decide (status = SQFull) then mret (AtRequeue task local c) else mret (AtInbox local c)
      | inr e => throw e
      end
  | AtRequeue task local c =>
      id ← gets (fun w => s_id (me w));
      inbox_push id task;;
      mret (AtPoke local c)
  | AtPoke local c =>
      id ← gets (fun w => s_id (me w));
      eventfd_write id 1;;
      mret (AtInbox local c)
  | AtReap => reap;; mret AtTop
  end.

(** The loop thread alone, inside a turn. *)
Definition is_top (p : pc U) : bool := match p with AtTop => true | _ => false end.
Definition alone (x y : pc U * world U K) : Prop :=
  is_top (fst x) = false /\ loop_step (fst x) (snd x) = (Normal (fst y), snd y).

(** How the steps from [x] on end, when nobody interferes: [o] is what the
    code as a whole computes, [q] where it goes on. *)
Definition arrives (x : pc U * world U K) (q : pc U) (o : outcome exn unit) (w' : world U K) : Prop :=
  match o with
  | Normal _ => rtc alone x (q, w')
  | Throw e => exists p w, rtc alone x (p, w) /\ loop_step p w = (Throw e, w')
  | Stuck r => r = OutOfFuel \/ exists p w, rtc alone x (p, w) /\ loop_step p w = (Stuck r, w')
  end.

Arguments arrives : simpl never.

Lemma arrives_after x y q o w' : rtc alone x y -> arrives y q o w' -> arrives x q o w'.
Proof.
  intros Hx. unfold arrives. destruct o as [[]|e|r]; [by intros Hy; etrans| |].
  - intros (p & w & Hy & E). exists p, w. split; [by etrans|done].
  - intros [Hf|(p & w & Hy & E)]; [by left|right]. exists p, w. split; [by etrans|done].
Qed.

Lemma arrives_step p w p1 w1 q o w' :
  loop_step p w = (Normal p1, w1) -> is_top p = false -> arrives (p1, w1) q o w' -> arrives (p, w) q o w'.
Proof. intros E Hp. apply arrives_after. by apply rtc_once. Qed.

(** A step that ends the thread of control. *)
Lemma arrives_throw p w q e w' : loop_step p w = (Throw e, w') -> arrives (p, w) q (Throw e) w'.
Proof. intros E. exists p, w. by split; [reflexivity|]. Qed.
Lemma arrives_stuck p w q r w' : loop_step p w = (Stuck r, w') -> arrives (p, w) q (Stuck r) w'.
Proof. intros E. right. exists p, w. by split; [reflexivity|]. Qed.
Lemma arrives_here q w : arrives (q, w) q (Normal tt) w.
Proof. unfold arrives. reflexivity. Qed.

(** Sequencing. *)
Lemma arrives_seq x q q' (m : M unit) (k : unit -> M unit) w :
  arrives x q (fst (m w)) (snd (m w)) ->
  (forall w1, arrives (q, w1) q' (fst (k tt w1)) (snd (k tt w1))) ->
  arrives x q' (fst ((m ≫= k) w)) (snd ((m ≫= k) w)).
Proof.
  intros Ha Hk. unfold mbind, exec_bind. destruct (m w) as [[[]|e|r] w1]; cbn in *; [|exact Ha..].
  eapply arrives_after; [exact Ha|]. apply Hk.
Qed.

(** A piece of code that is one step. *)
Lemma arrives_once p q (m : M unit) w :
  loop_step p w = (m ≫= fun _ => mret q) w -> is_top p = false -> arrives (p, w) q (fst (m w)) (snd (m w)).
Proof.
  unfold mbind, exec_bind. destruct (m w) as [[[]|e|r] w1]; cbn; intros E Hp;
    [eapply (arrives_step _ _ q); [exact E|done|apply arrives_here]|by apply arrives_throw|by apply arrives_stuck].
Qed.

(** A step, and what follows it. *)
Lemma arrives_bind {A} p w q (m : M A) w0 (next : A -> pc U) (k : A -> M unit) :
  loop_step p w = (a ← m; mret (next a)) w0 -> is_top p = false ->
  (forall a w1, arrives (next a, w1) q (fst (k a w1)) (snd (k a w1))) ->
  arrives (p, w) q (fst ((m ≫= k) w0)) (snd ((m ≫= k) w0)).
Proof.
  unfold mbind, exec_bind. intros E Hp Hk. destruct (m w0) as [[a|e|r] w1]; cbn;
    [eapply arrives_step; [exact E|done|apply Hk]|by apply arrives_throw|by apply arrives_stuck].
Qed.

Lemma requeue_arrives task local c w :
  arrives (AtRequeue task local c, w) (AtInbox local c) (fst (requeue task w)) (snd (requeue task w)).
Proof.
  assert (E : requeue task w =
    ((id ← gets (fun w => s_id (me w)); inbox_push id task);; (id ← gets (fun w => s_id (me w)); eventfd_write id 1;; mret tt)) w).
  { unfold requeue, inbox_push, mbind, exec_bind, gets, demand, on_shared, modify. by destruct (boxes (sh w) !! _). }
  rewrite E. apply (arrives_seq _ (AtPoke local c)).
  - apply arrives_once; [|done]. cbn. unfold mbind, exec_bind, gets. by destruct (inbox_push (s_id (me w)) task w) as [[[]| |] ?].
  - intros w1. apply arrives_once; [|done]. cbn. unfold mbind, exec_bind, gets. by destruct (eventfd_write (s_id (me w1)) 1 w1) as [[]].
Qed.

Lemma drain_one_arrives task local c w :
  arrives (AtInbox (task :: local) c, w) (AtInbox local c) (fst (drain_one task w)) (snd (drain_one task w)).
Proof.
  unfold drain_one, mbind, exec_bind, try. destruct (invoke task w) as [[a|[st|tag]|r] w1] eqn:E.
  - eapply arrives_step; [cbn; unfold mbind, exec_bind, try; by rewrite E|done|apply arrives_here].
  - destruct (decide (st = SQFull)) as [->|Hst].
    + eapply (arrives_step _ _ (AtRequeue task local c) w1); [cbn; unfold mbind, exec_bind, try; by rewrite E|done|apply requeue_arrives].
    + eapply arrives_step; [cbn; unfold mbind, exec_bind, try; rewrite E; by rewrite decide_False|done|apply arrives_here].
  - apply arrives_throw. cbn. unfold mbind, exec_bind, try. by rewrite E.
  - apply arrives_stuck. cbn. unfold mbind, exec_bind, try. by rewrite E.
Qed.

Lemma drain_local_arrives c local : forall w,
  arrives (AtInbox local c, w) (AtInbox [] c) (fst (drain_local local w)) (snd (drain_local local w)).
Proof.
  induction local as [|task local IH]; intros w; cbn [drain_local]; [apply arrives_here|].
  apply (arrives_seq _ (AtInbox local c)); [apply drain_one_arrives|exact IH].
Qed.

(** Handling the completion at the cursor. *)
Lemma handle_cqe_arrives cur tl m cqe w :
  (cur =? tl) = false -> cq_cqes (cq (s_io (me w))) !! Z.to_nat (Z.land cur m) = Some cqe ->
  let c := mkCursor cur tl m in
  arrives (AtCqe c, w) (AtCqe (mkCursor (cur +u32 1) tl m))
    (fst ((handle_cqe cqe;; next_cqe c;; mret tt) w)) (snd ((handle_cqe cqe;; next_cqe c;; mret tt) w)).
Proof.
  intros Ec El c. unfold handle_cqe. case_decide as He.
  - set (w0 := upd (set_armed false) w).
    assert (Hstep : loop_step (AtCqe c) w = (local ← take_inbox; mret (AtInbox local c)) w0).
    { cbn. rewrite Ec. unfold mbind at 1, exec_bind at 1, demand. rewrite El. by rewrite decide_True. }
    change (((on_me (set_armed false);; drain_inbox);; next_cqe c;; mret tt) w) with ((drain_inbox;; next_cqe c;; mret tt) w0).
    assert (E : (drain_inbox;; next_cqe c;; mret tt) w0 =
      (local ← take_inbox; drain_local local;; next_cqe c;; mret tt) w0).
    { unfold drain_inbox, mbind, exec_bind. by destruct (take_inbox w0) as [[local|e|r] w1]. }
    rewrite E. apply (arrives_bind _ _ _ take_inbox w0 (fun local => AtInbox local c)); [exact Hstep|done|].
    intros local w1. apply (arrives_seq _ (AtInbox [] c)); [apply drain_local_arrives|].
    intros w2. eapply arrives_step; [reflexivity|done|apply arrives_here].
  - assert (Hstep : loop_step (AtCqe c) w = (resume_awaitable (cqe_user_data cqe) (res cqe);; next_cqe c) w).
    { cbn. rewrite Ec. unfold mbind at 1, exec_bind at 1, demand. rewrite El. by rewrite decide_False. }
    unfold mbind in Hstep |- *. unfold exec_bind in Hstep |- *.
    destruct (resume_awaitable (cqe_user_data cqe) (res cqe) w) as [[[]|e|r] w1]; [|by apply arrives_throw|by apply arrives_stuck].
    eapply arrives_step; [exact Hstep|done|]. apply arrives_here.
Qed.

Lemma drain_loop_arrives n : forall cur tl m w,
  arrives (AtCqe (mkCursor cur tl m), w) AtReap (fst (drain_loop n cur tl m w)) (snd (drain_loop n cur tl m w)).
Proof.
  induction n as [|n IH]; intros cur tl m w; destruct (cur =? tl) eqn:Ec.
  1, 3: cbn [drain_loop]; rewrite Ec; apply (arrives_step _ _ AtReap w); [cbn; by rewrite Ec|done|apply arrives_here].
  { cbn [drain_loop]. rewrite Ec. by left. }
  destruct (cq_cqes (cq (s_io (me w))) !! Z.to_nat (Z.land cur m)) as [cqe|] eqn:El.
  - set (k := fun _ : unit => drain_loop (U:=U) (K:=K) n (cur +u32 1) tl m).
    assert (E : drain_loop (S n) cur tl m w = ((handle_cqe cqe;; next_cqe (mkCursor cur tl m);; mret tt) ≫= k) w).
    { cbn [drain_loop]. rewrite Ec. unfold mbind, exec_bind, demand. rewrite El. by destruct (handle_cqe cqe w) as [[[]|e|r] w1]. }
    rewrite E. eapply arrives_seq; [by apply handle_cqe_arrives|]. intros w1. apply IH.
  - assert (E : drain_loop (S n) cur tl m w = (Stuck OutOfRange, w)).
    { cbn [drain_loop]. rewrite Ec. unfold mbind, exec_bind, demand. by rewrite El. }
    rewrite E. apply arrives_stuck. cbn. rewrite Ec. unfold mbind, exec_bind, demand. by rewrite El.
Qed.

Definition entered (w : world U K) : world U K := if eventfd_armed_ (me w) then w else armed_world w.

Lemma top_eq w : loop_step AtTop w = (Normal AtEnter, entered w).
Proof. unfold entered. cbn. unfold mbind, exec_bind, gets. by destruct (eventfd_armed_ (me w)). Qed.

Lemma drain_arrives w : arrives (AtEnter, entered w) AtReap (fst (drain w)) (snd (drain w)).
Proof.
  assert (E : drain w = (s ← gets me; enter (sq_tail (sq (s_io s)) -u32 sq_head (sq (s_io s)))
    (if shutting_down_ s then 0 else 1) IORING_ENTER_GETEVENTS;; drain_completions) (entered w)).
  { unfold drain, entered, mbind, exec_bind, gets. by destruct (eventfd_armed_ (me w)). }
  rewrite E. unfold mbind at 1 3, exec_bind at 1 3, gets.
  apply (arrives_seq _ AtLoad); [by apply arrives_once|].
  intros w2. eapply (arrives_step _ _ _ w2); [reflexivity|done|]. apply drain_loop_arrives.
Qed.

Lemma turn_arrives w : arrives (AtEnter, entered w) AtTop (fst ((drain;; reap) w)) (snd ((drain;; reap) w)).
Proof. apply (arrives_seq _ AtReap); [apply drain_arrives|]. intros w1. by apply arrives_once. Qed.

(** A turn that returns. *)
Lemma turn_alone w w1 w2 :
  drain w = (Normal tt, w1) -> reap w1 = (Normal tt, w2) -> rtc alone (AtEnter, entered w) (AtTop, w2).
Proof. intros Hd Hr. pose proof (turn_arrives w) as H. unfold mbind, exec_bind in H. by rewrite Hd, Hr in H. Qed.

(** The steps are the code.  When nobody interferes, the steps of the loop
    from one turn to the next do exactly what [drain] followed by [reap] does:
    they arrive in the state it returns, end with the exception it throws, or
    stop where it blocks.  (The fuel of [drain_loop] is the model's own; it
    lasts in every reachable state, Wakeup.event_loop_memory_safe.) *)
Theorem undisturbed_turn w :
  loop_step AtTop w = (Normal AtEnter, entered w) /\
  arrives (AtEnter, entered w) AtTop (fst ((drain;; reap) w)) (snd ((drain;; reap) w)).
Proof. split; [apply top_eq|apply turn_arrives]. Qed.
End Step.

(** ** Executions *)

Section Fine.
Context {U K : Type} `{HKS : KernelSpec K}.
#[local] Abbreviation W := (world U K).
Context (known : nat -> Prop) (nw : nat) (timed : bool).
#[local] Abbreviation good_fn := (good_fn (U:=U) known nw timed).
#[local] Abbreviation good := (good (U:=U) known nw timed).
#[local] Abbreviation inv := (inv (U:=U) (K:=K) known nw timed).
#[local] Abbreviation ok := (ok (U:=U) (K:=K) known nw timed).
#[local] Abbreviation shared_ok := (shared_ok (U:=U) known nw timed).
#[local] Abbreviation reach := (reach (U:=U) (K:=K) known nw timed).
#[local] Abbreviation started := (started (U:=U) (K:=K) known nw timed).
Implicit Types (w : W) (c : pc U) (p : nat).

(** What others do to this scheduler, one access at a time; the first and the
    third argument are the number of threads inside [post] between the push
    and the write of the eventfd. *)
Inductive interference : nat -> W -> nat -> W -> Prop :=
| if_push p w box f :
    own_box w = Some box -> good_fn f ->
    interference p w (S p) (set_box (s_id (me w)) (mkBox (inbox_ box ++ [f]) (efd_counter box)) w)
| if_write p w box :
    own_box w = Some box ->
    interference (S p) w p (set_box (s_id (me w))
      (mkBox (inbox_ box) (poked (efd_counter box))) w)
| if_wake p w box :
    own_box w = Some box ->
    interference p w p (set_box (s_id (me w))
      (mkBox (inbox_ box) (poked (efd_counter box))) w)
| if_others p w s' b b' :
    shared_ok s' -> own_box w = Some b -> boxes s' !! s_id (me w) = Some b' -> box_grows b b' ->
    interference p w p (mkWorld (me w) s' (kern w))
| if_kernel p w box k' io' z' :
    own_box w = Some box ->
    enter_effect 0 (s_io (me w)) (efd_counter box) (k_inflight (kern w)) io' z' (k_inflight k') ->
    interference p w p (progressed k' io' box z' w).

(** [freach p c w]: the loop thread can be at [c] in state [w].  What the
    theorems about these executions assume is in the rules: the scheduler starts
    fresh, on an allocator that can grow [tasks_] ([started]); a turn starts
    [armable]; what is spawned is [first_ok] and [good], what is posted is
    [good_fn]. *)
Inductive freach : nat -> pc U -> W -> Prop :=
| freach_start w : started w -> freach 0 AtTop w
| freach_loop p c w c' w' :
    freach p c w -> (c = AtTop -> armable w) -> loop_step c w = (Normal c', w') -> freach p c' w'
| freach_spawn p w t e w1 :
    freach p AtTop w -> first_ok t -> good t ->
    spawn_temporary t (fun h => run t h) w = (Normal e, w1) -> freach p AtTop w1
| freach_closing p w : freach p AtTop w -> freach p AtTop (upd (set_shutting_down true) w)
| freach_env p c w p' w' : freach p c w -> interference p w p' w' -> freach p' c w'.

(** *** The invariant at every point *)

(** Completions the loop has taken up but not yet given back to the ring. *)
Definition taken c : nat :=
  match c with AtInbox _ _ | AtRequeue _ _ _ | AtPoke _ _ => 1 | _ => 0 end.

(** The cursor is at the head of the ring and does not run past its tail. *)
Record cursor_ok (n : Z) (cu : cursor) w : Prop := {
  cu_current : current cu = cq_head (cq (s_io (me w)));
  cu_mask : mask cu = cq_mask (cq (s_io (me w)));
  cu_tail : is_u32 (tail cu);
  cu_left : n <= tail cu -u32 current cu;
  cu_count : tail cu -u32 current cu <= cq_count (cq (s_io (me w)))
}.

Definition pc_ok c w : Prop :=
  match c with
  | AtEnter => eventfd_armed_ (me w) = true
  | AtCqe cu => cursor_ok 0 cu w
  | AtInbox l cu => cursor_ok 1 cu w /\ Forall good_fn l
  | AtRequeue f l cu => cursor_ok 1 cu w /\ Forall good_fn (f :: l)
  | AtPoke l cu => cursor_ok 1 cu w /\ Forall good_fn l
  | _ => True
  end.

Record finv c w : Prop := {
  fi_ok : ok (pending_at (taken c) (kern w) (cq (s_io (me w)))) w;
  fi_flag : tl_sq_full (me w) = false;
  fi_pc : pc_ok c w
}.

(** The loop itself owes a poke after a requeue. *)
Definition owes c : Prop := match c with AtPoke _ _ => True | _ => False end.
Definition fnoticed p c w : Prop := noticed_at (taken c) ((0 < p)%nat \/ owes c) w.

Lemma inv_finv c w : inv w -> taken c = 0%nat -> pc_ok c w -> finv c w.
Proof. intros [Hok Htl] E Hc. split; [by rewrite E|done|done]. Qed.

Lemma finv_inv c w : finv c w -> taken c = 0%nat -> inv w.
Proof. intros [Hok Htl _] E. rewrite E in Hok. by split. Qed.

(** A completion that was taken up is still in the ring. *)
Lemma taken_le c w : finv c w -> (taken c <= length (cq_ready (cq (s_io (me w)))))%nat.
Proof.
  intros [_ _ Hc]. pose proof (length_cq_ready (cq (s_io (me w)))) as Hl.
  destruct c; cbn in *; try lia; destruct Hc as [[_ _ _ H1 H2] _]; lia.
Qed.

Lemma cursor_ok_cq n cu w w' : cq (s_io (me w')) = cq (s_io (me w)) -> cursor_ok n cu w -> cursor_ok n cu w'.
Proof. intros E []. split; by rewrite ?E. Qed.

Lemma pc_ok_same c w w' :
  cq (s_io (me w')) = cq (s_io (me w)) -> eventfd_armed_ (me w') = eventfd_armed_ (me w) -> pc_ok c w -> pc_ok c w'.
Proof.
  intros Eq Ea. destruct c; cbn; try done; try (by rewrite Ea); try (by apply cursor_ok_cq);
    intros [? ?]; (split; [by eapply cursor_ok_cq|done]).
Qed.

(** *** Interference *)

Lemma finv_shared c w s' : finv c w -> shared_ok s' -> finv c (mkWorld (me w) s' (kern w)).
Proof. intros [[Hs _] Htl Hc] Hs'. split; [by split|done|by apply (pc_ok_same c w)]. Qed.

Lemma own_box_good w base box : ok base w -> own_box w = Some box -> Forall good_fn (inbox_ box) /\ 0 <= efd_counter box <= EFD_MAX.
Proof. intros [_ Hsh] Hb. by apply (so_good _ _ _ _ Hsh _ _ Hb). Qed.

Lemma poke_keeps (due : Prop) c w box :
  finv c w -> own_box w = Some box ->
  let w' := set_box (s_id (me w))
    (mkBox (inbox_ box) (poked (efd_counter box))) w in
  finv c w' /\ forall c', noticed_at (taken c') due w'.
Proof.
  intros Hi Hb w'. destruct (own_box_good w _ box (fi_ok _ _ Hi) Hb) as [Hg Hc]. split.
  - apply finv_shared; [done|]. apply shared_ok_box; [apply Hi|done|]. pose proof (poked_range _ Hc). cbn. lia.
  - intros c'. apply noticed_set_box. intros _. left. by apply poked_range.
Qed.

Lemma effect_cursor n n' cu w k' io' box z' :
  cursor_ok n cu w ->
  enter_effect n' (s_io (me w)) (efd_counter box) (k_inflight (kern w)) io' z' (k_inflight k') ->
  cursor_ok n cu (progressed k' io' box z' w).
Proof.
  intros [H1 H2 H3 H4 H5] (j & cs & _ & _ & _ & _ & _ & _ & [Hh Hm] & Hr & _).
  pose proof (length_cq_ready (cq io')) as L1. pose proof (length_cq_ready (cq (s_io (me w)))) as L2.
  rewrite Hr, length_app in L1. split; cbn; [by rewrite Hh|by rewrite Hm|done|done|lia].
Qed.

Lemma env_keeps p c w p' w' :
  finv c w -> fnoticed p c w -> interference p w p' w' -> finv c w' /\ fnoticed p' c w'.
Proof.
  intros Hi Hn. destruct 1 as [p w box f Hb Hf|p w box Hb|p w box Hb|p w s' b b' Hs' Hb Hb' Hg|p w box k' io' z' Hb He].
  - destruct (own_box_good w _ box (fi_ok _ _ Hi) Hb) as [Hg Hc]. split.
    + apply finv_shared; [done|]. apply shared_ok_box; [apply Hi| |done]. cbn. apply Forall_app. split; [done|by constructor].
    + apply noticed_set_box. intros _. right. right. left. lia.
  - destruct (poke_keeps ((0 < p)%nat \/ owes c) c w box Hi Hb) as [Hi' Hn']. split; [done|apply Hn'].
  - destruct (poke_keeps ((0 < p)%nat \/ owes c) c w box Hi Hb) as [Hi' Hn']. split; [done|apply Hn'].
  - split; [by apply finv_shared|]. by apply (noticed_box _ _ w s' b b').
  - pose proof (taken_le c w Hi) as Hl. split.
    + destruct Hi as [Hok Htl Hc]. split; [by apply (effect_ok known nw timed _ 0 w box k' io' z')|done|].
      destruct c; cbn in Hc |- *; try done; try (by eapply effect_cursor);
        (destruct Hc as [Hc ?]; split; [by eapply effect_cursor|done]).
    + by eapply noticed_effect.
Qed.

(** *** The steps of the loop *)

(** How a step from [c] may end: in the invariant, with an exception of the
    user's, or asleep in the kernel. *)
Definition step_post p c w (o : outcome exn (pc U)) w' : Prop :=
  match o with
  | Normal c' => finv c' w' /\ fnoticed p c' w'
  | Throw (OtherException _) => True
  | Throw _ => False
  | Stuck r => r = KernelBlocks /\ c = AtEnter /\ shutting_down_ (me w) = false
  end.

Lemma noticed_due s (due due' : Prop) w : (due -> due') -> noticed_at s due w -> noticed_at s due' w.
Proof. intros Hd Hn box Hb Hne. destruct (Hn box Hb Hne) as [?|[?|?]]; auto. Qed.

Lemma advance_ready (q : Cq) : 0 < cq_count q -> drop 1 (cq_ready q) = cq_ready (set_cq_head (cq_head q +u32 1) q).
Proof. intros Hpos. by rewrite (cq_advance_ready q Hpos). Qed.

Lemma next_cqe_eq cu w :
  current cu = cq_head (cq (s_io (me w))) ->
  next_cqe cu w = (Normal (AtCqe (mkCursor (current cu +u32 1) (tail cu) (mask cu))), upd advance_cq w).
Proof. intros E. unfold next_cqe, advance_cq. by rewrite E. Qed.

Lemma cursor_next n cu w :
  1 <= n -> cursor_ok n cu w -> cursor_ok 0 (mkCursor (current cu +u32 1) (tail cu) (mask cu)) (upd advance_cq w).
Proof.
  intros Hn [H1 H2 H3 H4 H5]. split; cbn; [by rewrite H1|done|done|apply u32_range|].
  rewrite u32_distance_sub, cq_advance_count by lia. lia.
Qed.

Lemma top_step p w : finv AtTop w -> fnoticed p AtTop w -> armable w -> wp (loop_step AtTop) (step_post p AtTop w) w.
Proof.
  intros Hi Hn Ha. pose proof (finv_inv _ _ Hi eq_refl) as Hinv.
  set (w1 := if eventfd_armed_ (me w) then w else armed_world w).
  assert (E : loop_step AtTop w = (Normal AtEnter, w1)).
  { unfold w1. cbn. unfold mbind, exec_bind, gets. by destruct (eventfd_armed_ (me w)). }
  unfold wp. rewrite E. cbn [fst snd]. unfold w1. destruct (eventfd_armed_ (me w)) eqn:Ea.
  - split; [by apply inv_finv|exact Hn].
  - split; [|exact Hn]. apply inv_finv; [|done|done]. destruct Ha as [|Hroom]; [congruence|]. by apply (arm_safe known nw timed).
Qed.

Lemma enter_step p w : finv AtEnter w -> fnoticed p AtEnter w -> wp (loop_step AtEnter) (step_post p AtEnter w) w.
Proof.
  intros Hi Hn. pose proof (finv_inv _ _ Hi eq_refl) as Hinv.
  destruct (enter_cases known nw timed (if shutting_down_ (me w) then 0 else 1) IORING_ENTER_GETEVENTS w Hinv)
    as (box & Hbox & [(E & Hm & _)|(k' & io' & z' & E & _ & He)]).
  - assert (El : loop_step AtEnter w = (Stuck KernelBlocks, w)).
    { cbn. unfold mbind, exec_bind, gets. unfold sq_count in E. by rewrite E. }
    unfold wp. rewrite El. split_and!; [done|done|]. by destruct (shutting_down_ (me w)).
  - assert (El : loop_step AtEnter w = (Normal AtLoad, progressed k' io' box z' w)).
    { cbn. unfold mbind, exec_bind, gets. unfold sq_count in E. by rewrite E. }
    unfold wp. rewrite El. split.
    + apply inv_finv; [|done|done]. by eapply (effect_safe known nw timed).
    + eapply noticed_effect; [exact Hn|done|cbn; lia|done].
Qed.

Lemma load_step p w : finv AtLoad w -> fnoticed p AtLoad w -> wp (loop_step AtLoad) (step_post p AtLoad w) w.
Proof.
  intros Hi Hn. split; [|exact Hn]. apply inv_finv; [by apply (finv_inv AtLoad)|done|].
  pose proof (wf_io_cq _ (sk_io _ _ _ _ _ (proj1 (fi_ok _ _ Hi)))) as Hwf.
  split; cbn; try done; [apply Hwf|apply u32_range].
Qed.

(** The completion at the cursor is the first one ready. *)
Lemma cursor_cqe w cu :
  inv w -> cursor_ok 0 cu w -> (current cu =? tail cu) = false ->
  0 < cq_count (cq (s_io (me w))) /\ cursor_ok 1 cu w /\
  cq_cqes (cq (s_io (me w))) !! Z.to_nat (Z.land (current cu) (mask cu)) = Some (cqe_at (cq (s_io (me w))) 0).
Proof.
  intros Hi Hcu E. pose proof (wf_io_cq _ (sk_io _ _ _ _ _ (proj1 (proj1 Hi)))) as Hwf.
  destruct Hcu as [H1 H2 H3 H4 H5]. apply Z.eqb_neq in E.
  assert (Hpos : tail cu -u32 current cu <> 0).
  { intros E0. apply E. apply u32_distance_0; [done|rewrite H1; apply Hwf|done]. }
  split_and!; [lia|split; try done; lia|]. rewrite H1, H2.
  destruct (cqe_at_lookup (cq (s_io (me w))) 0 Hwf) as [c Hc]. unfold cqe_at. rewrite Hc. cbn.
  unfold slot in Hc. by rewrite Z.add_0_r, u32_id in Hc by apply Hwf.
Qed.

Lemma cqe_step p cu w : finv (AtCqe cu) w -> fnoticed p (AtCqe cu) w -> wp (loop_step (AtCqe cu)) (step_post p (AtCqe cu) w) w.
Proof.
  intros Hi Hn. pose proof (finv_inv _ _ Hi eq_refl) as Hinv. cbn [loop_step].
  destruct (current cu =? tail cu) eqn:Et; [by split; [apply inv_finv|]|].
  destruct (cursor_cqe w cu Hinv (fi_pc _ _ Hi) Et) as (Hpos & Hcu & Hl).
  apply wp_bind. eapply wp_demand; [exact Hl|]. set (q := cq (s_io (me w))) in *. case_decide as He.
  - assert (Hok : ok (AddrEventfdBuf :: pending_at 1 (kern w) q) w).
    { eapply ok_perm; [|apply Hinv]. unfold at_kernel, pending_at. fold q. rewrite (cq_advance_ready q Hpos). cbn.
      rewrite He. rewrite drop_0. by rewrite Permutation_middle. }
    apply ok_efd_cqe in Hok. apply wp_bind, wp_modify. apply wp_bind.
    destruct (own_box_ok known nw timed w _ (proj1 Hinv)) as (box & Hbox & Hc & Hg).
    unfold wp at 1. change (mkWorld (set_armed false (me w)) (sh w) (kern w)) with (upd (set_armed false) w).
    rewrite (take_inbox_eq (upd (set_armed false) w) box Hbox). cbn [fst snd].
    apply wp_ret. split.
    + split; [|apply Hinv|split; [by apply (cursor_ok_cq 1 cu w)|done]]. split; [apply Hok|].
      apply shared_ok_box; [apply Hok|constructor|]. apply (own_box_good w _ box (proj1 Hinv) Hbox).
    + intros b Hb Hne. unfold own_box in Hb. cbn in Hb. rewrite lookup_insert_eq in Hb. by simplify_eq.
  - pose proof (cqe_turn_safe known nw timed _ w Hinv Hpos eq_refl) as Ht.
    pose proof (noticed_cqe known nw timed p w) as Hkeep. fold q in Ht, Hkeep.
    unfold handle_cqe in Ht, Hkeep. rewrite decide_False in Ht, Hkeep by done.
    apply wp_bind. unfold wp in Ht |- *. cbn [fst snd].
    destruct (resume_awaitable (cqe_user_data (cqe_at q 0)) (res (cqe_at q 0)) w) as [[[]|[]|] w1]; cbn [fst snd] in *; try done.
    destruct Ht as ((Hi1 & _) & Hs & Hk). pose proof Hs as (Hq & _).
    rewrite next_cqe_eq by (rewrite Hq; apply Hcu). split.
    + apply inv_finv; [done|done|]. apply (cursor_next 1); [lia|]. by apply (cursor_ok_cq 1 cu w).
    + eapply noticed_due; [|apply (Hkeep w1); try done]; [by left|]. eapply noticed_due; [|exact Hn]. by intros [|[]].
Qed.

Lemma inbox_end_step p cu w :
  finv (AtInbox [] cu) w -> fnoticed p (AtInbox [] cu) w -> wp (loop_step (AtInbox [] cu)) (step_post p (AtInbox [] cu) w) w.
Proof.
  intros [Hok Htl [Hcu _]] Hn. unfold wp. cbn [loop_step]. rewrite next_cqe_eq by apply Hcu. cbn [fst snd].
  assert (Hpos : 0 < cq_count (cq (s_io (me w)))) by (destruct Hcu; lia).
  split; [split; [|done|by eapply (cursor_next 1)]|].
  - apply ok_advance; [|done]. unfold pending_at in *. cbn in Hok |- *. by rewrite <- advance_ready.
  - intros b Hb Hne. destruct (Hn b Hb Hne) as [?|[Hin|?]]; auto. right. left. cbn [taken] in *.
    rewrite advance_ready in Hin by done. by rewrite drop_0.
Qed.

(** User code between two accesses. *)
Lemma item_keeps p c c' w w' base :
  finv c w -> fnoticed p c w -> taken c' = taken c -> (owes c -> owes c') -> (pc_ok c w -> pc_ok c' w) ->
  base = pending_at (taken c) (kern w) (cq (s_io (me w))) -> keeps_ok known nw timed base w w' -> tl_sq_full (me w') = false ->
  grows anyone w w' -> finv c' w' /\ fnoticed p c' w'.
Proof.
  intros Hi Hn Et Ho Hpc -> (Hok & (Hq & _ & _ & Ha & _) & Hk) Htl Hg.
  destruct (own_box_ok known nw timed w _ (fi_ok _ _ Hi)) as (box & Hbox & Hc & _). split.
  - split; [by rewrite Et, Hk, Hq|done|]. apply (pc_ok_same c' w); [done|done|]. apply Hpc, Hi.
  - unfold fnoticed. rewrite Et. eapply noticed_grows; [|done|done|by rewrite Hq|done].
    eapply noticed_due; [|exact Hn]. tauto.
Qed.

Lemma inbox_step p task l cu w :
  finv (AtInbox (task :: l) cu) w -> fnoticed p (AtInbox (task :: l) cu) w ->
  wp (loop_step (AtInbox (task :: l) cu)) (step_post p (AtInbox (task :: l) cu) w) w.
Proof.
  intros Hi Hn. pose proof (fi_pc _ _ Hi) as [Hcu Hg]. apply Forall_cons in Hg as [Hf Hl].
  pose proof (invoke_safe known nw timed task Hf _ w (fi_ok _ _ Hi) (fi_flag _ _ Hi)) as Hw.
  pose proof (follows_invoke (grows anyone) task w) as Hgr. cbn [loop_step].
  apply wp_bind, wp_try. unfold wp in Hw |- *. destruct (invoke task w) as [o w1]. cbn [fst snd] in Hw, Hgr |- *.
  destruct Hw as (Ho & Hk & Htl).
  assert (Hrest : finv (AtInbox l cu) w1 /\ fnoticed p (AtInbox l cu) w1) by (by eapply (item_keeps p (AtInbox (task :: l) cu))).
  destruct Ho as [->|[e ->]]; [exact Hrest|]. destruct e as [st|]; [|done]. case_decide; [|exact Hrest].
  cbn [fst snd mret exec_ret]. eapply (item_keeps p (AtInbox (task :: l) cu)); done.
Qed.

Lemma requeue_step p task l cu w :
  finv (AtRequeue task l cu) w -> fnoticed p (AtRequeue task l cu) w ->
  wp (loop_step (AtRequeue task l cu)) (step_post p (AtRequeue task l cu) w) w.
Proof.
  intros Hi Hn. destruct (own_box_ok known nw timed w _ (fi_ok _ _ Hi)) as (box & Hbox & _).
  destruct (own_box_good w _ box (fi_ok _ _ Hi) Hbox) as [Hg Hc]. pose proof (fi_pc _ _ Hi) as [Hcu Hl].
  apply Forall_cons in Hl as [Hf Hl]. pose (w' := set_box (s_id (me w)) (mkBox (inbox_ box ++ [task]) (efd_counter box)) w).
  assert (E : loop_step (AtRequeue task l cu) w = (Normal (AtPoke l cu), w')).
  { cbn. unfold inbox_push, mbind, exec_bind, gets, demand, on_shared, modify. unfold own_box in Hbox. by rewrite Hbox. }
  unfold wp. rewrite E. split; [|intros b _ _; by right; right; right].
  assert (Hi' : finv (AtRequeue task l cu) w').
  { apply finv_shared; [done|]. apply shared_ok_box; [apply Hi| |done]. apply Forall_app. split; [done|by constructor]. }
  destruct Hi' as [Hok' Htl' Hc']. split; [done|done|]. by split; [apply Hc'|].
Qed.

Lemma poke_step p l cu w :
  finv (AtPoke l cu) w -> fnoticed p (AtPoke l cu) w -> wp (loop_step (AtPoke l cu)) (step_post p (AtPoke l cu) w) w.
Proof.
  intros Hi Hn. destruct (own_box_ok known nw timed w _ (fi_ok _ _ Hi)) as (box & Hbox & _).
  destruct (poke_keeps ((0 < p)%nat \/ owes (AtInbox l cu)) _ w box Hi Hbox) as [Hi' Hn'].
  pose proof (wake_on_stop_eq w box Hbox) as Ew. set (w' := set_box _ _ _) in Hi', Hn', Ew.
  assert (E : loop_step (AtPoke l cu) w = (Normal (AtInbox l cu), w')).
  { unfold wake_on_stop in Ew. cbn. unfold mbind, exec_bind, gets in Ew |- *.
    destruct (eventfd_write (s_id (me w)) 1 w) as [[] w1]; try done. by injection Ew as ->. }
  unfold wp. rewrite E. split; [|apply (Hn' (AtInbox l cu))]. by destruct Hi'.
Qed.

Lemma reap_step p w : finv AtReap w -> fnoticed p AtReap w -> wp (loop_step AtReap) (step_post p AtReap w) w.
Proof.
  intros Hi Hn. pose proof (finv_inv _ _ Hi eq_refl) as Hinv.
  assert (E : loop_step AtReap w = (Normal AtTop, reaped w)).
  { cbn. unfold mbind, exec_bind. by rewrite (reap_eq known nw timed _ w (proj1 Hinv)). }
  unfold wp. rewrite E. split; [|exact Hn]. apply inv_finv; [|done|done]. apply (reap_safe known nw timed w Hinv).
Qed.

Lemma loop_step_safe p c w :
  finv c w -> fnoticed p c w -> (c = AtTop -> armable w) -> wp (loop_step c) (step_post p c w) w.
Proof.
  intros Hi Hn Ha. destruct c as [| | |cu|[|task l] cu|task l cu|l cu|].
  - by apply top_step; [..|apply Ha].
  - by apply enter_step.
  - by apply load_step.
  - by apply cqe_step.
  - by apply inbox_end_step.
  - by apply inbox_step.
  - by apply requeue_step.
  - by apply poke_step.
  - by apply reap_step.
Qed.

Lemma freach_inv p c w : freach p c w -> finv c w /\ fnoticed p c w.
Proof.
  induction 1 as [w Hst|p c w c' w' _ [Hi Hn] Ha Hs|p w t e w1 _ [Hi Hn] Hf Hg Hs|p w _ [Hi Hn]|p c w p' w' _ [Hi Hn] He].
  - destruct (started_inv known nw timed w Hst) as [Hi Hn]. split; [by apply inv_finv|].
    eapply noticed_due; [|exact Hn]. lia.
  - pose proof (loop_step_safe p c w Hi Hn Ha) as Hw. unfold wp in Hw. by rewrite Hs in Hw.
  - destruct (spawn_keeps known nw timed p w t e w1) as [Hi1 Hn1]; try done; [by apply (finv_inv AtTop)| |].
    { eapply noticed_due; [|exact Hn]. by intros [|[]]. }
    split; [by apply inv_finv|]. eapply noticed_due; [|exact Hn1]. by left.
  - split; [|exact Hn]. apply inv_finv; [|done|done]. destruct (finv_inv _ _ Hi eq_refl) as [[[] ?] ?]. by split; [split|].
  - by eapply env_keeps.
Qed.

(** Between two turns. *)
Lemma freach_top p w : freach p AtTop w -> inv w.
Proof. intros Hr. destruct (freach_inv p AtTop w Hr) as [Hi _]. by apply (finv_inv AtTop). Qed.

(** *** Whole turns are a special case *)

Lemma alone_freach p x y : rtc alone x y -> freach p (fst x) (snd x) -> freach p (fst y) (snd y).
Proof.
  induction 1 as [|x z y [Ht Hs] _ IH]; intros Hx; [done|]. apply IH. eapply freach_loop; [exact Hx| |exact Hs].
  intros E. by rewrite E in Ht.
Qed.

Lemma reach_freach p w : reach p w -> freach p AtTop w.
Proof.
  induction 1 as [w Hst|p w w1 w2 _ IH Ha Hd Hr|p w t e w1 _ IH Hf Hg Hs|p w _ IH
    |p w box f _ IH Hb Hg|p w box z _ IH Hb ->|p w box z _ IH Hb ->|p w s' b b' _ IH Hs' Hb Hb' Hg|p w box k' io' z' _ IH Hb He].
  - by apply freach_start.
  - apply (alone_freach p _ _ (turn_alone w w1 w2 Hd Hr)). by eapply freach_loop; [exact IH| |apply top_eq].
  - by eapply freach_spawn.
  - by apply freach_closing.
  - eapply freach_env; [exact IH|]. by apply if_push.
  - eapply freach_env; [exact IH|]. by apply if_write.
  - eapply freach_env; [exact IH|]. by apply if_wake.
  - eapply freach_env; [exact IH|]. by eapply if_others.
  - eapply freach_env; [exact IH|]. by apply if_kernel.
Qed.

(** *** A turn ends *)

(** Completions left, then what is left of the items taken out of the inbox. *)
Definition left_over (c : pc U) : Z * nat :=
  match c with
  | AtTop => (2 * two32 + 2, 0%nat)
  | AtEnter => (2 * two32 + 1, 0%nat)
  | AtLoad => (2 * two32, 0%nat)
  | AtCqe cu => (2 * (tail cu -u32 current cu) + 1, 0%nat)
  | AtInbox l cu => (2 * (tail cu -u32 current cu), (3 * length l)%nat)
  | AtRequeue _ l cu => (2 * (tail cu -u32 current cu), (3 * length l + 2)%nat)
  | AtPoke l cu => (2 * (tail cu -u32 current cu), (3 * length l + 1)%nat)
  | AtReap => (0, 0%nat)
  end.
Definition nearer (c c' : pc U) : Prop := slexprod Z nat (Zwf 0) lt (left_over c) (left_over c').

Lemma nearer_wf : well_founded nearer.
Proof. apply (wf_inverse_image (pc U) (Z * nat)), wf_slexprod; [apply Zwf_well_founded|apply lt_wf]. Qed.

Lemma nearer_first c c' : 0 <= fst (left_over c) < fst (left_over c') -> nearer c c'.
Proof.
  unfold nearer. destruct (left_over c) as [z n], (left_over c') as [z' n']. cbn. intros Hz. apply left_slex. unfold Zwf. lia.
Qed.

Lemma nearer_second c c' :
  fst (left_over c) = fst (left_over c') -> (snd (left_over c) < snd (left_over c'))%nat -> nearer c c'.
Proof.
  unfold nearer. destruct (left_over c) as [z n], (left_over c') as [z' n']. cbn. intros <- Hn. by apply right_slex.
Qed.

Lemma loop_step_nearer p c w c' w' :
  freach p c w -> c <> AtReap -> loop_step c w = (Normal c', w') -> nearer c' c.
Proof.
  intros Hr Hne E. destruct (freach_inv p c w Hr) as [Hi _].
  assert (Hu : forall a b, 0 <= a -u32 b < two32) by (intros; apply u32_range).
  destruct c as [| | |cu|[|task l] cu|task l cu|l cu|]; [..|done].
  - rewrite top_eq in E. injection E as <- <-. apply nearer_first. cbn. unfold two32. lia.
  - cbn in E. unfold mbind, exec_bind, gets in E. destruct (enter _ _ _ w) as [[]]; try done. injection E as <- <-.
    apply nearer_first. cbn. unfold two32. lia.
  - cbn in E. injection E as <- <-. apply nearer_first. cbn. specialize (Hu (cq_tail (cq (s_io (me w)))) (cq_head (cq (s_io (me w))))). lia.
  - pose proof (finv_inv _ _ Hi eq_refl) as Hinv. cbn [loop_step] in E. specialize (Hu (tail cu) (current cu)).
    destruct (current cu =? tail cu) eqn:Et; [injection E as <- <-; apply nearer_first; cbn; lia|].
    destruct (cursor_cqe w cu Hinv (fi_pc _ _ Hi) Et) as (_ & Hcu & Hl). pose proof (cu_left _ _ _ Hcu) as Hleft.
    unfold mbind at 1, exec_bind at 1, demand in E. rewrite Hl in E. case_decide.
    + unfold mbind, exec_bind in E. cbn in E. destruct (take_inbox _) as [[]]; try done. injection E as <- <-.
      apply nearer_first. cbn. lia.
    + unfold mbind, exec_bind in E. destruct (resume_awaitable _ _ w) as [[]]; try done. cbn in E. injection E as <- <-.
      apply nearer_first. cbn. rewrite u32_distance_sub by lia. lia.
  - cbn [loop_step] in E. destruct (fi_pc _ _ Hi) as [Hcu _]. rewrite next_cqe_eq in E by apply Hcu. injection E as <- <-.
    apply nearer_first. cbn. pose proof (cu_left _ _ _ Hcu). rewrite u32_distance_sub by (specialize (Hu (tail cu) (current cu)); lia). lia.
  - assert (Hc : c' = AtInbox l cu \/ c' = AtRequeue task l cu).
    { cbn in E. unfold mbind, exec_bind, try in E. destruct (invoke task w) as [[[]|[st|]|] w1]; try done; [|case_decide];
        injection E as <- <-; auto. }
    destruct Hc as [->| ->]; (apply nearer_second; [done|cbn; lia]).
  - cbn in E. unfold mbind, exec_bind, gets in E. destruct (inbox_push _ _ w) as [[]]; try done. injection E as <- <-.
    apply nearer_second; [done|cbn; lia].
  - cbn in E. unfold mbind, exec_bind, gets in E. destruct (eventfd_write _ _ w) as [[]]; try done. injection E as <- <-.
    apply nearer_second; [done|cbn; lia].
Qed.

(** So every step of a turn brings its end nearer. *)
Lemma loop_step_closer p c w c' w' : freach p c w -> loop_step c w = (Normal c', w') -> c' = AtTop \/ nearer c' c.
Proof.
  intros Hr E. destruct (is_top c') eqn:Ht; [left; by destruct c'|right].
  eapply loop_step_nearer; [exact Hr| |exact E]. intros ->.
  cbn in E. unfold mbind, exec_bind in E. destruct (reap w) as [[]]; try done. injection E as <- _. done.
Qed.

(** *** A request to wake up stays in force *)

Definition awake w : Prop := exists box, own_box w = Some box /\
  (0 < efd_counter box \/ AddrEventfdBuf ∈ (cqe_user_data <$> cq_ready (cq (s_io (me w))))).

(** Before the system call: others act, or the loop arms its read. *)
Inductive before_enter : nat * pc U * W -> nat * pc U * W -> Prop :=
| be_env p c w p' w' : interference p w p' w' -> before_enter (p, c, w) (p', c, w')
| be_arm p w : armable w -> before_enter (p, AtTop, w) (p, AtEnter, entered w).

Lemma awake_env p w p' w' : shared_ok (sh w) -> awake w -> interference p w p' w' -> awake w'.
Proof.
  intros Hsh (box & Hb & Haw) Hif. destruct (so_good _ _ _ _ Hsh _ _ Hb) as [_ Hc].
  destruct Hif as [p w b f Hb1 Hf|p w b Hb1|p w b Hb1|p w s' b b' Hs' Hb1 Hb' (l & _ & Hle & _)|p w b k' io' z' Hb1 He];
    assert (b = box) as -> by congruence.
  - eexists. split; [apply lookup_insert_eq|]. exact Haw.
  - eexists. split; [apply lookup_insert_eq|]. left. by apply poked_range.
  - eexists. split; [apply lookup_insert_eq|]. left. by apply poked_range.
  - exists b'. split; [done|]. cbn. destruct Haw; [left; lia|by right].
  - eexists. split; [apply lookup_insert_eq|]. cbn.
    destruct He as (j & cs & _ & _ & _ & _ & _ & _ & _ & Hrd & _ & [[_ ->]|(Hcs & ->)]); rewrite Hrd, fmap_app.
    + destruct Haw; [by left|right]. by apply elem_of_app; left.
    + right. apply elem_of_app. right. apply efd_reads_elem. lia.
Qed.

Lemma awake_enters w : finv AtEnter w -> awake w -> exists w', loop_step AtEnter w = (Normal AtLoad, w').
Proof.
  intros Hi (box & Hb & Haw).
  destruct (enter_returns known nw timed w box (finv_inv _ _ Hi eq_refl) (fi_pc _ _ Hi) Hb Haw) as (k' & io' & z' & E & _).
  eexists. cbn. unfold mbind, exec_bind, gets. unfold sq_count in E. by rewrite E.
Qed.

Lemma before_enter_keeps x y :
  rtc before_enter x y -> freach x.1.1 x.1.2 x.2 -> awake x.2 -> freach y.1.1 y.1.2 y.2 /\ awake y.2.
Proof.
  induction 1 as [|x y z Hs _ IH]; [done|]. intros Hx Haw. apply IH.
  - destruct Hs as [p c w p' w' Hif|p w Ha]; cbn in *; [by eapply freach_env|].
    eapply freach_loop; [exact Hx|by intros _|apply top_eq].
  - destruct Hs as [p c w p' w' Hif|p w Ha]; cbn in *.
    + destruct (freach_inv _ _ _ Hx) as [Hi _]. by eapply awake_env; [apply Hi| |].
    + unfold entered. by destruct (eventfd_armed_ (me w)).
Qed.

(** *** Theorems *)

(** C3: Memory safety with interference at every cut of the loop, in the
    executions of [freach]: spawned tasks ask for at most one slot before they
    first suspend, deadlines and spawning coroutines do not occur together,
    [tasks_] can grow, and turns start [armable].  Wherever the loop thread is
    inside a turn, and whatever other threads and the kernel did at every
    earlier cut, its next step follows no dangling address, resumes no coroutine
    that is not suspended and stays inside the completion ring: it can only
    sleep, in [io_uring_enter] and not during shutdown.  It throws no exception
    of the library, only one of the user's.  And a step that does not end the
    turn brings its end nearer, in a well-founded order, so the turn ends:
    interference cannot feed its loops. *)
Theorem interleaved_memory_safe p c w :
  freach p c w -> (c = AtTop -> armable w) ->
  (forall r w', loop_step c w = (Stuck r, w') -> r = KernelBlocks /\ c = AtEnter /\ shutting_down_ (me w) = false) /\
  (forall e w', loop_step c w = (Throw e, w') -> exists tag, e = OtherException tag) /\
  (forall c' w', loop_step c w = (Normal c', w') -> c' = AtTop \/ nearer c' c).
Proof.
  intros Hr Ha. destruct (freach_inv p c w Hr) as [Hi Hn]. pose proof (loop_step_safe p c w Hi Hn Ha) as Hw.
  unfold wp in Hw. split_and!.
  - intros r w' E. by rewrite E in Hw.
  - intros e w' E. rewrite E in Hw. destruct e as [|tag]; [done|by exists tag].
  - intros c' w'. by apply (loop_step_closer p).
Qed.

(** C4: No wake-up is lost at any interleaving of [freach].  When the loop thread
    is about to enter the kernel, its inbox holds work and no poster is between
    its push and its write, then [io_uring_enter] returns, whatever happened
    between the swap of the inbox, the callables taken out of it, the push of a
    requeued one and the poke of the eventfd, and even if reads of the eventfd
    completed while it was at zero. *)
Theorem interleaved_no_lost_wakeup w box :
  freach 0 AtEnter w -> own_box w = Some box -> inbox_ box <> [] ->
  exists w', loop_step AtEnter w = (Normal AtLoad, w').
Proof.
  intros Hr Hb Hne. destruct (freach_inv _ _ _ Hr) as [Hi Hn]. apply awake_enters; [done|]. exists box. split; [done|].
  destruct (Hn box Hb Hne) as [?|[?|[?|[]]]]; [by left|by right|lia].
Qed.

(** C9: Outstanding completions and suspended coroutines correspond one to one,
    wherever the loop thread is in an execution of [freach] (spawned tasks ask
    for at most one slot before they first suspend, deadlines and spawning
    coroutines do not occur together, [tasks_] can grow, turns start
    [armable]).  Each awaitable address among the entries staged, in flight or
    completed and not taken up yet names a live awaitable whose handle is a
    frame suspended on exactly that awaitable, no address is outstanding twice,
    every frame suspended on an operation is outstanding, and the eventfd read
    is outstanding exactly once when armed and not at all otherwise. *)
Theorem outstanding_exact p c w :
  freach p c w ->
  let out := outstanding (pending_at (taken c) (kern w) (cq (s_io (me w)))) (me w) in
  (forall a, AddrAwaitable a ∈ out -> exists x h f k,
     awts (me w) !! a = Some x /\ handle x = Some h /\
     frames (me w) !! h = Some f /\ susp f = AtOp a k) /\
  NoDup (omap as_awaitable out) /\
  (forall h f a k, frames (me w) !! h = Some f -> susp f = AtOp a k -> AddrAwaitable a ∈ out) /\
  efd_count out = (if eventfd_armed_ (me w) then 1%nat else 0%nat).
Proof. intros Hr. destruct (freach_inv p c w Hr) as [Hi _]. apply (ok_outstanding known nw timed), (fi_ok _ _ Hi). Qed.

(** C10: A completion reaches the coroutine that waits for it.  Wherever the loop
    thread is in an execution of [freach] (spawned tasks ask for at most one
    slot before they first suspend, deadlines and spawning coroutines do not
    occur together, [tasks_] can grow, turns start [armable]), a ready
    completion for awaitable [a] resumes exactly the frame suspended on [a], at
    the point where it waits, with the completion's [res] as the value of its
    [co_await]; the awaitable is destroyed first, and the frame's continuations
    run by symmetric transfer when it finishes. *)
Theorem completion_delivered p c w cqe a :
  freach p c w -> cqe ∈ drop (taken c) (cq_ready (cq (s_io (me w)))) -> cqe_user_data cqe = AddrAwaitable a ->
  exists h f k, frames (me w) !! h = Some f /\ susp f = AtOp a k /\
    handle_cqe cqe w = ((s ← run (k (res cqe)) h; transfer h s);; take_pending;; mret tt) (resumed a h f w).
Proof.
  intros Hr Hc Ha. destruct (freach_inv p c w Hr) as [Hi _]. eapply (ok_delivered known nw timed); [apply (fi_ok _ _ Hi)| |done].
  unfold pending_at. apply elem_of_app. right. rewrite <- Ha. by apply list_elem_of_fmap_2.
Qed.

(** C27: The state of a scheduler is well formed wherever its loop is in an
    execution of [freach]: spawned tasks ask for at most one slot before they
    first suspend, deadlines and spawning coroutines do not occur together,
    [tasks_] can grow, and turns start [armable], without which arming the
    eventfd read overruns the queue.  Both rings have a power of two of entries,
    a mask to match and 32-bit indices no further apart than the ring is long;
    the index array stays inside the entry array; the eventfd counter is one the
    kernel can hold; every frame and awaitable was created by this scheduler;
    [tasks_] holds live frames, each once; and inside the completion loop the
    cursor is at the head of the completion ring and does not run past its
    tail. *)
Theorem state_well_typed p c w :
  freach p c w ->
  (wf_io (s_io (me w)) /\
   0 <= sq_count (sq (s_io (me w))) <= sq_entries (sq (s_io (me w))) /\
   0 <= cq_count (cq (s_io (me w))) <= cq_entries (cq (s_io (me w))) /\
   (exists box, own_box w = Some box /\ 0 <= efd_counter box <= EFD_MAX) /\
   (forall h, is_Some (frames (me w) !! h) -> (h < next_frame (me w))%nat) /\
   (forall a, is_Some (awts (me w) !! a) -> (a < next_awt (me w))%nat) /\
   NoDup (tasks_ (me w)) /\ forall h, h ∈ tasks_ (me w) -> is_Some (frames (me w) !! h)) /\
  forall cu, c = AtCqe cu ->
    current cu = cq_head (cq (s_io (me w))) /\ mask cu = cq_mask (cq (s_io (me w))) /\
    0 <= tail cu -u32 current cu <= cq_count (cq (s_io (me w))).
Proof.
  intros Hr. destruct (freach_inv p c w Hr) as [Hi _]. split; [apply (ok_typed known nw timed _ _ (fi_ok _ _ Hi))|].
  intros cu ->. by destruct (fi_pc _ _ Hi).
Qed.

(** C18: A stop request wakes the loop wherever it finds it.  The stop callback of
    [Scheduler::run] writes the eventfd without an exception; if the loop
    thread has tested its stop token already, or is about to enter the kernel,
    then, whatever other threads and the kernel do before it enters, it does
    not sleep there. *)
Theorem interleaved_stop_wakes p c w :
  freach p c w ->
  exists w0, wake_on_stop w = (Normal tt, w0) /\
    forall p' w1, rtc before_enter (p, c, w0) (p', AtEnter, w1) -> exists w2, loop_step AtEnter w1 = (Normal AtLoad, w2).
Proof.
  intros Hr. destruct (freach_inv p c w Hr) as [Hi _].
  destruct (own_box_ok known nw timed w _ (fi_ok _ _ Hi)) as (box & Hb & _).
  destruct (own_box_good w _ box (fi_ok _ _ Hi) Hb) as [_ Hc].
  eexists. split; [by apply wake_on_stop_eq|]. intros p' w1 Hs.
  destruct (before_enter_keeps _ _ Hs) as [Hr1 Haw1]; cbn in *.
  - eapply freach_env; [exact Hr|]. by apply if_wake.
  - eexists. split; [apply lookup_insert_eq|]. left. by apply poked_range.
  - destruct (freach_inv _ _ _ Hr1) as [Hi1 _]. by apply awake_enters.
Qed.
End Fine.

(** ** A concrete interleaving

    The scheduler of Wakeup: its loop is about to enter the kernel when another
    thread pushes a callable, and then writes the eventfd. *)

#[local] Existing Instance demo_kernel.
#[local] Existing Instance demo_kernel_spec.

Definition demo_entering : world nat (list io_uring_sqe) := snd (loop_step AtTop demo_world).
Definition demo_pushed : world nat (list io_uring_sqe) := set_box 0 (mkBox [demo_job] 0) demo_entering.
Definition demo_raced : world nat (list io_uring_sqe) := set_box 0 (mkBox [demo_job] 1) demo_pushed.

Lemma demo_raced_freach : freach demo_known 0 false 0 AtEnter demo_raced.
Proof.
  eapply freach_env; [|apply (if_write demo_known 0 false 0 demo_pushed (mkBox [demo_job] 0)); reflexivity].
  eapply freach_env; [|apply (if_push demo_known 0 false 0 demo_entering (mkBox [] 0) demo_job); [reflexivity|]].
  - eapply (freach_loop demo_known 0 false 0 AtTop demo_world); [apply freach_start, demo_started| |reflexivity].
    intros _. right. reflexivity.
  - cbn. repeat split. by left.
Qed.

(** The loop has taken the callable out of its inbox, run it, and is about to
    go on to the next completion; its task waits for its read. *)
Fixpoint advanced (n : nat) (x : pc nat * world nat (list io_uring_sqe)) : option (pc nat * world nat (list io_uring_sqe)) :=
  match n with
  | O => Some x
  | S n => match x with
           | (AtTop, _) => None
           | (c, w) => match loop_step c w with (Normal c', w') => advanced n (c', w') | _ => None end
           end
  end.

Lemma advanced_freach n : forall x y, advanced n x = Some y ->
  freach demo_known 0 false 0 (fst x) (snd x) -> freach demo_known 0 false 0 (fst y) (snd y).
Proof.
  induction n as [|n IH]; intros [c w] y; cbn [advanced]; [by intros [= <-]|]. intros E Hr.
  assert (Hc : c <> AtTop) by (by intros ->). assert (E' : match loop_step c w with (Normal c', w') => advanced n (c', w') | _ => None end = Some y) by (by destruct c).
  destruct (loop_step c w) as [[c'| |] w'] eqn:El; try done. apply (IH (c', w') y E'). by eapply freach_loop; [exact Hr| |exact El].
Qed.

Definition demo_ran : pc nat * world nat (list io_uring_sqe) := default (AtTop, demo_world) (advanced 4 (AtEnter, demo_raced)).

Lemma demo_ran_freach : freach demo_known 0 false 0 (fst demo_ran) (snd demo_ran).
Proof.
  apply (advanced_freach 4 (AtEnter, demo_raced)); [vm_compute; reflexivity|exact demo_raced_freach].
Qed.

Lemma outstanding_exact_witness :
  taken (fst demo_ran) = 1%nat /\ exists x, awts (me (snd demo_ran)) !! 0%nat = Some x.
Proof.
  split; [vm_compute; reflexivity|].
  destruct (outstanding_exact demo_known 0 false 0 (fst demo_ran) (snd demo_ran) demo_ran_freach) as [Hlive _].
  destruct (Hlive 0%nat) as (x & _ & _ & _ & Hx & _); [|by exists x].
  vm_compute. by apply elem_of_cons; left.
Defined.

Lemma state_well_typed_witness : wf_io (s_io (me (snd demo_ran))) /\ sq_count (sq (s_io (me (snd demo_ran)))) <= 8.
Proof.
  destruct (state_well_typed demo_known 0 false 0 (fst demo_ran) (snd demo_ran) demo_ran_freach) as ((Hio & [_ Hc] & _) & _).
  split; [exact Hio|exact Hc].
Defined.

Lemma interleaved_memory_safe_witness :
  exists w', loop_step AtEnter demo_raced = (Normal AtLoad, w') /\
    forall r w'', loop_step AtEnter demo_raced = (Stuck r, w'') -> r = KernelBlocks.
Proof.
  eexists. split; [vm_compute; reflexivity|]. intros r w'' E.
  destruct (interleaved_memory_safe demo_known 0 false 0 AtEnter demo_raced demo_raced_freach) as (Hs & _); [done|].
  apply (Hs r w'' E).
Defined.

Lemma interleaved_no_lost_wakeup_witness : exists w', loop_step AtEnter demo_raced = (Normal AtLoad, w').
Proof.
  apply (interleaved_no_lost_wakeup demo_known 0 false demo_raced (mkBox [demo_job] 1) demo_raced_freach); done.
Defined.

Lemma interleaved_stop_wakes_witness :
  exists w0, wake_on_stop demo_raced = (Normal tt, w0) /\ exists w2, loop_step AtEnter w0 = (Normal AtLoad, w2).
Proof.
  destruct (interleaved_stop_wakes demo_known 0 false 0 AtEnter demo_raced demo_raced_freach) as (w0 & E & Hw).
  exists w0. split; [exact E|]. apply (Hw 0%nat w0). reflexivity.
Defined.

(** A kernel that answers on its own, between two turns. *)
Module LazyKernel.
#[local] Existing Instance Lazy.lazy_kernel.
#[local] Existing Instance Lazy.lazy_kernel_spec.

Lemma completion_delivered_witness :
  exists h f k, frames (me Lazy.answered_world) !! h = Some f /\ susp f = AtOp 0 k /\
    handle_cqe demo_cqe Lazy.answered_world =
      ((s ← run (k 64) h; transfer h s);; take_pending;; mret tt) (resumed 0 h f Lazy.answered_world).
Proof.
  apply (completion_delivered demo_known 0 false 0 AtTop Lazy.answered_world demo_cqe 0); [|vm_compute; by apply elem_of_cons; left|reflexivity].
  apply reach_freach, Lazy.answered_reach.
Defined.
End LazyKernel.
