(* ===== verification/Process.v ===== *)
(** * Process: what a scheduler promises, without frames, handles and rings

    The abstract specification of Machine and Scheduler.  A task is a
    [proc]: a tree of operations in which nested tasks have disappeared, since
    awaiting a task is running its body in place.  A scheduler is a [pool]: two
    queues, the entries at the kernel, and for every outstanding operation the
    process that continues with its result.  There are no coroutine frames, no
    handles, no symmetric transfer, no indices that wrap and no thread-local
    flag; Refine shows that the code implements this. *)
From stdpp Require Import prelude list gmap.
From Stdlib Require Import ZArith Lia.
From S2P Require Import Prelude ErrorCodes Ring Operations Awaitable Task Machine Kernel Scheduler Heap Safety EventLoop Follows Wakeup.

(** ** Processes *)

Section Processes.
Context (U : Type).

Inductive proc : Type :=
| PDone (r : Z + exn)
| PDo (g : U -> U * Z) (k : Z -> proc)
| PAwait (op : operation) (timeout : option Z) (k : Z -> proc)
| PSpawn (t : proc) (k : option exn -> proc)
| PPost (dst : nat) (f : callable U) (k : option exn -> proc).
End Processes.

Arguments PDone {U} r.
Arguments PDo {U} g k.
Arguments PAwait {U} op timeout k.
Arguments PSpawn {U} t k.
Arguments PPost {U} dst f k.

(** The process of a body whose result goes to [c]. *)
Fixpoint inline {U} (b : coro U) (c : Z + exn -> proc U) : proc U :=
  match b with
  | CoReturn v => c (inl v)
  | CoThrow e => c (inr e)
  | CoDo g k => PDo g (fun z => inline (k z) c)
  | CoAwait op timeout k => PAwait op timeout (fun z => inline (k z) c)
  | CoAwaitTask t k => inline t (fun r => inline (k r) c)
  | CoSpawn t k => PSpawn (inline t PDone) (fun e => inline (k e) c)
  | CoPost dst f k => PPost dst f (fun e => inline (k e) c)
  end.

Definition denote {U} (b : coro U) : proc U := inline b PDone.

(** ** Pools *)

Record pool (U : Type) : Type := mkPool {
  p_id : nat;
  p_eventfd : Z;
  p_entries : Z;                          (* room in the submission queue *)
  p_armed : bool;
  p_down : bool;
  p_staged : list io_uring_sqe;           (* submission queue *)
  p_flight : list io_uring_sqe;           (* at the kernel *)
  p_ready : list io_uring_cqe;            (* completion queue *)
  p_waiting : gmap nat (Z -> proc U);     (* who continues with the result of an operation *)
  p_next : nat;                           (* the next operation's name *)
  p_done : nat;                           (* finished tasks not reaped yet *)
  p_shared : shared U
}.
Arguments mkPool {U}.
Arguments p_id {U} p.
Arguments p_eventfd {U} p.
Arguments p_entries {U} p.
Arguments p_armed {U} p.
Arguments p_down {U} p.
Arguments p_staged {U} p.
Arguments p_flight {U} p.
Arguments p_ready {U} p.
Arguments p_waiting {U} p.
Arguments p_next {U} p.
Arguments p_done {U} p.
Arguments p_shared {U} p.

Section Pools.
Context {U : Type}.
Implicit Types Q : pool U.
#[local] Abbreviation A := (exec (pool U) exn).

Definition with_flags (armed down : bool) Q : pool U :=
  mkPool (p_id Q) (p_eventfd Q) (p_entries Q) armed down (p_staged Q) (p_flight Q) (p_ready Q)
    (p_waiting Q) (p_next Q) (p_done Q) (p_shared Q).
Definition with_queues staged flight ready Q : pool U :=
  mkPool (p_id Q) (p_eventfd Q) (p_entries Q) (p_armed Q) (p_down Q) staged flight ready
    (p_waiting Q) (p_next Q) (p_done Q) (p_shared Q).
Definition with_waiting waiting next Q : pool U :=
  mkPool (p_id Q) (p_eventfd Q) (p_entries Q) (p_armed Q) (p_down Q) (p_staged Q) (p_flight Q) (p_ready Q)
    waiting next (p_done Q) (p_shared Q).
Definition with_done n Q : pool U :=
  mkPool (p_id Q) (p_eventfd Q) (p_entries Q) (p_armed Q) (p_down Q) (p_staged Q) (p_flight Q) (p_ready Q)
    (p_waiting Q) (p_next Q) n (p_shared Q).
Definition with_shared s Q : pool U :=
  mkPool (p_id Q) (p_eventfd Q) (p_entries Q) (p_armed Q) (p_down Q) (p_staged Q) (p_flight Q) (p_ready Q)
    (p_waiting Q) (p_next Q) (p_done Q) s.

(** *** What a process does *)

Definition p_user (g : U -> U * Z) : A Z := fun Q =>
  let '(u, z) := g (user (p_shared Q)) in (Normal z, with_shared (with_user u (p_shared Q)) Q).

(** Start an operation.  When the queue has no room for its entries it is
    skipped, and the process goes on at once with the result 0. *)
Definition p_await (op : operation) (timeout : option Z) (k : Z -> proc U) : A bool := fun Q =>
  let a := p_next Q in
  if p_entries Q <? Z.of_nat (length (p_staged Q)) + slots_needed (made op timeout)
  then (Normal false, with_waiting (p_waiting Q) (S a) Q)
  else (Normal true, with_waiting (<[a := k]> (p_waiting Q)) (S a)
          (with_queues (p_staged Q ++ staged a (made op timeout)) (p_flight Q) (p_ready Q) Q)).

(** Hand a callable to another scheduler; the item is delivered even when the
    eventfd is saturated. *)
Definition post_shared (dst : nat) (f : callable U) (s : shared U) : outcome exn unit * shared U :=
  match boxes s !! dst with
  | None => (Stuck UseAfterFree, s)
  | Some box =>
      let item c := with_boxes (<[dst := mkBox (inbox_ box ++ [f]) c]> (boxes s)) s in
      if EFD_MAX <? efd_counter box + 1
      then (Throw (IOException EventFdWriteFailed), item (efd_counter box))
      else (Normal tt, item (efd_counter box + 1))
  end.

Definition p_post (dst : nat) (f : callable U) : A unit := fun Q =>
  let '(o, s) := post_shared dst f (p_shared Q) in (o, with_shared s Q).

Definition caught {B} (r : B + exn) : option exn := match r with inl _ => None | inr e => Some e end.

(** A process that ended ([true]) is a task to reap. *)
Definition p_finish (ended : bool) : A unit :=
  modify (fun Q => if ended then with_done (S (p_done Q)) Q else Q).

Definition p_full Q : bool := p_entries Q <=? Z.of_nat (length (p_staged Q)).

(** Run a process until it waits ([false]) or ends ([true]). *)
Fixpoint prun (p : proc U) : A bool :=
  match p with
  | PDone _ => mret true
  | PDo g k => z ← p_user g; prun (k z)
  | PAwait op timeout k =>
      waits ← p_await op timeout k;
      if waits : bool then mret false else prun (k 0)
  | PSpawn t k =>
      full ← gets p_full;
      if full : bool then prun (k (Some (IOException SQFull)))
      else ended ← prun t; p_finish ended;; prun (k None)
  | PPost dst f k => r ← try (p_post dst f); prun (k (caught r))
  end.

(** A new task: refused when the queue is full. *)
Definition pspawn (t : proc U) : A (option exn) :=
  full ← gets p_full;
  if full : bool then mret (Some (IOException SQFull))
  else ended ← prun t; p_finish ended;; mret None.

Fixpoint pinvoke (f : callable U) : A unit :=
  match f with
  | FnReturn => mret tt
  | FnThrow e => throw e
  | FnDo g k => z ← p_user g; pinvoke (k z)
  | FnSpawn t k => e ← pspawn (denote t); pinvoke (k e)
  | FnPost dst f k => r ← try (p_post dst f); pinvoke (k (caught r))
  | FnDispatch job =>
      s ← gets p_shared;
      modify (with_shared (with_next_worker (u64 (next_worker_ s + 1)) s));;
      match workers s with
      | O => stuck_with DivisionByZero
      | _ => let idx := Z.to_nat (next_worker_ s mod Z.of_nat (workers s)) in p_post (S idx) (job idx)
      end
  end.

(** *** The inbox *)

(** One item: again later after SQFull, dropped after another error of the
    library, anything else escapes. *)
Definition pitem (f : callable U) : A unit :=
  r ← try (pinvoke f);
  match r with
  | inl _ => mret tt
  | inr (IOException status) =>
      if decide (status = SQFull) then id ← gets p_id; try (p_post id f);; mret tt else mret tt
  | inr e => throw e
  end.

Fixpoint pitems (l : list (callable U)) : A unit :=
  match l with [] => mret tt | f :: l => pitem f;; pitems l end.

Definition pinbox : A unit :=
  id ← gets p_id;
  box ← demand UseAfterFree (fun Q => boxes (p_shared Q) !! id);
  modify (fun Q => with_shared (with_boxes (<[id := mkBox [] (efd_counter box)]> (boxes (p_shared Q))) (p_shared Q)) Q);;
  pitems (inbox_ box).

(** *** A turn of the loop *)

(** A completion: the announcement of work, the result of an operation, or
    the end of a deadline. *)
Definition pcomplete (c : io_uring_cqe) : A unit :=
  match cqe_user_data c with
  | AddrEventfdBuf => modify (fun Q => with_flags false (p_down Q) Q);; pinbox
  | AddrAwaitable a =>
      k ← demand UseAfterFree (fun Q => p_waiting Q !! a);
      modify (fun Q => with_waiting (delete a (p_waiting Q)) (p_next Q) Q);;
      ended ← prun (k (res c));
      p_finish ended
  | Num 0 => mret tt
  | _ => stuck_with UseAfterFree
  end.

(** All ready completions, in order. *)
Fixpoint pdeliver (l : list io_uring_cqe) : A unit :=
  match l with
  | [] => mret tt
  | c :: l =>
      pcomplete c;;
      modify (fun Q => with_queues (p_staged Q) (p_flight Q) l Q);;
      pdeliver l
  end.

Definition parm Q : pool U :=
  if p_armed Q then Q
  else with_flags true (p_down Q)
         (with_queues (p_staged Q ++ [efd_entry (p_eventfd Q)]) (p_flight Q) (p_ready Q) Q).

(** The kernel takes up to [n] staged entries and answers some of those it
    holds; the eventfd is at zero after a read of it. *)
Definition pkernel (n : Z) Q Q' : Prop :=
  exists box m done flight' c',
    boxes (p_shared Q) !! p_id Q = Some box /\ Z.of_nat m <= n /\ (m <= length (p_staged Q))%nat /\
    (user_data <$> p_flight Q) ++ (user_data <$> take m (p_staged Q)) ≡ₚ
      (cqe_user_data <$> done) ++ (user_data <$> flight') /\
    ((efd_reads done = 0%nat /\ c' = efd_counter box) \/
     (efd_reads done = 1%nat /\ c' = 0)) /\
    Q' = with_shared (with_boxes (<[p_id Q := mkBox (inbox_ box) c']> (boxes (p_shared Q))) (p_shared Q))
           (with_queues (drop m (p_staged Q)) flight' (p_ready Q ++ done) Q).

Definition preap Q : pool U := with_done 0 Q.

(** Arm, submit everything, handle what is ready, reap. *)
Definition pturn Q Q' : Prop :=
  exists Q1 Q2, pkernel (Z.of_nat (length (p_staged (parm Q)))) (parm Q) Q1 /\
    pdeliver (p_ready Q1) Q1 = (Normal tt, Q2) /\ Q' = preap Q2.
End Pools.
