(* ===== verification/Chains.v ===== *)
(** * Chains: the process a suspended frame stands for

    A frame that waits for an operation, together with the frames that await
    it, one inside the other, is one process: the rest of the innermost body,
    then the rest of the body that awaited it, and so on to the task.  This
    file reads that process off the frames and shows which changes of the
    frames leave it alone. *)
From stdpp Require Import prelude list gmap.
From Stdlib Require Import ZArith Lia.
From S2P Require Import Prelude ErrorCodes Ring Operations Awaitable Task Machine Kernel Scheduler Heap Safety EventLoop Follows Wakeup Process.

Section Chains.
Context {U : Type}.
Implicit Types (F : gmap nat (frame U)).

(** Nobody awaits frame [h]; frame [p] awaits [h] and goes on with [k]. *)
Definition top F (h : nat) : Prop :=
  exists f, F !! h = Some f /\ continuation (promise f) = None.
Definition link F (h p : nat) (k : Z + exn -> coro U) : Prop :=
  continues F h p /\ exists fp, F !! p = Some fp /\ susp fp = AtTask h k.

(** What is left of the process once [h] has its result. *)
Inductive rest_of F : nat -> (Z + exn -> proc U) -> Prop :=
| rest_top h : top F h -> rest_of F h PDone
| rest_link h p k c : link F h p k -> rest_of F p c -> rest_of F h (fun r => inline (k r) c).

(** Frame [h] waits for operation [a] and continues as [K]. *)
Definition waiting_at F (h a : nat) (K : Z -> proc U) : Prop :=
  exists f k c, F !! h = Some f /\ susp f = AtOp a k /\ rest_of F h c /\ K = (fun z => inline (k z) c).
Definition waiting F (a : nat) (K : Z -> proc U) : Prop := exists h, waiting_at F h a K.

Lemma rest_of_unique F h c : rest_of F h c -> forall c', rest_of F h c' -> c = c'.
Proof.
  induction 1 as [h (f & Hf & Hc)|h p k c [(f & Hf & Hc) (fp & Hfp & Hs)] _ IH]; intros c' H'.
  - inversion H' as [|? p k c0 [(g & Hg & E) _] _]; [done|]. congruence.
  - inversion H' as [? (g & Hg & E)|? p' k' c0 [(g & Hg & E) (gp & Hgp & E')] Hr]; [congruence|].
    subst. assert (p' = p) as -> by congruence. assert (gp = fp) as -> by congruence.
    rewrite Hs in E'. injection E' as ->. by rewrite (IH _ Hr).
Qed.

(** [off D F F']: the frames differ only in [D], and a frame outside [D] is
    not awaited by one in [D]. *)
Definition off (D : nat -> Prop) F F' : Prop :=
  (forall x, ~ D x -> F' !! x = F !! x) /\ (forall x p, continues F x p -> D p -> D x).

Lemma off_sym (D : nat -> Prop) F F' :
  (forall x, D x \/ ~ D x) -> off D F F' -> off D F' F.
Proof.
  intros Hdec [Heq Hcl]. split; [intros x Hx; symmetry; by apply Heq|].
  intros x p (f & Hf & Hc) Hp. destruct (Hdec x) as [|Hx]; [done|].
  rewrite Heq in Hf by done. apply (Hcl x p); [by exists f|done].
Qed.

Lemma rest_off (D : nat -> Prop) F F' h c : off D F F' -> ~ D h -> rest_of F h c -> rest_of F' h c.
Proof.
  intros [Heq Hcl] Hh Hr. induction Hr as [h (f & Hf & Hc)|h p k c [Hc (fp & Hfp & Hs)] _ IH].
  - apply rest_top. exists f. by rewrite Heq.
  - assert (Hp : ~ D p) by (intros Hp; by apply Hh, (Hcl h p)).
    apply (rest_link F' h p k c); [|by apply IH]. split; [|exists fp; by rewrite Heq].
    destruct Hc as (f & Hf & Hc). exists f. by rewrite Heq.
Qed.

(** The chain above a frame that changes. *)
Lemma rest_head (D : nat -> Prop) F F' h c f f' :
  off D F F' -> F !! h = Some f -> F' !! h = Some f' ->
  continuation (promise f') = continuation (promise f) ->
  (forall p, continues F h p -> ~ D p) -> rest_of F h c -> rest_of F' h c.
Proof.
  intros Hoff Hf Hf' Hc Hp Hr. inversion Hr as [? (g & Hg & E)|? p k c0 [Hcont (fp & Hfp & Hs)] Hrp]; subst.
  - apply rest_top. exists f'. split; [done|]. congruence.
  - pose proof (Hp p Hcont) as Hnp. apply (rest_link F' h p k c0); [|by eapply rest_off].
    split; [|exists fp; by rewrite (proj1 Hoff)]. destruct Hcont as (g & Hg & E). exists f'.
    split; [done|]. congruence.
Qed.

Lemma waiting_at_off (D : nat -> Prop) F F' h a K :
  off D F F' -> ~ D h -> waiting_at F h a K -> waiting_at F' h a K.
Proof.
  intros Hoff Hh (f & k & c & Hf & Hs & Hr & ->). exists f, k, c.
  split_and!; [by rewrite (proj1 Hoff)|done|by eapply rest_off|done].
Qed.

(** Frames in [D] that wait for no operation do not matter. *)
Lemma waiting_off (D : nat -> Prop) F F' a K :
  (forall x, D x \/ ~ D x) -> off D F F' ->
  (forall h b, D h -> ~ waits_op F h b /\ ~ waits_op F' h b) -> waiting F a K <-> waiting F' a K.
Proof.
  intros Hdec Hoff Hno. split; intros [h Hw]; exists h.
  all: assert (Hh : ~ D h) by (intros Hd; destruct Hw as (f & k & c & Hf & Hs & _);
    destruct (Hno h a Hd) as [H1 H2]; first [by apply H1; exists f, k|by apply H2; exists f, k]).
  - by eapply waiting_at_off.
  - eapply waiting_at_off; [by apply off_sym|done|done].
Qed.

(** ** The changes the machine makes *)

Section Transitions.
Context (out : list word64) (F : gmap nat (frame U)) (nf : nat) (A : gmap nat Awaitable) (na : nat) (ts : list nat).
Hypothesis Hk : heap_ok out F nf A na ts.

(** A frame that awaits no task has no frame below it. *)
Lemma no_child h f x : F !! h = Some f -> no_task (susp f) -> ~ continues F x h.
Proof using Hk.
  intros Hf Hn Hc. apply (hk_chain _ _ _ _ _ _ Hk) in Hc as (g & k & Hg & Hs). simplify_eq. by rewrite Hs in Hn.
Qed.

Lemma off_insert h f f' : F !! h = Some f -> no_task (susp f) -> off (eq h) F (<[h := f']> F).
Proof using Hk.
  intros Hf Hn. split; [intros x Hx; by apply lookup_insert_ne|].
  intros x p Hc <-. by apply (no_child h f x) in Hc.
Qed.

Lemma dec_eq h : forall x : nat, h = x \/ ~ h = x.
Proof. intros x. destruct (decide (h = x)); auto. Qed.

(** A frame below is younger, so it is not its own parent. *)
Lemma parent_ne h p : continues F h p -> h <> p.
Proof using Hk. intros Hc%(hk_order _ _ _ _ _ _ Hk). lia. Qed.

(** Rewriting a frame that waits for nothing. *)
Lemma waiting_quiet h f f' a K :
  F !! h = Some f -> quiet (susp f) -> quiet (susp f') -> waiting F a K <-> waiting (<[h := f']> F) a K.
Proof using Hk.
  intros Hf Hq Hq'. apply (waiting_off (eq h)); [apply dec_eq|by eapply off_insert, quiet_no_task|].
  intros x b <-. split; intros (g & k & Hg & Hs).
  - simplify_eq. by rewrite Hs in Hq.
  - rewrite lookup_insert_eq in Hg. simplify_eq. by rewrite Hs in Hq'.
Qed.

Lemma rest_insert h f f' c :
  F !! h = Some f -> no_task (susp f) -> continuation (promise f') = continuation (promise f) ->
  rest_of F h c -> rest_of (<[h := f']> F) h c.
Proof using Hk.
  intros Hf Hn Hc. eapply rest_head; [by eapply off_insert|exact Hf|by apply lookup_insert_eq|done|].
  intros p Hp. by apply parent_ne.
Qed.

(** A running frame suspends on the fresh operation [na]. *)
Lemma waiting_suspend h f k c a K :
  F !! h = Some f -> quiet (susp f) -> rest_of F h c ->
  waiting (<[h := set_susp (AtOp na k) f]> F) a K <->
    (a = na /\ K = fun z => inline (k z) c) \/ (a <> na /\ waiting F a K).
Proof using Hk.
  intros Hf Hq Hr. set (F' := <[h := _]> F).
  assert (Hoff : off (eq h) F F') by (by eapply off_insert, quiet_no_task).
  assert (Hr' : rest_of F' h c) by (by eapply rest_insert; eauto using quiet_no_task).
  assert (Hold : forall j b K', waiting_at F j b K' -> j <> h /\ b <> na).
  { intros j b K' (g & k' & c' & Hg & Hs & _). split.
    - intros ->. simplify_eq. by rewrite Hs in Hq.
    - intros ->. destruct (hk_handle _ _ _ _ _ _ Hk j na) as (x & Hx & _); [by exists g, k'|].
      by rewrite (heap_fresh_awt _ _ _ _ _ _ Hk) in Hx. }
  split.
  - intros [j Hw]. destruct (decide (h = j)) as [<-|Hne].
    + left. destruct Hw as (g & k' & c' & Hg & Hs & Hrc & ->). unfold F' in Hg. rewrite lookup_insert_eq in Hg.
      injection Hg as <-. cbn in Hs. injection Hs as <- <-. by rewrite (rest_of_unique _ _ _ Hr' _ Hrc).
    + right. assert (Hw' : waiting_at F j a K) by (eapply waiting_at_off; [eapply off_sym; [apply dec_eq|exact Hoff]|done|done]).
      split; [by eapply Hold|by exists j].
  - intros [[-> ->]|[_ [j Hw]]].
    + exists h, (set_susp (AtOp na k) f), k, c. unfold F'. by rewrite lookup_insert_eq.
    + exists j. destruct (Hold j a K Hw) as [Hne _]. eapply waiting_at_off; [exact Hoff|congruence|done].
Qed.

(** The operation [a] of frame [h] completes. *)
Lemma waiting_resume h f k b K a :
  F !! h = Some f -> susp f = AtOp a k ->
  waiting (<[h := set_susp Running f]> F) b K <-> b <> a /\ waiting F b K.
Proof using Hk.
  intros Hf Hs. set (F' := <[h := _]> F).
  assert (Hoff : off (eq h) F F') by (eapply off_insert; [exact Hf|by rewrite Hs]).
  assert (Hu : forall j b K', waiting_at F j b K' -> j = h <-> b = a).
  { intros j b' K' (g & k' & c' & Hg & Hs' & _). split.
    - intros ->. congruence.
    - intros ->. destruct (hk_handle _ _ _ _ _ _ Hk j a) as (x & Hx & E); [by exists g, k'|].
      destruct (hk_handle _ _ _ _ _ _ Hk h a) as (y & Hy & E'); [by exists f, k|]. congruence. }
  split.
  - intros [j Hw]. destruct (decide (h = j)) as [<-|Hne].
    + destruct Hw as (g & k' & c' & Hg & Hs' & _). unfold F' in Hg. rewrite lookup_insert_eq in Hg. by simplify_eq.
    + assert (Hw' : waiting_at F j b K) by (eapply waiting_at_off; [eapply off_sym; [apply dec_eq|exact Hoff]|done|done]).
      split; [|by exists j]. intros E. apply Hne. symmetry. by apply (Hu j b K).
  - intros [Hne [j Hw]]. exists j. eapply waiting_at_off; [exact Hoff| |done].
    intros <-. apply Hne. by apply (Hu h b K).
Qed.

(** A new frame. *)
Lemma waiting_new f a K : quiet (susp f) -> waiting F a K <-> waiting (<[nf := f]> F) a K.
Proof using Hk.
  intros Hq. pose proof (heap_fresh_frame _ _ _ _ _ _ Hk) as Hnone.
  apply (waiting_off (eq nf)); [apply dec_eq| |].
  - split; [intros x Hx; by apply lookup_insert_ne|].
    intros x p Hc <-. apply (hk_chain _ _ _ _ _ _ Hk) in Hc as (g & k & Hg & _). congruence.
  - intros x b <-. split; intros (g & k & Hg & Hs); [congruence|].
    rewrite lookup_insert_eq in Hg. simplify_eq. by rewrite Hs in Hq.
Qed.

(** A running frame [h] awaits a new one. *)
Definition entered h f k : gmap nat (frame U) :=
  <[nf := mkFrame (mkPromise None None (Some h)) Running]> (<[h := set_susp (AtTask nf k) f]> F).

Lemma off_enter h f k : F !! h = Some f -> quiet (susp f) -> off (fun x => x = h \/ x = nf) F (entered h f k).
Proof using Hk.
  intros Hf Hq. pose proof (heap_fresh_frame _ _ _ _ _ _ Hk) as Hnone. split.
  - intros x Hx. unfold entered. by rewrite !lookup_insert_ne by naive_solver.
  - intros x p Hc [-> | ->]; [by apply (no_child h f x Hf (quiet_no_task _ Hq)) in Hc|].
    apply (hk_chain _ _ _ _ _ _ Hk) in Hc as (g & k' & Hg & _). congruence.
Qed.

Lemma waiting_enter h f k a K :
  F !! h = Some f -> quiet (susp f) -> waiting F a K <-> waiting (entered h f k) a K.
Proof using Hk.
  intros Hf Hq. pose proof (heap_fresh_frame _ _ _ _ _ _ Hk) as Hnone.
  assert (Hne : h <> nf) by congruence.
  apply (waiting_off (fun x => x = h \/ x = nf)); [|by apply off_enter|].
  - intros x. destruct (decide (x = h)), (decide (x = nf)); tauto.
  - intros x b [-> | ->]; split; intros (g & k' & Hg & Hs); unfold entered in *.
    + simplify_eq. by rewrite Hs in Hq.
    + rewrite lookup_insert_ne, lookup_insert_eq in Hg by done. by simplify_eq.
    + congruence.
    + rewrite lookup_insert_eq in Hg. by simplify_eq.
Qed.

Lemma rest_enter h f k c :
  F !! h = Some f -> quiet (susp f) -> rest_of F h c ->
  rest_of (entered h f k) h c /\ rest_of (entered h f k) nf (fun r => inline (k r) c).
Proof using Hk.
  intros Hf Hq Hr. pose proof (heap_fresh_frame _ _ _ _ _ _ Hk) as Hnone.
  assert (Hne : h <> nf) by congruence.
  assert (Hh : entered h f k !! h = Some (set_susp (AtTask nf k) f))
    by (unfold entered; by rewrite lookup_insert_ne, lookup_insert_eq).
  assert (Hr' : rest_of (entered h f k) h c).
  { eapply rest_head; [by apply off_enter|exact Hf|exact Hh|done| |exact Hr].
    intros p Hp [-> | ->]; [by apply parent_ne in Hp|].
    apply (hk_chain _ _ _ _ _ _ Hk) in Hp as (g & k' & Hg & _). congruence. }
  split; [done|]. apply (rest_link _ nf h k c); [|done].
  split; [|by exists (set_susp (AtTask nf k) f)]. eexists. unfold entered. by rewrite lookup_insert_eq.
Qed.

(** Frame [h] awaited [c], which has finished. *)
Definition left_ h f c : gmap nat (frame U) := <[h := set_susp Running f]> (delete c F).

Lemma off_leave h f c fc k :
  F !! h = Some f -> susp f = AtTask c k -> F !! c = Some fc -> quiet (susp fc) ->
  off (fun x => x = h \/ x = c) F (left_ h f c).
Proof using Hk.
  intros Hf Hs Hfc Hq. split.
  - intros x Hx. unfold left_. by rewrite lookup_insert_ne, lookup_delete_ne by naive_solver.
  - intros x p Hc [-> | ->]; [|by apply (no_child c fc x Hfc (quiet_no_task _ Hq)) in Hc].
    right. apply (hk_chain _ _ _ _ _ _ Hk) in Hc as (g & k' & Hg & Hs'). congruence.
Qed.

Lemma waiting_leave h f c fc k a K :
  F !! h = Some f -> susp f = AtTask c k -> F !! c = Some fc -> quiet (susp fc) ->
  waiting F a K <-> waiting (left_ h f c) a K.
Proof using Hk.
  intros Hf Hs Hfc Hq.
  apply (waiting_off (fun x => x = h \/ x = c)); [|by eapply off_leave|].
  - intros x. destruct (decide (x = h)), (decide (x = c)); tauto.
  - intros x b [-> | ->]; split; intros (g & k' & Hg & Hs'); unfold left_ in *.
    + congruence.
    + rewrite lookup_insert_eq in Hg. by simplify_eq.
    + simplify_eq. by rewrite Hs' in Hq.
    + destruct (decide (c = h)) as [->|]; [rewrite lookup_insert_eq in Hg; by simplify_eq|].
      rewrite lookup_insert_ne, lookup_delete_eq in Hg by done. done.
Qed.

Lemma rest_leave h f c fc k r :
  F !! h = Some f -> susp f = AtTask c k -> F !! c = Some fc -> quiet (susp fc) ->
  rest_of F h r -> rest_of (left_ h f c) h r.
Proof using Hk.
  intros Hf Hs Hfc Hq.
  assert (Hch : continues F c h) by (apply (hk_chain _ _ _ _ _ _ Hk); by exists f, k).
  apply (rest_head (fun x => x = h \/ x = c) F (left_ h f c) h r f (set_susp Running f));
    [exact (off_leave h f c fc k Hf Hs Hfc Hq)|exact Hf|by apply lookup_insert_eq|done|].
  intros p Hp E2; pose proof (parent_ne _ _ Hp) as Hn; destruct E2 as [E2|E2]; [congruence|]; subst p.
  apply (hk_order _ _ _ _ _ _ Hk) in Hp, Hch. lia.
Qed.

(** Frame [p] awaits [h]: the rest after [h] starts in [p]. *)
Lemma rest_parent h f p r :
  F !! h = Some f -> continuation (promise f) = Some p -> rest_of F h r ->
  exists fp k c, F !! p = Some fp /\ susp fp = AtTask h k /\ r = (fun x => inline (k x) c) /\ rest_of F p c.
Proof using Hk.
  intros Hf Hc Hr. inversion Hr as [? (g & Hg & E)|? p' k c [(g & Hg & E) (fp & Hfp & E')] Hrp]; subst.
  - congruence.
  - assert (p' = p) as -> by congruence. by exists fp, k, c.
Qed.

(** Code running in [h] leaves the chains of the older frames alone. *)
Lemma rest_older F' h f j c :
  F !! h = Some f -> quiet (susp f) -> (forall x, (x < nf)%nat -> x <> h -> F' !! x = F !! x) ->
  j <> h -> (j < nf)%nat -> rest_of F j c -> rest_of F' j c.
Proof using Hk.
  intros Hf Hq Hsame Hj Hlt. apply (rest_off (fun x => x = h \/ (nf <= x)%nat)); [|lia]. split.
  - intros x Hx. apply Hsame; lia.
  - intros x p Hc [-> |Hp]; [by apply (no_child h f x Hf (quiet_no_task _ Hq)) in Hc|].
    apply (hk_chain _ _ _ _ _ _ Hk) in Hc as (g & k & Hg & _). apply mk_is_Some in Hg.
    apply (hk_frame_old _ _ _ _ _ _ Hk) in Hg. lia.
Qed.
End Transitions.

(** Every frame belongs to a chain that ends in a task nobody awaits. *)
Lemma rest_exists out F nf A na ts :
  heap_ok out F nf A na ts -> forall h, is_Some (F !! h) -> exists c, rest_of F h c.
Proof.
  intros Hk h. induction (lt_wf h) as [h _ IH]. intros [f Hf].
  destruct (continuation (promise f)) as [p|] eqn:E; [|exists PDone; apply rest_top; by exists f].
  assert (Hc : continues F h p) by (by exists f).
  pose proof (proj2 (hk_chain _ _ _ _ _ _ Hk p h) Hc) as (fp & k & Hfp & Hs).
  destruct (IH p) as [c Hr]; [by apply (hk_order _ _ _ _ _ _ Hk)|by eexists|].
  eexists. apply (rest_link F h p k c); [|done]. split; [done|by exists fp].
Qed.
End Chains.
