(* ===== verification/Refine.v ===== *)
(** * Refine: the scheduler implements its specification

    A simulation between the code's state (frames, handles, awaitables, rings,
    thread-local flag) and the pools of Process.  [sim] relates the two; the
    lemmas follow user code through [run], [transfer], [spawn] and the
    callables. *)
From stdpp Require Import prelude list gmap.
From Stdlib Require Import ZArith Lia.
From S2P Require Import Prelude ErrorCodes Ring Operations Awaitable Task Machine Kernel Scheduler Heap Safety EventLoop Follows Wakeup Process Chains.

Section Refine.
Context {U K : Type} `{HK : Kernel K}.
#[local] Abbreviation M := (exec (world U K) exn).
#[local] Abbreviation W := (world U K).
Context (known : nat -> Prop) (nw : nat) (timed : bool).
#[local] Abbreviation good := (good (U:=U) known nw timed).
#[local] Abbreviation good_fn := (good_fn (U:=U) known nw timed).
#[local] Abbreviation ok := (ok (U:=U) (K:=K) known nw timed).
#[local] Abbreviation shared_ok := (shared_ok (U:=U) known nw timed).
#[local] Abbreviation flag_ok := (flag_ok (U:=U) (K:=K) timed).
#[local] Abbreviation run_post := (run_post (U:=U) (K:=K) known nw timed).
Implicit Types (X Y : gset nat) (w : W) (Q : pool U) (s : sched U).

(** ** The relation *)

(** Everything but the frames is the same data. *)
Record same_fields w Q : Prop := {
  sf_id : p_id Q = s_id (me w);
  sf_eventfd : p_eventfd Q = eventfd_ (me w);
  sf_entries : p_entries Q = sq_entries (sq (s_io (me w)));
  sf_armed : p_armed Q = eventfd_armed_ (me w);
  sf_down : p_down Q = shutting_down_ (me w);
  sf_staged : p_staged Q = sq_pending (sq (s_io (me w)));
  sf_flight : p_flight Q = k_inflight (kern w);
  sf_ready : p_ready Q = cq_ready (cq (s_io (me w)));
  sf_next : p_next Q = next_awt (me w);
  sf_shared : p_shared Q = sh w
}.

(** A frame nobody is running: it waits, or it has finished and nobody awaits
    it. *)
Definition at_rest (f : frame U) : Prop :=
  ~ quiet (susp f) \/ (susp f = AtFinal /\ continuation (promise f) = None).

(** Finished tasks, not counting the frames in [X]. *)
Definition done_tasks X s : list nat :=
  filter (fun h => is_done (frames s) h = true /\ h ∉ X) (tasks_ s).

(** The frames stand for the processes [Wt], with [d] finished tasks.  [X] are
    the frames control is in, [Y] those that are not in [tasks_] yet. *)
Record same_procs X Y s (Wt : gmap nat (Z -> proc U)) (d : nat) : Prop := {
  sp_waiting : forall a k, Wt !! a = Some k <-> waiting (frames s) a k;
  sp_awts : forall a, is_Some (awts s !! a) -> exists h, waits_op (frames s) h a;
  sp_rest : forall h f, frames s !! h = Some f -> h ∉ X -> at_rest f;
  sp_owned : forall h f, frames s !! h = Some f -> continuation (promise f) = None -> h ∉ Y -> h ∈ tasks_ s;
  sp_unset : forall h f, frames s !! h = Some f -> susp f <> AtFinal ->
    value (promise f) = None /\ exception (promise f) = None;
  sp_old : forall h, h ∈ X -> (h < next_frame s)%nat;
  sp_done : d = length (done_tasks X s)
}.

Definition sim X Y w Q : Prop := same_fields w Q /\ same_procs X Y (me w) (p_waiting Q) (p_done Q).

(** ** Changing frames *)

Lemma length_filter_iff {A} (P P' : A -> Prop) `{!forall x, Decision (P x), !forall x, Decision (P' x)} l :
  (forall x, x ∈ l -> P x <-> P' x) -> length (filter P l) = length (filter P' l).
Proof.
  induction l as [|x l IH]; intros Hiff; [done|]. rewrite !filter_cons.
  assert (IH' : length (filter P l) = length (filter P' l))
    by (apply IH; intros y Hy; apply Hiff; by apply elem_of_cons; right).
  pose proof (Hiff x ltac:(by apply elem_of_cons; left)).
  repeat case_decide; cbn [length]; rewrite ?IH'; tauto.
Qed.

(** The general case: the frames in [D] change or go. *)
Lemma procs_change (D : nat -> Prop) X X' Y s s' Wt Wt' d :
  same_procs X Y s Wt d -> tasks_ s' = tasks_ s -> (forall x, D x \/ ~ D x) -> X ⊆ X' ->
  (forall x, ~ D x -> frames s' !! x = frames s !! x) ->
  (forall x, D x -> x ∈ X' \/ frames s' !! x = None) ->
  (forall x, x ∈ tasks_ s -> D x \/ x ∈ X' -> x ∈ X \/ is_done (frames s) x = false) ->
  (forall x f', D x -> frames s' !! x = Some f' ->
     (continuation (promise f') = None -> x ∉ Y -> x ∈ tasks_ s) /\
     (susp f' <> AtFinal -> value (promise f') = None /\ exception (promise f') = None)) ->
  (forall a k, Wt' !! a = Some k <-> waiting (frames s') a k) ->
  (forall a, is_Some (awts s' !! a) -> exists h, waits_op (frames s') h a) ->
  (forall x, x ∈ X' -> (x < next_frame s')%nat) ->
  same_procs X' Y s' Wt' d.
Proof.
  intros [Hw Ha Hr Ho Hu Hl Hd] Hts Hdec Hsub Hsame HD Hdone Hnew HW HA Hold. split; try done.
  - intros x f Hf Hx. destruct (Hdec x) as [Hdx|Hnd].
    + destruct (HD x Hdx); [done|congruence].
    + rewrite Hsame in Hf by done. apply (Hr x f Hf). set_solver.
  - intros x f Hf Hc Hy. rewrite Hts. destruct (Hdec x) as [Hdx|Hnd]; [by eapply Hnew|].
    rewrite Hsame in Hf by done. by apply (Ho x f).
  - intros x f Hf Hs. destruct (Hdec x) as [Hdx|Hnd]; [by eapply Hnew|].
    rewrite Hsame in Hf by done. by apply (Hu x f).
  - rewrite Hd. unfold done_tasks. rewrite Hts. apply length_filter_iff. intros x Hx.
    specialize (Hdone x Hx). destruct (Hdec x) as [Hdx|Hnd].
    + assert (is_done (frames s') x = true -> x ∈ X').
      { unfold is_done. destruct (HD x Hdx) as [?| ->]; done. }
      destruct Hdone as [?|E]; [by left|tauto|]. rewrite E. split; [by intros []|tauto].
    + unfold is_done in *. rewrite Hsame by done. destruct (decide (x ∈ X')) as [Hin|Hnin].
      * destruct Hdone as [?|E]; [by right|set_solver|]. rewrite E. by split; intros [].
      * assert (x ∉ X) by set_solver. tauto.
Qed.

(** Control leaves a frame that is at rest and not a finished task. *)
Lemma procs_pop X Y s Wt d h :
  same_procs ({[h]} ∪ X) Y s Wt d -> (forall f, frames s !! h = Some f -> at_rest f) ->
  ~ (is_done (frames s) h = true /\ h ∈ tasks_ s) -> same_procs X Y s Wt d.
Proof.
  intros [Hw Ha Hr Ho Hu Hl Hd] Hrest Hn. split; try done.
  - intros x f Hf Hx. destruct (decide (x = h)) as [->|]; [by apply Hrest|]. apply (Hr x f Hf). set_solver.
  - intros x Hx. apply Hl. set_solver.
  - rewrite Hd. apply length_filter_iff. intros x Hx. destruct (decide (x = h)) as [->|]; set_solver.
Qed.

(** Control leaves a finished task. *)
Lemma procs_pop_done X Y s Wt d h f :
  same_procs ({[h]} ∪ X) Y s Wt d -> frames s !! h = Some f -> susp f = AtFinal ->
  continuation (promise f) = None -> h ∈ tasks_ s -> NoDup (tasks_ s) -> h ∉ X ->
  same_procs X Y s Wt (S d).
Proof.
  intros [Hw Ha Hr Ho Hu Hl Hd] Hf Hs Hc Hin Hnd Hx. split; try done.
  - intros x g Hg Hxx. destruct (decide (x = h)) as [->|]; [right; by simplify_eq|]. apply (Hr x g Hg). set_solver.
  - intros x Hxx. apply Hl. set_solver.
  - rewrite Hd. unfold done_tasks. apply list_elem_of_split in Hin as (l1 & l2 & El). rewrite El in Hnd |- *.
    apply NoDup_app in Hnd as (_ & Hn1 & Hn2). apply NoDup_cons in Hn2 as [Hn2 _].
    assert (Hd' : is_done (frames s) h = true) by (unfold is_done, handle_done; by rewrite Hf, Hs).
    rewrite !filter_app, !length_app, !filter_cons.
    rewrite decide_False by set_solver. rewrite decide_True by done. cbn [length].
    rewrite (length_filter_iff _ (fun x => is_done (frames s) x = true /\ x ∉ X) l1).
    2: { intros x Hxl. assert (x <> h) by (intros ->; apply (Hn1 h Hxl); by apply elem_of_cons; left). set_solver. }
    rewrite (length_filter_iff _ (fun x => is_done (frames s) x = true /\ x ∉ X) l2).
    2: { intros x Hxl. assert (x <> h) by (by intros ->). set_solver. }
    lia.
Qed.

Lemma procs_ext X Y s s' Wt d :
  same_procs X Y s Wt d -> frames s' = frames s -> awts s' = awts s -> tasks_ s' = tasks_ s ->
  (next_frame s <= next_frame s')%nat -> same_procs X Y s' Wt d.
Proof.
  intros [] E1 E2 E3 E4. split; rewrite ?E1, ?E2, ?E3; try done.
  - intros x Hx%sp_old0. lia.
  - unfold done_tasks. by rewrite E1, E3.
Qed.

(** A new task enters [tasks_]. *)
Lemma procs_adopt X Y s Wt d h f :
  same_procs ({[h]} ∪ X) ({[h]} ∪ Y) s Wt d -> frames s !! h = Some f -> at_rest f ->
  continuation (promise f) = None -> h ∉ tasks_ s -> h ∉ X -> NoDup (tasks_ s) ->
  same_procs X Y (set_tasks (tasks_ s ++ [h]) s) Wt (if handle_done f then S d else d).
Proof.
  intros Hp Hf Hrest Hc Hnin Hx Hnd.
  assert (H1 : same_procs ({[h]} ∪ X) Y (set_tasks (tasks_ s ++ [h]) s) Wt d).
  { destruct Hp as [Hw Ha Hr Ho Hu Hl Hd]. split; try done.
    - intros x g Hg Hxc Hy. cbn. apply elem_of_app. destruct (decide (x = h)) as [->|]; [right; set_solver|].
      left. apply (Ho x g Hg Hxc). set_solver.
    - rewrite Hd. unfold done_tasks. cbn. rewrite filter_app, length_app, filter_cons, filter_nil.
      rewrite decide_False by set_solver. cbn. lia. }
  unfold handle_done. destruct Hrest as [Hq|[Hs _]].
  - apply (procs_pop X Y _ Wt d h) in H1; [by destruct (susp f)| |].
    + cbn. intros g Hg. simplify_eq. by left.
    + cbn. unfold is_done, handle_done. rewrite Hf. destruct (susp f); cbn in Hq; by (tauto || naive_solver).
  - rewrite Hs. apply (procs_pop_done X Y _ Wt d h f) in H1; try done; cbn.
    + apply elem_of_app. right. set_solver.
    + apply NoDup_app. split_and!; [done|set_solver|apply NoDup_singleton].
Qed.
(** ** Transitions of the whole relation *)

Lemma heap_of base w : ok base w ->
  heap_ok (outstanding base (me w)) (frames (me w)) (next_frame (me w)) (awts (me w)) (next_awt (me w)) (tasks_ (me w)).
Proof. intros [Hs _]. apply Hs. Qed.

(** Only the shared state changes. *)
Lemma sim_shared X Y w Q (s1 : shared U) : sim X Y w Q -> sim X Y (mkWorld (me w) s1 (kern w)) (with_shared s1 Q).
Proof. intros [[] Hp]. by split. Qed.

(** A frame control is in changes without waiting for anything. *)
Lemma sim_quiet base X Y w Q h f f' :
  ok base w -> sim X Y w Q -> frames (me w) !! h = Some f -> quiet (susp f) -> quiet (susp f') -> h ∈ X ->
  continuation (promise f') = continuation (promise f) ->
  (susp f' <> AtFinal -> value (promise f') = None /\ exception (promise f') = None) ->
  sim X Y (with_frames (<[h := f']> (frames (me w))) w) Q.
Proof.
  intros Hok [Hf Hp] Hh Hq Hq' Hx Hc Hu. pose proof (heap_of _ _ Hok) as Hk. split; [by destruct Hf|].
  eapply (procs_change (eq h) X X Y (me w)); try exact Hp; try done; cbn.
  - apply dec_eq.
  - intros x Hne. by apply lookup_insert_ne.
  - intros x <-. by left.
  - intros x _ [<-|?]; by left.
  - intros x g <- Hg. rewrite lookup_insert_eq in Hg. injection Hg as <-. split; [|done].
    rewrite Hc. intros Hn. by apply (sp_owned _ _ _ _ _ Hp h f).
  - intros a k. rewrite (sp_waiting _ _ _ _ _ Hp). by eapply waiting_quiet.
  - intros a [j Hj]%(sp_awts _ _ _ _ _ Hp). exists j. rewrite waits_op_insert. right. split; [|done].
    intros ->. destruct Hj as (g & k & Hg & Hs). simplify_eq. by rewrite Hs in Hq.
  - apply (sp_old _ _ _ _ _ Hp).
Qed.

Lemma length_staged a x : Z.of_nat (length (staged a x)) = slots_needed x.
Proof. unfold staged, slots_needed. by destruct (has_value (timeout_ts_ x)). Qed.

(** A frame control is in starts an operation. *)
Lemma sim_suspend base X Y w Q h f k c x q :
  ok base w -> sim X Y w Q -> frames (me w) !! h = Some f -> susp f = Running -> h ∈ X ->
  rest_of (frames (me w)) h c -> sq_entries q = sq_entries (sq (s_io (me w))) ->
  let a := next_awt (me w) in
  sq_pending q = sq_pending (sq (s_io (me w))) ++ staged a x ->
  sim X Y
    (upd (fun s => set_awts (<[a := set_handle h x]> (awts s))
            (set_next_awt (S a) (set_frames (<[h := set_susp (AtOp a k) f]> (frames s))
               (set_io (with_sq (s_io s) q) s)))) w)
    (with_waiting (<[a := fun z => inline (k z) c]> (p_waiting Q)) (S a)
       (with_queues (p_staged Q ++ staged a x) (p_flight Q) (p_ready Q) Q)).
Proof.
  intros Hok [Hf Hp] Hh Hs Hx Hr Hent a Hpend. subst a. pose proof (heap_of _ _ Hok) as Hk. split.
  { destruct Hf. split; cbn; try done; [congruence|by rewrite sf_staged0, Hpend]. }
  assert (Hq : quiet (susp f)) by (by rewrite Hs).
  eapply (procs_change (eq h) X X Y (me w)); try exact Hp; try done; cbn.
  - apply dec_eq.
  - intros y Hne. by apply lookup_insert_ne.
  - intros y <-. by left.
  - intros y _ [<-|?]; by left.
  - intros y g <- Hg. rewrite lookup_insert_eq in Hg. injection Hg as <-. cbn. split.
    + intros Hn. by apply (sp_owned _ _ _ _ _ Hp h f).
    + intros _. apply (sp_unset _ _ _ _ _ Hp h f Hh). by rewrite Hs.
  - intros b K'. rewrite (waiting_suspend _ _ _ _ _ _ Hk h f k c b K' Hh Hq Hr).
    rewrite <- (sp_waiting _ _ _ _ _ Hp). rewrite lookup_insert. case_decide; naive_solver.
  - intros b Hb. rewrite is_Some_insert in Hb. destruct Hb as [->|[j Hj]%(sp_awts _ _ _ _ _ Hp)].
    + exists h. rewrite waits_op_insert. left. split; [done|]. by exists k.
    + exists j. rewrite waits_op_insert. right. split; [|done].
      intros ->. destruct Hj as (g & k' & Hg & Hs'). simplify_eq. by rewrite Hs' in Hq.
  - apply (sp_old _ _ _ _ _ Hp).
Qed.

(** A frame control is in awaits a new one. *)
Lemma sim_enter base X Y w Q h f k :
  ok base w -> sim X Y w Q -> frames (me w) !! h = Some f -> susp f = Running -> h ∈ X ->
  let h' := next_frame (me w) in
  sim ({[h']} ∪ X) Y
    (upd (fun s => set_next_frame (S h')
            (set_frames (<[h' := mkFrame (mkPromise None None (Some h)) Running]>
                           (<[h := set_susp (AtTask h' k) f]> (frames s))) s)) w) Q.
Proof.
  intros Hok [Hf Hp] Hh Hs Hx h'. pose proof (heap_of _ _ Hok) as Hk. split; [by destruct Hf|].
  assert (Hq : quiet (susp f)) by (by rewrite Hs).
  assert (Hlt : (h < h')%nat) by (apply (hk_frame_old _ _ _ _ _ _ Hk); eauto).
  eapply (procs_change (fun x => x = h \/ x = h') X _ Y (me w)); try exact Hp; try done; cbn.
  - intros x. destruct (decide (x = h)), (decide (x = h')); tauto.
  - set_solver.
  - intros x Hn. by apply (off_enter _ _ _ _ _ _ Hk h f k).
  - intros x [-> | ->]; left; set_solver.
  - intros x Hin Hor. destruct (decide (x ∈ X)) as [|Hnx]; [by left|right].
    assert (x = h') as -> by set_solver.
    destruct (hk_task_frames _ _ _ _ _ _ Hk h' Hin) as [Hsome _].
    apply (hk_frame_old _ _ _ _ _ _ Hk) in Hsome. unfold h' in Hsome. lia.
  - intros x g [-> | ->] Hg.
    + rewrite lookup_insert_ne, lookup_insert_eq in Hg by lia. injection Hg as <-. cbn. split.
      * intros Hn. by apply (sp_owned _ _ _ _ _ Hp h f).
      * intros _. apply (sp_unset _ _ _ _ _ Hp h f Hh). by rewrite Hs.
    + rewrite lookup_insert_eq in Hg. by injection Hg as <-.
  - intros a K'. rewrite (sp_waiting _ _ _ _ _ Hp). by apply (waiting_enter _ _ _ _ _ _ Hk h f k).
  - intros a [j Hj]%(sp_awts _ _ _ _ _ Hp). exists j. rewrite !waits_op_insert.
    assert (j <> h) by (intros ->; destruct Hj as (g & k' & Hg & Hs'); simplify_eq; by rewrite Hs' in Hq).
    assert (j <> h') by (intros ->; destruct Hj as (g & k' & Hg & Hs'); apply (mk_is_Some) in Hg;
      apply (hk_frame_old _ _ _ _ _ _ Hk) in Hg; unfold h' in Hg; lia).
    tauto.
  - intros x [->%elem_of_singleton|Hxx%(sp_old _ _ _ _ _ Hp)]%elem_of_union; lia.
Qed.

(** The awaited frame [c] has finished and goes; control is back in [h]. *)
Lemma sim_leave base X Y w Q h f c fc k :
  ok base w -> sim ({[c]} ∪ X) Y w Q -> frames (me w) !! h = Some f -> susp f = AtTask c k ->
  frames (me w) !! c = Some fc -> susp fc = AtFinal -> c ∉ tasks_ (me w) -> h <> c -> h ∈ X ->
  sim X Y (with_frames (<[h := set_susp Running f]> (delete c (frames (me w)))) w) Q.
Proof.
  intros Hok [Hf Hp] Hh Hs Hc Hfin Hnin Hne Hx. pose proof (heap_of _ _ Hok) as Hk. split; [by destruct Hf|].
  assert (Hq : quiet (susp fc)) by (by rewrite Hfin).
  set (s' := me (with_frames _ w)).
  assert (Hp' : same_procs ({[c]} ∪ X) Y s' (p_waiting Q) (p_done Q)).
  2: { eapply procs_pop; [exact Hp'| |].
       - intros g Hg. unfold s' in Hg. cbn in Hg.
         by rewrite lookup_insert_ne, lookup_delete_eq in Hg.
       - intros [_ Hin]. by apply Hnin. }
  eapply (procs_change (fun x => x = h \/ x = c) _ _ Y (me w)); try exact Hp; try done; cbn.
  - intros x. destruct (decide (x = h)), (decide (x = c)); tauto.
  - intros x Hn. by apply (off_leave _ _ _ _ _ _ Hk h f c fc k).
  - intros x [-> | ->]; left; set_solver.
  - intros x Hin [[-> | ->]|?]; left; set_solver.
  - intros x g [-> | ->] Hg.
    + rewrite lookup_insert_eq in Hg. injection Hg as <-. cbn. split.
      * intros Hn. by apply (sp_owned _ _ _ _ _ Hp h f).
      * intros _. apply (sp_unset _ _ _ _ _ Hp h f Hh). by rewrite Hs.
    + by rewrite lookup_insert_ne, lookup_delete_eq in Hg.
  - intros a K'. rewrite (sp_waiting _ _ _ _ _ Hp). by apply (waiting_leave _ _ _ _ _ _ Hk h f c fc k).
  - intros a [j Hj]%(sp_awts _ _ _ _ _ Hp). exists j. rewrite waits_op_insert, waits_op_delete.
    assert (j <> h) by (intros ->; destruct Hj as (g & k' & Hg & Hs'); congruence).
    assert (j <> c) by (intros ->; destruct Hj as (g & k' & Hg & Hs'); congruence). tauto.
  - apply (sp_old _ _ _ _ _ Hp).
Qed.

(** An operation completes and control comes back to its frame. *)
Lemma sim_resume base X Y w Q h f a k :
  ok base w -> sim X Y w Q -> frames (me w) !! h = Some f -> susp f = AtOp a k ->
  sim ({[h]} ∪ X) Y (resumed a h f w) (with_waiting (delete a (p_waiting Q)) (p_next Q) Q).
Proof.
  intros Hok [Hf Hp] Hh Hs. pose proof (heap_of _ _ Hok) as Hk. split; [by destruct Hf|].
  eapply (procs_change (eq h) X _ Y (me w)); try exact Hp; try done; cbn.
  - apply dec_eq.
  - set_solver.
  - intros y Hne. by apply lookup_insert_ne.
  - intros y <-. left. set_solver.
  - intros y _ Hor. destruct (decide (y ∈ X)) as [|Hnx]; [by left|right].
    assert (y = h) as -> by set_solver. unfold is_done, handle_done. by rewrite Hh, Hs.
  - intros y g <- Hg. rewrite lookup_insert_eq in Hg. injection Hg as <-. cbn. split.
    + intros Hn. by apply (sp_owned _ _ _ _ _ Hp h f).
    + intros _. apply (sp_unset _ _ _ _ _ Hp h f Hh). by rewrite Hs.
  - intros b K'. rewrite (waiting_resume _ _ _ _ _ _ Hk h f k b K' a Hh Hs).
    rewrite <- (sp_waiting _ _ _ _ _ Hp). rewrite lookup_delete. case_decide; naive_solver.
  - intros b [Hne [j Hj]%(sp_awts _ _ _ _ _ Hp)]%is_Some_delete. exists j. rewrite waits_op_insert. right.
    split; [|done]. intros ->. destruct Hj as (g & k' & Hg & Hs'). congruence.
  - intros x [->%elem_of_singleton|Hxx%(sp_old _ _ _ _ _ Hp)]%elem_of_union; [|lia].
    apply (hk_frame_old _ _ _ _ _ _ Hk). eauto.
Qed.
(** More frames may be set aside. *)
Lemma procs_push X Y Y' s Wt d h :
  same_procs X Y s Wt d -> (h < next_frame s)%nat -> is_done (frames s) h = false -> Y ⊆ Y' ->
  same_procs ({[h]} ∪ X) Y' s Wt d.
Proof.
  intros [Hw Ha Hr Ho Hu Hl Hd] Hlt Hnd Hy. split; try done.
  - intros x f Hf Hx. apply (Hr x f Hf). set_solver.
  - intros x f Hf Hc Hx. apply (Ho x f Hf Hc). set_solver.
  - intros x [->%elem_of_singleton|Hx%Hl]%elem_of_union; lia.
  - rewrite Hd. apply length_filter_iff. intros x _. destruct (decide (x = h)) as [->|]; [|set_solver].
    rewrite Hnd. by split; intros [].
Qed.

(** A new task is created and control enters it. *)
Definition first_world (t : coro U) w : W :=
  upd (fun s => set_frames (<[next_frame (me w) := set_susp Running (new_frame t)]> (frames s)) s) (with_task t w).

Lemma sim_new base X Y w Q t :
  ok base w -> sim X Y w Q ->
  let h := next_frame (me w) in
  sim ({[h]} ∪ X) ({[h]} ∪ Y) (first_world t w) Q.
Proof.
  intros Hok [Hf Hp] h. pose proof (heap_of _ _ Hok) as Hk. split; [by destruct Hf|].
  assert (Hnone : frames (me w) !! h = None) by (by eapply heap_fresh_frame).
  assert (Hnin : h ∉ tasks_ (me w)).
  { intros [[? E] _]%(hk_task_frames _ _ _ _ _ _ Hk). congruence. }
  assert (Hp' : same_procs X ({[h]} ∪ Y) (me w) (p_waiting Q) (p_done Q)).
  { destruct Hp. split; try done. intros x f Hx Hc Hy. apply (sp_owned0 x f); set_solver. }
  eapply (procs_change (eq h) X _ _ (me w)); try exact Hp'; try done; cbn; fold h.
  - apply dec_eq.
  - set_solver.
  - intros x Hne. by rewrite !lookup_insert_ne.
  - intros x <-. left. set_solver.
  - intros x Hin Hor. destruct (decide (x ∈ X)) as [|Hnx]; [by left|]. assert (x = h) as -> by set_solver. done.
  - intros x g <- Hg. rewrite lookup_insert_eq in Hg. injection Hg as <-. split; [|done]. intros _ Hy. set_solver.
  - intros a K'. rewrite (sp_waiting _ _ _ _ _ Hp), insert_insert_eq. by apply (waiting_new _ _ _ _ _ _ Hk).
  - intros a [j Hj]%(sp_awts _ _ _ _ _ Hp). exists j. rewrite insert_insert_eq, waits_op_insert. right.
    split; [|done]. intros ->. destruct Hj as (g & k & Hg & _). congruence.
  - intros x [->%elem_of_singleton|Hxx%(sp_old _ _ _ _ _ Hp)]%elem_of_union; unfold h; lia.
Qed.

(** ** User code *)

Definition run_sim X Y b c h Q (o : outcome exn step) w' : Prop :=
  match o with
  | Normal Suspended => exists Q', prun (inline b c) Q = (Normal false, Q') /\ sim X Y w' Q'
  | Normal (Finished _) => exists Q' f', frames (me w') !! h = Some f' /\ rest_of (frames (me w')) h c /\
      prun (inline b c) Q = prun (c (Task_result f')) Q' /\ sim X Y w' Q'
  | _ => True
  end.

(** Running [b] in frame [h] is running its process. *)
Definition run_sim_for (b : coro U) : Prop := forall base X Y h w f c Q,
  ok base w -> flag_ok w -> frames (me w) !! h = Some f -> susp f = Running -> h ∈ X ->
  sim X Y w Q -> rest_of (frames (me w)) h c -> wp (run b h) (run_sim X Y b c h Q) w.

Lemma run_sim_eq X Y b b' c h Q Q1 o w' :
  prun (inline b c) Q = prun (inline b' c) Q1 -> run_sim X Y b' c h Q1 o w' -> run_sim X Y b c h Q o w'.
Proof. unfold run_sim. by intros ->. Qed.

Lemma finish_eq h (g : frame U -> frame U) w f :
  frames (me w) !! h = Some f ->
  (upd_frame h g;; final_suspend h) w =
    (Normal (Finished (continuation (promise (g f)))), with_frames (<[h := set_susp AtFinal (g f)]> (frames (me w))) w).
Proof.
  intros Hf. unfold upd_frame, final_suspend, get_frame, put_frame, on_me, demand, modify, mbind, exec_bind.
  rewrite Hf. cbn. rewrite lookup_insert_eq. cbn. rewrite insert_insert_eq.
  unfold FinalAwaiter_await_suspend. by destruct (continuation (promise (g f))).
Qed.

Lemma finish_sim base X Y h w f (g : frame U -> frame U) c Q b r :
  ok base w -> frames (me w) !! h = Some f -> susp f = Running -> h ∈ X -> sim X Y w Q ->
  rest_of (frames (me w)) h c -> continuation (promise (g f)) = continuation (promise f) ->
  Task_result (set_susp AtFinal (g f)) = r -> inline b c = c r ->
  wp (upd_frame h g;; final_suspend h) (run_sim X Y b c h Q) w.
Proof.
  intros Hok Hf Hs Hx Hsim Hr Hc Hres Hb. unfold wp. rewrite (finish_eq h g w f Hf). cbn [fst snd].
  exists Q, (set_susp AtFinal (g f)). split_and!.
  - cbn. apply lookup_insert_eq.
  - eapply (rest_insert _ _ _ _ _ _ (heap_of _ _ Hok)); [exact Hf|by rewrite Hs|done|done].
  - by rewrite Hb, Hres.
  - eapply sim_quiet; [exact Hok|done|exact Hf|by rewrite Hs|done|done|done|done].
Qed.

Lemma post_shared_eq dst f w :
  post dst f w = (fst (post_shared dst f (sh w)), mkWorld (me w) (snd (post_shared dst f (sh w))) (kern w)).
Proof.
  unfold post, inbox_push, eventfd_write, demand, on_shared, modify, throw, post_shared, mbind, exec_bind, mret, exec_ret.
  destruct (boxes (sh w) !! dst) as [box|] eqn:E; cbn; [|by destruct w]. rewrite lookup_insert_eq. cbn.
  destruct (EFD_MAX <? efd_counter box + 1); [done|]. cbn. by rewrite insert_insert_eq.
Qed.

(** [post] is the same on both sides. *)
Lemma post_sim X Y w Q dst f :
  sim X Y w Q -> exists Q', p_post dst f Q = (fst (post dst f w), Q') /\ sim X Y (snd (post dst f w)) Q'.
Proof.
  intros Hsim. rewrite post_shared_eq. unfold p_post. rewrite (sf_shared _ _ (proj1 Hsim)).
  destruct (post_shared dst f (sh w)) as [o s1]. eexists. split; [done|]. by apply sim_shared.
Qed.

Lemma user_sim X Y w Q g :
  sim X Y w Q -> exists z (s1 : shared U) Q', do_user g w = (Normal z, mkWorld (me w) s1 (kern w)) /\
    p_user g Q = (Normal z, Q') /\ sim X Y (mkWorld (me w) s1 (kern w)) Q'.
Proof.
  intros Hsim. unfold do_user, p_user. rewrite (sf_shared _ _ (proj1 Hsim)).
  destruct (g (user (sh w))) as [u z]. do 3 eexists. split_and!; [done|done|]. by apply sim_shared.
Qed.
(** *** Spawning *)

Lemma first_resume_sim base X Y t w Q :
  run_safe_for (K:=K) known nw timed t -> run_sim_for t -> good t -> ok base w -> tl_sq_full (me w) = false -> sim X Y w Q ->
  let h := next_frame (me w) in
  wp (first_resume h (run t h))
    (fun o w' => o = Normal tt -> exists Q' f, frames (me w') !! h = Some f /\ at_rest f /\
       prun (denote t) Q = (Normal (handle_done f), Q') /\ sim ({[h]} ∪ X) ({[h]} ∪ Y) w' Q')
    (with_task t w).
Proof.
  intros Hsafe Hrun Hgt Hok Htl Hsim h.
  destruct (ok_new_task known nw timed base w t Hok Hgt) as [Hok1 Hnone].
  assert (Hf1 : frames (me (with_task t w)) !! h = Some (new_frame t)) by (cbn; apply lookup_insert_eq).
  destruct (ok_quiet known nw timed base (with_task t w) h _ (set_susp Running (new_frame t)) Hok1 Hf1) as [Hok2 _]; try done.
  unfold first_resume. apply wp_bind. eapply wp_upd_frame; [exact Hf1|]. change (upd _ (with_task t w)) with (first_world t w).
  change (with_frames _ _) with (first_world t w) in Hok2.
  assert (Hf2 : frames (me (first_world t w)) !! h = Some (set_susp Running (new_frame t))) by (cbn; apply lookup_insert_eq).
  assert (Hfl : flag_ok (first_world t w)) by (intros _ E; cbn in E; congruence).
  apply wp_bind. eapply wp_mono.
  { apply wp_and; [by apply (Hsafe base h _ _ Hok2 Hfl Hf2)|].
    apply (Hrun base ({[h]} ∪ X) ({[h]} ∪ Y) h _ _ PDone Q Hok2 Hfl Hf2); [done|set_solver|by eapply sim_new|].
    apply rest_top. by exists (set_susp Running (new_frame t)). }
  intros o w' [Hpost Hs]. destruct o as [st| |]; [|done|done].
  destruct Hpost as (_ & _ & Ha & _ & f & Hf & Hst).
  destruct (ad_cont _ _ _ Ha h _ eq_refl Hf2) as (f' & Hf' & Hc). rewrite Hf in Hf'. simplify_eq. cbn in Hc.
  destruct st as [|n].
  - apply wp_ret. intros _. destruct Hs as (Q' & E & Hs). exists Q', f'. split_and!; [done|by left| |done].
    unfold denote. rewrite E. unfold handle_done. destruct (susp f'); cbn in Hst; tauto.
  - destruct Hst as [Hfin ->]. rewrite Hc. apply wp_ret. intros _.
    destruct Hs as (Q' & f & Hf'' & _ & E & Hs). rewrite Hf in Hf''. simplify_eq. exists Q', f.
    split_and!; [done|by right| |done]. unfold denote. rewrite E. unfold handle_done. by rewrite Hfin.
Qed.

(** The refused and the accepted task. *)
Lemma full_iff X Y w Q : sim X Y w Q -> p_full Q = (sq_entries (sq (s_io (me w))) <=? sq_count (sq (s_io (me w)))).
Proof.
  intros [[] _]. unfold p_full. rewrite sf_entries0, sf_staged0, length_sq_pending. done.
Qed.

Lemma pspawn_full t Q : p_full Q = true -> pspawn t Q = (Normal (Some (IOException SQFull)), Q).
Proof. intros E. unfold pspawn, gets, mbind, exec_bind. by rewrite E. Qed.

Lemma pspawn_room t Q Q' d :
  p_full Q = false -> prun t Q = (Normal d, Q') -> pspawn t Q = (Normal None, snd (p_finish d Q')).
Proof. intros E E'. unfold pspawn, gets, mbind, exec_bind. by rewrite E, E'. Qed.

Lemma spawn_temporary_sim base X Y t w Q :
  run_safe_for (K:=K) known nw timed t -> run_sim_for t -> first_ok t -> good t -> ok base w -> calm w -> sim X Y w Q ->
  wp (spawn_temporary t (fun h' => run t h'))
     (fun o w' => forall e, o = Normal e -> exists Q', pspawn (denote t) Q = (Normal e, Q') /\ sim X Y w' Q') w.
Proof.
  intros Hsafe Hrun Hfirst Hgt Hok Hcalm Hsim. destruct (ok_new_task known nw timed base w t Hok Hgt) as [_ Hnone].
  unfold spawn_temporary. apply wp_bind. unfold new_task at 1, wp at 1. cbn [fst snd].
  change (mkWorld _ (sh w) (kern w)) with (with_task t w). set (h := next_frame (me w)).
  apply wp_bind, wp_try. unfold spawn. apply wp_bind, wp_gets.
  change (s_io (me (with_task t w))) with (s_io (me w)). cbv zeta. fold (sq_count (sq (s_io (me w)))).
  pose proof (full_iff X Y w Q Hsim) as Hfull.
  destruct (sq_entries (sq (s_io (me w))) <=? sq_count (sq (s_io (me w)))) eqn:Hcap.
  - apply wp_throw. unfold wp, mbind, exec_bind, h. rewrite destroy_fresh by done. cbn [fst snd].
    intros e [= <-]. exists Q. split; [by apply pspawn_full|]. destruct Hsim as [[] Hp]. split; [done|].
    eapply procs_ext; [exact Hp|done|done|done|]. cbn. lia.
  - apply Z.leb_gt in Hcap. assert (Htl : tl_sq_full (me w) = false).
    { destruct (tl_sq_full (me w)) eqn:E; [|done]. specialize (Hcalm E). lia. }
    apply wp_bind. eapply wp_mono.
    { apply wp_and; [by apply (first_resume_safe known nw timed base t w)|].
      by apply (first_resume_sim base X Y t w Q). }
    intros o w3 [(-> & Hok3 & Htl3 & Hk3 & Ha3 & f & Hf & Hc) Hs]. fold h in Hf, Ha3, Hs.
    destruct (Hs eq_refl) as (Q' & f' & Hf' & Hrest & E & Hsim3). simplify_eq.
    apply wp_bind. unfold take_pending at 1, wp at 1, take_pending_sq_error. rewrite Htl3. cbn [fst snd negb].
    replace (mkWorld (set_tl false (me w3)) (sh w3) (kern w3)) with w3
      by (destruct w3 as [[] ? ?]; cbn in Htl3; by subst).
    apply wp_bind, wp_gets. rewrite (sk_grow _ _ _ _ _ (proj1 Hok3)). apply wp_modify, wp_ret.
    intros e [= <-]. eexists. split; [by apply pspawn_room|]. destruct Hsim3 as [Hf3 Hp3].
    split; [cbn; by destruct Hf3, (handle_done f)|].
    assert (Hnin : h ∉ tasks_ (me w3)).
    { destruct (ad_tasks _ _ _ Ha3) as (l & -> & Hl). intros [Hin|Hin%Hl]%elem_of_app.
      - destruct (hk_task_frames _ _ _ _ _ _ (heap_of _ _ Hok) h Hin) as [[? E'] _]. unfold h in E'. congruence.
      - cbn in Hin. unfold h in Hin. lia. }
    assert (Hx : h ∉ X) by (intros Hin%(sp_old _ _ _ _ _ (proj2 Hsim)); unfold h in Hin; lia).
    pose proof (procs_adopt X Y (me w3) _ _ h f Hp3 Hf Hrest Hc Hnin Hx (hk_tasks _ _ _ _ _ _ (heap_of _ _ Hok3))) as Hp4.
    cbn. by destruct (handle_done f).
Qed.
(** *** Bodies *)

Lemma p_await_room op timeout k Q :
  Z.of_nat (length (p_staged Q)) + slots_needed (made op timeout) <= p_entries Q ->
  p_await op timeout k Q =
    (Normal true, with_waiting (<[p_next Q := k]> (p_waiting Q)) (S (p_next Q))
       (with_queues (p_staged Q ++ staged (p_next Q) (made op timeout)) (p_flight Q) (p_ready Q) Q)).
Proof. intros H. unfold p_await. by rewrite (proj2 (Z.ltb_ge _ _)). Qed.

Lemma p_await_full op timeout k Q :
  p_entries Q < Z.of_nat (length (p_staged Q)) + slots_needed (made op timeout) ->
  p_await op timeout k Q = (Normal false, with_waiting (p_waiting Q) (S (p_next Q)) Q).
Proof. intros H. unfold p_await. by rewrite (proj2 (Z.ltb_lt _ _)). Qed.

(** Awaiting an operation, given the simulation for what follows. *)
Lemma await_sim base X Y h w f c Q op to k :
  run_sim_for (k 0) -> (to = None \/ timed = true) -> (forall z, good (k z)) ->
  ok base w -> flag_ok w -> frames (me w) !! h = Some f -> susp f = Running -> h ∈ X ->
  sim X Y w Q -> rest_of (frames (me w)) h c -> wp (run (CoAwait op to k) h) (run_sim X Y (CoAwait op to k) c h Q) w.
Proof.
  intros IH Hto Hg Hok Hfl Hf Hs Hx Hsim Hr. cbn [run].
  pose proof (proj1 Hsim) as [_ _ Ee _ _ Es _ _ En _].
  eapply wp_await; [exact Hf|exact Hs|apply Hok| | |].
  - eapply heap_fresh_awt, (heap_of _ _ Hok).
  - intros q Hq He Hp. apply wp_ret. eexists. split; [|by eapply (sim_suspend base X Y w Q h f k c (made op to) q)].
    cbn [inline prun]. unfold mbind, exec_bind. rewrite p_await_room; [by rewrite En|].
    pose proof (length_sq_pending q) as Hl. rewrite Hp, length_app, Nat2Z.inj_add, length_staged in Hl.
    rewrite Ee, Es. pose proof (wf_sq_bound q Hq). lia.
  - intros Hfull w' w1 E. apply wp_bind. unfold wp at 1. rewrite E. cbn [fst snd].
    eapply wp_mono.
    + apply (IH base X Y h w' f c (with_waiting (p_waiting Q) (S (p_next Q)) Q)); try done.
      * apply ok_bump; [done|lia].
      * intros Htm _. cbn. destruct Hto as [->|Htm']; [|congruence]. cbn in Hfull. lia.
      * destruct Hsim as [[] Hp]. split; [split; cbn; try done; by rewrite sf_next0|]. by eapply procs_ext.
    + intros o w2. apply run_sim_eq. cbn [inline prun]. unfold mbind, exec_bind. rewrite p_await_full; [done|].
      pose proof (length_sq_pending (sq (s_io (me w)))). rewrite Ee, Es. lia.
Qed.

(** Awaiting a task is running its body in place. *)
Lemma await_task_sim base X Y h w f c Q t k :
  good t -> run_sim_for t -> (forall r, run_sim_for (k r)) -> (forall r, good (k r)) ->
  ok base w -> flag_ok w -> frames (me w) !! h = Some f -> susp f = Running -> h ∈ X ->
  sim X Y w Q -> rest_of (frames (me w)) h c -> wp (run (CoAwaitTask t k) h) (run_sim X Y (CoAwaitTask t k) c h Q) w.
Proof.
  intros Hgt Ht Hk Hgk Hok Hfl Hf Hs Hx Hsim Hr.
  destruct (ok_enter_task known nw timed base w h f k Hok Hf Hs Hgk) as (Hok1 & Ha1 & Hlt).
  pose proof (sim_enter base X Y w Q h f k Hok Hsim Hf Hs Hx) as Hsim1. cbv zeta in Hsim1.
  assert (Hq : quiet (susp f)) by (by rewrite Hs).
  pose proof (rest_enter _ _ _ _ _ _ (heap_of _ _ Hok) h f k c Hf Hq Hr) as [Hr1 Hr1'].
  cbn [run]. eapply wp_enter_task; [exact Hf|lia|]. set (h' := next_frame (me w)) in *. set (w1 := upd _ w) in *.
  assert (Hf1 : frames (me w1) !! h = Some (set_susp (AtTask h' k) f)).
  { cbn. rewrite lookup_insert_ne by lia. apply lookup_insert_eq. }
  assert (Hf1' : frames (me w1) !! h' = Some (mkFrame (mkPromise None None (Some h)) Running))
    by (cbn; apply lookup_insert_eq).
  apply wp_bind. eapply wp_mono.
  { apply wp_and; [by apply (run_safe known nw timed t Hgt base h' w1 _ Hok1 Hfl Hf1')|].
    apply (Ht base ({[h']} ∪ X) Y h' w1 _ (fun r => inline (k r) c) Q Hok1 Hfl Hf1'); [done|set_solver|done|exact Hr1']. }
  intros o w2 [Hpost Hs2]. destruct o as [st| |]; [|done|done].
  destruct Hpost as (Hok2 & Hfl2 & Ha2 & Hk2 & fc & Hfc & Hst).
  assert (Hf2 : frames (me w2) !! h = Some (set_susp (AtTask h' k) f)).
  { rewrite (ad_frames _ _ _ Ha2); [done|cbn; lia|lia]. }
  destruct (ad_cont _ _ _ Ha2 h' _ eq_refl Hf1') as (fc' & Hfc' & Hc). rewrite Hfc in Hfc'. simplify_eq. cbn in Hc.
  destruct st as [|n].
  - apply wp_ret. destruct Hs2 as (Q' & E & Hsim2). exists Q'. split; [done|]. destruct Hsim2 as [Hf2' Hp2].
    split; [done|]. eapply procs_pop; [exact Hp2| |].
    + intros g Hg. simplify_eq. by left.
    + unfold is_done, handle_done. rewrite Hfc. destruct (susp fc'); cbn in Hst; by (tauto || intros []).
  - destruct Hst as [Hfin ->]. rewrite Hc. rewrite decide_True by done.
    destruct Hs2 as (Q' & g & Hg & _ & E & Hsim2). rewrite Hfc in Hg. simplify_eq.
    destruct (leave_task_safe known nw timed base w2 h _ h' g k Hok2 Hf2 eq_refl Hfc Hfin) as (El & Hok3 & _ & Hne & Hts).
    apply wp_bind. unfold wp at 1. rewrite El. cbn [fst snd].
    assert (Hq' : quiet (susp g)) by (by rewrite Hfin).
    assert (Hr2' : rest_of (frames (me w2)) h c).
    { eapply (rest_older _ _ _ _ _ _ (heap_of _ _ Hok1)); [exact Hf1'|done| |lia|cbn; lia|exact Hr1].
      intros x Hlx Hnx. apply (ad_frames _ _ _ Ha2); [done|congruence]. }
    set (w3 := with_frames _ w2) in *.
    eapply wp_mono.
    + apply (Hk (Task_await_resume g) base X Y h w3 (set_susp Running (set_susp (AtTask h' k) f)) c Q' Hok3 Hfl2); try done.
      * cbn. apply lookup_insert_eq.
      * by eapply sim_leave.
      * by eapply (rest_leave _ _ _ _ _ _ (heap_of _ _ Hok2) h _ h' g k).
    + intros o w4. apply run_sim_eq. cbn [inline]. done.
Qed.
Lemma run_simulates b : good b -> run_sim_for b.
Proof.
  induction b as [v|e|g k IH|op to k IH|t IHt k IH|t IHt k IH|dst fn k IH]; cbn [good];
    intros Hg base X Y h w f c Q Hok Hfl Hf Hs Hx Hsim Hr.
  1,2: destruct (sp_unset _ _ _ _ _ (proj2 Hsim) h f Hf) as [Hv He]; [by rewrite Hs|].
  - eapply finish_sim; try done. unfold Task_result. cbn. by rewrite He.
  - by eapply finish_sim.
  - cbn [run]. apply wp_bind. destruct (user_sim X Y w Q g Hsim) as (z & s1 & Q1 & E & E' & Hsim1).
    destruct (do_user_safe known nw timed g w (proj2 Hok)) as (z' & s1' & E2 & Hs1). rewrite E in E2. simplify_eq.
    unfold wp at 1. rewrite E. cbn [fst snd].
    eapply wp_mono; [apply (IH _ (Hg _) base X Y h (mkWorld (me w) s1' (kern w)) f c Q1); try done; split; [apply Hok|done]|].
    intros o w'. apply run_sim_eq. cbn [inline prun]. unfold mbind, exec_bind. by rewrite E'.
  - destruct Hg as [Hto Hg]. eapply await_sim; eauto.
  - destruct Hg as [Hgt Hgk]. eapply await_task_sim; eauto.
  - destruct Hg as (Htm & Hfirst & Hgt & Hgk). cbn [run]. apply wp_bind. eapply wp_mono.
    { apply wp_and.
      - apply (spawn_temporary_safe known nw timed base t w (run_safe _ _ _ t Hgt) Hfirst Hgt Hok (Hfl Htm)).
      - apply (spawn_temporary_sim base X Y t w Q (run_safe _ _ _ t Hgt) (IHt Hgt) Hfirst Hgt Hok (Hfl Htm) Hsim). }
    intros o w1 [Hpost Hs1]. destruct o as [e| |]; [|done|done]. destruct Hpost as (Hok1 & Hc1 & _ & Ha1 & Hk1).
    destruct (Hs1 e eq_refl) as (Q1 & E & Hsim1).
    assert (Hlt : (h < next_frame (me w))%nat) by (apply (hk_frame_old _ _ _ _ _ _ (heap_of _ _ Hok)); eauto).
    eapply wp_mono.
    + apply (IH e (Hgk e) base X Y h w1 f c Q1); try done.
      * by intros _.
      * rewrite (ad_frames _ _ _ Ha1); [done|done|tauto].
      * eapply (rest_off (fun x => (next_frame (me w) <= x)%nat)); [|lia|exact Hr]. split.
        -- intros x Hxx. apply (ad_frames _ _ _ Ha1); [lia|tauto].
        -- intros x p Hc Hp. apply (hk_chain _ _ _ _ _ _ (heap_of _ _ Hok)) in Hc as (g & k' & Hg & _).
           apply mk_is_Some in Hg. apply (hk_frame_old _ _ _ _ _ _ (heap_of _ _ Hok)) in Hg. lia.
    + intros o w2. apply run_sim_eq. cbn [inline prun]. fold (denote t). unfold mbind, exec_bind.
      unfold pspawn, gets, mbind, exec_bind in E |- *. destruct (p_full Q); [by injection E as <- <-|].
      destruct (prun (denote t) Q) as [[d| |] Q'] eqn:Ep; [|done|done]. cbn in E |- *. by injection E as <- <-.
  - destruct Hg as (Hd & Hgf & Hgk). cbn [run]. apply wp_bind, wp_try.
    destruct (post_safe known nw timed dst fn w (proj2 Hok) Hd Hgf) as (o & s1 & E & Hs' & Ho).
    destruct (post_sim X Y w Q dst fn Hsim) as (Q1 & E1 & Hsim1). rewrite E in E1, Hsim1. cbn in E1, Hsim1.
    unfold wp at 1. rewrite E. cbn [fst snd]. destruct Ho as [-> | ->].
    all: eapply wp_mono; [apply (IH _ (Hgk _) base X Y h (mkWorld (me w) s1 (kern w)) f c Q1); try done; split; [apply Hok|done]|].
    all: intros o w'; apply run_sim_eq; cbn [inline prun]; unfold mbind, exec_bind, try; by rewrite E1.
Qed.

(** *** Resumption *)

(** A body and, through symmetric transfer, everything that awaits it is one
    process run to its next wait or its end. *)
Lemma resume_sim base n : forall b h w f c Q,
  good b -> ok base w -> flag_ok w -> (h <= n)%nat -> frames (me w) !! h = Some f -> susp f = Running ->
  sim ({[h]} ∪ ∅) ∅ w Q -> rest_of (frames (me w)) h c ->
  wp (st ← run b h; transfer n st)
     (fun _ w' => exists Q' d, prun (inline b c) Q = (Normal d, Q') /\ sim ∅ ∅ w' (snd (p_finish d Q'))) w.
Proof.
  induction n as [n IH] using lt_wf_ind. intros b h w f c Q Hg Hok Hfl Hn Hf Hs Hsim Hr.
  apply wp_bind. eapply wp_mono.
  { apply wp_and; [by apply (run_safe known nw timed b Hg base h w f)|].
    apply (run_simulates b Hg base ({[h]} ∪ ∅) ∅ h w f c Q); try done. set_solver. }
  intros o w1 [Hpost Hs1]. destruct o as [st| |]; [|done|done].
  destruct Hpost as (Hok1 & Hfl1 & Ha1 & Hk1 & f1 & Hf1 & Hst).
  destruct st as [|next].
  - destruct Hs1 as (Q' & E & [Hsf Hsp]). replace (transfer n Suspended) with (mret (M:=M) tt) by (by destruct n).
    apply wp_ret. exists Q', false. split; [done|]. split; [done|]. eapply procs_pop; [exact Hsp| |].
    + intros g Hg'. simplify_eq. by left.
    + unfold is_done, handle_done. rewrite Hf1. destruct (susp f1); cbn in Hst; by (tauto || intros []).
  - destruct Hst as [Hfin Hnext]. destruct Hs1 as (Q' & g & Hg' & Hr1 & E & Hsim1). rewrite Hf1 in Hg'. simplify_eq.
    destruct (continuation (promise g)) as [p|] eqn:Hc.
    + assert (Hcont : continues (frames (me w1)) h p) by (by exists g).
      pose proof (hk_order _ _ _ _ _ _ (heap_of _ _ Hok1) p h Hcont) as Hph.
      destruct n as [|n']; [lia|]. cbn [transfer].
      destruct (rest_parent _ _ _ _ _ _ (heap_of _ _ Hok1) h g p c Hf1 Hc Hr1) as (fp & k & c1 & Hfp & Hsp & -> & Hr2).
      apply wp_bind. eapply wp_get_frame; [exact Hfp|]. rewrite Hsp.
      destruct (leave_task_safe known nw timed base w1 p fp h g k Hok1 Hfp Hsp Hf1 Hfin) as (El & Hok2 & Hgk & Hne & Hts).
      apply wp_bind. unfold wp at 1. rewrite El. cbn [fst snd]. set (w2 := with_frames _ w1) in *.
      assert (Hq : quiet (susp g)) by (by rewrite Hfin).
      assert (Hpush : sim ({[h]} ∪ ({[p]} ∪ ∅)) ∅ w1 Q').
      { replace ({[h]} ∪ ({[p]} ∪ ∅)) with ({[p]} ∪ ({[h]} ∪ ∅) : gset nat) by set_solver.
        destruct Hsim1 as [Hsf Hsp1]. split; [done|]. eapply procs_push; [exact Hsp1| | |done].
        - apply (hk_frame_old _ _ _ _ _ _ (heap_of _ _ Hok1)). by eexists.
        - unfold is_done, handle_done. by rewrite Hfp, Hsp. }
      eapply wp_mono.
      * apply (IH n' ltac:(lia) (k (Task_await_resume g)) p w2 (set_susp Running fp) c1 Q'); try done; [lia|..].
        -- cbn. apply lookup_insert_eq.
        -- eapply (sim_leave base _ ∅ w1 Q' p fp h g k); try done. set_solver.
        -- by eapply (rest_leave _ _ _ _ _ _ (heap_of _ _ Hok1) p fp h g k).
      * intros o w3 (Q3 & d & E3 & Hsim3). exists Q3, d. split; [|done]. by rewrite E.
    + replace (transfer n (Finished None)) with (mret (M:=M) tt) by (by destruct n). apply wp_ret.
      exists Q', true. inversion Hr1 as [|? p k c0 [(g' & Hg1 & Ec) _] _]; subst; [|congruence].
      split; [by rewrite E|]. destruct Hsim1 as [Hsf Hsp1]. split; [by destruct Hsf|].
      eapply procs_pop_done; [exact Hsp1|exact Hf1|done|done| |apply (hk_tasks _ _ _ _ _ _ (heap_of _ _ Hok1))|set_solver].
      apply (sp_owned _ _ _ _ _ Hsp1 h g); [done|done|set_solver].
Qed.
End Refine.
