(* ===== verification/RefineLoop.v ===== *)
(** * RefineLoop: the event loop implements the turns of a pool

    Lifts the simulation of Refine from user code to [drain_inbox], the
    completion loop, [drain] and [reap], and from one turn to whole executions:
    every state [reach] allows is the image of a pool execution. *)
From stdpp Require Import prelude list gmap.
From Stdlib Require Import ZArith Lia.
From S2P Require Import Prelude ErrorCodes Ring Operations Awaitable Task Machine Kernel Scheduler Heap Safety EventLoop Follows Wakeup Process Chains Refine.

Section Loop.
Context {U K : Type} `{HKS : KernelSpec K}.
#[local] Abbreviation M := (exec (world U K) exn).
#[local] Abbreviation W := (world U K).
Context (known : nat -> Prop) (nw : nat) (timed : bool).
#[local] Abbreviation good := (good (U:=U) known nw timed).
#[local] Abbreviation good_fn := (good_fn (U:=U) known nw timed).
#[local] Abbreviation ok := (ok (U:=U) (K:=K) known nw timed).
#[local] Abbreviation inv := (inv (U:=U) (K:=K) known nw timed).
#[local] Abbreviation shared_ok := (shared_ok (U:=U) known nw timed).
#[local] Abbreviation reach := (reach (U:=U) (K:=K) known nw timed).
#[local] Abbreviation started := (started (U:=U) (K:=K) known nw timed).
Implicit Types (w : W) (Q : pool U).

(** Between two turns nobody runs and every task is in [tasks_]. *)
Definition simulates w Q : Prop := sim ∅ ∅ w Q.

(** [m] does what [pm] does, outcome included. *)
Definition tracks {A} (m : M A) (pm : exec (pool U) exn A) w Q : Prop :=
  wp m (fun o w' => exists Q', pm Q = (o, Q') /\ simulates w' Q') w.

Lemma tracks_bind {A B} (m : M A) pm (k : A -> M B) pk w Q :
  tracks m pm w Q ->
  (forall a w' Q', fst (m w) = Normal a -> snd (m w) = w' -> simulates w' Q' -> tracks (k a) (pk a) w' Q') ->
  tracks (m ≫= k) (pm ≫= pk) w Q.
Proof.
  intros Hm Hk. unfold tracks, wp, mbind, exec_bind in *. destruct Hm as (Q' & E & Hs). rewrite E.
  destruct (m w) as [[a| |] w']; cbn in *; [|by exists Q'|by exists Q']. by apply Hk.
Qed.

Lemma tracks_try {A} (m : M A) pm w Q : tracks m pm w Q -> tracks (try m) (try pm) w Q.
Proof.
  unfold tracks, wp, try. intros (Q' & E & Hs). rewrite E. destruct (m w) as [[] ?]; by exists Q'.
Qed.

Lemma tracks_ret {A} (a : A) w Q : simulates w Q -> tracks (mret a) (mret a) w Q.
Proof. intros Hs. by exists Q. Qed.

Lemma tracks_throw {A} e w Q : simulates w Q -> tracks (A:=A) (throw e) (throw e) w Q.
Proof. intros Hs. by exists Q. Qed.

(** Safety along the way: what the first half leaves, the second may use. *)
Lemma wp_snd {A} (m : M A) P w o w' : wp m P w -> fst (m w) = o -> snd (m w) = w' -> P o w'.
Proof. unfold wp. by intros Hwp <- <-. Qed.

(** ** Callables *)

Lemma post_tracks dst f w Q : simulates w Q -> tracks (post dst f) (p_post dst f) w Q.
Proof. intros Hs. destruct (post_sim _ _ w Q dst f Hs) as (Q' & E & Hs'). by exists Q'. Qed.

Lemma invoke_tracks f : good_fn f -> forall base w Q,
  ok base w -> tl_sq_full (me w) = false -> simulates w Q -> tracks (invoke f) (pinvoke f) w Q.
Proof.
  induction f as [|e|g k IH|t k IH|dst f _ k IH|job IH]; intros Hg base w Q Hok Htl Hs; cbn [invoke pinvoke].
  - by apply tracks_ret.
  - by apply tracks_throw.
  - destruct (user_sim _ _ w Q g Hs) as (z & s1 & Q1 & E & E' & Hs1).
    destruct (do_user_safe known nw timed g w (proj2 Hok)) as (z' & s1' & E2 & Hs1'). rewrite E in E2. simplify_eq.
    unfold tracks, wp, mbind, exec_bind. rewrite E, E'.
    apply (IH _ (Hg _) base); [split; [apply Hok|done]|done|done].
  - destruct Hg as (Hfirst & Hgt & Hgk).
    assert (Hcalm : calm w) by (intros E; congruence).
    pose proof (spawn_temporary_safe known nw timed base t w (run_safe _ _ _ t Hgt) Hfirst Hgt Hok Hcalm) as Hsafe.
    pose proof (spawn_temporary_sim known nw timed base _ _ t w Q (run_safe _ _ _ t Hgt) (run_simulates _ _ _ t Hgt)
      Hfirst Hgt Hok Hcalm Hs) as Hsim.
    unfold wp in Hsafe, Hsim. unfold tracks, wp, mbind, exec_bind.
    destruct (spawn_temporary t (fun h' => run t h') w) as [[e| |] w1]; [|done|done]. cbn in Hsafe, Hsim.
    destruct Hsafe as (Hok1 & _ & Htl1 & _). destruct (Hsim e eq_refl) as (Q1 & E & Hs1). rewrite E.
    apply (IH e (Hgk e) base); [done|by apply Htl1|done].
  - destruct Hg as (Hd & Hgf & Hgk). apply tracks_bind; [by apply tracks_try, post_tracks|].
    intros r w1 Q1 E1 E2 Hs1. pose proof (post_invoke known nw timed base dst f w Hok Htl Hd Hgf) as Hsafe.
    unfold try in E1, E2. unfold wp in Hsafe. destruct (post dst f w) as [o w1'].
    destruct Hsafe as ([Ho|[e Ho]] & (Hok1 & _) & Htl1); cbn in Ho, Hok1, Htl1; subst o; cbn in E1, E2; simplify_eq.
    all: by apply (IH _ (Hgk _) base).
  - unfold tracks, wp, mbind, exec_bind, gets, on_shared, modify. cbn [fst snd].
    pose proof (sf_shared _ _ (proj1 Hs)) as E. rewrite E.
    pose proof (sim_shared ∅ ∅ w Q (with_next_worker (u64 (next_worker_ (sh w) + 1)) (sh w)) Hs) as Hs1.
    destruct (workers (sh w)); [by eexists|]. by apply post_tracks.
Qed.

(** ** The inbox *)

Lemma item_tracks base f w Q :
  good_fn f -> ok base w -> tl_sq_full (me w) = false -> simulates w Q -> tracks (drain_one f) (pitem f) w Q.
Proof.
  intros Hg Hok Htl Hs. apply tracks_bind; [by eapply tracks_try, invoke_tracks|].
  intros r w1 Q1 E1 E2 Hs1. destruct r as [[]|[st|tag]]; [by apply tracks_ret| |by apply tracks_throw].
  case_decide; [|by apply tracks_ret].
  pose proof (invoke_safe known nw timed f Hg base w Hok Htl) as Hsafe. unfold wp in Hsafe. unfold try in E1, E2.
  destruct (invoke f w) as [[?|?|?] w1']; cbn in Hsafe, E1, E2; simplify_eq. destruct Hsafe as (_ & (Hok1 & _) & _).
  pose proof (sk_self _ _ _ _ _ (proj1 Hok1)) as Hself.
  unfold tracks, wp. rewrite requeue_post by (by apply (so_known _ _ _ _ (proj2 Hok1))). cbn [fst snd].
  unfold mbind, exec_bind, gets, try. rewrite (sf_id _ _ (proj1 Hs1)).
  destruct (post_safe known nw timed _ f w1 (proj2 Hok1) Hself Hg) as (o & s1 & E & _ & Ho).
  destruct (post_sim _ _ w1 Q1 (s_id (me w1)) f Hs1) as (Q2 & E' & Hs2). rewrite E in E', Hs2 |- *. cbn in E', Hs2 |- *.
  rewrite E'. exists Q2. by destruct Ho as [-> | ->].
Qed.

Lemma items_track base l : Forall good_fn l -> forall w Q,
  ok base w -> tl_sq_full (me w) = false -> simulates w Q -> tracks (drain_local l) (pitems l) w Q.
Proof.
  induction 1 as [|f l Hf _ IH]; intros w Q Hok Htl Hs; cbn [drain_local pitems]; [by apply tracks_ret|].
  apply tracks_bind; [by eapply item_tracks|]. intros [] w1 Q1 E1 E2 Hs1.
  destruct (wp_snd _ _ _ _ _ (drain_one_safe known nw timed base f w Hf Hok Htl) E1 E2) as [(Hok1 & _) Htl1].
  by apply IH.
Qed.

Lemma inbox_tracks base w Q :
  ok base w -> tl_sq_full (me w) = false -> simulates w Q -> tracks drain_inbox pinbox w Q.
Proof.
  intros Hok Htl Hs. pose proof Hok as [Hme Hsh].
  destruct (so_known _ _ _ _ Hsh _ (sk_self _ _ _ _ _ Hme)) as [box Hbox].
  destruct (so_good _ _ _ _ Hsh _ _ Hbox) as [Hg Hc].
  unfold drain_inbox, tracks, wp, mbind, exec_bind. rewrite (take_inbox_eq w box Hbox).
  unfold pinbox, gets, demand, modify, mbind, exec_bind.
  rewrite (sf_id _ _ (proj1 Hs)), (sf_shared _ _ (proj1 Hs)), Hbox. cbv beta. rewrite (sf_shared _ _ (proj1 Hs)).
  apply (items_track base); [done| |done|by apply sim_shared].
  split; [done|]. refine (shared_ok_box known nw timed _ (mkBox _ _) _ Hsh _ _); [by constructor|done].
Qed.

(** ** A completion *)

(** What the waiting frame continues as. *)
Lemma waiting_process base w Q a x h f k :
  ok base w -> simulates w Q -> awts (me w) !! a = Some x -> handle x = Some h ->
  frames (me w) !! h = Some f -> susp f = AtOp a k ->
  exists c, rest_of (frames (me w)) h c /\ p_waiting Q !! a = Some (fun z => inline (k z) c).
Proof.
  intros Hok [_ Hp] Hx Hh Hf Hs.
  destruct (rest_exists _ _ _ _ _ _ (heap_of _ _ _ _ _ Hok) h) as [c Hr]; [by eexists|].
  exists c. split; [done|]. apply (sp_waiting _ _ _ _ _ Hp). by exists h, f, k, c.
Qed.

Lemma pcomplete_awaitable c a k d Q Q' :
  cqe_user_data c = AddrAwaitable a -> p_waiting Q !! a = Some k ->
  prun (k (res c)) (with_waiting (delete a (p_waiting Q)) (p_next Q) Q) = (Normal d, Q') ->
  pcomplete c Q = (Normal tt, snd (p_finish d Q')).
Proof.
  intros E Hw Ep. unfold pcomplete. rewrite E. unfold mbind, exec_bind, demand, modify. by rewrite Hw, Ep.
Qed.

Lemma cqe_tracks base c w Q :
  ok (cqe_user_data c :: base) w -> tl_sq_full (me w) = false -> simulates w Q ->
  tracks (handle_cqe c) (pcomplete c) w Q.
Proof.
  intros Hok Htl Hs. unfold handle_cqe. case_decide as He.
  - unfold pcomplete. rewrite He in Hok |- *. pose proof (ok_efd_cqe known nw timed base w Hok) as Hok1.
    unfold tracks, wp, mbind, exec_bind, on_me, modify. cbn [fst snd].
    change (mkWorld _ (sh w) (kern w)) with (upd (set_armed false) w).
    apply (inbox_tracks base (upd (set_armed false) w)); [done|done|].
    destruct Hs as [[] Hp]. split; [done|]. by eapply procs_ext.
  - assert (Hkind : cqe_user_data c = Num 0 \/ exists a, cqe_user_data c = AddrAwaitable a).
    { destruct (hk_kinds _ _ _ _ _ _ (heap_of _ _ _ _ _ Hok) (cqe_user_data c)) as [?|[?|?]]; auto; [|done].
      cbn. by apply elem_of_cons; left. }
    destruct Hkind as [E|[a E]]; [unfold pcomplete; rewrite E; by apply tracks_ret|]. rewrite E in Hok |- *.
    destruct (ok_resume known nw timed base w a Hok) as (x & h & f & k & Hx & Hh & Hf & Hsu & Hk & Hok').
    destruct (waiting_process _ w Q a x h f k Hok Hs Hx Hh Hf Hsu) as (c0 & Hr & Hw).
    unfold tracks, wp. rewrite (resume_awaitable_eq a x h f k (res c) w Hx Hh Hf Hsu).
    assert (Hr' : rest_of (frames (me (resumed a h f w))) h c0).
    { eapply (rest_insert _ _ _ _ _ _ (heap_of _ _ _ _ _ Hok)); [exact Hf|by rewrite Hsu|done|done]. }
    pose proof (sim_resume known nw timed _ ∅ ∅ w Q h f a k Hok Hs Hf Hsu) as Hs1.
    assert (Hres : wp (s ← run (k (res c)) h; transfer h s)
      (fun o w' => o = Normal tt /\ exists Q' d,
         prun (inline (k (res c)) c0) (with_waiting (delete a (p_waiting Q)) (p_next Q) Q) = (Normal d, Q') /\
         simulates w' (snd (p_finish d Q'))) (resumed a h f w)).
    { apply wp_and.
      - apply wp_bind. eapply wp_mono.
        { apply (run_safe known nw timed _ (Hk (res c)) base h _ (set_susp Running f) Hok'); [by apply flag_down| |done].
          cbn. apply lookup_insert_eq. }
        intros o w1. destruct o as [st| |]; [|done|done]. intros (Hok1 & Hfl1 & Ha1 & Hk1 & f1 & Hf1 & Hst).
        eapply wp_mono; [apply (transfer_safe known nw timed base h st h f1 w1 Hok1 Hfl1 (le_n h) Hf1); by destruct st|].
        by intros o w2 [].
      - eapply wp_mono; [apply (resume_sim known nw timed base h (k (res c)) h (resumed a h f w) (set_susp Running f) c0
          (with_waiting (delete a (p_waiting Q)) (p_next Q) Q) (Hk (res c)) Hok'
          (flag_down timed _ Htl) (le_n h)); [by apply lookup_insert_eq|done|exact Hs1|exact Hr']|].
        intros o w'. done. }
    change (wp ((s ← run (k (res c)) h; transfer h s);; take_pending;; mret tt)
      (fun o w' => exists Q', pcomplete c Q = (o, Q') /\ simulates w' Q') (resumed a h f w)).
    apply wp_bind. eapply wp_mono; [exact Hres|]. intros o w1 (-> & Q' & d & Ep & [Hsf Hsp]).
    apply wp_bind. unfold wp at 1, take_pending, take_pending_sq_error.
    destruct (tl_sq_full (me w1)); cbn [negb fst snd]; apply wp_ret; exists (snd (p_finish d Q')).
    all: split; [by eapply pcomplete_awaitable|]; split; [by destruct Hsf|by eapply procs_ext].
Qed.
(** ** A turn *)

(** Everything but the frames may change on both sides alike. *)
Lemma simulates_fields w w' Q Q' :
  simulates w Q -> same_fields w' Q' -> frames (me w') = frames (me w) -> awts (me w') = awts (me w) ->
  tasks_ (me w') = tasks_ (me w) -> next_frame (me w') = next_frame (me w) ->
  p_waiting Q' = p_waiting Q -> p_done Q' = p_done Q -> simulates w' Q'.
Proof.
  intros [_ Hp] Hf E1 E2 E3 E4 E5 E6. split; [done|]. rewrite E5, E6. eapply procs_ext; [exact Hp|done|done|done|lia].
Qed.

Lemma arm_refines w Q :
  inv w -> armable w -> simulates w Q -> simulates (if eventfd_armed_ (me w) then w else armed_world w) (parm Q).
Proof.
  intros [[Hok _] _] Ha Hs. unfold parm. rewrite (sf_armed _ _ (proj1 Hs)).
  destruct (eventfd_armed_ (me w)) eqn:E; [done|]. destruct Ha as [|Hroom]; [congruence|].
  eapply simulates_fields; [exact Hs| |done..].
  pose proof (proj1 Hs) as [Eid Eefd Eent Earm Edown Est Efl Erd Enx Esh]. split; cbn; try done.
  rewrite Est, Eefd. symmetry. apply publish_pending; [apply (sk_io _ _ _ _ _ Hok)|done].
Qed.

Lemma kernel_refines n w Q box k' io' c' :
  simulates w Q -> own_box w = Some box ->
  enter_effect n (s_io (me w)) (efd_counter box) (k_inflight (kern w)) io' c' (k_inflight k') ->
  exists Q', pkernel n Q Q' /\ simulates (progressed k' io' box c' w) Q'.
Proof.
  intros Hs Hbox (m & done & Hm & Hl & Hio & Hfd & Hent & Hsq & Hh & Hcq & Hperm & Hefd).
  pose proof (proj1 Hs) as [Eid Eefd Eent Earm Edown Est Efl Erd Enx Esh].
  eexists. split.
  - exists box, m, done, (k_inflight k'), c'. rewrite Eid, Esh, Est, Efl. by split_and!.
  - eapply simulates_fields; [exact Hs| |done..]. split; cbn; try done; try congruence.
Qed.

Lemma reap_refines w Q : inv w -> simulates w Q -> simulates (reaped w) (preap Q).
Proof.
  intros [Hok _] [Hf Hp]. pose proof (heap_of _ _ _ _ _ Hok) as Hk. split; [by destruct Hf|].
  set (F := frames (me w)). set (ts := tasks_ (me w)).
  assert (Hlook : forall j, without F (gone F ts) !! j = if decide (j ∈ gone F ts) then None else F !! j)
    by (intros j; apply lookup_without).
  assert (Hgone : forall j, j ∈ gone F ts <-> is_done F j = true /\ j ∈ ts)
    by (intros j; unfold gone; by rewrite list_elem_of_filter).
  assert (Hfin : forall j f, j ∈ gone F ts -> F !! j = Some f -> susp f = AtFinal).
  { intros j f [Hd _]%Hgone Hj. unfold is_done, handle_done in Hd. rewrite Hj in Hd. by destruct (susp f). }
  assert (Hoff : off (fun j => j ∈ gone F ts) F (without F (gone F ts))).
  { split; [intros j Hj; rewrite Hlook; by rewrite decide_False|]. intros j q Hc Hq.
    apply (hk_chain _ _ _ _ _ _ Hk) in Hc as (g & k & Hg & Hs). apply (Hfin q g) in Hq; [congruence|done]. }
  destruct Hp as [Hw Ha Hr Ho Hu Hl Hd]. split; cbn; fold F ts.
  - intros a k. rewrite Hw. apply (waiting_off (fun j => j ∈ gone F ts)); [|done|].
    + intros j. destruct (decide (j ∈ gone F ts)); tauto.
    + intros j b Hj. split; intros (f & k' & Hf' & Hs).
      * pose proof (Hfin j f Hj Hf'). congruence.
      * rewrite Hlook, decide_True in Hf'; done.
  - intros a [j (f & k & Hf' & Hs)]%Ha. exists j, f, k. split; [|done]. rewrite Hlook, decide_False; [done|].
    intros Hj. pose proof (Hfin j f Hj Hf'). congruence.
  - intros j f. rewrite Hlook. case_decide; [done|]. apply Hr.
  - intros j f. rewrite Hlook. case_decide as Hn; [done|]. intros Hf' Hc Hy.
    unfold kept. apply list_elem_of_filter. pose proof (Ho j f Hf' Hc Hy) as Hin. split; [|done].
    destruct (is_done F j) eqn:E; [|done]. destruct Hn. by apply Hgone.
  - intros j f. rewrite Hlook. case_decide; [done|]. apply Hu.
  - done.
  - symmetry. apply length_zero_iff_nil, elem_of_nil_inv. intros j Hj. unfold done_tasks in Hj. cbn in Hj. fold F ts in Hj.
    apply list_elem_of_filter in Hj as [[Hd' _] Hj]. unfold kept in Hj. apply list_elem_of_filter in Hj as [E _].
    unfold is_done in Hd', E. rewrite Hlook in Hd'. case_decide; [done|]. congruence.
Qed.

(** The completion loop: what is left to deliver is a suffix of what was
    ready, the kernel does not move, and an invariant [I] of the pool that
    completions keep is kept. *)
Definition stable_pool (I : pool U -> Prop) : Prop := forall Q c l Q',
  I Q -> p_ready Q = c :: l -> pcomplete c Q = (Normal tt, Q') -> I (with_queues (p_staged Q') (p_flight Q') l Q').

Definition delivering (I : pool U -> Prop) (k' : K) Q1 w : Prop :=
  kern w = k' /\ exists Q, simulates w Q /\ I Q /\ p_ready Q `suffix_of` p_ready Q1 /\
    pdeliver (p_ready Q) Q = pdeliver (p_ready Q1) Q1.

(** The completion at the head of the queue, on both sides. *)
Lemma head_tracks w Q :
  inv w -> simulates w Q -> 0 < cq_count (cq (s_io (me w))) ->
  let q := cq (s_io (me w)) in
  p_ready Q = cqe_at q 0 :: cq_ready (set_cq_head (cq_head q +u32 1) q) /\
  tracks (handle_cqe (cqe_at q 0)) (pcomplete (cqe_at q 0)) w Q.
Proof.
  intros [Hok Htl] Hs Hpos q. split; [rewrite (sf_ready _ _ (proj1 Hs)); by apply cq_advance_ready|].
  apply (cqe_tracks (at_kernel (kern w) (set_cq_head (cq_head q +u32 1) q))); [|done|done].
  refine (ok_perm known nw timed _ _ w _ Hok).
  unfold at_kernel. rewrite (cq_advance_ready _ Hpos) at 1. cbn. by rewrite <- Permutation_middle.
Qed.

Lemma deliver_keeps I k' Q1 : stable_pool I -> cqe_keeps known nw timed (delivering I k' Q1).
Proof.
  intros HI w w' Hinv (Hkern & Q & Hs & HQ & Hsuf & E) Hpos Hrun Hset Hkern'.
  destruct (head_tracks w Q Hinv Hs Hpos) as [Hrd Ht]. unfold tracks, wp in Ht. rewrite Hrun in Ht.
  set (q := cq (s_io (me w))) in *. set (l := cq_ready (set_cq_head (cq_head q +u32 1) q)) in *.
  destruct Ht as (Q' & Ec & Hs'). cbn in Ec, Hs'. destruct Hset as (Hq & _).
  split; [cbn; congruence|]. exists (with_queues (p_staged Q') (p_flight Q') l Q'). split_and!.
  - eapply simulates_fields; [exact Hs'| |done..].
    destruct (proj1 Hs') as [Eid Eefd Eent Earm Edown Est Efl Erd Enx Esh]. split; cbn; try done. by rewrite Hq.
  - by eapply HI.
  - cbn. rewrite Hrd in Hsuf. etrans; [|exact Hsuf]. apply suffix_cons_r. done.
  - rewrite <- E, Hrd. cbn [pdeliver]. unfold mbind, exec_bind, modify. by rewrite Ec.
Qed.

(** The world [drain] enters the kernel with. *)
Definition armed_first w : W := if eventfd_armed_ (me w) then w else armed_world w.

(** The call of the kernel in [drain], and what it does to the pool. *)
Definition entered_kernel w Q (k' : K) Q1 : Prop :=
  exists box io' c',
    own_box (armed_first w) = Some box /\
    k_enter (kern (armed_first w)) (sq_count (sq (s_io (me (armed_first w)))))
      (if shutting_down_ (me (armed_first w)) then 0 else 1)
      IORING_ENTER_GETEVENTS (s_io (me (armed_first w))) (efd_counter box) = Some (k', io', c') /\
    p_ready Q1 = cq_ready (cq io') /\ pkernel (Z.of_nat (length (p_staged (parm Q)))) (parm Q) Q1.

Lemma armed_first_ok w Q :
  inv w -> armable w -> simulates w Q -> inv (armed_first w) /\ simulates (armed_first w) (parm Q).
Proof.
  intros Hinv Ha Hs. split; [|by apply arm_refines]. unfold armed_first.
  destruct (eventfd_armed_ (me w)) eqn:E; [done|]. destruct Ha as [|Hroom]; [congruence|]. by apply arm_safe.
Qed.

(** [drain] in detail, on every outcome but blocking: the pool after the
    call of the kernel and the one after the completions, with an invariant
    that holds after the call and is kept by completions. *)
Lemma drain_tracks I w Q :
  inv w -> armable w -> simulates w Q -> stable_pool I -> (forall k' Q1, entered_kernel w Q k' Q1 -> I Q1) ->
  wp drain (fun o w1 => drain_post known nw timed w o w1 /\
    (o = Normal tt -> exists Q1 Q2, entered_kernel w Q (kern w1) Q1 /\
       pdeliver (p_ready Q1) Q1 = (Normal tt, Q2) /\ simulates w1 Q2 /\ I Q2) /\
    (forall e, o = Throw e -> exists Q' c Q'', I Q' /\ pcomplete c Q' = (Throw e, Q''))) w.
Proof.
  intros Hinv Ha Hs HI Hent. destruct (armed_first_ok w Q Hinv Ha Hs) as [Hia Hsa].
  set (P := fun w' => exists Q1 k', entered_kernel w Q k' Q1 /\ delivering I k' Q1 w').
  eapply wp_mono; [apply (drain_keeps known nw timed (eq (armed_first w)) P w)|]; try done.
  - intros w2 w3 Hi (Q1 & k' & H1 & H2) Hpos Hrun Hset Hkern. exists Q1, k'. split; [done|]. by eapply deliver_keeps.
  - intros w2 box k' io' c' <- Hbox Hcall He.
    destruct (kernel_refines _ _ _ box k' io' c' Hsa Hbox He) as (Q1 & Hk1 & Hs1).
    pose proof (sf_ready _ _ (proj1 Hs1)) as Erd.
    assert (Hx : entered_kernel w Q k' Q1).
    { exists box, io', c'. split_and!; try done. rewrite (sf_staged _ _ (proj1 Hsa)), length_sq_pending. done. }
    exists Q1, k'. split; [done|]. split; [done|]. exists Q1. split_and!; try done. by eapply Hent.
  - intros o w1 (Hpost & Hn & Ht). split_and!; [done| |].
    + intros E. destruct (Hn E) as [(Q1 & k' & H1 & <- & Q2 & Hs2 & HQ2 & _ & Ed) Hnil]. exists Q1, Q2.
      split_and!; try done. rewrite <- Ed. rewrite (sf_ready _ _ (proj1 Hs2)), Hnil. done.
    + intros e E. destruct (Ht e E) as (w0 & w' & Hi0 & (Q1 & k' & _ & _ & Q' & Hs0 & HQ' & _) & Hpos & Hrun).
      destruct (head_tracks w0 Q' Hi0 Hs0 Hpos) as [_ Htr]. unfold tracks, wp in Htr. rewrite Hrun in Htr.
      destruct Htr as (Q'' & Ec & _). by exists Q', (cqe_at (cq (s_io (me w0))) 0), Q''.
Qed.

(** One turn of [run] or [shutdown] is one turn of the pool. *)
Lemma turn_refines w Q w1 w2 :
  inv w -> armable w -> simulates w Q -> drain w = (Normal tt, w1) -> reap w1 = (Normal tt, w2) ->
  exists Q', pturn Q Q' /\ simulates w2 Q'.
Proof.
  intros Hinv Ha Hs Hd Hr.
  pose proof (drain_tracks (fun _ => True) w Q Hinv Ha Hs ltac:(done) ltac:(done)) as Ht. unfold wp in Ht. rewrite Hd in Ht.
  destruct Ht as ((Hinv1 & _) & Hn & _). destruct (Hn eq_refl) as (Q1 & Q2 & (_ & _ & _ & _ & _ & _ & Hk) & Hdel & Hs1 & _).
  cbn [fst snd] in *. rewrite (reap_eq known nw timed _ w1 (proj1 Hinv1)) in Hr. injection Hr as <-.
  exists (preap Q2). split; [by exists Q1, Q2|]. by apply reap_refines.
Qed.
End Loop.
