(* ===== verification/Execution.v ===== *)
(** * Execution: the pieces of an execution refine those of the specification

    A scheduler that has just been constructed stands for a pool that has just
    started; what other threads do to its mailbox, [spawn] and the beginning of
    [shutdown] have their counterparts on pools.  And what the specification
    does not have cannot be left over in the code: a scheduler without tasks
    owns no frame and no awaitable. *)
From stdpp Require Import prelude list gmap.
From Stdlib Require Import ZArith Lia Wf_nat.
From S2P Require Import Prelude ErrorCodes Ring Operations Awaitable Task Machine Kernel Scheduler Heap Safety EventLoop Follows Wakeup Process Chains Refine RefineLoop.

Section Execution.
Context {U K : Type} `{HKS : KernelSpec K}.
#[local] Abbreviation W := (world U K).
Context (known : nat -> Prop) (nw : nat) (timed : bool).
#[local] Abbreviation good := (good (U:=U) known nw timed).
#[local] Abbreviation good_fn := (good_fn (U:=U) known nw timed).
#[local] Abbreviation ok := (ok (U:=U) (K:=K) known nw timed).
#[local] Abbreviation inv := (inv (U:=U) (K:=K) known nw timed).
#[local] Abbreviation shared_ok := (shared_ok (U:=U) known nw timed).
#[local] Abbreviation started := (started (U:=U) (K:=K) known nw timed).
Implicit Types (w : W) (Q : pool U).

(** ** Mailboxes and the start of the specification *)

Definition p_box Q : option (mailbox U) := boxes (p_shared Q) !! p_id Q.

Definition set_p_box (b : mailbox U) Q : pool U :=
  with_shared (with_boxes (<[p_id Q := b]> (boxes (p_shared Q))) (p_shared Q)) Q.

Definition pstarted Q : Prop :=
  p_armed Q = false /\ p_down Q = false /\ p_staged Q = [] /\ p_flight Q = [] /\ p_ready Q = [] /\
  p_waiting Q = ∅ /\ p_next Q = 0%nat /\ p_done Q = 0%nat /\
  known (p_id Q) /\ p_box Q = Some (mkBox [] 0) /\ shared_ok (p_shared Q).

(** ** Refinement *)

Lemma started_refines w : started w -> exists Q, pstarted Q /\ simulates w Q.
Proof.
  intros (id & io & efd & grow & box & Hc & Hbox & Hio & Hsq & Hcq & Hfl & Hkn & Hgrow & Hsh).
  unfold Scheduler_ctor in Hc. destruct (efd 0 EFD_FLAGS <? 0); [done|]. injection Hc as Hme <-.
  unfold own_box in Hbox. rewrite <- Hme in Hbox. cbn in Hbox.
  exists (mkPool id (efd 0 EFD_FLAGS) (sq_entries (sq io)) false false [] [] [] ∅ 0 0 (sh w)). split; [by split_and!|].
  split; [split; rewrite <- ?Hme; cbn; congruence|]. split; rewrite <- Hme; cbn; try done.
  - intros a k. rewrite lookup_empty. split; [done|]. intros (h & f & k' & c & Hf & _). by rewrite lookup_empty in Hf.
  - intros a. rewrite lookup_empty. by intros [].
Qed.

Lemma p_box_own w Q : simulates w Q -> p_box Q = own_box w.
Proof. intros Hs. unfold p_box, own_box. by rewrite (sf_id _ _ (proj1 Hs)), (sf_shared _ _ (proj1 Hs)). Qed.

Lemma set_box_refines w Q b : simulates w Q -> simulates (set_box (s_id (me w)) b w) (set_p_box b Q).
Proof.
  intros Hs. unfold set_box, set_p_box. rewrite (sf_id _ _ (proj1 Hs)), (sf_shared _ _ (proj1 Hs)). by apply sim_shared.
Qed.

Lemma armable_refines w Q : simulates w Q -> armable w -> p_armed Q = true \/ p_full Q = false.
Proof.
  intros Hs [Ha|Hroom]; [left; by rewrite (sf_armed _ _ (proj1 Hs))|right].
  rewrite (full_iff _ _ w Q Hs). by apply Z.leb_gt.
Qed.

Lemma spawn_refines w Q t e w1 :
  inv w -> simulates w Q -> first_ok t -> good t -> spawn_temporary t (fun h => run t h) w = (Normal e, w1) ->
  exists Q', pspawn (denote t) Q = (Normal e, Q') /\ simulates w1 Q'.
Proof.
  intros [Hok Htl] Hs Hfirst Hg E. assert (Hcalm : calm w) by (intros E'; congruence).
  pose proof (spawn_temporary_sim known nw timed _ _ _ t w Q (run_safe _ _ _ t Hg) (run_simulates _ _ _ t Hg)
    Hfirst Hg Hok Hcalm Hs) as Hsim.
  unfold wp in Hsim. rewrite E in Hsim. by apply Hsim.
Qed.

Lemma closing_refines w Q :
  simulates w Q -> simulates (upd (set_shutting_down true) w) (with_flags (p_armed Q) true Q).
Proof.
  intros Hs. eapply simulates_fields; [exact Hs| |done..].
  destruct (proj1 Hs) as [Eid Eefd Eent Earm Edown Est Efl Erd Enx Esh]. by split.
Qed.

(** ** Nothing is left over *)

(** Below a frame that waits there is one that waits for an operation. *)
Lemma leaf_exists base w Q : ok base w -> simulates w Q -> forall h f,
  frames (me w) !! h = Some f -> ~ quiet (susp f) -> exists j a, waits_op (frames (me w)) j a.
Proof.
  intros Hok [_ Hp] h. pose proof (heap_of _ _ _ _ _ Hok) as Hk.
  induction (well_founded_ltof _ (fun h => (next_frame (me w) - h)%nat) h) as [h _ IH].
  unfold ltof in IH. intros f Hf Hq.
  destruct (susp f) as [|a k|c k| |] eqn:E; cbn in Hq; try tauto; [by exists h, a, f, k|].
  assert (Hc : continues (frames (me w)) c h) by (apply (hk_chain _ _ _ _ _ _ Hk); by exists f, k).
  pose proof (hk_order _ _ _ _ _ _ Hk h c Hc) as Hlt. destruct Hc as (g & Hg & Ec).
  pose proof (hk_frame_old _ _ _ _ _ _ Hk c ltac:(eauto)).
  apply (IH c ltac:(lia) g Hg). destruct (sp_rest _ _ _ _ _ Hp c g Hg) as [|[_ Ec']]; [set_solver|done|congruence].
Qed.

(** The scheduler's task list is empty exactly when the pool is. *)
Lemma tasks_nil_iff base w Q :
  ok base w -> simulates w Q -> tasks_ (me w) = [] <-> p_waiting Q = ∅ /\ p_done Q = 0%nat.
Proof.
  intros Hok Hs. pose proof (heap_of _ _ _ _ _ Hok) as Hk. pose proof Hs as [_ Hp]. split.
  - intros Hnil. split; [|rewrite (sp_done _ _ _ _ _ Hp); unfold done_tasks; by rewrite Hnil].
    assert (Hno : forall h, frames (me w) !! h = None).
    { intros h. induction (lt_wf h) as [h _ IH]. destruct (frames (me w) !! h) as [f|] eqn:Hf; [|done].
      destruct (continuation (promise f)) as [q|] eqn:E.
      - assert (Hc : continues (frames (me w)) h q) by (by exists f).
        pose proof (hk_order _ _ _ _ _ _ Hk q h Hc) as Hlt.
        apply (hk_chain _ _ _ _ _ _ Hk) in Hc as (g & k & Hg & _). rewrite (IH q Hlt) in Hg. done.
      - pose proof (sp_owned _ _ _ _ _ Hp h f Hf E) as Hin. rewrite Hnil in Hin. set_solver. }
    apply map_empty. intros a. destruct (p_waiting Q !! a) as [k|] eqn:E; [|done].
    apply (sp_waiting _ _ _ _ _ Hp) in E as (h & f & k' & c & Hf & _). by rewrite Hno in Hf.
  - intros [Hw Hd]. destruct (tasks_ (me w)) as [|h ts] eqn:Ets; [done|]. exfalso.
    assert (Hin : h ∈ tasks_ (me w)) by (rewrite Ets; by apply elem_of_cons; left).
    rewrite <- Ets in Hk. destruct (hk_task_frames _ _ _ _ _ _ Hk h Hin) as [[f Hf] _].
    destruct (sp_rest _ _ _ _ _ Hp h f Hf) as [Hq|[Hfin Hc]]; [set_solver| |].
    + destruct (leaf_exists base w Q Hok Hs h f Hf Hq) as (j & a & g & k & Hg & Hsg).
      destruct (rest_exists _ _ _ _ _ _ Hk j) as [c Hr]; [by eexists|].
      assert (Hwait : p_waiting Q !! a = Some (fun z => inline (k z) c))
        by (apply (sp_waiting _ _ _ _ _ Hp); by exists j, g, k, c).
      by rewrite Hw, lookup_empty in Hwait.
    + rewrite (sp_done _ _ _ _ _ Hp) in Hd. apply nil_length_inv in Hd.
      assert (Hx : h ∈ done_tasks ∅ (me w)).
      { apply list_elem_of_filter. split_and!; [|set_solver|done]. unfold is_done, handle_done. by rewrite Hf, Hfin. }
      rewrite Hd in Hx. set_solver.
Qed.

Lemma nothing_left base w Q :
  ok base w -> simulates w Q -> tasks_ (me w) = [] ->
  frames (me w) = ∅ /\ awts (me w) = ∅ /\ forall a, AddrAwaitable a ∉ outstanding base (me w).
Proof.
  intros Hok Hs Hnil. pose proof (heap_of _ _ _ _ _ Hok) as Hk. pose proof Hs as [_ Hp].
  destruct (proj1 (tasks_nil_iff base w Q Hok Hs) Hnil) as [Hw _].
  assert (Hno : forall h a, ~ waits_op (frames (me w)) h a).
  { intros h a (f & k & Hf & E). destruct (rest_exists _ _ _ _ _ _ Hk h) as [c Hr]; [by eexists|].
    assert (Hx : p_waiting Q !! a = Some (fun z => inline (k z) c))
      by (apply (sp_waiting _ _ _ _ _ Hp); by exists h, f, k, c).
    by rewrite Hw, lookup_empty in Hx. }
  split_and!.
  - apply map_empty. intros h. destruct (frames (me w) !! h) as [f|] eqn:Hf; [|done].
    destruct (sp_rest _ _ _ _ _ Hp h f Hf) as [Hq|[Hfin Hc]]; [set_solver| |].
    + destruct (leaf_exists base w Q Hok Hs h f Hf Hq) as (j & a & Hj). by apply Hno in Hj.
    + pose proof (sp_owned _ _ _ _ _ Hp h f Hf Hc) as Hin. rewrite Hnil in Hin. set_solver.
  - apply map_empty. intros a. destruct (awts (me w) !! a) eqn:E; [|done].
    destruct (sp_awts _ _ _ _ _ Hp a) as [h Hh]; [by eexists|]. by apply Hno in Hh.
  - intros a [h Hh]%(hk_live _ _ _ _ _ _ Hk). by apply Hno in Hh.
Qed.

(** Awaitables alive are exactly the operations some process waits for. *)
Lemma awts_waiting base w Q a :
  ok base w -> simulates w Q -> is_Some (awts (me w) !! a) <-> is_Some (p_waiting Q !! a).
Proof.
  intros Hok Hs. pose proof (heap_of _ _ _ _ _ Hok) as Hk. pose proof Hs as [_ Hp]. split.
  - intros [h (f & k & Hf & E)]%(sp_awts _ _ _ _ _ Hp).
    destruct (rest_exists _ _ _ _ _ _ Hk h) as [c Hr]; [by eexists|].
    exists (fun z => inline (k z) c). apply (sp_waiting _ _ _ _ _ Hp). by exists h, f, k, c.
  - intros [k (h & f & k' & c & Hf & E & _)%(sp_waiting _ _ _ _ _ Hp)].
    destruct (hk_handle _ _ _ _ _ _ Hk h a) as (x & Hx & _); [by exists f, k'|by eexists].
Qed.
End Execution.
