(* ===== verification/Stepwise.v ===== *)
(** * Stepwise: the interleaved loop refines the specification step by step

    Execution relates whole turns of the loop to turns of a [pool].  Here the
    turn of the pool is cut where Interleave cuts the code, without ring
    indices: a position says how many completions are left to handle and which
    callables have been taken out of the inbox.  Every step of the code is one
    of these steps, whatever others did in between. *)
From stdpp Require Import prelude list gmap.
From Stdlib Require Import ZArith Lia.
From S2P Require Import Prelude ErrorCodes Ring Operations Awaitable Task Machine Kernel Scheduler Heap Safety EventLoop Follows Wakeup Interleave Process Chains Refine RefineLoop Execution.

(** ** The specification *)

Section Spec.
Context {U : Type}.
Implicit Types (Q : pool U).

(** Where the loop of a pool is; [n] completions are left to handle. *)
Inductive ppos : Type :=
| PTop | PEnter | PLoad
| PHandle (n : nat)
| PInbox (local : list (callable U)) (n : nat)
| PRequeue (task : callable U) (local : list (callable U)) (n : nat)
| PPoke (local : list (callable U)) (n : nat)
| PReap.

(** The first completion has been handled. *)
Definition popped (l : list io_uring_cqe) Q : pool U := with_queues (p_staged Q) (p_flight Q) l Q.

Inductive pstep : ppos -> pool U -> outcome exn ppos -> pool U -> Prop :=
| ps_top Q : pstep PTop Q (Normal PEnter) (parm Q)
| ps_enter Q Q' : pkernel (Z.of_nat (length (p_staged Q))) Q Q' -> pstep PEnter Q (Normal PLoad) Q'
| ps_load Q : pstep PLoad Q (Normal (PHandle (length (p_ready Q)))) Q
| ps_handled Q : pstep (PHandle 0) Q (Normal PReap) Q
| ps_work Q c l n box :
    p_ready Q = c :: l -> cqe_user_data c = AddrEventfdBuf -> p_box Q = Some box ->
    pstep (PHandle (S n)) Q (Normal (PInbox (inbox_ box) n)) (set_p_box (mkBox [] (efd_counter box)) (with_flags false (p_down Q) Q))
| ps_complete Q c l n Q' :
    p_ready Q = c :: l -> cqe_user_data c <> AddrEventfdBuf -> pcomplete c Q = (Normal tt, Q') ->
    pstep (PHandle (S n)) Q (Normal (PHandle n)) (popped l Q')
| ps_complete_throw Q c l n e Q' :
    p_ready Q = c :: l -> cqe_user_data c <> AddrEventfdBuf -> pcomplete c Q = (Throw e, Q') ->
    pstep (PHandle (S n)) Q (Throw e) Q'
| ps_inbox_end Q c l n : p_ready Q = c :: l -> pstep (PInbox [] n) Q (Normal (PHandle n)) (popped l Q)
| ps_item Q f l n Q' : pinvoke f Q = (Normal tt, Q') -> pstep (PInbox (f :: l) n) Q (Normal (PInbox l n)) Q'
| ps_item_full Q f l n Q' :
    pinvoke f Q = (Throw (IOException SQFull), Q') -> pstep (PInbox (f :: l) n) Q (Normal (PRequeue f l n)) Q'
| ps_item_drop Q f l n st Q' :
    pinvoke f Q = (Throw (IOException st), Q') -> st <> SQFull -> pstep (PInbox (f :: l) n) Q (Normal (PInbox l n)) Q'
| ps_item_throw Q f l n tag Q' :
    pinvoke f Q = (Throw (OtherException tag), Q') -> pstep (PInbox (f :: l) n) Q (Throw (OtherException tag)) Q'
| ps_requeue Q f l n box :
    p_box Q = Some box ->
    pstep (PRequeue f l n) Q (Normal (PPoke l n)) (set_p_box (mkBox (inbox_ box ++ [f]) (efd_counter box)) Q)
| ps_poke Q l n box :
    p_box Q = Some box ->
    pstep (PPoke l n) Q (Normal (PInbox l n)) (set_p_box (mkBox (inbox_ box) (poked (efd_counter box))) Q)
| ps_reap Q : pstep PReap Q (Normal PTop) (preap Q).

(** The position of the code. *)
Definition to_handle (cu : cursor) : nat := Z.to_nat (tail cu -u32 current cu).
Definition position (c : pc U) : ppos :=
  match c with
  | AtTop => PTop
  | AtEnter => PEnter
  | AtLoad => PLoad
  | AtCqe cu => PHandle (to_handle cu)
  | AtInbox l cu => PInbox l (pred (to_handle cu))
  | AtRequeue f l cu => PRequeue f l (pred (to_handle cu))
  | AtPoke l cu => PPoke l (pred (to_handle cu))
  | AtReap => PReap
  end.
Definition opos (o : outcome exn (pc U)) : outcome exn ppos :=
  match o with Normal c => Normal (position c) | Throw e => Throw e | Stuck r => Stuck r end.
(** ** Whole turns of the specification

    What runs inside a turn leaves the flag of [shutdown] and the ready
    completions alone. *)

Definition unmoved Q Q' : Prop := p_down Q' = p_down Q /\ p_ready Q' = p_ready Q.

Lemma prun_unmoved p : forall Q, unmoved Q (snd (prun p Q)).
Proof.
  induction p as [r|f k IH|o t k IH|t IHt k IH|dst f k IH]; intros Q; cbn; unfold mbind, exec_bind, gets, try, p_finish, modify; [done|..].
  - unfold p_user. destruct (f (user (p_shared Q))) as [u z]. apply (IH z (with_shared _ Q)).
  - unfold p_await. destruct (_ <? _); [apply (IH 0 (with_waiting _ _ Q))|done].
  - destruct (p_full Q); [apply IH|]. specialize (IHt Q). destruct (prun t Q) as [[[]| |] Q1]; cbn in IHt; cbn; try done.
    + destruct (IH None (with_done (S (p_done Q1)) Q1)), IHt. split; etrans; eassumption.
    + destruct (IH None Q1), IHt. split; etrans; eassumption.
  - unfold p_post. destruct (post_shared dst f (p_shared Q)) as [[[]| |] s]; cbn; try done; apply (IH _ (with_shared s Q)).
Qed.

Lemma pinvoke_unmoved f : forall Q, unmoved Q (snd (pinvoke f Q)).
Proof.
  induction f as [|e|g k IH|t k IH|dst f IHf k IH|job IH]; intros Q; cbn; unfold mbind, exec_bind, gets, try, modify; [done|done|..].
  - unfold p_user. destruct (g (user (p_shared Q))) as [u z]. apply (IH z (with_shared _ Q)).
  - unfold pspawn, p_finish, mbind, exec_bind, gets, modify. destruct (p_full Q); [apply IH|].
    pose proof (prun_unmoved (denote t) Q) as Ht. destruct (prun (denote t) Q) as [[[]| |] Q1]; cbn in Ht; cbn; try done.
    + destruct (IH None (with_done (S (p_done Q1)) Q1)), Ht. split; etrans; eassumption.
    + destruct (IH None Q1), Ht. split; etrans; eassumption.
  - unfold p_post. destruct (post_shared dst f (p_shared Q)) as [[[]| |] s]; cbn; try done; apply (IH _ (with_shared s Q)).
  - destruct (workers (p_shared Q)); [done|]. unfold p_post. by destruct (post_shared _ _ _) as [[] ?].
Qed.

Lemma pinvoke_to f Q o Q' : pinvoke f Q = (o, Q') -> unmoved Q Q'.
Proof. intros E. pose proof (pinvoke_unmoved f Q) as H. by rewrite E in H. Qed.

Lemma pcomplete_to c Q o Q' : cqe_user_data c <> AddrEventfdBuf -> pcomplete c Q = (o, Q') -> unmoved Q Q'.
Proof.
  intros Hne E. apply (f_equal snd) in E. cbn in E. subst Q'. unfold pcomplete.
  destruct (cqe_user_data c) as [z|a| | |]; [by destruct z| |done|done|done].
  unfold mbind, exec_bind, demand, modify, p_finish. destruct (p_waiting Q !! a) as [k|]; [|done].
  set (Q1 := with_waiting _ _ Q). pose proof (prun_unmoved (k (res c)) Q1) as Hd. destruct (prun _ Q1) as [[[]| |] Q2]; by cbn in *.
Qed.

(** A step that does not throw. *)
Definition pmoves (x y : ppos * pool U) : Prop := pstep (fst x) (snd x) (Normal (fst y)) (snd y).

(** Putting a callable back and announcing it is the requeue and the poke. *)
Lemma requeue_steps f l n Q Q' :
  snd (p_post (p_id Q) f Q) = Q' -> is_Some (p_box Q) -> rtc pmoves (PRequeue f l n, Q) (PInbox l n, Q').
Proof.
  intros <- [box Hb]. set (b := mkBox (inbox_ box ++ [f]) (efd_counter box)).
  assert (Hb' : p_box (set_p_box b Q) = Some b) by apply lookup_insert_eq.
  eapply (rtc_l _ _ (PPoke l n, set_p_box b Q)); [by apply (ps_requeue Q f l n box)|]. apply rtc_once. unfold pmoves. cbn [fst snd].
  replace (snd (p_post (p_id Q) f Q)) with (set_p_box (mkBox (inbox_ b) (poked (efd_counter b))) (set_p_box b Q)); [by apply ps_poke|].
  unfold p_post, post_shared, poked. unfold p_box in Hb. rewrite Hb. unfold set_p_box, with_shared, with_boxes. cbn. rewrite insert_insert_eq.
  by destruct (EFD_MAX <? efd_counter box + 1).
Qed.

Lemma pitem_steps f l n Q Q' : pitem f Q = (Normal tt, Q') -> rtc pmoves (PInbox (f :: l) n, Q) (PInbox l n, Q') /\ unmoved Q Q'.
Proof.
  unfold pitem, mbind, exec_bind, try, gets. destruct (pinvoke f Q) as [[[]|[st|tag]|r] Q1] eqn:E; cbn; try done.
  - intros [= <-]. split; [apply rtc_once; by apply ps_item|by eapply pinvoke_to].
  - pose proof (pinvoke_to _ _ _ _ E) as Hu. case_decide as Hst.
    + subst st. assert (Hp : forall o s, post_shared (p_id Q1) f (p_shared Q1) = (o, s) -> (forall r, o <> Stuck r) -> is_Some (p_box Q1)).
      { unfold post_shared, p_box. destruct (boxes (p_shared Q1) !! p_id Q1); [done|]. intros o s [= <- <-] Ho. by destruct (Ho UseAfterFree). }
      pose proof (requeue_steps f l n Q1 _ eq_refl) as Hq. unfold p_post in *.
      destruct (post_shared (p_id Q1) f (p_shared Q1)) as [[[]|e|r] s]; cbn; try done; intros [= <-].
      all: (split; [|done]); eapply (rtc_l _ _ (PRequeue f l n, Q1)); [by apply ps_item_full|].
      all: apply Hq; by eapply Hp.
    + intros [= <-]. split; [apply rtc_once; by eapply ps_item_drop|done].
Qed.

Lemma pitems_steps l n : forall Q Q', pitems l Q = (Normal tt, Q') -> rtc pmoves (PInbox l n, Q) (PInbox [] n, Q') /\ unmoved Q Q'.
Proof.
  induction l as [|f l IH]; intros Q Q'; cbn; [by intros [= <-]|]. unfold mbind, exec_bind.
  destruct (pitem f Q) as [[[]| |] Q1] eqn:E1; cbn; try done. intros E2.
  destruct (pitem_steps f l n Q Q1 E1) as [H1 [U1 V1]], (IH Q1 Q' E2) as [H2 [U2 V2]].
  split; [by etrans|]. split; congruence.
Qed.

Lemma pdeliver_steps l : forall Q Q',
  p_ready Q = l -> pdeliver l Q = (Normal tt, Q') -> rtc pmoves (PHandle (length l), Q) (PHandle 0, Q').
Proof.
  induction l as [|c l IH]; intros Q Q' Hl; cbn; [by intros [= <-]|]. unfold mbind, exec_bind, modify.
  destruct (pcomplete c Q) as [[[]| |] Q1] eqn:E1; cbn; try done. intros E2. etrans; [|by eapply IH; [|exact E2]].
  destruct (decide (cqe_user_data c = AddrEventfdBuf)) as [Hc|Hc]; [|apply rtc_once; by eapply ps_complete].
  unfold pcomplete in E1. rewrite Hc in E1. unfold pinbox, mbind, exec_bind, modify, gets, demand in E1. cbn in E1.
  destruct (boxes (p_shared Q) !! p_id Q) as [box|] eqn:Hb; [|done].
  eapply (rtc_l _ _ (PInbox (inbox_ box) (length l), set_p_box (mkBox [] (efd_counter box)) (with_flags false (p_down Q) Q)));
    [by eapply (ps_work Q c l (length l) box)|].
  destruct (pitems_steps _ (length l) _ _ E1) as [Hs [_ Hu]]. eapply rtc_r; [exact Hs|]. eapply ps_inbox_end. by rewrite Hu.
Qed.

(** A turn of the specification is a run of its steps: cutting it changes
    nothing when nobody interferes. *)
Theorem pturn_steps Q Q' : pturn Q Q' -> rtc pmoves (PTop, Q) (PTop, Q').
Proof.
  intros (Q1 & Q2 & Hk & Hd & ->).
  eapply (rtc_l _ _ (PEnter, parm Q)); [apply ps_top|]. eapply (rtc_l _ _ (PLoad, Q1)); [by apply ps_enter|].
  eapply (rtc_l _ _ (PHandle (length (p_ready Q1)), Q1)); [apply ps_load|]. etrans; [by apply pdeliver_steps|].
  eapply (rtc_l _ _ (PReap, Q2)); [apply ps_handled|]. apply rtc_once, ps_reap.
Qed.
End Spec.
Arguments ppos : clear implicits.

(** ** The simulation *)

Section Stepwise.
Context {U K : Type} `{HKS : KernelSpec K}.
#[local] Abbreviation W := (world U K).
Context (known : nat -> Prop) (nw : nat) (timed : bool).
#[local] Abbreviation good := (good (U:=U) known nw timed).
#[local] Abbreviation good_fn := (good_fn (U:=U) known nw timed).
#[local] Abbreviation inv := (inv (U:=U) (K:=K) known nw timed).
#[local] Abbreviation finv := (finv (U:=U) (K:=K) known nw timed).
#[local] Abbreviation shared_ok := (shared_ok (U:=U) known nw timed).
#[local] Abbreviation freach := (freach (U:=U) (K:=K) known nw timed).
Implicit Types (w : W) (Q : pool U) (c : pc U).

(** One step of the code from [c] is one step of the specification. *)
Definition stepwise c w Q : Prop :=
  forall o w', loop_step c w = (o, w') -> (forall r, o <> Stuck r) ->
  exists Q', pstep (position c) Q (opos o) Q' /\ simulates w' Q'.

Lemma simulates_advance w Q :
  simulates w Q -> simulates (upd advance_cq w) (popped (cq_ready (cq (s_io (advance_cq (me w))))) Q).
Proof. intros Hs. eapply simulates_fields; [exact Hs| |done..]. by destruct (proj1 Hs). Qed.

(** The first completion ready, and what is left after it. *)
Lemma ready_head w Q :
  simulates w Q -> 0 < cq_count (cq (s_io (me w))) ->
  p_ready Q = cqe_at (cq (s_io (me w))) 0 :: cq_ready (cq (s_io (advance_cq (me w)))).
Proof. intros Hs Hpos. rewrite (sf_ready _ _ (proj1 Hs)). by apply cq_advance_ready. Qed.

Lemma to_handle_next cu w :
  cursor_ok 1 cu w -> to_handle (mkCursor (current cu +u32 1) (tail cu) (mask cu)) = pred (to_handle cu) /\
  to_handle cu = S (pred (to_handle cu)).
Proof.
  intros [_ _ _ Hl _]. unfold to_handle. cbn. rewrite u32_distance_sub by lia. lia.
Qed.

Lemma top_stepwise w Q : finv AtTop w -> armable w -> simulates w Q -> stepwise AtTop w Q.
Proof.
  intros Hi Ha Hs o w' E _. rewrite top_eq in E. injection E as <- <-. exists (parm Q). split; [apply ps_top|].
  apply (arm_refines known nw timed); [by apply (finv_inv known nw timed AtTop)|done|done].
Qed.

Lemma enter_stepwise w Q : finv AtEnter w -> simulates w Q -> stepwise AtEnter w Q.
Proof.
  intros Hi Hs o w' E Ho. pose proof (finv_inv known nw timed _ _ Hi eq_refl) as Hinv.
  destruct (enter_cases known nw timed (if shutting_down_ (me w) then 0 else 1) IORING_ENTER_GETEVENTS w Hinv)
    as (box & Hbox & [(E' & _)|(k' & io' & z' & E' & _ & He)]).
  all: cbn in E; unfold mbind, exec_bind, gets in E; unfold sq_count in E'; rewrite E' in E; injection E as <- <-.
  - by destruct (Ho KernelBlocks).
  - destruct (kernel_refines _ w Q box k' io' z' Hs Hbox He) as (Q' & Hk & Hs'). exists Q'. split; [|done]. apply ps_enter.
    by rewrite (sf_staged _ _ (proj1 Hs)), length_sq_pending.
Qed.

Lemma load_stepwise w Q : simulates w Q -> stepwise AtLoad w Q.
Proof.
  intros Hs o w' E _. cbn in E. injection E as <- <-. exists Q. split; [|done].
  assert (En : to_handle (mkCursor (cq_head (cq (s_io (me w)))) (cq_tail (cq (s_io (me w)))) (cq_mask (cq (s_io (me w))))) = length (p_ready Q)).
  { rewrite (sf_ready _ _ (proj1 Hs)). unfold to_handle. cbn. pose proof (length_cq_ready (cq (s_io (me w)))) as El.
    unfold cq_count in El. lia. }
  cbn [opos position]. rewrite En. apply ps_load.
Qed.

Lemma cqe_stepwise cu w Q : finv (AtCqe cu) w -> simulates w Q -> stepwise (AtCqe cu) w Q.
Proof.
  intros Hi Hs o w' E Ho. pose proof (finv_inv known nw timed _ _ Hi eq_refl) as Hinv. cbn [loop_step] in E.
  destruct (current cu =? tail cu) eqn:Et.
  { injection E as <- <-. exists Q. split; [|done]. apply Z.eqb_eq in Et. cbn. unfold to_handle. rewrite Et, Z.sub_diag. apply ps_handled. }
  destruct (cursor_cqe known nw timed w cu Hinv (fi_pc _ _ _ _ _ Hi) Et) as (Hpos & Hcu & Hl).
  destruct (to_handle_next cu w Hcu) as [En Es]. pose proof (ready_head w Q Hs Hpos) as Hrd.
  destruct (head_tracks known nw timed w Q Hinv Hs Hpos) as [_ Htr].
  unfold mbind at 1, exec_bind at 1, demand in E. rewrite Hl in E. set (cqe := cqe_at (cq (s_io (me w))) 0) in *.
  unfold handle_cqe in Htr. cbn [position]. rewrite Es. case_decide as He.
  - destruct (own_box_ok known nw timed w _ (proj1 Hinv)) as (box & Hbox & _).
    unfold mbind, exec_bind, on_me, modify in E. change (mkWorld (set_armed false (me w)) (sh w) (kern w)) with (upd (set_armed false) w) in E.
    rewrite (take_inbox_eq (upd (set_armed false) w) box Hbox) in E. injection E as <- <-.
    eexists. split; [eapply ps_work; [exact Hrd|done|by rewrite (p_box_own w Q Hs)]|].
    assert (Hs' : simulates (upd (set_armed false) w) (with_flags false (p_down Q) Q)).
    { destruct Hs as [[] Hp]. split; [done|]. by eapply procs_ext. }
    exact (set_box_refines _ _ (mkBox [] (efd_counter box)) Hs').
  - unfold tracks, wp in Htr. pose proof (cqe_turn_safe known nw timed _ w Hinv Hpos eq_refl) as Hsafe.
    unfold handle_cqe in Hsafe. rewrite decide_False in Hsafe by done. unfold mbind, exec_bind, wp in E, Hsafe. fold cqe in Hsafe.
    destruct (resume_awaitable (cqe_user_data cqe) (res cqe) w) as [[[]|e|r] w1]; destruct Htr as (Q1 & Ec & Hs1); cbn in Ec, Hs1.
    + destruct Hsafe as (_ & (Hq & _) & _). cbn [fst snd] in Hq. rewrite next_cqe_eq in E by (rewrite Hq; apply Hcu).
      injection E as <- <-. eexists. split; [cbn [opos position]; rewrite En; eapply ps_complete; [exact Hrd|done|exact Ec]|].
      assert (Eq : cq_ready (cq (s_io (advance_cq (me w)))) = cq_ready (cq (s_io (advance_cq (me w1)))))
        by (unfold advance_cq; cbn; by rewrite Hq).
      rewrite Eq. by apply simulates_advance.
    + injection E as <- <-. exists Q1. split; [by eapply ps_complete_throw|done].
    + injection E as <- _. by destruct (Ho r).
Qed.

Lemma inbox_stepwise l cu w Q : finv (AtInbox l cu) w -> simulates w Q -> stepwise (AtInbox l cu) w Q.
Proof.
  intros [Hok Htl [Hcu Hg]] Hs o w' E Ho. destruct (to_handle_next cu w Hcu) as [En Es]. destruct l as [|f l].
  - cbn [loop_step] in E. rewrite next_cqe_eq in E by apply Hcu. injection E as <- <-.
    assert (Hpos : 0 < cq_count (cq (s_io (me w)))) by (destruct Hcu; lia).
    eexists. split; [cbn [opos position]; rewrite En; eapply ps_inbox_end; by apply (ready_head w Q)|by apply simulates_advance].
  - apply Forall_cons in Hg as [Hf _]. pose proof (invoke_tracks known nw timed f Hf _ w Q Hok Htl Hs) as Htr.
    cbn in E. unfold mbind, exec_bind, try in E. unfold tracks, wp in Htr.
    destruct (invoke f w) as [[[]|[st|tag]|r] w1]; destruct Htr as (Q1 & Ei & Hs1); cbn in Ei, Hs1.
    + injection E as <- <-. exists Q1. split; [by apply ps_item|done].
    + case_decide as Hst; [subst st|]; injection E as <- <-; exists Q1; (split; [|done]);
        [by apply ps_item_full|by eapply ps_item_drop].
    + injection E as <- <-. exists Q1. split; [by apply ps_item_throw|done].
    + injection E as <- _. by destruct (Ho r).
Qed.

Lemma requeue_stepwise f l cu w Q : finv (AtRequeue f l cu) w -> simulates w Q -> stepwise (AtRequeue f l cu) w Q.
Proof.
  intros Hi Hs o w' E _. destruct (own_box_ok known nw timed w _ (fi_ok _ _ _ _ _ Hi)) as (box & Hbox & _).
  cbn in E. unfold inbox_push, mbind, exec_bind, gets, demand, on_shared, modify in E. pose proof Hbox as Hb. unfold own_box in Hbox.
  rewrite Hbox in E. injection E as <- <-. eexists. split; [apply ps_requeue; by rewrite (p_box_own w Q Hs)|].
  by apply (set_box_refines w Q).
Qed.

Lemma poke_stepwise l cu w Q : finv (AtPoke l cu) w -> simulates w Q -> stepwise (AtPoke l cu) w Q.
Proof.
  intros Hi Hs o w' E _. destruct (own_box_ok known nw timed w _ (fi_ok _ _ _ _ _ Hi)) as (box & Hbox & _).
  pose proof (wake_on_stop_eq w box Hbox) as Ew. unfold wake_on_stop in Ew. cbn in E. unfold mbind, exec_bind, gets in Ew, E.
  destruct (eventfd_write (s_id (me w)) 1 w) as [[] w1]; try done. injection Ew as ->. injection E as <- <-.
  eexists. split; [apply ps_poke; by rewrite (p_box_own w Q Hs)|by apply (set_box_refines w Q)].
Qed.

Lemma reap_stepwise w Q : finv AtReap w -> simulates w Q -> stepwise AtReap w Q.
Proof.
  intros Hi Hs o w' E _. pose proof (finv_inv known nw timed _ _ Hi eq_refl) as Hinv. cbn in E. unfold mbind, exec_bind in E.
  rewrite (reap_eq known nw timed _ w (proj1 Hinv)) in E. injection E as <- <-.
  exists (preap Q). split; [apply ps_reap|by apply (reap_refines known nw timed)].
Qed.

Lemma loop_stepwise c w Q : finv c w -> (c = AtTop -> armable w) -> simulates w Q -> stepwise c w Q.
Proof.
  intros Hi Ha Hs. destruct c as [| | |cu|l cu|f l cu|l cu|].
  - by apply top_stepwise; [|apply Ha|].
  - by apply enter_stepwise.
  - by apply load_stepwise.
  - by apply cqe_stepwise.
  - by apply inbox_stepwise.
  - by apply requeue_stepwise.
  - by apply poke_stepwise.
  - by apply reap_stepwise.
Qed.

(** ** Executions *)

(** What others do, at the level of pools. *)
Inductive pinterference : nat -> pool U -> nat -> pool U -> Prop :=
| pi_push p Q box f :
    p_box Q = Some box -> good_fn f -> pinterference p Q (S p) (set_p_box (mkBox (inbox_ box ++ [f]) (efd_counter box)) Q)
| pi_write p Q box :
    p_box Q = Some box -> pinterference (S p) Q p (set_p_box (mkBox (inbox_ box) (poked (efd_counter box))) Q)
| pi_wake p Q box :
    p_box Q = Some box -> pinterference p Q p (set_p_box (mkBox (inbox_ box) (poked (efd_counter box))) Q)
| pi_others p Q s b b' :
    shared_ok s -> p_box Q = Some b -> boxes s !! p_id Q = Some b' -> box_grows b b' -> pinterference p Q p (with_shared s Q)
| pi_kernel p Q Q' : pkernel 0 Q Q' -> pinterference p Q p Q'.

Inductive fpreach : nat -> ppos U -> pool U -> Prop :=
| fp_start Q : pstarted known nw timed Q -> fpreach 0 PTop Q
| fp_loop p x Q x' Q' :
    fpreach p x Q -> (x = PTop -> p_armed Q = true \/ p_full Q = false) -> pstep x Q (Normal x') Q' -> fpreach p x' Q'
| fp_spawn p Q t e Q' :
    fpreach p PTop Q -> first_ok t -> good t -> pspawn (denote t) Q = (Normal e, Q') -> fpreach p PTop Q'
| fp_closing p Q : fpreach p PTop Q -> fpreach p PTop (with_flags (p_armed Q) true Q)
| fp_env p x Q p' Q' : fpreach p x Q -> pinterference p Q p' Q' -> fpreach p' x Q'.

Lemma interference_refines p w p' w' Q :
  simulates w Q -> interference known nw timed p w p' w' -> exists Q', pinterference p Q p' Q' /\ simulates w' Q'.
Proof.
  intros Hs. destruct 1 as [p w box f Hb Hf|p w box Hb|p w box Hb|p w s' b b' Hsh Hb Hb' Hg|p w box k' io' z' Hb He].
  - eexists. split; [apply pi_push; [by rewrite (p_box_own w Q Hs)|done]|by apply set_box_refines].
  - eexists. split; [apply pi_write; by rewrite (p_box_own w Q Hs)|by apply set_box_refines].
  - eexists. split; [apply pi_wake; by rewrite (p_box_own w Q Hs)|by apply set_box_refines].
  - exists (with_shared s' Q). split; [|by apply sim_shared].
    eapply pi_others; [done|by rewrite (p_box_own w Q Hs)|by rewrite (sf_id _ _ (proj1 Hs))|done].
  - destruct (kernel_refines 0 w Q box k' io' z' Hs Hb He) as (Q' & Hk & Hs'). exists Q'. split; [by apply pi_kernel|done].
Qed.

Lemma freach_refines p c w : freach p c w -> exists Q, fpreach p (position c) Q /\ simulates w Q.
Proof.
  induction 1 as [w Hst|p c w c' w' Hr (Q & HQ & Hs) Ha E|p w t e w1 Hr (Q & HQ & Hs) Hf Hg E|p w _ (Q & HQ & Hs)
    |p c w p' w' _ (Q & HQ & Hs) He].
  - destruct (started_refines known nw timed w Hst) as (Q & HQ & Hs). exists Q. split; [by apply fp_start|done].
  - destruct (freach_inv known nw timed p c w Hr) as [Hi _].
    destruct (loop_stepwise c w Q Hi Ha Hs _ _ E) as (Q' & Hp & Hs'); [done|]. exists Q'. split; [|done].
    eapply fp_loop; [exact HQ| |exact Hp]. intros Ep. eapply armable_refines; [exact Hs|]. apply Ha. by destruct c.
  - destruct (freach_inv known nw timed p AtTop w Hr) as [Hi _]. apply (finv_inv known nw timed) in Hi; [|done].
    destruct (spawn_refines known nw timed w Q t e w1 Hi Hs Hf Hg E) as (Q' & E' & Hs'). exists Q'. split; [by eapply fp_spawn|done].
  - eexists. split; [by apply fp_closing|by apply closing_refines].
  - destruct (interference_refines p w p' w' Q Hs He) as (Q' & Hp & Hs'). exists Q'. split; [by eapply fp_env|done].
Qed.

(** *** The shutdown flag *)

Lemma pstep_down x Q o Q' : pstep x Q o Q' -> p_down Q' = p_down Q.
Proof.
  destruct 1 as [Q|Q Q' Hk|Q|Q|Q c l n box Hr Hc Hb|Q c l n Q' Hr Hc Hp|Q c l n e Q' Hr Hc Hp|Q c l n Hr|Q f l n Q' Hp|Q f l n Q' Hp
    |Q f l n st Q' Hp Hst|Q f l n tag Q' Hp|Q f l n box Hb|Q l n box Hb|Q]; try done.
  all: try (by apply pinvoke_to in Hp as [? _]).
  - unfold parm. by destruct (p_armed Q).
  - by destruct Hk as (box & m & done & flight & c' & _ & _ & _ & _ & _ & ->).
  - cbn. by apply pcomplete_to in Hp as [? _].
  - by apply pcomplete_to in Hp as [? _].
Qed.

(** A step of the loop leaves the flag alone. *)
Lemma loop_step_flag p c w c' w' :
  freach p c w -> (c = AtTop -> armable w) -> loop_step c w = (Normal c', w') -> shutting_down_ (me w') = shutting_down_ (me w).
Proof.
  intros Hr Ha E. destruct (freach_refines p c w Hr) as (Q & _ & Hs). destruct (freach_inv known nw timed p c w Hr) as [Hi _].
  destruct (loop_stepwise c w Q Hi Ha Hs _ _ E) as (Q' & Hp & Hs'); [done|].
  rewrite <- (sf_down _ _ (proj1 Hs)), <- (sf_down _ _ (proj1 Hs')). by eapply pstep_down.
Qed.

(** *** Theorem *)

(** C2: Every interleaved execution of [freach] is one of the specification:
    spawned tasks ask for at most one slot before they first suspend, deadlines
    and spawning coroutines do not occur together, [tasks_] can grow, and turns
    start [armable].  Wherever the loop thread is inside a turn, and whatever
    others did at every cut, there is a pool, reached by the same steps at the
    level of the specification, with the code's submission queue, kernel
    entries, completion queue, flags, mailboxes and user state; its outstanding
    operations are exactly the awaitables alive, and it is empty exactly when
    [tasks_] is.  And the next step of the code is a step of the specification
    from there, with the same outcome: a completion runs the process that waits
    for it, a callable is run, put back or dropped, an exception escapes,
    finished tasks are forgotten. *)
Theorem interleaved_refines p c w :
  freach p c w ->
  exists Q, fpreach p (position c) Q /\ simulates w Q /\
    p_staged Q = sq_pending (sq (s_io (me w))) /\ p_flight Q = k_inflight (kern w) /\
    p_ready Q = cq_ready (cq (s_io (me w))) /\ p_shared Q = sh w /\
    p_armed Q = eventfd_armed_ (me w) /\ p_down Q = shutting_down_ (me w) /\
    (forall a, is_Some (awts (me w) !! a) <-> is_Some (p_waiting Q !! a)) /\
    (tasks_ (me w) = [] <-> p_waiting Q = ∅ /\ p_done Q = 0%nat) /\
    ((c = AtTop -> armable w) -> forall o w', loop_step c w = (o, w') -> (forall r, o <> Stuck r) ->
       exists Q', pstep (position c) Q (opos o) Q' /\ simulates w' Q').
Proof.
  intros Hr. destruct (freach_refines p c w Hr) as (Q & HQ & Hs). destruct (freach_inv known nw timed p c w Hr) as [Hi _].
  exists Q. destruct (proj1 Hs) as [Eid Eefd Eent Earm Edown Est Efl Erd Enx Esh]. split_and!; try done.
  - intros a. eapply (awts_waiting known nw timed); [apply (fi_ok _ _ _ _ _ Hi)|done].
  - eapply (tasks_nil_iff known nw timed); [apply (fi_ok _ _ _ _ _ Hi)|done].
  - intros Ha. by apply loop_stepwise.
Qed.

(** A turn of the event loop is a turn of the specification.  Whatever pool a
    state at the top of the loop stands for, [drain] followed by [reap] takes it
    to a state that stands for the pool after one turn: the eventfd read armed,
    everything submitted, every ready completion handled once and in order by
    running the process that waits for it, finished tasks forgotten. *)
Theorem turn_refines_pool p w Q w1 w2 :
  freach p AtTop w -> armable w -> simulates w Q -> drain w = (Normal tt, w1) -> reap w1 = (Normal tt, w2) ->
  exists Q', pturn Q Q' /\ simulates w2 Q'.
Proof. intros Hr. apply (turn_refines known nw timed). by eapply (freach_top known nw timed). Qed.

(** Nothing leaks.  A scheduler whose tasks are all reaped owns no
    coroutine frame, nested ones included, and no awaitable, and no completion
    that could refer to one is outstanding. *)
Theorem idle_scheduler_owns_nothing p w :
  freach p AtTop w -> tasks_ (me w) = [] ->
  frames (me w) = ∅ /\ awts (me w) = ∅ /\
  forall a, AddrAwaitable a ∉ outstanding (at_kernel (kern w) (cq (s_io (me w)))) (me w).
Proof.
  intros Hr Hnil. destruct (freach_refines p AtTop w Hr) as (Q & _ & Hs).
  exact (nothing_left known nw timed _ w Q (proj1 (freach_top known nw timed p w Hr)) Hs Hnil).
Qed.
End Stepwise.

(** A callable arrives while the loop is about to enter the kernel. *)
#[local] Existing Instance demo_kernel.
#[local] Existing Instance demo_kernel_spec.

Lemma interleaved_refines_witness :
  exists Q Q', simulates demo_raced Q /\ p_shared Q = sh demo_raced /\ pstep PEnter Q (Normal PLoad) Q'.
Proof.
  destruct (interleaved_refines demo_known 0 false 0 AtEnter demo_raced demo_raced_freach)
    as (Q & _ & Hs & _ & _ & _ & Hsh & _ & _ & _ & _ & Hstep).
  destruct (Hstep ltac:(discriminate) (Normal AtLoad) (snd (loop_step AtEnter demo_raced))) as (Q' & Hp & _);
    [vm_compute; reflexivity|done|]. exists Q, Q'. exact (conj Hs (conj Hsh Hp)).
Defined.

(** The task of Wakeup waits for its read, and one turn later it has ended. *)
Definition demo_drained : world nat (list io_uring_sqe) := snd (drain demo_idle).
Definition demo_finished : world nat (list io_uring_sqe) := snd (reap demo_drained).

Lemma demo_finished_freach : freach demo_known 0 false 0 AtTop demo_finished.
Proof.
  apply reach_freach, (reach_turn _ _ _ 0 demo_idle demo_drained); [exact demo_idle_reach| |vm_compute; reflexivity|vm_compute; reflexivity].
  right. vm_compute. reflexivity.
Qed.

Lemma turn_refines_pool_witness : exists Q Q', pturn Q Q' /\ simulates demo_idle Q /\ simulates demo_finished Q'.
Proof.
  pose proof (reach_freach demo_known 0 false 0 demo_idle demo_idle_reach) as Hr.
  destruct (freach_refines demo_known 0 false 0 AtTop demo_idle Hr) as (Q & _ & Hs).
  destruct (turn_refines_pool demo_known 0 false 0 demo_idle Q demo_drained demo_finished Hr) as (Q' & Ht & Hs').
  - right. vm_compute. reflexivity.
  - exact Hs.
  - vm_compute. reflexivity.
  - vm_compute. reflexivity.
  - exists Q, Q'. exact (conj Ht (conj Hs Hs')).
Defined.

Lemma idle_scheduler_owns_nothing_witness :
  frames (me demo_idle) <> ∅ /\ frames (me demo_finished) = ∅ /\ awts (me demo_finished) = ∅.
Proof.
  split; [vm_compute; discriminate|].
  destruct (idle_scheduler_owns_nothing demo_known 0 false 0 demo_finished demo_finished_freach) as (H1 & H2 & _);
    [vm_compute; reflexivity|exact (conj H1 H2)].
Defined.
