(* ===== verification/Equiv.v ===== *)
(** * Equiv: awaiting a task is the same as writing its body in place

    Processes up to pointwise equality of their continuations, pools up to
    that, and the operations of Process as morphisms for it.  It follows that a
    coroutine that awaits a nested task and the one with the body substituted
    for the await cannot be told apart: the frames, handles and symmetric
    transfer behind the nested one leave no trace. *)
From stdpp Require Import prelude list gmap relations.
From Stdlib Require Import ZArith Lia.
From S2P Require Import Prelude ErrorCodes Ring Operations Awaitable Task Machine Kernel Scheduler Heap Safety EventLoop Follows Wakeup Interleave Process Chains Refine RefineLoop Execution Stepwise.

(** ** Processes up to their continuations *)

Section Equivalence.
Context {U : Type}.
Implicit Types (p : proc U) (c : Z + exn -> proc U).

Inductive peq : relation (proc U) :=
| peq_done r : peq (PDone r) (PDone r)
| peq_do g k k' : (forall z, peq (k z) (k' z)) -> peq (PDo g k) (PDo g k')
| peq_await op timeout k k' : (forall z, peq (k z) (k' z)) -> peq (PAwait op timeout k) (PAwait op timeout k')
| peq_spawn t t' k k' : peq t t' -> (forall e, peq (k e) (k' e)) -> peq (PSpawn t k) (PSpawn t' k')
| peq_post dst f k k' : (forall e, peq (k e) (k' e)) -> peq (PPost dst f k) (PPost dst f k').

#[export] Instance peq_equivalence : Equivalence peq.
Proof.
  split.
  - intros p. induction p; constructor; auto.
  - intros p q Hpq. induction Hpq; constructor; auto.
  - intros p1 p2 p3 H12. revert p3. induction H12; intros p3 H23; inversion H23; subst; constructor; eauto.
Qed.

#[export] Instance inline_proper (b : coro U) : Proper (pointwise_relation _ peq ==> peq) (inline b).
Proof.
  induction b as [v|e|g k IH|op to k IH|t IHt k IH|t _ k IH|dst f k IH]; intros c c' Hc; cbn [inline].
  - apply Hc.
  - apply Hc.
  - constructor. intros z. by apply IH.
  - constructor. intros z. by apply IH.
  - apply IHt. intros r. by apply IH.
  - constructor; [done|]. intros e. by apply IH.
  - constructor. intros e. by apply IH.
Qed.

(** The body of [t] with [k] in the place of its result. *)
Fixpoint graft (t : coro U) (k : Z + exn -> coro U) : coro U :=
  match t with
  | CoReturn v => k (inl v)
  | CoThrow e => k (inr e)
  | CoDo g k' => CoDo g (fun z => graft (k' z) k)
  | CoAwait op timeout k' => CoAwait op timeout (fun z => graft (k' z) k)
  | CoAwaitTask t' k' => CoAwaitTask t' (fun r => graft (k' r) k)
  | CoSpawn t' k' => CoSpawn t' (fun e => graft (k' e) k)
  | CoPost dst f k' => CoPost dst f (fun e => graft (k' e) k)
  end.

Lemma inline_graft t k c : peq (inline t (fun r => inline (k r) c)) (inline (graft t k) c).
Proof.
  revert c. induction t as [v|e|g k' IH|op to k' IH|t' IHt k' IH|t' _ k' IH|dst f k' IH]; intros c; cbn [inline graft].
  - done.
  - done.
  - constructor. intros z. apply IH.
  - constructor. intros z. apply IH.
  - apply inline_proper. intros r. apply IH.
  - constructor; [done|]. intros e. apply IH.
  - constructor. intros e. apply IH.
Qed.

Lemma first_ok_graft t k : first_ok t -> (forall r, first_ok (k r)) -> first_ok (graft t k).
Proof. induction t; cbn; naive_solver. Qed.

Lemma good_graft known nw timed t k :
  good known nw timed t -> (forall r, good known nw timed (k r)) -> good known nw timed (graft t k).
Proof. induction t; cbn; naive_solver. Qed.
End Equivalence.

(** ** Pools up to the processes in them *)

Section Pools.
Context {U : Type}.
Implicit Types (Q R : pool U).
#[local] Abbreviation A := (exec (pool U) exn).

Definition keq : relation (Z -> proc U) := pointwise_relation _ peq.

#[export] Instance pool_equiv : Equiv (pool U) := fun Q Q' =>
  with_waiting ∅ (p_next Q) Q = with_waiting ∅ (p_next Q') Q' /\
  forall a, option_Forall2 keq (p_waiting Q !! a) (p_waiting Q' !! a).

#[export] Instance pool_equivalence : Equivalence (≡@{pool U}).
Proof.
  split.
  - intros Q. split; [done|]. intros a. destruct (p_waiting Q !! a); constructor. by intros z.
  - intros Q Q' [E Hw]. split; [done|]. intros a. destruct (Hw a); constructor. intros z. symmetry. apply H.
  - intros Q Q' Q'' [E Hw] [E' Hw']. split; [congruence|]. intros a. specialize (Hw a). specialize (Hw' a).
    inversion Hw as [k k' Hk Ek Ek'|Ek Ek']; inversion Hw' as [l l' Hl El El'|El El']; try congruence; constructor.
    intros z. rewrite (Hk z). assert (k' = l) as -> by congruence. apply Hl.
Qed.

(** Two computations that cannot tell equivalent pools apart. *)
Definition mirrors {B} : relation (A B) := fun m m' =>
  forall Q Q', Q ≡ Q' -> fst (m Q) = fst (m' Q') /\ snd (m Q) ≡ snd (m' Q').

Lemma mirrors_bind {B C} (m m' : A B) (k k' : B -> A C) :
  mirrors m m' -> (forall b, mirrors (k b) (k' b)) -> mirrors (m ≫= k) (m' ≫= k').
Proof.
  intros Hm Hk Q Q' HQ. destruct (Hm Q Q' HQ) as [Ho Hs]. unfold mbind, exec_bind.
  destruct (m Q) as [o R], (m' Q') as [o' R']. cbn in Ho, Hs. subst o'. destruct o as [b| |]; [|done|done].
  by apply Hk.
Qed.

Lemma mirrors_ret {B} (b : B) : mirrors (mret b) (mret b).
Proof. by intros Q Q' HQ. Qed.
Lemma mirrors_throw {B} e : mirrors (B:=B) (throw e) (throw e).
Proof. by intros Q Q' HQ. Qed.
Lemma mirrors_stuck {B} r : mirrors (B:=B) (stuck_with r) (stuck_with r).
Proof. by intros Q Q' HQ. Qed.

(** Everything but the processes is equal. *)
Lemma pool_fields Q Q' : Q ≡ Q' ->
  p_id Q = p_id Q' /\ p_eventfd Q = p_eventfd Q' /\ p_entries Q = p_entries Q' /\ p_armed Q = p_armed Q' /\
  p_down Q = p_down Q' /\ p_staged Q = p_staged Q' /\ p_flight Q = p_flight Q' /\ p_ready Q = p_ready Q' /\
  p_next Q = p_next Q' /\ p_done Q = p_done Q' /\ p_shared Q = p_shared Q'.
Proof. intros [E _]. by injection E. Qed.

(** Split equivalent pools into equal fields and related processes. *)
Ltac open_pools HQ :=
  let Q := fresh "Q" in let Q' := fresh "Q'" in
  destruct HQ as [HQ HW];
  match type of HQ with with_waiting _ _ ?q = with_waiting _ _ ?q' =>
    destruct q as [id efd ent arm dwn stg flt rdy wtg nxt dne shd],
             q' as [id' efd' ent' arm' dwn' stg' flt' rdy' wtg' nxt' dne' shd'] end;
  cbn in HQ, HW; injection HQ as <- <- <- <- <- <- <- <- <- <- <-.

Lemma mirrors_gets {B} (g : pool U -> B) :
  (forall Q Q', Q ≡ Q' -> g Q = g Q') -> mirrors (gets g) (gets g).
Proof. intros Hg Q Q' HQ. split; [cbn; f_equal; by apply Hg|done]. Qed.

Lemma mirrors_modify (g g' : pool U -> pool U) :
  (forall Q Q', Q ≡ Q' -> g Q ≡ g' Q') -> mirrors (modify g) (modify g').
Proof. intros Hg Q Q' HQ. split; [done|]. by apply Hg. Qed.

Lemma mirrors_demand {B} r (g : pool U -> option B) :
  (forall Q Q', Q ≡ Q' -> g Q = g Q') -> mirrors (demand r g) (demand r g).
Proof. intros Hg Q Q' HQ. unfold demand. rewrite (Hg Q Q' HQ). by destruct (g Q'). Qed.

Lemma mirrors_try {B} (m m' : A B) : mirrors m m' -> mirrors (try m) (try m').
Proof.
  intros Hm Q Q' HQ. destruct (Hm Q Q' HQ) as [Ho Hs]. unfold try.
  destruct (m Q) as [o R], (m' Q') as [o' R']. cbn in Ho, Hs. subst o'. by destruct o.
Qed.

Lemma mirrors_user g : mirrors (p_user g) (p_user g).
Proof. intros Q Q' HQ. open_pools HQ. unfold p_user. cbn. destruct (g (user shd)). done. Qed.

Lemma mirrors_post dst f : mirrors (p_post dst f) (p_post dst f).
Proof. intros Q Q' HQ. open_pools HQ. unfold p_post. cbn. destruct (post_shared dst f shd). done. Qed.

Lemma mirrors_await op timeout k k' : keq k k' -> mirrors (p_await op timeout k) (p_await op timeout k').
Proof.
  intros Hk Q Q' HQ. open_pools HQ. unfold p_await. cbn. destruct (_ <? _); [done|]. split; [done|]. split; [done|].
  intros a. cbn. rewrite !lookup_insert. case_decide; [by constructor|apply HW].
Qed.

Lemma mirrors_finish d : mirrors (p_finish d) (p_finish d).
Proof. apply mirrors_modify. intros Q Q' HQ. open_pools HQ. by destruct d. Qed.

Lemma p_full_equiv Q Q' : Q ≡ Q' -> p_full Q = p_full Q'.
Proof. intros HQ. open_pools HQ. done. Qed.

Create HintDb mirrors.
#[local] Hint Resolve mirrors_bind mirrors_ret mirrors_throw mirrors_stuck mirrors_gets mirrors_modify mirrors_try
  mirrors_user mirrors_post mirrors_await mirrors_finish p_full_equiv : mirrors.

#[export] Instance prun_proper : Proper (peq ==> mirrors) (prun (U:=U)).
Proof.
  intros p p' Hp. induction Hp as [r|g k k' _ IH|op to k k' Hk IH|t t' k k' _ IHt _ IH|dst f k k' _ IH]; cbn [prun].
  - apply mirrors_ret.
  - auto with mirrors.
  - apply mirrors_bind; [by apply mirrors_await|]. intros []; auto with mirrors.
  - apply mirrors_bind; [auto with mirrors|]. intros []; [auto with mirrors|].
    apply mirrors_bind; [done|]. auto with mirrors.
  - auto with mirrors.
Qed.

#[export] Instance pspawn_proper : Proper (peq ==> mirrors) (pspawn (U:=U)).
Proof.
  intros p p' Hp. apply mirrors_bind; [auto with mirrors|]. intros []; [auto with mirrors|].
  apply mirrors_bind; [by apply prun_proper|]. auto with mirrors.
Qed.

Lemma mirrors_invoke f : mirrors (pinvoke f) (pinvoke f).
Proof.
  induction f as [|e|g k IH|t k IH|dst f _ k IH|job IH]; cbn [pinvoke]; auto with mirrors.
  - apply mirrors_bind; [by apply pspawn_proper|done].
  - intros Q Q' HQ. open_pools HQ. unfold mbind, exec_bind, gets, modify. cbn [p_shared].
    destruct (workers shd); [done|]. by apply mirrors_post.
Qed.

Lemma mirrors_items l : mirrors (pitems l) (pitems l).
Proof.
  induction l as [|f l IH]; cbn [pitems]; [auto with mirrors|]. apply mirrors_bind; [|done]. unfold pitem.
  apply mirrors_bind; [auto using mirrors_invoke with mirrors|]. intros [|[st|tag]]; [auto with mirrors| |auto with mirrors].
  case_decide; [|auto with mirrors]. apply mirrors_bind; [|auto with mirrors].
  apply mirrors_gets. intros Q Q' HQ. by apply pool_fields in HQ as [? _].
Qed.

Lemma mirrors_inbox : mirrors pinbox pinbox.
Proof.
  apply mirrors_bind; [apply mirrors_gets; intros Q Q' HQ; by apply pool_fields in HQ as [? _]|]. intros own.
  apply mirrors_bind; [apply mirrors_demand; intros Q Q' HQ; open_pools HQ; done|]. intros box.
  apply mirrors_bind; [|intros []; apply mirrors_items].
  apply mirrors_modify. intros Q Q' HQ. open_pools HQ. done.
Qed.

(** Looking up a process. *)
Lemma mirrors_waiting {C} r a (m m' : (Z -> proc U) -> A C) :
  (forall k k', keq k k' -> mirrors (m k) (m' k')) ->
  mirrors (demand r (fun Q => p_waiting Q !! a) ≫= m) (demand r (fun Q => p_waiting Q !! a) ≫= m').
Proof.
  intros Hm Q Q' HQ. pose proof (proj2 HQ a) as Ha. unfold mbind, exec_bind, demand.
  destruct (p_waiting Q !! a) as [k|], (p_waiting Q' !! a) as [k'|]; inversion Ha; subst; [|done]. by apply Hm.
Qed.

Lemma mirrors_complete c : mirrors (pcomplete c) (pcomplete c).
Proof.
  unfold pcomplete. destruct (cqe_user_data c) as [[| |]|a| | |]; try by auto with mirrors.
  2: { apply mirrors_bind; [|intros []; apply mirrors_inbox].
       apply mirrors_modify. intros Q Q' HQ. open_pools HQ. done. }
  apply mirrors_waiting. intros k k' Hk. apply mirrors_bind.
  - apply mirrors_modify. intros Q Q' HQ. open_pools HQ. split; [done|]. intros b. cbn. rewrite !lookup_delete.
    case_decide; [constructor|apply HW].
  - intros []. apply mirrors_bind; [apply prun_proper, Hk|]. auto with mirrors.
Qed.

Lemma mirrors_deliver l : mirrors (pdeliver l) (pdeliver l).
Proof.
  induction l as [|c l IH]; cbn [pdeliver]; [auto with mirrors|].
  apply mirrors_bind; [apply mirrors_complete|]. intros []. apply mirrors_bind; [|done].
  apply mirrors_modify. intros Q Q' HQ. open_pools HQ. done.
Qed.

#[export] Instance parm_proper : Proper ((≡) ==> (≡)) (parm (U:=U)).
Proof. intros Q Q' HQ. open_pools HQ. unfold parm. cbn. by destruct arm. Qed.

#[export] Instance preap_proper : Proper ((≡) ==> (≡)) (preap (U:=U)).
Proof. intros Q Q' HQ. open_pools HQ. done. Qed.

(** Equivalent pools make the same turns. *)
Lemma pkernel_mirror n Q Q' R : Q ≡ Q' -> pkernel n Q R -> exists R', pkernel n Q' R' /\ R ≡ R'.
Proof.
  intros HQ (box & m & dn & fl & c & Hb & Hm & Hl & Hp & He & ->).
  open_pools HQ. cbn in *. eexists. split; [exists box, m, dn, fl, c; cbn; by split_and!|]. by split.
Qed.

Lemma pturn_mirror Q Q' R : Q ≡ Q' -> pturn Q R -> exists R', pturn Q' R' /\ R ≡ R'.
Proof.
  intros HQ (Q1 & Q2 & Hk & Hd & ->). pose proof (parm_proper _ _ HQ) as Ha.
  destruct (pkernel_mirror _ _ _ _ Ha Hk) as (Q1' & Hk' & H1).
  destruct (mirrors_deliver (p_ready Q1) Q1 Q1' H1) as [Ho Hs]. rewrite Hd in Ho, Hs. cbn in Ho, Hs.
  destruct (pdeliver (p_ready Q1) Q1') as [o Q2'] eqn:E. cbn in Ho, Hs. subst o.
  exists (preap Q2'). split; [|by apply preap_proper]. exists Q1', Q2'. split_and!; [|  |done].
  - replace (p_staged (parm Q')) with (p_staged (parm Q)); [done|]. by apply pool_fields in Ha as (_ & _ & _ & _ & _ & ? & _).
  - replace (p_ready Q1') with (p_ready Q1); [done|]. by apply pool_fields in H1 as (_ & _ & _ & _ & _ & _ & _ & ? & _).
Qed.

Lemma pturns_mirror n Q Q' R : Q ≡ Q' -> nsteps pturn n Q R -> exists R', nsteps pturn n Q' R' /\ R ≡ R'.
Proof.
  intros HQ Hn. revert Q' HQ. induction Hn as [Q|n Q Q1 R Ht _ IH]; intros Q' HQ.
  - exists Q'. split; [constructor|done].
  - destruct (pturn_mirror Q Q' Q1 HQ Ht) as (Q1' & Ht' & H1). destruct (IH Q1' H1) as (R' & Hn' & HR).
    exists R'. split; [by econstructor|done].
Qed.
End Pools.

(** ** Awaiting and inlining *)

Section Inlining.
Context {U K : Type} `{HKS : KernelSpec K}.
Context (known : nat -> Prop) (nw : nat) (timed : bool).
#[local] Abbreviation good := (good (U:=U) known nw timed).
#[local] Abbreviation freach := (freach (U:=U) (K:=K) known nw timed).
#[local] Abbreviation inv := (inv (U:=U) (K:=K) known nw timed).
Implicit Types w : world U K.

(** Spawning a good task returns and is simulated by the pool. *)
Lemma spawn_total w Q t :
  inv w -> simulates w Q -> first_ok t -> good t ->
  exists e w1 Q1, spawn_temporary t (fun h => run t h) w = (Normal e, w1) /\ pspawn (denote t) Q = (Normal e, Q1) /\
    simulates w1 Q1 /\ kern w1 = kern w.
Proof.
  intros Hi Hs Hf Hg. assert (Hcalm : calm w) by (intros E; destruct Hi as [_ Htl]; congruence).
  pose proof (spawn_temporary_safe known nw timed _ t w (run_safe _ _ _ t Hg) Hf Hg (proj1 Hi) Hcalm) as Hsafe.
  unfold wp in Hsafe. destruct (spawn_temporary t (fun h => run t h) w) as [[e| |] w1] eqn:E; [|done|done].
  destruct (spawn_refines known nw timed w Q t e w1 Hi Hs Hf Hg E) as (Q1 & E1 & Hs1).
  exists e, w1, Q1. split_and!; try done. apply Hsafe.
Qed.

(** One turn of the loop of [run], undisturbed: it starts with the eventfd read
    armed or a free slot, and returns. *)
Definition code_turn w w' : Prop := armable w /\ exists w1, drain w = (Normal tt, w1) /\ reap w1 = (Normal tt, w').

Lemma code_turn_refines w Q w' :
  inv w -> simulates w Q -> code_turn w w' -> inv w' /\ exists Q', pturn Q Q' /\ simulates w' Q'.
Proof.
  intros Hi Hs (Ha & w1 & Ed & Er). split; [|by eapply turn_refines].
  pose proof (drain_safe known nw timed w Hi Ha) as Hd. unfold wp in Hd. rewrite Ed in Hd. destruct Hd as [Hi1 _].
  rewrite (reap_eq known nw timed _ w1 (proj1 Hi1)) in Er. injection Er as <-. apply (reap_safe known nw timed w1 Hi1).
Qed.

Lemma code_turns_refine n w Q w' :
  inv w -> simulates w Q -> nsteps code_turn n w w' -> exists Q', nsteps pturn n Q Q' /\ simulates w' Q'.
Proof.
  intros Hi Hs Hn. revert Q Hi Hs. induction Hn as [w|n w w1 w2 Ht _ IH]; intros Q Hi Hs.
  - exists Q. split; [constructor|done].
  - destruct (code_turn_refines w Q w1 Hi Hs Ht) as (Hi1 & Q1 & Hp & Hs1).
    destruct (IH Q1 Hi1 Hs1) as (Q2 & Hn2 & Hs2). exists Q2. split; [by econstructor|done].
Qed.

(** C7: awaiting a nested task is the same as writing its body in place.  The
    assumptions of [spawn] hold for the coroutine that awaits [t] and continues
    with [k].  In any state reached between two turns, spawning it, and
    spawning in the same state the coroutine in which the body of [t] is inlined
    before [k], throw the same exception or none, leave the same mailboxes,
    user state, submission queue and kernel, and are simulated by equivalent
    pools of the specification.  From then on, whatever turns the event loop
    takes with the one are turns of its pool, which the pool of the other can
    take too, staying equivalent: same queues, mailboxes, user state and
    waiting operations.  The extra frames, the continuation handles and the
    symmetric transfers of the nested version cannot be observed. *)
Theorem nested_await_inlines p w t k :
  freach p AtTop w -> first_ok (CoAwaitTask t k) -> good (CoAwaitTask t k) ->
  exists e w1 w2 Q1 Q2,
    spawn_temporary (CoAwaitTask t k) (fun h => run (CoAwaitTask t k) h) w = (Normal e, w1) /\
    spawn_temporary (graft t k) (fun h => run (graft t k) h) w = (Normal e, w2) /\
    sh w1 = sh w2 /\ sq_pending (sq (s_io (me w1))) = sq_pending (sq (s_io (me w2))) /\ kern w1 = kern w2 /\
    simulates w1 Q1 /\ simulates w2 Q2 /\ Q1 ≡ Q2 /\
    (forall n w1', nsteps code_turn n w1 w1' -> exists R1 R2,
       simulates w1' R1 /\ nsteps pturn n Q1 R1 /\ nsteps pturn n Q2 R2 /\ R1 ≡ R2) /\
    (forall n w2', nsteps code_turn n w2 w2' -> exists R1 R2,
       simulates w2' R2 /\ nsteps pturn n Q1 R1 /\ nsteps pturn n Q2 R2 /\ R1 ≡ R2).
Proof.
  intros Hr Hf Hg. pose proof (freach_top _ _ _ _ _ Hr) as Hi. destruct (freach_refines _ _ _ _ _ _ Hr) as (Q & _ & Hs).
  assert (Hf2 : first_ok (graft t k)) by (by apply first_ok_graft; apply Hf).
  assert (Hg2 : good (graft t k)) by (by apply good_graft; apply Hg).
  destruct (spawn_total w Q (CoAwaitTask t k) Hi Hs Hf Hg) as (e1 & w1 & Q1 & E1 & P1 & S1 & K1).
  destruct (spawn_total w Q (graft t k) Hi Hs Hf2 Hg2) as (e2 & w2 & Q2 & E2 & P2 & S2 & K2).
  destruct (pspawn_proper (denote (CoAwaitTask t k)) (denote (graft t k)) (inline_graft t k PDone) Q Q) as [Eo HQ];
    [done|]. rewrite P1, P2 in Eo, HQ. cbn in Eo, HQ. injection Eo as <-.
  exists e1, w1, w2, Q1, Q2. pose proof (pool_fields _ _ HQ) as (_ & _ & _ & _ & _ & Est & _ & _ & _ & _ & Esh).
  pose proof (freach_top _ _ _ _ _ (freach_spawn known nw timed p w _ _ _ Hr Hf Hg E1)) as Hi1.
  pose proof (freach_top _ _ _ _ _ (freach_spawn known nw timed p w _ _ _ Hr Hf2 Hg2 E2)) as Hi2.
  split_and!; try done.
  - by rewrite <- (sf_shared _ _ (proj1 S1)), <- (sf_shared _ _ (proj1 S2)).
  - by rewrite <- (sf_staged _ _ (proj1 S1)), <- (sf_staged _ _ (proj1 S2)).
  - congruence.
  - intros n w1' Hn. destruct (code_turns_refine n w1 Q1 w1' Hi1 S1 Hn) as (R1 & Hp & Hs').
    destruct (pturns_mirror n Q1 Q2 R1 HQ Hp) as (R2 & Hp2 & HR). eauto 10.
  - intros n w2' Hn. destruct (code_turns_refine n w2 Q2 w2' Hi2 S2 Hn) as (R2 & Hp & Hs').
    destruct (pturns_mirror n Q2 Q1 R2 (symmetry HQ) Hp) as (R1 & Hp2 & HR). exists R1, R2. by split_and!.
Qed.
End Inlining.

#[local] Existing Instance demo_kernel.
#[local] Existing Instance demo_kernel_spec.

(** A read inside a nested task, its result counted outside. *)
Definition demo_outer (r : Z + exn) : coro nat :=
  match r with inl n => CoDo (fun u => ((u + Z.to_nat n)%nat, 0)) CoReturn | inr e => CoThrow e end.

Lemma nested_await_inlines_witness :
  exists e w1 w2,
    spawn_temporary (CoAwaitTask demo_task demo_outer) (fun h => run (CoAwaitTask demo_task demo_outer) h) demo_posted = (Normal e, w1) /\
    spawn_temporary (graft demo_task demo_outer) (fun h => run (graft demo_task demo_outer) h) demo_posted = (Normal e, w2) /\
    sh w1 = sh w2.
Proof.
  destruct (nested_await_inlines demo_known 0 false 0 demo_posted demo_task demo_outer (reach_freach _ _ _ _ _ demo_reach))
    as (e & w1 & w2 & Q1 & Q2 & E1 & E2 & Es & _).
  - split; [reflexivity|]. intros [n|x]; exact (fun _ => I) || exact I.
  - split; [split; [by left|]|]; [intros z; exact (fun _ => I)|]. intros [n|x]; exact (fun _ => I) || exact I.
  - exists e, w1, w2. exact (conj E1 (conj E2 Es)).
Defined.
