(* ===== verification/Shutdown.v ===== *)
(** * Shutdown: [Scheduler::shutdown] ends

    [shutdown] turns the loop, without ever sleeping, until [tasks_] is empty.
    Whether it returns depends on three things outside the loop: the kernel has
    to answer what it was given, the tasks have to stop asking, and the
    eventfd read that each turn arms has to find a slot.  This file shows that
    they are enough.  Tasks that neither spawn nor post to the scheduler being
    shut down get smaller with every result they receive, in a well-founded
    order on the operations waited for; a kernel that answers eventually
    ([ResponsiveKernel]) delivers a result after finitely many turns; and fewer
    operations than ring slots leave room for the eventfd read. *)
From stdpp Require Import prelude list gmap relations well_founded.
From Stdlib Require Import ZArith Lia Wellfounded Wf_nat.
From Stdlib Require Import Relations.Relation_Operators.
From S2P Require Import Prelude ErrorCodes Ring Operations Awaitable Task Machine Kernel Scheduler Heap Safety EventLoop Follows Wakeup Interleave Process Chains Refine RefineLoop Execution Stepwise.

(** ** Tasks that stop by themselves *)

Section Plain.
Context {U : Type} (id : nat).
Implicit Types (p : proc U) (b : coro U).

(** No new task, no deadline, no post to scheduler [id]. *)
Fixpoint plain p : Prop :=
  match p with
  | PDone _ => True
  | PDo _ k => forall z, plain (k z)
  | PAwait _ timeout k => timeout = None /\ forall z, plain (k z)
  | PSpawn _ _ => False
  | PPost dst _ k => dst <> id /\ forall e, plain (k e)
  end.

Fixpoint plain_body b : Prop :=
  match b with
  | CoReturn _ | CoThrow _ => True
  | CoDo _ k => forall z, plain_body (k z)
  | CoAwait _ timeout k => timeout = None /\ forall z, plain_body (k z)
  | CoAwaitTask t k => plain_body t /\ forall r, plain_body (k r)
  | CoSpawn _ _ => False
  | CoPost dst _ k => dst <> id /\ forall e, plain_body (k e)
  end.

(** What a suspended coroutine has still to do. *)
Definition plain_susp (s : suspension U) : Prop :=
  match s with
  | AtInitial b => plain_body b
  | AtOp _ k => forall z, plain_body (k z)
  | AtTask _ k => forall r, plain_body (k r)
  | Running | AtFinal => True
  end.

Lemma inline_plain b : plain_body b -> forall c, (forall r, plain (c r)) -> plain (inline b c).
Proof.
  induction b as [v|e|g k IH|op to k IH|t IHt k IH|t _ k IH|dst f k IH]; cbn; intros Hb c Hc; auto.
  - destruct Hb as [-> Hk]. auto.
  - destruct Hb as [Ht Hk]. auto.
  - destruct Hb as [? Hk]. auto.
Qed.

Lemma waiting_plain (F : gmap nat (frame U)) a k :
  (forall h f, F !! h = Some f -> plain_susp (susp f)) -> waiting F a k -> forall z, plain (k z).
Proof.
  intros HF (h & f & k0 & c & Hf & Hs & Hr & ->) z.
  assert (Hc : forall r, plain (c r)).
  { clear - HF Hr. induction Hr as [h _|h q k c [_ (fp & Hfp & Hs)] _ IH]; [done|].
    intros r. apply inline_plain; [|done]. specialize (HF _ _ Hfp). rewrite Hs in HF. apply HF. }
  apply inline_plain; [|done]. specialize (HF _ _ Hf). rewrite Hs in HF. apply HF.
Qed.
End Plain.

(** ** Results shrink what is waited for *)

Section Order.
Context {U : Type}.
#[local] Abbreviation cont := (Z -> proc U).

(** Running [p] without a new task can come to wait with continuation [k]. *)
Inductive awaits : proc U -> cont -> Prop :=
| awaits_here op timeout k : awaits (PAwait op timeout k) k
| awaits_skip op timeout k k' z : awaits (k z) k' -> awaits (PAwait op timeout k) k'
| awaits_do g k k' z : awaits (k z) k' -> awaits (PDo g k) k'
| awaits_post dst f k k' e : awaits (k e) k' -> awaits (PPost dst f k) k'.

Definition below (k' k : cont) : Prop := exists r, awaits (k r) k'.

Lemma awaits_acc p : forall k, awaits p k -> Acc below k.
Proof.
  induction p as [r|g k IH|op to k IH|t _ k _|dst f k IH]; intros k' Ha; inversion Ha; subst; eauto.
  constructor. intros k'' [r Hr]. eauto.
Qed.

Lemma below_wf : well_founded below.
Proof. intros k. constructor. intros k' [r Hr]. by eapply awaits_acc. Qed.

(** A result removes its operation, and may put one new one in its place. *)
Definition shrinks (m' m : gmap nat cont) : Prop := exists a k,
  m !! a = Some k /\
  (m' = delete a m \/ exists a' k', delete a m !! a' = None /\ below k' k /\ m' = <[a' := k']> (delete a m)).

Lemma shrinks_insert k : Acc below k -> forall m, Acc shrinks m ->
  forall a, m !! a = None -> Acc shrinks (<[a := k]> m).
Proof.
  induction 1 as [k _ IHk]. induction 1 as [m Hm IHm]. intros i Hi. constructor.
  intros m' (a & k0 & Ha & Hm'). destruct (decide (a = i)) as [->|Hne].
  - rewrite lookup_insert_eq in Ha. injection Ha as <-. rewrite delete_insert_id in Hm' by done.
    destruct Hm' as [->|(a' & k' & Hfresh & Hb & ->)]; [by constructor|]. apply IHk; [done|by constructor|done].
  - rewrite lookup_insert_ne in Ha by done. rewrite delete_insert_ne in Hm' by done.
    assert (Hi' : delete a m !! i = None) by (by rewrite lookup_delete_ne).
    destruct Hm' as [->|(a' & k' & Hfresh & Hb & ->)].
    + apply IHm; [|done]. exists a, k0. auto.
    + apply lookup_insert_None in Hfresh as [Hfresh Hai]. rewrite insert_insert_ne by done.
      apply IHm; [|by rewrite lookup_insert_ne]. exists a, k0. split; [done|]. right. exists a', k'. auto.
Qed.

Lemma shrinks_wf : well_founded shrinks.
Proof.
  intros m. induction m as [|a k m Ha IH] using map_ind.
  - constructor. intros m' (a & k & Hk & _). by rewrite lookup_empty in Hk.
  - apply shrinks_insert; [apply below_wf|done|done].
Qed.

Lemma shrinks_size m' m : shrinks m' m -> (size m' <= size m)%nat.
Proof.
  intros (a & k & Ha & Hm'). assert (Hd : size (delete a m) = pred (size m)) by (apply map_size_delete_Some; eauto).
  assert (size m <> 0%nat) by (intros E; apply map_size_empty_inv in E; subst; by rewrite lookup_empty in Ha).
  destruct Hm' as [->|(a' & k' & Hf & _ & ->)]; [lia|]. rewrite map_size_insert_None by done. lia.
Qed.
End Order.

(** ** Pools that are shutting down *)

Definition nulls (l : list word64) : nat := length (filter (fun p => p = Num 0) l).

Lemma nulls_app l1 l2 : nulls (l1 ++ l2) = (nulls l1 + nulls l2)%nat.
Proof. unfold nulls. by rewrite filter_app, length_app. Qed.

Lemma nulls_cons p l : nulls (p :: l) = ((if decide (p = Num 0) then 1 else 0) + nulls l)%nat.
Proof. unfold nulls. rewrite filter_cons. by case_decide. Qed.

Lemma nulls_perm l1 l2 : l1 ≡ₚ l2 -> nulls l1 = nulls l2.
Proof. unfold nulls. by intros ->. Qed.

(** An operation without a deadline stages no null. *)
Lemma nulls_staged l a op :
  nulls (user_data <$> l ++ staged a (Awaitable_ctor op)) = nulls (user_data <$> l).
Proof.
  rewrite fmap_app, nulls_app. replace (user_data <$> staged _ _) with [AddrAwaitable a] by done.
  rewrite nulls_cons, decide_False by done. unfold nulls. cbn. lia.
Qed.

Lemma nulls_efd l efd : nulls (user_data <$> l ++ [efd_entry efd]) = nulls (user_data <$> l).
Proof. rewrite fmap_app, nulls_app. change (nulls (user_data <$> [efd_entry efd])) with 0%nat. lia. Qed.

#[global] Arguments nulls : simpl never.

Section Steady.
Context {U : Type}.
Implicit Types (Q : pool U).
#[local] Abbreviation load_type := (gmap nat (Z -> proc U) * nat)%type.

(** Deadlines whose completion has not been handled. *)
Definition news Q : nat :=
  (nulls (user_data <$> p_staged Q) + nulls (user_data <$> p_flight Q) + nulls (cqe_user_data <$> p_ready Q))%nat.

Definition load Q : load_type := (p_waiting Q, news Q).

Definition lighter : relation load_type := clos_trans _ (slexprod _ _ shrinks lt).

Lemma lighter_wf : well_founded lighter.
Proof. apply wf_clos_trans, wf_slexprod; [apply shrinks_wf|apply lt_wf]. Qed.

Record steady Q : Prop := {
  st_plain : forall a k, p_waiting Q !! a = Some k -> forall z, plain (p_id Q) (k z);
  st_inbox : exists c, p_box Q = Some (mkBox [] c);
  st_next : forall a, is_Some (p_waiting Q !! a) -> (a < p_next Q)%nat;
  st_untimed : nulls (user_data <$> p_staged Q) = 0%nat;
  st_room : Z.of_nat (size (p_waiting Q)) < p_entries Q
}.

(** What running [p] does to a pool: nothing is received, nothing reaches the
    own inbox, and at most one operation is added. *)
Record ran (p : proc U) Q Q' : Prop := {
  rn_same : p_id Q' = p_id Q /\ p_entries Q' = p_entries Q /\ p_flight Q' = p_flight Q /\ p_ready Q' = p_ready Q /\
            p_box Q' = p_box Q;
  rn_nulls : nulls (user_data <$> p_staged Q') = nulls (user_data <$> p_staged Q);
  rn_next : (p_next Q <= p_next Q')%nat;
  rn_waiting : p_waiting Q' = p_waiting Q \/
    exists a k, (p_next Q <= a < p_next Q')%nat /\ awaits p k /\ p_waiting Q' = <[a := k]> (p_waiting Q)
}.

Lemma ran_after p p' Q Q1 Q' :
  ran p' Q1 Q' -> (forall k, awaits p' k -> awaits p k) ->
  p_id Q1 = p_id Q -> p_entries Q1 = p_entries Q -> p_flight Q1 = p_flight Q -> p_ready Q1 = p_ready Q ->
  p_box Q1 = p_box Q -> p_staged Q1 = p_staged Q -> (p_next Q <= p_next Q1)%nat -> p_waiting Q1 = p_waiting Q ->
  ran p Q Q'.
Proof.
  intros [(H1 & H2 & H3 & H4 & H5) Hn Hx Hw] Hsub E1 E2 E3 E4 E5 E6 E7 E8.
  split; [split_and!; congruence|congruence|lia|].
  destruct Hw as [Hw|(a & k & Ha & Hk & Hw)]; [left; congruence|].
  right. exists a, k. split_and!; [lia|lia|auto|congruence].
Qed.

Lemma post_keeps_box dst f Q o Q1 :
  p_post dst f Q = (o, Q1) -> dst <> p_id Q ->
  p_box Q1 = p_box Q /\ exists s, Q1 = with_shared s Q.
Proof.
  unfold p_post, post_shared, p_box. intros E Hne.
  repeat case_match; simplify_eq; cbn; split; eauto; by rewrite lookup_insert_ne.
Qed.

Lemma prun_ran p : forall Q o Q', plain (p_id Q) p -> prun p Q = (o, Q') ->
  match o with Normal _ => ran p Q Q' | Throw _ => False | Stuck _ => True end.
Proof.
  induction p as [r|g k IH|op to k IH|t _ k _|dst f k IH]; intros Q o Q' Hp; cbn [prun].
  - intros [= <- <-]. split; [done|done|done|by left].
  - cbn in Hp. unfold mbind, exec_bind, p_user. destruct (g (user (p_shared Q))) as [u z] eqn:Eg.
    intros E. eapply IH in E; [|apply Hp]. destruct o; [|done|done].
    eapply ran_after; [exact E|intros ?; apply awaits_do|..]; done.
  - cbn in Hp. destruct Hp as [-> Hk]. unfold mbind, exec_bind, p_await. destruct (p_entries Q <? _) eqn:Efull; cbn [fst snd].
    + intros E. eapply IH in E; [|apply Hk]. destruct o; [|done|done].
      eapply ran_after; [exact E|intros ?; apply awaits_skip|..]; cbn; done || lia.
    + intros [= <- <-]. split; cbn; [done| |lia|].
      * by rewrite nulls_staged.
      * right. exists (p_next Q), k. split_and!; [lia|lia|apply awaits_here|done].
  - done.
  - cbn in Hp. destruct Hp as [Hd Hk]. unfold mbind, exec_bind, try. destruct (p_post dst f Q) as [o1 Q1] eqn:Ep.
    destruct (post_keeps_box _ _ _ _ _ Ep Hd) as [Hbox [s ->]].
    destruct o1 as [|e|r]; [| |by intros [= <- <-]].
    all: intros E; eapply IH in E; [|apply Hk]; destruct o; [|done|done].
    all: eapply ran_after; [exact E|intros ?; apply awaits_post|..]; done.
Qed.

Lemma awaits_plain id (p : proc U) k : awaits p k -> plain id p -> forall z, plain id (k z).
Proof. induction 1; cbn; intros Hp; try apply IHawaits; try apply Hp. Qed.

(** A result makes the pool lighter. *)
Lemma resume_lighter Q a k r d Q' :
  steady Q -> p_waiting Q !! a = Some k ->
  prun (k r) (with_waiting (delete a (p_waiting Q)) (p_next Q) Q) = (Normal d, Q') ->
  steady Q' /\ shrinks (p_waiting Q') (p_waiting Q) /\ p_ready Q' = p_ready Q.
Proof.
  intros [Hp [c Hb] Hn Hu Hr] Ha E. apply prun_ran in E; [|by apply (Hp a)].
  destruct E as [(E1 & E2 & E3 & E4 & E5) En Ex Ew]; cbn in *.
  assert (Hs : shrinks (p_waiting Q') (p_waiting Q)).
  { exists a, k. split; [done|]. destruct Ew as [->|(a' & k' & Ha' & Hk' & ->)]; [by left|]. right.
    exists a', k'. split_and!; [|by exists r|done]. apply eq_None_not_Some. intros Hs%is_Some_delete.
    destruct Hs as [_ Hs%Hn]. lia. }
  split_and!; [|done|done]. pose proof (shrinks_size _ _ Hs). split.
  - intros b kb Hkb. rewrite E1. destruct Ew as [Ew|(a' & k' & Ha' & Hk' & Ew)]; rewrite Ew in Hkb.
    + apply lookup_delete_Some in Hkb as [_ Hkb]. by apply (Hp b).
    + apply lookup_insert_Some in Hkb as [[_ <-]|[_ [_ Hkb]%lookup_delete_Some]]; [|by apply (Hp b)].
      eapply awaits_plain; [done|by apply (Hp a)].
  - exists c. rewrite <- Hb. exact E5.
  - intros b. destruct Ew as [->|(a' & k' & Ha' & Hk' & ->)].
    + intros [_ Hs'%Hn]%is_Some_delete. lia.
    + intros [->|[_ Hs'%Hn]%is_Some_delete]%is_Some_insert; lia.
  - by rewrite <- Hu.
  - rewrite E2. lia.
Qed.

Lemma pinbox_empty Q n : p_box Q = Some (mkBox [] n) -> pinbox Q = (Normal tt, set_p_box (mkBox [] n) Q).
Proof.
  unfold p_box, pinbox, gets, demand, modify, mbind, exec_bind, set_p_box. intros Hb. by rewrite Hb.
Qed.

Lemma complete_lighter c Q o Q' :
  steady Q -> pcomplete c Q = (o, Q') ->
  match o with
  | Normal _ => forall l, p_ready Q = c :: l ->
      let Q2 := with_queues (p_staged Q') (p_flight Q') l Q' in
      steady Q2 /\ (slexprod _ _ shrinks lt (load Q2) (load Q) \/ cqe_user_data c = AddrEventfdBuf /\ load Q2 = load Q)
  | Throw _ => False
  | Stuck _ => True
  end.
Proof.
  intros Hst. unfold pcomplete. destruct (cqe_user_data c) as [z|a| | |] eqn:Ec.
  - destruct z; [|by intros [= <- <-]|by intros [= <- <-]]. intros [= <- <-] l Hl.
    destruct Hst. split; [by split|]. left. apply right_slex. unfold news. cbn. rewrite Hl. cbn.
    rewrite nulls_cons, Ec, decide_True by done. lia.
  - unfold mbind, exec_bind, demand. destruct (p_waiting Q !! a) as [k|] eqn:Ek; [|by intros [= <- <-]].
    cbn [modify]. destruct (prun _ _) as [o1 Q1] eqn:E1. destruct o1 as [d|e|r]; [|intros [= <- <-]|by intros [= <- <-]].
    + destruct (resume_lighter _ _ _ _ _ _ Hst Ek E1) as (Hst1 & Hs & _). intros [= <- <-] l _.
      destruct Hst1. destruct d; cbn; (split; [by split|left; by apply left_slex]).
    + apply prun_ran in E1; [done|]. exact (st_plain _ Hst a k Ek (res c)).
  - by intros [= <- <-].
  - pose proof Hst as [Hp [n Hb] Hn Hu Hr]. unfold mbind, exec_bind, modify.
    rewrite (pinbox_empty (with_flags false (p_down Q) Q) n Hb). intros [= <- <-] l Hl. split.
    + split; cbn; try done. exists n. apply lookup_insert_eq.
    + right. split; [done|]. unfold load, news. cbn. rewrite Hl. cbn. by rewrite nulls_cons, Ec, decide_False by done.
  - by intros [= <- <-].
Qed.

Lemma steady_stable : stable_pool (U:=U) steady.
Proof. intros Q c l Q' Hst Hl E. by destruct (complete_lighter _ _ _ _ Hst E l Hl). Qed.

Lemma deliver_lighter l : forall Q Q', steady Q -> p_ready Q = l -> pdeliver l Q = (Normal tt, Q') ->
  steady Q' /\ p_ready Q' = [] /\
  (lighter (load Q') (load Q) \/ load Q' = load Q /\ Forall (fun c => cqe_user_data c = AddrEventfdBuf) l).
Proof.
  induction l as [|c l IH]; intros Q Q' Hst Hl; cbn [pdeliver]; [intros [= <-]; by auto|].
  unfold mbind, exec_bind. destruct (pcomplete c Q) as [o1 Q1] eqn:E1.
  pose proof (complete_lighter _ _ _ _ Hst E1) as Hc. destruct o1; [|done|done].
  destruct (Hc l Hl) as [Hst2 Hlt].
  cbn. intros E2. apply IH in E2 as (Hst' & Hnil & Hle); [|done|done]. split; [done|]. split; [done|].
  destruct Hlt as [Hlt|[Ec Hlt]].
  - left. destruct Hle as [Hle|[-> _]]; [eapply t_trans; [exact Hle|]|]; by apply t_step.
  - rewrite Hlt in Hle. destruct Hle as [?|[? ?]]; [by left|right; by auto].
Qed.

(** Nothing is waited for again once nothing is. *)
Lemma lighter_nothing x y : lighter x y -> fst y = ∅ -> fst x = ∅.
Proof.
  induction 1 as [x y Hs|x y z _ IH1 _ IH2]; [|auto].
  destruct Hs as [? ? ? ? (a & k & Ha & _)|? ? ? ?]; cbn; [|done]. intros ->. by rewrite lookup_empty in Ha.
Qed.
End Steady.

(** ** Kernels that answer *)

(** While an operation is at the kernel or staged and nothing is ready, a call
    that does not wait for completions leaves one ready that is not the eventfd
    read's, or brings the kernel closer to the point where it does:
    [k_patience] bounds the number of further calls. *)
Class ResponsiveKernel (K : Type) `{Kernel K} : Type := {
  k_patience : K -> nat;
  enter_answers : forall k f io c k' io' c',
    wf_io io -> 0 <= c -> cq_ready (cq io) = [] ->
    (exists a, AddrAwaitable a ∈ (user_data <$> k_inflight k) ++ (user_data <$> sq_pending (sq io))) ->
    k_enter k (sq_count (sq io)) 0 f io c = Some (k', io', c') ->
    (exists d, d ∈ cq_ready (cq io') /\ cqe_user_data d <> AddrEventfdBuf) \/ (k_patience k' < k_patience k)%nat
}.

Section Turns.
Context {U : Type}.
Implicit Types (Q : pool U).

Lemma parm_steady Q : steady Q -> steady (parm Q) /\ load (parm Q) = load Q.
Proof.
  unfold parm. intros Hst. destruct (p_armed Q); [done|].
  destruct Hst. split; [split; cbn; try done; by rewrite nulls_efd|]. unfold load, news. cbn. by rewrite nulls_efd.
Qed.

Lemma kernel_steady n Q Q' : pkernel n Q Q' -> steady Q -> steady Q' /\ load Q' = load Q.
Proof.
  intros (box & m & done & flight' & c' & Hb & _ & Hm & Hperm & Hc & ->) [Hp [c Hbox] Hn Hu Hr].
  unfold p_box in Hbox. rewrite Hbox in Hb. injection Hb as <-.
  assert (Hsplit : nulls (user_data <$> p_staged Q) =
    (nulls (user_data <$> take m (p_staged Q)) + nulls (user_data <$> drop m (p_staged Q)))%nat).
  { by rewrite <- nulls_app, <- fmap_app, take_drop. }
  apply nulls_perm in Hperm. rewrite !nulls_app in Hperm. split.
  - split; cbn; try done; [exists c'; apply lookup_insert_eq|lia].
  - unfold load, news. cbn. rewrite fmap_app, nulls_app. f_equal. lia.
Qed.

(** Staged entries are announced operations and at most one eventfd read. *)
Lemma length_staged_kinds (l : list word64) :
  (forall p, p ∈ l -> p = Num 0 \/ p = AddrEventfdBuf \/ exists a, p = AddrAwaitable a) ->
  length l = (length (omap as_awaitable l) + efd_count l + nulls l)%nat.
Proof.
  induction l as [|p l IH]; intros Hk; [done|].
  rewrite nulls_cons. change (p :: l) with ([p] ++ l). rewrite efd_count_app.
  specialize (IH (fun q Hq => Hk q (proj2 (elem_of_cons _ _ _) (or_intror Hq)))).
  destruct (Hk p (proj2 (elem_of_cons _ _ _) (or_introl eq_refl))) as [->|[->|[a ->]]]; cbn;
    repeat case_decide; try done; cbn; lia.
Qed.
End Turns.

(** ** The loop of [shutdown] *)

Section Loop.
Context {U K : Type} `{HKS : KernelSpec K} {HR : ResponsiveKernel K}.
#[local] Abbreviation W := (world U K).
Context (known : nat -> Prop) (nw : nat) (timed : bool).
#[local] Abbreviation ok := (ok (U:=U) (K:=K) known nw timed).
#[local] Abbreviation inv := (inv (U:=U) (K:=K) known nw timed).
#[local] Abbreviation freach := (freach (U:=U) (K:=K) known nw timed).
Implicit Types (w : W) (Q : pool U).

Lemma outstanding_waiting base w Q a :
  ok base w -> simulates w Q -> AddrAwaitable a ∈ outstanding base (me w) <-> is_Some (p_waiting Q !! a).
Proof.
  intros Hok Hs. pose proof (heap_of known nw timed base w Hok) as Hheap.
  rewrite (hk_live _ _ _ _ _ _ Hheap). split.
  - intros [h Hw]. destruct (hk_handle _ _ _ _ _ _ Hheap _ _ Hw) as (x & Hx & _).
    apply (awts_waiting known nw timed base w Q); eauto.
  - intros [k (h & f & k0 & c & Hf & Hat & _)%(sp_waiting _ _ _ _ _ (proj2 Hs))]. exists h, f, k0. done.
Qed.

Lemma size_waiting base w Q : ok base w -> simulates w Q -> size (p_waiting Q) = size (awts (me w)).
Proof.
  intros Hok Hs. rewrite <- !size_dom. f_equal. apply set_eq. intros a. rewrite !elem_of_dom.
  by rewrite (awts_waiting known nw timed _ w Q a Hok Hs).
Qed.

(** With fewer operations than slots the eventfd read finds room. *)
Lemma room_armable w Q :
  inv w -> simulates w Q -> nulls (user_data <$> p_staged Q) = 0%nat -> Z.of_nat (size (p_waiting Q)) < p_entries Q ->
  armable w.
Proof.
  intros [Hok _] Hs Hu Hr. pose proof Hs as [Hf _]. unfold armable.
  pose proof (heap_of known nw timed _ w Hok) as Hheap. pose proof (sk_efd _ _ _ _ _ (proj1 Hok)) as Hefd.
  destruct (eventfd_armed_ (me w)); [by left|right].
  set (l := user_data <$> sq_pending (sq (s_io (me w)))).
  assert (Hl : Z.of_nat (length l) = sq_count (sq (s_io (me w)))).
  { unfold l. by rewrite length_fmap, length_sq_pending. }
  assert (Hin : forall p, p ∈ l -> p ∈ outstanding (at_kernel (kern w) (cq (s_io (me w)))) (me w)).
  { intros p Hp. apply elem_of_app. by right. }
  rewrite length_staged_kinds in Hl by (intros p Hp; apply (hk_kinds _ _ _ _ _ _ Hheap), Hin, Hp).
  unfold outstanding in Hefd. rewrite efd_count_app in Hefd. fold l in Hefd.
  rewrite (sf_staged _ _ Hf) in Hu. fold l in Hu.
  assert (Hsz : (length (omap as_awaitable l) <= size (p_waiting Q))%nat).
  { pose proof (hk_once _ _ _ _ _ _ Hheap) as Hnd. unfold outstanding in Hnd. rewrite omap_app in Hnd.
    apply NoDup_app in Hnd as (_ & _ & Hnd). fold l in Hnd.
    rewrite <- size_dom, <- (size_list_to_set (C:=gset nat) _ Hnd). apply subseteq_size.
    intros a Ha%elem_of_list_to_set%as_awaitable_elem. apply elem_of_dom.
    apply (outstanding_waiting _ _ _ _ Hok Hs). by apply Hin. }
  rewrite <- (sf_entries _ _ Hf). lia.
Qed.

(** The call of the kernel leaves the load alone, and makes progress while
    something is waited for. *)
Lemma entered_steady w Q k' Q1 :
  inv w -> armable w -> shutting_down_ (me w) = true -> simulates w Q -> steady Q -> entered_kernel w Q k' Q1 ->
  steady Q1 /\ load Q1 = load Q /\
  (p_waiting Q <> ∅ -> p_ready Q = [] ->
   (exists d, d ∈ p_ready Q1 /\ cqe_user_data d <> AddrEventfdBuf) \/ (k_patience k' < k_patience (kern w))%nat).
Proof.
  intros Hinv Harm Hdown Hs Hst (box & io' & c' & Hbox & Henter & Hready & Hker).
  destruct (armed_first_ok known nw timed w Q Hinv Harm Hs) as [Hinv' Hs'].
  destruct (parm_steady Q Hst) as [Hst' Hl']. destruct (kernel_steady _ _ _ Hker Hst') as [Hst1 Hl1].
  split_and!; [done|congruence|]. intros Hne Hnone.
  assert (kern (armed_first w) = kern w /\ shutting_down_ (me (armed_first w)) = true) as [Hk Hd].
  { unfold armed_first. by destruct (eventfd_armed_ (me w)). }
  rewrite Hd in Henter. rewrite <- Hk. destruct Hinv' as [Hok _].
  destruct (map_choose _ Hne) as (a & k & Ha). replace (p_waiting Q) with (p_waiting (parm Q)) in Ha by exact (f_equal fst Hl').
  pose proof (proj2 (outstanding_waiting _ _ _ a Hok Hs') (mk_is_Some _ _ Ha)) as Hout.
  destruct (own_box_ok known nw timed _ _ Hok) as (box' & Hbox' & Hc & _).
  assert (box' = box) as -> by congruence. destruct (enter_spec _ _ _ _ _ _ _ _ _ (sk_io _ _ _ _ _ (proj1 Hok))
    (sq_count_nonneg _) Hc Henter) as (m & done & _ & _ & _ & _ & _ & _ & _ & Hcq & _).
  assert (Hempty : cq_ready (cq (s_io (me (armed_first w)))) = []).
  { rewrite <- (sf_ready _ _ (proj1 Hs')). unfold parm. by destruct (p_armed Q). }
  unfold outstanding, at_kernel in Hout. rewrite !elem_of_app in Hout.
  rewrite Hready. destruct Hout as [[Hin|Hin]|Hin].
  2: { rewrite Hempty in Hin. by apply elem_of_nil in Hin. }
  all: eapply enter_answers; [apply (sk_io _ _ _ _ _ (proj1 Hok))|exact Hc|exact Hempty| |exact Henter].
  all: exists a; rewrite elem_of_app; auto.
Qed.

(** One turn: it returns with nothing ready, and what is left to do is lighter,
    or something was ready before it, or the kernel is less patient; when nothing
    is waited for, nothing is after it either. *)
Lemma shutdown_turn w Q :
  inv w -> shutting_down_ (me w) = true -> simulates w Q -> steady Q ->
  exists w1 w2 Q2, drain w = (Normal tt, w1) /\ reap w1 = (Normal tt, w2) /\
    inv w2 /\ shutting_down_ (me w2) = true /\ simulates w2 Q2 /\ steady Q2 /\ p_done Q2 = 0%nat /\
    p_ready Q2 = [] /\ (p_waiting Q = ∅ -> p_waiting Q2 = ∅) /\
    (p_waiting Q <> ∅ -> lighter (load Q2) (load Q) \/
       load Q2 = load Q /\ (p_ready Q <> [] \/ (k_patience (kern w2) < k_patience (kern w))%nat)).
Proof.
  intros Hinv Hdown Hs Hst. pose proof (room_armable _ _ Hinv Hs (st_untimed _ Hst) (st_room _ Hst)) as Harm.
  pose proof (drain_tracks known nw timed steady w Q Hinv Harm Hs steady_stable
    (fun k' Q1 He => proj1 (entered_steady w Q k' Q1 Hinv Harm Hdown Hs Hst He))) as Hd.
  unfold wp in Hd. destruct (drain w) as [o w1] eqn:Ed. cbn [fst snd] in Hd.
  destruct Hd as (Hpost & Hnormal & Hthrow). destruct o as [[]|e|r]; cbn in Hpost.
  - destruct (Hnormal eq_refl) as (Q1 & Q2 & He & Hdel & Hs2 & Hst2).
    destruct (entered_steady w Q _ Q1 Hinv Harm Hdown Hs Hst He) as (Hst1 & Hl1 & Hprog).
    destruct (deliver_lighter _ _ _ Hst1 eq_refl Hdel) as (_ & Hready2 & Hle). rewrite Hl1 in Hle.
    destruct Hpost as (Hinv1 & _ & _ & Hdown1). exists w1, (reaped w1), (preap Q2).
    split_and!; [done|by eapply reap_eq, Hinv1|apply (reap_safe known nw timed w1 Hinv1)| |
      by eapply reap_refines|by destruct Hst2|done|done| |].
    + by cbn; rewrite Hdown1.
    + intros Hnil. change (fst (load Q2) = ∅). destruct Hle as [Hle|[-> _]]; [|done]. by eapply lighter_nothing.
    + intros Hne. destruct Hle as [Hle|[Hle Hefd]]; [by left|right]. split; [exact Hle|].
      destruct (decide (p_ready Q = [])) as [Hnone|]; [|by left]. right.
      destruct (Hprog Hne Hnone) as [(d & Hd & Hno)|Hlt]; [|exact Hlt].
      rewrite Forall_forall in Hefd. by specialize (Hefd d Hd).
  - destruct (Hthrow e eq_refl) as (Q' & c & Q'' & Hst' & Hc). by apply (complete_lighter _ _ _ _ Hst') in Hc.
  - destruct Hpost as [_ Hno]. congruence.
Qed.

(** First what is waited for, then what is ready, then the kernel's patience. *)
Definition lighter_turn : relation (gmap nat (Z -> proc U) * nat * (nat * nat)) :=
  slexprod _ _ lighter (slexprod _ _ lt lt).

Lemma lighter_turn_wf : well_founded lighter_turn.
Proof. apply wf_slexprod; [apply lighter_wf|apply wf_slexprod; apply lt_wf]. Qed.

(** The loop ends, in a state with everything its turns keep. *)
Lemma shutdown_loop_ends (P : W -> Prop) x :
  (forall w w1 w2, P w -> drain w = (Normal tt, w1) -> reap w1 = (Normal tt, w2) -> P w2) -> forall w Q,
  x = (load Q, (length (p_ready Q), k_patience (kern w))) -> P w -> inv w -> shutting_down_ (me w) = true -> simulates w Q -> steady Q ->
  exists fuel w' Q', (forall n, shutdown_loop (fuel + n) w = (Normal tt, w')) /\
    tasks_ (me w') = [] /\ P w' /\ inv w' /\ simulates w' Q'.
Proof.
  intros Hkeep. induction x as [x IH] using (well_founded_induction lighter_turn_wf). intros w Q -> HP Hinv Hdown Hs Hst.
  destruct (tasks_ (me w)) as [|h ts] eqn:Ets.
  { exists 0%nat, w, Q. split_and!; try done. intros []; cbn; unfold mbind, exec_bind, gets; by rewrite Ets. }
  destruct (shutdown_turn w Q Hinv Hdown Hs Hst)
    as (w1 & w2 & Q2 & Ed & Er & Hinv2 & Hdown2 & Hs2 & Hst2 & Hdone & Hready & Hnil & Hprog).
  assert (Hstep : forall n, shutdown_loop (S n) w = shutdown_loop n w2).
  { intros n. cbn. unfold mbind, exec_bind, gets. by rewrite Ets, Ed, Er. }
  assert (Hrest : exists fuel w' Q', (forall n, shutdown_loop (fuel + n) w2 = (Normal tt, w')) /\
    tasks_ (me w') = [] /\ P w' /\ inv w' /\ simulates w' Q').
  { pose proof (Hkeep _ _ _ HP Ed Er) as HP2. destruct (decide (p_waiting Q = ∅)) as [Hem|Hne].
    - assert (Ht : tasks_ (me w2) = []) by (apply (tasks_nil_iff known nw timed _ _ Q2 (proj1 Hinv2) Hs2); auto).
      exists 0%nat, w2, Q2. split_and!; try done. intros []; cbn; unfold mbind, exec_bind, gets; by rewrite Ht.
    - eapply (IH (load Q2, (length (p_ready Q2), k_patience (kern w2)))); try done. rewrite Hready.
      destruct (Hprog Hne) as [Hl|[-> Hl]]; [by apply left_slex|apply right_slex]. cbn.
      destruct (p_ready Q); [apply right_slex; by destruct Hl|apply left_slex; cbn; lia]. }
  destruct Hrest as (fuel & w' & Q' & Hn & ? & ? & ? & ?). exists (S fuel), w', Q'. split_and!; try done.
  intros n. rewrite <- (Hn n). apply Hstep.
Qed.
(** The state [shutdown] is called in. *)
Record stoppable w : Prop := {
  sd_plain : forall h f, frames (me w) !! h = Some f -> plain_susp (s_id (me w)) (susp f);
  sd_inbox : exists c, own_box w = Some (mkBox [] c);
  sd_untimed : Num 0 ∉ (user_data <$> sq_pending (sq (s_io (me w))));
  sd_room : Z.of_nat (size (awts (me w))) < sq_entries (sq (s_io (me w)))
}.

Lemma stoppable_steady w Q : inv w -> simulates w Q -> stoppable w -> steady Q.
Proof.
  intros [Hok _] Hs [Hp Hb Hu Hr]. pose proof Hs as [Hf Hpr].
  pose proof (heap_of known nw timed _ w Hok) as Hheap. split.
  - intros a k Ha. apply (sp_waiting _ _ _ _ _ Hpr) in Ha. rewrite (sf_id _ _ Hf). by eapply waiting_plain.
  - rewrite (p_box_own w Q Hs). done.
  - intros a Ha. rewrite (sf_next _ _ Hf). apply (hk_awt_old _ _ _ _ _ _ Hheap).
    by apply (awts_waiting known nw timed _ w Q a Hok Hs).
  - rewrite (sf_staged _ _ Hf). unfold nulls. apply length_zero_iff_nil. apply elem_of_nil_inv.
    intros p [-> Hin]%list_elem_of_filter. by apply Hu.
  - by rewrite (sf_entries _ _ Hf), (size_waiting _ w Q Hok Hs).
Qed.

(** C5: [shutdown] ends.  In every state reached at the top of the loop, whatever
    interfered inside earlier turns, in which the tasks left
    neither spawn, use a deadline nor post to this scheduler, its inbox is
    empty and it has fewer operations outstanding than ring slots, a kernel
    that eventually answers makes [shutdown] return: there is a number of
    turns after which, however much fuel is left, it has returned normally,
    with every task run to its end and reaped, and no coroutine frame,
    awaitable or outstanding operation left. *)
Theorem shutdown_terminates p w :
  freach p AtTop w -> stoppable w ->
  exists fuel w', (forall n, shutdown (fuel + n) w = (Normal tt, w')) /\
    tasks_ (me w') = [] /\ frames (me w') = ∅ /\ awts (me w') = ∅ /\
    forall a, AddrAwaitable a ∉ outstanding (at_kernel (kern w') (cq (s_io (me w')))) (me w').
Proof.
  intros Hr Hst. pose proof (freach_closing known nw timed p w Hr) as Hr'.
  destruct (freach_refines known nw timed _ _ _ Hr') as (Q & _ & Hs).
  pose proof (freach_top known nw timed _ _ Hr') as Hinv.
  assert (Hst' : steady Q) by (eapply stoppable_steady; [done|done|by destruct Hst]).
  destruct (shutdown_loop_ends (fun _ => True) _ (fun _ _ _ _ _ _ => I) _ Q eq_refl I Hinv eq_refl Hs Hst')
    as (fuel & w' & Q' & Hn & Ht & _ & Hinv' & Hs').
  exists fuel, w'. split; [exact Hn|]. split; [done|]. by apply (nothing_left known nw timed _ w' Q' (proj1 Hinv') Hs').
Qed.
End Loop.

(** ** A kernel that answers at once *)

Section Eager.
Context (complete : io_uring_sqe -> option Z) (Htotal : forall e, is_Some (complete e)).

(** What is ready stays ready. *)
Lemma pass_keeps l q c rest q' c' d :
  wf_cq q -> 0 <= c -> d ∈ cq_ready q -> complete_all complete l q c = (rest, q', c') -> d ∈ cq_ready q'.
Proof.
  intros Hq Hc Hd E. pose proof (complete_all_spec complete l q c Hq Hc) as Hp. rewrite E in Hp.
  destruct Hp as (done & _ & _ & -> & _). apply elem_of_app. by left.
Qed.

(** With room for one completion more than the eventfd read may take, some
    operation is answered. *)
Lemma pass_answers l : forall q c rest q' c',
  wf_cq q -> 0 <= c -> cq_count q + Z.b2z (0 <? c) < cq_entries q -> (exists a, AddrAwaitable a ∈ (user_data <$> l)) ->
  complete_all complete l q c = (rest, q', c') -> exists d, d ∈ cq_ready q' /\ cqe_user_data d <> AddrEventfdBuf.
Proof.
  induction l as [|e l IH]; intros q c rest q' c' Hq Hc Hroom [a Ha]; cbn [complete_all]; [by apply elem_of_nil in Ha|].
  assert (Hr : cq_count q < cq_entries q) by (destruct (0 <? c); cbn in Hroom; lia).
  rewrite (proj2 (Z.ltb_lt _ _) Hr). case_decide as He.
  - assert (Hl : exists a, AddrAwaitable a ∈ (user_data <$> l)).
    { exists a. cbn in Ha. apply elem_of_cons in Ha as [Ha|Ha]; [congruence|done]. }
    destruct (0 <? c) eqn:Ec.
    + destruct (cq_push_spec (mkCqe (user_data e) 8 0) q Hq Hr) as (Hwf & _ & Hcount).
      apply IH; [done|done| |done]. rewrite Hcount. cbn in *. lia.
    + destruct (complete_all complete l q c) as [[r1 q1] c1] eqn:E1. intros [= <- <- <-].
      eapply IH; [exact Hq|exact Hc| |exact Hl|exact E1]. by rewrite Ec.
  - destruct (Htotal e) as [r ->]. destruct (cq_push_spec (mkCqe (user_data e) r 0) q Hq Hr) as (Hwf & Hready & _).
    intros E. exists (mkCqe (user_data e) r 0). split; [|done]. eapply pass_keeps; [exact Hwf|exact Hc| |exact E].
    rewrite Hready. apply elem_of_app. right. by apply list_elem_of_singleton.
Qed.

(** It never lets a caller wait. *)
Definition eager_kernel : @ResponsiveKernel _ (simple_kernel complete).
Proof.
  refine (@Build_ResponsiveKernel _ (simple_kernel complete) (fun _ => 0%nat) _).
  intros k f io c k' io' c' [_ Hcq] Hc Hnone Ha E. left. cbn in *. unfold simple_enter in E.
  rewrite Nat.min_r, firstn_all in E by (pose proof (length_sq_pending (sq io)); lia).
  destruct (complete_all complete (k ++ sq_pending (sq io)) (cq io) c) as [[rest q'] c''] eqn:Ep.
  cbn in E. injection E as <- <- <-. cbn. eapply pass_answers; [exact Hcq|exact Hc| |by rewrite fmap_app|exact Ep].
  pose proof (length_cq_ready (cq io)) as Hlen. rewrite Hnone in Hlen. cbn in Hlen.
  destruct (wf_cq_pow2 _ Hcq) as [n [Hn ->]]. assert (2 ^ 1 <= 2 ^ n) by (apply Z.pow_le_mono_r; lia).
  destruct (0 <? c); cbn; lia.
Defined.
End Eager.

#[local] Existing Instance demo_kernel.
#[local] Existing Instance demo_kernel_spec.
#[local] Instance demo_responsive : ResponsiveKernel (list io_uring_sqe) := eager_kernel always_completes ltac:(by eexists).

(** The task of the running example still waits for its read. *)
Lemma shutdown_terminates_witness :
  tasks_ (me demo_idle) <> [] /\ stoppable demo_idle /\
  exists fuel w', (forall n, shutdown (fuel + n) demo_idle = (Normal tt, w')) /\ tasks_ (me w') = [] /\ frames (me w') = ∅.
Proof.
  assert (Hst : stoppable demo_idle).
  { split; [|by exists 0| |vm_compute; reflexivity].
    - change (map_Forall (fun _ f => plain_susp (s_id (me demo_idle)) (susp f)) (frames (me demo_idle))).
      apply map_Forall_to_list. vm_compute. repeat constructor.
    - apply (bool_decide_unpack _). vm_compute. exact I. }
  split; [vm_compute; discriminate|]. split; [exact Hst|].
  destruct (shutdown_terminates demo_known 0 false 0 demo_idle (reach_freach _ _ _ _ _ demo_idle_reach) Hst) as (fuel & w' & Hn & Ht & Hf & _).
  exists fuel, w'. exact (conj Hn (conj Ht Hf)).
Defined.
