(* ===== verification/Jobs.v ===== *)
(** * Jobs: posted work is neither lost nor done twice

    The programs of tests2/ post callables that spawn one task each and count
    the tasks that end.  This file is their bookkeeping at the level of the
    specification.  A callable weighs what its task adds to a counter, once,
    after its last operation; the weight of the callables queued in all
    inboxes, of the tasks that wait for an operation and of what has been
    counted adds up to the same number before and after anything a scheduler
    does: refused spawns and requeues, hand-offs to workers, saturated eventfds
    and operations skipped on a full queue included. *)
From stdpp Require Import prelude list gmap.
From Stdlib Require Import ZArith Lia.
From S2P Require Import Prelude ErrorCodes Ring Operations Awaitable Task Machine Kernel Scheduler Heap Safety EventLoop Follows Wakeup Interleave Process Chains Refine RefineLoop Execution Stepwise Shutdown.

(** [[&scheduler]() { scheduler.spawn(t); }]: an exception of [spawn] leaves
    the callable. *)
Definition job {U} (t : coro U) : callable U :=
  FnSpawn t (fun e => match e with Some e => FnThrow e | None => FnReturn end).

(** Callables waiting in all inboxes. *)
Definition queued {U} (s : shared U) : nat :=
  map_fold (fun _ box n => (length (inbox_ box) + n)%nat) 0%nat (boxes s).

Lemma queued_insert {U} (s : shared U) d b b' :
  boxes s !! d = Some b ->
  (queued (with_boxes (<[d := b']> (boxes s)) s) + length (inbox_ b) = queued s + length (inbox_ b'))%nat.
Proof.
  intros Hd. unfold queued. cbn.
  rewrite (map_fold_delete_L _ _ d b (boxes s)) by (done || lia).
  rewrite <- insert_delete_eq, map_fold_insert_L by (rewrite ?lookup_delete_eq; done || lia). lia.
Qed.

Lemma queued_zero {U} (s : shared U) d box : queued s = 0%nat -> boxes s !! d = Some box -> inbox_ box = [].
Proof.
  intros H0 Hd. pose proof (queued_insert s d box (mkBox [] 0) Hd) as Hq. apply length_zero_iff_nil. cbn in Hq. lia.
Qed.

(** ** Weighing maps *)

Section Weigh.
Context {A : Type} (f : A -> Z).

Definition weigh (m : gmap nat A) : Z := map_fold (fun _ x n => f x + n) 0 m.

Lemma weigh_empty : weigh ∅ = 0.
Proof. apply map_fold_empty. Qed.

Lemma weigh_insert_None m i x : m !! i = None -> weigh (<[i := x]> m) = f x + weigh m.
Proof. intros Hi. unfold weigh. rewrite map_fold_insert_L by (done || lia). done. Qed.

Lemma weigh_delete m i x : m !! i = Some x -> weigh m = f x + weigh (delete i m).
Proof. intros Hi. unfold weigh. rewrite (map_fold_delete_L _ _ i x m) by (done || lia). done. Qed.

Lemma weigh_insert m i x y : m !! i = Some x -> weigh (<[i := y]> m) + f x = weigh m + f y.
Proof.
  intros Hi. rewrite (weigh_delete m i x Hi), <- insert_delete_eq, weigh_insert_None by apply lookup_delete_eq. lia.
Qed.

Lemma weigh_bound c m : (forall i x, m !! i = Some x -> c <= f x) -> c * Z.of_nat (size m) <= weigh m.
Proof.
  induction m as [|i x m Hi IH] using map_ind; intros Hm; [rewrite map_size_empty, weigh_empty; lia|].
  rewrite map_size_insert_None, weigh_insert_None by done. pose proof (Hm i x (lookup_insert_eq _ _ _)).
  assert (c * Z.of_nat (size m) <= weigh m); [|lia]. apply IH. intros j y Hj. apply (Hm j). by rewrite lookup_insert_ne by congruence.
Qed.
End Weigh.

Lemma weigh_const {A} (f : A -> Z) c (m : gmap nat A) :
  (forall i x, m !! i = Some x -> f x = c) -> weigh f m = c * Z.of_nat (size m).
Proof.
  induction m as [|i x m Hi IH] using map_ind; intros Hm; [rewrite map_size_empty, weigh_empty; lia|].
  rewrite map_size_insert_None, weigh_insert_None by done. rewrite (Hm i x (lookup_insert_eq _ _ _)), IH; [lia|].
  intros j y Hj. apply (Hm j). by rewrite lookup_insert_ne by congruence.
Qed.

Lemma weigh_ext {A} (f f' : A -> Z) (m : gmap nat A) :
  (forall i x, m !! i = Some x -> f x = f' x) -> weigh f m = weigh f' m.
Proof.
  induction m as [|i x m Hi IH] using map_ind; intros Hm; [by rewrite !weigh_empty|].
  rewrite !weigh_insert_None by done. rewrite (Hm i x (lookup_insert_eq _ _ _)), IH; [done|].
  intros j y Hj. apply (Hm j). by rewrite lookup_insert_ne by congruence.
Qed.

Lemma queued_weigh {U} (s : shared U) : Z.of_nat (queued s) = weigh (fun box => Z.of_nat (length (inbox_ box))) (boxes s).
Proof.
  unfold queued. induction (boxes s) as [|i x m Hi IH] using map_ind; [by rewrite map_fold_empty|].
  rewrite weigh_insert_None, map_fold_insert_L by (done || lia). lia.
Qed.

(** ** What a job adds to a counter *)

Section Counts.
(** The counter, and an invariant of the user state. *)
Context {U : Type} (g : U -> Z) (I : U -> Prop).
Implicit Types (p : proc U) (Q : pool U).

(** User code keeps the invariant and adds [n] to the counter. *)
Definition adds (n : Z) (f : U -> U * Z) : Prop :=
  forall u, I u -> I (fst (f u)) /\ g (fst (f u)) = g u + n.

(** The counter no longer moves, and nothing is waited for. *)
Fixpoint silent p : Prop :=
  match p with
  | PDone _ => True
  | PDo f k => adds 0 f /\ forall z, silent (k z)
  | _ => False
  end.

(** Whatever the results, the process ends and adds [n] to the counter, in one
    go and after its last operation. *)
Fixpoint counts (n : Z) p : Prop :=
  match p with
  | PDo f k => (adds 0 f /\ forall z, counts n (k z)) \/ (adds n f /\ forall z, silent (k z))
  | PAwait _ timeout k => timeout = None /\ forall z, counts n (k z)
  | _ => False
  end.

(** What it adds, found by running it. *)
Fixpoint pweight (u : U) p : Z :=
  match p with
  | PDo f k => g (fst (f u)) - g u + pweight (fst (f u)) (k (snd (f u)))
  | PAwait _ _ k => pweight u (k 0)
  | _ => 0
  end.

Lemma silent_weight p : forall u, I u -> silent p -> pweight u p = 0.
Proof.
  induction p as [r|f k IH|op to k IH|t _ k _|dst f k IH]; cbn; intros u Hu Hp; try done.
  destruct Hp as [Hf Hk]. destruct (Hf u Hu) as [Hu' Hg]. rewrite IH by done. lia.
Qed.

Lemma counts_weight n p : forall u, I u -> counts n p -> pweight u p = n.
Proof.
  induction p as [r|f k IH|op to k IH|t _ k _|dst f k IH]; cbn; intros u Hu Hp; try done.
  - destruct Hp as [[Hf Hk]|[Hf Hk]]; destruct (Hf u Hu) as [Hu' Hg]; [rewrite IH by done|rewrite silent_weight by done]; lia.
  - apply IH; [done|apply Hp].
Qed.

Lemma prun_boxes n p : counts n p \/ silent p -> forall Q, boxes (p_shared (snd (prun p Q))) = boxes (p_shared Q).
Proof.
  induction p as [r|f k IH|op to k IH|t _ k _|dst f k IH]; cbn; intros Hp Q; try tauto.
  - unfold mbind, exec_bind, p_user. destruct (f (user (p_shared Q))) as [u z]. rewrite IH by naive_solver. done.
  - unfold mbind, exec_bind, p_await. destruct (p_entries Q <? _); [|done]. rewrite IH by naive_solver. done.
Qed.

Lemma counts_plain n id p : counts n p \/ silent p -> plain id p.
Proof. induction p as [r|f k IH|op to k IH|t _ k _|dst f k IH]; cbn; naive_solver. Qed.
End Counts.

(** ** The books *)

(** What the jobs of a program are counted by: a counter in the user state, an
    invariant of that state with a sample that has it, whether every job adds
    exactly one, and, when the counter belongs to one worker, which one. *)
Record book (U : Type) : Type := mkBook {
  counter : U -> Z;
  keeps : U -> Prop;
  sample : U;
  unit_ : bool;
  who : option nat
}.
Arguments mkBook {U}.
Arguments counter {U} b u.
Arguments keeps {U} b u.
Arguments sample {U} b.
Arguments unit_ {U} b.
Arguments who {U} b.

(** How many of the first [v] jobs the dispatcher hands to worker [i]. *)
Fixpoint handed (nw i : nat) (v : nat) : Z :=
  match v with
  | O => 0
  | S v => handed nw i v + (if decide ((v mod nw)%nat = i) then 1 else 0)
  end.

(** In closed form: the shares differ by at most one. *)
Lemma handed_share nw i n : (i < nw)%nat ->
  handed nw i n = Z.of_nat (n / nw) + (if decide (i < n mod nw)%nat then 1 else 0).
Proof.
  intros Hi. assert (Hnw : nw <> 0%nat) by lia. induction n as [|n IH]; cbn [handed].
  - rewrite Nat.Div0.div_0_l, Nat.Div0.mod_0_l. rewrite decide_False by lia. done.
  - rewrite IH. pose proof (Nat.div_mod n nw Hnw) as Hd. pose proof (Nat.mod_upper_bound n nw Hnw) as Hm.
    destruct (decide (S (n mod nw) = nw)) as [He|Hne].
    + rewrite <- (Nat.div_unique (S n) nw (S (n / nw)) 0), <- (Nat.mod_unique (S n) nw (S (n / nw)) 0) by lia.
      repeat case_decide; lia.
    + rewrite <- (Nat.div_unique (S n) nw (n / nw) (S (n mod nw))), <- (Nat.mod_unique (S n) nw (n / nw) (S (n mod nw))) by lia.
      repeat case_decide; lia.
Qed.

(** Every job adds one. *)
Definition count_book {U} (g : U -> Z) (I : U -> Prop) (u : U) : book U := mkBook g I u true None.

Section Jobs.
Context {U : Type} (B : book U) (nw : nat) (E : Z).
#[local] Abbreviation g := (counter B).
#[local] Abbreviation I := (keeps B).
#[local] Abbreviation adds := (adds g I).
#[local] Abbreviation silent := (silent g I).
#[local] Abbreviation counts := (counts g I).
#[local] Abbreviation pweight := (pweight g).
Implicit Types (p : proc U) (Q : pool U).

(** The weights a job may have, and what worker [i] adds to it. *)
Definition weight_ok (n : Z) : Prop := 0 <= n /\ (unit_ B = true -> n = 1).
Definition share (i : nat) : Z :=
  match who B with Some j => if decide (i = j) then 1 else 0 | None => 0 end.

(** What may be in an inbox: a job, or one to hand to a worker. *)
Definition counted_job (n : Z) (h : nat -> callable U) : Prop :=
  (0 < nw)%nat /\ weight_ok n /\
  forall i, (i < nw)%nat -> weight_ok (n + share i) /\ exists t, h i = job t /\ counts (n + share i) (denote t).

Inductive is_job : callable U -> Prop :=
| job_spawn n t : weight_ok n -> counts n (denote t) -> is_job (job t)
| job_dispatch n h : counted_job n h -> is_job (FnDispatch h).

Definition fweight (f : callable U) : Z :=
  match f with
  | FnSpawn t _ => pweight (sample B) (denote t)
  | FnDispatch h => match h 0%nat with FnSpawn t _ => pweight (sample B) (denote t) - share 0 | _ => 0 end
  | _ => 0
  end.
Definition lweight (l : list (callable U)) : Z := foldr (fun f n => fweight f + n) 0 l.
Definition bweight (box : mailbox U) : Z := lweight (inbox_ box).
Definition wweight (k : Z -> proc U) : Z := pweight (sample B) (k 0).

(** Jobs still to be handed out. *)
Definition is_dispatch (f : callable U) : nat := match f with FnDispatch _ => 1 | _ => 0 end.
Definition ldispatch (l : list (callable U)) : nat := foldr (fun f n => is_dispatch f + n)%nat 0%nat l.
Definition bdispatch (box : mailbox U) : Z := Z.of_nat (ldispatch (inbox_ box)).

(** What has been handed out to the worker whose counter it is. *)
Definition given (s : shared U) : Z :=
  match who B with Some i => handed nw i (Z.to_nat (next_worker_ s)) | None => 0 end.

Definition dispatch_ok (d : nat) (P : Z) (s : shared U) : Prop :=
  0 <= next_worker_ s /\ Z.of_nat d + weigh bdispatch (boxes s) + next_worker_ s = P /\ P < 2 ^ 64.

(** Jobs of weight [m], [d] of them to be handed out, are in the hands of a
    scheduler with [E] ring slots; in all, jobs of weight [N] were posted, [P]
    of them to be handed out. *)
Record accounted (m : Z) (d : nat) (N P : Z) Q : Prop := {
  ac_jobs : forall b box, boxes (p_shared Q) !! b = Some box -> Forall is_job (inbox_ box);
  ac_counts : forall a k, p_waiting Q !! a = Some k -> exists n, weight_ok n /\ forall z, counts n (k z);
  ac_next : forall a, is_Some (p_waiting Q !! a) -> (a < p_next Q)%nat;
  ac_untimed : nulls (user_data <$> p_staged Q) = 0%nat;
  ac_total : m + weigh bweight (boxes (p_shared Q)) + weigh wweight (p_waiting Q) + g (user (p_shared Q)) = N + given (p_shared Q);
  ac_dispatch : forall i, who B = Some i -> dispatch_ok d P (p_shared Q);
  ac_bumps : 0 <= g (user (p_shared Q));
  ac_user : I (user (p_shared Q));
  ac_workers : workers (p_shared Q) = nw;
  ac_entries : p_entries Q = E
}.

(** The part of it that concerns the scheduler alone. *)
Record tidy Q : Prop := {
  td_counts : forall a k, p_waiting Q !! a = Some k -> exists n, weight_ok n /\ forall z, counts n (k z);
  td_next : forall a, is_Some (p_waiting Q !! a) -> (a < p_next Q)%nat;
  td_untimed : nulls (user_data <$> p_staged Q) = 0%nat
}.

Lemma accounted_tidy m d N P Q : accounted m d N P Q -> tidy Q.
Proof. intros []. by split. Qed.

(** An action that accounts for the jobs it was given, up to [m] and [d]. *)
Definition accounts {A} (m : Z) (d : nat) (N P : Z) (r : exec (pool U) exn A) Q : Prop :=
  wp r (fun o Q' => match o with
                    | Normal _ => accounted m d N P Q' /\ p_id Q' = p_id Q
                    | Throw _ => False
                    | Stuck _ => True
                    end) Q.

Context (Hsample : I (sample B)).

Lemma is_job_spawn_weight n t : counts n (denote t) -> fweight (job t) = n.
Proof. apply (counts_weight g I), Hsample. Qed.

Lemma is_job_dispatch_weight n h : counted_job n h -> fweight (FnDispatch h) = n.
Proof.
  intros (Hnw & _ & Hh). destruct (Hh 0%nat Hnw) as (_ & t & Et & Ht). cbn. rewrite Et. cbn.
  rewrite (counts_weight g I _ _ _ Hsample Ht). lia.
Qed.

Lemma is_job_weight f : is_job f -> weight_ok (fweight f).
Proof.
  intros [n t Hn Ht|n h Hh]; [by rewrite (is_job_spawn_weight n)|].
  rewrite (is_job_dispatch_weight n) by done. apply Hh.
Qed.

Lemma wweight_eq n k : (forall z, counts n (k z)) -> wweight k = n.
Proof. intros Hk. by apply (counts_weight g I). Qed.

Lemma lweight_app l l' : lweight (l ++ l') = lweight l + lweight l'.
Proof. unfold lweight. induction l as [|f l IH]; cbn in *; [done|lia]. Qed.
Lemma ldispatch_app l l' : ldispatch (l ++ l') = (ldispatch l + ldispatch l')%nat.
Proof. unfold ldispatch. induction l as [|f l IH]; cbn in *; [done|lia]. Qed.

Lemma lweight_bound l : Forall is_job l -> 0 <= lweight l.
Proof. unfold lweight. induction 1 as [|f l Hf _ IH]; cbn; [done|]. apply is_job_weight in Hf as [? _]. lia. Qed.
Lemma lweight_unit l : unit_ B = true -> Forall is_job l -> lweight l = Z.of_nat (length l).
Proof. intros Hu. unfold lweight. induction 1 as [|f l Hf _ IH]; cbn; [done|]. apply is_job_weight in Hf as [_ Hf]. rewrite (Hf Hu). lia. Qed.

(** The two sums, when a mailbox changes. *)
Lemma weigh_boxes (s : shared U) b box box' :
  boxes s !! b = Some box ->
  weigh bweight (<[b := box']> (boxes s)) = weigh bweight (boxes s) + (lweight (inbox_ box') - lweight (inbox_ box)) /\
  weigh bdispatch (<[b := box']> (boxes s)) = weigh bdispatch (boxes s) + (Z.of_nat (ldispatch (inbox_ box')) - Z.of_nat (ldispatch (inbox_ box))).
Proof.
  intros Hb. pose proof (weigh_insert bweight _ _ _ box' Hb) as H1. pose proof (weigh_insert bdispatch _ _ _ box' Hb) as H2.
  unfold bweight, bdispatch in *. lia.
Qed.

(** When every job adds one, the books count jobs. *)
Lemma accounted_unit d N P Q :
  unit_ B = true -> who B = None -> accounted 0 d N P Q ->
  Z.of_nat (queued (p_shared Q)) + Z.of_nat (size (p_waiting Q)) + g (user (p_shared Q)) = N.
Proof.
  intros Hu Hwho [Hj Hc _ _ Ht _ _ _ _ _]. unfold given in Ht. rewrite Hwho in Ht.
  rewrite (weigh_const wweight 1) in Ht.
  - rewrite (weigh_ext bweight (fun box => Z.of_nat (length (inbox_ box)))), <- queued_weigh in Ht; [lia|].
    intros b box Hb. apply lweight_unit; [done|by eapply Hj].
  - intros a k Hk. destruct (Hc a k Hk) as (n & [_ Hn] & Hn'). rewrite (wweight_eq n k Hn'). by apply Hn.
Qed.

(** A mailbox changes, and what is in hand with it. *)
Lemma accounted_boxed m d N P Q b box box' m' d' N' P' :
  accounted m d N P Q -> boxes (p_shared Q) !! b = Some box -> Forall is_job (inbox_ box') ->
  m' + lweight (inbox_ box') - N' = m + lweight (inbox_ box) - N ->
  Z.of_nat (d' + ldispatch (inbox_ box')) - P' = Z.of_nat (d + ldispatch (inbox_ box)) - P ->
  (forall i, who B = Some i -> P < 2 ^ 64 -> P' < 2 ^ 64) ->
  accounted m' d' N' P' (with_shared (with_boxes (<[b := box']> (boxes (p_shared Q))) (p_shared Q)) Q).
Proof.
  intros [Hj Hc Hn Hu Ht Hd Hb HI Hw He] Hbox Hf Hm Hdd HP. destruct (weigh_boxes _ _ _ box' Hbox) as [E1 E2].
  split; cbn; try done.
  - intros b' x [[_ <-]|[_ Hx]]%lookup_insert_Some; [done|by eapply Hj].
  - rewrite E1. unfold given in *. cbn. lia.
  - intros i Hi. destruct (Hd i Hi) as (H0 & Hs & HP'). unfold dispatch_ok. cbn. rewrite E2. split_and!; [done|lia|eauto].
Qed.

Lemma accounted_user m d N P f Q n :
  accounted m d N P Q -> 0 <= n -> adds n f -> accounted m d (N + n) P (snd (p_user f Q)).
Proof.
  intros [] Hn Hf. unfold p_user. destruct (Hf (user (p_shared Q)) ac_user0) as [Hu Hg]. destruct (f (user (p_shared Q))) as [u z].
  split; cbn in *; try done; unfold given in *; cbn in *; lia.
Qed.

(** Between what is in hand and what was posted. *)
Lemma accounted_shift m d N P Q m' N' : m - N = m' - N' -> accounted m d N P Q -> accounted m' d N' P Q.
Proof. intros E0 []. split; try done. lia. Qed.

Lemma prun_silent p : silent p -> forall m d N P Q, accounted m d N P Q -> accounts m d N P (prun p) Q.
Proof.
  induction p as [r|f k IH|op to k IH|t _ k _|dst f k IH]; cbn; intros Hp m d N P Q Ha; try done.
  destruct Hp as [Hf Hk]. unfold accounts. apply wp_bind.
  assert (Ha' : accounted m d N P (snd (p_user f Q))).
  { replace N with (N + 0) by lia. by apply accounted_user. }
  unfold wp, p_user in *. destruct (f (user (p_shared Q))) as [u z]. exact (IH z (Hk z) m d N P _ Ha').
Qed.

Lemma prun_counts n p : weight_ok n -> counts n p -> forall m d N P Q, accounted (n + m) d N P Q -> accounts m d N P (prun p) Q.
Proof.
  intros Hn. induction p as [r|f k IH|op to k IH|t _ k _|dst f k IH]; cbn; intros Hp m d N P Q Ha; try done.
  - unfold accounts. apply wp_bind. destruct Hp as [[Hf Hk]|[Hf Hk]].
    + assert (Ha' : accounted (n + m) d N P (snd (p_user f Q))).
      { replace N with (N + 0) by lia. by apply accounted_user. }
      unfold wp, p_user in *. destruct (f (user (p_shared Q))) as [u z]. exact (IH z (Hk z) m d N P _ Ha').
    + assert (Ha' : accounted m d N P (snd (p_user f Q))).
      { replace N with (N - n + n) by lia. apply accounted_user; [|apply Hn|done]. eapply accounted_shift; [|exact Ha]. lia. }
      unfold wp, p_user in *. destruct (f (user (p_shared Q))) as [u z]. exact (prun_silent _ (Hk z) m d N P _ Ha').
  - destruct Hp as [-> Hk]. destruct Ha as [Hj Hc Hnx Hu Ht Hd Hb Hi Hw He].
    unfold accounts, wp, mbind, exec_bind, p_await. destruct (p_entries Q <? _) eqn:Efull; cbn [fst snd].
    + apply (IH 0 (Hk 0) m d N P (with_waiting (p_waiting Q) (S (p_next Q)) Q)). split; cbn; try done.
      intros a Ha%Hnx. lia.
    + assert (Hfresh : p_waiting Q !! p_next Q = None) by (apply eq_None_not_Some; intros Hs%Hnx; lia).
      split; [|done]. split; cbn; [done| | | | |done|done|done|done|done].
      * intros a k' [[_ <-]|[_ Hk']]%lookup_insert_Some; [by exists n|by eapply Hc].
      * intros a [->|Ha%Hnx]%is_Some_insert; lia.
      * by rewrite nulls_staged.
      * rewrite weigh_insert_None, (wweight_eq n) by done. lia.
Qed.

(** *** A turn *)

Lemma pspawn_accounts n t m d N P Q :
  weight_ok n -> counts n (denote t) -> accounted (n + m) d N P Q ->
  wp (pspawn (denote t)) (fun o Q' => match o with
                                      | Normal None => accounted m d N P Q' /\ p_id Q' = p_id Q
                                      | Normal (Some e) => Q' = Q /\ e = IOException SQFull
                                      | Throw _ => False
                                      | Stuck _ => True
                                      end) Q.
Proof.
  intros Hn Ht Ha. unfold pspawn. wp_steps. destruct (p_full Q); [by wp_steps|].
  apply wp_bind. eapply wp_mono; [by apply (prun_counts n (denote t) Hn Ht m d N P)|].
  intros [e| |] Q1 H1; [|done|done]. destruct H1 as [[] Hid]. unfold p_finish. wp_steps.
  destruct e; (split; [by split|done]).
Qed.

(** Handing a job to a scheduler. *)
Lemma ppost_accounts dst f m d N P Q :
  is_job f -> accounted (fweight f + m) (is_dispatch f + d)%nat N P Q ->
  wp (p_post dst f) (fun o Q' => match o with
                                 | Normal _ => accounted m d N P Q' /\ p_id Q' = p_id Q
                                 | Throw e => (accounted m d N P Q' /\ p_id Q' = p_id Q) /\ e = IOException EventFdWriteFailed
                                 | Stuck _ => True
                                 end) Q.
Proof.
  intros Hf Ha. unfold wp, p_post, post_shared.
  destruct (boxes (p_shared Q) !! dst) as [box|] eqn:Eb; [|done].
  assert (Hac : forall c, accounted m d N P
    (with_shared (with_boxes (<[dst := mkBox (inbox_ box ++ [f]) c]> (boxes (p_shared Q))) (p_shared Q)) Q)).
  { intros c. eapply accounted_boxed; [exact Ha|exact Eb| | | |done]; cbn.
    - apply Forall_app. split; [by eapply ac_jobs|by constructor].
    - rewrite lweight_app. cbn. lia.
    - rewrite ldispatch_app. cbn. lia. }
  destruct (EFD_MAX <? _); cbn; auto.
Qed.

Lemma handed_next i (v : Z) : 0 <= v ->
  handed nw i (Z.to_nat (v + 1)) = handed nw i (Z.to_nat v) + (if decide (Z.to_nat (v mod Z.of_nat nw) = i) then 1 else 0).
Proof.
  intros Hv. rewrite Z2Nat.inj_add, Nat.add_1_r by lia. cbn [handed].
  by replace (Z.to_nat v mod nw)%nat with (Z.to_nat (v mod Z.of_nat nw)) by (rewrite Z2Nat.inj_mod, Nat2Z.id; lia).
Qed.

(** The dispatcher takes the next worker. *)
Lemma accounted_taken m d N P Q :
  accounted m (S d) N P Q ->
  accounted (m + share (Z.to_nat (next_worker_ (p_shared Q) mod Z.of_nat nw))) d N P
    (with_shared (with_next_worker (u64 (next_worker_ (p_shared Q) + 1)) (p_shared Q)) Q).
Proof.
  intros [Hj Hc Hn Hu Ht Hd Hb Hi Hw He]. unfold share, given in *. destruct (who B) as [i|] eqn:Ewho.
  - destruct (Hd i eq_refl) as (H0 & Hs & HP).
    assert (0 * Z.of_nat (size (boxes (p_shared Q))) <= weigh bdispatch (boxes (p_shared Q)))
      by (apply weigh_bound; intros; unfold bdispatch; lia).
    assert (Eu : u64 (next_worker_ (p_shared Q) + 1) = next_worker_ (p_shared Q) + 1)
      by (unfold u64, two64; apply Z.mod_small; lia).
    split; cbn; try done; rewrite ?Eu; try done.
    + unfold given. cbn. rewrite Ewho, handed_next by done. lia.
    + intros ? _. unfold dispatch_ok. cbn. lia.
  - split; cbn; try done; unfold given; rewrite ?Ewho; try done. lia.
Qed.

(** A callable: it is still in hand when it met a full queue, and done with
    otherwise. *)
Lemma pinvoke_accounts f m d N P Q :
  is_job f -> accounted (fweight f + m) (is_dispatch f + d)%nat N P Q ->
  wp (pinvoke f) (fun o Q' => match o with
                              | Normal _ => accounted m d N P Q' /\ p_id Q' = p_id Q
                              | Throw (IOException SQFull) => accounted (fweight f + m) (is_dispatch f + d)%nat N P Q' /\ p_id Q' = p_id Q
                              | Throw (IOException _) => accounted m d N P Q' /\ p_id Q' = p_id Q
                              | Throw _ => False
                              | Stuck _ => True
                              end) Q.
Proof.
  intros Hf Ha. destruct Hf as [n t Hn Ht|n h Hh].
  - pose proof (is_job_spawn_weight n t Ht) as Et. rewrite Et in Ha |- *.
    cbn [pinvoke job]. apply wp_bind. eapply wp_mono; [by apply (pspawn_accounts n t m d N P)|].
    intros [[e|]|e|r] Q1 H1; [|exact H1|done|done]. by destruct H1 as [-> ->].
  - rewrite (is_job_dispatch_weight n h Hh) in Ha. destruct Hh as (_ & _ & Hh).
    cbn [pinvoke]. wp_steps. set (s := p_shared Q). destruct (workers s) as [|k] eqn:Ew; [done|].
    pose proof (ac_workers _ _ _ _ _ Ha) as Enw. fold s in Enw. rewrite <- Ew, Enw. set (idx := Z.to_nat _).
    destruct (Hh idx) as (Hok & t & -> & Ht).
    { pose proof (Z.mod_pos_bound (next_worker_ s) (Z.of_nat nw)). unfold idx. lia. }
    pose proof (is_job_spawn_weight _ _ Ht) as Et. apply accounted_taken in Ha. fold s idx in Ha.
    eapply wp_mono; [apply (ppost_accounts (S idx) (job t) m d N P); [by eapply job_spawn|]|].
    + rewrite Et. eapply accounted_shift; [|exact Ha]. lia.
    + intros [[]|e|] Q1 H1; [exact H1| |done]. by destruct H1 as [H1 ->].
Qed.

Lemma pitem_accounts f m d N P Q :
  is_job f -> accounted (fweight f + m) (is_dispatch f + d)%nat N P Q -> accounts m d N P (pitem f) Q.
Proof.
  intros Hf Ha. unfold accounts, pitem. apply wp_bind, wp_try. eapply wp_mono; [by apply pinvoke_accounts|].
  intros [[]|[st|]|] Q1 H1; try done. case_decide as Hst; [subst st|by destruct st].
  destruct H1 as [H1 Hid]. wp_steps. eapply wp_mono; [by apply (ppost_accounts (p_id Q1) f m d N P)|].
  intros [[]|e|] Q2 H2; [|destruct H2 as [H2 _]|done]; wp_steps; (split; [apply H2|destruct H2; congruence]).
Qed.

Lemma pitems_account l m d N P : forall Q, Forall is_job l ->
  accounted (lweight l + m) (ldispatch l + d)%nat N P Q -> accounts m d N P (pitems l) Q.
Proof.
  induction l as [|f l IH]; intros Q Hl Ha; [done|]. cbn [pitems].
  apply Forall_cons in Hl as [Hf Hl]. apply wp_bind.
  eapply wp_mono; [apply (pitem_accounts f (lweight l + m) (ldispatch l + d) N P Q Hf)|].
  { replace (fweight f + (lweight l + m)) with (lweight (f :: l) + m) by (unfold lweight, ldispatch; cbn; lia).
    by replace (is_dispatch f + (ldispatch l + d))%nat with (ldispatch (f :: l) + d)%nat by (unfold lweight, ldispatch; cbn; lia). }
  intros [[]| |] Q1 H1; try done. destruct H1 as [H1 Hid]. eapply wp_mono; [by apply IH|].
  intros [[]| |] Q2 H2; try done. destruct H2 as [H2 Hid2]. split; [done|congruence].
Qed.

Lemma pinbox_accounts N P Q : accounted 0 0 N P Q -> accounts 0 0 N P pinbox Q.
Proof.
  intros Ha. unfold pinbox, accounts. wp_steps. unfold demand, wp at 1.
  destruct (boxes (p_shared Q) !! p_id Q) as [box|] eqn:Eb; [|done]. cbn [fst snd]. wp_steps.
  eapply wp_mono; [apply (pitems_account (inbox_ box) 0 0 N P); [by eapply ac_jobs|]|done].
  eapply accounted_boxed; [exact Ha|exact Eb|constructor| | |done]; cbn; lia.
Qed.

Lemma pcomplete_accounts c N P Q : accounted 0 0 N P Q -> accounts 0 0 N P (pcomplete c) Q.
Proof.
  intros Ha. unfold accounts, pcomplete. destruct (cqe_user_data c) as [z|a| | |].
  - by destruct z.
  - apply wp_bind. unfold demand, wp at 1. destruct (p_waiting Q !! a) as [k|] eqn:Ek; [|done]. cbn [fst snd]. wp_steps.
    destruct (ac_counts _ _ _ _ _ Ha a k Ek) as (n & Hn & Hk).
    assert (Ha' : accounted (n + 0) 0 N P (with_waiting (delete a (p_waiting Q)) (p_next Q) Q)).
    { destruct Ha as [Hj Hc Hnx Hu Ht Hd Hb Hi Hw He]. split; cbn; try done.
      - intros b k' [_ Hbd]%lookup_delete_Some. by eapply Hc.
      - intros b [_ Hbd]%is_Some_delete. by apply Hnx.
      - rewrite (weigh_delete wweight _ _ _ Ek), (wweight_eq n k Hk) in Ht. lia. }
    eapply wp_mono; [by apply (prun_counts n (k (res c)) Hn (Hk (res c)) 0 0 N P)|].
    intros [e| |] Q1 H1; try done. destruct H1 as [[] Hid]. unfold p_finish. wp_steps.
    destruct e; (split; [by split|done]).
  - done.
  - wp_steps. eapply wp_mono; [apply (pinbox_accounts N P); by destruct Ha|done].
  - done.
Qed.

Lemma parm_accounts N P Q : accounted 0 0 N P Q -> accounted 0 0 N P (parm Q).
Proof.
  unfold parm. intros Ha. destruct (p_armed Q); [done|]. destruct Ha. split; cbn; try done. by rewrite nulls_efd.
Qed.

Lemma kernel_accounts n m d N P Q Q' : pkernel n Q Q' -> accounted m d N P Q -> accounted m d N P Q'.
Proof.
  intros (box & k & done & flight' & c' & Hb & _ & _ & _ & _ & ->) Ha.
  pose proof (ac_jobs _ _ _ _ _ Ha _ _ Hb) as Hj.
  destruct (accounted_boxed m d N P Q _ box (mkBox (inbox_ box) c') m d N P Ha Hb Hj eq_refl eq_refl (fun _ _ => id)).
  split; cbn in *; try done. rewrite <- (take_drop k (p_staged Q)), fmap_app, nulls_app in ac_untimed0. lia.
Qed.

(** *** The steps inside a turn *)

(** The callables that were taken out of the inbox and not run yet. *)
Definition held (x : ppos U) : list (callable U) :=
  match x with PInbox l _ => l | PRequeue f l _ => f :: l | PPoke l _ => l | _ => [] end.

(** The books, with what is in the hands of the loop at [x]. *)
Definition accounted_at (x : ppos U) (N P : Z) Q : Prop :=
  accounted (lweight (held x)) (ldispatch (held x)) N P Q /\ Forall is_job (held x).

Lemma accounted_popped m d N P l Q : accounted m d N P Q -> accounted m d N P (popped l Q).
Proof. by intros []. Qed.

(** No step of the loop loses or invents a job, and no exception escapes. *)
Lemma pstep_accounts x N P Q o Q' :
  accounted_at x N P Q -> pstep x Q o Q' ->
  match o with Normal x' => accounted_at x' N P Q' | Throw _ => False | Stuck _ => True end.
Proof.
  intros [Ha Hl] Hs.
  destruct Hs as [Q|Q Q' Hk|Q|Q|Q c l n box Hr Hc Hb|Q c l n Q' Hr Hc Hp|Q c l n e Q' Hr Hc Hp|Q c l n Hr|Q f l n Q' Hp|Q f l n Q' Hp
    |Q f l n st Q' Hp Hst|Q f l n tag Q' Hp|Q f l n box Hb|Q l n box Hb|Q]; cbn [held] in *.
  - split; [by apply parm_accounts|constructor].
  - split; [by eapply kernel_accounts|constructor].
  - by split.
  - by split.
  - split; [|by eapply ac_jobs]. eapply (accounted_boxed 0 0 N P (with_flags false (p_down Q) Q)); [by destruct Ha|exact Hb|constructor|..];
      cbn [inbox_ held]; [cbn; lia|cbn; lia|done].
  - pose proof (pcomplete_accounts c N P Q Ha) as H. unfold accounts, wp in H. rewrite Hp in H. split; [|constructor].
    by apply accounted_popped, H.
  - pose proof (pcomplete_accounts c N P Q Ha) as H. unfold accounts, wp in H. by rewrite Hp in H.
  - split; [by apply accounted_popped|constructor].
  - apply Forall_cons in Hl as [Hf Hl]. pose proof (pinvoke_accounts f _ _ _ _ Q Hf Ha) as H. unfold wp in H. rewrite Hp in H. by split; [apply H|].
  - apply Forall_cons in Hl as [Hf Hl]. pose proof (pinvoke_accounts f _ _ _ _ Q Hf Ha) as H. unfold wp in H. rewrite Hp in H.
    split; [apply H|by constructor].
  - apply Forall_cons in Hl as [Hf Hl]. pose proof (pinvoke_accounts f _ _ _ _ Q Hf Ha) as H. unfold wp in H. rewrite Hp in H.
    split; [|done]. destruct st; try done; apply H.
  - apply Forall_cons in Hl as [Hf Hl]. pose proof (pinvoke_accounts f _ _ _ _ Q Hf Ha) as H. unfold wp in H. by rewrite Hp in H.
  - apply Forall_cons in Hl as [Hf Hl]. split; [|done]. eapply accounted_boxed; [exact Ha|exact Hb|..]; cbn [inbox_].
    + apply Forall_app. split; [by eapply ac_jobs|by constructor].
    + rewrite lweight_app. unfold lweight. cbn. lia.
    + rewrite ldispatch_app. unfold ldispatch. cbn. lia.
    + done.
  - split; [|done]. eapply accounted_boxed; [exact Ha|exact Hb|exact (ac_jobs _ _ _ _ _ Ha _ _ Hb)|done..].
  - split; [by destruct Ha|constructor].
Qed.

(** When every job adds one, the books count jobs, those in hand too. *)
Lemma accounted_at_unit x N P Q :
  unit_ B = true -> who B = None -> accounted_at x N P Q ->
  Z.of_nat (queued (p_shared Q)) + Z.of_nat (length (held x)) + Z.of_nat (size (p_waiting Q)) + g (user (p_shared Q)) = N.
Proof.
  intros Hu Hwho [Ha Hl]. rewrite (lweight_unit _ Hu Hl) in Ha.
  assert (H0 : accounted 0 (ldispatch (held x)) (N - Z.of_nat (length (held x))) P Q) by (eapply accounted_shift; [|exact Ha]; lia).
  apply accounted_unit in H0; [lia|done|done].
Qed.

(** *** With empty inboxes *)

Lemma complete_idle c N P Q Q' :
  accounted 0 0 N P Q -> queued (p_shared Q) = 0%nat -> pcomplete c Q = (Normal tt, Q') -> queued (p_shared Q') = 0%nat.
Proof.
  intros Ha H0. unfold pcomplete. destruct (cqe_user_data c) as [z|a| | |]; [destruct z; [by intros [= <-]|done..]| |done| |done].
  - unfold mbind, exec_bind, demand. destruct (p_waiting Q !! a) as [k|] eqn:Ek; [|done]. cbn [modify].
    destruct (ac_counts _ _ _ _ _ Ha a k Ek) as (n & _ & Hk).
    pose proof (prun_boxes g I n (k (res c)) (or_introl (Hk (res c))) (with_waiting (delete a (p_waiting Q)) (p_next Q) Q)) as Hb. cbn in Hb.
    destruct (prun _ _) as [o1 Q1]. destruct o1 as [d|e|r]; [|done|done]. intros [= <-]. cbn in Hb.
    unfold queued in *. by destruct d; cbn; rewrite Hb.
  - unfold mbind, exec_bind, modify. destruct (p_box Q) as [box|] eqn:Eb.
    + pose proof (queued_zero _ _ _ H0 Eb) as Hnil. destruct box as [l n]. cbn in Hnil. subst l.
      rewrite (pinbox_empty (with_flags false (p_down Q) Q) n Eb). intros [= <-]. cbn.
      pose proof (queued_insert _ _ _ (mkBox [] n) Eb) as Hq. cbn in Hq. lia.
    + unfold pinbox, mbind, exec_bind, gets, demand. cbn. unfold p_box in Eb. by rewrite Eb.
Qed.

Lemma deliver_idle l N P : forall Q Q', accounted 0 0 N P Q -> queued (p_shared Q) = 0%nat ->
  pdeliver l Q = (Normal tt, Q') -> queued (p_shared Q') = 0%nat.
Proof.
  induction l as [|c l IH]; intros Q Q' Ha H0; cbn [pdeliver]; [by intros [= <-]|].
  unfold mbind, exec_bind. destruct (pcomplete c Q) as [o1 Q1] eqn:E1. destruct o1 as [[]| |]; [|done|done].
  pose proof (complete_idle _ _ _ _ _ Ha H0 E1) as H1. cbn. intros E2.
  apply IH in E2; [done| |done]. pose proof (pcomplete_accounts c N P Q Ha) as H. unfold accounts, wp in H.
  rewrite E1 in H. by destruct H as [[] _].
Qed.

Lemma turn_idle N P Q Q' :
  pturn Q Q' -> accounted 0 0 N P Q -> queued (p_shared Q) = 0%nat -> queued (p_shared Q') = 0%nat.
Proof.
  intros (Q1 & Q2 & Hk & Hd & ->) Ha H0. apply parm_accounts in Ha.
  assert (H0' : queued (p_shared (parm Q)) = 0%nat) by (unfold parm; by destruct (p_armed Q)). clear H0.
  pose proof (kernel_accounts _ _ _ _ _ _ _ Hk Ha) as Ha1.
  assert (H1 : queued (p_shared Q1) = 0%nat).
  { destruct Hk as (box & m & done & flight' & c' & Hb & _ & _ & _ & _ & ->). cbn.
    pose proof (queued_insert _ _ _ (mkBox (inbox_ box) c') Hb) as Hq. cbn in Hq. lia. }
  exact (deliver_idle _ N P Q1 Q2 Ha1 H1 Hd).
Qed.
End Jobs.

(** *** The counter never goes back

    The books balance for any counter the jobs bump, for one that started
    from [c] earlier too: what has been counted stays counted. *)

Section Since.
Context {U : Type} (B : book U) (nw : nat) (c : Z).
Definition since : book U := mkBook (fun u => counter B u - c) (keeps B) (sample B) (unit_ B) (who B).

#[local] Abbreviation g := (counter B).
#[local] Abbreviation I := (keeps B).
#[local] Abbreviation g' := (counter since).

Lemma adds_since n f : adds g I n f -> adds g' I n f.
Proof. intros Hf u Hu. destruct (Hf u Hu). split; [done|cbn; lia]. Qed.

Lemma silent_since p : silent g I p -> silent g' I p.
Proof. induction p as [|f k IH| | |]; cbn; try done. intros [Hf Hk]. split; [by apply adds_since|eauto]. Qed.

Lemma counts_since n p : counts g I n p -> counts g' I n p.
Proof.
  induction p as [|f k IH|o t k IH| |]; cbn; try done.
  - intros [[Hf Hk]|[Hf Hk]]; [left|right]; (split; [by apply adds_since|]); intros z; [eauto|by apply silent_since].
  - intros [-> Hk]. split; [done|eauto].
Qed.

Lemma is_job_since f : is_job B nw f -> is_job since nw f.
Proof.
  intros [n t Hn Ht|n h (Hnw & Hn & Hh)]; [by apply (job_spawn _ _ n), counts_since|]. apply (job_dispatch _ _ n).
  split_and!; [done|done|]. intros i Hi. destruct (Hh i Hi) as (Hs & t & Et & Ht).
  split; [done|]. exists t. split; [done|by apply counts_since].
Qed.

Lemma pweight_since p : forall u, pweight g' u p = pweight g u p.
Proof. induction p as [r|f k IH|op to k IH|t _ k _|dst f k IH]; intros u; cbn; rewrite ?IH; try done. lia. Qed.

Lemma fweight_since f : fweight since f = fweight B f.
Proof. destruct f as [| |t k| | |h]; cbn; try done; [apply pweight_since|]. destruct (h 0%nat); try done. by rewrite pweight_since. Qed.

Lemma accounted_since E m d N P Q :
  accounted B nw E m d N P Q -> c <= g (user (p_shared Q)) -> accounted since nw E m d (N - c) P Q.
Proof.
  intros [Hj Hc Hn Hu Ht Hd Hb HI Hw He] Hle. split; try done; [| | |cbn; lia].
  - intros b box Hbx. eapply Forall_impl; [by eapply Hj|]. apply is_job_since.
  - intros a k Ha. destruct (Hc a k Ha) as (n & Hn' & Hk). exists n. split; [done|]. intros z. by apply counts_since.
  - rewrite (weigh_ext (bweight since) (bweight B)), (weigh_ext (wweight since) (wweight B)).
    + change (given since nw (p_shared Q)) with (given B nw (p_shared Q)). cbn. lia.
    + intros a k _. apply pweight_since.
    + intros b box _. unfold bweight, lweight. induction (inbox_ box) as [|f l IH]; cbn; [done|]. by rewrite fweight_since, IH.
Qed.
End Since.
