(* ===== verification/Serving.v ===== *)
(** * Serving: a scheduler that serves posted jobs

    The executions of tests2/multi_threaded.cpp: threads post jobs to one
    scheduler while its own thread is anywhere in its loop (the steps of
    Interleave).  As long as fewer jobs are
    posted than the ring has slots, the loop never finds the queue full, and
    every job is accounted for at every moment; once the inbox is empty,
    [shutdown] runs the rest to their end. *)
From stdpp Require Import prelude list gmap.
From Stdlib Require Import ZArith Lia.
From S2P Require Import Prelude ErrorCodes Ring Operations Awaitable Task Machine Kernel Scheduler Heap Safety EventLoop Follows Wakeup Interleave Process Chains Refine RefineLoop Execution Stepwise Shutdown Jobs.

Section Books.
Context {U K : Type} `{HKS : KernelSpec K}.
Context (known : nat -> Prop) (nw : nat) (timed : bool) (B : book U) (Hsample : keeps B (sample B)).
#[local] Abbreviation inv := (inv (U:=U) (K:=K) known nw timed).
#[local] Abbreviation started := (started (U:=U) (K:=K) known nw timed).
#[local] Abbreviation g := (counter B).
#[local] Abbreviation slots w := (sq_entries (sq (s_io (me w)))).
Implicit Types (w : world U K) (Q : pool U).

(** Another thread's access to the mailbox. *)
Lemma accounted_box E m d N P Q box l c :
  accounted B nw E m d N P Q -> p_box Q = Some box -> Forall (is_job B nw) l ->
  (forall i, who B = Some i -> P < 2 ^ 64 -> P + Z.of_nat (ldispatch l) < 2 ^ 64) ->
  accounted B nw E m d (N + lweight B l) (P + Z.of_nat (ldispatch l)) (set_p_box (mkBox (inbox_ box ++ l) c) Q).
Proof.
  intros Ha Hbox Hl HP. eapply accounted_boxed; [exact Ha|exact Hbox| | | |]; cbn [inbox_].
  - apply Forall_app. split; [by eapply ac_jobs|done].
  - rewrite lweight_app. lia.
  - rewrite ldispatch_app. lia.
  - exact HP.
Qed.

Lemma accounted_poked E m d N P Q box c :
  accounted B nw E m d N P Q -> p_box Q = Some box -> accounted B nw E m d N P (set_p_box (mkBox (inbox_ box) c) Q).
Proof.
  intros Ha Hb. rewrite <- (app_nil_r (inbox_ box)), <- (Z.add_0_r N), <- (Z.add_0_r P).
  apply (accounted_box E m d N P Q box [] c); [done|done|constructor|cbn; lia].
Qed.

(** A scheduler that has just been constructed; nothing has been handed out
    yet, if that is counted. *)
Lemma started_accounted w :
  started w -> (forall d box, boxes (sh w) !! d = Some box -> inbox_ box = []) ->
  g (user (sh w)) = 0 -> keeps B (user (sh w)) -> (forall i, who B = Some i -> next_worker_ (sh w) = 0) ->
  exists Q, simulates w Q /\ accounted B nw (slots w) 0 0 0 0 Q /\ 0 < slots w.
Proof.
  intros Hw H0 Hg HI Hnx. destruct (started_refines known nw timed w Hw) as (Q & HQ & Hs).
  exists Q. split; [done|]. destruct HQ as (_ & _ & Hst & _ & _ & Hwt & _ & _ & _ & _ & Hsh).
  destruct (proj1 Hs) as [_ _ Eent _ _ _ _ _ _ Esh]. rewrite <- Esh in H0, Hg, HI, Hnx.
  assert (Hz : forall f, f (mkBox [] 0) = 0 -> (forall box, f box = f (mkBox (inbox_ box) 0)) -> weigh f (boxes (p_shared Q)) = 0).
  { intros f Hf Hf'. rewrite (weigh_const _ 0); [done|]. intros d box Hd. by rewrite Hf', (H0 d box Hd). }
  split; [split; rewrite ?Hst, ?Hwt; try done|].
  - intros d box Hd. by rewrite (H0 d box Hd).
  - intros a. rewrite lookup_empty. by intros [].
  - rewrite Hz, weigh_empty, Hg by done. unfold given. destruct (who B) as [i|]; [by rewrite (Hnx i)|done].
  - intros i Hi. unfold dispatch_ok. rewrite Hz, (Hnx i Hi) by done. lia.
  - lia.
  - apply (so_workers _ _ _ _ Hsh).
  - destruct Hw as (id & io & efd & grow & box & Hc & _ & [Hsq _] & _). unfold Scheduler_ctor in Hc.
    destruct (efd 0 EFD_FLAGS <? 0); [done|]. injection Hc as <- _. cbn. destruct (wf_sq_pow2 _ Hsq) as [n [Hn ->]].
    apply Z.pow_pos_nonneg; lia.
Qed.

Lemma started_no_awaitable w : started w -> awts (me w) = ∅.
Proof.
  intros (id & io & efd & grow & box & Hc & _). unfold Scheduler_ctor in Hc. destruct (efd 0 EFD_FLAGS <? 0); [done|]. by injection Hc as <- _.
Qed.

(** Where every job adds one: the jobs posted bound the operations staged. *)
Lemma accounted_armable E N P w Q :
  unit_ B = true -> who B = None -> inv w -> simulates w Q -> accounted B nw E 0 0 N P Q -> N < E -> armable w.
Proof.
  intros Hu Hwho Hi Hs Ha Hlt. pose proof (accounted_unit B nw E Hsample 0 N P Q Hu Hwho Ha) as Ht.
  destruct Ha as [_ _ _ Hun _ _ Hb _ _ He]. eapply room_armable; [exact Hi|exact Hs|done|]. rewrite He. lia.
Qed.

Lemma accounted_steady E N P Q :
  unit_ B = true -> who B = None ->
  accounted B nw E 0 0 N P Q -> queued (p_shared Q) = 0%nat -> is_Some (p_box Q) -> N < E -> steady Q.
Proof.
  intros Hu Hwho Ha H0 [[l n] Hbox] Hlt. pose proof (accounted_unit B nw E Hsample 0 N P Q Hu Hwho Ha) as Ht.
  destruct Ha as [Hj Hc Hn Hun _ _ Hb HI Hw He]. pose proof (queued_zero _ _ _ H0 Hbox) as Hl. cbn in Hl. subst l.
  split; [| |done|done|lia].
  - intros a k Ha z. destruct (Hc a k Ha) as (m & _ & Hk). apply (counts_plain (counter B) (keeps B) m). by left.
  - by exists n.
Qed.
End Books.

Section Serving.
Context {U K : Type} `{HKS : KernelSpec K}.
#[local] Abbreviation W := (world U K).
Context (known : nat -> Prop) (nw : nat) (timed : bool) (g : U -> Z) (I : U -> Prop).
#[local] Abbreviation good := (good (U:=U) known nw timed).
#[local] Abbreviation inv := (inv (U:=U) (K:=K) known nw timed).
#[local] Abbreviation freach := (freach (U:=U) (K:=K) known nw timed).
#[local] Abbreviation started := (started (U:=U) (K:=K) known nw timed).
Implicit Types (w : W) (Q : pool U) (t : coro U).

#[local] Abbreviation slots w := (sq_entries (sq (s_io (me w)))).

(** A task fit to be posted: one slot before it first suspends, one bump. *)
Definition fit t : Prop := first_ok t /\ good t /\ counts g I 1 (denote t).

(** What happens while nobody posts anything new, [p] threads being between
    the push and the eventfd write of their [post]. *)
Inductive sstep : nat -> pc U -> W -> nat -> pc U -> W -> Prop :=
| ss_loop p c w c' w' : loop_step c w = (Normal c', w') -> sstep p c w p c' w'
| ss_closing p w : sstep p AtTop w p AtTop (upd (set_shutting_down true) w)
| ss_write p c w box :
    own_box w = Some box ->
    sstep (S p) c w p c (set_box (s_id (me w)) (mkBox (inbox_ box) (poked (efd_counter box))) w)
| ss_wake p c w box :
    own_box w = Some box ->
    sstep p c w p c (set_box (s_id (me w)) (mkBox (inbox_ box) (poked (efd_counter box))) w)
| ss_kernel p c w box k' io' z' :
    own_box w = Some box ->
    enter_effect 0 (s_io (me w)) (efd_counter box) (k_inflight (kern w)) io' z' (k_inflight k') ->
    sstep p c w p c (progressed k' io' box z' w).

(** [serving N p c w]: [N] jobs have been posted so far, and the loop is at
    [c]. *)
Inductive serving : nat -> nat -> pc U -> W -> Prop :=
| serving_start w :
    started w -> (forall d box, boxes (sh w) !! d = Some box -> inbox_ box = []) ->
    g (user (sh w)) = 0 -> I (user (sh w)) -> serving 0 0 AtTop w
| serving_push N p c w box t :
    serving N p c w -> own_box w = Some box -> fit t -> Z.of_nat (S N) < slots w ->
    serving (S N) (S p) c (set_box (s_id (me w)) (mkBox (inbox_ box ++ [job t]) (efd_counter box)) w)
| serving_step N p c w p' c' w' : serving N p c w -> sstep p c w p' c' w' -> serving N p' c' w'.

(** Whole turns are a special case. *)
Lemma serving_turn N p w w1 w2 :
  serving N p AtTop w -> drain w = (Normal tt, w1) -> reap w1 = (Normal tt, w2) -> serving N p AtTop w2.
Proof.
  intros Hs Hd Hr. assert (Ha : forall x y, rtc alone x y -> serving N p (fst x) (snd x) -> serving N p (fst y) (snd y)).
  { induction 1 as [|x y z [_ E] _ IH]; [done|]. intros Hx. apply IH. eapply serving_step; [exact Hx|by apply ss_loop]. }
  apply (Ha _ _ (turn_alone w w1 w2 Hd Hr)). eapply serving_step; [exact Hs|]. apply ss_loop, top_eq.
Qed.

(** The books of [M] jobs. *)
Definition served (M : Z) (p : nat) (c : pc U) w : Prop :=
  freach p c w /\ exists u Q, I u /\ simulates w Q /\ accounted_at (count_book g I u) nw (slots w) (position c) M 0 Q /\ M < slots w.

Lemma served_armable M p w : served M p AtTop w -> armable w.
Proof.
  intros (Hr & u & Q & Hu & Hs & [Ha _] & Hlt).
  exact (accounted_armable known nw timed (count_book g I u) Hu _ _ _ _ _ eq_refl eq_refl (freach_top known nw timed _ _ Hr) Hs Ha Hlt).
Qed.

(** Another thread's write. *)
Lemma served_poked M u E x w Q box z :
  own_box w = Some box -> simulates w Q -> accounted_at (count_book g I u) nw E x M 0 Q ->
  exists Q', simulates (set_box (s_id (me w)) (mkBox (inbox_ box) z) w) Q' /\ accounted_at (count_book g I u) nw E x M 0 Q'.
Proof.
  intros Hb Hs [Ha Hl]. rewrite <- (p_box_own w Q Hs) in Hb. eexists. split; [by apply (set_box_refines w Q)|].
  split; [by apply accounted_poked|done].
Qed.

Lemma sstep_served M p c w p' c' w' : sstep p c w p' c' w' -> served M p c w -> served M p' c' w'.
Proof.
  intros Hst Hsv. pose proof Hsv as (Hr & u & Q & Hu & Hs & Ha & Hlt).
  assert (Hgo : forall p1 c1 w1, freach p1 c1 w1 ->
    (exists Q1, simulates w1 Q1 /\ accounted_at (count_book g I u) nw (slots w) (position c1) M 0 Q1) -> served M p1 c1 w1).
  { intros p1 c1 w1 Hr1 (Q1 & Hs1 & Ha1). split; [done|]. exists u, Q1.
    assert (E : slots w1 = slots w) by (by rewrite <- (sf_entries _ _ (proj1 Hs1)), (ac_entries _ _ _ _ _ _ _ _ (proj1 Ha1))).
    by rewrite E. }
  destruct Hst as [p c w c' w' E|p w|p c w box Hb|p c w box Hb|p c w box k' io' z' Hb He]; apply Hgo.
  - eapply freach_loop; [exact Hr| |exact E]. intros ->. by eapply served_armable.
  - destruct (freach_inv known nw timed _ _ _ Hr) as [Hi _].
    destruct (loop_stepwise known nw timed c w Q Hi (fun Ec => served_armable M p w ltac:(by rewrite Ec in Hsv)) Hs _ _ E) as (Q' & Hp & Hs'); [done|].
    exists Q'. split; [done|]. exact (pstep_accounts (count_book g I u) nw _ Hu _ _ _ _ _ _ Ha Hp).
  - by apply freach_closing.
  - eexists. split; [by apply closing_refines|]. destruct Ha as [[] Hl]. by split.
  - eapply freach_env; [exact Hr|by apply if_write].
  - by eapply served_poked.
  - eapply freach_env; [exact Hr|by apply if_wake].
  - by eapply served_poked.
  - eapply freach_env; [exact Hr|by apply if_kernel].
  - destruct (kernel_refines 0 w Q box k' io' z' Hs Hb He) as (Q' & Hk & Hs'). exists Q'. split; [done|].
    destruct Ha as [Ha Hl]. split; [by eapply kernel_accounts|done].
Qed.

Lemma serving_served N p c w : serving N p c w -> served (Z.of_nat N) p c w.
Proof.
  induction 1 as [w Hw H0 Hg HI|N p c w box t _ (Hr & u & Q & Hu & Hs & [Ha Hl] & _) Hb (Hf & Hgd & Hc) Hlt|N p c w p' c' w' _ IH Hst].
  - split; [by apply freach_start|].
    destruct (started_accounted known nw timed (count_book g I (user (sh w))) w Hw H0 Hg HI) as (Q & Hs & Ha & Hlt); [done|].
    exists (user (sh w)), Q. split_and!; [done|done|by split|done].
  - pose proof Hb as Hb'. rewrite <- (p_box_own w Q Hs) in Hb'.
    split; [eapply freach_env; [exact Hr|apply if_push; [done|cbn; split_and!; [done|done|by intros []]]]|].
    exists u. eexists. split_and!; [done|by apply set_box_refines| |done]. split; [|done].
    assert (Hj : is_job (count_book g I u) nw (job t)) by (by apply (job_spawn _ _ 1)).
    replace (Z.of_nat (S N)) with (Z.of_nat N + lweight (count_book g I u) [job t]).
    + apply (accounted_box nw (count_book g I u) _ _ _ _ 0 Q box [job t]); [done|done|by constructor|done].
    + rewrite (lweight_unit (count_book g I u) nw Hu); [cbn; lia|done|by constructor].
  - by eapply sstep_served.
Qed.

(** The books of a serving scheduler. *)
Lemma served_counts M p c w :
  served M p c w ->
  Z.of_nat (queued (sh w)) + Z.of_nat (length (held (position c))) + Z.of_nat (size (awts (me w))) + g (user (sh w)) = M /\
  0 <= g (user (sh w)).
Proof.
  intros (Hr & u & Q & Hu & Hs & Ha & _). destruct (freach_inv known nw timed _ _ _ Hr) as [Hi _].
  pose proof (accounted_at_unit (count_book g I u) nw _ Hu _ _ _ _ eq_refl eq_refl Ha) as Ht. pose proof (ac_bumps _ _ _ _ _ _ _ _ (proj1 Ha)) as Hb.
  rewrite (sf_shared _ _ (proj1 Hs)) in Ht, Hb. by rewrite (size_waiting known nw timed _ w Q (fi_ok _ _ _ _ _ Hi) Hs) in Ht.
Qed.

Lemma serving_finishes {HR : ResponsiveKernel K} N p w :
  serving N p AtTop w -> queued (sh w) = 0%nat ->
  exists fuel w', (forall n, shutdown (fuel + n) w = (Normal tt, w')) /\ g (user (sh w')) = Z.of_nat N /\
    tasks_ (me w') = [] /\ frames (me w') = ∅ /\ awts (me w') = ∅.
Proof.
  intros Hsv H0. eapply serving_step in Hsv; [|apply ss_closing]. set (P w := serving N p AtTop w /\ queued (sh w) = 0%nat).
  assert (HP : P (upd (set_shutting_down true) w)) by done. clear Hsv H0.
  assert (Hkeep : forall w w1 w2, P w -> drain w = (Normal tt, w1) -> reap w1 = (Normal tt, w2) -> P w2).
  { intros v w1 w2 [Hsv H0] Hd Hr. split; [by eapply serving_turn|]. pose proof (serving_served N p _ v Hsv) as Hv.
    pose proof Hv as (Hre & u & Q & Hu & Hs & [Ha _] & Hlt).
    destruct (turn_refines known nw timed v Q w1 w2 (freach_top known nw timed _ _ Hre) (served_armable _ _ _ Hv) Hs Hd Hr) as (Q' & Ht & Hs').
    rewrite <- (sf_shared _ _ (proj1 Hs')). eapply (turn_idle (count_book g I u) nw _ Hu); [exact Ht|exact Ha|by rewrite (sf_shared _ _ (proj1 Hs))]. }
  destruct (serving_served _ _ _ _ (proj1 HP)) as (Hr & u & Q & Hu & Hs & [Ha _] & Hlt).
  pose proof (freach_top known nw timed _ _ Hr) as Hi. pose proof (sf_shared _ _ (proj1 Hs)) as Esh.
  destruct (own_box_ok known nw timed _ _ (proj1 Hi)) as (box & Hbox & _).
  assert (Hst : steady Q).
  { eapply (accounted_steady nw (count_book g I u)); [exact Hu|done|done|exact Ha|rewrite Esh; apply HP|rewrite (p_box_own _ _ Hs); by eexists|exact Hlt]. }
  destruct (shutdown_loop_ends known nw timed P _ Hkeep _ Q eq_refl HP Hi eq_refl Hs Hst)
    as (fuel & w' & Q' & Hn & Ht & [Hsv' H0'] & Hi' & Hs').
  destruct (nothing_left known nw timed _ w' Q' (proj1 Hi') Hs' Ht) as (Hf & Haw & _).
  exists fuel, w'. split_and!; [exact Hn| |done|done|done].
  destruct (served_counts _ _ _ _ (serving_served _ _ _ _ Hsv')) as [Htot _]. rewrite Haw, map_size_empty, H0' in Htot. exact Htot.
Qed.

(** *** Theorems *)

(** No job is lost and none is done twice.  However the posting threads,
    the loop and the kernel interleave, inside turns too, as long as fewer jobs
    were posted than the ring has slots: the callables queued, those the loop
    has taken out and not run yet, the operations waited for and the jobs
    finished add up to the jobs posted; the loop finds room for the eventfd
    read, lets no exception escape, and fails to take its next step only by
    sleeping in the kernel. *)
Theorem every_job_accounted N p c w :
  serving N p c w ->
  Z.of_nat (queued (sh w)) + Z.of_nat (length (held (position c))) + Z.of_nat (size (awts (me w))) + g (user (sh w)) = Z.of_nat N /\
  (c = AtTop -> armable w) /\
  (forall e w', loop_step c w <> (Throw e, w')) /\
  (forall r w', loop_step c w = (Stuck r, w') -> r = KernelBlocks /\ c = AtEnter /\ shutting_down_ (me w) = false).
Proof.
  intros Hsv. pose proof (serving_served N p c w Hsv) as Hv. pose proof Hv as (Hr & u & Q & Hu & Hs & Ha & Hlt).
  destruct (freach_inv known nw timed _ _ _ Hr) as [Hi Hn].
  assert (Harm : c = AtTop -> armable w) by (intros ->; by eapply served_armable).
  pose proof (loop_step_safe known nw timed _ c w Hi Hn Harm) as Hsafe. unfold wp in Hsafe.
  split_and!; [by eapply served_counts|done| |].
  - intros e w' E. destruct (loop_stepwise known nw timed c w Q Hi Harm Hs _ _ E) as (Q' & Hp & _); [done|].
    exact (pstep_accounts (count_book g I u) nw _ Hu _ _ _ _ _ _ Ha Hp).
  - intros r w' E. by rewrite E in Hsafe.
Qed.

End Serving.
