(* ===== verification/Inbox.v ===== *)
(** * Inbox: what [post] and [drain_inbox] do to the posted callables

    Functional behaviour of src/scheduler.cpp [post] and [drain_inbox] on all
    branches: order, exactly-once execution, requeueing after SQFull, dropping
    after another IOException, propagation of anything else.  The callables are
    arbitrary, except that they do not post to the scheduler they run on
    ([away_fn]); running them then commutes with changes to its mailbox
    ([framed]). *)
From stdpp Require Import prelude list gmap.
From Stdlib Require Import ZArith Lia.
From S2P Require Import Prelude ErrorCodes Ring Operations Awaitable Task Machine Kernel Scheduler Heap Safety EventLoop.

(** The counter of an eventfd after [n] writes of 1. *)
Definition bump (n : nat) (c : Z) : Z := Z.min EFD_MAX (c + Z.of_nat n).

Lemma bump_bump n m c : bump n (bump m c) = bump (m + n) c.
Proof. unfold bump. lia. Qed.

Lemma bump_0 c : c <= EFD_MAX -> bump 0 c = c.
Proof. unfold bump. lia. Qed.

Lemma bump_le n c : bump n c <= EFD_MAX.
Proof. unfold bump. lia. Qed.

Section Inbox.
Context {U K : Type}.
#[local] Abbreviation W := (world U K).

Definition put_box (d : nat) (b : mailbox U) (w : W) : W :=
  mkWorld (me w) (with_boxes (<[d := b]> (boxes (sh w))) (sh w)) (kern w).

(** [post], exactly. *)
Lemma post_eq dst f (w : W) box :
  boxes (sh w) !! dst = Some box -> efd_counter box <= EFD_MAX ->
  post dst f w =
    ((if decide (efd_counter box = EFD_MAX) then Throw (IOException EventFdWriteFailed) else Normal tt),
     put_box dst (mkBox (inbox_ box ++ [f]) (bump 1 (efd_counter box))) w).
Proof.
  intros Hb Hc. unfold post, inbox_push, eventfd_write, mbind, exec_bind, demand, on_shared, modify, throw, mret, exec_ret.
  rewrite Hb. cbn. rewrite lookup_insert_eq. cbn. unfold bump.
  destruct (EFD_MAX <? efd_counter box + 1) eqn:E; case_decide as Hd; apply Z.ltb_lt in E || apply Z.ltb_ge in E; try lia; cbn.
  - rewrite Z.min_l by lia. by rewrite Hd.
  - rewrite Z.min_r by lia. by rewrite insert_insert_eq.
Qed.

Lemma requeue_eq f (w : W) box :
  boxes (sh w) !! s_id (me w) = Some box -> efd_counter box <= EFD_MAX ->
  requeue f w = (Normal tt, put_box (s_id (me w)) (mkBox (inbox_ box ++ [f]) (bump 1 (efd_counter box))) w).
Proof. intros Hb Hc. rewrite requeue_post by eauto. by rewrite (post_eq _ f w box). Qed.

(** ** Callables that do not post to the scheduler they run on *)

Section Away.
Context (id : nat).

Fixpoint away (b : coro U) : Prop :=
  match b with
  | CoReturn _ | CoThrow _ => True
  | CoDo _ k => forall z, away (k z)
  | CoAwait _ _ k => forall z, away (k z)
  | CoAwaitTask t k => away t /\ forall r, away (k r)
  | CoSpawn t k => away t /\ forall e, away (k e)
  | CoPost dst _ k => dst <> id /\ forall e, away (k e)
  end.

(** The closure of [Runtime::post] posts to a worker, never to the dispatcher. *)
Fixpoint away_fn (f : callable U) : Prop :=
  match f with
  | FnReturn | FnThrow _ => True
  | FnDo _ k => forall z, away_fn (k z)
  | FnSpawn t k => away t /\ forall e, away_fn (k e)
  | FnPost dst _ k => dst <> id /\ forall e, away_fn (k e)
  | FnDispatch _ => id = 0%nat
  end.

(** Running [m] on scheduler [id] neither reads nor changes its mailbox. *)
Definition framed {A} (m : exec W exn A) : Prop := forall w b, s_id (me w) = id ->
  m (put_box id b w) = (fst (m w), put_box id b (snd (m w))) /\ s_id (me (snd (m w))) = id.

Lemma framed_bind {A B} (m : exec W exn A) (k : A -> exec W exn B) :
  framed m -> (forall a, framed (k a)) -> framed (m ≫= k).
Proof.
  intros Hm Hk w b Hid. destruct (Hm w b Hid) as [E Hi]. unfold mbind, exec_bind. rewrite E.
  destruct (m w) as [[a|e|r] w1]; cbn in *; [by apply Hk|done|done].
Qed.

Lemma framed_try {A} (m : exec W exn A) : framed m -> framed (try m).
Proof. intros Hm w b Hid. destruct (Hm w b Hid) as [E Hi]. unfold try. rewrite E. by destruct (m w) as [[] ?]. Qed.

(** Code that works on the scheduler's own part of the state. *)
Lemma framed_own {A} (m : exec W exn A) :
  (forall w, s_id (me (snd (m w))) = s_id (me w)) ->
  (forall w b, m (put_box id b w) = (fst (m w), put_box id b (snd (m w)))) -> framed m.
Proof. intros H1 H2 w b Hid. by rewrite H1. Qed.

Lemma framed_ret {A} (a : A) : framed (mret a).
Proof. by apply framed_own. Qed.
Lemma framed_throw {A} e : framed (A:=A) (throw e).
Proof. by apply framed_own. Qed.
Lemma framed_stuck {A} r : framed (A:=A) (stuck_with r).
Proof. by apply framed_own. Qed.
Lemma framed_on_me f : (forall s : sched U, s_id (f s) = s_id s) -> framed (on_me f).
Proof. intros Hf. apply framed_own; [intros w; apply Hf|done]. Qed.
Lemma framed_user g : framed (do_user g).
Proof. apply framed_own; [intros w|intros w b]; unfold do_user; cbn; by destruct (g (user (sh w))). Qed.
Lemma framed_new_task t : framed (new_task t).
Proof. by apply framed_own. Qed.
Lemma framed_new_awaitable op timeout : framed (new_awaitable op timeout).
Proof. by apply framed_own. Qed.
Lemma framed_take_pending : framed take_pending.
Proof. apply framed_own; [intros w|intros w b]; unfold take_pending; cbn; by destruct (take_pending_sq_error _). Qed.

(** [post] to another scheduler. *)
Lemma framed_post dst f : dst <> id -> framed (post dst f).
Proof.
  intros Hne w b Hid. unfold post, inbox_push, eventfd_write, mbind, exec_bind, demand, on_shared, modify, put_box. cbn.
  rewrite lookup_insert_ne by done. destruct (boxes (sh w) !! dst) as [x|] eqn:E; [|done]. cbn. rewrite !lookup_insert_eq. cbn.
  destruct (_ <? _); cbn; (split; [|done]); unfold with_boxes; cbn;
    rewrite ?insert_insert_eq; by rewrite (insert_insert_ne (boxes (sh w)) dst id) by done.
Qed.

(** Lookups in the scheduler's own part. *)
Ltac framed_lookup := apply framed_own; intros; unfold demand, gets; cbn; by repeat case_match.

Create HintDb framed.
#[local] Hint Extern 1 (framed (gets _)) => framed_lookup : framed.
#[local] Hint Extern 1 (framed (demand _ _)) => framed_lookup : framed.
#[local] Hint Resolve framed_ret framed_throw framed_stuck framed_user framed_new_task
  framed_new_awaitable framed_take_pending framed_try : framed.
#[local] Hint Extern 1 (framed (on_me _)) => apply framed_on_me; done : framed.
#[local] Hint Extern 2 (framed (_ ≫= _)) => apply framed_bind; [|intros ?] : framed.

Lemma framed_upd_frame h g : framed (upd_frame h g).
Proof. unfold upd_frame, get_frame, put_frame. auto 10 with framed. Qed.
#[local] Hint Resolve framed_upd_frame : framed.

Lemma framed_finish a : framed (finish_awaitable a).
Proof. unfold finish_awaitable, get_awt, del_awt. auto 10 with framed. Qed.

Lemma framed_leave h h' : framed (leave_task h h').
Proof. unfold leave_task, get_frame, del_frame. auto 10 with framed. Qed.

Lemma framed_final h : framed (final_suspend h).
Proof. unfold final_suspend, get_frame, put_frame. auto 10 with framed. Qed.

Lemma framed_co_await h a k : framed (co_await_op h a k).
Proof.
  unfold co_await_op, get_awt, put_awt. apply framed_bind; [auto with framed|]. intros _. apply framed_bind; [auto with framed|].
  intros x. apply framed_bind; [auto with framed|]. intros s. destruct (await_suspend _ _ _ _ _) as [[[sus x'] io'] tl'].
  apply framed_bind; [auto with framed|]. intros _. apply framed_bind; [auto with framed|]. intros _.
  destruct sus; auto with framed.
Qed.

Lemma framed_destroy n h : framed (destroy_chain n h).
Proof.
  revert h. induction n as [|n IH]; intros h; cbn [destroy_chain]; [auto with framed|]. unfold get_frame, del_frame, del_awt.
  apply framed_bind; [auto with framed|]. intros f. apply framed_bind; [auto with framed|]. intros _.
  destruct (susp f); auto with framed.
Qed.

Lemma framed_destroy_task h : framed (destroy_task h).
Proof. unfold destroy_task. apply framed_bind; [auto with framed|]. intros n. apply framed_destroy. Qed.
#[local] Hint Resolve framed_finish framed_leave framed_final framed_co_await framed_destroy_task : framed.

Lemma framed_spawn t go : (forall h, framed (go h)) -> framed (spawn_temporary t go).
Proof.
  intros Hgo. unfold spawn_temporary, spawn, first_resume. apply framed_bind; [auto with framed|]. intros h. apply framed_bind.
  - apply framed_try, framed_bind; [auto with framed|]. intros io. cbv zeta. destruct (_ <=? _); [auto with framed|].
    apply framed_bind; [|intros _].
    + apply framed_bind; [auto with framed|]. intros _. apply framed_bind; [done|]. intros [|[]]; auto with framed.
    + apply framed_bind; [auto with framed|]. intros [e|]; [auto with framed|]. apply framed_bind; [auto with framed|].
      intros s. destruct (can_grow s _); auto with framed.
  - intros [|e]; auto with framed.
Qed.

Lemma framed_run b : away b -> forall h, framed (run b h).
Proof.
  induction b as [v|e|g k IH|op to k IH|t IHt k IH|t IHt k IH|dst f k IH]; cbn [run away]; intros Ha h.
  - auto with framed.
  - auto with framed.
  - apply framed_bind; auto with framed.
  - apply framed_bind; [auto with framed|]. intros a. apply framed_bind; [auto with framed|].
    intros []; [auto with framed|]. apply framed_bind; auto with framed.
  - destruct Ha as [Ht Hk]. apply framed_bind; [auto with framed|]. intros h'. do 3 (apply framed_bind; [auto with framed|intros _]).
    apply framed_bind; [by apply IHt|]. intros [|[c|]]; [auto with framed| |auto with framed].
    case_decide; [|auto with framed]. apply framed_bind; auto with framed.
  - destruct Ha as [Ht Hk]. apply framed_bind; [apply framed_spawn; by apply IHt|]. auto with framed.
  - destruct Ha as [Hd Hk]. apply framed_bind; [by apply framed_try, framed_post|]. auto with framed.
Qed.

Lemma framed_invoke f : away_fn f -> framed (invoke f).
Proof.
  induction f as [|e|g k IH|t k IH|dst f _ k IH|job IH]; cbn [invoke away_fn]; intros Ha.
  - auto with framed.
  - auto with framed.
  - apply framed_bind; auto with framed.
  - destruct Ha as [Ht Hk]. apply framed_bind; [by apply framed_spawn, framed_run|]. auto.
  - destruct Ha as [Hd Hk]. apply framed_bind; [by apply framed_try, framed_post|]. auto.
  - intros w b Hid. unfold mbind, exec_bind, gets, on_shared, modify. cbn [sh put_box].
    change (workers (with_boxes _ (sh w))) with (workers (sh w)). change (next_worker_ (with_boxes _ (sh w))) with (next_worker_ (sh w)).
    destruct (workers (sh w)) as [|n]; [done|].
    apply (framed_post (S (Z.to_nat (next_worker_ (sh w) mod Z.of_nat (S n)))) _ ltac:(lia)
      (mkWorld (me w) (with_next_worker (u64 (next_worker_ (sh w) + 1)) (sh w)) (kern w)) b Hid).
Qed.

(** ** [drain_inbox] *)

(** Run the callables one after the other. *)
Fixpoint serve (l : list (callable U)) (w : W) : list (outcome exn unit) * W :=
  match l with
  | [] => ([], w)
  | f :: l =>
      let '(o, w1) := invoke f w in
      let '(os, w2) := serve l w1 in
      (o :: os, w2)
  end.

(** Outcomes [drain_inbox] deals with. *)
Definition handled (o : outcome exn unit) : Prop :=
  match o with Normal _ | Throw (IOException _) => True | _ => False end.

(** The callables whose run ended with SQFull. *)
Fixpoint retried (l : list (callable U)) (os : list (outcome exn unit)) : list (callable U) :=
  match l, os with
  | f :: l, Throw (IOException SQFull) :: os => f :: retried l os
  | _ :: l, _ :: os => retried l os
  | _, _ => []
  end.

Lemma put_box_twice b b' (w : W) : put_box id b (put_box id b' w) = put_box id b w.
Proof. unfold put_box, with_boxes. cbn. by rewrite insert_insert_eq. Qed.

Lemma put_box_same b (w : W) : boxes (sh w) !! id = Some b -> put_box id b w = w.
Proof. intros Hb. unfold put_box, with_boxes. rewrite insert_id by done. by destruct w as [? [] ?]. Qed.

Lemma serve_framed l : Forall away_fn l -> forall w b, s_id (me w) = id ->
  serve l (put_box id b w) = (fst (serve l w), put_box id b (snd (serve l w))) /\ s_id (me (snd (serve l w))) = id.
Proof.
  induction 1 as [|f l Hf _ IH]; intros w b Hid; cbn; [done|]. destruct (framed_invoke f Hf w b Hid) as [E Hi]. rewrite E.
  destruct (invoke f w) as [o w1]. cbn in *. destruct (IH w1 b Hi) as [E1 Hi1]. rewrite E1. by destruct (serve l w1).
Qed.

(** An item that is handled. *)
Lemma drain_one_handled f (w : W) box o w1 :
  away_fn f -> s_id (me w) = id -> boxes (sh w) !! id = Some box -> efd_counter box <= EFD_MAX ->
  invoke f w = (o, w1) -> handled o ->
  s_id (me w1) = id /\ drain_one f w =
    (Normal tt, put_box id (mkBox (inbox_ box ++ retried [f] [o]) (bump (length (retried [f] [o])) (efd_counter box))) w1).
Proof.
  intros Hf Hid Hb Hc E Ho. destruct (framed_invoke f Hf w box Hid) as [Eb Hi]. rewrite (put_box_same box w Hb), E in Eb.
  rewrite E in Hi. cbn in Eb, Hi. injection Eb as Ew. split; [done|].
  assert (Hb1 : boxes (sh w1) !! id = Some box) by (rewrite Ew; apply lookup_insert_eq).
  assert (Hsame : put_box id (mkBox (inbox_ box ++ []) (bump 0 (efd_counter box))) w1 = w1).
  { rewrite app_nil_r, bump_0 by done. apply put_box_same. by destruct box. }
  unfold drain_one, mbind, exec_bind, try. rewrite E. destruct o as [[]|[st|tag]|r]; cbn in Ho; try done.
  - cbn. by rewrite Hsame.
  - destruct (decide (st = SQFull)) as [->|Hst]; cbn.
    + rewrite (requeue_eq f w1 box); rewrite ?Hi; done.
    + destruct st; cbn; rewrite ?Hsame; done.
Qed.

Lemma retried_cons f l o os : retried (f :: l) (o :: os) = retried [f] [o] ++ retried l os.
Proof. by destruct o as [|[[]|]|]. Qed.

Lemma drain_local_serve l : forall (w : W) box,
  Forall away_fn l -> s_id (me w) = id -> boxes (sh w) !! id = Some box -> efd_counter box <= EFD_MAX ->
  Forall handled (fst (serve l w)) ->
  let again := retried l (fst (serve l w)) in
  drain_local l w = (Normal tt, put_box id (mkBox (inbox_ box ++ again) (bump (length again) (efd_counter box))) (snd (serve l w))).
Proof.
  induction l as [|f l IH]; intros w box Hl Hid Hb Hc Ho; cbn [drain_local serve] in *.
  { cbn. rewrite app_nil_r, bump_0 by done. by rewrite put_box_same by (by destruct box). }
  apply Forall_cons in Hl as [Hf Hl]. destruct (invoke f w) as [o w1] eqn:E. destruct (serve l w1) as [os w2] eqn:Es.
  cbn [fst snd] in *. apply Forall_cons in Ho as [Ho Hos].
  destruct (drain_one_handled f w box o w1 Hf Hid Hb Hc E Ho) as [Hi1 E1].
  unfold mbind, exec_bind. rewrite E1. set (box1 := mkBox _ _).
  destruct (serve_framed l Hl w1 box1 Hi1) as [Ef _]. rewrite Es in Ef. cbn in Ef.
  rewrite (IH (put_box id box1 w1) box1 Hl Hi1); [|cbn; apply lookup_insert_eq|apply bump_le|by rewrite Ef].
  cbv zeta. rewrite Ef. cbn [fst snd]. rewrite put_box_twice, retried_cons. unfold box1. cbn [inbox_ efd_counter].
  by rewrite bump_bump, <- app_assoc, length_app.
Qed.

Lemma drain_local_app a b (w : W) : drain_local (a ++ b) w = (drain_local a;; drain_local b) w.
Proof.
  revert w. induction a as [|f a IH]; intros w; [done|]. cbn. unfold mbind, exec_bind in *.
  destruct (drain_one f w) as [[]]; [apply IH|done|done].
Qed.

(** C14: [drain_inbox] on callables that do not post to the scheduler they run on;
    they may compute, spawn tasks that do not either, post to and dispatch to
    others.  The inbox is taken as a whole, and every callable is run exactly
    once, in posting order, in the state the one before it left: if all of them
    return or throw an IOException, the result is that of running them one after
    the other, with those that threw SQFull back in the inbox in their order,
    the eventfd poked once for each; those that threw another IOException are
    dropped. *)
Theorem drain_inbox_exact l (w : W) c :
  s_id (me w) = id -> boxes (sh w) !! id = Some (mkBox l c) -> c <= EFD_MAX -> Forall away_fn l ->
  let '(os, w1) := serve l (put_box id (mkBox [] c) w) in
  Forall handled os ->
  drain_inbox w = (Normal tt, put_box id (mkBox (retried l os) (bump (length (retried l os)) c)) w1).
Proof.
  intros Hid Hb Hc Hl. set (w0 := put_box id (mkBox [] c) w). destruct (serve l w0) as [os w1] eqn:E. intros Ho.
  unfold drain_inbox, mbind, exec_bind. rewrite <- Hid in Hb. rewrite (take_inbox_eq w _ Hb). cbn [inbox_ efd_counter].
  replace (mkWorld _ _ _) with w0 by (unfold w0, put_box; by rewrite Hid).
  rewrite (drain_local_serve l w0 (mkBox [] c)); rewrite ?E; try done. cbn. apply lookup_insert_eq.
Qed.

(** C17: an exception that is not an IOException leaves [drain_inbox] at once and
    takes the rest of the inbox with it.  Of callables that do not post to the
    scheduler they run on, those before the first one that throws such an
    exception have run, once each and in order, and those of them that threw
    SQFull are back in the inbox; that one has run; those after it are neither
    run nor put back. *)
Theorem drain_inbox_foreign_exception l1 f l2 tag (w : W) c os w1 w2 :
  s_id (me w) = id -> boxes (sh w) !! id = Some (mkBox (l1 ++ f :: l2) c) -> c <= EFD_MAX -> Forall away_fn (f :: l1) ->
  serve l1 (put_box id (mkBox [] c) w) = (os, w1) -> Forall handled os ->
  invoke f w1 = (Throw (OtherException tag), w2) ->
  drain_inbox w = (Throw (OtherException tag), put_box id (mkBox (retried l1 os) (bump (length (retried l1 os)) c)) w2).
Proof.
  intros Hid Hb Hc Hl E Ho Ef. apply Forall_cons in Hl as [Hf Hl]. set (w0 := put_box id (mkBox [] c) w) in *.
  unfold drain_inbox, mbind, exec_bind. rewrite <- Hid in Hb. rewrite (take_inbox_eq w _ Hb). cbn [inbox_ efd_counter].
  replace (mkWorld _ _ _) with w0 by (unfold w0, put_box; by rewrite Hid).
  rewrite drain_local_app. unfold mbind, exec_bind.
  rewrite (drain_local_serve l1 w0 (mkBox [] c)); rewrite ?E; try done; [|cbn; apply lookup_insert_eq]. cbv zeta. cbn [fst snd].
  set (b1 := mkBox _ _). pose proof (proj2 (serve_framed l1 Hl w0 b1 Hid)) as Hi1. rewrite E in Hi1.
  destruct (framed_invoke f Hf w1 b1 Hi1) as [Eb _]. rewrite Ef in Eb. cbn in Eb.
  cbn [drain_local]. unfold drain_one, mbind, exec_bind, try. by rewrite Eb.
Qed.
End Away.

(** [post] appends exactly one item to the inbox of its scheduler and
    touches nothing else.  It throws EventFdWriteFailed exactly when the
    eventfd counter is saturated, and even then the item stays queued. *)
Theorem post_exact dst f (w : W) box :
  boxes (sh w) !! dst = Some box -> efd_counter box <= EFD_MAX ->
  exists o w', post dst f w = (o, w') /\ me w' = me w /\ user (sh w') = user (sh w) /\
    (forall d, d <> dst -> boxes (sh w') !! d = boxes (sh w) !! d) /\
    boxes (sh w') !! dst = Some (mkBox (inbox_ box ++ [f]) (bump 1 (efd_counter box))) /\
    (o = Throw (IOException EventFdWriteFailed) /\ efd_counter box = EFD_MAX \/
     o = Normal tt /\ efd_counter box < EFD_MAX).
Proof.
  intros Hb Hc. rewrite (post_eq dst f w box Hb Hc). eexists _, _. split; [reflexivity|]. cbn.
  split_and!; [done|done| | |].
  - intros d Hd. by rewrite lookup_insert_ne.
  - apply lookup_insert_eq.
  - case_decide; [by left|right]. split; [done|lia].
Qed.
End Inbox.

(** ** The theorems at a concrete inbox *)

(** Computes, then returns or throws. *)
Definition act (g : nat -> nat) (e : option exn) : callable nat :=
  FnDo (fun u => (g u, 0)) (fun _ => match e with Some e => FnThrow e | None => FnReturn end).

Definition demo_read : coro nat := CoAwait (Read_ctor 3 (mkView 4096 16) 0) None CoReturn.

(** A count, a callable that asks to be retried, one that fails, and a spawn. *)
Definition demo_items : list (callable nat) :=
  [act S None; act (Nat.mul 2) (Some (IOException SQFull)); act (Nat.add 5) (Some (IOException BadAllocation));
   FnSpawn demo_read (fun _ => FnReturn)].

Definition demo_inbox (l : list (callable nat)) : world nat unit :=
  mkWorld (mkSched 0 (fresh_io 5 3 0) 6 true false [] ∅ 0 ∅ 0 false (fun _ => true))
    (mkShared {[ 0%nat := mkBox l 3 ]} 0%nat 0 0) tt.

Lemma drain_inbox_exact_witness :
  exists w', drain_inbox (demo_inbox demo_items) = (Normal tt, w') /\ user (sh w') = 7%nat /\ tasks_ (me w') = [0%nat] /\
    boxes (sh w') !! 0%nat = Some (mkBox [act (Nat.mul 2) (Some (IOException SQFull))] 4).
Proof.
  pose proof (drain_inbox_exact 0 demo_items (demo_inbox demo_items) 3 eq_refl eq_refl ltac:(done)
    ltac:(repeat constructor)) as H.
  destruct (serve demo_items _) as [os w1] eqn:E. vm_compute in E. injection E as <- <-.
  eexists. split; [apply H; repeat constructor|]. vm_compute. done.
Defined.

Lemma drain_inbox_foreign_exception_witness :
  exists w', drain_inbox (demo_inbox [act S None; act (Nat.add 10) (Some (OtherException 4)); act S None])
               = (Throw (OtherException 4), w') /\ user (sh w') = 11%nat /\ boxes (sh w') !! 0%nat = Some (mkBox [] 3).
Proof.
  eexists. split.
  - eapply (drain_inbox_foreign_exception 0 [act S None] (act (Nat.add 10) (Some (OtherException 4))) [act S None] 4 _ 3);
      [reflexivity|reflexivity|done|repeat constructor|vm_compute; reflexivity|repeat constructor|vm_compute; reflexivity].
  - vm_compute. done.
Defined.

Lemma post_exact_witness :
  exists o w', post 0 FnReturn (demo_inbox []) = (o, w') /\ boxes (sh w') !! 0%nat = Some (mkBox [FnReturn] 4).
Proof.
  destruct (post_exact 0 FnReturn (demo_inbox []) (mkBox [] 3)) as (o & w' & E & _ & _ & _ & Hb & _);
    [reflexivity|done|]. by exists o, w'.
Defined.
