(* ===== verification/Spawn.v ===== *)
(** * Spawn: the contract of [Scheduler::spawn] and full submission queues

    The comment of [spawn] promises that SQFull is thrown strictly before any
    user code of the task has run.  This file shows for which tasks that holds
    ([first_ok]: at most one ring slot up to the first suspension), what the
    code does for the others, and what a full submission queue does to
    [co_await] and to the eventfd read. *)
From stdpp Require Import prelude list gmap.
From Stdlib Require Import ZArith Lia.
From S2P Require Import Prelude ErrorCodes Ring Operations Awaitable Task Machine Kernel Scheduler Heap Safety EventLoop Wakeup Interleave Jobs Inbox.

Section Spawn.
Context {U K : Type}.
#[local] Abbreviation W := (world U K).
Context (known : nat -> Prop) (nw : nat) (timed : bool).
#[local] Abbreviation good := (good (U:=U) known nw timed).
#[local] Abbreviation ok := (ok (U:=U) (K:=K) known nw timed).

Definition sq_is_full (w : W) : Prop := sq_entries (sq (s_io (me w))) <= sq_count (sq (s_io (me w))).

(** A refused task: the frame is created and destroyed, nothing else. *)
Lemma spawn_refused t go (w : W) :
  frames (me w) !! next_frame (me w) = None -> sq_is_full w ->
  spawn_temporary t go w =
    (Normal (Some (IOException SQFull)), upd (set_next_frame (S (next_frame (me w)))) w).
Proof.
  intros Hnone Hfull. unfold spawn_temporary, mbind, exec_bind. cbn [new_task].
  change (mkWorld _ (sh w) (kern w)) with (with_task t w). unfold try, spawn, mbind, exec_bind, gets. cbn -[Z.leb].
  fold (sq_count (sq (s_io (me w)))). rewrite (proj2 (Z.leb_le _ _) Hfull). cbn -[destroy_task].
  rewrite destroy_fresh by done. done.
Qed.

(** [tasks_.push_back(std::move(task))]. *)
Definition keep_task (h : nat) (w : W) : W := upd (fun s => set_tasks (tasks_ s ++ [h]) s) w.

(** An accepted task: one resumption of the new frame, then the push. *)
Lemma spawn_accepted base t (w : W) :
  first_ok t -> good t -> ok base w -> tl_sq_full (me w) = false -> ~ sq_is_full w ->
  let h := next_frame (me w) in
  exists w1, first_resume h (run t h) (with_task t w) = (Normal tt, w1) /\
    spawn_temporary t (fun h => run t h) w = (Normal None, keep_task h w1) /\
    (exists l, tasks_ (me w1) = tasks_ (me w) ++ l) /\
    exists f, frames (me w1) !! h = Some f /\ continuation (promise f) = None.
Proof.
  intros Hfirst Hgt Hok Htl Hroom h. unfold sq_is_full in Hroom.
  pose proof (first_resume_safe known nw timed base t w (run_safe known nw timed t Hgt) Hfirst Hgt Hok Htl ltac:(lia)) as Hr.
  cbv zeta in Hr. fold h in Hr. unfold wp in Hr. destruct (first_resume h (run t h) (with_task t w)) as [o w1] eqn:E.
  cbn [fst snd] in Hr. destruct Hr as (-> & Hok1 & Htl1 & _ & Ha1 & Hf). exists w1.
  split_and!; [done| |destruct (ad_tasks _ _ _ Ha1) as (l & -> & _); by exists l|done].
  unfold spawn_temporary, mbind, exec_bind. cbn [new_task]. change (mkWorld _ (sh w) (kern w)) with (with_task t w).
  unfold try, spawn, mbind, exec_bind, gets. change (s_io (me (with_task t w))) with (s_io (me w)). cbv zeta.
  fold (sq_count (sq (s_io (me w)))). rewrite (proj2 (Z.leb_gt _ _)) by lia. fold h. rewrite E.
  unfold take_pending, take_pending_sq_error. rewrite Htl1. cbn [negb].
  replace (mkWorld (set_tl false (me w1)) (sh w1) (kern w1)) with w1 by (destruct w1 as [[] ? ?]; cbn in Htl1; by subst).
  by rewrite (sk_grow _ _ _ _ _ (proj1 Hok1)).
Qed.
End Spawn.

(** C8: the contract of [spawn], for tasks that need at most one ring slot up
    to their first suspension and an allocator that can grow [tasks_].  Wherever
    the loop is, [spawn] throws exactly when the submission queue is full;
    the exception is SQFull and the scheduler, its rings, its tasks, the
    mailboxes and the user's state are as before (only the handle of the
    refused frame is used up).  Otherwise it returns, in exactly the state one
    resumption of the new frame leaves, with the task appended to [tasks_] as
    its last element; tasks that were there before are still there, in their
    order. *)
Theorem spawn_contract {U K} `{KernelSpec K} known nw timed p c (w : world U K) t :
  freach known nw timed p c w -> first_ok t -> good known nw timed t ->
  let h := next_frame (me w) in
  (sq_is_full w ->
     spawn_temporary t (fun h => run t h) w = (Normal (Some (IOException SQFull)), upd (set_next_frame (S h)) w)) /\
  (~ sq_is_full w ->
     exists w1, first_resume h (run t h) (with_task t w) = (Normal tt, w1) /\
       spawn_temporary t (fun h => run t h) w = (Normal None, keep_task h w1) /\
       exists l, tasks_ (me (keep_task h w1)) = tasks_ (me w) ++ l ++ [h]).
Proof.
  intros Hr Hf Hg h. destruct (freach_inv known nw timed p c w Hr) as [[Hok Htl _] _]. split.
  - intros Hfull. apply spawn_refused; [|done]. by eapply heap_fresh_frame, (sk_heap _ _ _ _ _ (proj1 Hok)).
  - intros Hroom. destruct (spawn_accepted known nw timed _ t w Hf Hg Hok Htl Hroom) as (w1 & E1 & E2 & [l Hl] & _).
    exists w1. split_and!; [done|done|]. exists l. cbn. by rewrite Hl, <- app_assoc.
Qed.

(** ** A full queue seen from a coroutine *)

Lemma await_skipped {U K} op timeout (k : Z -> coro U) h f (w : world U K) :
  frames (me w) !! h = Some f -> susp f = Running -> wf_io (s_io (me w)) ->
  awts (me w) !! next_awt (me w) = None ->
  sq_entries (sq (s_io (me w))) < sq_count (sq (s_io (me w))) + (if has_value timeout then 2 else 1) ->
  run (CoAwait op timeout k) h w =
    run (k 0) h (upd (fun s => set_tl true (set_next_awt (S (next_awt (me w))) s)) w).
Proof.
  intros Hf Hs Hio Hn Hfull. rewrite <- (slots_made op timeout) in Hfull.
  destruct (await_full op timeout k h f w Hf Hs Hio Hn Hfull) as [E Hfin].
  unfold mbind, exec_bind, new_awaitable in E. cbn in E.
  cbn [run]. unfold mbind, exec_bind, new_awaitable. cbn. rewrite E. by rewrite Hfin.
Qed.

(** C35: an operation awaited on a full submission queue is skipped.  Nothing
    is staged, the coroutine does not suspend, and it goes on at once with the
    result 0, exactly as after an operation that completed with 0; the only
    traces are the thread-local flag and a used-up address. *)
Theorem full_queue_reads_zero {U K} op timeout (k : Z -> coro U) h f (w : world U K) :
  frames (me w) !! h = Some f -> susp f = Running -> wf_io (s_io (me w)) ->
  awts (me w) !! next_awt (me w) = None ->
  sq_entries (sq (s_io (me w))) < sq_count (sq (s_io (me w))) + (if has_value timeout then 2 else 1) ->
  run (CoAwait op timeout k) h w =
    run (k 0) h (upd (fun s => set_tl true (set_next_awt (S (next_awt (me w))) s)) w).
Proof. apply await_skipped. Qed.

(** ** Arming the eventfd read on a full queue *)

(** C32: [arm_eventfd_read] does not check for room.  On a full submission
    queue it overwrites the entry at the head of the queue, which the kernel
    has not taken yet, and leaves a tail more than a ring ahead of the head:
    the operation staged there is lost and the queue is no longer well
    formed. *)
Theorem arm_on_full_queue_overwrites efd io :
  wf_io io -> sq_count (sq io) = sq_entries (sq io) ->
  let io' := arm_io efd io in
  sqe_at (sq io') 0 = efd_entry efd /\ sq_count (sq io') = sq_entries (sq io') + 1 /\ ~ wf_io io'.
Proof.
  intros [Hsq Hcq] Hfull io'. pose proof (tail_slot_range _ Hsq) as Ht. pose proof Hsq as [[k [Hk He]] Hm Hh Htl Hb Hal Hsl Har].
  assert (Hc : sq_count (sq io') = sq_entries (sq io') + 1).
  { unfold io'. rewrite arm_io_publish. cbn [sq with_sq]. unfold sq_count, publish; cbn.
    fold (sq_count (sq io)). rewrite u32_distance_add; fold (sq_count (sq io)); [lia|lia|].
    assert (2 ^ k <= 2 ^ 30) by (apply Z.pow_le_mono_r; lia). change (2 ^ 30) with 1073741824 in *.
    unfold two32. lia. }
  split_and!; [|done|intros [[_ _ _ _ Hb' _ _ _] _]; lia].
  assert (Hslot : slot (sq_head (sq io)) (sq_mask (sq io)) 0 = tail_slot (sq io)).
  { unfold tail_slot. rewrite <- slot_tail by done. rewrite Hfull, He.
    rewrite !(slot_mod _ _ _ k) by lia. rewrite Z2Nat.id by lia.
    rewrite Z.add_0_r, <- Z.add_mod_idemp_r, Z.mod_same, Z.add_0_r by lia. done. }
  unfold io'. rewrite arm_io_publish. unfold sqe_at. cbn. rewrite Hslot.
  rewrite list_lookup_insert_eq by lia. cbn. rewrite list_lookup_insert_eq by lia. done.
Qed.

(** ** Tasks that need more than one slot before they suspend *)

(** Exactly one slot of the submission queue is free; handles and addresses
    from the counters on are unused; the flag is down. *)
Record one_slot {U K} (w : world U K) : Prop := {
  os_io : wf_io (s_io (me w));
  os_free : sq_count (sq (s_io (me w))) + 1 = sq_entries (sq (s_io (me w)));
  os_frames : forall h, (next_frame (me w) <= h)%nat -> frames (me w) !! h = None;
  os_awts : forall a, (next_awt (me w) <= a)%nat -> awts (me w) !! a = None;
  os_flag : tl_sq_full (me w) = false
}.

(** Every reachable state with one free slot is one. *)
Lemma freach_one_slot {U K} `{KernelSpec K} known nw timed p c (w : world U K) :
  freach known nw timed p c w -> sq_count (sq (s_io (me w))) + 1 = sq_entries (sq (s_io (me w))) -> one_slot w.
Proof.
  intros Hr Hc. destruct (freach_inv known nw timed p c w Hr) as [[Hok Htl _] _].
  pose proof (sk_heap _ _ _ _ _ (proj1 Hok)) as Hh. split; [apply (sk_io _ _ _ _ _ (proj1 Hok))|done| | |done].
  - intros h Hle. apply eq_None_not_Some. intros Hs%(hk_frame_old _ _ _ _ _ _ Hh). lia.
  - intros a Hle. apply eq_None_not_Some. intros Hs%(hk_awt_old _ _ _ _ _ _ Hh). lia.
Qed.

Section Late.
Context {U K : Type}.
Implicit Types (w : world U K) (t : coro U).

(** The state in which a new task starts to run. *)
Definition entered_task t w : world U K :=
  upd (fun s => set_next_frame (S (next_frame s))
         (set_frames (<[next_frame s := set_susp Running (new_frame t)]> (frames s)) s)) w.

(** [spawn] of a task that came back with the flag up: the exception is thrown
    after the task has run, and the task is destroyed. *)
Lemma spawn_late t w s w1 :
  let h := next_frame (me w) in
  ~ sq_is_full w -> run t h (entered_task t w) = (Normal s, w1) -> (s = Suspended \/ s = Finished None) ->
  tl_sq_full (me w1) = true ->
  spawn_temporary t (fun h => run t h) w = (destroy_task h;; mret (Some (IOException SQFull))) (upd (set_tl false) w1).
Proof.
  intros h Hroom E Hs Htl. unfold sq_is_full in Hroom.
  unfold spawn_temporary, mbind, exec_bind. cbn [new_task]. change (mkWorld _ (sh w) (kern w)) with (with_task t w).
  unfold try, spawn, mbind, exec_bind, gets. change (s_io (me (with_task t w))) with (s_io (me w)). cbv zeta.
  fold (sq_count (sq (s_io (me w)))). rewrite (proj2 (Z.leb_gt _ _)) by lia. fold h.
  assert (E1 : first_resume h (run t h) (with_task t w) = (Normal tt, w1)).
  { unfold first_resume, upd_frame, get_frame, put_frame, on_me, modify, demand, mbind, exec_bind.
    cbn [with_task upd me frames set_next_frame set_frames]. fold h. rewrite lookup_insert_eq.
    replace (mkWorld _ _ _) with (entered_task t w) by (unfold entered_task, upd; cbn; by rewrite insert_insert_eq).
    rewrite E. by destruct Hs as [-> | ->]. }
  rewrite E1. unfold take_pending, take_pending_sq_error. rewrite Htl. done.
Qed.

(** Computes, awaits an operation with a deadline (two slots), and returns. *)
Definition timed_task (g : U -> U * Z) (op : Z -> operation) (ms : Z -> Z) (v : Z -> Z -> Z) : coro U :=
  CoDo g (fun z => CoAwait (op z) (Some (ms z)) (fun r => CoReturn (v z r))).

(** Awaits with a deadline, then without. *)
Definition two_reads (op op' : operation) (ms : Z) (k : Z -> coro U) : coro U :=
  CoAwait op (Some ms) (fun _ => CoAwait op' None k).

(** The world after a task has run and nothing is left of it but the user's
    effect and a used-up handle and address. *)
Definition wasted (u : U) w : world U K :=
  mkWorld (set_next_awt (S (next_awt (me w))) (set_next_frame (S (next_frame (me w))) (me w)))
    (with_user u (sh w)) (kern w).

Lemma spawn_timed g op ms v w :
  one_slot w ->
  spawn_temporary (timed_task g op ms v) (fun h => run (timed_task g op ms v) h) w =
    (Normal (Some (IOException SQFull)), wasted (fst (g (user (sh w)))) w).
Proof.
  intros [Hio Hfree Hfr Haw Htl]. set (t := timed_task g op ms v). set (h := next_frame (me w)).
  assert (Hroom : ~ sq_is_full w) by (unfold sq_is_full; lia).
  destruct (g (user (sh w))) as [u z] eqn:Eg.
  set (w1 := mkWorld (me (entered_task t w)) (with_user u (sh w)) (kern w)).
  set (w2 := upd (fun s => set_tl true (set_next_awt (S (next_awt (me w))) s)) w1).
  assert (E : run t h (entered_task t w) = run (CoReturn (v z 0)) h w2).
  { transitivity (run (CoAwait (op z) (Some (ms z)) (fun r => CoReturn (v z r))) h w1).
    { change (run t h) with (do_user (K:=K) g ≫= fun z => run (CoAwait (op z) (Some (ms z)) (fun r => CoReturn (v z r))) h).
      unfold mbind, exec_bind, do_user. change (sh (entered_task t w)) with (sh w). by rewrite Eg. }
    apply (await_skipped (op z) (Some (ms z)) (fun r => CoReturn (v z r)) h (set_susp Running (new_frame t)) w1); try done.
    - apply lookup_insert_eq.
    - by apply Haw.
    - cbn. lia. }
  set (f := set_susp AtFinal (return_value (v z 0) (set_susp Running (new_frame t)))).
  assert (E2 : run (CoReturn (v z 0)) h w2 = (Normal (Finished None), upd (fun s => set_frames (<[h := f]> (frames (me w))) s) w2)).
  { cbn [run]. unfold final_suspend, upd_frame, get_frame, put_frame, on_me, modify, demand, mbind, exec_bind, mret, exec_ret.
    cbn. fold h. rewrite !lookup_insert_eq. cbn. rewrite !insert_insert_eq. rewrite lookup_insert_eq. cbn. rewrite !insert_insert_eq. done. }
  rewrite E2 in E. rewrite (spawn_late t w _ _ Hroom E); [|by right|done]. fold h.
  unfold destroy_task, gets, mbind, exec_bind, mret, exec_ret. cbn -[delete]. fold h.
  unfold get_frame, demand, del_frame, on_me, modify, mbind, exec_bind. cbn -[delete]. rewrite lookup_insert_eq. cbn -[delete].
  rewrite delete_insert_id by (apply Hfr; done). unfold wasted. cbn. fold h.
  destruct w as [[] [] ?]. cbn in *. by subst.
Qed.

(** C33: SQFull may be thrown after user code has run.  Whenever the loop of
    [drain_inbox] comes, with exactly one free slot, to a callable that spawns a
    task which computes and then awaits an operation with a deadline: the check
    of [spawn] passes, the user's code runs, [spawn] throws afterwards, and the
    loop takes the exception for a refusal: it puts the callable back at the end
    of the inbox and pokes the eventfd.  The user's state has changed, no task
    was added, and rings, frames and tasks are as before, so that every retry
    that finds one free slot runs the user's code once more. *)
Theorem requeue_duplicates_user_code g op ms v w box :
  let f := job (timed_task g op ms v) in
  one_slot w -> own_box w = Some box -> efd_counter box <= EFD_MAX ->
  exists w', drain_one f w = (Normal tt, w') /\
    user (sh w') = fst (g (user (sh w))) /\
    own_box w' = Some (mkBox (inbox_ box ++ [f]) (bump 1 (efd_counter box))) /\
    tasks_ (me w') = tasks_ (me w) /\ s_io (me w') = s_io (me w) /\ frames (me w') = frames (me w) /\ one_slot w'.
Proof.
  intros f Hos Hb Hc. unfold own_box in Hb. set (w1 := wasted (fst (g (user (sh w)))) w).
  assert (Ei : invoke f w = (Throw (IOException SQFull), w1)).
  { change (invoke f) with (spawn_temporary (K:=K) (timed_task g op ms v) (fun h => run (timed_task g op ms v) h) ≫=
      fun e => invoke (match e with Some e => FnThrow e | None => FnReturn end)).
    unfold mbind, exec_bind. by rewrite (spawn_timed g op ms v w Hos). }
  unfold drain_one, mbind, exec_bind, try. rewrite Ei, decide_True by done.
  rewrite (requeue_eq f w1 box Hb Hc). eexists. split; [reflexivity|].
  split_and!; [done|cbn; apply lookup_insert_eq|done|done|done|].
  destruct Hos as [Hio Hfree Hfr Haw Htl]. split; try done; cbn; intros x Hx; [apply Hfr|apply Haw]; lia.
Qed.

(** C34: a spawn that throws after the task ran can leave a dangling pointer in
    the ring.  With exactly one free slot, a task that awaits an operation with
    a deadline and then one without skips the first, stages the second and
    suspends; [spawn] then throws SQFull and the task is destroyed together with
    the awaitable whose address is the user data of the staged entry: the entry
    is still in the submission queue, no awaitable is alive at its address, and
    handling its completion, whatever the kernel and other threads did to the
    rings and the mailboxes meanwhile, follows the freed address. *)
Theorem spawn_after_resume_dangles op op' ms k w :
  let t := two_reads op op' ms k in
  let a := S (next_awt (me w)) in
  one_slot w ->
  exists w', spawn_temporary t (fun h => run t h) w = (Normal (Some (IOException SQFull)), w') /\
    tasks_ (me w') = tasks_ (me w) /\ frames (me w') = frames (me w) /\ awts (me w') = awts (me w) /\
    sq_pending (sq (s_io (me w'))) = sq_pending (sq (s_io (me w))) ++ [primary_entry a (Awaitable_ctor op')] /\
    user_data (primary_entry a (Awaitable_ctor op')) = AddrAwaitable a /\
    forall cqe io s (kn : K), cqe_user_data cqe = AddrAwaitable a ->
      fst (handle_cqe cqe (mkWorld (set_io io (me w')) s kn)) = Stuck UseAfterFree.
Proof.
  intros t a [Hio Hfree Hfr Haw Htl]. set (h := next_frame (me w)).
  assert (Hroom : ~ sq_is_full w) by (unfold sq_is_full; lia).
  set (w1 := upd (fun s => set_tl true (set_next_awt a s)) (entered_task t w)).
  assert (E : run t h (entered_task t w) = run (CoAwait op' None k) h w1).
  { apply (await_skipped op (Some ms) (fun _ => CoAwait op' None k) h (set_susp Running (new_frame t)) (entered_task t w)); try done.
    - apply lookup_insert_eq.
    - by apply Haw.
    - cbn. lia. }
  destruct (await_room op' None k h (set_susp Running (new_frame t)) w1) as (q & E1 & _ & _ & Hq).
  { apply lookup_insert_eq. } { done. } { cbn. lia. }
  cbv zeta in E1. change (next_awt (me w1)) with a in E1, Hq. set (w2 := upd _ w1) in E1.
  assert (E2 : run (CoAwait op' None k) h w1 = (Normal Suspended, w2)).
  { cbn [run]. unfold mbind, exec_bind, new_awaitable in E1 |- *. cbn in E1 |- *. by rewrite E1. }
  rewrite E2 in E. rewrite (spawn_late t w _ _ Hroom E); [|by left|done]. fold h.
  unfold destroy_task, gets, mbind, exec_bind, mret, exec_ret. cbn -[delete]. fold h.
  unfold get_frame, demand, del_frame, del_awt, on_me, modify, mbind, exec_bind. cbn -[delete].
  rewrite lookup_insert_eq. cbn -[delete]. eexists. split; [reflexivity|].
  assert (Ha : delete a (<[a := set_handle h (made op' None)]> (awts (me w))) = awts (me w))
    by (apply delete_insert_id, Haw; unfold a; lia).
  split_and!; cbn -[delete].
  - done.
  - rewrite insert_insert_eq. apply delete_insert_id, Hfr. done.
  - exact Ha.
  - exact Hq.
  - done.
  - intros cqe io s kn Hu. unfold handle_cqe. rewrite Hu, decide_False by done.
    unfold resume_awaitable, mbind, exec_bind, get_awt, demand. cbn -[delete].
    change (made op' None) with (Awaitable_ctor op') in Ha. rewrite Ha, Haw by (unfold a; lia). done.
Qed.
End Late.

(** *** A scheduler on rings of two entries *)

#[local] Existing Instance demo_kernel.
#[local] Existing Instance demo_kernel_spec.

Definition read3 : operation := Read_ctor 3 (mkView 4096 16) 0.
Definition reader : coro nat := CoAwait read3 None CoReturn.

(** Counts a run of its body, then reads with a deadline. *)
Definition counting : coro nat := timed_task (fun u => (S u, 0)) (fun _ => read3) (fun _ => 100) (fun _ r => r).

(** Reads with a deadline, then without. *)
Definition reads_twice : coro nat := two_reads read3 read3 100 CoReturn.

Definition tiny_world : world nat (list io_uring_sqe) :=
  mkWorld (mkSched 0 (fresh_io 5 1 0) 6 false false [] ∅ 0 ∅ 0 false (fun _ => true))
    (mkShared {[ 0%nat := mkBox [] 0 ]} 0%nat 0 0) [].

Definition after {U K A} (m : exec (world U K) exn A) (w : world U K) : world U K := snd (m w).

(** One reader has been spawned and completed, so the eventfd read is armed;
    then a second one is staged, which leaves one slot. *)
Definition tiny_spawned := after (spawn_temporary reader (fun h => run reader h)) tiny_world.
Definition tiny_drained := after drain tiny_spawned.
Definition tiny_reaped := after reap tiny_drained.
Definition one_slot_left := after (spawn_temporary reader (fun h => run reader h)) tiny_reaped.

Lemma tiny_started : started demo_known 0 true tiny_world.
Proof.
  exists 0%nat, (fresh_io 5 1 0), (fun _ _ => 6), (fun _ => true), (mkBox [] 0). split_and!; try done.
  - apply fresh_io_wf; [lia|done].
  - split; try done.
    + intros d ->. eexists. apply lookup_insert_eq.
    + intros d box. cbn [tiny_world sh boxes]. rewrite lookup_singleton_Some. intros [_ <-]. done.
Qed.

Lemma one_slot_left_reach : reach demo_known 0 true 0 one_slot_left.
Proof.
  assert (Hg : good demo_known 0 true reader) by (by split; [left|]).
  apply (reach_spawn _ _ _ _ tiny_reaped reader None); [|done|done|vm_compute; reflexivity].
  apply (reach_turn _ _ _ _ tiny_spawned tiny_drained); [|by right|vm_compute; reflexivity|vm_compute; reflexivity].
  apply (reach_spawn _ _ _ _ tiny_world reader None); [|done|done|vm_compute; reflexivity].
  apply reach_start, tiny_started.
Qed.

Lemma one_slot_left_one : one_slot one_slot_left.
Proof. apply (freach_one_slot demo_known 0 true 0 AtTop); [apply reach_freach, one_slot_left_reach|]. vm_compute. reflexivity. Qed.

(** ** The theorems at concrete states *)

(** Both slots taken. *)
Definition no_slot_left := after (spawn_temporary reader (fun h => run reader h)) one_slot_left.

Lemma no_slot_left_reach : reach demo_known 0 true 0 no_slot_left.
Proof.
  apply (reach_spawn _ _ _ _ one_slot_left reader None);
    [apply one_slot_left_reach|done|by split; [left|]|vm_compute; reflexivity].
Qed.

Lemma no_slot_left_wf : wf_io (s_io (me no_slot_left)).
Proof. apply (reach_inv _ _ _ _ _ no_slot_left_reach). Qed.

Lemma spawn_contract_witness :
  spawn_temporary reader (fun h => run reader h) no_slot_left =
    (Normal (Some (IOException SQFull)), upd (set_next_frame 4%nat) no_slot_left) /\
  exists w', spawn_temporary reader (fun h => run reader h) one_slot_left = (Normal None, w') /\
    tasks_ (me w') = [1; 2]%nat.
Proof.
  assert (Hg : good demo_known 0 true reader) by (by split; [left|]). split.
  - apply (spawn_contract demo_known 0 true 0 AtTop no_slot_left reader (reach_freach _ _ _ _ _ no_slot_left_reach) eq_refl Hg). vm_compute. done.
  - destruct (proj2 (spawn_contract demo_known 0 true 0 AtTop one_slot_left reader (reach_freach _ _ _ _ _ one_slot_left_reach) eq_refl Hg))
      as (w1 & E1 & E & _); [vm_compute; by intros []|].
    exists (keep_task (next_frame (me one_slot_left)) w1). split; [exact E|].
    vm_compute in E1. injection E1 as <-. reflexivity.
Defined.

Lemma requeue_duplicates_user_code_witness :
  exists w', drain_one (job counting) one_slot_left = (Normal tt, w') /\
    user (sh one_slot_left) = 0%nat /\ user (sh w') = 1%nat /\
    own_box w' = Some (mkBox [job counting] 1) /\ one_slot w'.
Proof.
  destruct (requeue_duplicates_user_code (fun u => (S u, 0)) (fun _ => read3) (fun _ => 100) (fun _ r => r) one_slot_left (mkBox [] 0))
    as (w' & E & Hu & Hb & _ & _ & _ & Ho); [exact one_slot_left_one|vm_compute; reflexivity|done|].
  exists w'. split; [exact E|]. split; [vm_compute; reflexivity|]. split; [etransitivity; [exact Hu|vm_compute; reflexivity]|].
  split; [exact Hb|exact Ho].
Defined.

(** Through the event loop: a reader and the counting task are posted.  The
    first turn starts the reader, which leaves one slot, runs the counting task
    and puts its callable back; the second turn, after submission, runs it again
    and keeps it: one job, whose code has run twice. *)
Definition both_posted : world nat (list io_uring_sqe) :=
  set_box 0 (mkBox [job reader; job counting] 1) tiny_reaped.
Definition first_turn := after reap (after drain both_posted).
Definition second_turn := after reap (after drain first_turn).

Example retried_by_the_loop :
  user (sh first_turn) = 1%nat /\ own_box first_turn = Some (mkBox [job counting] 1) /\
  length (tasks_ (me first_turn)) = 1%nat /\
  user (sh second_turn) = 2%nat /\ own_box second_turn = Some (mkBox [] 0) /\ length (tasks_ (me second_turn)) = 1%nat.
Proof. split_and!; vm_compute; reflexivity. Qed.

Lemma spawn_after_resume_dangles_witness :
  exists w', spawn_temporary reads_twice (fun h => run reads_twice h) one_slot_left = (Normal (Some (IOException SQFull)), w') /\
    awts (me w') = awts (me one_slot_left) /\ fst (drain w') = Stuck UseAfterFree.
Proof.
  destruct (spawn_after_resume_dangles read3 read3 100 CoReturn one_slot_left one_slot_left_one) as (w' & E & _ & _ & Ha & _).
  exists w'. split; [exact E|]. split; [exact Ha|]. vm_compute in E. injection E as <-. vm_compute. reflexivity.
Defined.

(** A coroutine running on that ring. *)
Definition full_io : IO := Eval vm_compute in s_io (me no_slot_left).

Lemma full_io_wf : wf_io full_io.
Proof. assert (full_io = s_io (me no_slot_left)) as -> by (vm_compute; reflexivity). exact no_slot_left_wf. Qed.

Definition running_full : world nat (list io_uring_sqe) :=
  mkWorld (mkSched 0 full_io 6 true false [] {[ 9%nat := mkFrame empty_promise Running ]} 10 ∅ 3 false (fun _ => true))
    (sh tiny_world) [].

Lemma full_queue_reads_zero_witness :
  exists w', run (CoAwait read3 None CoReturn) 9 running_full = run (CoReturn 0) 9 w'.
Proof.
  eexists. apply (full_queue_reads_zero read3 None CoReturn 9 (mkFrame empty_promise Running) running_full).
  - reflexivity.
  - reflexivity.
  - exact full_io_wf.
  - reflexivity.
  - vm_compute. reflexivity.
Defined.

Lemma arm_on_full_queue_overwrites_witness :
  sqe_at (sq (arm_io 6 (s_io (me no_slot_left)))) 0 = efd_entry 6 /\
  user_data (sqe_at (sq (s_io (me no_slot_left))) 0) = AddrAwaitable 1.
Proof.
  split; [|vm_compute; reflexivity].
  apply (arm_on_full_queue_overwrites 6 (s_io (me no_slot_left)) no_slot_left_wf). vm_compute. reflexivity.
Defined.
