(* ===== verification/Runtime.v ===== *)
(** * Runtime: the dispatcher, the workers and their threads

    Models src/runtime.cpp and include/slim/common/io/runtime.h.in.  Node 0 is
    the dispatcher, node [S i] is worker [i]; each node is a scheduler with its
    ring and kernel state.  [stop] is cut where it waits: at each [join] and in
    each [shutdown].  Threads makes a transition system of these operations, in
    which every thread, the caller of [stop] included, moves on its own; here is
    what each operation does to the threads and to the nodes that have been shut
    down. *)
From stdpp Require Import prelude list gmap.
From Stdlib Require Import ZArith Lia.
From S2P Require Import Prelude ErrorCodes Ring Operations Awaitable Task Machine Kernel Scheduler Heap Safety EventLoop Follows Wakeup Process Chains Refine RefineLoop Execution Inbox.

(** [Runtime::State]. *)
Inductive State : Type := StIdle | StRunning | StStopped.
#[export] Instance State_eq_dec : EqDecision State.
Proof. solve_decision. Defined.

(** A [std::jthread] member: not joinable, running with its stop token, or
    returned from [Scheduler::run] and not joined yet. *)
Inductive thread : Type := NotJoinable | Live (stop_requested : bool) | Exited.
#[export] Instance thread_eq_dec : EqDecision thread.
Proof. solve_decision. Defined.

(** Where the thread that calls [start] and [stop] is: outside, in the [join]
    of node [i], or in the [shutdown] of node [i]. *)
Inductive phase : Type := Outside | Joining (i : nat) | Closing (i : nat).

Record runtime (U K : Type) : Type := mkRuntime {
  state_ : State;
  nodes : list (sched U * K);
  runners : list thread;
  rt_shared : shared U;
  at_ : phase
}.
Arguments mkRuntime {U K}.
Arguments state_ {U K} r.
Arguments nodes {U K} r.
Arguments runners {U K} r.
Arguments rt_shared {U K} r.
Arguments at_ {U K} r.

(** ** Construction *)

(** The default argument of [IO::IO], which [WorkerNode] uses. *)
Definition default_entries : Z := 256.

Section Ctor.
Context {U K : Type}.
(** [new_io id entries]: the ring [IO::IO(entries)] sets up for node [id], or
    the exception it throws; [new_eventfd id initval flags]: what [::eventfd] returns;
    [grow]: the allocator. *)
Context (new_io : nat -> Z -> outcome exn (IO * K)) (new_eventfd : nat -> Z -> Z -> Z) (grow : nat -> bool).

Definition make_node (id : nat) (entries : Z) : outcome exn (sched U * K * mailbox U) :=
  match new_io id entries with
  | Normal (io, k) =>
      match Scheduler_ctor id io (new_eventfd id) grow with
      | Normal (s, box) => Normal (s, k, box)
      | Throw e => Throw e
      | Stuck r => Stuck r
      end
  | Throw e => Throw e
  | Stuck r => Stuck r
  end.

(** [for (i < worker_count) workers_.push_back(make_unique<WorkerNode>())]. *)
Fixpoint make_workers (n : nat) (id : nat) : outcome exn (list (sched U * K * mailbox U)) :=
  match n with
  | O => Normal []
  | S n =>
      match make_node id default_entries with
      | Normal x => match make_workers n (S id) with
                    | Normal l => Normal (x :: l) | Throw e => Throw e | Stuck r => Stuck r end
      | Throw e => Throw e
      | Stuck r => Stuck r
      end
  end.

Fixpoint mailboxes (id : nat) (l : list (sched U * K * mailbox U)) : gmap nat (mailbox U) :=
  match l with
  | [] => ∅
  | (_, box) :: l => <[id := box]> (mailboxes (S id) l)
  end.

Definition Runtime_ctor (worker_count : nat) (entries : Z) (u : U) : outcome exn (runtime U K) :=
  match make_node 0 entries with
  | Normal d =>
      match make_workers worker_count 1 with
      | Normal ws =>
          Normal (mkRuntime StIdle (fst <$> (d :: ws)) (replicate (S worker_count) NotJoinable)
                    (mkShared (mailboxes 0 (d :: ws)) u 0 worker_count) Outside)
      | Throw e => Throw e
      | Stuck r => Stuck r
      end
  | Throw e => Throw e
  | Stuck r => Stuck r
  end.
End Ctor.

(** ** Operations *)

Section Runtime.
Context {U K : Type} `{HK : Kernel K}.
#[local] Abbreviation rt := (runtime U K).

Definition node_world (r : rt) (i : nat) : option (world U K) :=
  (fun n => mkWorld (fst n) (rt_shared r) (snd n)) <$> nodes r !! i.

Definition put_world (i : nat) (w : world U K) (r : rt) : rt :=
  mkRuntime (state_ r) (<[i := (me w, kern w)]> (nodes r)) (runners r) (sh w) (at_ r).

Definition set_runner (i : nat) (t : thread) (r : rt) : rt :=
  mkRuntime (state_ r) (nodes r) (<[i := t]> (runners r)) (rt_shared r) (at_ r).
Definition set_at (p : phase) (r : rt) : rt :=
  mkRuntime (state_ r) (nodes r) (runners r) (rt_shared r) p.
Definition set_state (s : State) (r : rt) : rt :=
  mkRuntime s (nodes r) (runners r) (rt_shared r) (at_ r).

(** [Runtime::start]: a thread per worker, then the dispatcher's. *)
Definition start (r : rt) : outcome exn unit * rt :=
  if decide (state_ r <> StIdle /\ state_ r <> StStopped) then (Throw (IOException RuntimeNotIdle), r)
  else (Normal tt, mkRuntime StRunning (nodes r) (replicate (length (runners r)) (Live false)) (rt_shared r) (at_ r)).

(** [runner.request_stop()]: the token, and the stop callback of [run]. *)
Definition request_stop (i : nat) (r : rt) : rt :=
  match node_world r i with
  | Some w => set_runner i (Live true) (put_world i (snd (wake_on_stop w)) r)
  | None => r
  end.

(** [Runtime::stop] up to the first [join]: it returns at once unless the
    state is Running. *)
Definition stop_begin (r : rt) : rt :=
  if decide (state_ r = StRunning) then set_at (Joining 0) (request_stop 0 r) else r.

(** [Runtime::~Runtime]: stops a running runtime; a step of its own is not
    needed below, since it is a call of [stop]. *)
Definition Runtime_dtor (r : rt) : rt := if decide (state_ r = StRunning) then stop_begin r else r.

Lemma Runtime_dtor_stops r : Runtime_dtor r = stop_begin r.
Proof. unfold Runtime_dtor, stop_begin. by case_decide. Qed.

(** [join] returns; [shutdown] sets its flag. *)
Definition joined (i : nat) (r : rt) : rt :=
  match node_world r i with
  | Some w => set_at (Closing i) (set_runner i NotJoinable (put_world i (upd (set_shutting_down true) w) r))
  | None => r
  end.

(** [shutdown] of node [i] has returned: on to the next node, or done. *)
Definition closed (i : nat) (r : rt) : rt :=
  if decide (S i < length (nodes r))%nat then set_at (Joining (S i)) (request_stop (S i) r)
  else set_state StStopped (set_at Outside r).

(** [Runtime::post]. *)
Definition Runtime_post (job : nat -> callable U) (r : rt) : outcome exn unit * rt :=
  match node_world r 0 with
  | Some w => let '(o, w') := post 0 (FnDispatch job) w in (o, put_world 0 w' r)
  | None => (Stuck UseAfterFree, r)
  end.

End Runtime.

(** ** What the operations do *)

Section Steps.
Context {U K : Type} `{HKS : KernelSpec K}.
#[local] Abbreviation rt := (runtime U K).
Implicit Types (r : runtime U K) (w : world U K).
(** The number of workers, and whether deadlines may be used. *)
Context (nw : nat) (timed : bool).

Definition node_id (d : nat) : Prop := (d <= nw)%nat.
(** A runtime as its constructor leaves it: every node freshly started. *)
Definition fresh_runtime (r : rt) : Prop :=
  state_ r = StIdle /\ at_ r = Outside /\ length (nodes r) = S nw /\ runners r = replicate (S nw) NotJoinable /\
  forall i, (i <= nw)%nat -> exists w, node_world r i = Some w /\ started node_id nw timed w /\ s_id (me w) = i.

Lemma node_world_lt r i w : node_world r i = Some w -> (i < length (nodes r))%nat.
Proof. unfold node_world. intros H'. apply lookup_lt_is_Some. destruct (nodes r !! i); [eauto|done]. Qed.

Lemma node_world_put r i j w w0 :
  node_world r i = Some w0 ->
  node_world (put_world i w r) j =
    (if decide (j = i) then Some w else (fun v => mkWorld (me v) (sh w) (kern v)) <$> node_world r j).
Proof.
  intros H0. pose proof (node_world_lt r i w0 H0) as Hlt. unfold node_world, put_world. cbn. case_decide as Hd.
  - subst j. rewrite list_lookup_insert_eq by done. cbn. by destruct w.
  - rewrite list_lookup_insert_ne by done. by destruct (nodes r !! j) as [[s k]|].
Qed.

Lemma node_exists r i : length (nodes r) = S nw -> (i <= nw)%nat -> exists w, node_world r i = Some w.
Proof.
  intros Hlen Hi. unfold node_world. destruct (nodes r !! i) eqn:E; [by eexists|]. apply lookup_ge_None in E. lia.
Qed.

Lemma progressed_grows k' io' box c' w : grows others w (progressed k' io' box c' w).
Proof.
  etrans; [apply (own_mailbox_others w (mkBox (inbox_ box) c') k')|].
  by apply (stable_me (R:=grows others) (mkWorld (me w) _ k')).
Qed.

(** ** The control protocol *)

(** What the threads are doing at each point of the caller. *)
Definition runner_at r (j : nat) : Prop :=
  match at_ r with
  | Outside => runners r !! j = Some (if decide (state_ r = StRunning) then Live false else NotJoinable)
  | Joining i =>
      if decide (j < i)%nat then runners r !! j = Some NotJoinable
      else if decide (j = i) then runners r !! j = Some (Live true) \/ runners r !! j = Some Exited
      else runners r !! j = Some (Live false)
  | Closing i => runners r !! j = Some (if decide (j <= i)%nat then NotJoinable else Live false)
  end.

Definition caller_ok r : Prop :=
  match at_ r with
  | Outside => True
  | Joining i | Closing i => state_ r = StRunning /\ (i <= nw)%nat
  end.

Definition control_ok r : Prop :=
  length (runners r) = S nw /\ caller_ok r /\ forall j, (j <= nw)%nat -> runner_at r j.

(** Only the runner of one node changes. *)
Lemma lookup_set_runner r i t j :
  length (runners r) = S nw -> (i <= nw)%nat ->
  runners (set_runner i t r) !! j = if decide (j = i) then Some t else runners r !! j.
Proof.
  intros Hlen Hi. cbn. case_decide as Hd; [subst; apply list_lookup_insert_eq; lia|].
  by apply list_lookup_insert_ne.
Qed.

Lemma control_same r r' :
  state_ r' = state_ r -> runners r' = runners r -> at_ r' = at_ r -> control_ok r -> control_ok r'.
Proof. intros E1 E2 E3. unfold control_ok, caller_ok, runner_at. by rewrite E1, E2, E3. Qed.

(** Asking node [i] to stop, after the nodes before it have been closed. *)
Lemma control_request r i :
  length (nodes r) = S nw -> length (runners r) = S nw -> state_ r = StRunning -> (i <= nw)%nat ->
  (forall j, (j <= nw)%nat -> runners r !! j = Some (if decide (j < i)%nat then NotJoinable else Live false)) ->
  control_ok (set_at (Joining i) (request_stop i r)).
Proof.
  intros Hn Hlen Hst Hi Hrun. unfold request_stop.
  destruct (node_exists r i Hn Hi) as [w ->]. set (w' := snd (wake_on_stop w)).
  split_and!; [cbn; by rewrite length_insert|done|]. intros j Hj. unfold runner_at.
  change (at_ _) with (Joining i).
  change (runners (set_at _ ?x)) with (runners x).
  rewrite (lookup_set_runner (put_world i w' r)) by done. change (runners (put_world i w' r)) with (runners r).
  specialize (Hrun j Hj). repeat case_decide; try lia; try done. by left.
Qed.

(** The caller's steps, and the exit of a thread. *)
Lemma control_fresh r : fresh_runtime r -> control_ok r.
Proof.
  intros (Hst & Hat & Hlen & Hrn & _). split_and!; [by rewrite Hrn, length_replicate|unfold caller_ok; by rewrite Hat|].
  intros j Hj. unfold runner_at. rewrite Hat, Hst, Hrn. apply lookup_replicate_2. lia.
Qed.

Lemma control_start r r' : at_ r = Outside -> start r = (Normal tt, r') -> control_ok r -> control_ok r'.
Proof.
  intros Hat Hs (Hlen & _ & _). unfold start in Hs. case_decide; simplify_eq.
  split_and!; cbn; [by rewrite length_replicate|by rewrite Hat|].
  intros j Hj. unfold runner_at. cbn. rewrite Hat. apply lookup_replicate_2. lia.
Qed.

Lemma control_begin r : length (nodes r) = S nw -> at_ r = Outside -> control_ok r -> control_ok (stop_begin r).
Proof.
  intros Hn Hat (Hlen & Hcal & Hrun). unfold stop_begin. case_decide as Hst; [|done]. apply control_request; [done|done|done|lia|].
  intros j Hj. specialize (Hrun j Hj). unfold runner_at in Hrun. rewrite Hat, decide_True in Hrun by done.
  rewrite decide_False by lia. done.
Qed.

Lemma control_exit r i : runners r !! i = Some (Live true) -> control_ok r -> control_ok (set_runner i Exited r).
Proof.
  intros Hi (Hlen & Hcal & Hrun). assert (Hile : (i <= nw)%nat) by (apply lookup_lt_Some in Hi; lia).
  assert (Hati : at_ r = Joining i).
  { specialize (Hrun i Hile). unfold runner_at in Hrun. rewrite Hi in Hrun.
    destruct (at_ r) as [|i'|i'] eqn:E; repeat case_decide; simplify_eq; congruence. }
  split_and!; [cbn; by rewrite length_insert|done|]. intros j Hj. specialize (Hrun j Hj).
  unfold runner_at in *. change (at_ (set_runner i Exited r)) with (at_ r). rewrite Hati in *.
  rewrite (lookup_set_runner r) by done. repeat case_decide; try lia; try done. by right.
Qed.

Lemma control_joined r i : length (nodes r) = S nw -> at_ r = Joining i -> control_ok r -> control_ok (joined i r).
Proof.
  intros Hok Hat (Hlen & Hcal & Hrun). unfold joined. unfold caller_ok in Hcal. rewrite Hat in Hcal. destruct Hcal as [Hst Hile].
  destruct (node_exists r i Hok Hile) as [w ->]. set (w' := upd _ w).
  split_and!; [cbn; by rewrite length_insert|done|]. intros j Hj. specialize (Hrun j Hj). unfold runner_at in *.
  change (at_ (set_at _ _)) with (Closing i). rewrite Hat in Hrun.
  change (runners (set_at _ ?x)) with (runners x).
  rewrite (lookup_set_runner (put_world i w' r)) by done. change (runners (put_world i w' r)) with (runners r).
  repeat case_decide; try lia; try done.
Qed.

Lemma control_closed r i : length (nodes r) = S nw -> at_ r = Closing i -> control_ok r -> control_ok (closed i r).
Proof.
  intros Hok Hat (Hlen & Hcal & Hrun). unfold caller_ok in Hcal. rewrite Hat in Hcal. destruct Hcal as [Hst Hile]. unfold closed.
  rewrite Hok. case_decide as Hlast.
  - apply control_request; [done|done|done|lia|].
    intros j Hj. specialize (Hrun j Hj). unfold runner_at in Hrun. rewrite Hat in Hrun.
    repeat case_decide; try lia; done.
  - split_and!; [done|done|]. intros j Hj. specialize (Hrun j Hj). unfold runner_at in *. cbn.
    rewrite Hat in Hrun. by rewrite decide_True in Hrun by lia.
Qed.

(** ** What [stop] leaves behind *)

(** Node [j] has been shut down: its flag is set. *)
Definition flagged r (j : nat) : Prop :=
  exists w, node_world r j = Some w /\ shutting_down_ (me w) = true.
(** ... and no task is left. *)
Definition settled r (j : nat) : Prop :=
  exists w, node_world r j = Some w /\ shutting_down_ (me w) = true /\ tasks_ (me w) = [].

(** Working on one node leaves the others alone. *)
Lemma settled_put_ne r i j w w' : node_world r i = Some w -> j <> i -> settled r j -> settled (put_world i w' r) j.
Proof.
  intros Hw Hne (v & Hv & Hsd & Hts). unfold settled. rewrite (node_world_put r i j w' w Hw), decide_False by done.
  rewrite Hv. cbn. eexists. split; [done|]. done.
Qed.

(** So does anything that keeps the flag and the tasks. *)
Lemma settled_put r i j w w' :
  node_world r i = Some w -> shutting_down_ (me w') = shutting_down_ (me w) -> tasks_ (me w') = tasks_ (me w) ->
  settled r j -> settled (put_world i w' r) j.
Proof.
  intros Hw Esd Ets (v & Hv & Hsd & Hts). unfold settled. rewrite (node_world_put r i j w' w Hw).
  case_decide as Hd; [|rewrite Hv; cbn; by eexists].
  subst j. exists w'. rewrite Esd, Ets. by simplify_eq.
Qed.

Lemma wake_me w : me (snd (wake_on_stop w)) = me w.
Proof.
  unfold wake_on_stop, eventfd_write, gets, demand, on_shared, modify, mbind, exec_bind, mret, exec_ret.
  destruct (boxes (sh w) !! s_id (me w)); [|done]. cbn. by destruct (_ <? _).
Qed.

Lemma settled_request_stop r i j : settled r j -> settled (request_stop i r) j.
Proof.
  intros Hj. unfold request_stop. destruct (node_world r i) as [w|] eqn:Hw; [|done].
  change (settled (put_world i (snd (wake_on_stop w)) r) j). eapply settled_put; eauto; by rewrite wake_me.
Qed.

(** The nodes the caller is done with. *)
Definition done_with r (j : nat) : Prop :=
  match at_ r with
  | Outside => state_ r = StStopped
  | Joining i | Closing i => (j < i)%nat
  end.

Definition stop_ok r : Prop :=
  (forall j, (j <= nw)%nat -> done_with r j -> settled r j) /\
  (forall i, at_ r = Closing i -> flagged r i).

(** A node whose loop can turn is not one the caller is done with. *)
Lemma live_not_done r i b : control_ok r -> runners r !! i = Some (Live b) -> ~ done_with r i.
Proof.
  intros (Hlen & _ & Hrun) Hi Hd. assert (Hile : (i <= nw)%nat) by (apply lookup_lt_Some in Hi; lia).
  specialize (Hrun i Hile). unfold runner_at, done_with in *. rewrite Hi in Hrun.
  destruct (at_ r); repeat case_decide; simplify_eq; try congruence; try lia.
Qed.

Lemma flagged_put r i j w w' :
  node_world r i = Some w -> shutting_down_ (me w') = shutting_down_ (me w) ->
  flagged r j -> flagged (put_world i w' r) j.
Proof.
  intros Hw Esd (v & Hv & Hsd). unfold flagged. rewrite (node_world_put r i j w' w Hw).
  case_decide as Hd; [|rewrite Hv; cbn; by eexists].
  subst j. exists w'. rewrite Esd. by simplify_eq.
Qed.

(** Steps that touch neither the caller nor any scheduler's flag or tasks. *)
Lemma stop_ok_put r i w w' :
  node_world r i = Some w -> shutting_down_ (me w') = shutting_down_ (me w) -> tasks_ (me w') = tasks_ (me w) ->
  stop_ok r -> stop_ok (put_world i w' r).
Proof.
  intros Hw E1 E2 [Hset Hfl]. split.
  - intros j Hj Hd. eapply settled_put; [done..|]. by apply Hset.
  - intros k Hk. eapply flagged_put; [done..|]. by apply Hfl.
Qed.

(** The caller's own steps. *)
Lemma stop_ok_start r r' : at_ r = Outside -> start r = (Normal tt, r') -> stop_ok r'.
Proof.
  intros Hat Hs. unfold start in Hs. case_decide; simplify_eq. split; [|cbn; congruence].
  intros j Hj Hd. unfold done_with in Hd. cbn in Hd. by rewrite Hat in Hd.
Qed.

Lemma stop_ok_begin r : stop_ok r -> stop_ok (stop_begin r).
Proof.
  intros Hso. unfold stop_begin. case_decide as Hst; [|done]. split; [|done].
  intros j Hj Hd. unfold done_with in Hd. cbn in Hd. lia.
Qed.

Lemma stop_ok_joined r i :
  length (nodes r) = S nw -> control_ok r -> at_ r = Joining i -> stop_ok r -> stop_ok (joined i r).
Proof.
  intros Hl (_ & Hcal & _) Hat [Hset Hfl]. unfold joined. unfold caller_ok in Hcal. rewrite Hat in Hcal.
  destruct (node_exists r i Hl (proj2 Hcal)) as (w & Hw). rewrite Hw. set (w' := upd _ w). split.
  - intros j Hj Hd. change (done_with _ j) with (j < i)%nat in Hd.
    change (settled (put_world i w' r) j). eapply settled_put_ne; [exact Hw|lia|].
    apply Hset; [done|]. unfold done_with. by rewrite Hat.
  - intros k [= <-]. change (flagged (put_world i w' r) i). exists w'. split; [|done].
    by rewrite (node_world_put r i i w' w Hw), decide_True.
Qed.

Lemma stop_ok_closed r i w :
  length (nodes r) = S nw -> at_ r = Closing i -> node_world r i = Some w -> tasks_ (me w) = [] -> stop_ok r -> stop_ok (closed i r).
Proof.
  intros Hl Hat Hw Hts [Hset Hfl]. assert (Hs : forall j, (j <= i)%nat -> (j <= nw)%nat -> settled r j).
  { intros j Hj Hjw. destruct (decide (j = i)) as [->|]; [|apply Hset; [done|unfold done_with; rewrite Hat; lia]].
    destruct (Hfl i Hat) as (v & Hv & Hsd). exists w. by simplify_eq. }
  unfold closed. case_decide as Hlast; (split; [|done]).
  - intros j Hj Hd. change (done_with _ j) with (j < S i)%nat in Hd.
    apply (settled_request_stop r). apply Hs; [lia|done].
  - intros j Hj _. change (settled r j). apply Hs; [rewrite Hl in Hlast; lia|done].
Qed.

Lemma stop_ok_fresh r : fresh_runtime r -> stop_ok r.
Proof. intros (Hst & Hat & _). split; [|congruence]. intros j Hj Hd. unfold done_with in Hd. rewrite Hat in Hd. congruence. Qed.

(** [shutting_down_] is never reset. *)
Lemma flagged_request r i j : flagged r j -> flagged (request_stop i r) j.
Proof.
  intros Hf. unfold request_stop. destruct (node_world r i) as [w|] eqn:Hw; [|done].
  refine (flagged_put r i j w _ Hw _ Hf). by rewrite wake_me.
Qed.

Lemma flagged_joined r i j : flagged r j -> flagged (joined i r) j.
Proof.
  intros (v & Hv & Hsd). unfold joined. destruct (node_world r i) as [w|] eqn:Hw; [|by exists v].
  change (flagged (put_world i (upd (set_shutting_down true) w) r) j).
  unfold flagged. rewrite (node_world_put r i j _ w Hw). case_decide; [by eexists|rewrite Hv; by eexists].
Qed.
End Steps.
