(* ===== verification/Threads.v ===== *)
(** * Threads: the runtime with its threads interleaved inside turns

    The threads of src/runtime.cpp and the caller of its operations (Runtime) as
    one transition system.  Every node has the position of Interleave in its
    loop, the thread tests its stop token between turns only, a thread that
    calls [Runtime::post] pushes and writes in two steps, and all of this
    happens in any order. *)
From stdpp Require Import prelude list gmap.
From Stdlib Require Import ZArith Lia.
From S2P Require Import Prelude ErrorCodes Ring Operations Awaitable Task Machine Kernel Scheduler Heap Safety EventLoop Follows Wakeup Interleave Process Chains Refine RefineLoop Execution Stepwise Inbox Runtime.

Record threads (U K : Type) : Type := mkThreads {
  rt_ : runtime U K;
  pcs : list (pc U);        (* where each node's loop is *)
  posting : nat             (* threads between the push and the write of [Runtime::post] *)
}.
Arguments mkThreads {U K}.
Arguments rt_ {U K} t.
Arguments pcs {U K} t.
Arguments posting {U K} t.

Section Threads.
Context {U K : Type} `{HKS : KernelSpec K}.
Implicit Types (r : runtime U K) (w v : world U K) (T : threads U K) (P : list (pc U)).
Context (nw : nat) (timed : bool).
#[local] Abbreviation known := (node_id nw).
#[local] Abbreviation freach := (freach (U:=U) (K:=K) known nw timed).
#[local] Abbreviation good_fn := (good_fn (U:=U) known nw timed).
#[local] Abbreviation control_ok := (control_ok (U:=U) (K:=K) nw).
#[local] Abbreviation interference := (interference (U:=U) (K:=K) known nw timed).

(** A step of node [i]'s loop, on whatever thread runs it. *)
Definition advance (i : nat) T (c : pc U) w T' : Prop :=
  exists c' w', pcs T !! i = Some c /\ node_world (rt_ T) i = Some w /\ loop_step c w = (Normal c', w') /\
    T' = mkThreads (put_world i w' (rt_ T)) (<[i := c']> (pcs T)) (posting T).

(** A step, labelled with the job it pushes, if it is the push of
    [Runtime::post].  A turn starts [armable], and the jobs pushed are
    [good_fn].  [start] is one step: to the others a thread that has not been
    created yet is one that takes no step, and only the caller reads [state_].
    A callable, the dispatch closure included, and a resumption of a coroutine
    are one step of their loop. *)
Inductive tstep : option (nat -> callable U) -> threads U K -> threads U K -> Prop :=
| ts_start r r' P n : at_ r = Outside -> start r = (Normal tt, r') -> tstep None (mkThreads r P n) (mkThreads r' P n)
| ts_stop r P n : at_ r = Outside -> tstep None (mkThreads r P n) (mkThreads (stop_begin r) P n)
| ts_loop T T' i b c w :      (* while (!stop_token.stop_requested()) *)
    runners (rt_ T) !! i = Some (Live b) -> (c = AtTop -> b = false /\ armable w) -> advance i T c w T' -> tstep None T T'
| ts_exit r P n i :
    runners r !! i = Some (Live true) -> P !! i = Some AtTop -> tstep None (mkThreads r P n) (mkThreads (set_runner i Exited r) P n)
| ts_join r P n i :
    at_ r = Joining i -> runners r !! i = Some Exited -> tstep None (mkThreads r P n) (mkThreads (joined i r) P n)
| ts_shutdown T T' i c w :    (* while (!tasks_.empty()) *)
    at_ (rt_ T) = Closing i -> (c = AtTop -> tasks_ (me w) <> [] /\ armable w) -> advance i T c w T' -> tstep None T T'
| ts_closed r P n i w :
    at_ r = Closing i -> P !! i = Some AtTop -> node_world r i = Some w -> tasks_ (me w) = [] ->
    tstep None (mkThreads r P n) (mkThreads (closed i r) P n)
| ts_push r P n w box job :
    node_world r 0 = Some w -> own_box w = Some box -> good_fn (FnDispatch job) ->
    tstep (Some job) (mkThreads r P n)
      (mkThreads (put_world 0 (set_box (s_id (me w)) (mkBox (inbox_ box ++ [FnDispatch job]) (efd_counter box)) w) r) P (S n))
| ts_write r P n w box :
    node_world r 0 = Some w -> own_box w = Some box ->
    tstep None (mkThreads r P (S n))
      (mkThreads (put_world 0 (set_box (s_id (me w)) (mkBox (inbox_ box) (poked (efd_counter box))) w) r) P n)
| ts_kernel r P n i w box k' io' z' :
    node_world r i = Some w -> own_box w = Some box ->
    enter_effect 0 (s_io (me w)) (efd_counter box) (k_inflight (kern w)) io' z' (k_inflight k') ->
    tstep None (mkThreads r P n) (mkThreads (put_world i (progressed k' io' box z' w) r) P n).

Inductive treach : threads U K -> Prop :=
| treach_fresh r : fresh_runtime nw timed r -> treach (mkThreads r (replicate (S nw) AtTop) 0)
| treach_step T l T' : treach T -> tstep l T T' -> treach T'.

(** ** Every node is an interleaved execution of its own *)

(** The posting threads post to the dispatcher. *)
Definition posters (n i : nat) : nat := match i with O => n | _ => 0%nat end.

Definition tnodes_ok T : Prop :=
  length (nodes (rt_ T)) = S nw /\ length (pcs T) = S nw /\
  forall i, (i <= nw)%nat -> exists w c, node_world (rt_ T) i = Some w /\ pcs T !! i = Some c /\
    freach (posters (posting T) i) c w /\ s_id (me w) = i.

Lemma node_shared r i j v w : node_world r i = Some v -> node_world r j = Some w -> sh v = sh w.
Proof. unfold node_world. destruct (nodes r !! i), (nodes r !! j); intros; by simplify_eq/=. Qed.

(** One node advances, from [p] to [p'] posting threads; the others see it as
    interference. *)
Lemma tnodes_put r P n n' i c c' w w' :
  tnodes_ok (mkThreads r P n) -> node_world r i = Some w -> P !! i = Some c ->
  (freach (posters n i) c w -> s_id (me w) = i -> freach (posters n' i) c' w' /\ grows others w w') ->
  (forall j, j <> i -> posters n' j = posters n j) ->
  tnodes_ok (mkThreads (put_world i w' r) (<[i := c']> P) n').
Proof.
  intros (Hlen & HlP & Hn) Hw Hc Hadv Hp. cbn in *. pose proof (node_world_lt r i w Hw) as Hlt.
  destruct (Hn i) as (w0 & c0 & E & Ec & Hr & Hid); [lia|]. simplify_eq. destruct (Hadv Hr eq_refl) as [Hr' [Hid' Hg]].
  split_and!; cbn; [by rewrite length_insert|by rewrite length_insert|]. intros j Hj.
  rewrite (node_world_put r _ j w' w Hw). case_decide as Hd.
  { subst j. exists w', c'. split_and!; [done|apply list_lookup_insert_eq; lia|done|done]. }
  destruct (Hn j Hj) as (v & cv & Hv & Hcv & Hrv & Hidv). rewrite Hv. cbn. eexists _, cv.
  split_and!; [done|by rewrite list_lookup_insert_ne by done| |done]. rewrite Hp by done.
  destruct (freach_inv _ _ _ _ _ _ Hr) as [[[_ Hsh] _ _] _]. destruct (freach_inv _ _ _ _ _ _ Hr') as [[[_ Hsh'] _ _] _].
  destruct (so_known _ _ _ _ Hsh j Hj) as [b Hb]. destruct (so_good _ _ _ _ Hsh j b Hb) as [_ Hc'].
  destruct (Hg j b) as (b' & Hb' & Hgr); [done|done|lia|].
  eapply freach_env; [exact Hrv|]. apply (if_others known nw timed _ v (sh w') b b'); [done| |by rewrite Hidv|done].
  unfold own_box. by rewrite (node_shared r j _ v w Hv Hw), Hidv.
Qed.

Lemma follows_loop_step c : follows (grows others) (loop_step (U:=U) (K:=K) c).
Proof.
  assert (Hbox : forall (w : world U K) b, grows others w (set_box (s_id (me w)) b w)) by (intros; apply own_mailbox_others).
  assert (Hnext : forall cu, follows (grows others) (next_cqe (U:=U) (K:=K) cu)).
  { intros cu. apply (follows_bind (grows others)); [by apply (follows_on_me (grows others))|intros _; apply (follows_ret (grows others))]. }
  destruct c as [| | |cu|[|task l] cu|task l cu|l cu|]; cbn [loop_step].
  - apply (follows_bind (grows others)); [apply (follows_gets (grows others))|]. intros armed. apply (follows_bind (grows others)); [|intros _; apply (follows_ret (grows others))].
    apply (follows_if (grows others)); [by apply (follows_on_me (grows others))|apply (follows_ret (grows others))].
  - apply (follows_bind (grows others)); [apply (follows_gets (grows others))|]. intros s. apply (follows_bind (grows others)); [|intros _; apply (follows_ret (grows others))].
    apply (follows_enter (grows others)), own_mailbox_others.
  - apply (follows_bind (grows others)); [apply (follows_gets (grows others))|]. intros q. apply (follows_ret (grows others)).
  - apply (follows_if (grows others)); [apply (follows_ret (grows others))|]. apply (follows_bind (grows others)); [apply (follows_demand (grows others))|]. intros cqe. case_decide.
    + apply (follows_bind (grows others)); [by apply (follows_on_me (grows others))|]. intros _. apply (follows_bind (grows others)); [|intros local; apply (follows_ret (grows others))].
      apply (follows_take_inbox (grows others)), own_mailbox_others.
    + apply (follows_bind (grows others)); [apply (follows_resume_awaitable (grows others))|intros _; apply Hnext].
  - apply Hnext.
  - apply (follows_bind (grows others)); [apply (follows_try (grows others)), (follows_invoke (grows others))|]. intros [a|[st|]]; [apply (follows_ret (grows others))| |apply (follows_throw (grows others))].
    case_decide; apply (follows_ret (grows others)).
  - intros w. cbn. unfold inbox_push, mbind, exec_bind, gets, demand, on_shared, modify.
    destruct (boxes (sh w) !! s_id (me w)); cbn; [apply Hbox|reflexivity].
  - intros w. cbn. unfold eventfd_write, mbind, exec_bind, gets, demand, on_shared, modify.
    destruct (boxes (sh w) !! s_id (me w)); cbn; [|reflexivity]. destruct (_ <? _); cbn; [reflexivity|apply Hbox].
  - apply (follows_bind (grows others)); [apply (follows_reap (grows others))|intros _; apply (follows_ret (grows others))].
Qed.

(** ** Who is where *)

(** A node is inside a turn only while its thread is alive or the caller of
    [stop] is shutting it down; and a thread that was asked to stop while it
    was about to enter the kernel has been woken. *)
Definition parked T (i : nat) : Prop :=
  (exists b, runners (rt_ T) !! i = Some (Live b)) \/ at_ (rt_ T) = Closing i \/ pcs T !! i = Some AtTop.
Definition roused T (i : nat) : Prop :=
  forall w, runners (rt_ T) !! i = Some (Live true) -> pcs T !! i = Some AtEnter -> node_world (rt_ T) i = Some w -> awake w.

Record threads_ok T : Prop := {
  th_nodes : tnodes_ok T;
  th_control : control_ok (rt_ T);
  th_parked : forall i, (i <= nw)%nat -> parked T i;
  th_roused : forall i, (i <= nw)%nat -> roused T i;
  th_stop : stop_ok nw (rt_ T)       (* the nodes [stop] is done with have no task left *)
}.

(** Steps of one node leave the control state alone. *)
Lemma control_put r i w : control_ok r -> control_ok (put_world i w r).
Proof. by apply control_same. Qed.

Lemma tnodes_same T T' :
  nodes (rt_ T') = nodes (rt_ T) -> rt_shared (rt_ T') = rt_shared (rt_ T) -> pcs T' = pcs T -> posting T' = posting T ->
  tnodes_ok T -> tnodes_ok T'.
Proof.
  intros E1 E2 E3 E4 (Hl & HP & Hn). unfold tnodes_ok. rewrite E1, E3, E4. split_and!; [done|done|].
  intros i Hi. destruct (Hn i Hi) as (w & c & Hw & Hr). exists w, c. split; [|done].
  unfold node_world in *. by rewrite E1, E2.
Qed.

(** A node advances where it is. *)
Lemma tnodes_here r P n i w w' :
  tnodes_ok (mkThreads r P n) -> node_world r i = Some w ->
  (forall c, P !! i = Some c -> freach (posters n i) c w -> s_id (me w) = i -> freach (posters n i) c w' /\ grows others w w') ->
  tnodes_ok (mkThreads (put_world i w' r) P n).
Proof.
  intros Hok Hw Hadv. pose proof Hok as (Hl & HP & Hn). cbn in *. pose proof (node_world_lt r i w Hw) as Hlt.
  destruct (Hn i) as (w0 & c & _ & Hc & _); [lia|]. rewrite <- (list_insert_id P i c Hc).
  eapply tnodes_put; [exact Hok|exact Hw|exact Hc|by apply Hadv|done].
Qed.

Lemma tnodes_request r P n i : tnodes_ok (mkThreads r P n) -> tnodes_ok (mkThreads (request_stop i r) P n).
Proof.
  intros Hok. unfold request_stop. destruct (node_world r i) as [w|] eqn:Hw; [|done].
  eapply (tnodes_same (mkThreads (put_world i (snd (wake_on_stop w)) r) P n)); try done.
  eapply tnodes_here; [exact Hok|exact Hw|]. intros c _ Hr _.
  destruct (freach_inv _ _ _ _ _ _ Hr) as [Hi _]. destruct (own_box_ok known nw timed w _ (fi_ok _ _ _ _ _ Hi)) as (box & Hb & _).
  rewrite (wake_on_stop_eq w box Hb). split; [|apply own_mailbox_others]. eapply freach_env; [exact Hr|by apply if_wake].
Qed.

Lemma tnodes_advance T T' i c w :
  tnodes_ok T -> advance i T c w T' -> (c = AtTop -> armable w) -> tnodes_ok T'.
Proof.
  destruct T as [r P n]. intros Hok (c' & w' & Hc & Hw & E & ->) Ha. cbn in *.
  eapply tnodes_put; [exact Hok|exact Hw|exact Hc| |done]. intros Hr _.
  split; [by eapply freach_loop|]. pose proof (follows_loop_step c w) as Hf. by rewrite E in Hf.
Qed.

(** *** The steps *)

Lemma parked_top T i : threads_ok T -> (i <= nw)%nat ->
  (forall b, runners (rt_ T) !! i <> Some (Live b)) -> at_ (rt_ T) <> Closing i -> pcs T !! i = Some AtTop.
Proof. intros Hok Hi Hr Hat. by destruct (th_parked _ Hok i Hi) as [[b Hb]|[?|?]]; [destruct (Hr b)|..]. Qed.

Lemma joined_top r P n i :
  threads_ok (mkThreads r P n) -> at_ r = Joining i -> runners r !! i = Some Exited -> (i <= nw)%nat /\ P !! i = Some AtTop.
Proof.
  intros Hok Hat Hr. pose proof (th_control _ Hok) as (Hl & _). cbn in Hl.
  assert (Hi : (i <= nw)%nat) by (apply lookup_lt_Some in Hr; lia). split; [done|].
  apply (parked_top _ i Hok Hi); cbn; congruence.
Qed.

Lemma tnodes_step l T T' : threads_ok T -> tstep l T T' -> tnodes_ok T'.
Proof.
  intros Hok. pose proof (th_nodes _ Hok) as Hn. destruct 1 as [r r' P n _ Hs|r P n _|T T' i b c w _ Ha Hadv|r P n i _ _
    |r P n i Hat Hr|T T' i c w _ Ha Hadv|r P n i w _ _ _ _|r P n w box job Hw Hb Hg|r P n w box Hw Hb|r P n i w box k' io' z' Hw Hb He].
  - unfold start in Hs. case_decide; simplify_eq. by eapply tnodes_same; [..|exact Hn].
  - unfold stop_begin. case_decide; [|done]. eapply tnodes_same; [..|exact (tnodes_request r P n 0 Hn)]; done.
  - eapply tnodes_advance; [exact Hn|exact Hadv|]. intros E. by apply Ha.
  - by eapply tnodes_same; [..|exact Hn].
  - unfold joined. destruct (node_world r i) as [w|] eqn:Hw; [|done]. destruct (joined_top r P n i Hok Hat Hr) as [_ Hc].
    eapply (tnodes_same (mkThreads (put_world i (upd (set_shutting_down true) w) r) P n)); try done.
    eapply tnodes_here; [exact Hn|exact Hw|]. intros c Hc' Hf _. simplify_eq.
    split; [by apply freach_closing|by apply (stable_me (R:=grows others))].
  - eapply tnodes_advance; [exact Hn|exact Hadv|]. intros E. by apply Ha.
  - unfold closed. case_decide; [|by eapply tnodes_same; [..|exact Hn]].
    eapply tnodes_same; [..|exact (tnodes_request r P n (S i) Hn)]; done.
  - pose proof Hn as (Hl & HP & Hn0). destruct (Hn0 0%nat) as (w0 & c & _ & Hc & _); [lia|]. cbn in Hc.
    rewrite <- (list_insert_id P 0 c Hc). eapply tnodes_put; [exact Hn|exact Hw|exact Hc| |by intros [|j]].
    intros Hf _. split; [|apply own_mailbox_others]. eapply freach_env; [exact Hf|by apply if_push].
  - pose proof Hn as (Hl & HP & Hn0). destruct (Hn0 0%nat) as (w0 & c & _ & Hc & _); [lia|]. cbn in Hc.
    rewrite <- (list_insert_id P 0 c Hc). eapply tnodes_put; [exact Hn|exact Hw|exact Hc| |by intros [|j]].
    intros Hf _. split; [|apply own_mailbox_others]. eapply freach_env; [exact Hf|by apply if_write].
  - eapply tnodes_here; [exact Hn|exact Hw|]. intros c _ Hf _.
    split; [eapply freach_env; [exact Hf|by apply if_kernel]|apply progressed_grows].
Qed.

Lemma control_tstep l T T' : threads_ok T -> tstep l T T' -> control_ok (rt_ T').
Proof.
  intros Hok. pose proof (th_control _ Hok) as Hc. pose proof (proj1 (th_nodes _ Hok)) as Hl.
  destruct 1 as [r r' P n Hat Hs|r P n Hat|T T' i b c w _ _ (c' & w' & _ & _ & _ & ->)|r P n i Hr _|r P n i Hat Hr
    |T T' i c w _ _ (c' & w' & _ & _ & _ & ->)|r P n i w Hat _ Hw Ht|r P n w box job _ _ _|r P n w box _ _|r P n i w box k' io' z' _ _ _];
    cbn in *; try (by apply control_put).
  - by eapply control_start.
  - by apply control_begin.
  - by apply control_exit.
  - by apply control_joined.
  - by apply control_closed.
Qed.

(** [request_stop] on the runners. *)
Lemma request_runner r i j :
  length (nodes r) = S nw -> length (runners r) = S nw -> (i <= nw)%nat ->
  runners (request_stop i r) !! j = if decide (j = i) then Some (Live true) else runners r !! j.
Proof.
  intros Hl Hlr Hi. unfold request_stop. destruct (node_exists nw r i Hl Hi) as [w ->].
  by rewrite (lookup_set_runner nw (put_world i (snd (wake_on_stop w)) r)).
Qed.

(** Requests make no node leave its place. *)
Lemma parked_request r P n i j p :
  length (nodes r) = S nw -> length (runners r) = S nw -> (i <= nw)%nat ->
  (exists b, runners r !! j = Some (Live b)) \/ P !! j = Some AtTop ->
  parked (mkThreads (set_at p (request_stop i r)) P n) j.
Proof.
  intros Hl Hlr Hi Hj. unfold parked. cbn. rewrite request_runner by done.
  case_decide; [left; by eexists|]. destruct Hj; [by left|by right; right].
Qed.

Lemma parked_tstep l T T' : threads_ok T -> tstep l T T' -> forall j, (j <= nw)%nat -> parked T' j.
Proof.
  intros Hok. pose proof (th_control _ Hok) as (Hlr & _). pose proof (proj1 (th_nodes _ Hok)) as Hl. pose proof (proj1 (proj2 (th_nodes _ Hok))) as HlP.
  destruct 1 as [r r' P n Hat Hs|r P n Hat|T T' i b c w Hr _ (c' & w' & _ & _ & _ & ->)|r P n i Hr HPi|r P n i Hat Hr
    |T T' i c w Hat _ (c' & w' & _ & _ & _ & ->)|r P n i w Hat HPi Hw Ht|r P n w box job _ _ _|r P n w box _ _|r P n i w box k' io' z' _ _ _];
    intros j Hj; pose proof (th_parked _ Hok j Hj) as Hpj; unfold parked in *; cbn in *; try done.
  - left. unfold start in Hs. case_decide; simplify_eq. cbn. exists false. apply lookup_replicate_2. lia.
  - unfold stop_begin. case_decide; [|done]. apply (parked_request r P n); [done|done|lia|].
    rewrite Hat in Hpj. destruct Hpj as [?|[?|?]]; [by left|done|by right].
  - destruct (decide (j = i)) as [->|]; [left; by exists b|]. by rewrite list_lookup_insert_ne.
  - destruct (decide (j = i)) as [->|]; [by right; right|]. by rewrite list_lookup_insert_ne.
  - unfold joined. destruct (node_world r i) as [w|]; [|done]. cbn. destruct (decide (j = i)) as [->|]; [by right; left|].
    rewrite list_lookup_insert_ne by done. rewrite Hat in Hpj. destruct Hpj as [?|[?|?]]; [by left|done|by right; right].
  - destruct (decide (j = i)) as [->|]; [by right; left|]. by rewrite list_lookup_insert_ne.
  - assert (Hpj' : (exists b, runners r !! j = Some (Live b)) \/ P !! j = Some AtTop).
    { destruct Hpj as [?|[E|?]]; [by left| |by right]. right. congruence. }
    unfold closed. case_decide; [apply (parked_request r P n); [done|done|lia|done]|].
    unfold parked. cbn. destruct Hpj'; [by left|by right; right].
Qed.

(** *** Woken threads stay awake *)

Lemma awake_others w w' j v :
  grows others w w' -> j <> s_id (me w) -> s_id (me v) = j -> sh v = sh w ->
  (forall b, own_box v = Some b -> 0 <= efd_counter b) -> awake v -> awake (mkWorld (me v) (sh w') (kern v)).
Proof.
  intros [_ Hg] Hj Hid Hsh Hc (b & Hb & Haw). pose proof (Hc b Hb) as Hb0. unfold own_box in Hb. rewrite Hsh, Hid in Hb.
  destruct (Hg j b) as (b' & Hb' & l & _ & Hle & _); [done|done|done|].
  exists b'. unfold own_box. cbn. rewrite Hid. split; [done|]. destruct Haw; [left; lia|by right].
Qed.

(** One node advances; if it is one that has to be awake, it is. *)
Lemma roused_put r P P' n n' i w w' :
  threads_ok (mkThreads r P n) -> node_world r i = Some w -> grows others w w' -> (forall j, j <> i -> P' !! j = P !! j) ->
  (awake w \/ ~ (runners r !! i = Some (Live true) /\ P !! i = Some AtEnter) ->
   runners r !! i = Some (Live true) -> P' !! i = Some AtEnter -> awake w') ->
  forall j, (j <= nw)%nat -> roused (mkThreads (put_world i w' r) P' n') j.
Proof.
  intros Hok Hw Hg HP Hi j Hj v Hr Hc Hv. cbn in *. rewrite (node_world_put r i j w' w Hw) in Hv. case_decide as Hd.
  - subst j. injection Hv as <-. apply Hi; [|done|done].
    destruct (decide (runners r !! i = Some (Live true))) as [Hr'|]; [|right; tauto].
    destruct (P !! i) as [[]|] eqn:E; try (right; by intros [_ ?]). left. by apply (th_roused _ Hok i Hj w).
  - destruct (node_world r j) as [v0|] eqn:Hv0; [|done]. cbn in Hv. injection Hv as <-. rewrite HP in Hc by done.
    pose proof (th_roused _ Hok j Hj v0 Hr Hc Hv0) as Haw. destruct (th_nodes _ Hok) as (Hl & _ & Hn). cbn in *.
    pose proof (node_world_lt r i w Hw). destruct (Hn i) as (w1 & c1 & E1 & _ & _ & Hid); [lia|]. simplify_eq.
    destruct (Hn j Hj) as (v1 & c2 & E2 & _ & Hf & Hid2). simplify_eq.
    eapply awake_others; [exact Hg|done|done|by eapply node_shared| |].
    + intros b Hb. destruct (freach_inv _ _ _ _ _ _ Hf) as [Hfi _].
      destruct (own_box_good known nw timed v0 _ b (fi_ok _ _ _ _ _ Hfi) Hb). lia.
    + exact Haw.
Qed.


(** A request wakes the node it is for. *)
Lemma roused_request r P n i p :
  threads_ok (mkThreads r P n) -> (i <= nw)%nat -> forall j, (j <= nw)%nat -> roused (mkThreads (set_at p (request_stop i r)) P n) j.
Proof.
  intros Hok Hi. pose proof (th_nodes _ Hok) as (Hl & _ & Hn). pose proof (proj1 (th_control _ Hok)) as Hlr. cbn in *.
  destruct (Hn i Hi) as (w & c & Hw & Hc & Hf & Hid). destruct (freach_inv _ _ _ _ _ _ Hf) as [Hfi _].
  destruct (own_box_ok known nw timed w _ (fi_ok _ _ _ _ _ Hfi)) as (box & Hb & _).
  destruct (own_box_good known nw timed w _ box (fi_ok _ _ _ _ _ Hfi) Hb) as [_ Hbc].
  assert (Hg : grows others w (snd (wake_on_stop w))) by (rewrite (wake_on_stop_eq w box Hb); apply own_mailbox_others).
  assert (Haw : awake (snd (wake_on_stop w))).
  { rewrite (wake_on_stop_eq w box Hb). eexists. split; [apply lookup_insert_eq|]. left. by apply poked_range. }
  intros j Hj v Hr HPj Hv. cbn in Hr. rewrite (request_runner r i j Hl Hlr Hi) in Hr.
  unfold request_stop in Hv. rewrite Hw in Hv.
  change (node_world (put_world i (snd (wake_on_stop w)) r) j = Some v) in Hv. destruct (decide (j = i)) as [->|Hne].
  - rewrite (node_world_put r i i _ w Hw), decide_True in Hv by done. by injection Hv as <-.
  - apply (roused_put r P P n n i w (snd (wake_on_stop w)) Hok Hw Hg (fun _ _ => eq_refl) (fun _ _ _ => Haw) j Hj v Hr HPj Hv).
Qed.

Lemma enter_from_top (c : pc U) w w' : loop_step c w = (Normal AtEnter, w') -> c = AtTop.
Proof.
  destruct c as [| | |cu|[|task l] cu|task l cu|l cu|]; [done|..]; cbn; unfold mbind, exec_bind, gets, demand, try, next_cqe; intros E.
  - by destruct (enter _ _ _ w) as [[]].
  - done.
  - destruct (_ =? _); [done|]. destruct (_ !! _); [|done]. case_decide.
    + cbn in E. by destruct (take_inbox _) as [[]].
    + by destruct (resume_awaitable _ _ w) as [[]].
  - done.
  - destruct (invoke task w) as [[|[]|] ?]; try done. by case_decide.
  - by destruct (inbox_push _ _ w) as [[]].
  - by destruct (eventfd_write _ _ w) as [[]].
  - by destruct (reap w) as [[]].
Qed.

Lemma roused_env r P n n' i w w' p p' :
  threads_ok (mkThreads r P n) -> node_world r i = Some w -> interference p w p' w' -> grows others w w' ->
  forall j, (j <= nw)%nat -> roused (mkThreads (put_world i w' r) P n') j.
Proof.
  intros Hok Hw Hif Hg. apply (roused_put r P P n n' i w w' Hok Hw Hg); [done|].
  intros [Haw|Hno] Hr HP; [|tauto]. eapply awake_env; [|exact Haw|exact Hif].
  destruct (th_nodes _ Hok) as (Hl & _ & Hn). cbn in *. pose proof (node_world_lt r i w Hw).
  destruct (Hn i) as (w1 & c1 & E1 & _ & Hf & _); [lia|]. simplify_eq. by destruct (freach_inv _ _ _ _ _ _ Hf) as [[[_ Hsh] _ _] _].
Qed.

Lemma roused_tstep l T T' : threads_ok T -> tstep l T T' -> forall j, (j <= nw)%nat -> roused T' j.
Proof.
  intros Hok. pose proof (th_control _ Hok) as (Hlr & Hcal & Hrun). pose proof (th_roused _ Hok) as Hro. pose proof (proj1 (th_nodes _ Hok)) as Hl.
  destruct 1 as [r r' P n Hat Hs|r P n Hat|T T' i b c w Hr Ha (c' & w' & Hc & Hw & E & ->)|r P n i Hr HPi|r P n i Hat Hr
    |T T' i c w Hat Ha (c' & w' & Hc & Hw & E & ->)|r P n i w Hat HPi Hw Ht|r P n w box job Hw Hb Hg|r P n w box Hw Hb|r P n i w box k' io' z' Hw Hb He];
    cbn in *.
  - intros j Hj v Hv. unfold start in Hs. case_decide; simplify_eq. cbn in Hv. by apply lookup_replicate in Hv as [[=] _].
  - unfold stop_begin. case_decide; [|done]. apply (roused_request r P n 0); [done|lia].
  - destruct T as [r P n]. cbn in *. pose proof (follows_loop_step c w) as Hf. rewrite E in Hf.
    eapply roused_put; [exact Hok|exact Hw|exact Hf|intros j Hj; by apply list_lookup_insert_ne|].
    intros _ Hr' HP. rewrite list_lookup_insert_eq in HP by (by eapply lookup_lt_Some). simplify_eq.
    by destruct (Ha (enter_from_top _ _ _ E)).
  - intros j Hj v Hv HPj Hnw. cbn in *. apply (Hro j Hj v); [|done|done].
    destruct (decide (j = i)) as [->|]; [|by rewrite list_lookup_insert_ne in Hv]. rewrite list_lookup_insert_eq in Hv; [done|by eapply lookup_lt_Some].
  - unfold joined. destruct (node_world r i) as [w|] eqn:Hw; [|done].
    assert (Hg : grows others w (upd (set_shutting_down true) w)) by (by apply (stable_me (R:=grows others))).
    intros j Hj v Hv HPj Hnw. cbn in Hv.
    refine (roused_put r P P n n i w _ Hok Hw Hg _ _ j Hj v _ HPj Hnw); [done| |].
    + by intros [?|?] Hi HP; rewrite Hr in Hi.
    + cbn. destruct (decide (j = i)) as [->|]; [|by rewrite list_lookup_insert_ne in Hv].
      rewrite list_lookup_insert_eq in Hv; [done|by eapply lookup_lt_Some].
  - destruct T as [r P n]. cbn in *. pose proof (follows_loop_step c w) as Hf. rewrite E in Hf.
    eapply roused_put; [exact Hok|exact Hw|exact Hf|intros j Hj; by apply list_lookup_insert_ne|].
    intros _ Hr' _. unfold caller_ok in Hcal. rewrite Hat in Hcal. specialize (Hrun i (proj2 Hcal)).
    unfold runner_at in Hrun. rewrite Hat, decide_True in Hrun by lia. congruence.
  - unfold closed. case_decide; [apply (roused_request r P n (S i)); [done|lia]|exact Hro].
  - eapply (roused_env r P n _ 0 w); [exact Hok|exact Hw|apply (if_push _ _ _ n); done|apply own_mailbox_others].
  - eapply (roused_env r P (S n) _ 0 w); [exact Hok|exact Hw|apply (if_write _ _ _ n); done|apply own_mailbox_others].
  - eapply (roused_env r P n _ i w); [exact Hok|exact Hw|apply (if_kernel _ _ _ n); done|apply progressed_grows].
Qed.

(** *** What [stop] leaves behind *)

(** A node that works is not one [stop] is done with. *)
Lemma stop_advance T T' i c w :
  tnodes_ok T -> ~ done_with (rt_ T) i -> (c = AtTop -> armable w) -> advance i T c w T' -> stop_ok nw (rt_ T) -> stop_ok nw (rt_ T').
Proof.
  intros (Hl & _ & Hn) Hnd Ha (c' & w' & Hc & Hw & E & ->) [Hset Hfl]. cbn. split.
  - intros j Hj Hdj. eapply settled_put_ne; [exact Hw| |by apply Hset]. intros ->. by apply Hnd.
  - intros k Hk. eapply flagged_put; [exact Hw| |by apply Hfl]. pose proof (node_world_lt _ i w Hw).
    destruct (Hn i) as (w0 & c0 & E0 & Ec & Hf & _); [lia|]. simplify_eq. by eapply (loop_step_flag known nw timed).
Qed.

Lemma stop_tstep l T T' : threads_ok T -> tstep l T T' -> stop_ok nw (rt_ T').
Proof.
  intros Hok. pose proof (th_control _ Hok) as Hc. pose proof (th_stop _ Hok) as Hso. pose proof (th_nodes _ Hok) as Hn. pose proof (proj1 Hn) as Hl.
  destruct 1 as [r r' P n Hat Hs|r P n Hat|T T' i b c w Hr Ha Hadv|r P n i Hr HPi|r P n i Hat Hr
    |T T' i c w Hat Ha Hadv|r P n i w Hat HPi Hw Ht|r P n w box job Hw Hb Hg|r P n w box Hw Hb|r P n i w box k' io' z' Hw Hb He];
    cbn in *; try (by eapply stop_ok_put).
  - by eapply stop_ok_start.
  - by apply stop_ok_begin.
  - eapply stop_advance; [exact Hn|by eapply live_not_done|intros Ec; by apply Ha|exact Hadv|done].
  - exact Hso.
  - by apply stop_ok_joined.
  - eapply stop_advance; [exact Hn| |intros Ec; by apply Ha|exact Hadv|done]. unfold done_with. rewrite Hat. lia.
  - by eapply stop_ok_closed.
Qed.

Lemma treach_ok T : treach T -> threads_ok T.
Proof.
  induction 1 as [r Hf|T l T' _ IH Hs].
  - assert (HP : forall i, (i <= nw)%nat -> replicate (S nw) (AtTop (U:=U)) !! i = Some AtTop) by (intros i Hi; apply lookup_replicate_2; lia).
    pose proof Hf as (Hst & Hat & Hlen & Hrn & Hn). split.
    + split_and!; [done|apply length_replicate|]. intros i Hi. destruct (Hn i Hi) as (w & Hw & Hsw & Hid).
      exists w, AtTop. split_and!; [done|by apply HP|destruct i; by apply freach_start|done].
    + by apply (control_fresh nw timed).
    + intros i Hi. right. right. by apply HP.
    + intros i Hi w Hr. cbn in Hr. rewrite Hrn in Hr. by apply lookup_replicate in Hr as [[=] _].
    + by apply (stop_ok_fresh nw timed).
  - split; [by eapply tnodes_step|by eapply control_tstep|by eapply parked_tstep|by eapply roused_tstep|by eapply stop_tstep].
Qed.

(** ** Whole turns are a special case *)

Lemma put_same r i w : node_world r i = Some w -> put_world i w r = r.
Proof.
  unfold node_world, put_world. intros ([s k] & Hi & ->)%fmap_Some. destruct r as [st ns rs sh0 p]. cbn in *. by rewrite list_insert_id.
Qed.

Lemma put_put r i w w' : put_world i w' (put_world i w r) = put_world i w' r.
Proof. unfold put_world. cbn. by rewrite list_insert_insert_eq. Qed.

(** Nobody interferes with node [i] until it is at [y]. *)
Lemma alone_tsteps i x y : rtc alone x y -> forall T,
  pcs T !! i = Some (fst x) -> node_world (rt_ T) i = Some (snd x) ->
  (exists b, runners (rt_ T) !! i = Some (Live b)) \/ at_ (rt_ T) = Closing i ->
  rtc (tstep None) T (mkThreads (put_world i (snd y) (rt_ T)) (<[i := fst y]> (pcs T)) (posting T)).
Proof.
  induction 1 as [x|x z y [Htop E] _ IH]; intros T Hc Hw Hwho.
  { rewrite put_same, list_insert_id by done. by destruct T. }
  set (T1 := mkThreads (put_world i (snd z) (rt_ T)) (<[i := fst z]> (pcs T)) (posting T)).
  assert (Hadv : advance i T (fst x) (snd x) T1) by (by exists (fst z), (snd z)).
  assert (Hne : fst x <> AtTop) by (intros E0; by rewrite E0 in Htop).
  eapply (rtc_l _ _ T1); [destruct Hwho as [[b Hb]|?]; [by eapply ts_loop|by eapply ts_shutdown]|].
  specialize (IH T1). cbn in IH. rewrite put_put, list_insert_insert_eq in IH. apply IH; [| |done].
  - apply list_lookup_insert_eq. by eapply lookup_lt_Some.
  - by rewrite (node_world_put (rt_ T) i i _ _ Hw), decide_True.
Qed.

Lemma whole_turn T i w w1 w2 :
  pcs T !! i = Some AtTop -> node_world (rt_ T) i = Some w -> armable w ->
  runners (rt_ T) !! i = Some (Live false) \/ (at_ (rt_ T) = Closing i /\ tasks_ (me w) <> []) ->
  drain w = (Normal tt, w1) -> reap w1 = (Normal tt, w2) ->
  rtc (tstep None) T (mkThreads (put_world i w2 (rt_ T)) (pcs T) (posting T)).
Proof.
  intros Hc Hw Ha Hwho Hd Hr. set (T1 := mkThreads (put_world i (Interleave.entered w) (rt_ T)) (<[i := AtEnter]> (pcs T)) (posting T)).
  assert (Hadv : advance i T AtTop w T1) by (exists AtEnter, (Interleave.entered w); by rewrite top_eq).
  assert (Hs : tstep None T T1) by (destruct Hwho as [?|[? ?]]; [by eapply ts_loop|by eapply ts_shutdown]).
  eapply rtc_l; [exact Hs|]. pose proof (alone_tsteps i _ _ (turn_alone w w1 w2 Hd Hr) T1) as Hq. cbn in Hq.
  rewrite put_put, list_insert_insert_eq, (list_insert_id (pcs T) i AtTop Hc) in Hq. apply Hq.
  - apply list_lookup_insert_eq. by eapply lookup_lt_Some.
  - by rewrite (node_world_put (rt_ T) i i _ _ Hw), decide_True.
  - destruct Hwho as [?|[? ?]]; [left; by eexists|by right].
Qed.

(** [Runtime::post] without interference is the push and the write. *)
Lemma whole_post r P n w box job :
  node_world r 0 = Some w -> s_id (me w) = 0%nat -> own_box w = Some box -> good_fn (FnDispatch job) ->
  exists T, tstep (Some job) (mkThreads r P n) T /\ tstep None T (mkThreads (snd (Runtime_post job r)) P n).
Proof.
  intros Hw Hid Hb Hg. eexists. split; [by apply (ts_push r P n w box)|].
  set (w1 := set_box (s_id (me w)) (mkBox (inbox_ box ++ [FnDispatch job]) (efd_counter box)) w).
  assert (Hw1 : node_world (put_world 0 w1 r) 0 = Some w1) by (by rewrite (node_world_put r 0 0 _ _ Hw), decide_True).
  assert (Hb1 : own_box w1 = Some (mkBox (inbox_ box ++ [FnDispatch job]) (efd_counter box))) by apply lookup_insert_eq.
  replace (snd (Runtime_post job r)) with (put_world 0 (set_box (s_id (me w1)) (mkBox (inbox_ box ++ [FnDispatch job]) (poked (efd_counter box))) w1) (put_world 0 w1 r));
    [exact (ts_write (put_world 0 w1 r) P n w1 _ Hw1 Hb1)|].
  rewrite put_put. unfold Runtime_post. rewrite Hw. unfold own_box in Hb. rewrite Hid in Hb.
  unfold post, inbox_push, eventfd_write, mbind, exec_bind, demand, on_shared, modify, poked. rewrite Hb. cbn. rewrite lookup_insert_eq. cbn.
  unfold set_box, w1, set_box. rewrite Hid. cbn. destruct (EFD_MAX <? efd_counter box + 1); cbn; [|done]. by rewrite insert_insert_eq.
Qed.

(** ** Theorems *)

Lemma node_freach T i w c :
  tnodes_ok T -> node_world (rt_ T) i = Some w -> pcs T !! i = Some c -> (i <= nw)%nat /\ freach (posters (posting T) i) c w.
Proof.
  intros (Hl & _ & Hn) Hw Hc. pose proof (node_world_lt _ i w Hw).
  destruct (Hn i) as (w0 & c0 & E & Ec & Hf & _); [lia|]. simplify_eq. by split; [lia|].
Qed.

Lemma treach_node T i w c :
  treach T -> node_world (rt_ T) i = Some w -> pcs T !! i = Some c -> (i <= nw)%nat /\ freach (posters (posting T) i) c w.
Proof. intros Ht. apply node_freach, th_nodes, treach_ok, Ht. Qed.

(** C1: The whole runtime is memory safe at every interleaving of the steps of
    [tstep].  The jobs posted are [good_fn]: what they spawn asks for at most one
    slot before it first suspends, and deadlines and spawning coroutines do not
    occur together; the allocator can grow [tasks_]; and a turn starts only
    [armable], with the eventfd read armed or a free slot.  Dispatcher, workers,
    kernel, threads in the middle of [Runtime::post] and the caller of [start]
    and [stop] take their steps in any order, inside each other's turns (a
    callable or a resumption is one step).  The next step of any node's loop
    then touches no freed memory, leaves no ring and gets stuck only by sleeping
    in the kernel outside shutdown, and no exception but one of the user's
    escapes from it. *)
Theorem threads_memory_safe T i w c :
  treach T -> node_world (rt_ T) i = Some w -> pcs T !! i = Some c -> (c = AtTop -> armable w) ->
  (forall q w', loop_step c w = (Stuck q, w') -> q = KernelBlocks /\ c = AtEnter /\ shutting_down_ (me w) = false) /\
  (forall e w', loop_step c w = (Throw e, w') -> exists tag, e = OtherException tag).
Proof.
  intros Ht Hw Hc Ha. destruct (treach_node T i w c Ht Hw Hc) as [_ Hf].
  destruct (freach_inv _ _ _ _ _ _ Hf) as [Hi Hn]. pose proof (loop_step_safe known nw timed _ c w Hi Hn Ha) as Hs. unfold wp in Hs.
  split; intros x w' E; rewrite E in Hs; [exact Hs|]. destruct x as [|tag]; [done|by exists tag].
Qed.

(** No node sleeps on work.  A node that is about to enter the kernel while its
    inbox holds a callable gets out of the kernel; for the dispatcher, if no
    thread is between the push and the write of [Runtime::post]. *)
Theorem threads_no_lost_wakeup T i w box :
  treach T -> node_world (rt_ T) i = Some w -> pcs T !! i = Some AtEnter -> own_box w = Some box -> inbox_ box <> [] ->
  (i = 0%nat -> posting T = 0%nat) -> exists w', loop_step AtEnter w = (Normal AtLoad, w').
Proof.
  intros Ht Hw Hc Hb Hne Hp. destruct (treach_node T i w _ Ht Hw Hc) as [_ Hf].
  destruct (freach_inv _ _ _ _ _ _ Hf) as [Hi Hn]. apply (awake_enters known nw timed); [done|]. exists box. split; [done|].
  destruct (Hn box Hb Hne) as [?|[?|[Hpos|[]]]]; [by left|by right|]. destruct i; cbn in Hpos; [rewrite Hp in Hpos by done|]; lia.
Qed.

(** C12: No two threads work on one scheduler.  When the caller of [stop] runs the
    shutdown loop of a node, that node's thread has been joined; a node that is
    inside a turn is so on its own live thread or on the caller's, in shutdown;
    and when [stop] has returned no thread is left and no node is inside a
    turn. *)
Theorem threads_exclusive T :
  treach T ->
  (forall i, at_ (rt_ T) = Closing i -> runners (rt_ T) !! i = Some NotJoinable) /\
  (forall i, (i <= nw)%nat -> pcs T !! i <> Some AtTop ->
     (exists b, runners (rt_ T) !! i = Some (Live b)) \/ at_ (rt_ T) = Closing i) /\
  (at_ (rt_ T) = Outside -> state_ (rt_ T) = StStopped -> forall i, (i <= nw)%nat ->
     runners (rt_ T) !! i = Some NotJoinable /\ pcs T !! i = Some AtTop).
Proof.
  intros Ht. pose proof (treach_ok T Ht) as Hok. destruct (th_control _ Hok) as (_ & Hcal & Hrun). split_and!.
  - intros i Hat. unfold caller_ok in Hcal. rewrite Hat in Hcal. specialize (Hrun i (proj2 Hcal)). unfold runner_at in Hrun.
    by rewrite Hat, decide_True in Hrun by lia.
  - intros i Hi Hne. destruct (th_parked _ Hok i Hi) as [?|[?|?]]; [by left|by right|done].
  - intros Hat Hst i Hi. specialize (Hrun i Hi). unfold runner_at in Hrun. rewrite Hat, Hst, decide_False in Hrun by done.
    split; [done|]. by apply (parked_top T i Hok Hi); [congruence|rewrite Hat].
Qed.

(** The nodes after [stop]. *)
Lemma stopped_clean T :
  treach T -> at_ (rt_ T) = Outside -> state_ (rt_ T) = StStopped ->
  forall j, (j <= nw)%nat ->
  runners (rt_ T) !! j = Some NotJoinable /\ pcs T !! j = Some AtTop /\
  exists w, node_world (rt_ T) j = Some w /\ tasks_ (me w) = [] /\ frames (me w) = ∅ /\ awts (me w) = ∅ /\
    forall a, AddrAwaitable a ∉ outstanding (at_kernel (kern w) (cq (s_io (me w)))) (me w).
Proof.
  intros Ht Hat Hst j Hj. pose proof (treach_ok T Ht) as Hok. destruct (th_control _ Hok) as (_ & _ & Hrun). specialize (Hrun j Hj).
  unfold runner_at in Hrun. rewrite Hat, Hst, decide_False in Hrun by done.
  assert (Hc : pcs T !! j = Some AtTop) by (by apply (parked_top T j Hok Hj); [congruence|rewrite Hat]).
  split_and!; [done|done|]. destruct (proj1 (th_stop _ Hok) j Hj) as (w & Hw & _ & Hts); [unfold done_with; by rewrite Hat|].
  exists w. split; [done|]. split; [done|]. destruct (treach_node T j w _ Ht Hw Hc) as [_ Hf].
  destruct (freach_refines known nw timed _ _ _ Hf) as (Q & _ & Hs). destruct (freach_inv _ _ _ _ _ _ Hf) as [Hi _].
  apply (finv_inv known nw timed) in Hi; [|done]. exact (nothing_left known nw timed _ w Q (proj1 Hi) Hs Hts).
Qed.

(** C13: [stop] leaves nothing running and leaks nothing, in the executions of
    [treach]: what the posted jobs spawn asks for at most one slot before it
    first suspends, deadlines and spawning coroutines do not occur together,
    [tasks_] can grow, and turns start [armable].  Once the runtime is Stopped
    and [stop] has returned, every thread has been joined, no node is inside a
    turn, and every scheduler has finished and destroyed all of its tasks: no
    coroutine frame and no awaitable is left on any node, and no entry whose
    completion would refer to an awaitable is outstanding in any ring (the read
    of the eventfd may be); whatever was posted meanwhile, and whoever is still
    between the push and the write of [Runtime::post]. *)
Theorem stop_leaves_nothing T :
  treach T -> at_ (rt_ T) = Outside -> state_ (rt_ T) = StStopped ->
  forall j, (j <= nw)%nat ->
  runners (rt_ T) !! j = Some NotJoinable /\ pcs T !! j = Some AtTop /\
  exists w, node_world (rt_ T) j = Some w /\ tasks_ (me w) = [] /\ frames (me w) = ∅ /\ awts (me w) = ∅ /\
    forall a, AddrAwaitable a ∉ outstanding (at_kernel (kern w) (cq (s_io (me w)))) (me w).
Proof. apply stopped_clean. Qed.

(** *** After a restart *)

(** Any step. *)
Definition tmove T T' : Prop := exists l, tstep l T T'.

Lemma flagged_tmove T T' j : threads_ok T -> tmove T T' -> flagged (rt_ T) j -> flagged (rt_ T') j.
Proof.
  intros Hok [l Hs] Hf.
  destruct Hs as [r r' P n Hat Hs|r P n Hat|T T' i b c w Hr Ha (c' & w' & Hc & Hw & E & ->)|r P n i Hr HPi|r P n i Hat Hr
    |T T' i c w Hat Ha (c' & w' & Hc & Hw & E & ->)|r P n i w Hat HPi Hw Ht|r P n w box job Hw Hb Hg|r P n w box Hw Hb|r P n i w box k' io' z' Hw Hb He];
    cbn in *; try (by eapply flagged_put).
  - unfold start in Hs. case_decide; by simplify_eq.
  - unfold stop_begin. case_decide; [by apply flagged_request|done].
  - eapply flagged_put; [exact Hw| |done]. destruct (node_freach _ _ _ _ (th_nodes _ Hok) Hw Hc) as [_ Hfr].
    eapply (loop_step_flag known nw timed); [exact Hfr| |exact E]. intros Ec. by apply Ha.
  - done.
  - by apply flagged_joined.
  - eapply flagged_put; [exact Hw| |done]. destruct (node_freach _ _ _ _ (th_nodes _ Hok) Hw Hc) as [_ Hfr].
    eapply (loop_step_flag known nw timed); [exact Hfr| |exact E]. intros Ec. by apply Ha.
  - unfold closed. case_decide; [by apply flagged_request|done].
Qed.

(** C36: A restarted runtime never sleeps.  [start] accepts the state Stopped,
    but [shutting_down_] stays set in every scheduler: whatever happens after
    [stop] has returned, no event loop ever waits for a completion again, so
    that after a [start] every idle thread spins. *)
Theorem restarted_runtime_never_sleeps T T' j w c :
  treach T -> at_ (rt_ T) = Outside -> state_ (rt_ T) = StStopped -> rtc tmove T T' ->
  node_world (rt_ T') j = Some w -> pcs T' !! j = Some c -> (c = AtTop -> armable w) ->
  forall q w', loop_step c w <> (Stuck q, w').
Proof.
  intros Ht Hat Hst Hrtc Hw Hc Ha q w' E.
  assert (Hf : forall j, (j <= nw)%nat -> flagged (rt_ T) j).
  { intros k Hk. destruct (proj1 (th_stop _ (treach_ok T Ht)) k Hk) as (v & Hv & Hsd & _); [|by exists v].
    unfold done_with. by rewrite Hat. }
  assert (Hr' : treach T' /\ forall j, (j <= nw)%nat -> flagged (rt_ T') j).
  { clear Hw Hc Hat Hst. induction Hrtc as [|T T1 T2 Hs _ IH]; [done|]. pose proof Hs as [l Hl].
    apply IH; [by eapply treach_step|]. intros k Hk. eapply flagged_tmove; [by apply treach_ok|done|auto]. }
  destruct Hr' as [Ht' Hf']. destruct (treach_node T' j w c Ht' Hw Hc) as [Hj Hr]. destruct (Hf' j Hj) as (v & Hv & Hsd). simplify_eq.
  destruct (freach_inv _ _ _ _ _ _ Hr) as [Hi Hn]. pose proof (loop_step_safe known nw timed _ c w Hi Hn Ha) as Hs.
  unfold wp in Hs. rewrite E in Hs. destruct Hs as (_ & _ & ?). congruence.
Qed.

(** C16: A thread asked to stop leaves its loop, so that [join] returns.  Wherever
    the thread is when the request comes, none of its steps blocks from then
    on, not even [io_uring_enter]; every step inside the turn brings the end of
    the turn nearer, in a well-founded order; and at the end of the turn the
    thread exits. *)
Theorem stopped_thread_leaves T i w c :
  treach T -> runners (rt_ T) !! i = Some (Live true) -> node_world (rt_ T) i = Some w -> pcs T !! i = Some c ->
  well_founded (nearer (U:=U)) /\
  (forall q w', c <> AtTop -> loop_step c w <> (Stuck q, w')) /\
  (forall T', c <> AtTop -> advance i T c w T' -> exists c', pcs T' !! i = Some c' /\ (c' = AtTop \/ nearer c' c)) /\
  (c = AtTop -> tstep None T (mkThreads (set_runner i Exited (rt_ T)) (pcs T) (posting T))).
Proof.
  intros Ht Hr Hw Hc. destruct (treach_node T i w c Ht Hw Hc) as [Hi Hf]. pose proof (treach_ok T Ht) as Hok.
  destruct (freach_inv _ _ _ _ _ _ Hf) as [Hfi Hn]. split_and!.
  - apply nearer_wf.
  - intros q w' Hne E. pose proof (loop_step_safe known nw timed _ c w Hfi Hn ltac:(done)) as Hs. unfold wp in Hs. rewrite E in Hs.
    destruct Hs as (_ & -> & _). destruct (awake_enters known nw timed w Hfi) as [w1 E1]; [|congruence].
    by apply (th_roused _ Hok i Hi w).
  - intros T' Hne (c' & w' & _ & _ & E & ->). exists c'. split.
    + apply list_lookup_insert_eq. by eapply lookup_lt_Some.
    + by eapply (loop_step_closer known nw timed).
  - intros ->. destruct T as [r P n]. by apply ts_exit.
Qed.
End Threads.
