(* ===== verification/Workload.v ===== *)
(** * Workload: jobs posted to a runtime

    The executions of tests2/runtime_test.cpp and tests2/runtime_write.cpp:
    jobs are posted to the dispatcher, handed to the workers in turn, and run
    there, while all threads interleave inside each other's turns (the steps of
    Threads).  Across all threads, at every moment, each job is in one inbox,
    or in the hands of a loop that took it out of its inbox, or one worker
    waits for an operation of it, or it has ended, and every worker has its
    share. *)
From stdpp Require Import prelude list gmap.
From Stdlib Require Import ZArith Lia.
From S2P Require Import Prelude ErrorCodes Ring Operations Awaitable Task Machine Kernel Scheduler Heap Safety EventLoop Follows Wakeup Interleave Process Chains Refine RefineLoop Execution Stepwise Shutdown Jobs Serving Inbox Runtime Threads.

Lemma sum_list_zero (l : list nat) : Forall (fun n => n = 0%nat) l -> sum_list l = 0%nat.
Proof. induction 1 as [|n l -> _ IH]; cbn; [done|exact IH]. Qed.

Lemma sum_list_elem (l : list nat) i x : l !! i = Some x -> (x <= sum_list l)%nat.
Proof. revert i. induction l as [|a l IH]; intros [|i]; cbn; [done|done|intros [= ->]; lia|]. intros H%IH. lia. Qed.

(** Sums. *)
Definition zsum (l : list Z) : Z := foldr Z.add 0 l.

Lemma zsum_insert (l : list Z) i x y : l !! i = Some x -> zsum (<[i := y]> l) + x = zsum l + y.
Proof.
  revert i. induction l as [|z l IH]; intros [|i] Hi; try done; [cbn in *; injection Hi as ->; lia|].
  change (z + zsum (<[i := y]> l) + x = z + zsum l + y). specialize (IH i Hi). lia.
Qed.

Lemma zsum_nonneg (l : list Z) : Forall (fun n => 0 <= n) l -> 0 <= zsum l.
Proof. unfold zsum. induction 1; cbn; lia. Qed.

Lemma zsum_of_nat (l : list nat) : zsum (Z.of_nat <$> l) = Z.of_nat (sum_list l).
Proof. unfold zsum. induction l as [|n l IH]; cbn; [done|]. rewrite IH. lia. Qed.

Lemma zsum_zero (l : list Z) : Forall (fun z => z = 0) l -> zsum l = 0.
Proof. unfold zsum. induction 1 as [|z l -> _ IH]; cbn; [done|exact IH]. Qed.

Lemma zsum_elem (l : list Z) i x : Forall (fun n => 0 <= n) l -> l !! i = Some x -> x <= zsum l.
Proof.
  intros Hl. revert i. unfold zsum. induction Hl as [|n l Hn Hl IH]; intros [|i]; cbn; try done.
  - intros [= ->]. pose proof (zsum_nonneg l Hl). unfold zsum in *. lia.
  - intros H%IH. lia.
Qed.

Lemma zsum_fmap_insert {A} (f : A -> Z) (l : list A) i x y :
  l !! i = Some x -> zsum (f <$> <[i := y]> l) + f x = zsum (f <$> l) + f y.
Proof. intros Hi. rewrite list_fmap_insert. apply zsum_insert. by rewrite list_lookup_fmap, Hi. Qed.

Lemma zsum_replicate n : zsum (replicate n 0) = 0.
Proof. apply zsum_zero, Forall_replicate. done. Qed.

(** ** Executions *)

Section Serving.
Context {U K : Type} `{HKS : KernelSpec K}.
Context (nw : nat) (timed : bool).
#[local] Abbreviation tstep := (tstep (U:=U) (K:=K) nw timed).

(** The jobs pushed so far are [fs], each with the property [J]; [F] holds of
    the user state at the start. *)
Inductive tserving (J : (nat -> callable U) -> Prop) (F : U -> Prop) : list (nat -> callable U) -> threads U K -> Prop :=
| tserving_fresh r :
    fresh_runtime nw timed r -> (forall d box, boxes (rt_shared r) !! d = Some box -> inbox_ box = []) ->
    next_worker_ (rt_shared r) = 0 -> F (user (rt_shared r)) -> tserving J F [] (mkThreads r (replicate (S nw) AtTop) 0)
| tserving_step fs T T' : tserving J F fs T -> tstep None T T' -> tserving J F fs T'
| tserving_push fs T f T' : tserving J F fs T -> J f -> tstep (Some f) T T' -> tserving J F (fs ++ [f]) T'.

Lemma tserving_mono (J J' : (nat -> callable U) -> Prop) (F F' : U -> Prop) fs T :
  (forall f, J f -> J' f) -> (forall u, F u -> F' u) -> tserving J F fs T -> tserving J' F' fs T.
Proof.
  intros HJ HF. induction 1; [by apply tserving_fresh; auto|by eapply tserving_step|by eapply tserving_push; auto].
Qed.

Lemma tserving_reach J F fs T : tserving J F fs T -> treach nw timed T.
Proof.
  induction 1 as [r Hf _ _ _|fs T T' _ IH Hs|fs T f T' _ IH _ Hs]; [by apply treach_fresh|by eapply treach_step..].
Qed.

Lemma tserving_steps J F fs T T' : rtc (tstep None) T T' -> tserving J F fs T -> tserving J F fs T'.
Proof. induction 1 as [|T T1 T2 Hs _ IH]; [done|]. intros Hr. apply IH. by eapply tserving_step. Qed.

(** A whole [Runtime::post], and a whole turn. *)
Lemma tserving_post J F fs r Ps n w box f :
  tserving J F fs (mkThreads r Ps n) -> J f -> good_fn (node_id nw) nw timed (FnDispatch f) ->
  node_world r 0 = Some w -> s_id (me w) = 0%nat -> own_box w = Some box ->
  tserving J F (fs ++ [f]) (mkThreads (snd (Runtime_post f r)) Ps n).
Proof.
  intros Hs Hf Hg Hw Hid Hb. destruct (whole_post nw timed r Ps n w box f Hw Hid Hb Hg) as (T & H1 & H2).
  eapply tserving_step; [|exact H2]. by eapply tserving_push.
Qed.

Lemma tserving_all J F fs T : tserving J F fs T -> Forall J fs.
Proof. induction 1; [constructor|done|]. apply Forall_app. split; [done|by constructor]. Qed.

Lemma tserving_init J F fs T : tserving J F fs T -> exists u, F u.
Proof. induction 1; eauto. Qed.
End Serving.

(** Operations waited for, on all nodes. *)
Definition waiting_ops {U K} (r : runtime U K) : nat := sum_list ((fun n => size (awts (fst n))) <$> nodes r).

(** Callables the loops have taken out of their inboxes and not run yet. *)
Definition in_hand {U K} (T : threads U K) : nat := sum_list ((fun c => length (held (position c))) <$> pcs T).

Lemma in_hand_zero {U K} (T : threads U K) (f : list (callable U) -> Z) :
  f [] = 0 -> in_hand T = 0%nat -> zsum ((fun c => f (held (position c))) <$> pcs T) = 0.
Proof.
  intros Hf H0. apply zsum_zero, Forall_fmap, Forall_lookup. intros i c Hc. cbn.
  assert (Hl : (length (held (position c)) <= in_hand T)%nat) by (eapply sum_list_elem; by rewrite list_lookup_fmap, Hc).
  by rewrite (nil_length_inv (held (position c))) by lia.
Qed.

Lemma waiting_at_least {U K} (r : runtime U K) i w : node_world r i = Some w -> (size (awts (me w)) <= waiting_ops r)%nat.
Proof.
  unfold node_world. intros (n & Hn & ->)%fmap_Some. unfold waiting_ops.
  eapply sum_list_elem. by rewrite list_lookup_fmap, Hn.
Qed.

Lemma node_world_sh {U K} (r : runtime U K) i w : node_world r i = Some w -> sh w = rt_shared r.
Proof. unfold node_world. intros (n & _ & ->)%fmap_Some. done. Qed.

Section Workload.
Context {U K : Type} `{HKS : KernelSpec K}.
Implicit Types (r : runtime U K) (T : threads U K) (w : world U K) (Q : pool U).
Context (nw : nat) (timed : bool) (B : book U) (Hsample : keeps B (sample B)).
#[local] Abbreviation known := (node_id nw).
#[local] Abbreviation freach := (freach (U:=U) (K:=K) known nw timed).
#[local] Abbreviation tstep := (tstep (U:=U) (K:=K) nw timed).
#[local] Abbreviation tnodes_ok := (tnodes_ok (U:=U) (K:=K) nw timed).
#[local] Abbreviation slots w := (sq_entries (sq (s_io (me w)))).
#[local] Abbreviation g := (counter B).
#[local] Abbreviation opweight Q := (weigh (wweight B) (p_waiting Q)).
#[local] Abbreviation hweight := (fun c : pc U => lweight B (held (position c))).
#[local] Abbreviation hdispatch := (fun c : pc U => Z.of_nat (ldispatch (held (position c)))).

(** The books of the whole runtime: [ws] is what the operations each node
    waits for will add. *)
Record th_accounted (N P : Z) T : Prop := {
  ta_total : exists ws, length ws = length (nodes (rt_ T)) /\
    (forall i w, node_world (rt_ T) i = Some w -> exists Q, simulates w Q /\ tidy B Q /\ ws !! i = Some (opweight Q)) /\
    weigh (bweight B) (boxes (rt_shared (rt_ T))) + zsum ws + zsum (hweight <$> pcs T) + g (user (rt_shared (rt_ T))) =
      N + given B nw (rt_shared (rt_ T));
  ta_jobs : forall d box, boxes (rt_shared (rt_ T)) !! d = Some box -> Forall (is_job B nw) (inbox_ box);
  ta_held : Forall (fun c => Forall (is_job B nw) (held (position c))) (pcs T);
  ta_dispatch : forall i, who B = Some i -> 0 <= next_worker_ (rt_shared (rt_ T)) /\
    zsum (hdispatch <$> pcs T) + weigh bdispatch (boxes (rt_shared (rt_ T))) + next_worker_ (rt_shared (rt_ T)) = P /\ P < 2 ^ 64;
  ta_bumps : 0 <= g (user (rt_shared (rt_ T)));
  ta_user : keeps B (user (rt_shared (rt_ T)))
}.

Lemma dispatch_elem T i c : pcs T !! i = Some c -> hdispatch c <= zsum (hdispatch <$> pcs T).
Proof.
  intros Hc. apply (zsum_elem _ i); [|by rewrite list_lookup_fmap, Hc]. apply Forall_fmap, Forall_true. intros. cbn. lia.
Qed.

(** What one node sees of the books. *)
Lemma node_accounted N P T i w c Q ws :
  tnodes_ok T -> th_accounted N P T -> node_world (rt_ T) i = Some w -> pcs T !! i = Some c -> simulates w Q -> tidy B Q ->
  weigh (bweight B) (boxes (rt_shared (rt_ T))) + zsum ws + zsum (hweight <$> pcs T) + g (user (rt_shared (rt_ T))) =
    N + given B nw (rt_shared (rt_ T)) ->
  accounted_at B nw (slots w) (position c) (N - zsum ws + opweight Q - zsum (hweight <$> pcs T) + hweight c)
    (P - zsum (hdispatch <$> pcs T) + hdispatch c) Q.
Proof.
  intros Hok [_ Hj Hh Hd Hb HI] Hw Hc Hs [Hcn Hn Hu] Htot. destruct (node_freach nw timed _ _ _ _ Hok Hw Hc) as [_ Hr].
  destruct (freach_inv known nw timed _ _ _ Hr) as [Hi _]. pose proof (dispatch_elem T i c Hc) as Hle.
  pose proof (node_world_sh _ _ _ Hw) as Esh. destruct (proj1 Hs) as [_ _ Ee _ _ _ _ _ _ Eq].
  split; [|by eapply (Forall_lookup_1 _ _ _ _ Hh)].
  cbn beta in *. rewrite Esh in Eq. split; rewrite ?Eq; try done; [lia| |].
  - intros j Hj'. destruct (Hd j Hj') as (H0 & Ht & HP). unfold dispatch_ok. lia.
  - rewrite <- Esh. apply (so_workers _ _ _ _ (proj2 (fi_ok _ _ _ _ _ Hi))).
Qed.

(** A node advances, with [n] and [p] added from outside. *)
Lemma accounted_put N P n p r Ps m m' i c c' w w' :
  tnodes_ok (mkThreads r Ps m) -> th_accounted N P (mkThreads r Ps m) -> node_world r i = Some w -> Ps !! i = Some c ->
  (forall j, who B = Some j -> P + p < 2 ^ 64) ->
  (forall Q M R, simulates w Q -> accounted_at B nw (slots w) (position c) M R Q -> R <= P ->
     exists Q', simulates w' Q' /\ accounted_at B nw (slots w) (position c') (M + n) (R + p) Q') ->
  th_accounted (N + n) (P + p) (mkThreads (put_world i w' r) (<[i := c']> Ps) m').
Proof.
  intros Hok Ha Hw Hc HP Hstep. destruct (ta_total _ _ _ Ha) as (ws & Hlen & Hws & Htot). cbn [rt_ pcs posting] in *.
  destruct (Hws i w Hw) as (Q & Hs & HQ & Hi). pose proof (node_accounted _ _ _ _ _ _ _ _ Hok Ha Hw Hc Hs HQ Htot) as HaQ. cbn [rt_ pcs posting] in HaQ.
  pose proof (dispatch_elem (mkThreads r Ps m) i c Hc) as Hle. cbn [rt_ pcs] in Hle.
  destruct (Hstep Q _ _ Hs HaQ ltac:(lia)) as (Q' & Hs' & HQ' & Hh').
  pose proof (sf_shared _ _ (proj1 Hs')) as Esh. pose proof HQ' as [Hj _ _ _ Ht Hd Hb HI _ _]. rewrite Esh in Hj, Ht, Hd, Hb, HI.
  pose proof (zsum_fmap_insert hweight Ps i c c' Hc) as E1. pose proof (zsum_fmap_insert hdispatch Ps i c c' Hc) as E2. cbn beta in *.
  split; cbn [rt_ pcs rt_shared put_world]; try done.
  - exists (<[i := opweight Q']> ws). split_and!.
    + cbn [nodes put_world]. by rewrite !length_insert.
    + intros j v. erewrite node_world_put by done. case_decide as Hij.
      * intros [= <-]. exists Q'. split_and!; [done|by eapply accounted_tidy|]. subst. apply list_lookup_insert_eq. by eapply lookup_lt_Some.
      * intros (v0 & Hv0 & ->)%fmap_Some. destruct (Hws j v0 Hv0) as (Qv & Hsv & [? ? ?] & Hj').
        exists (with_shared (sh w') Qv). split_and!; [by apply sim_shared|by split|by rewrite list_lookup_insert_ne].
    + pose proof (zsum_insert ws i _ (opweight Q') Hi). lia.
  - apply Forall_insert; [apply (ta_held _ _ _ Ha)|done].
  - intros j Hj'. destruct (Hd j Hj') as (H0 & Hsum & _). split_and!; [done|lia|by eapply HP].
Qed.

(** *** The steps *)

Lemma accounted_same N P T T' :
  nodes (rt_ T') = nodes (rt_ T) -> rt_shared (rt_ T') = rt_shared (rt_ T) -> pcs T' = pcs T -> th_accounted N P T -> th_accounted N P T'.
Proof. intros En Es Ec []. split; unfold node_world in *; rewrite ?En, ?Es, ?Ec; try done. Qed.

(** A node moves from [c] to [c'], or stays where it is. *)
Lemma accounted_move N P r Ps m m' i c c' w w' :
  tnodes_ok (mkThreads r Ps m) -> th_accounted N P (mkThreads r Ps m) -> node_world r i = Some w -> Ps !! i = Some c ->
  (freach (posters m i) c w -> forall Q M R, simulates w Q -> accounted_at B nw (slots w) (position c) M R Q ->
     exists Q', simulates w' Q' /\ accounted_at B nw (slots w) (position c') M R Q') ->
  th_accounted N P (mkThreads (put_world i w' r) (<[i := c']> Ps) m').
Proof.
  intros Hok Ha Hw Hc Hs. rewrite <- (Z.add_0_r N), <- (Z.add_0_r P). eapply accounted_put; [done|done|done|done| |].
  - intros j Hj. destruct (ta_dispatch _ _ _ Ha j Hj) as (_ & _ & HP). lia.
  - intros Q M R HsQ HQ _. rewrite !Z.add_0_r. exact (Hs (proj2 (node_freach nw timed _ _ _ _ Hok Hw Hc)) Q M R HsQ HQ).
Qed.

Lemma accounted_here N P r Ps m m' i w w' :
  tnodes_ok (mkThreads r Ps m) -> th_accounted N P (mkThreads r Ps m) -> node_world r i = Some w ->
  (forall c Q M R, freach (posters m i) c w -> simulates w Q -> accounted_at B nw (slots w) (position c) M R Q ->
     exists Q', simulates w' Q' /\ accounted_at B nw (slots w) (position c) M R Q') ->
  th_accounted N P (mkThreads (put_world i w' r) Ps m').
Proof.
  intros Hok Ha Hw Hs. pose proof Hok as (Hl & _ & Hn). cbn in *. pose proof (node_world_lt r i w Hw) as Hlt.
  destruct (Hn i) as (w0 & c & _ & Hc & _); [lia|]. rewrite <- (list_insert_id Ps i c Hc).
  eapply accounted_move; [exact Hok|done|done|done|]. intros Hr Q M R. by apply Hs.
Qed.

(** Another thread writes the eventfd. *)
Lemma poke_accounts E x M R w Q box z :
  own_box w = Some box -> simulates w Q -> accounted_at B nw E x M R Q ->
  exists Q', simulates (set_box (s_id (me w)) (mkBox (inbox_ box) z) w) Q' /\ accounted_at B nw E x M R Q'.
Proof.
  intros Hb Hs [Ha Hl]. rewrite <- (p_box_own w Q Hs) in Hb. eexists. split; [by apply (set_box_refines w Q)|].
  split; [by apply accounted_poked|done].
Qed.

Lemma accounted_request N P r Ps m i :
  tnodes_ok (mkThreads r Ps m) -> th_accounted N P (mkThreads r Ps m) -> th_accounted N P (mkThreads (request_stop i r) Ps m).
Proof.
  intros Hok Ha. unfold request_stop. destruct (node_world r i) as [w|] eqn:Hw; [|done].
  apply (accounted_same N P (mkThreads (put_world i (snd (wake_on_stop w)) r) Ps m)); [done|done|done|].
  eapply accounted_here; [exact Hok|done|done|]. intros c Q M R Hr Hs HQ. destruct (freach_inv known nw timed _ _ _ Hr) as [Hi _].
  destruct (own_box_ok known nw timed w _ (fi_ok _ _ _ _ _ Hi)) as (box & Hb & _).
  rewrite (wake_on_stop_eq w box Hb). by eapply poke_accounts.
Qed.

Lemma accounted_advance N P T T' i c w :
  tnodes_ok T -> th_accounted N P T -> (c = AtTop -> armable w) -> advance i T c w T' -> th_accounted N P T'.
Proof.
  destruct T as [r Ps m]. intros Hok Ha Harm (c' & w' & Hc & Hw & E & ->). cbn in *.
  eapply accounted_move; [exact Hok|done|done|done|]. intros Hr Q M R Hs HQ.
  destruct (freach_inv known nw timed _ _ _ Hr) as [Hi _].
  destruct (loop_stepwise known nw timed c w Q Hi Harm Hs _ _ E) as (Q' & Hp & Hs'); [done|].
  exists Q'. split; [done|]. exact (pstep_accounts B nw _ Hsample _ _ _ _ _ _ HQ Hp).
Qed.

Lemma accounted_tstep N P T T' : tnodes_ok T -> th_accounted N P T -> tstep None T T' -> th_accounted N P T'.
Proof.
  intros Hok Ha Hs. remember None as l eqn:El.
  destruct Hs as [r r' Ps n _ Hs|r Ps n _|T T' i b c w _ Hc Hadv|r Ps n i _ _
    |r Ps n i _ _|T T' i c w _ Hc Hadv|r Ps n i w _ _ _ _|r Ps n w box job Hw Hb Hg|r Ps n w box Hw Hb|r Ps n i w box k' io' z' Hw Hb He]; try done.
  - unfold start in Hs. case_decide; simplify_eq. by eapply accounted_same; [..|exact Ha].
  - unfold stop_begin. case_decide; [|done]. by eapply accounted_same; [..|exact (accounted_request N P r Ps n 0 Hok Ha)].
  - eapply accounted_advance; [exact Hok|done| |exact Hadv]. intros E. by apply Hc.
  - by eapply accounted_same; [..|exact Ha].
  - unfold joined. destruct (node_world r i) as [w|] eqn:Hw; [|done].
    eapply (accounted_same N P (mkThreads (put_world i (upd (set_shutting_down true) w) r) Ps n)); try done.
    eapply accounted_here; [exact Hok|done|exact Hw|]. intros c Q M R _ Hs [HQ Hl].
    eexists. split; [by apply closing_refines|]. split; [by destruct HQ|done].
  - eapply accounted_advance; [exact Hok|done| |exact Hadv]. intros E. by apply Hc.
  - unfold closed. case_decide; [|by eapply accounted_same; [..|exact Ha]].
    by eapply accounted_same; [..|exact (accounted_request N P r Ps n (S i) Hok Ha)].
  - eapply accounted_here; [exact Hok|done|exact Hw|]. intros c Q M R _ Hs HQ. by eapply poke_accounts.
  - eapply accounted_here; [exact Hok|done|exact Hw|]. intros c Q M R _ Hs [HQ Hl].
    destruct (kernel_refines 0 w Q box k' io' z' Hs Hb He) as (Q' & Hk & Hs').
    exists Q'. split; [done|]. split; [by eapply kernel_accounts|done].
Qed.

Lemma accounted_push N P T f n T' :
  tnodes_ok T -> th_accounted N P T -> counted_job B nw n f -> (forall i, who B = Some i -> P + 1 < 2 ^ 64) ->
  tstep (Some f) T T' -> th_accounted (N + n) (P + 1) T'.
Proof.
  intros Hok Ha Hf HP Hs. inversion Hs as [| | | | | | |r Ps m w box job Hw Hb Hg| |]; subst.
  pose proof Hok as (Hl & _ & Hn). destruct (Hn 0%nat) as (w0 & c & _ & Hc & _); [lia|]. cbn in Hc.
  rewrite <- (list_insert_id Ps 0 c Hc). eapply accounted_put; [exact Hok|done|done|done|done|].
  intros Q M R HsQ [HQ Hh] HR. rewrite <- (p_box_own w Q HsQ) in Hb. eexists. split; [by apply (set_box_refines w Q)|]. split; [|done].
  replace n with (lweight B [FnDispatch f]) by (cbn [lweight foldr]; rewrite (is_job_dispatch_weight B nw Hsample n f Hf); lia).
  apply (accounted_box nw B _ _ _ M R Q box [FnDispatch f]); [done|done|by constructor; [eapply job_dispatch|]|].
  intros i Hi _. specialize (HP i Hi). cbn. lia.
Qed.

Lemma fresh_accounted r m :
  fresh_runtime nw timed r -> (forall d box, boxes (rt_shared r) !! d = Some box -> inbox_ box = []) ->
  next_worker_ (rt_shared r) = 0 -> g (user (rt_shared r)) = 0 -> keeps B (user (rt_shared r)) ->
  th_accounted 0 0 (mkThreads r (replicate (S nw) AtTop) m).
Proof.
  intros (_ & _ & Hlen & _ & Hn) H0 Hnx Hg HI.
  assert (Hst : forall i w, node_world r i = Some w -> exists Q, simulates w Q /\ accounted B nw (slots w) 0 0 0 0 Q /\ opweight Q = 0).
  { intros i w Hw. pose proof (node_world_lt r i w Hw). destruct (Hn i) as (v & Hv & Hs & _); [lia|]. simplify_eq.
    pose proof (node_world_sh _ _ _ Hw) as Esh. rewrite <- Esh in H0, Hg, HI, Hnx.
    destruct (started_accounted known nw timed B w Hs H0 Hg HI) as (Q & HsQ & Ha & _); [done|]. exists Q. split_and!; [done|done|].
    destruct (reach_inv known nw timed 0 w (reach_start _ _ _ _ Hs)) as [Hi _].
    rewrite (map_size_empty_inv (p_waiting Q)); [apply weigh_empty|].
    by rewrite (size_waiting known nw timed _ w Q (proj1 Hi) HsQ), (started_no_awaitable known nw timed w Hs), map_size_empty. }
  destruct (Hn 0%nat) as (w0 & Hw0 & _); [lia|]. destruct (Hst 0%nat w0 Hw0) as (Q0 & Hs0 & [Hj _ _ _ Ht Hd _ _ _ _] & Hz).
  pose proof (sf_shared _ _ (proj1 Hs0)) as Esh. rewrite (node_world_sh _ _ _ Hw0) in Esh. rewrite Esh in Hj, Ht, Hd.
  split; cbn [rt_ pcs]; rewrite ?fmap_replicate; [|done|by apply Forall_replicate; constructor| |lia|done].
  - exists (replicate (length (nodes r)) 0). split_and!; [apply length_replicate| |].
    + intros i w Hw. destruct (Hst i w Hw) as (Q & HsQ & Ha & E). exists Q. split_and!; [done|by eapply accounted_tidy|].
      rewrite E. apply lookup_replicate_2. by eapply node_world_lt.
    + cbn [held position lweight foldr]. rewrite !zsum_replicate. lia.
  - intros i Hi. destruct (Hd i Hi) as (Hd0 & Hd1 & Hd2). cbn [held position ldispatch foldr]. change (Z.of_nat 0) with 0. rewrite zsum_replicate. lia.
Qed.

Lemma tserving_accounted (J : (nat -> callable U) -> Prop) (F : U -> Prop) fs T :
  (forall f, J f -> exists n, counted_job B nw n f) -> (forall u, F u -> g u = 0 /\ keeps B u) ->
  tserving nw timed J F fs T -> (forall i, who B = Some i -> Z.of_nat (length fs) < 2 ^ 64) ->
  th_accounted (lweight B (FnDispatch <$> fs)) (Z.of_nat (length fs)) T.
Proof.
  intros HJ HF. induction 1 as [r Hf H0 Hnx HF0|fs T T' Hrs IH Hs|fs T f T' Hrs IH Hf Hs]; intros Hlt.
  - destruct (HF _ HF0). by apply fresh_accounted.
  - eapply accounted_tstep; [by eapply th_nodes, treach_ok, tserving_reach|by apply IH|done].
  - destruct (HJ f Hf) as (n & Hn).
    rewrite length_app, Nat2Z.inj_add in *. cbn [length] in *. change (Z.of_nat 1) with 1 in *.
    rewrite fmap_app, lweight_app. replace (lweight B (FnDispatch <$> [f])) with n
      by (unfold lweight; cbn [fmap list_fmap foldr]; rewrite (is_job_dispatch_weight B nw Hsample n f Hn); lia).
    eapply accounted_push; [by eapply th_nodes, treach_ok, tserving_reach| |exact Hn|done|done].
    apply IH. intros i Hi. specialize (Hlt i Hi). lia.
Qed.

(** *** What the books say *)

(** The node of a thread, at the level of the specification. *)
Lemma node_waits T i w Q :
  tnodes_ok T -> node_world (rt_ T) i = Some w -> simulates w Q -> size (p_waiting Q) = size (awts (me w)).
Proof.
  intros Hok Hw Hs. pose proof Hok as (Hl & _ & Hn). pose proof (node_world_lt _ i w Hw).
  destruct (Hn i) as (v & c & Hv & _ & Hr & _); [lia|]. simplify_eq. destruct (freach_inv known nw timed _ _ _ Hr) as [Hi _].
  exact (size_waiting known nw timed _ w Q (fi_ok _ _ _ _ _ Hi) Hs).
Qed.

Lemma waits_zero T N P :
  tnodes_ok T -> th_accounted N P T -> queued (rt_shared (rt_ T)) = 0%nat -> in_hand T = 0%nat -> waiting_ops (rt_ T) = 0%nat ->
  g (user (rt_shared (rt_ T))) = N + given B nw (rt_shared (rt_ T)) /\ forall i, who B = Some i -> next_worker_ (rt_shared (rt_ T)) = P.
Proof.
  intros Hok [(ws & Hlen & Hws & Htot) _ _ Hd _ _] Hq Hh H0.
  assert (Hb : forall f, f (mkBox [] 0) = 0 -> (forall box, f box = f (mkBox (inbox_ box) 0)) -> weigh f (boxes (rt_shared (rt_ T))) = 0).
  { intros f Hf Hf'. rewrite (weigh_const _ 0); [done|]. intros d box Hbx. by rewrite Hf', (queued_zero _ _ _ Hq Hbx). }
  assert (Hz : zsum ws = 0).
  { apply zsum_zero, Forall_lookup. intros i x Hi. destruct (node_world (rt_ T) i) as [w|] eqn:Hw.
    - destruct (Hws i w Hw) as (Q & Hs & _ & Hx). pose proof (waiting_at_least _ i w Hw).
      assert (Hn : p_waiting Q = ∅) by (apply map_size_empty_inv; rewrite (node_waits T i w Q Hok Hw Hs); lia).
      rewrite Hn, weigh_empty in Hx. congruence.
    - unfold node_world in Hw. apply fmap_None, lookup_ge_None in Hw. apply lookup_lt_Some in Hi. lia. }
  rewrite Hb in Htot by done. rewrite (in_hand_zero T (lweight B)) in Htot by done. split; [lia|].
  intros i Hi. destruct (Hd i Hi) as (_ & Hs & _). rewrite Hb in Hs by done.
  rewrite (in_hand_zero T (fun l => Z.of_nat (ldispatch l))) in Hs by done. lia.
Qed.

(** The counter is never ahead. *)
Lemma th_bound T N P : th_accounted N P T -> g (user (rt_shared (rt_ T))) <= N + given B nw (rt_shared (rt_ T)).
Proof.
  intros [(ws & Hlen & Hws & Htot) Hj Hh _ _ _].
  assert (0 * Z.of_nat (size (boxes (rt_shared (rt_ T)))) <= weigh (bweight B) (boxes (rt_shared (rt_ T)))).
  { apply weigh_bound. intros b box Hb. by eapply lweight_bound, Hj. }
  assert (0 <= zsum (hweight <$> pcs T)).
  { apply zsum_nonneg, Forall_fmap. eapply Forall_impl; [exact Hh|]. intros c Hc. unfold compose. exact (lweight_bound B nw Hsample _ Hc). }
  assert (0 <= zsum ws); [|lia]. apply zsum_nonneg, Forall_lookup. intros i x Hi. destruct (node_world (rt_ T) i) as [w|] eqn:Hw.
  - destruct (Hws i w Hw) as (Q & _ & [Hc _ _] & Hx). simplify_eq.
    assert (0 * Z.of_nat (size (p_waiting Q)) <= opweight Q); [|lia]. apply weigh_bound. intros a k Hk.
    destruct (Hc a k Hk) as (n & [Hn _] & Hn'). by rewrite (wweight_eq B Hsample n k Hn').
  - unfold node_world in Hw. apply fmap_None, lookup_ge_None in Hw. apply lookup_lt_Some in Hi. lia.
Qed.

(** When every job adds one, the books count jobs. *)
Lemma th_unit T N P : unit_ B = true -> who B = None -> tnodes_ok T -> th_accounted N P T ->
  Z.of_nat (queued (rt_shared (rt_ T))) + Z.of_nat (in_hand T) + Z.of_nat (waiting_ops (rt_ T)) + g (user (rt_shared (rt_ T))) = N.
Proof.
  intros Hu Hwho Hok [(ws & Hlen & Hws & Htot) Hj Hh _ _ _]. unfold given in Htot. rewrite Hwho in Htot.
  rewrite (weigh_ext (bweight B) (fun box => Z.of_nat (length (inbox_ box)))), <- queued_weigh in Htot;
    [|intros b box Hb; by eapply lweight_unit, Hj].
  assert (E : ws = Z.of_nat <$> ((fun n => size (awts (fst n))) <$> nodes (rt_ T))).
  { apply list_eq. intros i. rewrite !list_lookup_fmap. destruct (nodes (rt_ T) !! i) as [[s k]|] eqn:Hi.
    - assert (Hw : node_world (rt_ T) i = Some (mkWorld s (rt_shared (rt_ T)) k)) by (unfold node_world; by rewrite Hi).
      destruct (Hws i _ Hw) as (Q & Hs & [Hc _ _] & ->). cbn. f_equal. rewrite (weigh_const _ 1).
      + pose proof (node_waits T i _ Q Hok Hw Hs) as Hsz. cbn in Hsz. lia.
      + intros a p Hp. destruct (Hc a p Hp) as (n & [_ Hn] & Hn'). rewrite (wweight_eq B Hsample n p Hn'). by apply Hn.
    - cbn. apply lookup_ge_None. apply lookup_ge_None in Hi. lia. }
  assert (E' : hweight <$> pcs T = Z.of_nat <$> ((fun c => length (held (position c))) <$> pcs T)).
  { rewrite <- list_fmap_compose. apply list_fmap_ext. intros i c Hc. cbn. apply (lweight_unit B nw Hsample); [done|]. by eapply (Forall_lookup_1 _ _ _ _ Hh). }
  rewrite E, E', !zsum_of_nat in Htot. unfold waiting_ops, in_hand. lia.
Qed.
End Workload.

(** ** Theorems *)

Section Theorems.
Context {U K : Type} `{HKS : KernelSpec K}.
Implicit Types (T : threads U K) (w : world U K) (c : nat -> U -> Z) (I : U -> Prop).
Context (nw : nat) (timed : bool).
#[local] Abbreviation known := (node_id nw).
#[local] Abbreviation slots w := (sq_entries (sq (s_io (me w)))).
#[local] Abbreviation tserving := (tserving (U:=U) (K:=K) nw timed).
#[local] Abbreviation state_of T := (user (rt_shared (rt_ T))).
#[local] Abbreviation queued_in T := (queued (rt_shared (rt_ T))).

(** A job of [Runtime::post] that spawns one task on its worker [i], which
    adds [n i] to the counter [g]. *)
Definition job_adds (g : U -> Z) I (n : nat -> Z) (f : nat -> callable U) : Prop :=
  (0 < nw)%nat /\ forall i, (i < nw)%nat -> exists t, f i = job t /\ counts g I (n i) (denote t).

Definition from_zero (g : U -> Z) I (u : U) : Prop := g u = 0 /\ I u.

Lemma counted_one (g : U -> Z) I u f : job_adds g I (fun _ => 1) f -> counted_job (count_book g I u) nw 1 f.
Proof. intros [Hnw Hf]. split_and!; [done|done|]. intros i Hi. split; [done|]. by apply Hf. Qed.

Lemma tserving_nodes J F fs T : tserving J F fs T -> tnodes_ok nw timed T.
Proof. intros Hs. by eapply th_nodes, treach_ok, tserving_reach. Qed.

Lemma serving_counted (g : U -> Z) I fs T :
  tserving (job_adds g I (fun _ => 1)) (from_zero g I) fs T ->
  exists u, I u /\ th_accounted nw (count_book g I u) (Z.of_nat (length fs)) (Z.of_nat (length fs)) T.
Proof.
  intros Hrs. destruct (tserving_init _ _ _ _ _ _ Hrs) as (u & _ & Hu). exists u. split; [done|].
  pose proof (tserving_accounted nw timed (count_book g I u) Hu _ _ fs T
    (fun f Hf => ex_intro _ 1 (counted_one g I u f Hf)) (fun u Hu => Hu) Hrs) as Ha.
  rewrite (lweight_unit (count_book g I u) nw Hu), length_fmap in Ha; [by apply Ha|done|].
  apply Forall_fmap. eapply Forall_impl; [by eapply tserving_all|]. intros f Hf. by eapply job_dispatch, counted_one.
Qed.

Lemma serving_total (g : U -> Z) I fs T :
  tserving (job_adds g I (fun _ => 1)) (from_zero g I) fs T ->
  Z.of_nat (queued_in T) + Z.of_nat (in_hand T) + Z.of_nat (waiting_ops (rt_ T)) + g (state_of T) = Z.of_nat (length fs) /\
  0 <= g (state_of T) /\ I (state_of T).
Proof.
  intros Hrs. destruct (serving_counted g I fs T Hrs) as (u & Hu & Ha).
  pose proof (th_unit nw timed (count_book g I u) Hu T _ _ eq_refl eq_refl (tserving_nodes _ _ _ _ Hrs) Ha) as Ht.
  split_and!; [done|apply (ta_bumps _ _ _ _ _ Ha)|apply (ta_user _ _ _ _ _ Ha)].
Qed.

(** A ring with more slots than jobs were posted has room at the top of the
    loop. *)
Lemma serving_armable (g : U -> Z) I fs T i w :
  tserving (job_adds g I (fun _ => 1)) (from_zero g I) fs T ->
  node_world (rt_ T) i = Some w -> pcs T !! i = Some AtTop -> Z.of_nat (length fs) < slots w -> armable w.
Proof.
  intros Hrs Hw Hc Hlt. destruct (serving_total g I fs T Hrs) as (Ht & Hg & _).
  destruct (serving_counted g I fs T Hrs) as (u & Hu & Ha). pose proof (tserving_nodes _ _ _ _ Hrs) as Hok.
  destruct (ta_total _ _ _ _ _ Ha) as (ws & _ & Hws & Htot). destruct (Hws i w Hw) as (Q & Hs & HQ & _).
  destruct (node_freach nw timed _ _ _ _ Hok Hw Hc) as [_ Hr]. destruct (freach_inv known nw timed _ _ _ Hr) as [Hi _].
  apply (finv_inv known nw timed) in Hi; [|done].
  eapply (room_armable known nw timed); [exact Hi|exact Hs|apply HQ|]. rewrite (sf_entries _ _ (proj1 Hs)).
  rewrite (size_waiting known nw timed _ w Q (proj1 Hi) Hs). pose proof (waiting_at_least _ i w Hw). lia.
Qed.

(** C6: The jobs posted to a runtime are accounted for at every moment.  Each job
    spawns one task on its worker ([job_adds]), which uses no deadline, spawns
    and posts nothing, and, whatever its operations answer, adds one to the
    counter [g], in one go and after the last of them; turns start [armable].
    Whatever the interleaving of the posting threads, the dispatcher, the
    workers, the kernel and the caller of [start] and [stop], inside each
    other's turns: the callables in the inboxes of all nodes, those a loop has
    taken out of its inbox and not run yet, the operations the workers wait for
    and the jobs that have ended add up to the jobs posted, whether or not some
    job met a full queue and was put back; and the tests' own invariant of the
    shared counters holds.  A node whose ring has more slots than jobs were
    posted can always arm its eventfd read. *)
Theorem runtime_jobs_accounted (g : U -> Z) I fs T :
  tserving (job_adds g I (fun _ => 1)) (from_zero g I) fs T ->
  Z.of_nat (queued_in T) + Z.of_nat (in_hand T) + Z.of_nat (waiting_ops (rt_ T)) + g (state_of T) = Z.of_nat (length fs) /\
  I (state_of T) /\
  forall i w, node_world (rt_ T) i = Some w -> pcs T !! i = Some AtTop -> Z.of_nat (length fs) < slots w -> armable w.
Proof.
  intros Hrs. destruct (serving_total g I fs T Hrs) as (Ht & _ & HI). split_and!; [done|done|].
  intros i w. by apply (serving_armable g I fs).
Qed.

(** After [stop], nothing is in hand and nothing is waited for. *)
Lemma stopped_waits J F fs T :
  tserving J F fs T -> at_ (rt_ T) = Outside -> state_ (rt_ T) = StStopped -> in_hand T = 0%nat /\ waiting_ops (rt_ T) = 0%nat.
Proof.
  intros Hrs Hat Hst. pose proof (tserving_reach nw timed J F fs T Hrs) as Hr. pose proof (tserving_nodes _ _ _ _ Hrs) as (Hl & HlP & _).
  split; apply sum_list_zero, Forall_fmap, Forall_lookup.
  - intros j c Hj. assert (Hlt : (j <= nw)%nat) by (apply lookup_lt_Some in Hj; lia).
    destruct (stopped_clean nw timed T Hr Hat Hst j Hlt) as (_ & Hc & _). by simplify_eq.
  - intros j [s k] Hj. assert (Hlt : (j <= nw)%nat) by (apply lookup_lt_Some in Hj; lia).
    assert (Hw : node_world (rt_ T) j = Some (mkWorld s (rt_shared (rt_ T)) k)) by (unfold node_world; by rewrite Hj).
    destruct (stopped_clean nw timed T Hr Hat Hst j Hlt) as (_ & _ & v & Hv & _ & _ & Ha & _). simplify_eq. cbn in *.
    by rewrite Ha, map_size_empty.
Qed.

(** C24: What [stop] leaves undone is what is still queued, for jobs that spawn one
    task each, which uses no deadline, spawns and posts nothing and adds one to
    the counter after its last operation, in executions whose turns start
    [armable].  When [stop] has returned, every job that was ever taken out of
    an inbox to be run has ended: no callable is in hand, no operation is waited
    for, and the jobs ended and the callables left in the inboxes add up to the
    jobs posted. *)
Theorem stop_finishes_started_jobs (g : U -> Z) I fs T :
  tserving (job_adds g I (fun _ => 1)) (from_zero g I) fs T -> at_ (rt_ T) = Outside -> state_ (rt_ T) = StStopped ->
  in_hand T = 0%nat /\ waiting_ops (rt_ T) = 0%nat /\ g (state_of T) = Z.of_nat (length fs) - Z.of_nat (queued_in T).
Proof.
  intros Hrs Hat Hst. destruct (stopped_waits _ _ fs T Hrs Hat Hst) as [Hh H0].
  destruct (serving_total g I fs T Hrs) as (Ht & _). lia.
Qed.

(** C28: Each job is done, and done once, if it spawns one task which uses no
    deadline, spawns and posts nothing and does its counting in one go after its
    last operation, in executions whose turns start [armable].  Let [c l] be a
    counter of the jobs with label [l]: the task of a posted job [f] adds [n l f]
    to it.  Whatever the interleaving, no counter is ever ahead of what was
    posted, so no job ends twice; and whenever the inboxes are empty, no loop
    has a callable in hand and nothing is waited for, every counter is exactly
    what was posted, so no job is missing. *)
Theorem each_job_once {L} (c : L -> U -> Z) (n : L -> (nat -> callable U) -> Z) I fs T :
  tserving (fun f => forall l, 0 <= n l f /\ job_adds (c l) I (fun _ => n l f) f) (fun u => forall l, from_zero (c l) I u) fs T ->
  forall l, 0 <= c l (state_of T) <= zsum (n l <$> fs) /\
    (queued_in T = 0%nat -> in_hand T = 0%nat -> waiting_ops (rt_ T) = 0%nat -> c l (state_of T) = zsum (n l <$> fs)).
Proof.
  intros Hrs l. pose proof (tserving_nodes _ _ _ _ Hrs) as Hok.
  destruct (tserving_init _ _ _ _ _ _ Hrs) as (u & HF). destruct (HF l) as [_ Hu].
  set (B := mkBook (c l) I u false None).
  assert (HJ : forall f, 0 <= n l f -> job_adds (c l) I (fun _ => n l f) f -> counted_job B nw (n l f) f).
  { intros f H0 [Hnw Hf]. split_and!; [done|by split|]. intros i Hi. unfold share. cbn. rewrite Z.add_0_r. split; [by split|by apply Hf]. }
  assert (Ha : th_accounted nw B (zsum (n l <$> fs)) (Z.of_nat (length fs)) T).
  { replace (zsum (n l <$> fs)) with (lweight B (FnDispatch <$> fs)).
    - eapply (tserving_accounted nw timed B Hu); [| |exact Hrs|done].
      + intros f Hf. exists (n l f). destruct (Hf l). by apply HJ.
      + intros u' Hf. apply (Hf l).
    - apply tserving_all in Hrs. unfold lweight, zsum. induction Hrs as [|f fs' Hf _ IH]; cbn [fmap list_fmap foldr]; [done|].
      destruct (Hf l). rewrite (is_job_dispatch_weight B nw Hu (n l f) f) by (by apply HJ). by rewrite IH. }
  pose proof (th_bound nw B Hu T _ _ Ha) as Hle. unfold given in Hle. cbn in Hle.
  pose proof (ta_bumps _ _ _ _ _ Ha) as Hge. cbn in Hge. split; [lia|]. intros Hq Hh Hw.
  destruct (waits_zero nw timed B T _ _ Hok Ha Hq Hh Hw) as [E _]. unfold given in E. cbn in E. lia.
Qed.

Lemma shares_exact c I fs T :
  tserving (fun f => forall i, (i < nw)%nat -> job_adds (c i) I (fun j => if decide (j = i) then 1 else 0) f)
    (fun u => forall i, (i < nw)%nat -> from_zero (c i) I u) fs T ->
  Z.of_nat (length fs) < 2 ^ 64 ->
  forall i, (i < nw)%nat ->
    0 <= c i (state_of T) <= handed nw i (Z.to_nat (next_worker_ (rt_shared (rt_ T)))) /\
    0 <= next_worker_ (rt_shared (rt_ T)) <= Z.of_nat (length fs) /\
    (queued_in T = 0%nat -> in_hand T = 0%nat -> waiting_ops (rt_ T) = 0%nat ->
     c i (state_of T) = Z.of_nat (length fs / nw) + (if decide (i < length fs mod nw)%nat then 1 else 0)).
Proof.
  intros Hrs Hlt i Hi. pose proof (tserving_nodes _ _ _ _ Hrs) as Hok.
  destruct (tserving_init _ _ _ _ _ _ Hrs) as (u & HF). destruct (HF i Hi) as [_ Hu].
  set (B := mkBook (c i) I u false (Some i)).
  assert (HJ : forall f, job_adds (c i) I (fun j => if decide (j = i) then 1 else 0) f -> counted_job B nw 0 f).
  { intros f [Hnw Hf]. split_and!; [done|done|]. intros j Hj. unfold share. cbn. split; [by split; case_decide|by apply Hf]. }
  assert (Ha : th_accounted nw B 0 (Z.of_nat (length fs)) T).
  { replace 0 with (lweight B (FnDispatch <$> fs)).
    - eapply (tserving_accounted nw timed B Hu); [| |exact Hrs|done].
      + intros f Hf. exists 0. by apply HJ, Hf.
      + intros u' Hf. apply (Hf i Hi).
    - apply tserving_all in Hrs. unfold lweight. clear Hlt. induction Hrs as [|f fs' Hf _ IH]; cbn [fmap list_fmap foldr]; [done|].
      rewrite (is_job_dispatch_weight B nw Hu 0 f) by (by apply HJ, Hf). by rewrite IH. }
  pose proof (th_bound nw B Hu T _ _ Ha) as Hle. unfold given in Hle. cbn in Hle.
  pose proof (ta_bumps _ _ _ _ _ Ha) as Hge. cbn in Hge. split; [lia|].
  destruct (ta_dispatch _ _ _ _ _ Ha i eq_refl) as (H0 & Hs & _).
  assert (0 * Z.of_nat (size (boxes (rt_shared (rt_ T)))) <= weigh bdispatch (boxes (rt_shared (rt_ T))))
    by (apply weigh_bound; intros; unfold bdispatch; lia).
  assert (0 <= zsum ((fun c : pc U => Z.of_nat (ldispatch (held (position c)))) <$> pcs T))
    by (apply zsum_nonneg, Forall_fmap, Forall_true; intros; cbn; lia).
  split; [lia|]. intros Hq Hh Hw.
  destruct (waits_zero nw timed B T _ _ Hok Ha Hq Hh Hw) as [E Hn]. unfold given in E. cbn in E.
  rewrite (Hn i eq_refl), Nat2Z.id in E. by rewrite <- handed_share.
Qed.

(** C25: Every worker does exactly its share, for jobs that spawn one task each,
    which uses no deadline, spawns and posts nothing and, after its last
    operation, adds one to the counter of the worker it runs on and nothing to
    the others; turns start [armable], and fewer than 2^64 jobs are posted.  Let
    [c i] count the jobs that end on worker [i].  Whatever the interleaving,
    worker [i] has never ended more jobs than the dispatcher handed to it in
    turn; and whenever the inboxes are empty, no loop has a callable in hand and
    nothing is waited for, it has ended its exact share: the quotient of the
    jobs posted by the workers, and one more for the first workers when the
    division leaves a rest.  The shares differ by at most one. *)
Theorem worker_shares c I fs T :
  tserving (fun f => forall i, (i < nw)%nat -> job_adds (c i) I (fun j => if decide (j = i) then 1 else 0) f)
    (fun u => forall i, (i < nw)%nat -> from_zero (c i) I u) fs T ->
  Z.of_nat (length fs) < 2 ^ 64 ->
  forall i, (i < nw)%nat ->
    0 <= c i (state_of T) <= handed nw i (Z.to_nat (next_worker_ (rt_shared (rt_ T)))) /\
    0 <= next_worker_ (rt_shared (rt_ T)) <= Z.of_nat (length fs) /\
    (queued_in T = 0%nat -> in_hand T = 0%nat -> waiting_ops (rt_ T) = 0%nat ->
     c i (state_of T) = Z.of_nat (length fs / nw) + (if decide (i < length fs mod nw)%nat then 1 else 0)).
Proof. apply shares_exact. Qed.
End Theorems.
