(* ===== verification/Waits.v ===== *)
(** * Waits: a program that waits for its jobs, and stops

    The programs of tests2/multi_threaded.cpp and tests2/runtime_write.cpp
    post jobs, wait in a loop until a counter has reached the number of jobs or
    a deadline has passed, and then stop the schedulers.  This file has the
    waiting loop, and what it buys: once the counter has been seen at the
    number of jobs, nothing is left anywhere, it stays so, and stopping
    returns with every job done. *)
From stdpp Require Import prelude list gmap.
From Stdlib Require Import ZArith Lia.
From S2P Require Import Prelude ErrorCodes Ring Operations Awaitable Task Machine Kernel Scheduler Heap Safety EventLoop Follows Wakeup Interleave Process Chains Refine RefineLoop Execution Stepwise Shutdown Jobs Serving Inbox Runtime Threads Workload.

(** ** The waiting loop *)

Inductive wait_end : Type := Reached (turn : nat) | TimedOut (turn : nat).

Section Loop.
(** What turn [k] of the loop reads: the counter, and the clock. *)
Context (completed now : nat -> Z).

Definition late (deadline : option Z) (t : Z) : bool := match deadline with Some d => d <=? t | None => false end.

(** [while (completed.load() < target) { if (now() >= deadline) FAIL(...);
    sleep_for(...); }]; one of the loops has no deadline. *)
Fixpoint wait_for (fuel turn : nat) (target : Z) (deadline : option Z) : option wait_end :=
  if completed turn <? target then
    if late deadline (now turn) then Some (TimedOut turn)
    else match fuel with O => None | S fuel => wait_for fuel (S turn) target deadline end
  else Some (Reached turn).

(** What the loop found. *)
Definition found (target : Z) (deadline : option Z) (e : wait_end) : Prop :=
  match e with
  | Reached k => target <= completed k
  | TimedOut k => completed k < target /\ late deadline (now k) = true
  end.

Lemma wait_for_found target deadline fuel : forall k e,
  wait_for fuel k target deadline = Some e -> found target deadline e.
Proof.
  induction fuel as [|fuel IH]; intros k e; cbn; destruct (Z.ltb_spec (completed k) target); try (intros [= <-]; done).
  all: destruct (late deadline (now k)) eqn:El; try (intros [= <-]; done); try done. apply IH.
Qed.

(** Fuel until the deadline is enough. *)
Lemma wait_for_enough target d pause fuel : forall k,
  0 < pause -> (forall j, now j + pause <= now (S j)) -> d <= now k + Z.of_nat fuel * pause ->
  exists e, wait_for fuel k target (Some d) = Some e.
Proof.
  induction fuel as [|fuel IH]; intros k Hp Hnow Hd; cbn; (destruct (completed k <? target); [|by eexists]);
    (destruct (Z.leb_spec d (now k)); [by eexists|]); [lia|]. apply IH; [done|done|]. specialize (Hnow k). lia.
Qed.

(** The waiting loop ends.  With a deadline [timeout] after the moment it was
    computed, and [sleep_for] sleeping at least [pause], the loop is over after
    at most [timeout / pause + 1] turns, with the counter at its target or
    with the deadline passed; without a deadline it is over as soon as the
    counter has reached its target. *)
Theorem wait_ends target :
  (forall pause timeout start,
     0 < pause -> 0 <= timeout -> start <= now 0%nat -> (forall j, now j + pause <= now (S j)) ->
     exists e, wait_for (Z.to_nat (timeout / pause + 1)) 0 target (Some (start + timeout)) = Some e /\
       found target (Some (start + timeout)) e) /\
  (forall k, target <= completed k -> exists j, (j <= k)%nat /\ wait_for k 0 target None = Some (Reached j) /\ target <= completed j).
Proof.
  split.
  - intros pause timeout start Hp Ht Hs Hnow.
    destruct (wait_for_enough target (start + timeout) pause (Z.to_nat (timeout / pause + 1)) 0 Hp Hnow) as [e E].
    + pose proof (Z.div_pos timeout pause Ht Hp). pose proof (Z.mul_succ_div_gt timeout pause Hp). nia.
    + exists e. split; [done|]. by eapply wait_for_found.
  - intros k Hk. assert (Hg : forall fuel i, (i + fuel)%nat = k ->
      exists j, (j <= k)%nat /\ wait_for fuel i target None = Some (Reached j) /\ target <= completed j).
    { induction fuel as [|fuel IH]; intros i Hi; cbn; destruct (Z.ltb_spec (completed i) target);
        try (exists i; split_and!; [lia|done|done]).
      - assert (i = k) as -> by lia. lia.
      - apply IH. lia. }
    by apply Hg.
Qed.
End Loop.

(** ** What has been counted stays counted *)

Section Stays.
Context {U K : Type} `{HKS : KernelSpec K}.
Implicit Types (T : threads U K) (w : world U K) (Q : pool U).
Context (nw : nat) (timed : bool) (B : book U) (Hsample : keeps B (sample B)).
#[local] Abbreviation quietly := (rtc (tstep (U:=U) (K:=K) nw timed None)).

Lemma lweight_since c l : lweight (since B c) l = lweight B l.
Proof. unfold lweight. induction l as [|f l IH]; cbn; [done|]. by rewrite fweight_since, IH. Qed.

Lemma th_since c N P T :
  th_accounted nw B N P T -> c <= counter B (user (rt_shared (rt_ T))) -> th_accounted nw (since B c) (N - c) P T.
Proof.
  intros [(ws & Hlen & Hws & Htot) Hj Hh Hd Hb HI] Hc. split; try done; [| | |cbn; lia].
  - exists ws. split_and!; [done| |].
    + intros i w Hw. destruct (Hws i w Hw) as (Q & Hs & [Hcn Hn Hu] & Hi). exists Q. split_and!; [done| |].
      * split; [|done|done]. intros a k Ha. destruct (Hcn a k Ha) as (n & Hn' & Hk). exists n. split; [done|]. intros z. by apply (counts_since B c).
      * rewrite Hi. f_equal. apply weigh_ext. intros a k _. symmetry. apply pweight_since.
    + rewrite (weigh_ext (bweight (since B c)) (bweight B)) by (intros; apply lweight_since).
      rewrite (list_fmap_ext _ (fun x => lweight B (held (position x)))) by (intros; apply lweight_since).
      change (given (since B c) nw (rt_shared (rt_ T))) with (given B nw (rt_shared (rt_ T))). cbn [counter since]. lia.
  - intros d box Hd'. eapply Forall_impl; [by eapply Hj|]. apply is_job_since.
  - eapply Forall_impl; [exact Hh|]. intros x Hx. eapply Forall_impl; [exact Hx|]. apply is_job_since.
Qed.

Lemma quietly_accounted N P T T' :
  quietly T T' -> treach nw timed T -> th_accounted nw B N P T -> treach nw timed T' /\ th_accounted nw B N P T'.
Proof.
  induction 1 as [T|T T1 T2 Hs _ IH]; [done|]. intros Ht Ha.
  apply IH; [by eapply treach_step|]. eapply accounted_tstep; [done|by eapply th_nodes, treach_ok|done|done].
Qed.
End Stays.

(** ** Every finished task has been reaped *)

Section Reaped.
Context {U K : Type} `{HKS : KernelSpec K}.
Implicit Types (r : runtime U K) (T : threads U K) (w : world U K) (Q : pool U).
Context (nw : nat) (timed : bool).
#[local] Abbreviation known := (node_id nw).

(** Between two turns, no finished task is left. *)
Definition all_reaped T : Prop :=
  forall i w, node_world (rt_ T) i = Some w -> pcs T !! i = Some AtTop -> done_tasks ∅ (me w) = [].

Lemma reaped_put r Ps m m' i w w' :
  all_reaped (mkThreads r Ps m) -> node_world r i = Some w -> (done_tasks ∅ (me w) = [] -> done_tasks ∅ (me w') = []) ->
  all_reaped (mkThreads (put_world i w' r) Ps m').
Proof.
  intros Hr Hw Hd j v. cbn. erewrite node_world_put by done. case_decide as Hij; [subst j; intros [= <-] Hc; by eapply Hd, Hr|].
  intros (v0 & Hv0 & ->)%fmap_Some. by apply (Hr j v0).
Qed.

Lemma reaped_request r Ps m i p :
  all_reaped (mkThreads r Ps m) -> all_reaped (mkThreads (set_at p (request_stop i r)) Ps m).
Proof.
  intros Hr. unfold request_stop. destruct (node_world r i) as [w|] eqn:Hw; [|done].
  change (all_reaped (mkThreads (put_world i (snd (wake_on_stop w)) r) Ps m)). eapply reaped_put; [exact Hr|done|]. by rewrite wake_me.
Qed.

(** A turn ends with [reap]. *)
Lemma reaped_advance T T' i c w :
  tnodes_ok nw timed T -> (c = AtTop -> armable w) -> all_reaped T -> advance i T c w T' -> all_reaped T'.
Proof.
  intros Hok Ha Hr (c' & w' & Hc & Hw & E & ->) j v. cbn. erewrite node_world_put by done. case_decide as Hij.
  - subst j. intros [= <-]. rewrite list_lookup_insert_eq by (by eapply lookup_lt_Some). intros [= ->].
    destruct (node_freach nw timed _ _ _ _ Hok Hw Hc) as [_ Hf]. destruct (freach_refines known nw timed _ _ _ Hf) as (Q & _ & Hs).
    destruct (freach_inv known nw timed _ _ _ Hf) as [Hi _].
    destruct (loop_stepwise known nw timed c w Q Hi Ha Hs _ _ E) as (Q' & Hp & Hs'); [done|].
    inversion Hp; subst. pose proof (sp_done _ _ _ _ _ (proj2 Hs')) as Ed. apply length_zero_iff_nil. by rewrite <- Ed.
  - intros (v0 & Hv0 & ->)%fmap_Some. rewrite list_lookup_insert_ne by done. by apply (Hr j v0).
Qed.

Lemma reaped_tstep l T T' : tnodes_ok nw timed T -> all_reaped T -> tstep nw timed l T T' -> all_reaped T'.
Proof.
  intros Hok Hr Hs.
  destruct Hs as [r r' Ps n _ Hs|r Ps n _|T T' i b c w _ Hc Hadv|r Ps n i _ _
    |r Ps n i _ _|T T' i c w _ Hc Hadv|r Ps n i w _ _ _ _|r Ps n w box job Hw Hb Hg|r Ps n w box Hw Hb|r Ps n i w box k' io' z' Hw Hb He];
    try (by eapply reaped_put).
  - unfold start in Hs. case_decide; simplify_eq. done.
  - unfold stop_begin. case_decide; [|done]. by apply reaped_request.
  - eapply reaped_advance; [exact Hok| |done|exact Hadv]. intros E. by apply Hc.
  - done.
  - unfold joined. destruct (node_world r i) as [w|] eqn:Hw; [|done].
    change (all_reaped (mkThreads (put_world i (upd (set_shutting_down true) w) r) Ps n)). by eapply reaped_put.
  - eapply reaped_advance; [exact Hok| |done|exact Hadv]. intros E. by apply Hc.
  - unfold closed. case_decide; [by apply reaped_request|done].
Qed.

Lemma tserving_reaped J F fs T : tserving nw timed J F fs T -> all_reaped T.
Proof.
  induction 1 as [r (_ & _ & Hlen & _ & Hn) _ _ _|fs T T' Hrs IH Hs|fs T f T' Hrs IH _ Hs].
  - intros i w Hw _. cbn in Hw. pose proof (node_world_lt r i w Hw). destruct (Hn i) as (v & Hv & Hst & _); [lia|]. simplify_eq.
    destruct Hst as (id & io & efd & grow & box & Hc & _). unfold Scheduler_ctor in Hc. destruct (efd 0 EFD_FLAGS <? 0); [done|].
    by injection Hc as <- _.
  - eapply reaped_tstep; [by eapply tserving_nodes|done|done].
  - eapply reaped_tstep; [by eapply tserving_nodes|done|done].
Qed.
End Reaped.

(** ** Waiting for a runtime *)

Section WaitRuntime.
Context {U K : Type} `{HKS : KernelSpec K}.
Implicit Types (r : runtime U K) (T : threads U K) (w : world U K) (c : pc U).
Context (nw : nat) (timed : bool) (g : U -> Z) (I : U -> Prop).
#[local] Abbreviation known := (node_id nw).
#[local] Abbreviation counting := (tserving (U:=U) (K:=K) nw timed (job_adds nw g I (fun _ => 1)) (from_zero g I)).
#[local] Abbreviation quietly := (rtc (tstep (U:=U) (K:=K) nw timed None)).

(** Once seen at the number of jobs, the counter stays there, and nothing is
    left. *)
Lemma all_done fs T T' :
  counting fs T -> Z.of_nat (length fs) <= g (user (rt_shared (rt_ T))) -> quietly T T' ->
  g (user (rt_shared (rt_ T'))) = Z.of_nat (length fs) /\ queued (rt_shared (rt_ T')) = 0%nat /\ in_hand T' = 0%nat /\
  waiting_ops (rt_ T') = 0%nat.
Proof.
  intros Hrs Hle Hq. destruct (serving_counted nw timed g I fs T Hrs) as (u & Hu & Ha).
  destruct (serving_total nw timed g I fs T' (tserving_steps _ _ _ _ _ _ _ Hq Hrs)) as [Ht _].
  destruct (quietly_accounted nw timed (since (count_book g I u) (Z.of_nat (length fs))) Hu _ _ _ _ Hq
    (tserving_reach _ _ _ _ _ _ Hrs) (th_since nw _ _ _ _ _ Ha Hle)) as [_ Hs].
  pose proof (ta_bumps _ _ _ _ _ Hs) as Hb. cbn in Hb. lia.
Qed.

Lemma no_tasks_left fs T i w :
  counting fs T -> waiting_ops (rt_ T) = 0%nat -> node_world (rt_ T) i = Some w -> pcs T !! i = Some AtTop -> tasks_ (me w) = [].
Proof.
  intros Hrs H0 Hw Hc. pose proof (tserving_nodes _ _ _ _ _ _ Hrs) as Hok.
  destruct (node_freach nw timed _ _ _ _ Hok Hw Hc) as [_ Hf]. destruct (freach_refines known nw timed _ _ _ Hf) as (Q & _ & Hs).
  destruct (freach_inv known nw timed _ _ _ Hf) as [Hi _]. apply (finv_inv known nw timed) in Hi; [|done].
  apply (tasks_nil_iff known nw timed _ w Q (proj1 Hi) Hs). pose proof (waiting_at_least _ i w Hw). split.
  - apply map_size_empty_inv. rewrite (size_waiting known nw timed _ w Q (proj1 Hi) Hs). lia.
  - rewrite (sp_done _ _ _ _ _ (proj2 Hs)). by rewrite (tserving_reaped nw timed _ _ _ _ Hrs i w Hw Hc).
Qed.

(** *** A turn comes to its end *)

(** A loop that does not sleep takes its next step: no exception escapes from
    a job. *)
Lemma step_goes_on fs T i c w :
  counting fs T -> node_world (rt_ T) i = Some w -> pcs T !! i = Some c -> c <> AtTop ->
  (c = AtEnter -> awake w \/ shutting_down_ (me w) = true) ->
  exists c' w', loop_step c w = (Normal c', w') /\ (c' = AtTop \/ nearer c' c).
Proof.
  intros Hrs Hw Hc Hne Haw. pose proof (tserving_nodes _ _ _ _ _ _ Hrs) as Hok.
  destruct (node_freach nw timed _ _ _ _ Hok Hw Hc) as [_ Hf]. destruct (freach_inv known nw timed _ _ _ Hf) as [Hi Hn].
  pose proof (loop_step_safe known nw timed _ c w Hi Hn ltac:(done)) as Hsafe. unfold wp in Hsafe.
  destruct (loop_step c w) as [[c'|e|q] w'] eqn:E.
  - exists c', w'. split; [done|]. by eapply (loop_step_closer known nw timed).
  - destruct (serving_counted nw timed g I fs T Hrs) as (u & Hu & Ha). destruct (ta_total _ _ _ _ _ Ha) as (ws & _ & Hws & Htot).
    destruct (Hws i w Hw) as (Q & Hs & HQ & _).
    pose proof (node_accounted nw timed (count_book g I u) _ _ _ _ _ _ _ _ Hok Ha Hw Hc Hs HQ Htot) as HaQ.
    destruct (loop_stepwise known nw timed c w Q Hi ltac:(done) Hs _ _ E) as (Q' & Hp & _); [done|].
    by destruct (pstep_accounts (count_book g I u) nw _ Hu _ _ _ _ _ _ HaQ Hp).
  - destruct Hsafe as (_ & -> & Hsd). destruct (Haw eq_refl) as [Ha|Ha]; [|congruence].
    destruct (awake_enters known nw timed w Hi Ha) as [w1 E1]. congruence.
Qed.

(** A node asked to stop, or being shut down, gets to the top of its loop by
    its own steps. *)
Lemma turn_finishes fs i c : forall T,
  counting fs T -> (i <= nw)%nat -> pcs T !! i = Some c ->
  runners (rt_ T) !! i = Some (Live true) \/ at_ (rt_ T) = Closing i ->
  exists T', quietly T T' /\ pcs T' !! i = Some AtTop /\ at_ (rt_ T') = at_ (rt_ T) /\
    runners (rt_ T') = runners (rt_ T) /\ state_ (rt_ T') = state_ (rt_ T).
Proof.
  induction (nearer_wf (U:=U) c) as [c _ IH]. intros T Hrs Hi Hc Hwho.
  destruct (decide (is_top c = true)) as [Et|Et]; [destruct c; try done; by exists T|].
  assert (Hne : c <> AtTop) by (by intros ->). pose proof (treach_ok nw timed T (tserving_reach _ _ _ _ _ _ Hrs)) as Hok.
  destruct (node_exists nw (rt_ T) i (proj1 (th_nodes _ _ _ Hok)) Hi) as [w Hw].
  destruct (step_goes_on fs T i c w Hrs Hw Hc Hne) as (c' & w' & E & Hnear).
  { intros ->. destruct Hwho as [Hl|Hcl]; [left; by apply (th_roused _ _ _ Hok i Hi w)|right].
    destruct (proj2 (th_stop _ _ _ Hok) i Hcl) as (v & Hv & Hsd). by simplify_eq. }
  set (T1 := mkThreads (put_world i w' (rt_ T)) (<[i := c']> (pcs T)) (posting T)).
  assert (Hadv : advance i T c w T1) by (by exists c', w').
  assert (Hs : tstep nw timed None T T1) by (destruct Hwho; [by eapply ts_loop|by eapply ts_shutdown]).
  assert (Hc1 : pcs T1 !! i = Some c') by (apply list_lookup_insert_eq; by eapply lookup_lt_Some).
  destruct Hnear as [->|Hn]; [exists T1; split; [by apply rtc_once|done]|].
  destruct (IH c' Hn T1) as (T' & Hq & Hend); [by eapply tserving_step|done|done|done|]. exists T'. split; [by eapply rtc_l|done].
Qed.

(** *** [Runtime::stop] *)

(** A thread that was asked to stop is joined. *)
Lemma joining_joins fs T i :
  counting fs T -> at_ (rt_ T) = Joining i -> exists T', quietly T T' /\ at_ (rt_ T') = Closing i.
Proof.
  intros Hrs Hat. pose proof (treach_ok nw timed T (tserving_reach _ _ _ _ _ _ Hrs)) as Hok.
  destruct (th_control _ _ _ Hok) as (Hlr & Hc & Hra). unfold caller_ok in Hc. rewrite Hat in Hc. destruct Hc as [_ Hi].
  assert (H2 : exists T2, quietly T T2 /\ at_ (rt_ T2) = Joining i /\ runners (rt_ T2) !! i = Some Exited).
  { specialize (Hra i Hi). unfold runner_at in Hra. rewrite Hat, decide_False, decide_True in Hra by lia.
    destruct Hra as [Hl|He]; [|by exists T]. destruct (proj2 (proj2 (th_nodes _ _ _ Hok)) i Hi) as (_ & c & _ & Hc & _).
    destruct (turn_finishes fs i c T Hrs Hi Hc (or_introl Hl)) as ([r Ps m] & Hq & Ht & Ha & Hr & _). cbn in *.
    exists (mkThreads (set_runner i Exited r) Ps m). split_and!; [|cbn; congruence|].
    - eapply rtc_r; [exact Hq|]. apply ts_exit; congruence.
    - cbn. apply list_lookup_insert_eq. rewrite Hr. lia. }
  destruct H2 as ([r Ps m] & Hq & Ha & Hr). cbn in *. exists (mkThreads (joined i r) Ps m).
  split; [eapply rtc_r; [exact Hq|by apply ts_join]|]. pose proof (tserving_nodes _ _ _ _ _ _ (tserving_steps _ _ _ _ _ _ _ Hq Hrs)) as (Hl & _).
  destruct (node_exists nw r i Hl Hi) as [v Hv]. cbn. unfold joined. by rewrite Hv.
Qed.

(** From the [shutdown] of node [i] on. *)
Lemma closing_ends fs n : forall T i,
  counting fs T -> Z.of_nat (length fs) <= g (user (rt_shared (rt_ T))) -> at_ (rt_ T) = Closing i -> (nw - i <= n)%nat ->
  exists T', quietly T T' /\ at_ (rt_ T') = Outside /\ state_ (rt_ T') = StStopped.
Proof.
  induction n as [n IH] using lt_wf_ind. intros T i Hrs Hle Hat Hn.
  pose proof (treach_ok nw timed T (tserving_reach _ _ _ _ _ _ Hrs)) as Hok.
  destruct (th_control _ _ _ Hok) as (_ & Hc & _). unfold caller_ok in Hc. rewrite Hat in Hc. destruct Hc as [_ Hi].
  destruct (proj2 (proj2 (th_nodes _ _ _ Hok)) i Hi) as (_ & c & _ & Hc & _).
  destruct (turn_finishes fs i c T Hrs Hi Hc (or_intror Hat)) as ([r Ps m] & Hq & Ht & Ha & _). cbn in Ht, Ha.
  pose proof (tserving_steps _ _ _ _ _ _ _ Hq Hrs) as Hrs0. destruct (all_done fs T _ Hrs Hle Hq) as (_ & _ & _ & H0).
  pose proof (proj1 (tserving_nodes _ _ _ _ _ _ Hrs0)) as Hl. destruct (node_exists nw r i Hl Hi) as [w Hw].
  assert (H1 : tstep nw timed None (mkThreads r Ps m) (mkThreads (closed i r) Ps m)).
  { eapply ts_closed; [congruence|done|done|]. by apply (no_tasks_left fs (mkThreads r Ps m) i). }
  assert (Hq1 : quietly T (mkThreads (closed i r) Ps m)) by (by eapply rtc_r).
  destruct (decide (S i < length (nodes r))%nat) as [Hlt|Hge].
  2: { exists (mkThreads (closed i r) Ps m). split; [done|]. cbn. unfold closed. by rewrite decide_False. }
  destruct (joining_joins fs (mkThreads (closed i r) Ps m) (S i)) as (T2 & Hq2 & Hat2);
    [by eapply tserving_steps|cbn; unfold closed; by rewrite decide_True|].
  assert (Hq' : quietly T T2) by (by etrans). destruct (all_done fs T _ Hrs Hle Hq') as (Hg & _). cbn in Hl. rewrite Hl in Hlt.
  destruct (IH (n - 1)%nat ltac:(lia) T2 (S i)) as (T' & Hq3 & Hend); [by eapply tserving_steps|lia|done|lia|].
  exists T'. split; [by etrans|done].
Qed.

(** From wherever its caller is. *)
Lemma stop_ends fs T :
  counting fs T -> Z.of_nat (length fs) <= g (user (rt_shared (rt_ T))) -> state_ (rt_ T) = StRunning ->
  exists T', quietly T T' /\ at_ (rt_ T') = Outside /\ state_ (rt_ T') = StStopped.
Proof.
  intros Hrs Hle Hst.
  assert (Hj : forall T0 i, quietly T T0 -> at_ (rt_ T0) = Joining i ->
    exists T', quietly T T' /\ at_ (rt_ T') = Outside /\ state_ (rt_ T') = StStopped).
  { intros T0 i Hq0 Hat. destruct (joining_joins fs T0 i (tserving_steps _ _ _ _ _ _ _ Hq0 Hrs) Hat) as (T2 & Hq2 & Hat2).
    assert (Hq : quietly T T2) by (by etrans). destruct (all_done fs T T2 Hrs Hle Hq) as [Hg _].
    destruct (closing_ends fs nw T2 i) as (T' & Hq' & Hend); [by eapply tserving_steps|lia|done|lia|].
    exists T'. split; [by etrans|done]. }
  destruct (at_ (rt_ T)) as [|i|i] eqn:Hat.
  - destruct T as [r Ps m]. apply (Hj (mkThreads (stop_begin r) Ps m) 0%nat); [by apply rtc_once, ts_stop|].
    cbn in *. unfold stop_begin. by rewrite decide_True.
  - by apply (Hj T i).
  - by eapply closing_ends.
Qed.

(** C23: Waiting, then [stop].  The jobs [fs] have been posted, each spawning one
    task that uses no deadline, spawns and posts nothing and adds one to the
    counter after its last operation, and turns start [armable]; the waiting
    loop has seen the counter at their number, whatever the other threads were
    in the middle of at that moment.  Then, whatever happens next short of
    another post, the counter stays at exactly that number, no inbox holds a
    callable, none is in hand and no operation is waited for; and from every
    later state of the running runtime [Runtime::stop] can be run to its end by
    its own steps and those of the threads it asks to stop, which finish the
    turns they are in: it leaves the state Stopped. *)
Theorem waited_runtime_stops (trace : nat -> threads U K) now fuel deadline fs k :
  (forall j, counting fs (trace j)) ->
  wait_for (fun j => g (user (rt_shared (rt_ (trace j))))) now fuel 0 (Z.of_nat (length fs)) deadline = Some (Reached k) ->
  forall T, quietly (trace k) T ->
    (g (user (rt_shared (rt_ T))) = Z.of_nat (length fs) /\ queued (rt_shared (rt_ T)) = 0%nat /\ in_hand T = 0%nat /\
     waiting_ops (rt_ T) = 0%nat) /\
    (state_ (rt_ T) = StRunning -> exists T', quietly T T' /\ at_ (rt_ T') = Outside /\ state_ (rt_ T') = StStopped).
Proof.
  intros Htr Hw T Hq. apply wait_for_found in Hw. cbn in Hw. pose proof (all_done fs _ T (Htr k) Hw Hq) as Hd. split; [done|].
  apply (stop_ends fs); [by eapply tserving_steps|lia].
Qed.
End WaitRuntime.

(** ** Waiting for a scheduler *)

Section WaitScheduler.
Context {U K : Type} `{HKS : KernelSpec K}.
Implicit Types (w : world U K).
Context (known : nat -> Prop) (nw : nat) (timed : bool) (g : U -> Z) (I : U -> Prop).
#[local] Abbreviation serving := (serving (U:=U) (K:=K) known nw timed g I).

(** What happens while nobody posts; the number counts the threads between the
    push and the write of their [post]. *)
Definition at_work : Type := nat * pc U * world U K.
Definition idles (x y : at_work) : Prop := sstep x.1.1 x.1.2 x.2 y.1.1 y.1.2 y.2.

Lemma idles_served (g' : U -> Z) M x y :
  rtc idles x y -> served known nw timed g' I M x.1.1 x.1.2 x.2 -> served known nw timed g' I M y.1.1 y.1.2 y.2.
Proof. induction 1 as [|x y z Hs _ IH]; [done|]. intros Hx. apply IH. by eapply sstep_served. Qed.

Lemma idles_serving N x y : rtc idles x y -> serving N x.1.1 x.1.2 x.2 -> serving N y.1.1 y.1.2 y.2.
Proof. induction 1 as [|x y z Hs _ IH]; [done|]. intros Hx. apply IH. by eapply serving_step. Qed.

Lemma served_since M p c w :
  served known nw timed g I M p c w -> M <= g (user (sh w)) -> served known nw timed (fun u => g u - M) I 0 p c w.
Proof.
  intros Hv Hle. pose proof Hv as (Hr & u & Q & Hu & Hs & [Ha Hl] & Hlt). split; [done|]. exists u, Q. split_and!; [done|done| |].
  - pose proof (accounted_since (count_book g I u) nw M _ _ _ _ _ _ Ha) as Hx. rewrite Z.sub_diag in Hx.
    split; [|eapply Forall_impl; [exact Hl|]; apply (is_job_since (count_book g I u) nw M)].
    assert (E : lweight (count_book (fun u => g u - M) I u) (held (position c)) = lweight (count_book g I u) (held (position c)))
      by apply (lweight_since (count_book g I u) M).
    rewrite E. apply Hx. by rewrite (sf_shared _ _ (proj1 Hs)).
  - destruct (served_counts known nw timed g I M p c w Hv) as [Ht Hb]. lia.
Qed.

(** Waiting, then [shutdown].  [N] jobs have been posted to a scheduler, and
    the waiting loop has seen the counter at [N], wherever the loop thread was
    at that moment.  Whatever the loop thread, the stop callback and the kernel
    do before [shutdown] is called, the counter stays at exactly [N] and
    nothing is queued, in hand or waited for; and when the loop thread has left
    its turn, a kernel that answers eventually makes [shutdown] return, with
    the counter at [N] and no task, coroutine frame or awaitable left. *)
Theorem waited_scheduler_stops {HR : ResponsiveKernel K} (trace : nat -> at_work) now fuel deadline N k :
  (forall j, serving N (trace j).1.1 (trace j).1.2 (trace j).2) ->
  wait_for (fun j => g (user (sh (trace j).2))) now fuel 0 (Z.of_nat N) deadline = Some (Reached k) ->
  forall p c w, rtc idles (trace k) (p, c, w) ->
    (g (user (sh w)) = Z.of_nat N /\ queued (sh w) = 0%nat /\ held (position c) = [] /\ awts (me w) = ∅) /\
    (c = AtTop -> exists n w', (forall m, shutdown (n + m) w = (Normal tt, w')) /\ g (user (sh w')) = Z.of_nat N /\
      tasks_ (me w') = [] /\ frames (me w') = ∅ /\ awts (me w') = ∅).
Proof.
  intros Htr Hw p c w Hi. apply wait_for_found in Hw. cbn in Hw.
  pose proof (serving_served known nw timed g I N _ _ _ (Htr k)) as Hs.
  destruct (served_counts known nw timed g I _ p c w (idles_served g _ _ _ Hi Hs)) as [Ht Hb].
  destruct (served_counts known nw timed _ I _ p c w (idles_served _ _ _ _ Hi (served_since _ _ _ _ Hs Hw))) as [Ht' Hb'].
  assert (Hq : queued (sh w) = 0%nat) by lia.
  split_and!; [lia|done|apply nil_length_inv; lia|apply map_size_empty_inv; lia|]. intros ->.
  exact (serving_finishes known nw timed g I N p w (idles_serving N _ _ Hi (Htr k)) Hq).
Qed.
End WaitScheduler.
