(* ===== verification/Dispatch.v ===== *)
(** * Dispatch: building a runtime and handing jobs to its workers

    [Runtime::Runtime] produces the initial states of the transition system of
    Runtime; [Runtime::post] hands every job to exactly one worker, in turn. *)
From stdpp Require Import prelude list gmap.
From Stdlib Require Import ZArith Lia.
From S2P Require Import Prelude ErrorCodes Ring Operations Awaitable Task Machine Kernel Scheduler Heap Safety EventLoop Follows Wakeup Interleave Inbox Runtime Threads.

(** ** Construction *)

Section Construction.
Context {U K : Type} `{HK : Kernel K}.
Context (new_io : nat -> Z -> outcome exn (IO * K)) (new_eventfd : nat -> Z -> Z -> Z) (grow : nat -> bool).
#[local] Abbreviation make_node := (make_node (U:=U) new_io new_eventfd grow).
#[local] Abbreviation make_workers := (make_workers (U:=U) new_io new_eventfd grow).
#[local] Abbreviation Runtime_ctor := (Runtime_ctor (U:=U) new_io new_eventfd grow).

Lemma make_node_inv id entries s k box :
  make_node id entries = Normal (s, k, box) ->
  exists io, new_io id entries = Normal (io, k) /\ box = mkBox [] 0 /\ 0 <= new_eventfd id 0 EFD_FLAGS /\
    s = mkSched id io (new_eventfd id 0 EFD_FLAGS) false false [] ∅ 0 ∅ 0 false grow.
Proof.
  unfold Runtime.make_node, Scheduler_ctor. destruct (new_io id entries) as [[io k0]| |]; [|done|done].
  destruct (new_eventfd id 0 EFD_FLAGS <? 0) eqn:E; [done|]. intros [= <- <- <-]. exists io. apply Z.ltb_ge in E. done.
Qed.

Lemma make_workers_inv n : forall id l, make_workers n id = Normal l ->
  length l = n /\ forall i x, l !! i = Some x -> make_node (id + i) default_entries = Normal x.
Proof.
  induction n as [|n IH]; intros id l; cbn [Runtime.make_workers].
  { intros [= <-]. done. }
  destruct (make_node id default_entries) as [x| |] eqn:Hx; [|done|done].
  destruct (make_workers n (S id)) as [l'| |] eqn:Hl; [|done|done]. intros [= <-].
  destruct (IH (S id) l' Hl) as [Hlen Hi]. split; [cbn; lia|]. intros [|i] y; cbn.
  - intros [= <-]. by rewrite Nat.add_0_r.
  - rewrite <- Nat.add_succ_comm. apply Hi.
Qed.

Lemma mailboxes_lookup (l : list (sched U * K * mailbox U)) : forall id d,
  mailboxes id l !! d = (if decide (id <= d)%nat then snd <$> l !! (d - id)%nat else None).
Proof.
  induction l as [|[n box] l IH]; intros id d; cbn [mailboxes].
  { rewrite lookup_empty. by case_decide. }
  rewrite lookup_insert. case_decide as Hd.
  - subst d. rewrite decide_True by lia. by rewrite Nat.sub_diag.
  - rewrite IH. repeat case_decide; try lia; try done.
    replace (d - id)%nat with (S (d - S id)) by lia. done.
Qed.

Lemma Runtime_ctor_inv n entries u r :
  Runtime_ctor n entries u = Normal r ->
  exists d ws, make_node 0 entries = Normal d /\ make_workers n 1 = Normal ws /\
    r = mkRuntime StIdle (fst <$> (d :: ws)) (replicate (S n) NotJoinable)
          (mkShared (mailboxes 0 (d :: ws)) u 0 n) Outside.
Proof.
  unfold Runtime.Runtime_ctor. destruct (make_node 0 entries) as [d| |]; [|done|done].
  destruct (make_workers n 1) as [ws| |]; [|done|done]. intros [= <-]. eauto.
Qed.

(** Node [i] of a new runtime. *)
Lemma ctor_node n entries u r i :
  Runtime_ctor n entries u = Normal r -> (i <= n)%nat ->
  exists io k, new_io i (if decide (i = 0)%nat then entries else default_entries) = Normal (io, k) /\
    0 <= new_eventfd i 0 EFD_FLAGS /\ boxes (rt_shared r) !! i = Some (mkBox [] 0) /\
    nodes r !! i = Some (mkSched i io (new_eventfd i 0 EFD_FLAGS) false false [] ∅ 0 ∅ 0 false grow, k).
Proof.
  intros Hr Hi. apply Runtime_ctor_inv in Hr as (d & ws & Hd & Hws & ->). cbn [rt_shared boxes nodes].
  destruct (make_workers_inv n 1 ws Hws) as [Hlen Hw].
  rewrite mailboxes_lookup, (decide_True (P:=(0 <= i)%nat)) by lia.
  rewrite Nat.sub_0_r, list_lookup_fmap. destruct i as [|i].
  - destruct d as [[s k] box]. apply make_node_inv in Hd as (io & Hio & -> & He & ->). by exists io, k.
  - destruct (lookup_lt_is_Some_2 ws i) as [[[s k] box] Hx]; [lia|]. specialize (Hw i _ Hx).
    apply make_node_inv in Hw as (io & Hio & -> & He & ->). exists io, k.
    change ((d :: ws) !! S i) with (ws !! i). by rewrite Hx.
Qed.

(** Workers ignore the depth the runtime was asked for.  Every worker ring
    is requested with the default of 256 entries, whatever [entries] is; only
    the dispatcher's ring has the requested depth. *)
Theorem workers_ignore_entries n entries u r :
  Runtime_ctor n entries u = Normal r ->
  (exists io k, new_io 0 entries = Normal (io, k) /\ s_io <$> (fst <$> nodes r !! 0%nat) = Some io) /\
  (forall i, (i < n)%nat -> exists io k,
     new_io (S i) 256 = Normal (io, k) /\ s_io <$> (fst <$> nodes r !! S i) = Some io).
Proof.
  intros Hr. split.
  - destruct (ctor_node n entries u r 0 Hr ltac:(lia)) as (io & k & Hio & _ & _ & Hn).
    exists io, k. by rewrite Hn.
  - intros i Hi. destruct (ctor_node n entries u r (S i) Hr ltac:(lia)) as (io & k & Hio & _ & _ & Hn).
    exists io, k. by rewrite Hn.
Qed.

Definition fresh_rings : Prop := forall id e io k, new_io id e = Normal (io, k) ->
  wf_io io /\ sq_pending (sq io) = [] /\ cq_ready (cq io) = [] /\ k_inflight k = [].

Lemma ctor_fresh timed n entries u r :
  fresh_rings -> (forall m, grow m = true) ->
  Runtime_ctor n entries u = Normal r -> fresh_runtime n timed r.
Proof.
  intros Hnew Hgrow Hr. pose proof (Runtime_ctor_inv n entries u r Hr) as (d & ws & _ & Hws & Er).
  destruct (make_workers_inv n 1 ws Hws) as [Hlen _].
  assert (Hlen' : length (nodes r) = S n) by (rewrite Er; cbn; by rewrite length_fmap, Hlen).
  assert (Hsh : shared_ok (node_id n) n timed (rt_shared r)).
  { split.
    - intros j Hj. destruct (ctor_node n entries u r j Hr Hj) as (_ & _ & _ & _ & Hb & _). eauto.
    - intros j box Hb. assert (Hj : (j <= n)%nat).
      { rewrite Er in Hb. cbn [rt_shared boxes] in Hb. rewrite mailboxes_lookup, decide_True, Nat.sub_0_r in Hb by lia.
        destruct ((d :: ws) !! j) eqn:E; [|done]. apply lookup_lt_Some in E. cbn in E. lia. }
      destruct (ctor_node n entries u r j Hr Hj) as (_ & _ & _ & _ & Hb' & _). simplify_eq. cbn.
      unfold EFD_MAX, two64. split; [constructor|lia].
    - by rewrite Er.
    - by rewrite Er. }
  split_and!; [by rewrite Er|by rewrite Er|done|by rewrite Er|].
  intros i Hi. destruct (ctor_node n entries u r i Hr Hi) as (io & k & Hio & He & Hb & Hn).
  unfold node_world. rewrite Hn. cbn. eexists. split; [done|]. split; [|done].
  destruct (Hnew _ _ _ _ Hio) as (Hwf & Hsq & Hcq & Hk).
  exists i, io, (new_eventfd i), grow, (mkBox [] 0). unfold Scheduler_ctor. rewrite (proj2 (Z.ltb_ge _ _) He).
  by split_and!.
Qed.

(** C30: the constructor establishes the initial state of the runtime.  If the
    rings the kernel sets up are well formed and empty, the runtime is Idle,
    no thread exists, every scheduler is fresh on its own ring, its mailbox is
    empty, and the runtime, with every loop at its top, is a start of the executions
    of Threads. *)
Theorem Runtime_ctor_establishes timed n entries u r :
  fresh_rings -> (forall m, grow m = true) -> Runtime_ctor n entries u = Normal r ->
  treach n timed (mkThreads r (replicate (S n) AtTop) 0) /\ state_ r = StIdle /\ length (nodes r) = S n /\
  forall i, (i <= n)%nat -> runners r !! i = Some NotJoinable /\ boxes (rt_shared r) !! i = Some (mkBox [] 0).
Proof.
  intros Hnew Hgrow Hr. pose proof (ctor_fresh timed n entries u r Hnew Hgrow Hr) as Hf.
  split; [by apply treach_fresh|]. destruct Hf as (Hst & _ & Hlen & Hrun & _). split_and!; [done|done|].
  intros i Hi. rewrite Hrun. split; [apply lookup_replicate_2; lia|].
  by destruct (ctor_node n entries u r i Hr Hi) as (_ & _ & _ & _ & Hb & _).
Qed.
End Construction.

(** ** Round robin *)

Section RoundRobin.
Context {U K : Type}.
#[local] Abbreviation W := (world U K).

(** The jobs worker [i] gets when the counter starts at [c]. *)
Fixpoint assign (n : nat) (c : Z) (jobs : list (nat -> callable U)) (i : nat) : list (callable U) :=
  match jobs with
  | [] => []
  | job :: rest =>
      (if decide (Z.to_nat (c mod Z.of_nat n) = i) then [job i] else []) ++ assign n (u64 (c + 1)) rest i
  end.

(** [w'] is [w] after the jobs have been handed out. *)
Definition handed (jobs : list (nat -> callable U)) (w w' : W) : Prop :=
  me w' = me w /\ kern w' = kern w /\ user (sh w') = user (sh w) /\ workers (sh w') = workers (sh w) /\
  (forall d, (d = 0 \/ workers (sh w) < d)%nat -> boxes (sh w') !! d = boxes (sh w) !! d) /\
  forall i b, (i < workers (sh w))%nat -> boxes (sh w) !! S i = Some b ->
    let mine := assign (workers (sh w)) (next_worker_ (sh w)) jobs i in
    boxes (sh w') !! S i = Some (mkBox (inbox_ b ++ mine) (bump (length mine) (efd_counter b))).

(** The mailboxes of the workers exist. *)
Definition workers_ready (w : W) : Prop :=
  workers (sh w) <> 0%nat /\ 0 <= next_worker_ (sh w) /\
  forall i, (i < workers (sh w))%nat -> exists b, boxes (sh w) !! S i = Some b /\ efd_counter b <= EFD_MAX.

(** One turn of the dispatch closure: whether or not the eventfd write of the
    worker succeeds, the job is in its inbox. *)
Lemma dispatch_one job (w : W) :
  workers_ready w -> exists w', drain_one (FnDispatch job) w = (Normal tt, w') /\ handed [job] w w' /\
    next_worker_ (sh w') = u64 (next_worker_ (sh w) + 1) /\ workers_ready w'.
Proof.
  intros (Hn & Hc & Hw). set (n := workers (sh w)) in *. set (c := next_worker_ (sh w)) in *.
  set (idx := Z.to_nat (c mod Z.of_nat n)).
  assert (Hidx : (idx < n)%nat).
  { unfold idx. pose proof (Z.mod_pos_bound c (Z.of_nat n) ltac:(lia)). lia. }
  destruct (Hw idx Hidx) as (b & Hb & Hbc).
  set (w1 := mkWorld (me w) (with_next_worker (u64 (c + 1)) (sh w)) (kern w)).
  set (w2 := put_box (S idx) (mkBox (inbox_ b ++ [job idx]) (bump 1 (efd_counter b))) w1).
  assert (E : drain_one (FnDispatch job) w = (Normal tt, w2)).
  { assert (Ei : invoke (FnDispatch job) w = post (S idx) (job idx) w1).
    { cbn [invoke]. unfold mbind, exec_bind, gets, on_shared, modify. fold n c. fold w1.
      destruct n as [|m] eqn:Em; [done|]. unfold idx. done. }
    unfold drain_one, mbind, exec_bind, try. rewrite Ei, (post_eq (S idx) (job idx) w1 b Hb Hbc).
    by case_decide. }
  exists w2. split; [exact E|].
  assert (Hlk : forall d, boxes (sh w2) !! d =
    if decide (d = S idx) then Some (mkBox (inbox_ b ++ [job idx]) (bump 1 (efd_counter b))) else boxes (sh w) !! d).
  { intros d. cbn. rewrite lookup_insert. by repeat case_decide; subst. }
  split_and!; try done.
  - split_and!; try done.
    + intros d Hd. rewrite Hlk, decide_False by (fold n in Hd; lia). done.
    + fold n c. cbn [assign]. fold idx. intros i b' Hi Hb'. rewrite Hlk, app_nil_r. repeat case_decide; try lia; simplify_eq; try done.
      cbn. rewrite app_nil_r, bump_0; [by destruct b'|]. destruct (Hw i Hi) as (b1 & Hb1 & ?). by simplify_eq.
  - split_and!; [done| |].
    + cbn. unfold u64, two64. apply Z.mod_pos_bound. lia.
    + intros i Hi. rewrite Hlk. case_decide; [|by apply Hw]. eexists. split; [done|]. cbn. apply bump_le.
Qed.

Lemma handed_cons job jobs (w w1 w2 : W) :
  handed [job] w w1 -> next_worker_ (sh w1) = u64 (next_worker_ (sh w) + 1) ->
  handed jobs w1 w2 -> handed (job :: jobs) w w2.
Proof.
  intros (M1 & K1 & U1 & N1 & O1 & B1) Hc (M2 & K2 & U2 & N2 & O2 & B2). rewrite N1, Hc in *.
  split_and!; [congruence..| |].
  - intros d Hd. by rewrite O2, O1.
  - intros i b Hi Hb. specialize (B1 i b Hi Hb). cbn [assign] in B1 |- *. rewrite app_nil_r in B1.
    rewrite (B2 i _ Hi B1). cbn. by rewrite bump_bump, <- app_assoc, length_app.
Qed.

Lemma handed_nil (w : W) : workers_ready w -> handed [] w w.
Proof.
  intros (_ & _ & Hw). split_and!; try done. cbn. intros i b Hi Hb. rewrite app_nil_r, bump_0; [by destruct b|].
  destruct (Hw i Hi) as (b1 & Hb1 & ?). by simplify_eq.
Qed.

Lemma dispatch_all jobs : forall (w : W), workers_ready w ->
  exists w', drain_local (FnDispatch <$> jobs) w = (Normal tt, w') /\ handed jobs w w'.
Proof.
  induction jobs as [|job jobs IH]; intros w Hw; cbn [fmap list_fmap drain_local].
  { exists w. split; [done|by apply handed_nil]. }
  destruct (dispatch_one job w Hw) as (w1 & E1 & H1 & Hc & Hw1). destruct (IH w1 Hw1) as (w2 & E2 & H2).
  exists w2. unfold mbind, exec_bind. rewrite E1. split; [exact E2|by eapply handed_cons].
Qed.

(** C15: the dispatcher hands out every job exactly once, round robin, in
    posting order.  When it drains an inbox of jobs posted through
    [Runtime::post], worker [i] gets, appended to its inbox and in order,
    exactly the jobs whose turn it is, each applied to the worker's index; its
    eventfd is written once per job, and a job is delivered even when that
    write fails; nothing else changes. *)
Theorem dispatch_round_robin jobs (w : W) c :
  s_id (me w) = 0%nat -> boxes (sh w) !! 0%nat = Some (mkBox (FnDispatch <$> jobs) c) -> workers_ready w ->
  exists w', drain_inbox w = (Normal tt, w') /\ boxes (sh w') !! 0%nat = Some (mkBox [] c) /\
    me w' = me w /\ user (sh w') = user (sh w) /\
    forall i b, (i < workers (sh w))%nat -> boxes (sh w) !! S i = Some b ->
      let mine := assign (workers (sh w)) (next_worker_ (sh w)) jobs i in
      boxes (sh w') !! S i = Some (mkBox (inbox_ b ++ mine) (bump (length mine) (efd_counter b))).
Proof.
  intros Hid Hb Hw. unfold drain_inbox, mbind, exec_bind.
  rewrite (take_inbox_eq w (mkBox (FnDispatch <$> jobs) c)) by (by rewrite Hid). rewrite Hid. cbn [inbox_ efd_counter].
  set (w1 := mkWorld _ _ _).
  assert (Hlk : forall i, boxes (sh w1) !! S i = boxes (sh w) !! S i) by (intros i; cbn; by rewrite lookup_insert_ne).
  assert (Hw1 : workers_ready w1).
  { destruct Hw as (Hn & Hc & Hx). split_and!; [done|done|]. intros i Hi. rewrite Hlk. by apply Hx. }
  destruct (dispatch_all jobs w1 Hw1) as (w2 & E & (M2 & K2 & U2 & N2 & O2 & B2)). exists w2.
  split_and!; [exact E| |done|done|].
  - rewrite O2 by (by left). cbn. apply lookup_insert_eq.
  - intros i b Hi Hbi. apply (B2 i b Hi). by rewrite Hlk.
Qed.

(** *** Fairness *)

(** Worker [i]'s share of [k] turns, in closed form. *)
Lemma share_step n x i :
  0 < n -> 0 <= i < n -> 0 <= x ->
  (x + 1 + (n - 1 - i)) / n = (x + (n - 1 - i)) / n + (if decide (x mod n = i) then 1 else 0).
Proof.
  intros Hn Hi Hx. pose proof (Z.div_mod x n ltac:(lia)) as Hq. pose proof (Z.mod_pos_bound x n Hn) as Hm.
  set (q := x / n) in *. set (m := x mod n) in *.
  assert (E1 : (x + 1 + (n - 1 - i)) / n = if decide (i <= m) then q + 1 else q).
  { case_decide; symmetry; [apply (Z.div_unique_pos _ _ _ (m - i))|apply (Z.div_unique_pos _ _ _ (m - i + n))]; lia. }
  assert (E2 : (x + (n - 1 - i)) / n = if decide (i < m) then q + 1 else q).
  { clear E1. case_decide; symmetry; [apply (Z.div_unique_pos _ _ _ (m - 1 - i))|apply (Z.div_unique_pos _ _ _ (m - 1 - i + n))]; lia. }
  rewrite E1, E2. repeat case_decide; lia.
Qed.

Lemma assign_length n jobs i : (0 < n)%nat -> (i < n)%nat -> forall c,
  0 <= c -> c + Z.of_nat (length jobs) < two64 ->
  Z.of_nat (length (assign n c jobs i)) =
    (c + Z.of_nat (length jobs) + (Z.of_nat n - 1 - Z.of_nat i)) / Z.of_nat n -
    (c + (Z.of_nat n - 1 - Z.of_nat i)) / Z.of_nat n.
Proof.
  intros Hn Hi. induction jobs as [|job jobs IH]; intros c Hc Hlt; cbn [assign length] in *.
  { rewrite Z.add_0_r. lia. }
  rewrite length_app, Nat2Z.inj_add, u64_id by word_lia. rewrite IH by lia.
  replace (c + 1 + Z.of_nat (length jobs)) with (c + Z.of_nat (S (length jobs))) by lia.
  rewrite (share_step (Z.of_nat n) c (Z.of_nat i)) by lia.
  pose proof (Z.mod_pos_bound c (Z.of_nat n) ltac:(lia)).
  repeat case_decide; try lia; cbn; lia.
Qed.

(** the hand-out is fair.  As long as the 64-bit counter does not wrap, the
    numbers of jobs any two workers get differ by at most one, and a batch of
    [q] jobs per worker gives every worker exactly [q]. *)
Theorem round_robin_fair n c (jobs : list (nat -> callable U)) i j :
  (i < n)%nat -> (j < n)%nat -> 0 <= c -> c + Z.of_nat (length jobs) < two64 ->
  (length (assign n c jobs i) <= S (length (assign n c jobs j)))%nat /\
  (forall q, length jobs = (q * n)%nat -> length (assign n c jobs i) = q).
Proof.
  intros Hi Hj Hc Hlt. pose proof (assign_length n jobs i ltac:(lia) Hi c Hc Hlt) as Ei.
  pose proof (assign_length n jobs j ltac:(lia) Hj c Hc Hlt) as Ej. set (k := Z.of_nat (length jobs)) in *.
  set (N := Z.of_nat n) in *. set (a := N - 1 - Z.of_nat i) in *. set (b := N - 1 - Z.of_nat j) in *. split.
  - assert (HN : 0 < N) by lia.
    pose proof (Z.div_mod (c + k + a) N ltac:(lia)). pose proof (Z.mod_pos_bound (c + k + a) N HN).
    pose proof (Z.div_mod (c + a) N ltac:(lia)). pose proof (Z.mod_pos_bound (c + a) N HN).
    pose proof (Z.div_mod (c + k + b) N ltac:(lia)). pose proof (Z.mod_pos_bound (c + k + b) N HN).
    pose proof (Z.div_mod (c + b) N ltac:(lia)). pose proof (Z.mod_pos_bound (c + b) N HN). nia.
  - intros q Hq. assert (k = Z.of_nat q * N) as Hk by (unfold k, N; lia).
    replace (c + k + a) with (c + a + Z.of_nat q * N) in Ei by lia.
    rewrite Z.div_add in Ei by lia. lia.
Qed.
End RoundRobin.

(** A runtime without workers cannot take a job.  The constructor accepts a
    worker count of 0; the first job the dispatcher runs then computes an
    index modulo zero. *)
Lemma dispatch_without_workers {U K} job (w : world U K) :
  workers (sh w) = 0%nat -> fst (invoke (FnDispatch job) w) = Stuck DivisionByZero.
Proof. intros Hw. cbn [invoke]. unfold mbind, exec_bind, gets, on_shared, modify. by rewrite Hw. Qed.

(** ** A concrete runtime

    One worker, rings of eight entries, a kernel that completes everything. *)
#[local] Existing Instance demo_kernel.
#[local] Existing Instance demo_kernel_spec.

Definition demo_io (id : nat) (entries : Z) : outcome exn (IO * list io_uring_sqe) :=
  if entries =? 0 then Throw (IOException IOInvalidEntries) else Normal (fresh_io (10 + Z.of_nat id) 3 0, []).
Definition demo_eventfd (id : nat) (initval flags : Z) : Z := 20 + Z.of_nat id.

Definition demo_node (id : nat) : sched nat * list io_uring_sqe :=
  (mkSched id (fresh_io (10 + Z.of_nat id) 3 0) (20 + Z.of_nat id) false false [] ∅ 0 ∅ 0 false (fun _ => true), []).

Definition demo_runtime : runtime nat (list io_uring_sqe) :=
  mkRuntime StIdle [demo_node 0; demo_node 1] [NotJoinable; NotJoinable]
    (mkShared (<[0%nat := mkBox [] 0]> (<[1%nat := mkBox [] 0]> ∅)) 0%nat 0 1) Outside.

Lemma demo_runtime_built : Runtime_ctor demo_io demo_eventfd (fun _ => true) 1 64 0%nat = Normal demo_runtime.
Proof. reflexivity. Qed.

Lemma demo_io_fresh id e io k :
  demo_io id e = Normal (io, k) ->
  wf_io io /\ sq_pending (sq io) = [] /\ cq_ready (cq io) = [] /\ k_inflight k = [].
Proof.
  unfold demo_io. destruct (e =? 0); [done|]. intros [= <- <-]. split_and!; [|reflexivity..].
  apply fresh_io_wf; [lia|done].
Qed.

Lemma workers_ignore_entries_witness :
  exists io k, demo_io 1 256 = Normal (io, k) /\ s_io <$> (fst <$> nodes demo_runtime !! 1%nat) = Some io.
Proof.
  apply (workers_ignore_entries demo_io demo_eventfd (fun _ => true) 1 64 0%nat demo_runtime demo_runtime_built). lia.
Defined.

Lemma Runtime_ctor_establishes_witness : treach 1 false (mkThreads demo_runtime [AtTop; AtTop] 0) /\ state_ demo_runtime = StIdle.
Proof.
  destruct (Runtime_ctor_establishes demo_io demo_eventfd (fun _ => true) false 1 64 0%nat demo_runtime demo_io_fresh)
    as (Hr & Hs & _); [done|reflexivity|]. by split.
Defined.

Lemma demo_runtime_fresh : fresh_runtime 1 false demo_runtime.
Proof. by apply (ctor_fresh demo_io demo_eventfd (fun _ => true) false 1 64 0%nat _ demo_io_fresh). Qed.

(** [start], a job is posted, [stop] before any thread turns its loop. *)
Definition demo_posting : nat -> callable nat := fun i => FnDo (fun u => (S (u + i), 0)) (fun _ => FnReturn).
Definition rt_started := snd (start demo_runtime).
Definition rt_posted := snd (Runtime_post demo_posting rt_started).
Definition rt_stopping := stop_begin rt_posted.
Definition rt_exited0 := set_runner 0 Exited rt_stopping.
Definition rt_closing0 := joined 0 rt_exited0.
Definition rt_joining1 := closed 0 rt_closing0.
Definition rt_exited1 := set_runner 1 Exited rt_joining1.
Definition rt_closing1 := joined 1 rt_exited1.
Definition rt_stopped := closed 1 rt_closing1.

(** Both loops between two turns. *)
Definition resting (r : runtime nat (list io_uring_sqe)) : threads nat (list io_uring_sqe) := mkThreads r [AtTop; AtTop] 0.

Lemma rt_posted_reach : treach 1 false (resting rt_posted).
Proof.
  assert (H0 : treach 1 false (resting rt_started)).
  { eapply (treach_step 1 false (resting demo_runtime)); [apply (treach_fresh 1 false), demo_runtime_fresh|by apply ts_start]. }
  assert (Hg : good_fn (node_id 1) 1 false (FnDispatch demo_posting)) by (cbn; split_and!; [done|unfold node_id; lia|done]).
  destruct (whole_post 1 false rt_started [AtTop; AtTop] 0 _ _ demo_posting eq_refl eq_refl eq_refl Hg) as (T & H1 & H2).
  eapply treach_step; [|exact H2]. by eapply treach_step; [|exact H1].
Qed.

Lemma rt_stopped_reach : treach 1 false (resting rt_stopped).
Proof.
  eapply (treach_step 1 false (resting rt_closing1)); [|eapply (ts_closed 1 false _ _ _ 1); reflexivity].
  eapply (treach_step 1 false (resting rt_exited1)); [|apply (ts_join 1 false _ _ _ 1); reflexivity].
  eapply (treach_step 1 false (resting rt_joining1)); [|apply (ts_exit 1 false _ _ _ 1); reflexivity].
  eapply (treach_step 1 false (resting rt_closing0)); [|eapply (ts_closed 1 false _ _ _ 0); reflexivity].
  eapply (treach_step 1 false (resting rt_exited0)); [|apply (ts_join 1 false _ _ _ 0); reflexivity].
  eapply (treach_step 1 false (resting rt_stopping)); [|apply (ts_exit 1 false _ _ _ 0); reflexivity].
  eapply (treach_step 1 false (resting rt_posted)); [apply rt_posted_reach|by apply ts_stop].
Qed.

(** C37: [stop] does not run posted work.  A job posted to a running runtime may
    still be in the dispatcher's inbox when [stop] has returned: [shutdown]
    loops only while there are tasks, so with none the inbox is never drained
    and the job is neither run nor reported. *)
Theorem stop_abandons_posted_work :
  treach 1 false (resting rt_stopped) /\ state_ rt_stopped = StStopped /\ at_ rt_stopped = Outside /\
  (exists c, boxes (rt_shared rt_stopped) !! 0%nat = Some (mkBox [FnDispatch demo_posting] c)) /\
  user (rt_shared rt_stopped) = 0%nat.
Proof. split; [apply rt_stopped_reach|]. split_and!; [reflexivity..|by eexists|reflexivity]. Qed.

(** ** The theorems of Threads and of this file at the concrete runtime *)

Lemma stop_leaves_nothing_witness :
  exists w, node_world rt_stopped 1 = Some w /\ tasks_ (me w) = [] /\ frames (me w) = ∅.
Proof.
  destruct (stop_leaves_nothing 1 false (resting rt_stopped) rt_stopped_reach) with (j := 1%nat) as (_ & _ & w & H1 & H2 & H3 & _);
    [reflexivity|reflexivity|lia|]. exists w. exact (conj H1 (conj H2 H3)).
Defined.

(** An idle worker of the restarted runtime, about to enter the kernel. *)
Definition rt_restarted := snd (start rt_stopped).
Definition rt_spinning :=
  match node_world rt_restarted 1 with Some w => put_world 1 (snd (loop_step AtTop w)) rt_restarted | None => rt_restarted end.

Lemma restarted_runtime_never_sleeps_witness :
  exists w, node_world rt_spinning 1 = Some w /\ forall q w', loop_step AtEnter w <> (Stuck q, w').
Proof.
  eexists. split; [vm_compute; reflexivity|].
  apply (restarted_runtime_never_sleeps 1 false (resting rt_stopped) (mkThreads rt_spinning [AtTop; AtEnter] 0) 1).
  - apply rt_stopped_reach.
  - reflexivity.
  - reflexivity.
  - eapply (rtc_l _ _ (resting rt_restarted)); [exists None; by apply ts_start|]. apply rtc_once. exists None.
    eapply (ts_loop 1 false _ _ 1 false AtTop); [reflexivity| |eexists _, _; split_and!; [reflexivity|vm_compute; reflexivity..]].
    intros _. split; [done|]. right. vm_compute. reflexivity.
  - vm_compute. reflexivity.
  - reflexivity.
  - done.
Defined.

Definition demo_dispatcher : world nat (list io_uring_sqe) :=
  mkWorld (fst (demo_node 0))
    (mkShared (<[0%nat := mkBox [FnDispatch demo_posting; FnDispatch demo_posting; FnDispatch demo_posting] 3]>
                 (<[1%nat := mkBox [] 0]> (<[2%nat := mkBox [FnReturn] 1]> ∅))) 0%nat 0 2) [].

Lemma dispatch_round_robin_witness :
  exists w', drain_inbox demo_dispatcher = (Normal tt, w') /\
    boxes (sh w') !! 1%nat = Some (mkBox [demo_posting 0; demo_posting 0] 2) /\
    boxes (sh w') !! 2%nat = Some (mkBox [FnReturn; demo_posting 1] 2).
Proof.
  destruct (dispatch_round_robin [demo_posting; demo_posting; demo_posting] demo_dispatcher 3)
    as (w' & E & _ & _ & _ & Hw).
  - reflexivity.
  - reflexivity.
  - split_and!; [done|done|]. intros [|[|i]] Hi; [| |cbn in Hi; lia].
    + exists (mkBox [] 0). split; [reflexivity|done].
    + exists (mkBox [FnReturn] 1). split; [reflexivity|done].
  - exists w'. split; [exact E|]. split.
    + apply (Hw 0%nat (mkBox [] 0)); [cbn; lia|reflexivity].
    + apply (Hw 1%nat (mkBox [FnReturn] 1)); [cbn; lia|reflexivity].
Defined.

Lemma round_robin_fair_witness :
  length (assign 2 5 [demo_posting; demo_posting; demo_posting; demo_posting] 1) = 2%nat.
Proof.
  apply (round_robin_fair 2 5 [demo_posting; demo_posting; demo_posting; demo_posting] 1 0); [lia|lia|lia| |reflexivity].
  vm_compute. reflexivity.
Defined.
