(* ===== verification/Scenarios.v ===== *)
(** * Scenarios: the repository's test programs, run in the model

    The sections of tests2/hangs/main.cpp, tests2/hangs/tasks.cpp,
    tests2/connect_poll.cpp and tests2/run_multiple_tasks.cpp that drive a
    scheduler or a task: the captured variables, the coroutines spawned, and
    the test's requirement on the variables afterwards.  Descriptors, paths and
    buffer addresses are arguments, the kernel's answers a parameter; file and
    buffer contents, which only the kernel writes, are not modelled.  The
    theorems say for which answers a section passes. *)
From stdpp Require Import prelude list gmap.
From Stdlib Require Import ZArith Lia.
From S2P Require Import Prelude ErrorCodes Ring Operations Awaitable Task Machine Kernel Scheduler Heap Safety EventLoop Follows Wakeup Inbox Runtime Dispatch.

(** The captured variables of a test, by position. *)
Definition vars : Type := list Z.
Definition store (i : nat) (v : Z) (u : vars) : vars * Z := (<[i := v]> u, v).

(** [x_i = co_await op;] and the rest of the body. *)
Definition await_into (i : nat) (op : operation) (rest : coro vars) : coro vars :=
  CoAwait op None (fun n => CoDo (store i n) (fun _ => rest)).

(** [x_i = co_await task;], letting an exception through. *)
Definition task_into (i : nat) (t : coro vars) (rest : coro vars) : coro vars :=
  CoAwaitTask t (fun r => match r with inl v => CoDo (store i v) (fun _ => rest) | inr e => CoThrow e end).

Definition co_return : coro vars := CoReturn 0.

(** A section: the variables before, what is spawned, what is required of the
    variables after [shutdown]. *)
Record scene : Type := mkScene { before : vars; spawned : list (coro vars); require : vars -> bool }.

(** The [i]-th variable. *)
Definition var (i : nat) (u : vars) : Z := default 0 (u !! i).

Section Drivers.
(** What the kernel answers to an entry. *)
Context (answer : io_uring_sqe -> option Z).
#[local] Instance answering : Kernel (list io_uring_sqe) := simple_kernel answer.
#[local] Abbreviation M := (exec (world vars (list io_uring_sqe)) exn).

(** [IO io{2^k}; Scheduler sched{io};] with the captured variables [u]. *)
Definition test_world (k : nat) (u : vars) : world vars (list io_uring_sqe) :=
  mkWorld (mkSched 0 (fresh_io 5 k 0) 6 false false [] ∅ 0 ∅ 0 false (fun _ => true))
    (mkShared {[ 0%nat := mkBox [] 0 ]} u 0 0) [].

(** [sched.spawn(c1()); sched.spawn(c2()); ...], each with its exception. *)
Fixpoint spawn_each (ts : list (coro vars)) : M (list (option exn)) :=
  match ts with
  | [] => mret []
  | t :: ts => e ← spawn_temporary t (fun h => run t h); es ← spawn_each ts; mret (e :: es)
  end.

(** Spawn, [sched.shutdown()], and look at the variables. *)
Definition spawn_and_shutdown (fuel : nat) (ts : list (coro vars)) : M (list (option exn) * vars) :=
  es ← spawn_each ts;
  shutdown fuel;;
  u ← gets (fun w => user (sh w));
  mret (es, u).

(** A section on a ring of 256 entries. *)
Definition verdict (fuel : nat) (s : scene) : M bool :=
  '(es, u) ← spawn_and_shutdown fuel (spawned s);
  mret (forallb (fun e : option exn => negb (has_value e)) es && require s u).

(** [{ Scheduler sched{io}; sched.spawn(t1); ... }]: the destructor runs. *)
Definition spawn_and_destroy (fuel : nat) (s : scene) : M bool :=
  es ← spawn_each (spawned s);
  Scheduler_dtor fuel;;
  u ← gets (fun w => user (sh w));
  mret (forallb (fun e : option exn => negb (has_value e)) es && require s u).

(** [auto t = coro(); t.resume();] and [t.done()], [t.result()]. *)
Definition drive (body : coro vars) : M (option bool * (Z + exn)) :=
  h ← new_task body;
  Task_resume (Some h);;
  d ← gets (fun w => Task_done (frames (me w)) (Some h));
  f ← get_frame h;
  mret (d, Task_result f).

(** [auto t1 = coro(); auto t2 = std::move(t1);] then [t1.done()],
    [t2.resume()] and [t2.result()]. *)
Definition drive_moved (body : coro vars) : M (option bool * (Z + exn)) :=
  h ← new_task body;
  let ts := Task_move_ctor 0 (mkTasks [Some h] [] (S h)) in
  let t1 := default None (Task.vars ts !! 0%nat) in
  let t2 := default None (Task.vars ts !! 1%nat) in
  d ← gets (fun w => Task_done (frames (me w)) t1);
  Task_resume t2;;
  f ← demand UseAfterFree (fun w => h ← t2; frames (me w) !! h);
  mret (d, Task_result f).

(** [done()] and [result()] without [resume()]. *)
Definition drive_unstarted (body : coro vars) : M (option bool * (Z + exn)) :=
  h ← new_task body;
  d ← gets (fun w => Task_done (frames (me w)) (Some h));
  f ← get_frame h;
  mret (d, Task_result f).

(** [source.request_stop(); sched.run(source.get_token());] *)
Definition run_stopped (fuel : nat) : M unit := run_loop fuel (fun _ => true) 0.
End Drivers.

(** ** tests2/hangs/main.cpp *)

Module Main.
(** Recv *)
Definition recv_hello (reader buf : Z) : scene :=
  mkScene [0] [await_into 0 (Recv_ctor reader buf 16 0) co_return] (fun u => var 0 u =? 5).
Definition recv_eof (reader buf : Z) : scene :=
  mkScene [-1] [await_into 0 (Recv_ctor reader buf 16 0) co_return] (fun u => var 0 u =? 0).
Definition recv_bad_fd (buf : Z) : scene :=
  mkScene [0] [await_into 0 (Recv_ctor (-1) buf 4 0) co_return] (fun u => var 0 u <? 0).
(** Send *)
Definition send_world (writer ptr : Z) : scene :=
  mkScene [0] [await_into 0 (Send_ctor writer ptr 5 0) co_return] (fun u => var 0 u =? 5).
Definition send_bad_fd (ptr : Z) : scene :=
  mkScene [0] [await_into 0 (Send_ctor (-1) ptr 1 0) co_return] (fun u => var 0 u <? 0).
(** Accept *)
Definition accept_client (listener : Z) : scene :=
  mkScene [-1] [await_into 0 (Accept_ctor listener) co_return] (fun u => 0 <=? var 0 u).
(** Close *)
Definition close_socket (fd : Z) : scene :=
  mkScene [-1] [await_into 0 (Close_ctor fd) co_return] (fun u => var 0 u =? 0).
Definition close_bad_fd : scene :=
  mkScene [0] [await_into 0 (Close_ctor (-1)) co_return] (fun u => var 0 u <? 0).
(** Read and Write *)
Definition write_then_read (fd wbuf rbuf : Z) : scene :=
  mkScene [0; 0]
    [await_into 0 (Write_ctor fd (mkView wbuf 2) 0) (await_into 1 (Read_ctor fd (mkView rbuf 4) 0) co_return)]
    (fun u => (var 0 u =? 8) && (var 1 u =? 8)).
Definition read_bad_fd (buf : Z) : scene :=
  mkScene [0] [await_into 0 (Read_ctor (-1) (mkView buf 1) 0) co_return] (fun u => var 0 u <? 0).
Definition write_bad_fd (buf : Z) : scene :=
  mkScene [0] [await_into 0 (Write_ctor (-1) (mkView buf 1) 0) co_return] (fun u => var 0 u <? 0).
(** Open *)
Definition open_file (path : view) : scene :=
  mkScene [-1] [await_into 0 (Open_ctor path 0 420 AT_FDCWD) co_return] (fun u => 0 <=? var 0 u).
Definition open_missing (path : view) : scene :=
  mkScene [0] [await_into 0 (Open_ctor path 0 420 AT_FDCWD) co_return] (fun u => var 0 u <? 0).
(** Stat; the operation is declared before the coroutine that awaits it. *)
Definition stat_file (path : view) : scene :=
  mkScene [-1] [await_into 0 (Stat_ctor path 0 STATX_BASIC_STATS AT_FDCWD) co_return] (fun u => var 0 u =? 0).
Definition stat_missing (path : view) : scene :=
  mkScene [0] [await_into 0 (Stat_ctor path 0 STATX_BASIC_STATS AT_FDCWD) co_return] (fun u => var 0 u <? 0).
(** Scheduler *)
Definition no_tasks : scene := mkScene [] [] (fun _ => true).
Definition pending_at_destruction (r addr_n : Z) : scene :=
  mkScene [0] [await_into 0 (Recv_ctor r addr_n 1 0) co_return] (fun u => negb (var 0 u =? 0)).
Definition two_tasks (r1 r2 buf1 buf2 : Z) : scene :=
  mkScene [0; 0] [await_into 0 (Recv_ctor r1 buf1 4 0) co_return; await_into 1 (Recv_ctor r2 buf2 4 0) co_return]
    (fun u => (var 0 u =? 1) && (var 1 u =? 1)).
Definition two_awaits (r buf1 buf2 : Z) : scene :=
  mkScene [0; 0] [await_into 0 (Recv_ctor r buf1 1 0) (await_into 1 (Recv_ctor r buf2 1 0) co_return)]
    (fun u => (var 0 u =? 1) && (var 1 u =? 1)).
Definition recv_exhausting (r buf1 buf2 : Z) : list (coro vars) :=
  [CoAwait (Recv_ctor r buf1 1 0) None (fun _ => co_return);
   CoAwait (Recv_ctor r buf2 4 0) None (fun _ => co_return)].
(** Task *)
Definition Task_int_value : coro vars := CoReturn 42.
Definition Task_int_exception (tag : Z) : coro vars := CoThrow (OtherException tag).
End Main.

(** ** tests2/run_multiple_tasks.cpp *)

Definition two_independent_recvs (r1 r2 buf1 buf2 : Z) : scene :=
  mkScene [0; 0] [await_into 0 (Recv_ctor r1 buf1 4 0) co_return; await_into 1 (Recv_ctor r2 buf2 4 0) co_return]
    (fun u => (var 0 u =? 1) && (var 1 u =? 1)).

(** ** tests2/connect_poll.cpp *)

Module ConnectPoll.
Definition POLLIN : Z := 1.
Definition POLLOUT : Z := 4.
Definition POLLHUP : Z := 16.
Definition AF_INET : Z := 2.

(** The bytes of a [sockaddr_in]: the port and the address in network order. *)
Definition sockaddr_in (port a b c d : Z) : list Z :=
  [AF_INET; 0; Z.shiftr port 8; Z.land port 255; a; b; c; d; 0; 0; 0; 0; 0; 0; 0; 0].

(** [x_i = co_await op], with a deadline of [ms] milliseconds if there is one. *)
Definition await_timed (i : nat) (op : operation) (timeout : option Z) : coro vars :=
  CoAwait op timeout (fun n => CoDo (store i n) (fun _ => co_return)).

(** [Connect{sched, fd, &addr, sizeof(addr)}]; the constructor copies the
    bytes, and a [sockaddr_in] fits. *)
Definition connect_to (i : nat) (fd : Z) (addr : list Z) (timeout : option Z) : list (coro vars) :=
  match Connect_ctor fd addr (length addr) with Some op => [await_timed i op timeout] | None => [] end.

Definition loopback (port : Z) : list Z := sockaddr_in port 127 0 0 1.
Definition test_net (port : Z) : list Z := sockaddr_in port 192 0 2 1.

Definition connect_listening (client_fd port : Z) : scene :=
  mkScene [-1] (connect_to 0 client_fd (loopback port) None) (fun u => var 0 u =? 0).
Definition connect_refused (client_fd : Z) : scene :=
  mkScene [0] (connect_to 0 client_fd (loopback 1) None) (fun u => var 0 u <? 0).
Definition connect_local_addr (client_fd port : Z) : scene :=
  mkScene [-1] (connect_to 0 client_fd (loopback port) None) (fun u => var 0 u =? 0).

Definition has_event (events : Z) (mask : Z) : bool := negb (Z.land events mask =? 0).

Definition poll_readable (reader : Z) : scene :=
  mkScene [-1] [await_timed 0 (Poll_ctor reader POLLIN) None] (fun u => has_event (var 0 u) POLLIN).
Definition poll_writable (a : Z) : scene :=
  mkScene [-1] [await_timed 0 (Poll_ctor a POLLOUT) None] (fun u => has_event (var 0 u) POLLOUT).
Definition poll_peer_close (reader : Z) : scene :=
  mkScene [-1] [await_timed 0 (Poll_ctor reader POLLIN) None]
    (fun u => has_event (var 0 u) POLLIN || has_event (var 0 u) POLLHUP).
Definition poll_bad_fd : scene :=
  mkScene [0] [await_timed 0 (Poll_ctor (-1) POLLIN) None] (fun u => var 0 u <? 0).
Definition poll_twice (r1 r2 : Z) : scene :=
  mkScene [-1; -1] [await_timed 0 (Poll_ctor r1 POLLIN) None; await_timed 1 (Poll_ctor r2 POLLIN) None]
    (fun u => has_event (var 0 u) POLLIN && has_event (var 1 u) POLLIN).

Definition timeout_not_fired (reader buf : Z) : scene :=
  mkScene [0] [await_timed 0 (Recv_ctor reader buf 16 0) (Some 500)] (fun u => var 0 u =? 5).
Definition poll_times_out (reader : Z) : scene :=
  mkScene [1] [await_timed 0 (Poll_ctor reader POLLIN) (Some 50)] (fun u => var 0 u <? 0).
Definition connect_times_out (client_fd : Z) : scene :=
  mkScene [1] (connect_to 0 client_fd (test_net 9) (Some 100)) (fun u => var 0 u <? 0).
Definition two_linked (r1 r2 buf1 : Z) : scene :=
  mkScene [0; 1]
    [await_timed 0 (Recv_ctor r1 buf1 4 0) (Some 500); await_timed 1 (Poll_ctor r2 POLLIN) (Some 50)]
    (fun u => (var 0 u =? 1) && (var 1 u <? 0)).
End ConnectPoll.

(** ** tests2/hangs/tasks.cpp *)

Module Tasks.
Definition nested_value : scene := mkScene [0] [task_into 0 (CoReturn 42) co_return] (fun u => var 0 u =? 42).
(** [inner_ran] and [outer_ran]. *)
Definition nested_void : scene :=
  mkScene [0; 0]
    [CoAwaitTask (CoDo (store 0 1) (fun _ => co_return)) (fun r =>
       match r with inl _ => CoDo (store 1 1) (fun _ => co_return) | inr e => CoThrow e end)]
    (fun u => (var 0 u =? 1) && (var 1 u =? 1)).
(** Variable 0 is [result], the rest is [order]. *)
Definition push_back (x : Z) (u : vars) : vars * Z := (u ++ [x], 0).
Definition nested_order : scene :=
  mkScene [0]
    [CoDo (push_back 0) (fun _ =>
     CoAwaitTask (CoDo (push_back 1) (fun _ => CoReturn 7)) (fun r =>
       match r with
       | inl v => CoDo (store 0 v) (fun _ => CoDo (push_back 2) (fun _ => co_return))
       | inr e => CoThrow e
       end))]
    (fun u => bool_decide (u = [7; 0; 1; 2])).
Definition nested_recv (reader buf : Z) : scene :=
  mkScene [0] [task_into 0 (CoAwait (Recv_ctor reader buf 16 0) None (fun n => CoReturn n)) co_return]
    (fun u => var 0 u =? 5).
Definition recv_one (reader out : Z) : coro vars := CoAwait (Recv_ctor reader out 1 0) None (fun n => CoReturn n).
(** The results required inside the coroutine are stored. *)
Definition nested_sequence (reader c1 c2 : Z) : scene :=
  mkScene [0; 0] [task_into 0 (recv_one reader c1) (task_into 1 (recv_one reader c2) co_return)]
    (fun u => (var 0 u =? 1) && (var 1 u =? 1)).
(** Variable 0 is [caught], variable 1 what the exception carries. *)
Definition catching (t : coro vars) : coro vars :=
  CoAwaitTask t (fun r => match r with
                          | inl _ => co_return
                          | inr (OtherException tag) => CoDo (store 0 1) (fun _ => CoDo (store 1 tag) (fun _ => co_return))
                          | inr e => CoThrow e
                          end).
Definition throwing (tag : Z) : coro vars := CoThrow (OtherException tag).
Definition exception_caught (tag : Z) : scene :=
  mkScene [0; 0] [catching (throwing tag)] (fun u => (var 0 u =? 1) && (var 1 u =? tag)).
Definition void_exception_caught (tag : Z) : scene :=
  mkScene [0; 0] [catching (throwing tag)] (fun u => var 0 u =? 1).
Definition awaiting (t : coro vars) : coro vars :=
  CoAwaitTask t (fun r => match r with inl v => CoReturn v | inr e => CoThrow e end).
Definition uncaught_exception (tag : Z) : coro vars := awaiting (throwing tag).
Definition plain_value : coro vars := CoReturn 99.
Definition plain_void : coro vars := CoDo (store 0 1) (fun _ => co_return).
Definition plain_recv (reader buf : Z) : scene :=
  mkScene [0] [await_into 0 (Recv_ctor reader buf 4 0) co_return] (fun u => var 0 u =? 1).
Definition three_levels : scene :=
  mkScene [0]
    [task_into 0 (CoAwaitTask (CoReturn 3) (fun r => match r with inl v => CoReturn (v + 1) | inr e => CoThrow e end)) co_return]
    (fun u => var 0 u =? 4).
(** [c]: the byte the kernel wrote to [&c]. *)
Definition three_levels_recv (reader addr_c c : Z) : scene :=
  mkScene [0]
    [task_into 0 (awaiting (CoAwait (Recv_ctor reader addr_c 1 0) None (fun n => CoReturn (if 0 <? n then c else -1)))) co_return]
    (fun u => var 0 u =? c).
Definition three_levels_exception (tag : Z) : scene :=
  mkScene [0; 0] [catching (awaiting (throwing tag))] (fun u => var 0 u =? 1).
End Tasks.

(** ** What the tests require *)

(** Everything has been given back: no task, no frame, no awaitable. *)
Definition clean {U K} (w : world U K) : Prop := tasks_ (me w) = [] /\ frames (me w) = ∅ /\ awts (me w) = ∅.

(** [shutdown] returns within [fuel] turns, no [spawn] throws, everything is
    given back, and the requirement evaluates to [b]. *)
Definition ends (answer : io_uring_sqe -> option Z) (fuel : nat) (s : scene) (b : bool) : Prop :=
  exists w', verdict answer fuel s (test_world 8 (before s)) = (Normal b, w') /\ clean w'.

Ltac run_test := eexists; (split; [vm_compute; reflexivity|]); unfold clean; split_and!; vm_compute; reflexivity.

(** The kernel answers [r] to everything. *)
Definition always (r : Z) (e : io_uring_sqe) : option Z := Some r.

(** [shutdown] returns within [fuel] turns, no [spawn] throws, everything is
    given back, the captured variables are [u] and the requirement evaluates to
    [b]. *)
Definition leaves (answer : io_uring_sqe -> option Z) (fuel : nat) (s : scene) (u : vars) (b : bool) : Prop :=
  exists w', verdict answer fuel s (test_world 8 (before s)) = (Normal b, w') /\ clean w' /\ user (sh w') = u.

(** The entry submitted for the [i]-th operation of a section, without and with
    a deadline. *)
Definition submitted (i : nat) (op : operation) : io_uring_sqe := primary_entry i (Awaitable_ctor op).
Definition submitted_timed (i : nat) (op : operation) (ms : Z) : io_uring_sqe :=
  primary_entry i (with_timeout ms (Awaitable_ctor op)).

(** [Connect] of the address [addr]. *)
Definition connect_op (fd : Z) (addr : list Z) : operation := default (Close_ctor 0) (Connect_ctor fd addr (length addr)).

Section Verdicts.
Import Main ConnectPoll Tasks.

(** C39: the operation tests see the answers to their own entries.  On the
    default ring, whatever the descriptors, buffers, paths and ports, and
    whatever a kernel that completes an entry in the call that submits it
    answers to each of them ([a], any function of the entry): [spawn] does not
    throw, [shutdown] returns and gives everything back, each captured variable
    holds the answer to the entry of the operation awaited into it, and the
    section passes exactly when those answers meet the stated conditions.  With
    several operations, in sequence or in several tasks, each variable has the
    answer to its own entry; and whatever is answered to the linked timeout
    entry of an operation with a deadline reaches no variable. *)
Theorem operation_tests_exact (a : io_uring_sqe -> Z) fd fd' b1 b2 path port :
  let k := fun e => Some (a e) in
  let x := fun i op => a (submitted i op) in
  let xt := fun i op ms => a (submitted_timed i op ms) in
  (let r := x 0%nat (Recv_ctor fd b1 16 0) in
   leaves k 2 (recv_hello fd b1) [r] (r =? 5) /\ leaves k 2 (recv_eof fd b1) [r] (r =? 0)) /\
  (let r := x 0%nat (Recv_ctor (-1) b1 4 0) in leaves k 2 (recv_bad_fd b1) [r] (r <? 0)) /\
  (let r := x 0%nat (Send_ctor fd b1 5 0) in leaves k 2 (send_world fd b1) [r] (r =? 5)) /\
  (let r := x 0%nat (Send_ctor (-1) b1 1 0) in leaves k 2 (send_bad_fd b1) [r] (r <? 0)) /\
  (let r := x 0%nat (Accept_ctor fd) in leaves k 2 (accept_client fd) [r] (0 <=? r)) /\
  (let r := x 0%nat (Close_ctor fd) in leaves k 2 (close_socket fd) [r] (r =? 0)) /\
  (let r := x 0%nat (Close_ctor (-1)) in leaves k 2 close_bad_fd [r] (r <? 0)) /\
  (let r := x 0%nat (Write_ctor fd (mkView b1 2) 0) in let r' := x 1%nat (Read_ctor fd (mkView b2 4) 0) in
   leaves k 3 (write_then_read fd b1 b2) [r; r'] ((r =? 8) && (r' =? 8))) /\
  (let r := x 0%nat (Read_ctor (-1) (mkView b1 1) 0) in leaves k 2 (read_bad_fd b1) [r] (r <? 0)) /\
  (let r := x 0%nat (Write_ctor (-1) (mkView b1 1) 0) in leaves k 2 (write_bad_fd b1) [r] (r <? 0)) /\
  (let r := x 0%nat (Open_ctor path 0 420 AT_FDCWD) in
   leaves k 2 (open_file path) [r] (0 <=? r) /\ leaves k 2 (open_missing path) [r] (r <? 0)) /\
  (let r := x 0%nat (Stat_ctor path 0 STATX_BASIC_STATS AT_FDCWD) in
   leaves k 2 (stat_file path) [r] (r =? 0) /\ leaves k 2 (stat_missing path) [r] (r <? 0)) /\
  leaves k 0 no_tasks [] true /\
  (let r := x 0%nat (Recv_ctor fd b1 4 0) in let r' := x 1%nat (Recv_ctor fd' b2 4 0) in
   leaves k 2 (two_tasks fd fd' b1 b2) [r; r'] ((r =? 1) && (r' =? 1)) /\
   leaves k 2 (two_independent_recvs fd fd' b1 b2) [r; r'] ((r =? 1) && (r' =? 1))) /\
  (let r := x 0%nat (Recv_ctor fd b1 1 0) in let r' := x 1%nat (Recv_ctor fd b2 1 0) in
   leaves k 3 (two_awaits fd b1 b2) [r; r'] ((r =? 1) && (r' =? 1))) /\
  (let r := x 0%nat (connect_op fd (loopback port)) in
   leaves k 2 (connect_listening fd port) [r] (r =? 0) /\ leaves k 2 (connect_local_addr fd port) [r] (r =? 0)) /\
  (let r := x 0%nat (connect_op fd (loopback 1)) in leaves k 2 (connect_refused fd) [r] (r <? 0)) /\
  (let r := x 0%nat (Poll_ctor fd POLLIN) in
   leaves k 2 (poll_readable fd) [r] (has_event r POLLIN) /\
   leaves k 2 (poll_peer_close fd) [r] (has_event r POLLIN || has_event r POLLHUP)) /\
  (let r := x 0%nat (Poll_ctor fd POLLOUT) in leaves k 2 (poll_writable fd) [r] (has_event r POLLOUT)) /\
  (let r := x 0%nat (Poll_ctor (-1) POLLIN) in leaves k 2 poll_bad_fd [r] (r <? 0)) /\
  (let r := x 0%nat (Poll_ctor fd POLLIN) in let r' := x 1%nat (Poll_ctor fd' POLLIN) in
   leaves k 2 (poll_twice fd fd') [r; r'] (has_event r POLLIN && has_event r' POLLIN)) /\
  (let r := xt 0%nat (Recv_ctor fd b1 16 0) 500 in leaves k 2 (timeout_not_fired fd b1) [r] (r =? 5)) /\
  (let r := xt 0%nat (Poll_ctor fd POLLIN) 50 in leaves k 2 (poll_times_out fd) [r] (r <? 0)) /\
  (let r := xt 0%nat (connect_op fd (test_net 9)) 100 in leaves k 2 (connect_times_out fd) [r] (r <? 0)) /\
  (let r := xt 0%nat (Recv_ctor fd b1 4 0) 500 in let r' := xt 1%nat (Poll_ctor fd' POLLIN) 50 in
   leaves k 2 (two_linked fd fd' b1) [r; r'] ((r =? 1) && (r' <? 0))).
Proof. cbn zeta. split_and!; run_test. Qed.

(** C40: a nested task gives its own result to the coroutine that awaits it.
    Two and three levels deep, for every answer of the kernel: the sections
    pass just when the innermost operation got the documented answer, those
    without operations always, and an exception of the innermost task reaches
    the outermost handler. *)
Theorem nested_tests_exact r tag reader buf c1 c2 c :
  ends (always r) 1 nested_value true /\ ends (always r) 1 nested_void true /\ ends (always r) 1 nested_order true /\
  ends (always r) 2 (nested_recv reader buf) (r =? 5) /\
  ends (always r) 3 (nested_sequence reader c1 c2) ((r =? 1) && (r =? 1)) /\
  ends (always r) 1 (exception_caught tag) (tag =? tag) /\ ends (always r) 1 (void_exception_caught tag) true /\
  ends (always r) 2 (plain_recv reader buf) (r =? 1) /\ ends (always r) 1 three_levels true /\
  ends (always r) 2 (three_levels_recv reader buf c) ((if 0 <? r then c else -1) =? c) /\
  ends (always r) 1 (three_levels_exception tag) true.
Proof. split_and!; run_test. Qed.

(** Driving a scheduler or a task by hand.  The destructor of a scheduler
    with a pending receive resumes it with the kernel's answer; [run] with a
    token that was already stopped returns without a turn; [resume] runs a task
    to the end, [done] is then true and [result] gives the value or rethrows,
    also through a nested task; before [resume] the task is not done and
    [result] is the default value; and a moved-from task is done. *)
Theorem driver_tests_pass r fd addr_n v tag fuel :
  (exists w', spawn_and_destroy (always r) 2 (pending_at_destruction fd addr_n) (test_world 8 [0]) =
     (Normal (negb (r =? 0)), w') /\ clean w') /\
  run_stopped (always r) fuel (test_world 8 []) = (Normal tt, test_world 8 []) /\
  fst (drive (CoReturn v) (test_world 8 [])) = Normal (Some true, inl v) /\
  fst (drive (Task_int_exception tag) (test_world 8 [])) = Normal (Some true, inr (OtherException tag)) /\
  fst (drive (uncaught_exception tag) (test_world 8 [])) = Normal (Some true, inr (OtherException tag)) /\
  fst (drive plain_value (test_world 8 [])) = Normal (Some true, inl 99) /\
  fst ((r ← drive plain_void; u ← gets (fun w => user (sh w)); mret (r, u)) (test_world 8 [0])) =
    Normal ((Some true, inl 0), [1]) /\
  (forall body, fst (drive_unstarted body (test_world 8 [])) = Normal (Some false, inl 0)) /\
  fst (drive_moved (CoReturn v) (test_world 8 [])) = Normal (Some true, inl v).
Proof. split_and!; [run_test|by destruct fuel|vm_compute; reflexivity..]. Qed.
End Verdicts.

(** A turn that changes nothing, repeated. *)
Lemma shutdown_loop_spins {U K} `{Kernel K} (w w1 : world U K) :
  drain w = (Normal tt, w1) -> reap w1 = (Normal tt, w) -> tasks_ (me w) <> [] ->
  forall fuel, fst (shutdown_loop fuel w) = Stuck OutOfFuel.
Proof.
  intros Hd Hr Ht fuel. induction fuel as [|n IH]; cbn [shutdown_loop]; unfold mbind, exec_bind, gets.
  all: destruct (tasks_ (me w)) as [|h ts] eqn:E; [done|].
  - done.
  - rewrite Hd, Hr. exact IH.
Qed.

Section Hang.
Context (answer : io_uring_sqe -> option Z) (r buf1 buf2 : Z).
#[local] Instance answering_hang : Kernel (list io_uring_sqe) := answering answer.

(** The single-entry ring after both spawns, with [shutting_down_] set, and
    after the first turn of the loop. *)
Definition exhausted : world vars (list io_uring_sqe) :=
  upd (set_shutting_down true) (snd (spawn_each (Main.recv_exhausting r buf1 buf2) (test_world 0 []))).
Definition lost : world vars (list io_uring_sqe) := snd (reap (snd (drain exhausted))).

(** C31: [shutdown] never returns once the ring was exhausted before the first
    turn.  On a ring of one entry the first [spawn] takes the only slot and
    the second one throws SQFull, as the test of SQ exhaustion requires; the
    first turn of [shutdown] then arms the eventfd read over the staged receive,
    which the kernel never sees.  Whatever the kernel would have answered, the
    task stays unfinished and the loop of [shutdown] runs for ever. *)
Theorem exhausted_ring_shutdown_hangs fuel :
  fst (spawn_each (Main.recv_exhausting r buf1 buf2) (test_world 0 [])) =
    Normal [None; Some (IOException SQFull)] /\
  fst (spawn_and_shutdown answer fuel (Main.recv_exhausting r buf1 buf2) (test_world 0 [])) = Stuck OutOfFuel.
Proof.
  assert (E : spawn_each (Main.recv_exhausting r buf1 buf2) (test_world 0 []) =
    (Normal [None; Some (IOException SQFull)], snd (spawn_each (Main.recv_exhausting r buf1 buf2) (test_world 0 []))))
    by (vm_compute; reflexivity).
  split; [by rewrite E|]. unfold spawn_and_shutdown, mbind, exec_bind. rewrite E. unfold shutdown, mbind, exec_bind.
  change (on_me (set_shutting_down true) _) with (Normal (E:=exn) tt, exhausted).
  assert (Hs : fst (shutdown_loop fuel exhausted) = Stuck OutOfFuel).
  { destruct fuel as [|n]; [vm_compute; reflexivity|]. cbn [shutdown_loop]. unfold mbind, exec_bind, gets.
    assert (Ht : tasks_ (me exhausted) = [0%nat]) by (vm_compute; reflexivity). rewrite Ht.
    assert (Ed : drain exhausted = (Normal tt, snd (drain exhausted))) by (vm_compute; reflexivity). rewrite Ed.
    assert (Er : reap (snd (drain exhausted)) = (Normal tt, lost)) by (vm_compute; reflexivity). rewrite Er.
    apply (shutdown_loop_spins lost lost); vm_compute; [reflexivity|reflexivity|done]. }
  unfold answering_hang in Hs. destruct (shutdown_loop fuel exhausted) as [o w2] eqn:EE. cbn in Hs. subst o.
  by rewrite EE.
Qed.
End Hang.
