(* ===== verification/TestLoops.v ===== *)
(** * TestLoops: the loops of the test programs

    The waiting loops of tests2/multi_threaded.cpp and tests2/runtime_write.cpp
    with their deadlines, and how tests2/runtime_write.cpp reads a file back and
    compares it with the data written.  The counters, the clock and read(2) are
    parameters. *)
From stdpp Require Import prelude list.
From Stdlib Require Import ZArith Lia.
From S2P Require Import Prelude Waits.

(** ** The waiting loops

    Times are in milliseconds; [start] is when the deadline is computed. *)

Section WaitLoops.
Context (completed now : nat -> Z) (start : Z) (fuel : nat).

Definition wait_reads (files : nat) : option wait_end :=
  wait_for completed now fuel 0 (Z.of_nat files) (Some (start + 10 * 1000)).
Definition wait_hammer (total_posts : nat) : option wait_end :=
  wait_for completed now fuel 0 (Z.of_nat total_posts) (Some (start + 10 * 1000)).
Definition wait_handoff (files : nat) : option wait_end :=
  wait_for completed now fuel 0 (Z.of_nat files) (Some (start + 10 * 1000)).
Definition wait_write : option wait_end :=
  wait_for completed now fuel 0 1 (Some (start + 5 * 1000)).
Definition wait_writes (num_workers : nat) : option wait_end :=
  wait_for completed now fuel 0 (Z.of_nat num_workers) (Some (start + 10 * 1000)).
(** The only one without a deadline. *)
Definition wait_sized (num_jobs : nat) : option wait_end :=
  wait_for completed now fuel 0 (Z.of_nat num_jobs) None.
End WaitLoops.

(** The waiting loops end in time.  They sleep for 10 ms a turn, so the loops
    of ten seconds are over after at most 1001 turns and the loop of five after
    501, with the jobs done or the deadline passed.  The loop without a
    deadline ends exactly if the counter reaches its target. *)
Theorem test_waits_end completed now start n :
  start <= now 0%nat -> (forall j, now j + 10 <= now (S j)) ->
  (exists e, wait_reads completed now start 1001 n = Some e) /\ (exists e, wait_hammer completed now start 1001 n = Some e) /\
  (exists e, wait_handoff completed now start 1001 n = Some e) /\ (exists e, wait_write completed now start 501 = Some e) /\
  (exists e, wait_writes completed now start 1001 n = Some e) /\
  ((exists fuel e, wait_sized completed now fuel n = Some e) <-> exists k, Z.of_nat n <= completed k).
Proof.
  intros Hs Hn. split_and!; try (eapply wait_for_enough with (pause := 10); [lia|done|lia]). split.
  - intros (fuel & e & E). pose proof (wait_for_found _ _ _ _ _ _ _ E) as Hf. destruct e as [k|k]; [by exists k|by destruct Hf].
  - intros [k Hk]. destruct (proj2 (wait_ends completed now (Z.of_nat n)) k Hk) as (j & _ & E & _). by exists k, (Reached j).
Qed.

Lemma test_waits_end_witness : exists e, wait_write (fun j => Z.of_nat (j / 7)) (fun j => 10 * Z.of_nat j) 0 501 = Some e.
Proof. apply (test_waits_end (fun j => Z.of_nat (j / 7)) (fun j => 10 * Z.of_nat j) 0 0); lia. Defined.

(** ** Reading a file back *)

(** The bytes of a vector of 32-bit words, as they lie in memory. *)
Definition bytes_of (words : list Z) : list Z :=
  words ≫= fun w => [w mod 256; w / 256 mod 256; w / 65536 mod 256; w / 16777216 mod 256].

Section ReadBack.
(** [read got want]: what read(2) stores when [got] bytes have been read before
    and [want] are asked for; [None] when it fails. *)
Context (read : nat -> nat -> option (list Z)).

(** [while (total_read < size) { n = ::read(fd, read_back.data() + total_read,
    size - total_read); if (n <= 0) break; total_read += n; }] *)
Fixpoint read_loop (fuel size total_read : nat) (buf : list Z) : option (nat * list Z) :=
  if decide (total_read < size)%nat then
    match fuel with
    | O => None
    | S fuel =>
        match read total_read (size - total_read) with
        | None | Some [] => Some (total_read, buf)
        | Some chunk =>
            read_loop fuel size (total_read + length chunk)
              (take total_read buf ++ chunk ++ drop (total_read + length chunk) buf)
        end
    end
  else Some (total_read, buf).

(** [CHECK(total_read == size); CHECK(memcmp(data, read_back, size) == 0)]. *)
Definition file_checks (words : list Z) : option bool :=
  let data := bytes_of words in
  let size := length data in
  '(total_read, buf) ← read_loop size size 0 (replicate size 0);
  Some (bool_decide (total_read = size) && bool_decide (buf = data)).

(** read(2) on a regular file: at most what was asked for, from where the last
    call stopped, and something unless the file is used up. *)
Definition delivers (file : list Z) : Prop :=
  forall got want, (0 < want)%nat -> exists chunk, read got want = Some chunk /\ (length chunk <= want)%nat /\
    (exists rest, drop got file = chunk ++ rest) /\ ((got < length file)%nat -> chunk <> []).

Lemma read_result (a b : nat) (l : list Z) n m :
  a = b -> n = m -> Some (a, l ++ replicate n 0) = Some (b, l ++ replicate m 0).
Proof. by intros -> ->. Qed.

Lemma read_loop_exact file size : delivers file -> forall fuel total,
  (size <= fuel + total)%nat -> (total <= size)%nat -> (total <= length file)%nat ->
  read_loop fuel size total (take total file ++ replicate (size - total) 0) =
    Some ((length file `min` size)%nat, take size file ++ replicate (size - length file) 0).
Proof.
  intros Hd. induction fuel as [|fuel IH]; intros total Hf Hs Hl; cbn [read_loop].
  - rewrite decide_False by lia. assert (total = size) as -> by lia. apply read_result; lia.
  - destruct (decide (total < size)%nat) as [Hlt|Hge]; [|assert (total = size) as -> by lia; apply read_result; lia].
    destruct (Hd total (size - total)%nat) as (chunk & -> & Hlen & (rest & Hrest) & Hsome); [lia|].
    assert (Hlr : (length file - total = length chunk + length rest)%nat) by (rewrite <- length_app, <- Hrest, length_drop; done).
    destruct chunk as [|c chunk].
    + assert (total = length file) as -> by (destruct (decide (total < length file)%nat) as [Hx|]; [by destruct (Hsome Hx)|lia]).
      rewrite !take_ge by lia. apply read_result; lia.
    + assert (Ht : length (take total file) = total) by (rewrite length_take; lia).
      rewrite <- (IH (total + length (c :: chunk))%nat) by (cbn in *; lia). f_equal.
      rewrite take_app_length' by done. rewrite drop_app_ge by lia. rewrite Ht, drop_replicate.
      rewrite <- (take_drop total (take (total + length (c :: chunk)) file)), take_take, skipn_firstn_comm, Hrest.
      replace (total `min` (total + length (c :: chunk)))%nat with total by lia.
      replace (total + length (c :: chunk) - total)%nat with (length (c :: chunk)) by lia.
      rewrite take_app_length, <- app_assoc. by rewrite Nat.sub_add_distr.
Qed.

(** The read-back check means what it says.  Whatever pieces read(2) delivers a
    file in, the loop ends, and the two checks pass exactly when the file
    begins with the data that was written. *)
Theorem file_checks_exact file words :
  delivers file -> file_checks words = Some (bool_decide (take (length (bytes_of words)) file = bytes_of words)).
Proof.
  intros Hd. unfold file_checks. set (data := bytes_of words). set (size := length data).
  pose proof (read_loop_exact file size Hd size 0 ltac:(lia) ltac:(lia) ltac:(lia)) as E.
  rewrite take_0, app_nil_l, Nat.sub_0_r in E. rewrite E. cbn. f_equal. destruct (decide (size <= length file)%nat) as [Hle|Hlt].
  - rewrite (bool_decide_eq_true_2 (_ = size)) by lia. cbn. replace (size - length file)%nat with 0%nat by lia. by rewrite app_nil_r.
  - rewrite (bool_decide_eq_false_2 (_ = size)) by lia. cbn. symmetry. apply bool_decide_eq_false_2. intros Ex.
    apply (f_equal length) in Ex. rewrite length_take in Ex. fold size in Ex. lia.
Qed.
End ReadBack.

(** A file of two words, read in pieces of at most three bytes. *)
Definition in_pieces (file : list Z) (got want : nat) : option (list Z) := Some (take (want `min` 3) (drop got file)).

Lemma in_pieces_delivers file : delivers (in_pieces file) file.
Proof.
  intros got want Hw. eexists. split_and!; [done|rewrite length_take; lia|eexists; by rewrite take_drop|].
  intros Hg E%(f_equal length). rewrite length_take, length_drop in E. cbn in E. lia.
Qed.

Lemma file_checks_exact_witness :
  file_checks (in_pieces (bytes_of [7; 300])) [7; 300] = Some true /\ file_checks (in_pieces (bytes_of [7; 301])) [7; 300] = Some false.
Proof.
  split; (etrans; [apply (file_checks_exact _ _ _ (in_pieces_delivers _))|vm_compute; reflexivity]).
Defined.
