(* ===== verification/FileTests.v ===== *)
(** * FileTests: the file readers and writers of the multi-threaded tests

    Models tests2/multi_threaded.cpp and tests2/runtime_write.cpp: how the
    files are found and dealt out to threads, the coroutines that read and
    write them, the callables that spawn those, and the checks at the end.  The
    directory and lstat(2) are parameters.  The executions of the
    tests are those of Serving and Workload; their theorems are applied to the
    coroutines here. *)
From stdpp Require Import prelude list gmap strings.
From Stdlib Require Import ZArith Lia.
From S2P Require Import Prelude ErrorCodes Ring Operations Awaitable Task Machine Kernel Scheduler Heap Safety EventLoop Follows Wakeup Interleave Process Chains Refine RefineLoop Execution Stepwise Shutdown Jobs Serving Inbox Runtime Threads Workload Waits Dispatch.

(** ** Finding the files *)

Section Listing.
(** The mode lstat(2) reports for a path, [None] when it fails. *)
Context (lstat : string -> option Z).

Definition S_IFMT : Z := 61440.
Definition S_IFREG : Z := 32768.
Definition S_ISREG (mode : Z) : bool := Z.land mode S_IFMT =? S_IFREG.

(** The [while (dirent* entry = readdir(dir))] loop. *)
Fixpoint list_loop (dir_path : string) (max_files : nat) (entries : list string) (files : list string) : list string :=
  match entries with
  | [] => files
  | name :: entries =>
      if decide (max_files <= length files)%nat then files
      else if decide (name = "." \/ name = "..") then list_loop dir_path max_files entries files
      else
        let full_path := (dir_path +:+ "/" +:+ name)%string in
        match lstat full_path with
        | None => list_loop dir_path max_files entries files
        | Some mode =>
            if negb (S_ISREG mode) then list_loop dir_path max_files entries files
            else list_loop dir_path max_files entries (files ++ [full_path])
        end
  end.

(** [dir]: the entries of the directory, [None] when [opendir] fails. *)
Definition list_etc_files (dir : option (list string)) (dir_path : string) (max_files : nat) : list string :=
  match dir with None => [] | Some entries => list_loop dir_path max_files entries [] end.

(** What is wanted: the regular files of the directory, in its order. *)
Definition is_regular (path : string) : bool :=
  match lstat path with Some mode => S_ISREG mode | None => false end.
Definition regular_files (dir_path : string) (entries : list string) : list string :=
  filter (fun path => is_regular path = true)
    ((fun name => dir_path +:+ "/" +:+ name)%string <$> filter (fun name => ~ (name = "." \/ name = "..")) entries).

Lemma list_loop_spec dir_path max entries : forall files,
  list_loop dir_path max entries files = files ++ take (max - length files) (regular_files dir_path entries).
Proof.
  induction entries as [|name entries IH]; intros files; cbn [list_loop]; unfold regular_files.
  { cbn. by rewrite take_nil, app_nil_r. }
  case_decide as Hmax.
  { replace (max - length files)%nat with 0%nat by lia. by rewrite take_0, app_nil_r. }
  rewrite filter_cons. case_decide as Hdots; [rewrite decide_False by tauto|rewrite decide_True by tauto]; [apply IH|].
  rewrite fmap_cons, filter_cons. destruct (lstat _) as [mode|] eqn:El; cbn.
  - destruct (S_ISREG mode) eqn:Em; cbn.
    + rewrite decide_True by (unfold is_regular; by rewrite El). rewrite IH, length_app. cbn.
      replace (max - length files)%nat with (S (max - (length files + 1))) by lia. by rewrite <- app_assoc.
    + rewrite decide_False by (unfold is_regular; rewrite El; congruence). apply IH.
  - rewrite decide_False by (unfold is_regular; rewrite El; congruence). apply IH.
Qed.

(** [list_etc_files] is the first [max_files] regular files of the directory,
    in directory order, without the entries for the directory itself and its
    parent and without what lstat fails on; a directory that cannot be opened
    has none. *)
Theorem list_etc_files_spec dir_path max_files entries :
  list_etc_files (Some entries) dir_path max_files = take max_files (regular_files dir_path entries) /\
  list_etc_files None dir_path max_files = [].
Proof. split; [|done]. unfold list_etc_files. by rewrite list_loop_spec, Nat.sub_0_r. Qed.
End Listing.

(** ** Dealing the files out *)

(** [for (size_t i = t; i < n; i += k)]: the indices thread [t] posts. *)
Fixpoint strided (fuel i k n : nat) : list nat :=
  match fuel with
  | O => []
  | S fuel => if decide (i < n)%nat then i :: strided fuel (i + k) k n else []
  end.

(** Every turn moves [i] on, so [n] turns are enough. *)
Definition thread_indices (k n t : nat) : list nat := strided n t k n.

Lemma strided_elem k n (Hk : (0 < k)%nat) : forall fuel i, (n <= i + fuel)%nat -> forall j,
  j ∈ strided fuel i k n <-> (j < n)%nat /\ exists q, j = (i + q * k)%nat.
Proof.
  induction fuel as [|fuel IH]; intros i Hf j; cbn [strided].
  { rewrite elem_of_nil. split; [done|]. intros [Hj [q ->]]. nia. }
  case_decide as Hi.
  - rewrite elem_of_cons, IH by lia. split.
    + intros [->|[Hj [q ->]]]; [split; [done|]; exists 0%nat; lia|split; [done|exists (S q); lia]].
    + intros [Hj [[|q] ->]]; [left; lia|right; split; [done|exists q; lia]].
  - rewrite elem_of_nil. split; [done|]. intros [Hj [q ->]]. nia.
Qed.

Lemma strided_NoDup k n (Hk : (0 < k)%nat) fuel : forall i, (n <= i + fuel)%nat -> NoDup (strided fuel i k n).
Proof.
  induction fuel as [|fuel IH]; intros i Hf; cbn [strided]; [constructor|].
  case_decide as Hi; [|constructor]. constructor; [|apply IH; lia].
  rewrite strided_elem by lia. intros [_ [q Hq]]. lia.
Qed.

(** The threads post every file exactly once between them.  With [k] threads
    that start at their own number and step by [k], the indices posted are a
    permutation of [0 .. n-1], for every number of files. *)
Theorem threads_partition_files k n :
  (0 < k)%nat -> (seq 0 k ≫= thread_indices k n) ≡ₚ seq 0 n.
Proof.
  intros Hk. apply NoDup_Permutation.
  - apply NoDup_bind; [| |apply NoDup_seq].
    + intros t1 t2 j Ht1 Ht2. unfold thread_indices. rewrite !strided_elem by lia.
      intros [_ [q1 ->]] [_ [q2 Hq]]. apply elem_of_seq in Ht1, Ht2.
      rewrite <- (Nat.mod_small t1 k), <- (Nat.Div0.mod_add t1 q1 k), Hq, Nat.Div0.mod_add by lia. apply Nat.mod_small. lia.
    + intros t _. apply strided_NoDup; lia.
  - apply NoDup_seq.
  - intros j. rewrite list_elem_of_bind, elem_of_seq. split.
    + intros (t & Hj & _). unfold thread_indices in Hj. apply strided_elem in Hj as [Hj _]; lia.
    + intros Hj. exists (j mod k)%nat. split; [|apply elem_of_seq; pose proof (Nat.mod_upper_bound j k); lia].
      apply strided_elem; [lia|lia|]. split; [lia|]. exists (j / k)%nat. pose proof (Nat.div_mod j k). lia.
Qed.

Lemma threads_partition_files_witness : (seq 0 8 ≫= thread_indices 8 13) ≡ₚ seq 0 13.
Proof. apply threads_partition_files. lia. Defined.

(** [files[(t + i) % files.size()]] for [i < posts]: the indices of the stress
    test. *)
Definition hammer_indices (posts n t : nat) : list nat := (fun i => ((t + i) mod n)%nat) <$> seq 0 posts.

(** ** Reading *)

Definition O_RDONLY : Z := 0.
Definition default_mode : Z := 420.

Module Reads.
Record ReadStats : Type := mkReadStats { attempted : Z; succeeded : Z; completed : Z }.

(** [stats.succeeded.fetch_add(1)] and [stats.completed.fetch_add(1)]. *)
Definition add_succeeded (s : ReadStats) : ReadStats * Z :=
  (mkReadStats (attempted s) (succeeded s + 1) (completed s), succeeded s).
Definition add_completed (s : ReadStats) : ReadStats * Z :=
  (mkReadStats (attempted s) (succeeded s) (completed s + 1), completed s).

(** [buf]: the address of the vector of 1024 words. *)
Definition read_one_file (path : view) (buf : Z) : coro ReadStats :=
  let finish := CoDo add_completed (fun _ => CoReturn 0) in
  CoAwait (Open_ctor path O_RDONLY default_mode AT_FDCWD) None (fun fd =>
    if 0 <=? fd then
      CoAwait (Read_ctor fd (mkView buf (4096 / 4)) 0) None (fun n =>
        let close := CoAwait (Close_ctor fd) None (fun _ => finish) in
        if 0 <=? n then CoDo add_succeeded (fun _ => close) else close)
    else finish).

(** The callable a thread posts. *)
Definition read_job (path : view) (buf : Z) : callable ReadStats := job (read_one_file path buf).

Definition any (s : ReadStats) : Prop := True.

Lemma read_counts path buf : counts completed any 1 (denote (read_one_file path buf)).
Proof.
  assert (Hfin : counts completed any 1 (denote (CoDo add_completed (fun _ => CoReturn 0)))) by (right; by split; [intros u|]).
  cbn. split; [done|]. intros fd. destruct (0 <=? fd); [|exact Hfin]. cbn. split; [done|]. intros n.
  destruct (0 <=? n); cbn; [left; split; [intros u _; split; [done|cbn; lia]|intros _]|]; (split; [done|intros _; exact Hfin]).
Qed.

Lemma read_fit known nw timed path buf : fit known nw timed completed any (read_one_file path buf).
Proof.
  split_and!; [done| |apply read_counts]. cbn. split; [by left|]. intros fd. destruct (0 <=? fd); cbn; [|done].
  split; [by left|]. intros n. destruct (0 <=? n); cbn; [intros _|]; (split; [by left|done]).
Qed.

(** The checks at the end of the two tests. *)
Definition reads_checks (posts : nat) (s : ReadStats) : bool :=
  (completed s =? Z.of_nat posts) && (0 <? succeeded s).

(** The tests of concurrent reads pass when some file can be read.  [N] reads
    are posted and the waiting loop sees them completed.  Then [shutdown]
    returns, whatever happened before it was called, with nothing left, and the
    test's verdict is whether some read succeeded. *)
Theorem reads_test_passes {K} `{HKS : KernelSpec K} {HR : ResponsiveKernel K} known nw timed
    (trace : nat -> at_work (U:=ReadStats) (K:=K)) now fuel deadline N k :
  (forall j, serving known nw timed completed any N (trace j).1.1 (trace j).1.2 (trace j).2) ->
  wait_for (fun j => completed (user (sh (trace j).2))) now fuel 0 (Z.of_nat N) deadline = Some (Reached k) ->
  forall p w, rtc idles (trace k) (p, AtTop, w) ->
    exists n w', (forall m, shutdown (n + m) w = (Normal tt, w')) /\ tasks_ (me w') = [] /\ frames (me w') = ∅ /\
      reads_checks N (user (sh w')) = (0 <? succeeded (user (sh w'))).
Proof.
  intros Htr Hw p w Hi.
  destruct (waited_scheduler_stops known nw timed completed any trace now fuel deadline N k Htr Hw p AtTop w Hi)
    as (_ & Hsd). destruct (Hsd eq_refl) as (n & w' & Hn & Hc & Ht & Hf & _).
  exists n, w'. split_and!; [done|done|done|]. unfold reads_checks. by rewrite Hc, Z.eqb_refl.
Qed.
End Reads.

(** [PerWorkerStats] and the coroutine of the hand-off test: as above, with a
    pair of counters per worker. *)
Module Handoff.
Record PerWorkerStats : Type := mkPerWorkerStats { succeeded : list Z; completed : list Z }.

Definition PerWorkerStats_ctor (num_workers : nat) : PerWorkerStats :=
  mkPerWorkerStats (replicate num_workers 0) (replicate num_workers 0).

Definition add_worker_succeeded (i : nat) (s : PerWorkerStats) : PerWorkerStats * Z :=
  (mkPerWorkerStats (alter (fun n => n + 1) i (succeeded s)) (completed s), default 0 (succeeded s !! i)).
Definition add_worker_completed (i : nat) (s : PerWorkerStats) : PerWorkerStats * Z :=
  (mkPerWorkerStats (succeeded s) (alter (fun n => n + 1) i (completed s)), default 0 (completed s !! i)).

Definition read_one_file_on_worker (path : view) (buf : Z) (worker_idx : nat) : coro PerWorkerStats :=
  let finish := CoDo (add_worker_completed worker_idx) (fun _ => CoReturn 0) in
  CoAwait (Open_ctor path O_RDONLY default_mode AT_FDCWD) None (fun fd =>
    if 0 <=? fd then
      CoAwait (Read_ctor fd (mkView buf (4096 / 4)) 0) None (fun n =>
        let close := CoAwait (Close_ctor fd) None (fun _ => finish) in
        if 0 <=? n then CoDo (add_worker_succeeded worker_idx) (fun _ => close) else close)
    else finish).

(** What the dispatcher posts to worker [idx], and what a client posts to the
    dispatcher. *)
Definition worker_job (path : view) (buf : Z) (idx : nat) : callable PerWorkerStats :=
  job (read_one_file_on_worker path buf idx).
Definition client_job (path : view) (buf : Z) : callable PerWorkerStats := FnDispatch (worker_job path buf).

(** [total_completed]: the sum over the workers. *)
Definition total_completed (s : PerWorkerStats) : Z := foldr Z.add 0 (completed s).

Definition sized (num_workers : nat) (s : PerWorkerStats) : Prop := length (completed s) = num_workers.

Lemma total_alter i (l : list Z) : (i < length l)%nat -> foldr Z.add 0 (alter (fun n => n + 1) i l) = foldr Z.add 0 l + 1.
Proof.
  revert i. induction l as [|x l IH]; intros [|i] Hi; cbn in *; try lia. change (Z.add x (foldr Z.add 0 (alter (fun n => n + 1) i l)) = x + foldr Z.add 0 l + 1).
  rewrite IH by lia. lia.
Qed.

(** The counter of worker [i]. *)
Definition completed_on (i : nat) (s : PerWorkerStats) : Z := default 0 (completed s !! i).

Lemma completed_on_alter i j (l : list Z) : (j < length l)%nat ->
  default 0 (alter (fun n => n + 1) j l !! i) = default 0 (l !! i) + (if decide (j = i) then 1 else 0).
Proof.
  intros Hj. destruct (decide (j = i)) as [->|Hne].
  - rewrite list_lookup_alter_eq. by destruct (lookup_lt_is_Some_2 l i Hj) as [x ->].
  - rewrite list_lookup_alter_ne by done. lia.
Qed.

(** Reading on worker [j] adds to whatever adds when [j] completes a read. *)
Lemma worker_counts_by g nw n path buf j :
  (forall u, sized nw u -> g (fst (add_worker_completed j u)) = g u + n) ->
  (forall u, g (fst (add_worker_succeeded j u)) = g u) ->
  counts g (sized nw) n (denote (read_one_file_on_worker path buf j)).
Proof.
  intros Hc Hs. assert (Hfin : counts g (sized nw) n (denote (CoDo (add_worker_completed j) (fun _ => CoReturn 0)))).
  { right. split; [|done]. intros u Hu. split; [|by apply Hc]. unfold sized in *. cbn. by rewrite length_alter. }
  cbn. split; [done|]. intros fd. destruct (0 <=? fd); [|exact Hfin]. cbn. split; [done|]. intros m.
  destruct (0 <=? m); cbn; [left; split; [intros u Hu; split; [done|rewrite Hs; lia]|intros _]|]; (split; [done|intros _; exact Hfin]).
Qed.

Lemma worker_counts nw path buf j : (j < nw)%nat -> counts total_completed (sized nw) 1 (denote (read_one_file_on_worker path buf j)).
Proof.
  intros Hj. apply worker_counts_by; [|done]. unfold sized. intros u Hu. apply (total_alter j). lia.
Qed.

Lemma worker_job_counted nw path buf : (0 < nw)%nat -> job_adds nw total_completed (sized nw) (fun _ => 1) (worker_job path buf).
Proof. intros Hnw. split; [done|]. intros i Hi. eexists. split; [reflexivity|by apply worker_counts]. Qed.

Lemma worker_job_shared nw path buf i :
  (0 < nw)%nat -> job_adds nw (completed_on i) (sized nw) (fun j => if decide (j = i) then 1 else 0) (worker_job path buf).
Proof.
  intros Hnw. split; [done|]. intros j Hj. eexists. split; [reflexivity|]. apply worker_counts_by; [|done].
  unfold sized. intros u Hu. apply completed_on_alter. lia.
Qed.

Lemma worker_job_good known nw timed path buf j : good_fn known nw timed (worker_job path buf j).
Proof.
  cbn. split_and!; [done|by left| |by intros []]. intros fd. destruct (0 <=? fd); cbn; [|done].
  split; [by left|]. intros n. destruct (0 <=? n); cbn; [intros _|]; (split; [by left|done]).
Qed.

(** [total_succeeded], and the checks at the end of the test. *)
Definition total_succeeded (num_workers : nat) (s : PerWorkerStats) : Z :=
  foldr (fun i n => default 0 (succeeded s !! i) + n) 0 (seq 0 num_workers).
Definition handoff_checks (num_workers files : nat) (s : PerWorkerStats) : bool :=
  (total_completed s =? Z.of_nat files) && forallb (fun i => 0 <? completed_on i s) (seq 0 num_workers) &&
  (0 <? total_succeeded num_workers s).

Lemma ctor_counters nw : total_completed (PerWorkerStats_ctor nw) = 0 /\ sized nw (PerWorkerStats_ctor nw) /\
  forall i, completed_on i (PerWorkerStats_ctor nw) = 0.
Proof.
  split_and!; [|unfold sized; apply length_replicate|].
  - unfold total_completed. cbn. induction nw as [|nw IH]; cbn; [done|exact IH].
  - intros i. unfold completed_on. cbn. destruct (replicate nw 0 !! i) eqn:E; [|done]. by apply lookup_replicate in E as [-> _].
Qed.

(** C29: The hand-off test passes when some file can be read.  At least as many
    files as workers are posted through the dispatcher (the test's own
    dispatcher, workers and order of stopping are those of Runtime), and the
    waiting loop sees all of them completed.  Then, whatever happens next,
    every check about [completed] holds, every worker having done its share, so
    that the verdict is whether some read succeeded; and stopping the
    dispatcher and the workers comes to its end. *)
Theorem handoff_test_passes {K} `{HKS : KernelSpec K} nw timed (trace : nat -> threads PerWorkerStats K) now fuel deadline fs k :
  (0 < nw <= length fs)%nat -> Z.of_nat (length fs) < 2 ^ 64 ->
  (forall j, tserving nw timed (fun f => exists path buf, f = worker_job path buf) (fun u => u = PerWorkerStats_ctor nw) fs (trace j)) ->
  wait_for (fun j => total_completed (user (rt_shared (rt_ (trace j))))) now fuel 0 (Z.of_nat (length fs)) deadline = Some (Reached k) ->
  forall T, rtc (tstep nw timed None) (trace k) T ->
    handoff_checks nw (length fs) (user (rt_shared (rt_ T))) = (0 <? total_succeeded nw (user (rt_shared (rt_ T)))) /\
    (state_ (rt_ T) = StRunning -> exists T', rtc (tstep nw timed None) T T' /\ at_ (rt_ T') = Outside /\ state_ (rt_ T') = StStopped).
Proof.
  intros Hnw Hlt Htr Hw T Hq. apply wait_for_found in Hw. cbn in Hw. destruct (ctor_counters nw) as (Hz & Hsz & Hi).
  assert (Hc : forall T, tserving nw timed (fun f => exists path buf, f = worker_job path buf) (fun u => u = PerWorkerStats_ctor nw) fs T ->
    tserving nw timed (job_adds nw total_completed (sized nw) (fun _ => 1)) (from_zero total_completed (sized nw)) fs T).
  { intros T0. apply tserving_mono; [intros f (path & buf & ->); apply worker_job_counted; lia|by intros u ->]. }
  pose proof (tserving_steps _ _ _ _ _ _ _ Hq (Htr k)) as Hr.
  destruct (all_done nw timed total_completed (sized nw) fs (trace k) T (Hc _ (Htr k)) Hw Hq) as (Hg & Hqu & Hh & Hwt).
  split; [|intros Hst; apply (stop_ends nw timed total_completed (sized nw) fs); [by apply Hc|lia|done]].
  unfold handoff_checks. rewrite Hg, Z.eqb_refl. cbn.
  assert (Hall : forallb (fun i => 0 <? completed_on i (user (rt_shared (rt_ T)))) (seq 0 nw) = true); [|by rewrite Hall].
  apply forallb_forall. intros i Hi2%in_seq. apply Z.ltb_lt.
  destruct (shares_exact nw timed completed_on (sized nw) fs T) with (i := i) as (_ & _ & Hsh); [|done|lia|].
  - eapply tserving_mono; [| |exact Hr]; cbn beta.
    + intros f (path & buf & ->) j Hj. apply worker_job_shared. lia.
    + intros u -> j Hj. by split.
  - rewrite Hsh by done. pose proof (Nat.div_str_pos (length fs) nw Hnw). case_decide; lia.
Qed.
End Handoff.

(** ** Writing *)

Definition O_WRONLY : Z := 1.
Definition O_CREAT : Z := 64.
Definition O_TRUNC : Z := 512.

Module Writes.
(** [order_counter], [completion_order] and [completed]. *)
Record stats : Type := mkStats { order_counter : Z; completion_order : list Z; completed : Z }.

Definition count_completed (s : stats) : stats * Z :=
  (mkStats (order_counter s) (completion_order s) (completed s + 1), completed s).
(** [completion_order[job_idx] = order_counter.fetch_add(1)]. *)
Definition take_order (job_idx : nat) (s : stats) : stats * Z :=
  (mkStats (order_counter s + 1) (<[job_idx := order_counter s]> (completion_order s)) (completed s), order_counter s).

(** Open, write [data], close; [after] is what follows on every path. *)
Definition write_file (path data : view) (after : coro stats) : coro stats :=
  CoAwait (Open_ctor path (Z.lor (Z.lor O_CREAT O_WRONLY) O_TRUNC) default_mode AT_FDCWD) None (fun fd =>
    if 0 <=? fd then
      CoAwait (Write_ctor fd data 0) None (fun _ => CoAwait (Close_ctor fd) None (fun _ => after))
    else after).

Definition write_random_file (path data : view) : coro stats :=
  write_file path data (CoDo count_completed (fun _ => CoReturn 0)).
Definition write_random_sized_file (path data : view) (job_idx : nat) : coro stats :=
  write_file path data (CoDo (take_order job_idx) (fun _ => CoDo count_completed (fun _ => CoReturn 0))).

(** The jobs posted to the runtime; the worker index is not used. *)
Definition write_job (path data : view) (worker_idx : nat) : callable stats := job (write_random_file path data).
Definition sized_job (path data : view) (i worker_idx : nat) : callable stats := job (write_random_sized_file path data i).

(** No two jobs have the same place in the order of completion. *)
Definition ranked (s : stats) : Prop :=
  (forall i x, completion_order s !! i = Some x -> -1 <= x < order_counter s) /\ 0 <= order_counter s /\
  forall i j x, completion_order s !! i = Some x -> completion_order s !! j = Some x -> 0 <= x -> i = j.

Lemma take_order_ranked job_idx s : ranked s -> ranked (fst (take_order job_idx s)).
Proof.
  intros (Hr & H0 & Hd). cbn. split_and!; cbn; [|lia|].
  - intros i x Hi. apply list_lookup_insert_Some in Hi as [(-> & <- & _)|[_ Hi]]; [lia|]. specialize (Hr i x Hi). lia.
  - intros i j x Hi Hj Hx. apply list_lookup_insert_Some in Hi as [(-> & <- & _)|[Hni Hi]];
      apply list_lookup_insert_Some in Hj as [(-> & Ej & _)|[Hnj Hj]]; try done.
    + specialize (Hr j _ Hj). lia.
    + subst x. specialize (Hr i _ Hi). lia.
    + by eapply Hd.
Qed.

Lemma write_file_counts g n path data after :
  counts g ranked n (denote after) -> counts g ranked n (denote (write_file path data after)).
Proof.
  intros Ha. cbn. split; [done|]. intros fd. destruct (0 <=? fd); cbn; [|done]. split; [done|]. intros _. split; [done|]. by intros _.
Qed.

Lemma write_counts path data : counts completed ranked 1 (denote (write_random_file path data)).
Proof. apply write_file_counts. cbn. right. split; [|done]. by intros u Hu. Qed.

Lemma sized_counts path data i : counts completed ranked 1 (denote (write_random_sized_file path data i)).
Proof.
  apply write_file_counts. cbn. left. split; [|intros _; right; split; [by intros u Hu|done]].
  intros u Hu. split; [by apply take_order_ranked|cbn; lia].
Qed.

(** Every job takes one number. *)
Lemma sized_counts_order path data i : counts order_counter ranked 1 (denote (write_random_sized_file path data i)).
Proof.
  apply write_file_counts. cbn. right. split; [intros u Hu; split; [by apply take_order_ranked|done]|].
  intros _. split; [|done]. intros u Hu. split; [done|cbn; lia].
Qed.

Lemma sized_job_good known nw timed path data i j : good_fn known nw timed (sized_job path data i j).
Proof.
  cbn. split_and!; [done|by left| |by intros []]. intros fd. destruct (0 <=? fd); [|done].
  cbn. split; [by left|]. intros _. split; [by left|done].
Qed.

Lemma sized_job_counted nw path data i : (0 < nw)%nat -> job_adds nw completed ranked (fun _ => 1) (sized_job path data i).
Proof. intros Hnw. split; [done|]. intros j _. eexists. split; [reflexivity|apply sized_counts]. Qed.
Lemma sized_job_ordered nw path data i : (0 < nw)%nat -> job_adds nw order_counter ranked (fun _ => 1) (sized_job path data i).
Proof. intros Hnw. split; [done|]. intros j _. eexists. split; [reflexivity|apply sized_counts_order]. Qed.
End Writes.

(** ** The theorems of Serving at two posted reads

    A ring of eight entries; two threads post a read each, then the loop turns
    twice: both files have been opened and their reads are staged. *)
#[local] Existing Instance demo_kernel.
#[local] Existing Instance demo_kernel_spec.
#[local] Existing Instance demo_responsive.

Module TwoReads.
Import Reads.

Definition path (i : Z) : view := mkView (4096 * (i + 1)) 0.
Definition idle : world ReadStats (list io_uring_sqe) :=
  mkWorld (mkSched 0 (fresh_io 5 3 0) 6 false false [] ∅ 0 ∅ 0 false (fun _ => true))
    (mkShared {[ 0%nat := mkBox [] 0 ]} (mkReadStats 2 0 0) 0 0) [].

Definition pushed (box : mailbox ReadStats) (i : Z) : mailbox ReadStats :=
  mkBox (inbox_ box ++ [read_job (path i) (65536 * (i + 1))]) (efd_counter box).
Definition announced (box : mailbox ReadStats) : mailbox ReadStats := mkBox (inbox_ box) (poked (efd_counter box)).
Definition box1 := announced (pushed (mkBox [] 0) 0).
Definition box2 := announced (pushed box1 1).
Definition push1 : world ReadStats (list io_uring_sqe) := set_box 0 (pushed (mkBox [] 0) 0) idle.
Definition write1 : world ReadStats (list io_uring_sqe) := set_box 0 box1 push1.
Definition push2 : world ReadStats (list io_uring_sqe) := set_box 0 (pushed box1 1) write1.
Definition posted : world ReadStats (list io_uring_sqe) := set_box 0 box2 push2.
Definition turned (w : world ReadStats (list io_uring_sqe)) : world ReadStats (list io_uring_sqe) := snd (reap (snd (drain w))).
Definition reading := turned (turned posted).

#[local] Abbreviation serving := (serving demo_known 0 false completed any).

Lemma idle_started : started demo_known 0 false idle.
Proof.
  exists 0%nat, (fresh_io 5 3 0), (fun _ _ => 6), (fun _ => true), (mkBox [] 0). split_and!; try done.
  - apply fresh_io_wf; [lia|done].
  - split; try done.
    + intros d ->. eexists. apply lookup_insert_eq.
    + intros d box. cbn [idle sh boxes]. rewrite lookup_singleton_Some. intros [_ <-]. done.
Qed.

Lemma posted_serving : serving 2 0 AtTop posted.
Proof.
  apply (serving_step demo_known 0 false completed any 2 1 AtTop push2); [|by apply (ss_write 0 AtTop push2 (pushed box1 1))].
  apply (serving_push demo_known 0 false completed any 1 0 AtTop write1 box1 (read_one_file (path 1) 131072)); [|reflexivity|apply read_fit|done].
  apply (serving_step demo_known 0 false completed any 1 1 AtTop push1); [|by apply (ss_write 0 AtTop push1 (pushed (mkBox [] 0) 0))].
  apply (serving_push demo_known 0 false completed any 0 0 AtTop idle (mkBox [] 0) (read_one_file (path 0) 65536)); [|reflexivity|apply read_fit|done].
  apply serving_start; [apply idle_started| |done|done].
  intros d box. cbn [idle sh boxes]. rewrite lookup_singleton_Some. by intros [_ <-].
Qed.

(** One step of the loop. *)
Definition looped (x : pc ReadStats * world ReadStats (list io_uring_sqe)) : pc ReadStats * world ReadStats (list io_uring_sqe) :=
  match loop_step x.1 x.2 with (Normal c, w) => (c, w) | _ => x end.

Lemma looped_serving N p x :
  serving N p x.1 x.2 -> match loop_step x.1 x.2 with (Normal _, _) => true | _ => false end = true -> serving N p (looped x).1 (looped x).2.
Proof.
  intros Hs. unfold looped. destruct (loop_step x.1 x.2) as [[c| |] w] eqn:E; try done. intros _.
  eapply serving_step; [exact Hs|by apply ss_loop].
Qed.

Lemma reading_serving : serving 2 0 AtTop reading.
Proof.
  apply (serving_turn demo_known 0 false completed any 2 0 (turned posted) (snd (drain (turned posted))));
    [|vm_compute; reflexivity|vm_compute; reflexivity].
  apply (serving_turn demo_known 0 false completed any 2 0 posted (snd (drain posted)));
    [apply posted_serving|vm_compute; reflexivity|vm_compute; reflexivity].
Qed.

(** The loop has taken both callables out of its inbox. *)
Definition reads_taken : pc ReadStats * world ReadStats (list io_uring_sqe) := looped (looped (looped (looped (AtTop, posted)))).

Lemma reads_taken_serving : serving 2 0 reads_taken.1 reads_taken.2.
Proof. unfold reads_taken. do 4 (apply looped_serving; [|vm_compute; reflexivity]). apply posted_serving. Qed.

Lemma every_job_accounted_witness :
  length (held (position reads_taken.1)) = 2%nat /\
  Z.of_nat (queued (sh reads_taken.2)) + Z.of_nat (length (held (position reads_taken.1))) + Z.of_nat (size (awts (me reads_taken.2))) +
    completed (user (sh reads_taken.2)) = 2.
Proof.
  split; [vm_compute; reflexivity|].
  exact (proj1 (every_job_accounted demo_known 0 false completed any 2 0 reads_taken.1 reads_taken.2 reads_taken_serving)).
Defined.


(** The main thread looks while the files are being read, and again when both
    are closed; then it calls [shutdown]. *)
Definition both_read := turned (turned reading).
Definition looks (j : nat) : at_work (U:=ReadStats) (K:=list io_uring_sqe) := (0%nat, AtTop, match j with O => reading | _ => both_read end).

Lemma both_read_serving : serving 2 0 AtTop both_read.
Proof.
  apply (serving_turn demo_known 0 false completed any 2 0 (turned reading) (snd (drain (turned reading))));
    [|vm_compute; reflexivity|vm_compute; reflexivity].
  apply (serving_turn demo_known 0 false completed any 2 0 reading (snd (drain reading)));
    [apply reading_serving|vm_compute; reflexivity|vm_compute; reflexivity].
Qed.

Lemma reads_test_passes_witness :
  completed (user (sh reading)) = 0 /\
  exists n w', (forall m, shutdown (n + m) both_read = (Normal tt, w')) /\
    reads_checks 2 (user (sh w')) = (0 <? succeeded (user (sh w'))).
Proof.
  split; [vm_compute; reflexivity|].
  destruct (reads_test_passes demo_known 0 false looks (fun j => Z.of_nat j) 5 (Some 9) 2 1) with (p := 0%nat) (w := both_read)
    as (n & w' & Hn & _ & _ & Hv).
  - intros [|j]; [apply reading_serving|apply both_read_serving].
  - vm_compute. reflexivity.
  - reflexivity.
  - exists n, w'. exact (conj Hn Hv).
Defined.
End TwoReads.

(** ** A runtime with one worker *)

Section OneWorker.
Context {U : Type}.
#[local] Abbreviation R := (runtime U (list io_uring_sqe)).

Definition node (id : nat) : sched U * list io_uring_sqe :=
  (mkSched id (fresh_io (10 + Z.of_nat id) 3 0) (20 + Z.of_nat id) false false [] ∅ 0 ∅ 0 false (fun _ => true), []).
Definition idle (u : U) : R :=
  mkRuntime StIdle [node 0; node 1] [NotJoinable; NotJoinable]
    (mkShared (<[0%nat := mkBox [] 0]> (<[1%nat := mkBox [] 0]> ∅)) u 0 1) Outside.

Lemma idle_fresh u : fresh_runtime 1 false (idle u).
Proof. by apply (ctor_fresh demo_io demo_eventfd (fun _ => true) false 1 64 u _ demo_io_fresh). Qed.

Lemma idle_boxes u d box : boxes (rt_shared (idle u)) !! d = Some box -> inbox_ box = [].
Proof. cbn. rewrite !lookup_insert. repeat case_decide; [by intros [= <-]..|by rewrite lookup_empty]. Qed.

Definition turned (i : nat) (r : R) : R :=
  match node_world r i with Some w => put_world i (snd (reap (snd (drain w)))) r | None => r end.

(** Whether node [i] can turn its loop, as a test. *)
Definition can_turn (i : nat) (r : R) : bool :=
  match node_world r i with
  | Some w =>
      (eventfd_armed_ (me w) || (sq_count (sq (s_io (me w))) <? sq_entries (sq (s_io (me w))))) &&
      match drain w with
      | (Normal tt, w1) => match reap w1 with (Normal tt, _) => true | _ => false end
      | _ => false
      end
  | None => false
  end.

(** Both nodes are between two turns, and nobody is inside [Runtime::post]. *)
Definition resting (r : R) : threads U (list io_uring_sqe) := mkThreads r [AtTop; AtTop] 0.

Lemma resting_top i : (i < 2)%nat -> [AtTop; AtTop] !! i = Some (AtTop (U:=U)).
Proof. destruct i as [|[|i]]; [done|done|lia]. Qed.

(** Node [i] takes a whole turn, on its thread or in [shutdown]. *)
Lemma turned_steps i (r : R) :
  (i < 2)%nat -> can_turn i r = true ->
  match node_world r i with
  | Some w => bool_decide (runners r !! i = Some (Live false)) ||
              (match at_ r with Closing j => bool_decide (j = i) | _ => false end && negb (bool_decide (tasks_ (me w) = [])))
  | None => false
  end = true ->
  rtc (tstep 1 false None) (resting r) (resting (turned i r)).
Proof.
  intros Hi Hc Hwho. unfold can_turn, turned in *. destruct (node_world r i) as [w|] eqn:Hw; [|done].
  apply andb_true_iff in Hc as [Ha Hd]. destruct (drain w) as [[[]| |] w1] eqn:Ed; try done.
  destruct (reap w1) as [[[]| |] w2] eqn:Er; try done. cbn [snd].
  replace (snd (reap w1)) with w2 by (by rewrite Er). apply (whole_turn 1 false (resting r) i w w1 w2); [by apply resting_top|done| | |done|done].
  - apply orb_true_iff in Ha as [Ha|Ha]; [by left|right; by apply Z.ltb_lt].
  - apply orb_true_iff in Hwho as [Hl|[Hat Ht]%andb_true_iff]; [left; by apply bool_decide_eq_true in Hl|right].
    apply negb_true_iff, bool_decide_eq_false in Ht. split; [|done]. cbn.
    destruct (at_ r); try done. by apply bool_decide_eq_true in Hat as ->.
Qed.

Lemma turned_serving J F fs i (r : R) :
  tserving 1 false J F fs (resting r) -> (i < 2)%nat -> can_turn i r = true ->
  match node_world r i with
  | Some w => bool_decide (runners r !! i = Some (Live false)) ||
              (match at_ r with Closing j => bool_decide (j = i) | _ => false end && negb (bool_decide (tasks_ (me w) = [])))
  | None => false
  end = true ->
  tserving 1 false J F fs (resting (turned i r)).
Proof. intros Hs Hi Hc Hw. by eapply tserving_steps; [apply turned_steps|]. Qed.

(** One step of node [i]'s loop, on its live thread. *)
Definition stepped (i : nat) (T : threads U (list io_uring_sqe)) : threads U (list io_uring_sqe) :=
  match node_world (rt_ T) i, pcs T !! i with
  | Some w, Some c => match loop_step c w with
                      | (Normal c', w') => mkThreads (put_world i w' (rt_ T)) (<[i := c']> (pcs T)) (posting T)
                      | _ => T
                      end
  | _, _ => T
  end.
Definition can_step (i : nat) (T : threads U (list io_uring_sqe)) : bool :=
  match node_world (rt_ T) i, pcs T !! i with
  | Some w, Some c =>
      bool_decide (runners (rt_ T) !! i = Some (Live false)) &&
      (eventfd_armed_ (me w) || (sq_count (sq (s_io (me w))) <? sq_entries (sq (s_io (me w))))) &&
      match loop_step c w with (Normal _, _) => true | _ => false end
  | _, _ => false
  end.

Lemma stepped_serving J F fs i T : tserving 1 false J F fs T -> can_step i T = true -> tserving 1 false J F fs (stepped i T).
Proof.
  intros Hs. unfold can_step, stepped. destruct (node_world (rt_ T) i) as [w|] eqn:Hw; [|done]. destruct (pcs T !! i) as [c|] eqn:Hc; [|done].
  intros [[Hr Ha]%andb_true_iff El]%andb_true_iff. destruct (loop_step c w) as [[c'| |] w'] eqn:E; try done.
  apply bool_decide_eq_true in Hr. eapply tserving_step; [exact Hs|]. eapply (ts_loop 1 false _ _ i false c w); [done| |by exists c', w'].
  intros _. split; [done|]. apply orb_true_iff in Ha as [Ha|Ha]; [by left|right; by apply Z.ltb_lt].
Qed.

End OneWorker.

(** ** The theorems of Workload at a posted write

    A job that writes a file is posted to a running runtime, handed to the
    worker and started there; then [stop] is called and runs it to its end. *)
Module OneWrite.
Import Writes.

Definition at_start : stats := mkStats 0 [-1] 0.
Definition write_it : nat -> callable stats := sized_job (mkView 4096 0) (mkView 8192 256) 0.
Definition posted := snd (Runtime_post write_it (snd (start (idle at_start)))).
Definition running := turned 1 (turned 0 posted).
Definition joining0 := stop_begin running.
Definition closing0 := joined 0 (set_runner 0 Exited joining0).
Definition joining1 := closed 0 closing0.
Definition closing1 := joined 1 (set_runner 1 Exited joining1).
Definition finished := turned 1 (turned 1 (turned 1 closing1)).
Definition stopped := closed 1 finished.

#[local] Abbreviation tserving := (tserving 1 false (fun f => f = write_it) (fun u => u = at_start)).

Lemma posted_tserving : tserving [write_it] (resting posted).
Proof.
  eapply (tserving_post 1 false _ _ [] (snd (start (idle at_start)))); [|done| |reflexivity..].
  - apply (tserving_step 1 false _ _ _ (resting (idle at_start))); [|by apply ts_start].
    apply (tserving_fresh 1 false _ _ (idle at_start)); [apply idle_fresh|apply idle_boxes|done|done].
  - cbn [good_fn]. split_and!; [done|unfold node_id; lia|]. intros i. apply sized_job_good.
Qed.

Lemma running_tserving : tserving [write_it] (resting running).
Proof.
  apply (turned_serving _ _ _ 1 (turned 0 posted)); [|lia|vm_compute; reflexivity..].
  apply (turned_serving _ _ _ 0 posted); [apply posted_tserving|lia|vm_compute; reflexivity..].
Qed.

Lemma closing1_tserving : tserving [write_it] (resting closing1).
Proof.
  apply (tserving_step 1 false _ _ _ (resting (set_runner 1 Exited joining1))); [|apply (ts_join 1 false _ _ _ 1); vm_compute; reflexivity].
  apply (tserving_step 1 false _ _ _ (resting joining1)); [|apply (ts_exit 1 false _ _ _ 1); vm_compute; reflexivity].
  apply (tserving_step 1 false _ _ _ (resting closing0)).
  2: { eapply (ts_closed 1 false _ _ _ 0); [vm_compute; reflexivity..]. }
  apply (tserving_step 1 false _ _ _ (resting (set_runner 0 Exited joining0))); [|apply (ts_join 1 false _ _ _ 0); vm_compute; reflexivity].
  apply (tserving_step 1 false _ _ _ (resting joining0)); [|apply (ts_exit 1 false _ _ _ 0); vm_compute; reflexivity].
  apply (tserving_step 1 false _ _ _ (resting running)); [apply running_tserving|apply (ts_stop 1 false running); vm_compute; reflexivity].
Qed.

Lemma finished_tserving : tserving [write_it] (resting finished).
Proof.
  apply (turned_serving _ _ _ 1 (turned 1 (turned 1 closing1))); [|lia|vm_compute; reflexivity..].
  apply (turned_serving _ _ _ 1 (turned 1 closing1)); [|lia|vm_compute; reflexivity..].
  apply (turned_serving _ _ _ 1 closing1); [apply closing1_tserving|lia|vm_compute; reflexivity..].
Qed.

Lemma stopped_tserving : tserving [write_it] (resting stopped).
Proof.
  apply (tserving_step 1 false _ _ _ (resting finished)); [apply finished_tserving|].
  eapply (ts_closed 1 false _ _ _ 1); [vm_compute; reflexivity..].
Qed.

Lemma at_start_ranked : ranked at_start.
Proof.
  split_and!; cbn; [|lia|]; intros [|i]; cbn; try done; [intros x [= <-]; lia|]. intros [|j]; cbn; try done.
Qed.

(** The job, as the theorems want it. *)
Lemma write_it_counted fs T :
  tserving fs T -> Workload.tserving 1 false (job_adds 1 completed ranked (fun _ => 1)) (from_zero completed ranked) fs T.
Proof.
  apply tserving_mono; [intros f ->; apply sized_job_counted; lia|]. intros u ->. split; [done|apply at_start_ranked].
Qed.

(** The worker has been told of the job, and has it in hand. *)
Definition told : threads stats (list io_uring_sqe) := stepped 1 (stepped 1 (stepped 1 (stepped 1 (resting (turned 0 posted))))).

Lemma told_tserving : tserving [write_it] told.
Proof.
  unfold told. do 4 (apply stepped_serving; [|vm_compute; reflexivity]).
  apply (turned_serving _ _ _ 0 posted); [apply posted_tserving|lia|vm_compute; reflexivity..].
Qed.

Lemma runtime_jobs_accounted_witness :
  in_hand told = 1%nat /\
  Z.of_nat (queued (rt_shared (rt_ told))) + Z.of_nat (in_hand told) + Z.of_nat (waiting_ops (rt_ told)) + completed (user (rt_shared (rt_ told))) = 1.
Proof.
  split; [vm_compute; reflexivity|].
  exact (proj1 (runtime_jobs_accounted 1 false completed ranked _ told (write_it_counted _ _ told_tserving))).
Defined.

Lemma stop_finishes_started_jobs_witness : completed (user (rt_shared running)) = 0 /\ completed (user (rt_shared stopped)) = 1.
Proof.
  split; [vm_compute; reflexivity|].
  destruct (stop_finishes_started_jobs 1 false completed ranked _ (resting stopped) (write_it_counted _ _ stopped_tserving)) as (_ & _ & E);
    [vm_compute; reflexivity..|]. etrans; [exact E|]. vm_compute. reflexivity.
Defined.

(** Two labels: what [completed] and what [order_counter] count. *)
Lemma each_job_once_witness : completed (user (rt_shared stopped)) = 1 /\ order_counter (user (rt_shared stopped)) = 1.
Proof.
  pose proof (each_job_once 1 false (fun b : bool => if b then completed else order_counter) (fun _ _ => 1) ranked
    [write_it] (resting stopped)) as H. cbn beta in H.
  assert (Hs : forall b : bool, (if b then completed else order_counter) (user (rt_shared stopped)) = 1); [|by split; [apply (Hs true)|apply (Hs false)]].
  intros b. apply H; [|vm_compute; reflexivity..]. eapply tserving_mono; [| |apply stopped_tserving]; cbn beta.
  - intros f -> l. split; [done|]. destruct l; [apply sized_job_counted|apply sized_job_ordered]; lia.
  - intros u -> l. split; [by destruct l|apply at_start_ranked].
Defined.

(** The main thread looks while the job is in the inbox, and when the file is
    written. *)
Definition looks (j : nat) : threads stats (list io_uring_sqe) := resting (match j with O => posted | _ => finished end).

Lemma waited_runtime_stops_witness :
  completed (user (rt_shared posted)) = 0 /\ state_ finished = StRunning /\
  exists T', rtc (tstep 1 false None) (resting finished) T' /\ at_ (rt_ T') = Outside /\ state_ (rt_ T') = StStopped.
Proof.
  split; [vm_compute; reflexivity|]. split; [vm_compute; reflexivity|].
  apply (waited_runtime_stops 1 false completed ranked looks (fun j => Z.of_nat j) 5 (Some 9) [write_it] 1);
    [|vm_compute; reflexivity|reflexivity|vm_compute; reflexivity].
  intros [|j]; apply write_it_counted; [apply posted_tserving|apply finished_tserving].
Defined.
End OneWrite.

(** A read handed to the worker. *)
Module OneRead.
Import Handoff.

Definition at_start : PerWorkerStats := PerWorkerStats_ctor 1.
Definition read_it : nat -> callable PerWorkerStats := worker_job (mkView 4096 0) 8192.
Definition posted := snd (Runtime_post read_it (snd (start (idle at_start)))).
Definition handed_out := turned 0 posted.

#[local] Abbreviation tserving := (tserving 1 false (fun f => f = read_it) (fun u => u = at_start)).

Lemma handed_tserving : tserving [read_it] (resting handed_out).
Proof.
  apply (turned_serving _ _ _ 0 posted); [|lia|vm_compute; reflexivity..].
  eapply (tserving_post 1 false _ _ [] (snd (start (idle at_start)))); [|done| |reflexivity..].
  - apply (tserving_step 1 false _ _ _ (resting (idle at_start))); [|by apply ts_start].
    apply (tserving_fresh 1 false _ _ (idle at_start)); [apply idle_fresh|apply idle_boxes|done|done].
  - cbn [good_fn]. split_and!; [done|unfold node_id; lia|]. intros i. apply worker_job_good.
Qed.

Lemma worker_shares_witness : next_worker_ (rt_shared handed_out) = 1 /\ completed_on 0 (user (rt_shared handed_out)) <= 1.
Proof.
  split; [vm_compute; reflexivity|].
  destruct (worker_shares 1 false completed_on (sized 1) [read_it] (resting handed_out)) with (i := 0%nat) as [[_ H] _];
    [|done|lia|eapply Z.le_trans; [exact H|]; vm_compute; discriminate].
  eapply tserving_mono; [| |apply handed_tserving]; cbn beta.
  - intros f -> i Hi. apply worker_job_shared. lia.
  - intros u -> i Hi. split; [|done]. by assert (i = 0%nat) as -> by lia.
Defined.

(** The worker opens, reads and closes the file. *)
Definition opened := turned 1 handed_out.
Definition read := turned 1 opened.
Definition closing := turned 1 read.
Definition all_read := turned 1 closing.

Lemma all_read_tserving : tserving [read_it] (resting all_read).
Proof.
  apply (turned_serving _ _ _ 1 closing); [|lia|vm_compute; reflexivity..].
  apply (turned_serving _ _ _ 1 read); [|lia|vm_compute; reflexivity..].
  apply (turned_serving _ _ _ 1 opened); [|lia|vm_compute; reflexivity..].
  apply (turned_serving _ _ _ 1 handed_out); [apply handed_tserving|lia|vm_compute; reflexivity..].
Qed.

Lemma handoff_test_passes_witness :
  completed_on 0 (user (rt_shared handed_out)) = 0 /\ handoff_checks 1 1 (user (rt_shared all_read)) = true.
Proof.
  split; [vm_compute; reflexivity|].
  destruct (handoff_test_passes 1 false (fun j => resting (match j with O => handed_out | _ => all_read end)) (fun j => Z.of_nat j) 5 (Some 9)
    [read_it] 1) with (T := resting all_read) as [E _]; [cbn; lia|done| |vm_compute; reflexivity|reflexivity|].
  - intros [|j]; (eapply tserving_mono; [| |first [apply handed_tserving|apply all_read_tserving]]); try done;
      intros f ->; by exists (mkView 4096 0), 8192.
  - etrans; [exact E|]. vm_compute. reflexivity.
Defined.
End OneRead.

(** ** The theorems of Threads at a post that races with the dispatcher

    The dispatcher is about to enter the kernel when the job is pushed; the
    eventfd is written, and then [stop] is called. *)
Module Raced.
Import Writes OneWrite.

#[local] Abbreviation T := (threads stats (list io_uring_sqe)).
#[local] Abbreviation treach := (treach 1 false).

Definition tops : list (pc stats) := [AtTop; AtTop].
Definition started : runtime stats (list io_uring_sqe) := snd (start (idle at_start)).
Definition entering : runtime stats (list io_uring_sqe) :=
  match node_world started 0 with Some w => put_world 0 (snd (loop_step AtTop w)) started | None => started end.
Definition boxed (b : mailbox stats) (r : runtime stats (list io_uring_sqe)) : runtime stats (list io_uring_sqe) :=
  match node_world r 0 with Some w => put_world 0 (set_box (s_id (me w)) b w) r | None => r end.
Definition pushed : runtime stats (list io_uring_sqe) := boxed (mkBox [FnDispatch write_it] 0) entering.
Definition written : runtime stats (list io_uring_sqe) := boxed (mkBox [FnDispatch write_it] 1) pushed.
Definition raced : T := mkThreads written [AtEnter; AtTop] 0.
Definition stopping : T := mkThreads (stop_begin written) [AtEnter; AtTop] 0.

Lemma raced_treach : treach raced.
Proof.
  eapply (treach_step 1 false (mkThreads pushed [AtEnter; AtTop] 1)).
  2: { refine (ts_write 1 false pushed [AtEnter; AtTop] 0 _ (mkBox [FnDispatch write_it] 0) _ _); reflexivity. }
  eapply (treach_step 1 false (mkThreads entering [AtEnter; AtTop] 0)).
  2: { refine (ts_push 1 false entering [AtEnter; AtTop] 0 _ (mkBox [] 0) write_it _ _ _); [reflexivity|reflexivity|].
       cbn [good_fn]. split_and!; [done|unfold node_id; lia|]. intros i. apply sized_job_good. }
  eapply (treach_step 1 false (mkThreads started tops 0)).
  2: { eapply (ts_loop 1 false _ _ 0 false AtTop); [reflexivity| |].
       2: { exists AtEnter. eexists. split_and!; [reflexivity|reflexivity|reflexivity|reflexivity]. }
       intros _. split; [done|right; reflexivity]. }
  eapply (treach_step 1 false (mkThreads (idle at_start) tops 0)); [|by apply ts_start].
  apply (treach_fresh 1 false (idle at_start) (idle_fresh at_start)).
Qed.

Lemma stopping_treach : treach stopping.
Proof. eapply (treach_step 1 false raced); [apply raced_treach|by apply ts_stop]. Qed.

Lemma threads_memory_safe_witness :
  exists w w', node_world (rt_ raced) 0 = Some w /\ loop_step AtEnter w = (Normal AtLoad, w') /\
    forall e w'', loop_step AtEnter w = (Throw e, w'') -> exists tag, e = OtherException tag.
Proof.
  eexists _, _. split_and!; [reflexivity|vm_compute; reflexivity|].
  apply (threads_memory_safe 1 false raced 0 _ AtEnter raced_treach); done.
Defined.

Lemma threads_no_lost_wakeup_witness :
  exists w w', node_world (rt_ raced) 0 = Some w /\ loop_step AtEnter w = (Normal AtLoad, w').
Proof.
  destruct (threads_no_lost_wakeup 1 false raced 0 _ (mkBox [FnDispatch write_it] 1) raced_treach eq_refl eq_refl eq_refl) as [w' E];
    [done|done|]. eexists _, w'. split; [reflexivity|exact E].
Defined.

Lemma threads_exclusive_witness :
  pcs raced !! 0%nat = Some AtEnter /\
  ((exists b, runners (rt_ raced) !! 0%nat = Some (Live b)) \/ at_ (rt_ raced) = Closing 0).
Proof.
  split; [reflexivity|]. destruct (threads_exclusive 1 false raced raced_treach) as (_ & H & _). apply (H 0%nat); [lia|done].
Defined.

Lemma stopped_thread_leaves_witness :
  runners (rt_ stopping) !! 0%nat = Some (Live true) /\
  exists w, node_world (rt_ stopping) 0 = Some w /\ forall q w', loop_step AtEnter w <> (Stuck q, w').
Proof.
  split; [reflexivity|]. eexists. split; [reflexivity|]. intros q w'.
  destruct (stopped_thread_leaves 1 false stopping 0 _ AtEnter stopping_treach eq_refl eq_refl eq_refl) as (_ & H & _).
  apply H. done.
Defined.
End Raced.
