(* ===== verification/RingTests.v ===== *)
(** * RingTests: the sections of tests2/hangs/main.cpp on the ring and on exceptions

    The test cases "IO ring initialization", "IO ring SQ", "IO ring CQ", "IO
    ring teardown" and "IOException": each section as a computation on what
    the process owns, that ends with the truth value of its requirements.  The
    kernel and the words it publishes in the mappings are parameters; what
    io_uring_setup(2) and mmap(2) document of them is the class [RingKernel]. *)
From stdpp Require Import prelude list strings.
From Stdlib Require Import ZArith Lia.
From S2P Require Import Prelude ErrorCodes IoSetup.

(** The kernel a process talks to.  What it answers to the calls of one
    constructor may depend on what the process owns when the constructor
    starts; [word_at o a] is the 32-bit word at address [a]. *)
Record ring_kernel : Type := mkRingKernel {
  setup_at : os -> Z -> io_uring_params -> Z * io_uring_params;
  mmap_at : os -> Z -> Z -> Z -> option Z;
  word_at : os -> Z -> Z
}.

Section Sections.
Context (rk : ring_kernel).
#[local] Abbreviation M := (exec os exn).

(** [IO io{entries};] *)
Definition construct (entries : Z) : M IoObject := fun o =>
  IO_ctor (setup_at rk o) (mmap_at rk o) entries o.

(** [{ IO io{entries}; body }]: the destructor runs when the block is left,
    by an exception too. *)
Definition with_io (entries : Z) (body : IoObject -> M bool) : M bool :=
  io ← construct entries;
  r ← try (body io);
  IO_dtor io;;
  match r with inl b => mret b | inr e => throw e end.

(** [*p], [p->load()]. *)
Definition load_word (p : Z) : M Z := gets (fun o => word_at rk o p).

Definition nonnull (p : Z) : bool := negb (p =? 0).

(** *** IO ring initialization *)
Definition init_default : M bool := with_io 256 (fun _ => mret true).
Definition init_custom : M bool := with_io 512 (fun _ => mret true).
Definition init_zero : M bool :=
  r ← try (with_io 0 (fun _ => mret true));
  match r with
  | inl _ => mret false
  | inr (IOException s) => mret (bool_decide (s = IOInvalidEntries))
  | inr e => throw e
  end.
Definition fd_valid : M bool := with_io 256 (fun io => mret (0 <=? obj_fd io)).
Definition independent_instances : M bool :=
  with_io 256 (fun io1 => with_io 256 (fun io2 => mret
    (negb (obj_fd io1 =? obj_fd io2) && negb (obj_sq_map io1 =? obj_sq_map io2) &&
     negb (obj_cq_map io1 =? obj_cq_map io2)))).

(** *** IO ring SQ *)
Definition sq_pointers_valid : M bool :=
  with_io 256 (fun io => mret (forallb nonnull
    [ptr_sq_head io; ptr_sq_tail io; ptr_sq_mask io; ptr_sq_entries io; ptr_sq_flags io;
     ptr_sq_dropped io; ptr_sq_array io; ptr_sq_sqes io; obj_sq_map io; obj_sqes_map io])).
Definition map_sizes_nonzero : M bool :=
  with_io 256 (fun io => mret ((0 <? obj_sq_map_size io) && (0 <? obj_sqes_map_size io))).
Definition sq_entries_nonzero : M bool :=
  with_io 256 (fun io => n ← load_word (ptr_sq_entries io); mret (0 <? n)).
Definition sq_starts_at_zero : M bool :=
  with_io 256 (fun io => h ← load_word (ptr_sq_head io); t ← load_word (ptr_sq_tail io); mret ((h =? 0) && (t =? 0))).

(** *** IO ring CQ *)
Definition cq_pointers_valid : M bool :=
  with_io 256 (fun io => mret (forallb nonnull
    [ptr_cq_head io; ptr_cq_tail io; ptr_cq_mask io; ptr_cq_entries io; ptr_cq_cqes io; obj_cq_map io])).
Definition cq_entries_at_least_sq : M bool :=
  with_io 256 (fun io => c ← load_word (ptr_cq_entries io); s ← load_word (ptr_sq_entries io); mret (s <=? c)).
Definition cq_starts_at_zero : M bool :=
  with_io 256 (fun io => h ← load_word (ptr_cq_head io); t ← load_word (ptr_cq_tail io); mret ((h =? 0) && (t =? 0))).

(** *** IO ring teardown *)
Definition teardown : M bool := with_io 256 (fun _ => mret true).
Definition two_teardowns : M bool := with_io 256 (fun _ => with_io 256 (fun _ => mret true)).

Definition ring_sections : list (M bool) :=
  [init_default; init_custom; fd_valid; independent_instances; sq_pointers_valid; map_sizes_nonzero;
   sq_entries_nonzero; sq_starts_at_zero; cq_pointers_valid; cq_entries_at_least_sq; cq_starts_at_zero;
   teardown; two_teardowns].
End Sections.

(** *** IOException *)

(** [IOException::status()]. *)
Definition status (e : exn) : option ErrorStatus :=
  match e with IOException s => Some s | OtherException _ => None end.

Definition status_preserved : bool := bool_decide (status (IOException IOSetupFailed) = Some IOSetupFailed).
Definition what_matches : bool := bool_decide (what (IOException IOSetupFailed) = to_string IOSetupFailed).
Definition to_string_table : bool :=
  forallb (fun '(s, str) => bool_decide (to_string s = Some str))
    [(OK, "OK"); (BadAllocation, "Bad allocation"); (IOInvalidEntries, "IO invalid entries");
     (IOMmapCqFailed, "IO mmap CQ ring failed"); (IOMmapSqesFailed, "IO mmap SQEs failed");
     (IOMmapSqFailed, "IO mmap SQ ring failed"); (IOSetupFailed, "IO setup failed");
     (SQFull, "Submission queue full")]%string.

(** [try { throw IOException(s); } catch (const Base &e) { ... e.what() ... }]
    where [Base] is a base class of [IOException]: [what] is virtual. *)
Definition catchable (s : ErrorStatus) : exec unit exn bool :=
  r ← try (throw (A := unit) (IOException s));
  match r with
  | inl _ => mret true
  | inr e => mret (bool_decide (what e = to_string s))
  end.
Definition bad_allocation : bool :=
  bool_decide (status (IOException BadAllocation) = Some BadAllocation) &&
  bool_decide (what (IOException BadAllocation) = to_string BadAllocation).

(** ** What the kernel documents *)

Class RingKernel (rk : ring_kernel) : Prop := {
  rk_params o n p : 0 <= fst (setup_at rk o n p) -> params_ok (snd (setup_at rk o n p));
  rk_layout o n p : 0 <= fst (setup_at rk o n p) -> layout_ok (snd (setup_at rk o n p));
  (** a completion ring smaller than the submission ring is refused *)
  rk_cq o n p : 0 <= fst (setup_at rk o n p) ->
    p_sq_entries (snd (setup_at rk o n p)) <= p_cq_entries (snd (setup_at rk o n p));
  (** descriptors and addresses in use are not given out again *)
  rk_fd o n p : fst (setup_at rk o n p) ∉ open_fds o;
  rk_mmap o size fd off a : mmap_at rk o size fd off = Some a -> 0 < a /\ a ∉ (mappings o).*1;
  (** a new ring is empty and carries its sizes, at the offsets reported *)
  rk_fresh o n io o' : construct rk n o = (Normal io, o') ->
    let p := snd (setup_at rk o n (request n)) in
    word_at rk o' (obj_sq_map io + so_head (p_sq_off p)) = 0 /\
    word_at rk o' (obj_sq_map io + so_tail (p_sq_off p)) = 0 /\
    word_at rk o' (obj_sq_map io + so_ring_entries (p_sq_off p)) = p_sq_entries p /\
    word_at rk o' (obj_cq_map io + co_head (p_cq_off p)) = 0 /\
    word_at rk o' (obj_cq_map io + co_tail (p_cq_off p)) = 0 /\
    word_at rk o' (obj_cq_map io + co_ring_entries (p_cq_off p)) = p_cq_entries p
}.

(** The kernel refused a call of a constructor. *)
Definition refusal (e : exn) : Prop :=
  e ∈ IOException <$> [IOSetupFailed; IOMmapSqFailed; IOMmapSqesFailed; IOMmapCqFailed].

(** A section passes and gives everything back, unless the kernel refuses. *)
Definition passes (m : exec os exn bool) (o : os) : Prop :=
  match m o with
  | (Normal b, o') => b = true /\ o' = o
  | (Throw e, o') => refusal e /\ o' = o
  | (Stuck _, _) => False
  end.

Section Passing.
Context (rk : ring_kernel) {Hrk : RingKernel rk}.

Lemma mmap_at_nonnull o size fd off a : mmap_at rk o size fd off = Some a -> a <> 0.
Proof. intros E. apply rk_mmap in E. lia. Qed.

Lemma failed_refusal setup mmap n s : n <> 0 -> failed_step setup mmap n s -> refusal (IOException s).
Proof.
  unfold failed_step, refusal. intros Hn. destruct (setup n (request n)) as [fd p].
  destruct s; intros H; try done; try (by destruct H); cbn; set_solver.
Qed.

(** What a body can rely on. *)
Record built (n : Z) (o : os) (io : IoObject) (o' : os) : Prop := {
  bu_eq : construct rk n o = (Normal io, o');
  bu_con : constructed (mmap_at rk o) n io;
  bu_owns : owns io o o';
  bu_fd : obj_fd io = fst (setup_at rk o n (request n));
  bu_wire : io = wire (obj_fd io) (snd (setup_at rk o n (request n))) (obj_sq_map io) (obj_sq_map_size io)
              (obj_sqes_map io) (obj_sqes_map_size io) (obj_cq_map io) (obj_cq_map_size io);
  bu_sizes : 0 < obj_sq_map_size io /\ 0 < obj_sqes_map_size io
}.

Lemma construct_cases n o :
  n <> 0 ->
  match construct rk n o with
  | (Normal io, o') => built n o io o'
  | (Throw e, o') => refusal e /\ o' = o
  | (Stuck _, _) => False
  end.
Proof.
  intros Hn. pose proof (IO_ctor_cases (setup_at rk o) (mmap_at rk o) (rk_params o) n o) as H.
  destruct (construct rk n o) as [[io|e|r] o'] eqn:E; pose proof E as E'; unfold construct in E'; rewrite E' in H; [|..|done].
  - destruct H as [Hc Ho]. pose proof (IO_ctor_wired _ _ _ _ _ _ E') as Hw. cbn zeta in Hw.
    assert (Hfd : obj_fd io = fst (setup_at rk o n (request n))) by (by rewrite Hw).
    assert (Hs : 0 <= fst (setup_at rk o n (request n))) by (rewrite <- Hfd; apply (con_fd _ _ _ Hc)).
    pose proof (ring_sizes_exact _ (rk_params o n _ Hs)) as (_ & _ & _ & S1 & S2 & _).
    assert (E1 : obj_sq_map_size io = sq_ring_size (snd (setup_at rk o n (request n)))) by (by rewrite Hw).
    assert (E2 : obj_sqes_map_size io = sqes_size (snd (setup_at rk o n (request n)))) by (by rewrite Hw).
    split; try done; [by rewrite Hfd, E1, E2|by rewrite E1, E2].
  - destruct H as (-> & s & -> & Hf). split; [|done]. by eapply failed_refusal.
Qed.

(** The rule for a block. *)
Lemma with_io_passes n body o :
  n <> 0 -> (forall io o', built n o io o' -> passes (body io) o') -> passes (with_io rk n body) o.
Proof.
  intros Hn Hb. pose proof (construct_cases n o Hn) as H. unfold passes, with_io, mbind, exec_bind.
  destruct (construct rk n o) as [[io|e|r] o']; [|done..].
  specialize (Hb io o' H). unfold passes, try in *.
  pose proof (IO_dtor_releases (mmap_at rk o) (mmap_at_nonnull o) n io o o' (bu_con _ _ _ _ H) (bu_owns _ _ _ _ H)) as Hd.
  destruct (body io o') as [[b|e|r] o2]; [| |done]; destruct Hb as [Hb ->]; by rewrite Hd.
Qed.

(** The mappings of an object are its own: not null, and not in use before. *)
Lemma built_maps n o io o' :
  built n o io o' ->
  Forall (fun a => 0 < a /\ a ∉ (mappings o).*1) [obj_sq_map io; obj_sqes_map io; obj_cq_map io].
Proof.
  intros [_ [_ _ Hsq Hsqes Hcq] _ _ _ _]. apply rk_mmap in Hsq, Hsqes.
  assert (Hc : 0 < obj_cq_map io /\ obj_cq_map io ∉ (mappings o).*1).
  { destruct Hcq as [[_ ->]|[_ Hcq]]; [done|]. by apply rk_mmap in Hcq. }
  do 3 (constructor; [done|]). constructor.
Qed.

Lemma built_layout n o io o' :
  built n o io o' ->
  let p := snd (setup_at rk o n (request n)) in params_ok p /\ layout_ok p /\ p_sq_entries p <= p_cq_entries p.
Proof.
  intros [_ Hc _ Hfd _ _] p. assert (0 <= fst (setup_at rk o n (request n))) by (rewrite <- Hfd; apply Hc).
  split_and!; [by apply rk_params|by apply rk_layout|by apply rk_cq].
Qed.

(** Every pointer is a mapping plus an offset that is not negative. *)
Lemma built_pointers n o io o' :
  built n o io o' ->
  Forall (fun a => a <> 0)
    ([ptr_sq_head io; ptr_sq_tail io; ptr_sq_mask io; ptr_sq_entries io; ptr_sq_flags io;
      ptr_sq_dropped io; ptr_sq_array io; ptr_sq_sqes io; obj_sq_map io; obj_sqes_map io] ++
     [ptr_cq_head io; ptr_cq_tail io; ptr_cq_mask io; ptr_cq_entries io; ptr_cq_cqes io; obj_cq_map io]).
Proof.
  intros Hb. pose proof (built_maps _ _ _ _ Hb) as Hm. destruct (built_layout _ _ _ _ Hb) as ([_ _ Ha Hq] & [Hs Hc] & _).
  destruct Hb as [_ _ _ _ -> _]. cbn in *. unfold is_u32 in *.
  repeat setoid_rewrite Forall_cons in Hm. repeat setoid_rewrite Forall_cons in Hs.
  repeat setoid_rewrite Forall_cons in Hc. destruct_and!. repeat constructor; lia.
Qed.

Lemma forallb_nonnull l : Forall (fun a => a <> 0) l -> forallb nonnull l = true.
Proof.
  induction 1 as [|a l Ha _ IH]; [done|]. cbn. rewrite IH. unfold nonnull. by rewrite (proj2 (Z.eqb_neq a 0) Ha).
Qed.

(** The words of a new ring, through the pointers of the object. *)
Lemma built_words n o io o' :
  built n o io o' ->
  word_at rk o' (ptr_sq_head io) = 0 /\ word_at rk o' (ptr_sq_tail io) = 0 /\
  word_at rk o' (ptr_cq_head io) = 0 /\ word_at rk o' (ptr_cq_tail io) = 0 /\
  0 < word_at rk o' (ptr_sq_entries io) <= word_at rk o' (ptr_cq_entries io).
Proof.
  intros Hb. destruct (built_layout _ _ _ _ Hb) as (Hp & _ & Hle). destruct Hb as [He _ _ _ Hw _].
  destruct (rk_fresh _ _ _ _ He) as (A1 & A2 & A3 & A4 & A5 & A6). rewrite Hw. cbn [wire ptr_sq_head ptr_sq_tail
    ptr_cq_head ptr_cq_tail ptr_sq_entries ptr_cq_entries]. rewrite A1, A2, A3, A4, A5, A6. destruct Hp. lia.
Qed.

(** A second ring, built while the first is alive, shares nothing with it. *)
Lemma built_independent n n' o io o1 io' o2 :
  built n o io o1 -> built n' o1 io' o2 ->
  obj_fd io <> obj_fd io' /\ obj_sq_map io <> obj_sq_map io' /\ obj_cq_map io <> obj_cq_map io'.
Proof.
  intros Hb Hb'. destruct Hb as [_ [_ _ _ _ Hcq] [Ofd Omap] _ _ _]. pose proof (built_maps _ _ _ _ Hb') as Hm.
  repeat setoid_rewrite Forall_cons in Hm. destruct Hm as ([_ M1] & _ & [_ M3] & _). rewrite Omap in M1, M3.
  split_and!.
  - rewrite (bu_fd _ _ _ _ Hb'). intros E. apply (rk_fd o1 n' (request n')). rewrite Ofd, E. set_solver.
  - intros E. apply M1. rewrite E, !fmap_app. set_solver.
  - intros E. apply M3. rewrite <- E, !fmap_app. destruct Hcq as [[_ ->]|[Hpos _]]; [set_solver|].
    apply Z.ltb_lt in Hpos. rewrite Hpos. set_solver.
Qed.

(** The ring sections pass.  Against a kernel that behaves as documented, every
    section on construction, the pointers and sizes of the two rings, their
    initial contents, independence of two rings and destruction passes and
    leaves the process owning what it owned before, or ends with the exception
    of a refused system call, and then too nothing is left behind. *)
Theorem ring_sections_pass o : Forall (fun m => passes m o) (ring_sections rk) /\ init_zero rk o = (Normal true, o).
Proof.
  split; [|done]. repeat constructor; apply with_io_passes; try done; intros io o' Hb; try done.
  all: pose proof (built_pointers _ _ _ _ Hb) as Hp; apply Forall_app in Hp as [Hsq Hcq];
    pose proof (built_words _ _ _ _ Hb) as (W1 & W2 & W3 & W4 & W5 & W6).
  - split; [|done]. apply Z.leb_le, (bu_con _ _ _ _ Hb).
  - apply with_io_passes; [done|]. intros io2 o2 Hb2. split; [|done].
    destruct (built_independent _ _ _ _ _ _ _ Hb Hb2) as (N1 & N2 & N3).
    by rewrite (proj2 (Z.eqb_neq _ _) N1), (proj2 (Z.eqb_neq _ _) N2), (proj2 (Z.eqb_neq _ _) N3).
  - split; [|done]. by apply forallb_nonnull.
  - split; [|done]. apply andb_true_iff. split; apply Z.ltb_lt; apply Hb.
  - split; [|done]. by apply Z.ltb_lt.
  - split; [|done]. by rewrite W1, W2.
  - split; [|done]. by apply forallb_nonnull.
  - split; [|done]. by apply Z.leb_le.
  - split; [|done]. by rewrite W3, W4.
  - by apply with_io_passes.
Qed.
End Passing.

(** The exception sections pass, and [IOException] keeps its message when it
    is caught as a base class, for every status. *)
Theorem exception_sections_pass :
  status_preserved = true /\ what_matches = true /\ to_string_table = true /\ bad_allocation = true /\
  forall s, catchable s () = (Normal true, ()).
Proof. split_and!; [vm_compute; reflexivity..|]. intros s. by destruct s. Qed.

(** ** A kernel that hands out fresh descriptors and addresses *)

Definition above (l : list Z) : Z := 1 + foldr Z.max 0 l.

Lemma above_fresh l d : 0 <= d -> above l + d ∉ l.
Proof.
  intros Hd Hin. assert (H : forall x, x ∈ l -> x <= foldr Z.max 0 l).
  { clear. induction l as [|y l IH]; intros x; [set_solver|]. rewrite elem_of_cons. cbn. intros [->|Hx]; [lia|]. apply IH in Hx. lia. }
  apply H in Hin. unfold above in Hin. lia.
Qed.

Lemma above_pos l : 0 < above l.
Proof. unfold above. assert (0 <= foldr Z.max 0 l) by (induction l; cbn; lia). lia. Qed.

(** The ring built last: sizes at their offsets, zero elsewhere. *)
Definition last_ring_word (o : os) (a : Z) : Z :=
  match mappings o with
  | _ :: (sqmap, _) :: _ => if a - sqmap =? 24 then 4 else if a - sqmap =? 28 then 8 else 0
  | _ => 0
  end.

Definition fresh_kernel : ring_kernel := {|
  setup_at o n p := (above (open_fds o), demo_params 1);
  mmap_at o size fd off := Some (above (mappings o).*1 + Z.abs off);
  word_at := last_ring_word
|}.

#[export] Instance fresh_ring_kernel : RingKernel fresh_kernel.
Proof.
  split; cbn.
  - intros. apply demo_params_ok.
  - intros. apply demo_layout_ok.
  - intros. lia.
  - intros o _ _. rewrite <- (Z.add_0_r (above _)). by apply above_fresh.
  - intros o _ _ off a [= <-]. pose proof (above_pos (mappings o).*1). split; [lia|]. apply above_fresh. lia.
  - intros o n io o'. unfold construct, IO_ctor. destruct (n =? 0); [done|].
    unfold do_setup, do_mmap, throw, mbind, exec_bind, mret, exec_ret. cbn.
    pose proof (above_pos (open_fds o)). destruct (above (open_fds o) <? 0); [done|]. cbn. intros [= <- <-].
    unfold last_ring_word. cbn. split_and!; (repeat case_match; rewrite ?Z.eqb_eq, ?Z.eqb_neq in *; lia).
Qed.

Lemma ring_sections_pass_witness :
  (fun m : exec os exn bool => fst (m (mkOs [3] []))) <$> ring_sections fresh_kernel =
    replicate 13 (Normal true) /\ init_zero fresh_kernel (mkOs [3] []) = (Normal true, mkOs [3] []).
Proof.
  split; [vm_compute; reflexivity|]. apply (ring_sections_pass fresh_kernel).
Defined.
